(* ===== verification/_CoqProject ===== *)
-Q . S2P
Prelude.v
Bytes.v
Store.v
Mem.v
Aad.v
GroupKey.v
GroupKeyRun.v
Db.v
Threads.v
Dedupe.v
Outbox.v
Contacts.v
Net.v
Dm.v
Group.v
GroupOps.v
Inbox.v
DmReceive.v
Retry.v
PumpOutbox.v
Broadcast.v
Broker.v
RealClient.v
Crypto.v
Envelope.v
NeuralKey.v
MachineKey.v
Sdk.v
Faults.v
EndToEnd.v
Restart.v
Live.v
Concurrent.v
Race.v
Typed.v
TestKit.v
StorageTests.v
GroupTests.v
DmTests.v
IndexTests.v
NetTests.v
CryptoTests.v
GroupKeyTests.v
IdentityTests.v
