(* ===== verification/Prelude.v ===== *)
(** * zero-sdk, verified

    A model of the Rust workspace [zero-sdk] (src/crates/) and the theorems that make it
    correct. The SDK is an end-to-end encrypted messenger's core: a local store, direct and
    group messaging with receipts, an inbox index, an outbox that is retried until the network
    takes a sector, an envelope that encrypts and signs, and the identity that holds the keys.

    ** The program and the files that model it

    Storage ([zero-storage]). One RocksDB database with a column family per concern.
    - [Store]: the [rocksdb] and [postcard] crates as interfaces ([RocksDB], [Postcard]) with
      the laws the code relies on ([RocksOk], [PostcardOk]), and [keyspace], which ties the
      byte keys of one column family to an abstract finite map ([repr]).
    - [Db]: [sector.rs], [error.rs], [db.rs]. [open], [put_raw], [get_raw], [delete_raw],
      [prefix_scan_raw], the sector operations and [iter_chain]. A read is a function of the
      database; a write takes the database and returns it with its result. [runs f db r st]
      says that [f] on [db] returns [r] and leaves the contents [st]; [good] that the database
      is open with all its column families and healthy. The other files state their operations
      with these two.
    - [Dedupe]: [dedupe.rs] (re-exported by [zero-network/src/dedupe.rs]), over the [lru] crate.
    - [Outbox]: [outbox.rs].

    Messaging ([zero-messaging]).
    - [Contacts]: [contacts/]. [Dm]: [dm/types.rs], [service.rs], [paginate.rs], [receipt.rs].
      [DmReceive]: [dm/receive.rs], over [Net], [Dedupe] and [Dm].
    - [Group]: [group/types.rs], [permissions.rs], [manifest.rs]. [GroupOps]: [group/mod.rs].
    - [Inbox]: [inbox/types.rs], [index.rs], [service.rs].

    Network ([zero-network]).
    - [Net]: [error.rs] and the [GridClient] trait of [client.rs], a type class.
    - [Retry]: [retry.rs], with the trait [OutboxHandle] as a type class and its contract.
      [PumpOutbox]: the in-memory handle of the same file, and the pump over many passes.
    - [Broadcast]: tokio's broadcast channels as an interface and the table of topics that both
      clients keep. [Broker]: [mock.rs]. [RealClient]: [real.rs] over [grid_net].

    Cryptography ([zero-crypto]) and identity ([zero-identity]).
    - [Aad]: [aad.rs], [error.rs] and the identifiers. [Crypto]: [encrypt.rs], [sign.rs].
      [Envelope]: [envelope.rs].
    - [GroupKey]: [group_key.rs] over [openmls]. [GroupKeyRun]: a whole group of members that
      use these wrappers.
    - [NeuralKey]: [neural_key.rs], [error.rs]. [MachineKey]: [machine_key.rs].

    The facade ([zero-sdk]): [Sdk], which opens the database and wires the services over it.

    Across the components: [Faults], the operations of the facade on a database that may refuse
    any call; [EndToEnd], a message and its receipt between two machines; [Restart], one process
    after the other on the same directory; [Live], a process whose receive loops run beside the
    calls of its API; [Threads], operations taken apart at their calls of the database and run on
    many threads, [Concurrent], the facade so taken apart, [Typed], what each column family holds
    then, and [Race], what threads can do to each other. They add no code of the program, only
    its parts run together.

    The repository's own tests, run on the model: [TestKit] (a test as a computation that may
    panic), [StorageTests], [GroupTests], [DmTests], [IndexTests], [NetTests], [CryptoTests],
    [GroupKeyTests], [IdentityTests], the unit tests of the crates and the scenarios of their
    [tests] directories. Each test is a definition, with the name and the calls of
    the source, and the lemma [..._pass] at the end of a file evaluates all of them on in-memory
    instances of the interfaces. They compare the definitions of the program with what the
    authors expect of the code; the generated tests and a few others are proved for every input
    instead ([merge_proptests], [convergence_proptests], [backoff_test_passes], [hybrid_round_trip_passes],
    [round_trip_of_passes], [concurrent_access_passes]).

    Beneath all of it: this file ([result], control flow, orders and sorting, histories of
    operations, tactics and the hint database), [Bytes] (the machine data of Rust), and [Mem]
    (an in-memory database and codec that satisfy the interfaces; the witnesses use it, no
    definition of the program does).

    ** How state and operations correspond

    Fallible code returns [result E A], [Ok] or [Err] with the source's error enum. Integers
    are [uint w], a number below [2^w], with wrapping, saturating and checked operations spelled
    out; [[u8; N]] is [arr N]; a [String] is a list of Unicode scalar values with its UTF-8
    bytes, so [len()] is [str_len] and [chars().count()] is [length]. [usize] counts of entries
    held in memory are [nat]. A call that can panic on its arguments returns [raised E] instead
    of [E]: an error, or [Panicked] ([Dm.history] reserves a vector of the size it is asked
    for; the size of an element is the compiler's, [MessageLayout]). Clock readings, UUIDs and random bytes are arguments, one per
    reading and in the order of the source. What an interface calls is an argument of the
    definitions through its type class, and its laws are a hypothesis of the theorems. Where
    the source runs tasks side by side ([RealClient], [Broker]) what one task does between two
    awaits is one step, and the steps of the others between them are an argument. In [Broker] a
    publication begins, waits for its delay and sends its copies in steps of their own ([net]);
    in [RealClient] the calls of other tasks and the loop go on while a call waits for room in
    the command channel and for its answer ([client_step]).

    ** What the theorems show

    - The whole: [Sdk.sdk_refines], any history of sixteen operations of all services over one
      database behaves as the specification on the product of their states: the services do not
      disturb each other although they share a database and some of its column families.
      [EndToEnd.message_round_trip], texts that are sent and published reach the receiver once
      each, and their receipts make them Delivered at the sender, under duplication, delay and
      replay.
    - Failures: [Live.processes_survive], what any sequence of processes with receive loops
      leaves when the database fails underneath them and they are closed or killed, and what
      their results still mean; [Restart.restarts_contained], the same without the loops, and
      [Faults.faults_contained], of one process; [Faults.reads_honest], a read never passes off a
      part for the whole; [Dm.receipt_lost] and [GroupKeyRun.group_errors], errors that cost
      something: a receipt, a message.
    - Tasks and threads: [Live.live_in_order], calls and loops of one thread amount to a list of
      operations, in which each sector is handed on once; [Typed.stored_typed], every entry that
      any number of threads store, in any order of their calls of the database, is where its
      value belongs; [Race.outbox_overrun], by how much threads can exceed the outbox. The lemmas
      [Race.status_race], [Race.inbox_race] and [Race.removal_race] are interleavings that break
      what a single thread guarantees: the operations look and write in separate calls, and
      nothing serialises their callers. [Threads.schedule_history]: a thread alone runs its
      operations as the other theorems have it.
    - Storage: [Db.sector_store_refines], [Outbox.outbox_refines], [Contacts.contacts_refine],
      [Inbox.inbox_refines] and the group and message theorems relate each operation, the
      ordered scans included, to one on a finite map; [Db.make_sector_key_inj] is about the
      keys; [Dm.history_spec], [GroupOps.list_messages_spec] about scans with order, cursor
      and limit; [Dm.pages_cover] and [Dm.paginate_is_history] about paging.
    - Messages: [Dm.status_only_advances] (no status goes back under status changes, receipts
      and acknowledgements; an inbound copy of a message does overwrite it, as
      [DmReceive.process_inbound_spec] states), [DmReceive.process_inbound_spec],
      [DmReceive.receive_once]. The lemmas [Dm.send_text_spec], [Dm.open_conversation_spec] and
      [Dm.derive_sound] state the operations one by one.
    - Groups: [GroupOps.group_authority] (who may change what), [GroupOps.group_history],
      [GroupOps.create_group_spec], [GroupOps.receive_message_once],
      [GroupOps.group_receipt_forward], [Group.merge_manifest_laws]; and of their keys
      [GroupKeyRun.group_agrees]: all members read the same messages and export the same
      secrets.
    - Network: [PumpOutbox.pump_drains] (the queue empties, and nothing leaves it unreported),
      [Retry.retry_budget], [Retry.pump_pass_spec], [Retry.backoff_bounds],
      [Broker.broker_delivery] (what a subscriber hears of publications that overtake each
      other, and that it hears nothing else), [RealClient.subscribe_no_gap],
      [Dedupe.dedupe_remembers].
    - Cryptography and identity: [Envelope.envelope_roundtrip], [Envelope.open_binds],
      [Aad.aad_roundtrip], [Aad.aad_decode_exact], [NeuralKey.split_recover],
      [MachineKey.generate_machine_key_spec], [MachineKey.sealed_roundtrip].

    ** Bounds and fuel

    The definitions of the program are structurally recursive over the data they scan; none
    needs fuel. [Dm.all_pages], the loop of a caller that follows the cursor, takes fuel, and
    [Dm.pages_cover] shows that one page more than the messages left is enough;
    [DmTests.collect_pages], the same loop in the tests, panics when it runs out. Histories are
    lists of operations of any length; the endless loops of the pump and the clients are any
    number of passes or events. The constants are the source's: 64-byte labels, 256 group
    members, 140-character previews, pages of 50 in the inbox, channels of 256, five attempts,
    500 ms doubled up to 30 s, 16 shares.

    ** What is not modelled

    - The runtime: which task or thread goes next is an argument, the pump's task is its passes at
      their times, and a subscription is one step of its loop. Two loops on different threads could
      both find a sector unseen before either marks it; [Live] is about one thread. How many
      commands wait in the live client's channel, and the configuration of its service.
    - Exhausted memory, which aborts the process; checks of the debug profile ([debug_assert_eq]
      in [manifest.rs]): the model is of a release build.
    - What [zid] makes of a threshold of 1, which the source lets through and [error.rs] says is
      refused: [NeuralKey.split_recover] shows that its answer is passed on.
    - Collisions of random draws in [openmls]: a package made by the wrappers is taken to have
      keys of its own ([admissible]).
    - Zeroization of secrets, which no result shows.
    - Cryptographic security: the interfaces state what decrypts and verifies, not what an
      adversary can do; where secrecy or collisions matter the theorem says so
      ([Dm.derive_sound] exhibits the collision; the arrivals of [EndToEnd] are assumed free
      of one).
    - What no code of the repository does: nothing publishes the outbox of [Outbox] (the pump
      works on any [OutboxHandle], and the only one is in memory), and nothing hands an inbound
      receipt to [process_receipt]. [EndToEnd] takes both as arguments.
    - What the disk loses when the machine, and not only the process, stops: a write that has
      returned is taken to be in the log ([open_durable]).
    - Tests of what the model abstracts: the list of families on disk, [Send] and [Sync], the
      text of a UUID, the conversions of the libraries' errors, a type of openmls that the
      program does not use, known-answer vectors of codecs that are interfaces here, measured
      times and memory, and the benches. Re-exports, derived trait implementations, and
      constructors that only share a handle or spawn a task ([RetryPump::start], [client]).

    ** What could follow

    All code of the program is modelled, and its tests run. What is left is to put more of it
    together: two machines that exchange messages in both directions while their databases fail
    and their loops restart, the group messages of [GroupOps] carried by the keys of
    [GroupKeyRun], the sealed machine keys of a store as the signers of envelopes; and, should the
    code come to serialise its writers, the atomicity of the operations on threads. *)

From Stdlib Require Import ZArith Lia.
From stdpp Require Import base tactics gmap strings sorting numbers list.

(** ** Outcomes of fallible code

    Rust's [Result<A, E>] with its constructors in the source's order. *)

Inductive result (E A : Type) : Type :=
| Ok (a : A)
| Err (e : E).
Arguments Ok {E A} a.
Arguments Err {E A} e.

#[export] Instance result_eq_dec `{EqDecision E, EqDecision A} : EqDecision (result E A).
Proof. solve_decision. Defined.

#[export] Instance result_ret E : MRet (result E) := λ A a, Ok a.
#[export] Instance result_bind E : MBind (result E) := λ A B f r,
  match r with Ok a => f a | Err e => Err e end.
#[export] Instance result_fmap E : FMap (result E) := λ A B f r,
  match r with Ok a => Ok (f a) | Err e => Err e end.

(** [Result::map_err]: the [?] operator goes through [From], which is an
    application of [map_err] to the error constructor. *)
Definition map_err {E E' A} (f : E → E') (r : result E A) : result E' A :=
  match r with Ok a => Ok a | Err e => Err (f e) end.

(** [Option::ok_or] *)
Definition ok_or {E A} (o : option A) (e : E) : result E A :=
  match o with Some a => Ok a | None => Err e end.

Definition is_ok {E A} (r : result E A) : bool :=
  match r with Ok _ => true | Err _ => false end.

(** What ends a call that does not return a value: an error it returns, or a panic. *)
Inductive raised (E : Type) : Type := Raised (e : E) | Panicked.
Arguments Raised {E} e.
Arguments Panicked {E}.

(** [Vec::with_capacity(n)] for elements of [size] bytes panics beyond [isize::MAX] bytes. *)
Definition vec_fits (size n : Z) : bool := (n * size <=? 2 ^ 63 - 1)%Z.
Definition vec_with_capacity {E} (size n : Z) : result (raised E) () :=
  if vec_fits size n then Ok () else Err Panicked.

(** ** State and errors

    A handler that reads and writes the database threads it explicitly; a write
    that happened before an error stays in the state, as in the code. *)

Definition io (S E A : Type) : Type := S → S * result E A.

#[export] Instance io_ret S E : MRet (io S E) := λ A a s, (s, Ok a).
#[export] Instance io_bind S E : MBind (io S E) := λ A B f m s,
  match m s with
  | (s', Ok a) => f a s'
  | (s', Err e) => (s', Err e)
  end.

(** A computation that only reads the state. *)
Definition reads {S E A} (f : S → result E A) : io S E A := λ s, (s, f s).
(** A fallible computation that does not touch the state. *)
Definition lift {S E A} (r : result E A) : io S E A := λ s, (s, r).
(** [return Err(e)] *)
Definition fails {S E A} (e : E) : io S E A := λ s, (s, Err e).
(** [map_err] on a stateful computation. *)
Definition io_map_err {S E E' A} (f : E → E') (m : io S E A) : io S E' A := λ s,
  match m s with (s', r) => (s', map_err f r) end.

(** [match m { Ok(..) => .., Err(..) => .. }]: the outcome becomes a value. *)
Definition attempt {S E A} (m : io S E A) : io S E (result E A) := λ s,
  match m s with (s', r) => (s', Ok r) end.

Section io_laws.
Context {S E A B : Type}.

Lemma io_bind_ok (m : io S E A) (f : A → io S E B) s s' a :
  m s = (s', Ok a) → (m ≫= f) s = f a s'.
Proof. by intros H; unfold mbind, io_bind; rewrite H. Qed.

Lemma io_bind_err (m : io S E A) (f : A → io S E B) s s' e :
  m s = (s', Err e) → (m ≫= f) s = (s', Err e).
Proof. by intros H; unfold mbind, io_bind; rewrite H. Qed.
End io_laws.

Lemma map_err_id {E A} (rs : list (result E A)) : map_err id <$> rs = rs.
Proof. induction rs as [|[] rs IHl]; simpl; by f_equal. Qed.

(** Runs operations in order; one that fails does not stop the next ones. *)
Fixpoint history {O S E A : Type} (step : O → io S E A) (ops : list O) (s : S)
    : S * list (result E A) :=
  match ops with
  | [] => (s, [])
  | op :: ops' =>
      let (s1, r) := step op s in
      let (s2, rs) := history step ops' s1 in (s2, r :: rs)
  end.

Lemma history_inv {O S E A : Type} (step : O → io S E A) (I : S → Prop) :
  (∀ op s, I s → I (step op s).1) → ∀ ops s, I s → I (history step ops s).1.
Proof.
  intros Hstep ops. induction ops as [|op ops IHl]; intros s Hs; simpl; [done|].
  pose proof (Hstep op s Hs) as H1. destruct (step op s) as [s1 r].
  specialize (IHl s1 H1). by destruct (history step ops s1).
Qed.

Lemma history_app {O S E A : Type} (step : O → io S E A) ops1 ops2 s :
  history step (ops1 ++ ops2) s =
    let (s1, rs1) := history step ops1 s in
    let (s2, rs2) := history step ops2 s1 in (s2, rs1 ++ rs2).
Proof.
  revert s. induction ops1 as [|op ops1 IHl]; intros s; simpl; [by destruct (history step ops2 s)|].
  destruct (step op s) as [s1 r]. rewrite IHl. destruct (history step ops1 s1) as [s2 rs].
  by destruct (history step ops2 s2).
Qed.

Lemma history_length {O S E A : Type} (step : O → io S E A) ops s :
  length (history step ops s).2 = length ops.
Proof.
  revert s. induction ops as [|op ops IHl]; intros s; simpl; [done|].
  destruct (step op s) as [s1 r]. specialize (IHl s1). destruct (history step ops s1). simpl in *. by f_equal.
Qed.

(** A simulation: related states step to related states with related outcomes. *)
Lemma history_sim {O S T E F A : Type} (f : O → io S E A) (g : O → io T F A)
    (conv : F → E) (sim : S → T → Prop) :
  (∀ op s t, sim s t →
     sim (f op s).1 (g op t).1 ∧ (f op s).2 = map_err conv (g op t).2) →
  ∀ ops s t, sim s t →
    sim (history f ops s).1 (history g ops t).1 ∧
    (history f ops s).2 = map_err conv <$> (history g ops t).2.
Proof.
  intros Hstep ops. induction ops as [|op ops IHl]; intros s t Hst; simpl; [done|].
  destruct (Hstep op s t Hst) as [H1 H2].
  destruct (f op s) as [s1 r], (g op t) as [t1 r']. cbn [fst snd] in *.
  destruct (IHl s1 t1 H1) as [H3 H4].
  destruct (history f ops s1), (history g ops t1). cbn [fst snd] in *. split; [done|].
  by rewrite H2, H4.
Qed.

(** ** Loops

    [for x in items { .. }] with early [break], [continue] and [?]: the body maps the
    loop's mutable variables to their next value and says whether the loop goes on. *)

Inductive ctl (A : Type) : Type :=
| Continue (a : A)
| Break (a : A).
Arguments Continue {A} a.
Arguments Break {A} a.

Fixpoint for_each {E A X} (body : A → X → result E (ctl A)) (acc : A) (items : list X)
    : result E A :=
  match items with
  | [] => Ok acc
  | x :: rest =>
      match body acc x with
      | Err e => Err e
      | Ok (Break a) => Ok a
      | Ok (Continue a) => for_each body a rest
      end
  end.

Section for_each_laws.
Context {E A X : Type} (body : A → X → result E (ctl A)).

Lemma for_each_break acc x rest a :
  body acc x = Ok (Break a) → for_each body acc (x :: rest) = Ok a.
Proof. simpl. by intros ->. Qed.

(** A loop whose body never breaks on a prefix of the items folds over it. *)
Lemma for_each_app (step : A → X → A) acc l1 l2 :
  (∀ l x acc', x ∈ l1 → acc' = foldl step acc l →
     body acc' x = Ok (Continue (step acc' x))) →
  for_each body acc (l1 ++ l2) = for_each body (foldl step acc l1) l2.
Proof.
  revert acc. induction l1 as [|x l1 IH]; intros acc H; [done|].
  simpl. rewrite (H [] x acc); [|set_solver|done].
  apply IH. intros l y acc' Hy Hacc.
  apply (H (x :: l)); [set_solver|done].
Qed.

Lemma for_each_all (step : A → X → A) acc l :
  (∀ x acc', x ∈ l → body acc' x = Ok (Continue (step acc' x))) →
  for_each body acc l = Ok (foldl step acc l).
Proof.
  intros H. rewrite <-(app_nil_r l) at 1.
  rewrite (for_each_app step); [done|]. intros. by apply H.
Qed.
End for_each_laws.

(** Pushing each element in turn rebuilds the list. *)
Lemma foldl_push {A B} (f : A → B) l acc :
  foldl (λ acc x, acc ++ [f x]) acc l = acc ++ (f <$> l).
Proof.
  revert acc. induction l as [|x l IH]; intros acc; simpl; [by rewrite app_nil_r|].
  rewrite IH. by rewrite <-(assoc_L (++)).
Qed.

(** ** Comparisons and the stable sort

    [slice::sort_by] and [sort_by_key] are stable: elements that compare equal keep
    their order. Insertion from the right is such a sort. *)

Class CmpOk {A} (cmp : A → A → comparison) : Prop := {
  cmp_refl x : cmp x x = Eq;
  cmp_opp x y : cmp y x = CompOpp (cmp x y);
  cmp_trans x y z : cmp x y ≠ Gt → cmp y z ≠ Gt → cmp x z ≠ Gt;
}.

Definition cmp_le {A} (cmp : A → A → comparison) (x y : A) : Prop := cmp x y ≠ Gt.

Fixpoint insert_by {A} (cmp : A → A → comparison) (x : A) (l : list A) : list A :=
  match l with
  | [] => [x]
  | y :: l' =>
      match cmp x y with
      | Gt => y :: insert_by cmp x l'
      | _ => x :: y :: l'
      end
  end.

Definition sort_by {A} (cmp : A → A → comparison) (l : list A) : list A :=
  foldr (insert_by cmp) [] l.

(** [Ordering::then_with] *)
Definition then_with (c d : comparison) : comparison :=
  match c with Eq => d | _ => c end.

#[export] Instance Zcompare_ok : CmpOk Z.compare.
Proof.
  split.
  - apply Z.compare_refl.
  - intros x y. apply Z.compare_antisym.
  - intros x y z. rewrite !Z.compare_le_iff. lia.
Qed.

#[export] Instance cmp_by_ok {A B} (cmp : B → B → comparison) (f : A → B) `{!CmpOk cmp} :
  CmpOk (λ x y, cmp (f x) (f y)).
Proof.
  split.
  - intros. apply cmp_refl.
  - intros. apply cmp_opp.
  - intros x y z. apply cmp_trans.
Qed.

Section sort_laws.
Context {A : Type} (cmp : A → A → comparison) `{!CmpOk cmp}.

#[export] Instance cmp_le_trans : Transitive (cmp_le cmp).
Proof. intros x y z. apply cmp_trans. Qed.
#[export] Instance cmp_le_refl : Reflexive (cmp_le cmp).
Proof. intros x. unfold cmp_le. by rewrite cmp_refl. Qed.

Lemma cmp_gt_le x y : cmp x y = Gt → cmp_le cmp y x.
Proof using CmpOk0. intros H. unfold cmp_le. by rewrite (cmp_opp (cmp:=cmp) x y), H. Qed.

Lemma cmp_eq_sym x y : cmp x y = Eq → cmp y x = Eq.
Proof using CmpOk0. intros H. by rewrite (cmp_opp (cmp:=cmp) x y), H. Qed.

Lemma cmp_lt_gt x y : cmp x y = Lt ↔ cmp y x = Gt.
Proof using CmpOk0. rewrite (cmp_opp (cmp:=cmp) x y). by destruct (cmp x y). Qed.

Lemma insert_by_perm x l : insert_by cmp x l ≡ₚ x :: l.
Proof using.
  induction l as [|y l IH]; simpl; [done|].
  destruct (cmp x y); try done. rewrite IH. apply Permutation_swap.
Qed.

Lemma sort_by_perm l : sort_by cmp l ≡ₚ l.
Proof using.
  induction l as [|x l IH]; simpl; [done|]. by rewrite insert_by_perm, IH.
Qed.

Lemma insert_by_sorted x l :
  StronglySorted (cmp_le cmp) l → StronglySorted (cmp_le cmp) (insert_by cmp x l).
Proof using CmpOk0.
  induction 1 as [|y l Hl IH Hy]; simpl; [repeat constructor|].
  destruct (cmp x y) eqn:Hxy.
  1,2: assert (cmp_le cmp x y) as Hle by (unfold cmp_le; by rewrite Hxy);
    constructor; [by constructor|]; constructor; [done|];
    eapply Forall_impl; [exact Hy|]; intros z Hz; by etrans.
  constructor; [done|]. rewrite insert_by_perm.
  constructor; [by apply cmp_gt_le|done].
Qed.

Lemma sort_by_sorted l : StronglySorted (cmp_le cmp) (sort_by cmp l).
Proof using CmpOk0. induction l; simpl; [constructor|]. by apply insert_by_sorted. Qed.

(** Sorting a sorted list changes nothing: equal elements keep their places. *)
Lemma sort_by_id l : StronglySorted (cmp_le cmp) l → sort_by cmp l = l.
Proof using.
  induction 1 as [|x l Hl IH Hx]; simpl; [done|]. rewrite IH.
  destruct l as [|y l]; simpl; [done|].
  apply Forall_cons in Hx as [Hxy _]. unfold cmp_le in Hxy. by destruct (cmp x y).
Qed.

(** Two sorted arrangements of elements that the order separates are the same. *)
Lemma sorted_perm_eq l1 l2 :
  (∀ x y, x ∈ l1 → y ∈ l1 → cmp x y = Eq → x = y) →
  StronglySorted (cmp_le cmp) l1 → StronglySorted (cmp_le cmp) l2 → l1 ≡ₚ l2 → l1 = l2.
Proof using CmpOk0.
  intros Hinj H1 H2 Hp.
  eapply (StronglySorted_unique_strong (cmp_le cmp)); [|done|done|done].
  intros x y Hx Hy Hxy Hyx. apply Hinj; [done|by rewrite Hp|].
  unfold cmp_le in *. rewrite (cmp_opp (cmp:=cmp) x y) in Hyx. by destruct (cmp x y).
Qed.

(** Sorting depends only on the elements. *)
Lemma sort_by_perm_eq l1 l2 :
  (∀ x y, x ∈ l1 → y ∈ l1 → cmp x y = Eq → x = y) → l1 ≡ₚ l2 →
  sort_by cmp l1 = sort_by cmp l2.
Proof using CmpOk0.
  intros Hinj Hp. apply sorted_perm_eq.
  - intros x y. rewrite !sort_by_perm. apply Hinj.
  - apply sort_by_sorted.
  - apply sort_by_sorted.
  - by rewrite !sort_by_perm.
Qed.

Lemma elem_of_sort_by x l : x ∈ sort_by cmp l ↔ x ∈ l.
Proof using. by rewrite sort_by_perm. Qed.

Lemma length_sort_by l : length (sort_by cmp l) = length l.
Proof using. by rewrite sort_by_perm. Qed.
End sort_laws.

Lemma StronglySorted_filter {A} (R : relation A) (P : A → Prop) `{!∀ x, Decision (P x)} l :
  StronglySorted R l → StronglySorted R (filter P l).
Proof.
  induction 1 as [|x l Hl IH Hx]; [constructor|].
  rewrite filter_cons. case_decide; [|done].
  constructor; [done|]. rewrite Forall_forall in Hx |- *.
  intros y [_ Hy]%list_elem_of_filter. by apply Hx.
Qed.

Lemma StronglySorted_fmap {A B} (R : relation A) (S : relation B) (f : A → B) l :
  (∀ x y, R x y → S (f x) (f y)) → StronglySorted R l → StronglySorted S (f <$> l).
Proof.
  intros Hf. induction 1 as [|x l Hl IH Hx]; simpl; constructor; [done|].
  apply Forall_fmap. eapply Forall_impl; [exact Hx|]. intros. by apply Hf.
Qed.

Lemma StronglySorted_take {A} (R : relation A) n l :
  StronglySorted R l → StronglySorted R (take n l).
Proof.
  intros H. revert n. induction H as [|x l Hl IH Hx]; intros [|n]; simpl; try constructor.
  - apply IH.
  - by apply Forall_take.
Qed.

(** ** First element that satisfies a test: [iter().find], [iter().any], [retain] *)

Fixpoint find {A} (p : A → bool) (l : list A) : option A :=
  match l with
  | [] => None
  | x :: l' => if p x then Some x else find p l'
  end.

Definition any {A} (p : A → bool) (l : list A) : bool := existsb p l.
Definition retain {A} (p : A → bool) (l : list A) : list A := filter (λ x, p x = true) l.

(** [if let Some(x) = iter_mut().find(p) { *x = f(x) }] *)
Fixpoint modify_first {A} (p : A → bool) (f : A → A) (l : list A) : list A :=
  match l with
  | [] => []
  | x :: l' => if p x then f x :: l' else x :: modify_first p f l'
  end.

Lemma find_some {A} (p : A → bool) l x : find p l = Some x → x ∈ l ∧ p x = true.
Proof.
  induction l as [|y l IHl]; simpl; [done|]. rewrite elem_of_cons.
  destruct (p y) eqn:Hy; [by intros [= ->]; auto|].
  intros H. destruct (IHl H). auto.
Qed.

Lemma find_none {A} (p : A → bool) l : find p l = None ↔ ∀ x, x ∈ l → p x = false.
Proof.
  induction l as [|y l IHl]; simpl; [by split; [intros _ x ?%elem_of_nil|]|].
  setoid_rewrite elem_of_cons. destruct (p y) eqn:Hy.
  - split; [done|]. intros H. rewrite H in Hy by auto. done.
  - rewrite IHl. split; intros H x; [intros [->|?]; auto|auto].
Qed.

Lemma any_true {A} (p : A → bool) l : any p l = true ↔ ∃ x, x ∈ l ∧ p x = true.
Proof.
  unfold any. rewrite existsb_exists. by setoid_rewrite list_elem_of_In.
Qed.

Lemma any_find {A} (p : A → bool) l : any p l = false ↔ find p l = None.
Proof.
  rewrite find_none, <-not_true_iff_false, any_true. split.
  - intros H x Hx. apply not_true_iff_false. naive_solver.
  - intros H (x & Hx & Hp). by rewrite H in Hp.
Qed.

Lemma any_as_find {A} (p : A → bool) l :
  any p l = match find p l with Some _ => true | None => false end.
Proof.
  destruct (find p l) as [x|] eqn:Hp; [|by apply any_find].
  apply any_true. apply find_some in Hp as [??]. eauto.
Qed.

Lemma filter_all {A} (P : A → Prop) `{!∀ x, Decision (P x)} l :
  Forall P l → filter P l = l.
Proof.
  induction 1 as [|x l Hx Hl IHl]; [done|]. by rewrite filter_cons_True, IHl.
Qed.

Lemma filter_none {A} (P : A → Prop) `{!∀ x, Decision (P x)} l :
  Forall (λ x, ¬ P x) l → filter P l = [].
Proof.
  induction 1 as [|x l Hx Hl IHl]; [done|]. by rewrite filter_cons_False.
Qed.

(** A sorted list whose [P] elements cannot precede its other elements. *)
Lemma sorted_split {A} (R : relation A) (P : A → Prop) `{!∀ x, Decision (P x)} l :
  (∀ x y, x ∈ l → y ∈ l → P x → ¬ P y → ¬ R x y) → StronglySorted R l →
  l = filter (λ x, ¬ P x) l ++ filter P l.
Proof.
  intros HP. induction 1 as [|x l Hl IHl Hx]; [done|].
  rewrite !filter_cons. destruct (decide (P x)) as [Hp|Hp].
  - rewrite decide_False by tauto. assert (Forall P l) as HPl.
    { apply Forall_forall. intros y Hy. destruct (decide (P y)) as [|Hn]; [done|].
      rewrite Forall_forall in Hx. exfalso. apply (HP x y); [set_solver..|done|done|by apply Hx]. }
    rewrite (filter_all P) by done. rewrite filter_none; [done|].
    eapply Forall_impl; [exact HPl|]. tauto.
  - rewrite decide_True by done. simpl. f_equal. apply IHl. intros; apply HP; set_solver.
Qed.
