(* ===== verification/Bytes.v ===== *)
(** * Machine data: bytes, fixed-size arrays, fixed-width integers, UTF-8 strings

    What the Rust code takes from the language: [u8], [[u8; N]], [u16]/[u32]/[u64] with
    their wrap-around, slices compared lexicographically ([Ord for [u8]], which is also
    RocksDB's default key order), [to_be_bytes]/[from_be_bytes], [starts_with], and
    [String] as a sequence of Unicode scalar values with its UTF-8 bytes. *)

From Stdlib Require Import ZArith Lia Strings.Byte.
From stdpp Require Import base tactics gmap strings sorting numbers countable list.
From S2P Require Import Prelude.

Open Scope Z_scope.

Create HintDb bytes.
Create Rewrite HintDb bytes.

(** ** [u8] as a byte *)

Definition byte := Byte.byte.
Definition bytes := list byte.

Definition byte_Z (b : byte) : Z := Z.of_N (Byte.to_N b).
Definition Z_byte (z : Z) : byte := default Byte.x00 (Byte.of_N (Z.to_N (z mod 256))).

#[export] Instance byte_eq_dec : EqDecision byte := Byte.byte_eq_dec.

Lemma byte_of_to b : Byte.of_N (Byte.to_N b) = Some b.
Proof. apply Byte.of_to_N. Qed.

#[export] Program Instance byte_countable : Countable byte :=
  inj_countable Byte.to_N Byte.of_N _.
Next Obligation. intros b. apply byte_of_to. Qed.

Lemma byte_Z_range b : 0 <= byte_Z b < 256.
Proof. unfold byte_Z. pose proof (Byte.to_N_bounded b). lia. Qed.

Lemma byte_Z_of z : byte_Z (Z_byte z) = z mod 256.
Proof.
  unfold byte_Z, Z_byte. pose proof (Z.mod_pos_bound z 256 ltac:(lia)).
  destruct (Byte.of_N (Z.to_N (z mod 256))) as [b|] eqn:Hb; simpl.
  - apply Byte.to_of_N in Hb. rewrite Hb. lia.
  - apply Byte.of_N_None_iff in Hb. lia.
Qed.

#[export] Instance byte_Z_inj : Inj (=) (=) byte_Z.
Proof.
  intros a b H. unfold byte_Z in H. apply N2Z.inj in H.
  pose proof (byte_of_to a) as Ha. pose proof (byte_of_to b). congruence.
Qed.

Lemma Z_byte_of b : Z_byte (byte_Z b) = b.
Proof.
  apply (inj byte_Z). rewrite byte_Z_of. pose proof (byte_Z_range b). by apply Z.mod_small.
Qed.

(** ** Lexicographic order on byte slices *)

Fixpoint bytes_cmp (a b : bytes) : comparison :=
  match a, b with
  | [], [] => Eq
  | [], _ => Lt
  | _, [] => Gt
  | x :: a', y :: b' => then_with (byte_Z x ?= byte_Z y) (bytes_cmp a' b')
  end.

Lemma bytes_cmp_eq a b : bytes_cmp a b = Eq ↔ a = b.
Proof.
  revert b. induction a as [|x a IH]; intros [|y b]; simpl; try done.
  destruct (byte_Z x ?= byte_Z y) eqn:Hxy; simpl.
  - apply Z.compare_eq, (inj byte_Z) in Hxy as ->. rewrite IH. split; congruence.
  - split; [done|]. intros [= -> ->]. by rewrite Z.compare_refl in Hxy.
  - split; [done|]. intros [= -> ->]. by rewrite Z.compare_refl in Hxy.
Qed.

#[export] Instance bytes_cmp_ok : CmpOk bytes_cmp.
Proof.
  split.
  - intros x. by apply bytes_cmp_eq.
  - intros a. induction a as [|x a IH]; intros [|y b]; simpl; try done.
    rewrite (Z.compare_antisym (byte_Z x)). destruct (byte_Z x ?= byte_Z y); simpl; auto.
  - intros a. induction a as [|x a IH]; intros [|y b] [|z c]; simpl; try done.
    specialize (IH b c).
    destruct (Z.compare_spec (byte_Z x) (byte_Z y)),
      (Z.compare_spec (byte_Z y) (byte_Z z)), (Z.compare_spec (byte_Z x) (byte_Z z));
      simpl; try done; try lia; auto.
Qed.

Abbreviation bytes_le := (cmp_le bytes_cmp).
Abbreviation bytes_lt a b := (bytes_cmp a b = Lt).

Lemma bytes_cmp_app p a b : bytes_cmp (p ++ a) (p ++ b) = bytes_cmp a b.
Proof. induction p as [|x p IH]; simpl; [done|]. by rewrite Z.compare_refl. Qed.

(** Concatenations of equally long heads compare head first. *)
Lemma bytes_cmp_app_len a a' b b' :
  length a = length a' →
  bytes_cmp (a ++ b) (a' ++ b') = then_with (bytes_cmp a a') (bytes_cmp b b').
Proof.
  revert a'. induction a as [|x a IH]; intros [|y a'] Hl; simpl in *; try done.
  rewrite IH by lia. by destruct (byte_Z x ?= byte_Z y).
Qed.

Lemma bytes_cmp_prefix p a : bytes_cmp p (p ++ a) ≠ Gt.
Proof.
  induction p as [|x p IH]; simpl; [by destruct a|]. by rewrite Z.compare_refl.
Qed.

(** ** [starts_with] *)

Fixpoint starts_with (k p : bytes) : bool :=
  match p, k with
  | [], _ => true
  | _ :: _, [] => false
  | x :: p', y :: k' => bool_decide (x = y) && starts_with k' p'
  end.

Lemma starts_with_iff k p : starts_with k p = true ↔ ∃ r, k = p ++ r.
Proof.
  revert k. induction p as [|x p IH]; intros [|y k]; simpl.
  - split; eauto.
  - split; eauto.
  - split; [done|]. by intros [r ?].
  - rewrite andb_true_iff, bool_decide_eq_true, IH. split.
    + intros [-> [r ->]]. eauto.
    + intros [r [= -> ->]]. eauto.
Qed.

Lemma starts_with_app p r : starts_with (p ++ r) p = true.
Proof. apply starts_with_iff. eauto. Qed.

(** A key without the prefix compares with every extension as with the prefix itself. *)
Lemma cmp_not_prefix k p r : starts_with k p = false → bytes_cmp k (p ++ r) = bytes_cmp k p.
Proof.
  revert k. induction p as [|b p IHp]; intros [|a k] H; simpl in *; try done.
  destruct (_ ?= _) eqn:Hc; [|done..]. apply IHp.
  apply Z.compare_eq, (inj byte_Z) in Hc as ->. by rewrite bool_decide_true in H.
Qed.

Lemma starts_with_eq_len k p r :
  length p = length k → starts_with (k ++ r) p = true → p = k.
Proof.
  intros Hl [s Hs]%starts_with_iff. by apply (app_inj_1 k p r s) in Hs as [-> _].
Qed.

(** ** Big-endian integers: [to_be_bytes], [from_be_bytes] *)

Fixpoint be_bytes (n : nat) (z : Z) : bytes :=
  match n with
  | O => []
  | S n' => Z_byte (z / 256 ^ Z.of_nat n') :: be_bytes n' (z mod 256 ^ Z.of_nat n')
  end.

Definition be_Z (l : bytes) : Z := foldl (λ acc b, acc * 256 + byte_Z b) 0 l.

Lemma length_be_bytes n z : length (be_bytes n z) = n.
Proof. revert z. induction n; intros z; simpl; auto. Qed.

Lemma pow256_pos n : 0 < 256 ^ Z.of_nat n.
Proof. lia. Qed.

Lemma pow256_S n : 256 ^ Z.of_nat (S n) = 256 * 256 ^ Z.of_nat n.
Proof. rewrite Nat2Z.inj_succ, Z.pow_succ_r; lia. Qed.

Lemma be_Z_acc l a :
  foldl (λ acc b, acc * 256 + byte_Z b) a l = a * 256 ^ Z.of_nat (length l) + be_Z l.
Proof.
  unfold be_Z. revert a. induction l as [|x l IH]; intros a; [simpl; lia|].
  cbn [foldl length]. rewrite (IH (a * 256 + byte_Z x)), (IH (0 * 256 + byte_Z x)), pow256_S.
  lia.
Qed.

Lemma be_Z_cons x l : be_Z (x :: l) = byte_Z x * 256 ^ Z.of_nat (length l) + be_Z l.
Proof. unfold be_Z at 1. cbn [foldl]. rewrite be_Z_acc. lia. Qed.

Lemma be_Z_range l : 0 <= be_Z l < 256 ^ Z.of_nat (length l).
Proof.
  induction l as [|x l IH]; [simpl; unfold be_Z; simpl; lia|].
  rewrite be_Z_cons. cbn [length]. rewrite pow256_S.
  pose proof (byte_Z_range x). nia.
Qed.

Lemma be_Z_bytes n z : 0 <= z < 256 ^ Z.of_nat n → be_Z (be_bytes n z) = z.
Proof.
  revert z. induction n as [|n IH]; intros z Hz.
  - simpl in *. unfold be_Z. simpl. lia.
  - cbn [be_bytes]. rewrite be_Z_cons, length_be_bytes, byte_Z_of.
    pose proof (pow256_pos n). rewrite pow256_S in Hz.
    pose proof (Z.mod_pos_bound z (256 ^ Z.of_nat n) ltac:(lia)).
    rewrite IH by lia.
    rewrite Z.mod_small.
    + rewrite (Z.div_mod z (256 ^ Z.of_nat n)) at 3 by lia. lia.
    + split; [apply Z.div_pos; lia|]. apply Z.div_lt_upper_bound; lia.
Qed.

Lemma be_bytes_Z l : be_bytes (length l) (be_Z l) = l.
Proof.
  induction l as [|x l IH]; [done|]. cbn [length be_bytes].
  pose proof (be_Z_range l) as Hr. pose proof (pow256_pos (length l)).
  rewrite be_Z_cons, Z.div_add_l by lia. rewrite (Z.div_small (be_Z l)) by lia.
  rewrite Z.add_0_r, Z_byte_of.
  rewrite Z.add_comm, Z.mod_add, Z.mod_small by lia. by rewrite IH.
Qed.

(** Equally long slices compare as the integers they spell. *)
Lemma be_Z_cmp a b : length a = length b → bytes_cmp a b = (be_Z a ?= be_Z b).
Proof.
  revert b. induction a as [|x a IH]; intros [|y b] Hl; try done.
  injection Hl as Hl. cbn [bytes_cmp]. rewrite !be_Z_cons, IH, Hl by done.
  pose proof (be_Z_range a). pose proof (be_Z_range b). rewrite Hl in *.
  destruct (Z.compare_spec (byte_Z x) (byte_Z y)) as [->|Hxy|Hxy]; simpl.
  - destruct (Z.compare_spec (be_Z a) (be_Z b)); symmetry;
      [apply Z.compare_eq_iff|apply Z.compare_lt_iff|apply Z.compare_gt_iff]; lia.
  - symmetry. apply Z.compare_lt_iff. nia.
  - symmetry. apply Z.compare_gt_iff. nia.
Qed.

Lemma be_bytes_inj n x y :
  0 <= x < 256 ^ Z.of_nat n → 0 <= y < 256 ^ Z.of_nat n →
  be_bytes n x = be_bytes n y → x = y.
Proof. intros Hx Hy H. rewrite <-(be_Z_bytes n x), <-(be_Z_bytes n y) by done. by rewrite H. Qed.

#[export] Hint Rewrite length_be_bytes byte_Z_of Z_byte_of : bytes.

(** ** Fixed-size arrays [[u8; n]] *)

Record arr (n : nat) : Type := Arr {
  arr_bytes : bytes;
  arr_wf : Is_true (Nat.eqb (length arr_bytes) n);
}.
Arguments Arr {n} arr_bytes arr_wf.
Arguments arr_bytes {n} _.
Arguments arr_wf {n} _.

Lemma length_arr {n} (a : arr n) : length (arr_bytes a) = n.
Proof. apply Nat.eqb_eq, Is_true_true, arr_wf. Qed.

#[export] Instance arr_bytes_inj n : Inj (=) (=) (@arr_bytes n).
Proof. intros [a Ha] [b Hb]; simpl. intros ->. f_equal. apply proof_irrel. Qed.

#[export] Instance arr_eq_dec n : EqDecision (arr n).
Proof.
  refine (λ a b, cast_if (decide (arr_bytes a = arr_bytes b))).
  - by apply (inj arr_bytes).
  - congruence.
Defined.

Lemma fit_wf n l : Is_true (Nat.eqb (length (take n (l ++ replicate n Byte.x00))) n).
Proof.
  apply Is_true_true, Nat.eqb_eq.
  rewrite length_take, length_app, length_replicate. lia.
Qed.

(** [copy_from_slice] of the first [n] bytes into a zeroed array. *)
Definition arr_fit n (l : bytes) : arr n := Arr (take n (l ++ replicate n Byte.x00)) (fit_wf n l).

(** [<[u8; n]>::try_from(&[u8])]: exactly [n] bytes or nothing. *)
Definition arr_try n (l : bytes) : option (arr n) :=
  if Nat.eqb (length l) n then Some (arr_fit n l) else None.

(** [[b; n]] *)
Definition arr_fill n (b : byte) : arr n := arr_fit n (replicate n b).

Lemma arr_fit_bytes n l : length l = n → arr_bytes (arr_fit n l) = l.
Proof. intros <-. simpl. apply take_app_length. Qed.

Lemma arr_fit_take n l : (n <= length l)%nat → arr_bytes (arr_fit n l) = take n l.
Proof. intros H. simpl. by rewrite take_app_le. Qed.

Lemma arr_fit_arr {n} (a : arr n) : arr_fit n (arr_bytes a) = a.
Proof. apply (inj arr_bytes), arr_fit_bytes, length_arr. Qed.

Lemma arr_try_arr {n} (a : arr n) : arr_try n (arr_bytes a) = Some a.
Proof. unfold arr_try. by rewrite (proj2 (Nat.eqb_eq _ _) (length_arr a)), arr_fit_arr. Qed.

Lemma arr_try_some n l a : arr_try n l = Some a ↔ l = arr_bytes a.
Proof.
  split; [|intros ->; apply arr_try_arr].
  unfold arr_try. destruct (Nat.eqb_spec (length l) n); [|done].
  intros [= <-]. by rewrite arr_fit_bytes.
Qed.

Lemma arr_try_none n l : arr_try n l = None ↔ length l ≠ n.
Proof. unfold arr_try. by destruct (Nat.eqb_spec (length l) n). Qed.

#[export] Program Instance arr_countable n : Countable (arr n) :=
  inj_countable arr_bytes (arr_try n) _.
Next Obligation. intros n a. apply arr_try_arr. Qed.

Definition arr_cmp {n} (a b : arr n) : comparison := bytes_cmp (arr_bytes a) (arr_bytes b).

#[export] Instance arr_cmp_ok n : CmpOk (@arr_cmp n).
Proof. unfold arr_cmp. apply _. Qed.

Lemma arr_cmp_eq {n} (a b : arr n) : arr_cmp a b = Eq ↔ a = b.
Proof.
  unfold arr_cmp. rewrite bytes_cmp_eq. split; [apply (inj arr_bytes)|by intros ->].
Qed.

(** ** Unsigned integers of [w] bits *)

Definition in_width (w : positive) (z : Z) : bool := (0 <=? z) && (z <? 2 ^ Zpos w).

Record uint (w : positive) : Type := UInt { uval : Z; uint_wf : Is_true (in_width w uval) }.
Arguments UInt {w} uval uint_wf.
Arguments uval {w} _.
Arguments uint_wf {w} _.

Abbreviation u8 := (uint 8).
Abbreviation u16 := (uint 16).
Abbreviation u32 := (uint 32).
Abbreviation u64 := (uint 64).

Definition umax (w : positive) : Z := 2 ^ Zpos w - 1.

Lemma in_width_iff w z : in_width w z = true ↔ 0 <= z < 2 ^ Zpos w.
Proof. unfold in_width. lia. Qed.

Lemma uint_range {w} (x : uint w) : 0 <= uval x < 2 ^ Zpos w.
Proof. apply in_width_iff, Is_true_true, uint_wf. Qed.

#[export] Instance uval_inj w : Inj (=) (=) (@uval w).
Proof. intros [a Ha] [b Hb]; simpl. intros ->. f_equal. apply proof_irrel. Qed.

#[export] Instance uint_eq_dec w : EqDecision (uint w).
Proof.
  refine (λ a b, cast_if (decide (uval a = uval b))).
  - by apply (inj uval).
  - congruence.
Defined.

Lemma umk_wf w z : Is_true (in_width w (z mod 2 ^ Zpos w)).
Proof. apply Is_true_true, in_width_iff. apply Z.mod_pos_bound. lia. Qed.

(** [z as uW]: the value modulo [2^w]. *)
Definition umk (w : positive) (z : Z) : uint w := UInt (z mod 2 ^ Zpos w) (umk_wf w z).

Lemma uval_umk w z : uval (umk w z) = z mod 2 ^ Zpos w.
Proof. done. Qed.

Lemma uval_umk_small w z : 0 <= z < 2 ^ Zpos w → uval (umk w z) = z.
Proof. intros H. by apply Z.mod_small. Qed.

Lemma umk_uval {w} (x : uint w) : umk w (uval x) = x.
Proof. apply (inj uval), uval_umk_small, uint_range. Qed.

#[export] Program Instance uint_countable w : Countable (uint w) :=
  inj_countable uval (λ z, Some (umk w z)) _.
Next Obligation. intros w x. simpl. by rewrite umk_uval. Qed.

(** [+] of the release profile (no overflow checks), [saturating_add], [u64::MAX - x]. *)
Definition uadd {w} (x y : uint w) : uint w := umk w (uval x + uval y).
Definition usat_add {w} (x y : uint w) : uint w := umk w (Z.min (uval x + uval y) (umax w)).
Definition uinv {w} (x : uint w) : uint w := umk w (umax w - uval x).
Definition ule {w} (x y : uint w) : bool := uval x <=? uval y.
Definition ult {w} (x y : uint w) : bool := uval x <? uval y.
Definition ucmp {w} (x y : uint w) : comparison := uval x ?= uval y.

#[export] Instance ucmp_ok w : CmpOk (@ucmp w).
Proof. unfold ucmp. apply _. Qed.

Lemma uval_add_small {w} (x y : uint w) :
  uval x + uval y < 2 ^ Zpos w → uval (uadd x y) = uval x + uval y.
Proof.
  intros H. pose proof (uint_range x). pose proof (uint_range y).
  apply uval_umk_small. lia.
Qed.

Lemma uval_sat_add {w} (x y : uint w) : uval (usat_add x y) = Z.min (uval x + uval y) (umax w).
Proof.
  pose proof (uint_range x). pose proof (uint_range y).
  apply uval_umk_small. unfold umax. lia.
Qed.

Lemma uval_inv {w} (x : uint w) : uval (uinv x) = umax w - uval x.
Proof. pose proof (uint_range x). apply uval_umk_small. unfold umax. lia. Qed.

Lemma uinv_inv {w} (x : uint w) : uinv (uinv x) = x.
Proof. apply (inj uval). rewrite !uval_inv. lia. Qed.

Ltac uint_bounds :=
  repeat match goal with
  | x : uint _ |- _ =>
      lazymatch goal with
      | _ : 0 <= uval x < _ |- _ => fail
      | _ => pose proof (uint_range x)
      end
  end.

(** [u64::to_be_bytes], [u16::to_be_bytes], [u64::from_be_bytes] *)
Definition u64_be (x : u64) : bytes := be_bytes 8 (uval x).
Definition u16_be (x : u16) : bytes := be_bytes 2 (uval x).
Definition u64_from_be (l : bytes) : u64 := umk 64 (be_Z l).

Lemma u64_from_be_be x : u64_from_be (u64_be x) = x.
Proof.
  unfold u64_from_be, u64_be. pose proof (uint_range x).
  rewrite be_Z_bytes by (simpl; lia). apply umk_uval.
Qed.

Lemma u64_be_cmp x y : bytes_cmp (u64_be x) (u64_be y) = ucmp x y.
Proof.
  pose proof (uint_range x). pose proof (uint_range y). unfold u64_be, ucmp.
  rewrite be_Z_cmp by by rewrite !length_be_bytes.
  by rewrite !be_Z_bytes by (simpl; lia).
Qed.

Lemma u16_be_inj x y : u16_be x = u16_be y → x = y.
Proof.
  pose proof (uint_range x). pose proof (uint_range y). intros H'.
  apply (inj uval). eapply (be_bytes_inj 2); [simpl; lia|simpl; lia|done].
Qed.

(** ** Strings: Unicode scalar values and their UTF-8 bytes *)

Definition is_scalar (c : Z) : bool :=
  ((0 <=? c) && (c <? 0xD800)) || ((0xE000 <=? c) && (c <? 0x110000)).

(** Rust's [char]. *)
Record char : Type := Char { code : Z; code_wf : Is_true (is_scalar code) }.

#[export] Instance code_inj : Inj (=) (=) code.
Proof. intros [a Ha] [b Hb]; simpl. intros ->. f_equal. apply proof_irrel. Qed.

#[export] Instance char_eq_dec : EqDecision char.
Proof.
  refine (λ a b, cast_if (decide (code a = code b))).
  - by apply (inj code).
  - congruence.
Defined.

Lemma code_range c : 0 <= code c < 0x110000.
Proof.
  destruct c as [c Hc]; simpl. apply Is_true_true in Hc. unfold is_scalar in Hc. lia.
Qed.

(** Rust's [String]; [rstr] is the sequence [str::chars] yields. *)
Definition rstr := list char.

Definition utf8_char (c : char) : bytes :=
  let c := code c in
  if c <? 0x80 then [Z_byte c]
  else if c <? 0x800 then [Z_byte (0xC0 + c / 64); Z_byte (0x80 + c mod 64)]
  else if c <? 0x10000 then
    [Z_byte (0xE0 + c / 4096); Z_byte (0x80 + c / 64 mod 64); Z_byte (0x80 + c mod 64)]
  else
    [Z_byte (0xF0 + c / 262144); Z_byte (0x80 + c / 4096 mod 64);
     Z_byte (0x80 + c / 64 mod 64); Z_byte (0x80 + c mod 64)].

(** [str::as_bytes] *)
Definition as_bytes (s : rstr) : bytes := s ≫= utf8_char.

(** [str::len]: the number of bytes, not of characters. *)
Definition str_len (s : rstr) : nat := length (as_bytes s).

Lemma as_bytes_cons c s : as_bytes (c :: s) = utf8_char c ++ as_bytes s.
Proof. done. Qed.

Lemma Z_byte_inj_small x y : 0 <= x < 256 → 0 <= y < 256 → Z_byte x = Z_byte y → x = y.
Proof.
  intros Hx Hy H. rewrite <-(Z.mod_small x 256), <-(Z.mod_small y 256), <-!byte_Z_of by done.
  by rewrite H.
Qed.

(** Linear arithmetic with [/] and [mod] by constants. *)
Ltac dlia := Z.to_euclidean_division_equations; lia.

(** UTF-8 is a prefix code. *)
Lemma utf8_char_app_inj c d r s :
  utf8_char c ++ r = utf8_char d ++ s → c = d ∧ r = s.
Proof.
  pose proof (code_range c) as Hc. pose proof (code_range d) as Hd.
  unfold utf8_char. intros H.
  assert (code c = code d ∧ r = s) as [Hcd Hrs]; [|by apply (inj code) in Hcd].
  revert H.
  destruct (Z.ltb_spec (code c) 0x80), (Z.ltb_spec (code c) 0x800),
    (Z.ltb_spec (code c) 0x10000), (Z.ltb_spec (code d) 0x80),
    (Z.ltb_spec (code d) 0x800), (Z.ltb_spec (code d) 0x10000); try lia; simpl; intros Heq;
  injection Heq; intros; subst;
  repeat match goal with
  | H : Z_byte _ = Z_byte _ |- _ => apply Z_byte_inj_small in H; [|dlia|dlia]
  end; split; first [done | dlia | exfalso; dlia].
Qed.

#[export] Instance as_bytes_inj : Inj (=) (=) as_bytes.
Proof.
  intros s. induction s as [|c s IH]; intros [|d t] H; [done| | |].
  - apply (f_equal length) in H. rewrite as_bytes_cons, length_app in H.
    unfold utf8_char in H. simpl in H. repeat case_match; simpl in H; lia.
  - apply (f_equal length) in H. rewrite as_bytes_cons, length_app in H.
    unfold utf8_char in H. simpl in H. repeat case_match; simpl in H; lia.
  - rewrite !as_bytes_cons in H. apply utf8_char_app_inj in H as [-> H].
    f_equal. by apply IH.
Qed.

(** Text given by its ASCII codes; other codes are replaced by U+FFFD. *)
Definition ascii_char (a : Ascii.ascii) : char.
Proof.
  refine (let z := Z.of_N (Ascii.N_of_ascii a) in
    match is_scalar z as b return (is_scalar z = b → char) with
    | true => λ H, Char z (Is_true_true_2 _ H)
    | false => λ _, Char 0xFFFD I
    end eq_refl).
Defined.

Fixpoint rstr_of (s : string) : rstr :=
  match s with
  | EmptyString => []
  | String a s' => ascii_char a :: rstr_of s'
  end.

Lemma ascii_char_code a : (N.lt (Ascii.N_of_ascii a) 256) → code (ascii_char a) = Z.of_N (Ascii.N_of_ascii a).
Proof. destruct a as [[] [] [] [] [] [] [] []]; done. Qed.

#[export] Instance rstr_of_inj : Inj (=) (=) rstr_of.
Proof.
  intros s. induction s as [|a s IHs]; intros [|b t] H; simpl in H; [done|done|done|].
  injection H as Hc Hr. f_equal; [|by apply IHs]. apply (f_equal code) in Hc.
  rewrite !ascii_char_code in Hc by apply Ascii.N_ascii_bounded.
  rewrite <-(Ascii.ascii_N_embedding a), <-(Ascii.ascii_N_embedding b). f_equal. lia.
Qed.

(** [write!(s, "{byte:02x}")] *)
Definition hex_digits : rstr := rstr_of "0123456789abcdef".
Definition hex_digit (n : nat) : rstr := take 1 (drop n hex_digits).
Definition hex_byte (b : byte) : rstr :=
  hex_digit (Z.to_nat (byte_Z b / 16)) ++ hex_digit (Z.to_nat (byte_Z b mod 16)).

Definition hex (bs : bytes) : rstr := bs ≫= hex_byte.

Lemma hex_foldl bs t : foldl (λ t b, t ++ hex_byte b) t bs = t ++ hex bs.
Proof.
  revert t. induction bs as [|b bs IH]; intros t; cbn; [by rewrite app_nil_r|].
  by rewrite IH, <-(assoc_L (++)).
Qed.

(** The byte that two hexadecimal digits stand for. *)
Definition unhex (s : rstr) : Z :=
  foldl (λ z c, z * 16 + (if code c <? 97 then code c - 48 else code c - 87)) 0 s.

Lemma unhex_byte b : unhex (hex_byte b) = byte_Z b.
Proof. by destruct b. Qed.

Lemma length_hex_byte b : length (hex_byte b) = 2%nat.
Proof. by destruct b. Qed.

#[export] Instance hex_inj : Inj (=) (=) hex.
Proof.
  intros l. induction l as [|a l IH]; intros [|b l'] Heq; [done| | |].
  - apply (f_equal length) in Heq. cbn in Heq. by rewrite length_app, length_hex_byte in Heq.
  - apply (f_equal length) in Heq. cbn in Heq. by rewrite length_app, length_hex_byte in Heq.
  - change (hex_byte a ++ hex l = hex_byte b ++ hex l') in Heq.
    apply app_inj_1 in Heq as [Hb Hl]; [|by rewrite !length_hex_byte].
    f_equal; [|by apply IH]. apply (inj byte_Z). by rewrite <-!unhex_byte, Hb.
Qed.

(** A byte string literal [b".."]. *)
Definition blit (s : string) : bytes := as_bytes (rstr_of s).

#[export] Program Instance char_countable : Countable char :=
  inj_countable code (λ z,
    match decide (Is_true (is_scalar z)) with left H => Some (Char z H) | right _ => None end) _.
Next Obligation.
  intros [c Hc]; simpl. destruct (decide _) as [H|H]; [|done]. f_equal. f_equal. apply proof_irrel.
Qed.

(** The i-th character of UTF-8 text never takes more than four bytes, nor less than one. *)
Lemma utf8_char_len c : (1 <= length (utf8_char c) <= 4)%nat.
Proof. unfold utf8_char. repeat case_match; simpl; lia. Qed.

Lemma str_len_chars s : (length s <= str_len s <= 4 * length s)%nat.
Proof.
  unfold str_len. induction s as [|c s IH]; [simpl; lia|].
  rewrite as_bytes_cons, length_app. pose proof (utf8_char_len c). simpl length in *. lia.
Qed.
