(* ===== verification/Store.v ===== *)
(** * The storage libraries the code calls, as interfaces, and what a column family holds

    RocksDB ([rocksdb] crate) and postcard are not part of the repository. [RocksDB] and
    [Postcard] list the operations the source calls; [RocksOk] and [PostcardOk] state the
    documented behaviour the code relies on: a key-value map per column family iterated in
    bytewise key order, and a codec that decodes what it encoded.

    [KeySpace] ties the byte keys of one column family to an abstract finite map: every
    component proves that its operations act on that map. *)

From Stdlib Require Import ZArith Lia.
From stdpp Require Import base tactics gmap strings sorting numbers countable list.
From S2P Require Import Prelude Bytes.

Create HintDb store.
Create Rewrite HintDb store.

(** ** Contents of a database: (column family, key) to value *)

Abbreviation store := (gmap (string * bytes) bytes).

Definition key_cmp (a b : bytes * bytes) : comparison := bytes_cmp a.1 b.1.

#[export] Instance key_cmp_ok : CmpOk key_cmp.
Proof. unfold key_cmp. apply _. Qed.

(** The pairs of one column family, in key order. *)
Definition view (st : store) (cf : string) : list (bytes * bytes) :=
  sort_by key_cmp
    (omap (λ p : (string * bytes) * bytes,
       if decide (p.1.1 = cf) then Some (p.1.2, p.2) else None) (map_to_list st)).

Lemma elem_of_view st cf k v : (k, v) ∈ view st cf ↔ st !! (cf, k) = Some v.
Proof.
  unfold view. rewrite elem_of_sort_by, list_elem_of_omap. split.
  - intros ([[c k'] v'] & Hin & Heq). simpl in Heq. case_decide; [|done].
    injection Heq as -> ->. subst. by apply elem_of_map_to_list.
  - intros H. exists ((cf, k), v). rewrite elem_of_map_to_list. split; [done|].
    simpl. by rewrite decide_True.
Qed.

Lemma view_sorted st cf : StronglySorted (cmp_le key_cmp) (view st cf).
Proof. apply sort_by_sorted, _. Qed.

Lemma view_keys st cf : NoDup (view st cf).*1.
Proof.
  unfold view. rewrite sort_by_perm.
  pose proof (NoDup_fst_map_to_list st) as Hn. revert Hn.
  induction (map_to_list st) as [|[[c k] v] l IH]; simpl; [constructor|].
  intros [Hnin Hn]%NoDup_cons. destruct (decide (c = cf)) as [->|]; [|by apply IH].
  simpl. constructor; [|by apply IH]. intros ([k' v'] & Hk & Hin)%list_elem_of_fmap.
  simpl in Hk. subst k'. apply list_elem_of_omap in Hin as ([[c' k'] v''] & Hin & Heq).
  simpl in Heq. case_decide; [|done]. injection Heq as -> ->. subst.
  apply Hnin. apply list_elem_of_fmap. by exists ((cf, k), v').
Qed.

Lemma view_NoDup st cf : NoDup (view st cf).
Proof. eapply NoDup_fmap_1, view_keys. Qed.

Lemma view_key_eq st cf x y :
  x ∈ view st cf → y ∈ view st cf → key_cmp x y = Eq → x = y.
Proof.
  destruct x as [k v], y as [k' v']. rewrite !elem_of_view.
  unfold key_cmp; simpl. rewrite bytes_cmp_eq. intros. by simplify_eq.
Qed.

(** A sorted list of distinct keys with the right elements is the view. *)
Lemma view_unique st cf l :
  StronglySorted (cmp_le key_cmp) l → NoDup l →
  (∀ k v, (k, v) ∈ l ↔ st !! (cf, k) = Some v) → l = view st cf.
Proof.
  intros Hs Hn Hl. symmetry. eapply (sorted_perm_eq key_cmp).
  - apply view_key_eq.
  - apply view_sorted.
  - done.
  - apply NoDup_Permutation; [apply view_NoDup|done|].
    intros [k v]. by rewrite elem_of_view, Hl.
Qed.

Lemma view_ext st st' cf :
  (∀ k, st !! (cf, k) = st' !! (cf, k)) → view st cf = view st' cf.
Proof.
  intros H. apply view_unique; [apply view_sorted|apply view_NoDup|].
  intros k v. by rewrite elem_of_view, H.
Qed.

(** ** RocksDB *)

Inductive Direction := Forward | Reverse.
Inductive IteratorMode :=
| IterStart
| IterFrom (k : bytes) (d : Direction).

Class RocksDB : Type := {
  DB : Type;
  rocks_error : Type;
  rocks_error_string : rocks_error → string;
  (** What is on disk at a path, and what an open database has written at its own. *)
  Directory : Type;
  directory : DB → Directory;
  (** [DB::open_cf_descriptors] with [create_if_missing] and
      [create_missing_column_families], given what its path holds. *)
  DB_open_cf_descriptors : Directory → list string → result rocks_error DB;
  DB_cf_handle : DB → string → bool;
  DB_get_cf : DB → string → bytes → result rocks_error (option bytes);
  DB_put_cf : string → bytes → bytes → io DB rocks_error ();
  DB_delete_cf : string → bytes → io DB rocks_error ();
  (** The items an iterator yields. *)
  DB_iterator_cf : DB → string → IteratorMode → list (result rocks_error (bytes * bytes));
  DB_prefix_iterator_cf : DB → string → bytes → list (result rocks_error (bytes * bytes));
}.

(** What an iterator positioned by [mode] sees of the pairs in key order. *)
Definition iter_select (mode : IteratorMode) (l : list (bytes * bytes)) : list (bytes * bytes) :=
  match mode with
  | IterStart => l
  | IterFrom k Forward => filter (λ kv, bytes_cmp k kv.1 ≠ Gt) l
  | IterFrom k Reverse => reverse (filter (λ kv, bytes_cmp kv.1 k ≠ Gt) l)
  end.

(** Documented behaviour. [healthy db] says that the environment lets the operations on
    [db] succeed (no I/O error, no corruption). Writes that returned are in the log, and a
    database opened again, after its process ended in whatever way, replays it. The prefix iterator starts at the prefix
    and yields its keys first; what follows them, if anything, does not have the prefix. *)
Class RocksOk `{R : RocksDB} : Type := {
  contents : DB → store;
  healthy : DB → Prop;
  open_handles path cfs db cf :
    DB_open_cf_descriptors path cfs = Ok db → cf ∈ cfs → DB_cf_handle db cf = true;
  open_durable db cfs db' :
    DB_open_cf_descriptors (directory db) cfs = Ok db' → contents db' = contents db;
  get_spec db cf k :
    healthy db → DB_cf_handle db cf = true → DB_get_cf db cf k = Ok (contents db !! (cf, k));
  put_spec db cf k v :
    healthy db → DB_cf_handle db cf = true →
    ∃ db', DB_put_cf cf k v db = (db', Ok ()) ∧ healthy db' ∧
      contents db' = <[(cf, k) := v]> (contents db) ∧
      (∀ cf', DB_cf_handle db' cf' = DB_cf_handle db cf');
  delete_spec db cf k :
    healthy db → DB_cf_handle db cf = true →
    ∃ db', DB_delete_cf cf k db = (db', Ok ()) ∧ healthy db' ∧
      contents db' = delete (cf, k) (contents db) ∧
      (∀ cf', DB_cf_handle db' cf' = DB_cf_handle db cf');
  iterator_spec db cf mode :
    healthy db → DB_cf_handle db cf = true →
    DB_iterator_cf db cf mode = Ok <$> iter_select mode (view (contents db) cf);
  prefix_iterator_spec db cf p :
    healthy db → DB_cf_handle db cf = true →
    ∃ rest, DB_prefix_iterator_cf db cf p =
        (Ok <$> filter (λ kv, starts_with kv.1 p = true) (view (contents db) cf)) ++
        (Ok <$> rest) ∧
      Forall (λ kv, starts_with kv.1 p = false) rest;
}.

(** ** postcard *)

Class PostcardLib : Type := {
  postcard_error : Type;
  postcard_error_string : postcard_error → string;
}.

(** [postcard::to_stdvec]/[to_allocvec] and [from_bytes] at one type. *)
Class Postcard `{P : PostcardLib} (A : Type) : Type := {
  to_vec : A → result postcard_error bytes;
  from_bytes : bytes → result postcard_error A;
}.

(** Encoding into a growable buffer succeeds, and decoding gives the value back. *)
Class PostcardOk `{P : PostcardLib} (A : Type) `{!Postcard A} : Prop :=
  postcard_roundtrip (a : A) : ∃ b, to_vec a = Ok b ∧ from_bytes b = Ok a.

Section postcard_laws.
Context `{P : PostcardLib} {A : Type} `{!Postcard A, !PostcardOk A}.

(** The bytes of an encoded value. *)
Definition enc (a : A) : bytes := match to_vec a with Ok b => b | Err _ => [] end.

Lemma to_vec_enc (a : A) : to_vec a = Ok (enc a).
Proof using PostcardOk0.
  unfold enc. destruct (postcard_roundtrip a) as (b & Hb & _). by rewrite Hb.
Qed.

Lemma from_bytes_enc (a : A) : from_bytes (enc a) = Ok a.
Proof using PostcardOk0.
  unfold enc. destruct (postcard_roundtrip a) as (b & Hb & Hf). by rewrite Hb.
Qed.

#[export] Instance enc_inj : Inj (=) (=) enc.
Proof using PostcardOk0.
  intros a b H. assert (Ok a = (Ok b : result postcard_error A)) as [= ?]; [|done].
  by rewrite <-!from_bytes_enc, H.
Qed.
End postcard_laws.

#[export] Hint Rewrite @to_vec_enc @from_bytes_enc using apply _ : store.

(** ** Key spaces: a family of keys of one column family, and the map stored under it *)

Record keyspace (K : Type) : Type := KeySpace {
  ks_cf : string;
  ks_key : K → bytes;
  (** The keys of the column family that belong to this key space. *)
  ks_fam : bytes → bool;
  ks_inj : Inj (=) (=) ks_key;
  ks_in : ∀ k, ks_fam (ks_key k) = true;
}.
Arguments KeySpace {K} ks_cf ks_key ks_fam ks_inj ks_in.
Arguments ks_cf {K} _.
Arguments ks_key {K} _ _.
Arguments ks_fam {K} _ _.
Arguments ks_in {K} _ _.
#[export] Existing Instance ks_inj.

Section repr.
Context `{P : PostcardLib} {K V : Type} `{Countable K} `{!Postcard V, !PostcardOk V}.
Implicit Types (ks : keyspace K) (M : gmap K V) (st : store).

(** [st] holds exactly the map [M] in the key space [ks]. *)
Definition repr ks st M : Prop :=
  (∀ k, st !! (ks_cf ks, ks_key ks k) = enc <$> M !! k) ∧
  (∀ b v, st !! (ks_cf ks, b) = Some v → ks_fam ks b = true → ∃ k, b = ks_key ks k).

(** The entries of [M] whose key satisfies [Q], in the order of their stored keys. *)
Definition entry_cmp ks (x y : K * V) : comparison :=
  bytes_cmp (ks_key ks x.1) (ks_key ks y.1).

#[export] Instance entry_cmp_ok ks : CmpOk (entry_cmp ks).
Proof. unfold entry_cmp. apply _. Qed.

Definition entries ks (Q : K → Prop) `{!∀ k, Decision (Q k)} M : list (K * V) :=
  sort_by (entry_cmp ks) (filter (λ x, Q x.1) (map_to_list M)).

Definition stored ks (x : K * V) : bytes * bytes := (ks_key ks x.1, enc x.2).

Lemma elem_of_entries ks (Q : K → Prop) `{!∀ k, Decision (Q k)} M k v :
  (k, v) ∈ entries ks Q M ↔ Q k ∧ M !! k = Some v.
Proof.
  unfold entries. by rewrite elem_of_sort_by, list_elem_of_filter, elem_of_map_to_list.
Qed.

Lemma entries_sorted ks (Q : K → Prop) `{!∀ k, Decision (Q k)} M :
  StronglySorted (cmp_le (entry_cmp ks)) (entries ks Q M).
Proof. apply sort_by_sorted, _. Qed.

Lemma entries_perm ks (Q : K → Prop) `{!∀ k, Decision (Q k)} M :
  entries ks Q M ≡ₚ filter (λ x, Q x.1) (map_to_list M).
Proof. apply sort_by_perm. Qed.

Lemma entries_keys ks (Q : K → Prop) `{!∀ k, Decision (Q k)} M : NoDup (entries ks Q M).*1.
Proof.
  rewrite entries_perm. pose proof (NoDup_fst_map_to_list M) as Hn. revert Hn.
  induction (map_to_list M) as [|[k v] l IH]; simpl; [constructor|].
  intros [Hnin Hn]%NoDup_cons. rewrite filter_cons. case_decide; simpl; [|by apply IH].
  constructor; [|by apply IH]. intros ([k' v'] & -> & [_ Hin]%list_elem_of_filter)%list_elem_of_fmap.
  apply Hnin, list_elem_of_fmap. eauto.
Qed.

Lemma entries_length ks M : length (entries ks (λ _, True) M) = size M.
Proof.
  rewrite entries_perm, filter_all.
  - apply length_map_to_list.
  - apply Forall_forall. by intros.
Qed.

Lemma entries_filter ks (Q Q' : K → Prop) `{!∀ k, Decision (Q k), !∀ k, Decision (Q' k)} M :
  filter (λ x, Q' x.1) (entries ks Q M) = entries ks (λ k, Q k ∧ Q' k) M.
Proof using.
  apply (sorted_perm_eq (entry_cmp ks)).
  - intros [k v] [k' v'] [_ Hx]%list_elem_of_filter [_ Hy]%list_elem_of_filter.
    apply elem_of_entries in Hx as [_ Hx]. apply elem_of_entries in Hy as [_ Hy].
    unfold entry_cmp. cbn [fst snd]. rewrite bytes_cmp_eq. intros ?%(inj (ks_key ks)).
    simplify_eq. congruence.
  - apply StronglySorted_filter, entries_sorted.
  - apply entries_sorted.
  - rewrite !entries_perm, list_filter_filter. apply reflexive_eq, list_filter_iff. tauto.
Qed.

Lemma entries_ext ks (Q Q' : K → Prop) `{!∀ k, Decision (Q k), !∀ k, Decision (Q' k)} M :
  (∀ k, Q k ↔ Q' k) → entries ks Q M = entries ks Q' M.
Proof using. intros HQ. unfold entries. f_equal. apply list_filter_iff. intros. apply HQ. Qed.

Lemma stored_inj_key ks x y : key_cmp (stored ks x) (stored ks y) = entry_cmp ks x y.
Proof. done. Qed.

(** A family of keys of the column family, selected by [p], is read back as the entries
    of [M] selected by [Q]. *)
Lemma repr_filter ks st M (p : bytes → bool) (Q : K → Prop) `{!∀ k, Decision (Q k)} :
  repr ks st M →
  (∀ b, p b = true → ks_fam ks b = true) →
  (∀ k, p (ks_key ks k) = true ↔ Q k) →
  filter (λ kv, p kv.1 = true) (view st (ks_cf ks)) = stored ks <$> entries ks Q M.
Proof using PostcardOk0.
  intros [Hlk Hfam] Hp HQ. apply (sorted_perm_eq key_cmp).
  - intros x y [_ Hx]%list_elem_of_filter [_ Hy]%list_elem_of_filter. by apply view_key_eq with st (ks_cf ks).
  - apply StronglySorted_filter, view_sorted.
  - eapply (StronglySorted_fmap (cmp_le (entry_cmp ks))); [done|apply entries_sorted].
  - apply NoDup_Permutation.
    + apply NoDup_filter, view_NoDup.
    + apply (NoDup_fmap_1 fst).
      rewrite <-list_fmap_compose.
      change (fst ∘ stored ks) with (ks_key ks ∘ @fst K V). rewrite list_fmap_compose.
      apply NoDup_fmap_2; [apply _|apply entries_keys].
    + intros [b v]. rewrite list_elem_of_filter, elem_of_view, list_elem_of_fmap. split.
      * intros [Hb Hst]. destruct (Hfam b v Hst (Hp b Hb)) as [k ->].
        pose proof Hst as Hst'. rewrite Hlk in Hst.
        apply fmap_Some in Hst as (a & Ha & ->). exists (k, a). split; [done|].
        apply elem_of_entries. split; [by apply HQ|done].
      * intros ([k a] & [= -> ->] & [HQk Ha]%elem_of_entries).
        split; [by apply HQ|]. by rewrite Hlk, Ha.
Qed.

(** The whole column family, when every key belongs to the key space. *)
Lemma repr_view ks st M :
  (∀ b, ks_fam ks b = true) → repr ks st M →
  view st (ks_cf ks) = stored ks <$> entries ks (λ _, True) M.
Proof using PostcardOk0.
  intros Hall Hr. rewrite <-(repr_filter ks st M (λ _, true)); try done.
  rewrite filter_all; [done|]. apply Forall_forall. by intros.
Qed.

Lemma repr_insert ks st M k v :
  repr ks st M → repr ks (<[(ks_cf ks, ks_key ks k) := enc v]> st) (<[k := v]> M).
Proof using.
  intros [Hlk Hfam]. split.
  - intros k'. destruct (decide (k = k')) as [->|Hne].
    + by rewrite !lookup_insert_eq.
    + rewrite !lookup_insert_ne; [apply Hlk|done|].
      intros [= Heq%(inj (ks_key ks))]. done.
  - intros b w. destruct (decide (ks_key ks k = b)) as [<-|Hne]; [eauto|].
    rewrite lookup_insert_ne by congruence. apply (Hfam b w).
Qed.

Lemma repr_delete ks st M k :
  repr ks st M → repr ks (delete (ks_cf ks, ks_key ks k) st) (delete k M).
Proof using.
  intros [Hlk Hfam]. split.
  - intros k'. destruct (decide (k = k')) as [->|Hne].
    + by rewrite !lookup_delete_eq.
    + rewrite !lookup_delete_ne; [apply Hlk|done|].
      intros [= Heq%(inj (ks_key ks))]. done.
  - intros b w [_ Hb]%lookup_delete_Some. by apply (Hfam b w).
Qed.

(** Writes outside the key space do not matter. *)
Definition outside ks (p : string * bytes) : Prop :=
  p.1 = ks_cf ks → ks_fam ks p.2 = false.

Lemma repr_frame_insert ks st M p v : outside ks p → repr ks st M → repr ks (<[p := v]> st) M.
Proof using.
  intros Hout [Hlk Hfam]. split.
  - intros k. rewrite lookup_insert_ne; [apply Hlk|]. intros ->.
    specialize (Hout eq_refl). simpl in Hout. by rewrite ks_in in Hout.
  - intros b w. rewrite lookup_insert. case_decide as Hp; [|apply (Hfam b w)].
    subst p. intros _ Hb. specialize (Hout eq_refl). simpl in Hout. congruence.
Qed.

Lemma repr_frame_delete ks st M p : outside ks p → repr ks st M → repr ks (delete p st) M.
Proof using.
  intros Hout [Hlk Hfam]. split.
  - intros k. rewrite lookup_delete_ne; [apply Hlk|]. intros ->.
    specialize (Hout eq_refl). simpl in Hout. by rewrite ks_in in Hout.
  - intros b w [_ Hb]%lookup_delete_Some. by apply (Hfam b w).
Qed.

(** Changes to other column families do not matter. *)
Definition frame (cf : string) st st' : Prop := ∀ p, p.1 ≠ cf → st' !! p = st !! p.

Lemma repr_frame cf ks st st' M :
  frame cf st st' → ks_cf ks ≠ cf → repr ks st M → repr ks st' M.
Proof using.
  intros Hf Hne [Hlk Hfam]. split.
  - intros k. rewrite Hf by done. apply Hlk.
  - intros b v. rewrite Hf by done. apply Hfam.
Qed.

Lemma repr_unique ks st M M' : repr ks st M → repr ks st M' → M = M'.
Proof using PostcardOk0.
  intros [H1 _] [H2 _]. apply map_eq. intros k.
  specialize (H1 k). rewrite H2 in H1.
  destruct (M !! k), (M' !! k); simpl in H1; try done.
  by injection H1 as ->%(inj enc).
Qed.

Lemma repr_empty ks : repr ks ∅ ∅.
Proof using. split; [done|]. intros b v. by rewrite lookup_empty. Qed.
End repr.

Lemma frame_refl cf st : frame cf st st.
Proof. done. Qed.

Lemma frame_insert cf k v st : frame cf st (<[(cf, k) := v]> st).
Proof. intros [c k'] Hne. rewrite lookup_insert_ne; [done|]. simpl in Hne. congruence. Qed.

#[export] Hint Resolve frame_refl frame_insert : store.
#[export] Hint Resolve repr_insert repr_delete repr_frame_insert repr_frame_delete repr_empty
  : store.
