(* ===== verification/Mem.v ===== *)
(** * A concrete instance of the storage interfaces

    An in-memory database and a simple self-delimiting codec that satisfy [RocksOk] and
    [PostcardOk]. No definition of the program uses them: the witnesses of the theorems
    do, to show that the hypotheses on the libraries can hold. *)

From Stdlib Require Import ZArith Lia Strings.Byte.
From stdpp Require Import base tactics gmap strings sorting numbers countable list.
From S2P Require Import Prelude Bytes Store.

(** ** Serialization combinators *)

Class Ser (A : Type) : Type := {
  ser : A → bytes;
  deser : bytes → option (A * bytes);
  deser_ser a r : deser (ser a ++ r) = Some (a, r);
}.

Lemma deser_ser_nil {A} `{!Ser A} (a : A) : deser (ser a) = Some (a, []).
Proof. rewrite <-(app_nil_r (ser a)). apply deser_ser. Qed.

#[export] Program Instance ser_unit : Ser () := {
  ser _ := []; deser b := Some ((), b) }.
Next Obligation. by intros [] r. Qed.

#[export] Program Instance ser_byte : Ser byte := {
  ser b := [b]; deser l := match l with b :: r => Some (b, r) | [] => None end }.
Next Obligation. done. Qed.

#[export] Program Instance ser_arr n : Ser (arr n) := {
  ser a := arr_bytes a;
  deser l := a ← arr_try n (take n l); Some (a, drop n l) }.
Next Obligation.
  intros n a r. simpl. rewrite take_app_length', drop_app_length' by by rewrite length_arr.
  by rewrite arr_try_arr.
Qed.

Definition uwidth (w : positive) : nat := Z.to_nat (Zpos w / 8 + 1).

Lemma uwidth_ok w z : 0 <= z < 2 ^ Zpos w → 0 <= z < 256 ^ Z.of_nat (uwidth w).
Proof.
  intros [? Hz]. split; [done|]. eapply Z.lt_le_trans; [exact Hz|].
  unfold uwidth. rewrite Z2Nat.id by (apply Z.add_nonneg_nonneg; [apply Z.div_pos|]; lia).
  change 256 with (2 ^ 8). rewrite <-Z.pow_mul_r by (try lia; dlia).
  apply Z.pow_le_mono_r; [lia|]. dlia.
Qed.

#[export] Program Instance ser_uint w : Ser (uint w) := {
  ser x := be_bytes (uwidth w) (uval x);
  deser l := Some (umk w (be_Z (take (uwidth w) l)), drop (uwidth w) l) }.
Next Obligation.
  intros w x r. simpl. rewrite take_app_length', drop_app_length' by by rewrite length_be_bytes.
  by rewrite be_Z_bytes, umk_uval by apply uwidth_ok, uint_range.
Qed.

#[export] Program Instance ser_char : Ser char := {
  ser c := be_bytes 3 (code c);
  deser l := match decide (Is_true (is_scalar (be_Z (take 3 l)))) with
             | left H => Some (Char (be_Z (take 3 l)) H, drop 3 l)
             | right _ => None
             end }.
Next Obligation.
  intros c r. cbv beta. pose proof (code_range c) as Hc.
  assert (be_Z (be_bytes 3 (code c)) = code c) as Hb by (apply be_Z_bytes; simpl; lia).
  rewrite take_app_length', drop_app_length' by by rewrite length_be_bytes.
  destruct (decide _) as [Hd|Hd].
  - apply (f_equal Some), (f_equal (λ c, (c, r))). by apply (inj code).
  - destruct Hd. rewrite Hb. by destruct c.
Qed.

#[export] Program Instance ser_prod {A B} `{!Ser A, !Ser B} : Ser (A * B) := {
  ser p := ser p.1 ++ ser p.2;
  deser l := '(a, l1) ← deser l; '(b, l2) ← deser l1; Some ((a, b), l2) }.
Next Obligation.
  intros A B ?? [a b] r. simpl. rewrite <-(assoc_L (++)), deser_ser. simpl.
  by rewrite deser_ser.
Qed.

Definition ser_opt {A} `{!Ser A} (o : option A) : bytes :=
  match o with None => [Byte.x00] | Some a => Byte.x01 :: ser a end.

Definition deser_opt {A} `{!Ser A} (l : bytes) : option (option A * bytes) :=
  match l with
  | Byte.x00 :: r => Some (None, r)
  | Byte.x01 :: r => '(a, r') ← deser r; Some (Some a, r')
  | _ => None
  end.

#[export] Program Instance ser_option {A} `{!Ser A} : Ser (option A) := {
  ser := ser_opt; deser := deser_opt }.
Next Obligation. intros A ? [a|] r; simpl; [by rewrite deser_ser|done]. Qed.

Fixpoint ser_items {A} `{!Ser A} (l : list A) : bytes :=
  match l with [] => [Byte.x00] | a :: l' => Byte.x01 :: ser a ++ ser_items l' end.

Fixpoint deser_items {A} `{!Ser A} (fuel : nat) (b : bytes) : option (list A * bytes) :=
  match fuel, b with
  | S fuel', Byte.x01 :: r =>
      '(a, r1) ← deser r; '(l, r2) ← deser_items fuel' r1; Some (a :: l, r2)
  | S _, Byte.x00 :: r => Some ([], r)
  | _, _ => None
  end.

#[export] Program Instance ser_list {A} `{!Ser A} : Ser (list A) := {
  ser l := ser_items l; deser b := deser_items (length b) b }.
Next Obligation.
  intros A ? l r. simpl.
  assert (∀ fuel, (length (ser_items l) <= fuel)%nat →
    deser_items fuel (ser_items l ++ r) = Some (l, r)) as H; [|apply H; rewrite length_app; lia].
  induction l as [|a l IH]; intros [|fuel] Hf; simpl in *; try lia; [done|].
  rewrite length_app in Hf. rewrite <-(assoc_L (++)), deser_ser. simpl.
  by rewrite IH by lia.
Qed.

Definition ser_iso {A B} `{!Ser B} (f : A → B) (g : B → A) (Hgf : ∀ a, g (f a) = a) : Ser A.
Proof.
  refine {| ser a := ser (f a); deser l := '(b, r) ← deser l; Some (g b, r) |}.
  intros a r. rewrite deser_ser. simpl. by rewrite Hgf.
Defined.

(** Any countable type, through its code. *)
Fixpoint ser_pos (p : positive) : bytes :=
  match p with
  | xH => [Byte.x02]
  | xO p => Byte.x00 :: ser_pos p
  | xI p => Byte.x01 :: ser_pos p
  end.

Fixpoint deser_pos (b : bytes) : option (positive * bytes) :=
  match b with
  | Byte.x02 :: r => Some (xH, r)
  | Byte.x00 :: r => '(p, r') ← deser_pos r; Some (xO p, r')
  | Byte.x01 :: r => '(p, r') ← deser_pos r; Some (xI p, r')
  | _ => None
  end.

Lemma deser_ser_pos p r : deser_pos (ser_pos p ++ r) = Some (p, r).
Proof. induction p as [p IHp|p IHp|]; simpl; by rewrite ?IHp. Qed.

Definition ser_countable (A : Type) `{Countable A} : Ser A.
Proof.
  refine {| ser a := ser_pos (encode a);
    deser l := '(p, r) ← deser_pos l; a ← decode p; Some (a, r) |}.
  intros a r. rewrite deser_ser_pos. simpl. by rewrite decode_encode.
Defined.

(** ** postcard over a serializer *)

#[export] Instance mem_postcard_lib : PostcardLib := {
  postcard_error := ();
  postcard_error_string _ := "decode";
}.

Definition mem_postcard (A : Type) `{!Ser A} : Postcard A := {|
  to_vec a := Ok (ser a);
  from_bytes b := match deser b with Some (a, []) => Ok a | _ => Err () end;
|}.

Lemma mem_postcard_ok (A : Type) `{!Ser A} : @PostcardOk _ A (mem_postcard A).
Proof.
  intros a. exists (ser a). split; [done|]. simpl.
  rewrite <-(app_nil_r (ser a)). by rewrite deser_ser.
Qed.

(** ** RocksDB in memory *)

Record mem_db : Type := MemDb { mem_cfs : list string; mem_map : store }.

#[export] Instance mem_rocks : RocksDB := {
  DB := mem_db;
  rocks_error := ();
  rocks_error_string _ := "io";
  Directory := store;
  directory := mem_map;
  DB_open_cf_descriptors dir cfs := Ok (MemDb cfs dir);
  DB_cf_handle db cf := bool_decide (cf ∈ mem_cfs db);
  DB_get_cf db cf k := Ok (mem_map db !! (cf, k));
  DB_put_cf cf k v := λ db, (MemDb (mem_cfs db) (<[(cf, k) := v]> (mem_map db)), Ok ());
  DB_delete_cf cf k := λ db, (MemDb (mem_cfs db) (delete (cf, k) (mem_map db)), Ok ());
  DB_iterator_cf db cf mode := Ok <$> iter_select mode (view (mem_map db) cf);
  DB_prefix_iterator_cf db cf p :=
    Ok <$> filter (λ kv, starts_with kv.1 p = true) (view (mem_map db) cf);
}.

#[export] Program Instance mem_rocks_ok : @RocksOk mem_rocks := {
  contents := mem_map;
  healthy _ := True;
}.
Next Obligation. intros path cfs db cf [= <-] Hcf. by apply bool_decide_eq_true. Qed.
Next Obligation. by intros db cfs db' [= <-]. Qed.
Next Obligation. done. Qed.
Next Obligation. intros db cf k v _ _. by eexists. Qed.
Next Obligation. intros db cf k _ _. by eexists. Qed.
Next Obligation. done. Qed.
Next Obligation. intros db cf p _ _. exists []. by rewrite app_nil_r. Qed.
