(* ===== verification/Aad.v ===== *)
(** * Identifiers and the canonical AAD ([zero-crypto/src/aad.rs], [error.rs])

    The newtypes shared by the whole program, [CryptoError], and [MessageAad] with its
    CBOR encoding. [ciborium] is an interface ([Ciborium]); its [Value] enum is public
    data and is given with the constructors of the crate. *)

From Stdlib Require Import ZArith Lia.
From stdpp Require Import base tactics gmap strings sorting numbers countable pretty list.
From S2P Require Import Prelude Bytes Store Mem.

(** ** [CryptoError] *)

Inductive CryptoError : Type :=
| Hpke (s : string)
| MlKem (s : string)
| Ed25519 (s : string)
| MlDsa (s : string)
| AadEncoding (s : string)
| SignatureVerificationFailed (algorithm : string)
| DecryptionFailed
| Mls (s : string).

#[export] Instance CryptoError_eq_dec : EqDecision CryptoError.
Proof. solve_decision. Defined.

(** ** Newtypes *)

Record SchemaTag : Type := mkSchemaTag { schema_tag_0 : u32 }.
Record SectorId : Type := mkAadSectorId { aad_sector_id_0 : arr 16 }.
Record IdentityId : Type := mkIdentityId { identity_id_0 : arr 16 }.
Record MachineId : Type := mkMachineId { machine_id_0 : arr 16 }.
Record Epoch : Type := mkEpoch { epoch_0 : u64 }.

#[export] Instance SchemaTag_eq_dec : EqDecision SchemaTag.
Proof. solve_decision. Defined.
#[export] Instance SectorId_eq_dec : EqDecision SectorId.
Proof. solve_decision. Defined.
#[export] Instance IdentityId_eq_dec : EqDecision IdentityId.
Proof. solve_decision. Defined.
#[export] Instance MachineId_eq_dec : EqDecision MachineId.
Proof. solve_decision. Defined.
#[export] Instance Epoch_eq_dec : EqDecision Epoch.
Proof. solve_decision. Defined.

#[export] Program Instance IdentityId_countable : Countable IdentityId :=
  inj_countable' identity_id_0 mkIdentityId _.
Next Obligation. by intros []. Qed.
#[export] Program Instance MachineId_countable : Countable MachineId :=
  inj_countable' machine_id_0 mkMachineId _.
Next Obligation. by intros []. Qed.

#[export] Instance identity_id_0_inj : Inj (=) (=) identity_id_0.
Proof. intros [] [] H; simpl in H; by subst. Qed.
#[export] Instance machine_id_0_inj : Inj (=) (=) machine_id_0.
Proof. intros [] [] H; simpl in H; by subst. Qed.

(** ** ciborium *)

#[warnings="-register-all"]
Inductive Value : Type :=
| VInteger (z : Z)
| VBytes (b : bytes)
| VFloat (bits : Z)
| VText (s : rstr)
| VBool (b : bool)
| VNull
| VTag (t : Z) (v : Value)
| VArray (l : list Value)
| VMap (l : list (Value * Value)).

Class Ciborium : Type := {
  ciborium_error : Type;
  ciborium_error_string : ciborium_error → string;
  value_debug : Value → string;
  into_writer : Value → result ciborium_error bytes;
  from_reader : bytes → result ciborium_error Value;
}.

(** [ciborium::value::Integer]: the integers of CBOR's major types 0 and 1. *)
Definition leaf_ok (v : Value) : bool :=
  match v with
  | VInteger z => (- 2 ^ 64 <=? z) && (z <? 2 ^ 64)
  | VBytes _ | VText _ | VNull => true
  | _ => false
  end.

(** The fragment whose round trip is relied on: maps of scalars. *)
Definition flat_ok (v : Value) : bool :=
  match v with
  | VMap l => forallb (λ kv, leaf_ok kv.1 && leaf_ok kv.2) l
  | _ => false
  end.

(** Documented behaviour: what is written is read back. *)
Class CiboriumOk `{C : Ciborium} : Prop :=
  ciborium_roundtrip v : flat_ok v = true → ∃ b, into_writer v = Ok b ∧ from_reader b = Ok v.

(** ** [MessageAad] *)

Record MessageAad : Type := mkMessageAad {
  schema_tag : SchemaTag;
  sector_id : SectorId;
  sender_identity : IdentityId;
  sender_machine : MachineId;
  epoch : Epoch;
  prev_sector_id : option SectorId;
}.

#[export] Instance MessageAad_eq_dec : EqDecision MessageAad.
Proof. solve_decision. Defined.

(** The CBOR map built by [encode]: six entries in a fixed order. *)
Definition aad_value (a : MessageAad) : Value :=
  let prev := match prev_sector_id a with
              | Some sid => VBytes (arr_bytes (aad_sector_id_0 sid))
              | None => VNull
              end in
  VMap [
    (VText (rstr_of "epoch"), VInteger (uval (epoch_0 (epoch a))));
    (VText (rstr_of "prev_sector_id"), prev);
    (VText (rstr_of "schema_tag"), VInteger (uval (schema_tag_0 (schema_tag a))));
    (VText (rstr_of "sector_id"), VBytes (arr_bytes (aad_sector_id_0 (sector_id a))));
    (VText (rstr_of "sender_identity"), VBytes (arr_bytes (identity_id_0 (sender_identity a))));
    (VText (rstr_of "sender_machine"), VBytes (arr_bytes (machine_id_0 (sender_machine a))))
  ].

Section aad.
Context `{C : Ciborium}.
Open Scope string_scope.

(** [MessageAad::encode] *)
Definition encode (a : MessageAad) : result CryptoError bytes :=
  map_err (λ e, AadEncoding (ciborium_error_string e)) (into_writer (aad_value a)).

Definition extract_u64 (v : Value) (field : string) : result CryptoError u64 :=
  match v with
  | VInteger i =>
      if in_width 64 i then Ok (umk 64 i)
      else Err (AadEncoding (field +:+ ": integer out of u64 range"))
  | other => Err (AadEncoding (field +:+ ": expected integer, got " +:+ value_debug other))
  end.

Definition bytes_to_16 (b : bytes) (field : string) : result CryptoError (arr 16) :=
  ok_or (arr_try 16 b)
    (AadEncoding (field +:+ ": expected exactly 16 bytes, got " +:+ pretty (length b))).

Definition extract_bytes16 (v : Value) (field : string) : result CryptoError (arr 16) :=
  match v with
  | VBytes b => bytes_to_16 b field
  | other => Err (AadEncoding (field +:+ ": expected bytes, got " +:+ value_debug other))
  end.

(** The mutable locals of [decode]'s loop. *)
Record Fields : Type := mkFields {
  f_epoch : option u64;
  f_prev_sector_id : option (option SectorId);
  f_schema_tag : option u32;
  f_sector_id : option SectorId;
  f_sender_identity : option IdentityId;
  f_sender_machine : option MachineId;
}.

Definition no_fields : Fields := mkFields None None None None None None.

(** One iteration of the loop over the decoded entries. *)
Definition decode_entry (f : Fields) (kv : Value * Value) : result CryptoError (ctl Fields) :=
  let '(k, v) := kv in
  match k with
  | VText key =>
      if decide (key = rstr_of "epoch") then
        e ← extract_u64 v "epoch";
        Ok (Continue (mkFields (Some e) (f_prev_sector_id f) (f_schema_tag f)
          (f_sector_id f) (f_sender_identity f) (f_sender_machine f)))
      else if decide (key = rstr_of "prev_sector_id") then
        p ← match v with
            | VNull => Ok None
            | VBytes b => a ← bytes_to_16 b "prev_sector_id"; Ok (Some (mkAadSectorId a))
            | other => Err (AadEncoding
                ("prev_sector_id: expected bytes or null, got " +:+ value_debug other))
            end;
        Ok (Continue (mkFields (f_epoch f) (Some p) (f_schema_tag f)
          (f_sector_id f) (f_sender_identity f) (f_sender_machine f)))
      else if decide (key = rstr_of "schema_tag") then
        t ← extract_u64 v "schema_tag";
        Ok (Continue (mkFields (f_epoch f) (f_prev_sector_id f) (Some (umk 32 (uval t)))
          (f_sector_id f) (f_sender_identity f) (f_sender_machine f)))
      else if decide (key = rstr_of "sector_id") then
        a ← extract_bytes16 v "sector_id";
        Ok (Continue (mkFields (f_epoch f) (f_prev_sector_id f) (f_schema_tag f)
          (Some (mkAadSectorId a)) (f_sender_identity f) (f_sender_machine f)))
      else if decide (key = rstr_of "sender_identity") then
        a ← extract_bytes16 v "sender_identity";
        Ok (Continue (mkFields (f_epoch f) (f_prev_sector_id f) (f_schema_tag f)
          (f_sector_id f) (Some (mkIdentityId a)) (f_sender_machine f)))
      else if decide (key = rstr_of "sender_machine") then
        a ← extract_bytes16 v "sender_machine";
        Ok (Continue (mkFields (f_epoch f) (f_prev_sector_id f) (f_schema_tag f)
          (f_sector_id f) (f_sender_identity f) (Some (mkMachineId a))))
      else Ok (Continue f)
  | _ => Ok (Continue f)
  end.

(** [MessageAad::decode] *)
Definition decode (b : bytes) : result CryptoError MessageAad :=
  value ← map_err (λ e, AadEncoding (ciborium_error_string e)) (from_reader b);
  match value with
  | VMap entries =>
      f ← for_each decode_entry no_fields entries;
      tag ← ok_or (f_schema_tag f) (AadEncoding "missing schema_tag");
      sid ← ok_or (f_sector_id f) (AadEncoding "missing sector_id");
      si ← ok_or (f_sender_identity f) (AadEncoding "missing sender_identity");
      sm ← ok_or (f_sender_machine f) (AadEncoding "missing sender_machine");
      ep ← ok_or (f_epoch f) (AadEncoding "missing epoch");
      prev ← ok_or (f_prev_sector_id f) (AadEncoding "missing prev_sector_id");
      Ok (mkMessageAad (mkSchemaTag tag) sid si sm (mkEpoch ep) prev)
  | other => Err (AadEncoding ("expected CBOR map, got " +:+ value_debug other))
  end.
End aad.

(** ** Theorems *)

(** The six entries, one by one. *)
Definition aad_entries (a : MessageAad) : list (Value * Value) :=
  match aad_value a with VMap l => l | _ => [] end.

(** An entry the decoder skips. *)
Definition skipped (kv : Value * Value) : bool :=
  match kv.1 with
  | VText key => bool_decide (key ∉ rstr_of <$>
      ["epoch"; "prev_sector_id"; "schema_tag"; "sector_id"; "sender_identity"; "sender_machine"])
  | _ => true
  end.

Ltac decide_keys :=
  repeat first
    [ rewrite decide_True by done
    | rewrite decide_False by (intros ?%(inj rstr_of); discriminate) ].

Section decode.
Context `{C : Ciborium}.

Lemma decode_skipped f kv : skipped kv = true → decode_entry f kv = Ok (Continue f).
Proof using.
  destruct kv as [[]]; try done. unfold skipped. simpl. rewrite bool_decide_eq_true.
  intros Hn. repeat (rewrite decide_False by (intros ->; apply Hn; set_solver)). done.
Qed.

Lemma bytes_to_16_arr (x : arr 16) field : bytes_to_16 (arr_bytes x) field = Ok x.
Proof using. unfold bytes_to_16. by rewrite arr_try_arr. Qed.

Lemma extract_u64_small z field :
  (0 <= z < 2 ^ 64)%Z → extract_u64 (VInteger z) field = Ok (umk 64 z).
Proof using. intros H. unfold extract_u64. by rewrite (proj2 (in_width_iff 64 z) H). Qed.

Lemma decode_epoch f x :
  decode_entry f (VText (rstr_of "epoch"), VInteger (uval x)) =
  Ok (Continue (mkFields (Some x) (f_prev_sector_id f) (f_schema_tag f)
    (f_sector_id f) (f_sender_identity f) (f_sender_machine f))).
Proof using.
  unfold decode_entry. decide_keys. rewrite extract_u64_small by apply uint_range.
  unfold mbind, result_bind. by rewrite umk_uval.
Qed.

(** The decoder keeps the low 32 bits of any unsigned schema tag. *)
Lemma decode_schema_tag f z :
  (0 <= z < 2 ^ 64)%Z →
  decode_entry f (VText (rstr_of "schema_tag"), VInteger z) =
  Ok (Continue (mkFields (f_epoch f) (f_prev_sector_id f) (Some (umk 32 z))
    (f_sector_id f) (f_sender_identity f) (f_sender_machine f))).
Proof using.
  intros Hz. unfold decode_entry. decide_keys. rewrite extract_u64_small by done.
  unfold mbind, result_bind. by rewrite uval_umk_small.
Qed.

Lemma decode_prev f (o : option SectorId) :
  decode_entry f (VText (rstr_of "prev_sector_id"),
    match o with Some sid => VBytes (arr_bytes (aad_sector_id_0 sid)) | None => VNull end) =
  Ok (Continue (mkFields (f_epoch f) (Some o) (f_schema_tag f)
    (f_sector_id f) (f_sender_identity f) (f_sender_machine f))).
Proof using.
  unfold decode_entry. decide_keys. destruct o as [[x]|]; [|done]. simpl.
  by rewrite bytes_to_16_arr.
Qed.

Lemma decode_sector_id f x :
  decode_entry f (VText (rstr_of "sector_id"), VBytes (arr_bytes x)) =
  Ok (Continue (mkFields (f_epoch f) (f_prev_sector_id f) (f_schema_tag f)
    (Some (mkAadSectorId x)) (f_sender_identity f) (f_sender_machine f))).
Proof using. unfold decode_entry. decide_keys. simpl. by rewrite bytes_to_16_arr. Qed.

Lemma decode_sender_identity f x :
  decode_entry f (VText (rstr_of "sender_identity"), VBytes (arr_bytes x)) =
  Ok (Continue (mkFields (f_epoch f) (f_prev_sector_id f) (f_schema_tag f)
    (f_sector_id f) (Some (mkIdentityId x)) (f_sender_machine f))).
Proof using. unfold decode_entry. decide_keys. simpl. by rewrite bytes_to_16_arr. Qed.

Lemma decode_sender_machine f x :
  decode_entry f (VText (rstr_of "sender_machine"), VBytes (arr_bytes x)) =
  Ok (Continue (mkFields (f_epoch f) (f_prev_sector_id f) (f_schema_tag f)
    (f_sector_id f) (f_sender_identity f) (Some (mkMachineId x)))).
Proof using. unfold decode_entry. decide_keys. simpl. by rewrite bytes_to_16_arr. Qed.

Definition has_key (k : string) (kv : Value * Value) : bool :=
  match kv.1 with VText s => bool_decide (s = rstr_of k) | _ => false end.

(** The loop's variables after the entries [l] of [a] have been seen. *)
Definition seen_fields (a : MessageAad) (l : list (Value * Value)) : Fields :=
  let has k := any (has_key k) l in
  mkFields
    (if has "epoch" then Some (epoch_0 (epoch a)) else None)
    (if has "prev_sector_id" then Some (prev_sector_id a) else None)
    (if has "schema_tag" then Some (schema_tag_0 (schema_tag a)) else None)
    (if has "sector_id" then Some (sector_id a) else None)
    (if has "sender_identity" then Some (sender_identity a) else None)
    (if has "sender_machine" then Some (sender_machine a) else None).

Lemma decode_own_entry a l kv :
  kv ∈ aad_entries a →
  decode_entry (seen_fields a l) kv = Ok (Continue (seen_fields a (l ++ [kv]))).
Proof using.
  assert (∀ k, any (has_key k) (l ++ [kv]) = any (has_key k) l || has_key k kv) as Happ.
  { intros k. unfold any. rewrite existsb_app. simpl. by rewrite orb_false_r. }
  intros Hkv. unfold seen_fields at 2. rewrite !Happ. clear Happ.
  unfold aad_entries, aad_value in Hkv. revert Hkv.
  repeat rewrite elem_of_cons. rewrite elem_of_nil.
  intros [->|[->|[->|[->|[->|[->|[]]]]]]];
    first [ rewrite decode_epoch | rewrite decode_prev
          | rewrite decode_schema_tag by (pose proof (uint_range (schema_tag_0 (schema_tag a))); lia)
          | rewrite decode_sector_id | rewrite decode_sender_identity | rewrite decode_sender_machine ];
    unfold has_key; simpl;
    repeat first [ rewrite bool_decide_true by done
      | rewrite bool_decide_false by (intros ?%(inj rstr_of); discriminate) ];
    rewrite ?orb_true_r, ?orb_false_r, ?umk_uval; unfold seen_fields; simpl; try done.
  - by destruct (sector_id a).
  - by destruct (sender_identity a).
  - by destruct (sender_machine a).
Qed.

Lemma decode_loop a l l' :
  Forall (λ kv, kv ∈ aad_entries a ∨ skipped kv = true) l' →
  ∃ l'', for_each decode_entry (seen_fields a l) l' = Ok (seen_fields a l'') ∧
    ∀ k, any (has_key k) l || any (has_key k) (filter (λ kv, skipped kv = false) l') =
      any (has_key k) l''.
Proof using.
  intros H. revert l. induction H as [|kv l' Hkv Hl' IHl]; intros l; simpl.
  - exists l. split; [done|]. intros k. by rewrite orb_false_r.
  - destruct (skipped kv) eqn:Hs.
    + rewrite decode_skipped by done. rewrite filter_cons_False by congruence. apply IHl.
    + destruct Hkv as [Hkv|]; [|congruence]. rewrite decode_own_entry by done.
      rewrite filter_cons_True by done.
      destruct (IHl (l ++ [kv])) as (l'' & -> & Hl''). exists l''. split; [done|].
      intros k. rewrite <-Hl''. unfold any. rewrite existsb_app. simpl.
      by rewrite orb_false_r, orb_assoc.
Qed.

Lemma decode_entries a b l :
  from_reader b = Ok (VMap l) →
  filter (λ kv, skipped kv = false) l ≡ₚ aad_entries a → decode b = Ok a.
Proof using.
  intros Hb Hl. unfold decode. rewrite Hb. simpl.
  destruct (decode_loop a [] l) as (l'' & Hloop & Hl'').
  { apply Forall_forall. intros kv Hkv. destruct (skipped kv) eqn:Hs; [by right|left].
    rewrite <-Hl. by apply list_elem_of_filter. }
  change (seen_fields a []) with no_fields in Hloop. rewrite Hloop. simpl.
  assert (∀ k, any (has_key k) (aad_entries a) = true → any (has_key k) l'' = true) as Hk.
  { intros k H. rewrite <-Hl''. simpl. apply any_true.
    apply any_true in H as (kv & Hkv & Hp). exists kv. split; [|done]. by rewrite Hl. }
  unfold seen_fields. rewrite !Hk by done. simpl.
  destruct a as [[] ? ? ? [] ?]; reflexivity.
Qed.

(** *** A reference decoder

    The value of a field is that of the last entry with its key, and every entry with the key
    of a field has to be of the field's type. *)

Definition as_u64 (v : Value) : option u64 :=
  match v with VInteger i => if in_width 64 i then Some (umk 64 i) else None | _ => None end.
Definition as_bytes16 (v : Value) : option (arr 16) :=
  match v with VBytes b => arr_try 16 b | _ => None end.
Definition as_prev (v : Value) : option (option SectorId) :=
  match v with VNull => Some None | _ => Some ∘ mkAadSectorId <$> as_bytes16 v end.

Definition well_typed (kv : Value * Value) : bool :=
  (negb (has_key "epoch" kv || has_key "schema_tag" kv) || bool_decide (is_Some (as_u64 kv.2))) &&
  (negb (has_key "prev_sector_id" kv) || bool_decide (is_Some (as_prev kv.2))) &&
  (negb (has_key "sector_id" kv || has_key "sender_identity" kv || has_key "sender_machine" kv) ||
   bool_decide (is_Some (as_bytes16 kv.2))).

Fixpoint last_value (k : string) (l : list (Value * Value)) : option Value :=
  match l with
  | [] => None
  | kv :: rest =>
      match last_value k rest with
      | Some v => Some v
      | None => if has_key k kv then Some kv.2 else None
      end
  end.

Definition field {A} (k : string) (as_A : Value → option A) (l : list (Value * Value)) : option A :=
  last_value k l ≫= as_A.

Definition decode_spec (l : list (Value * Value)) : option MessageAad :=
  if forallb well_typed l then
    tag ← field "schema_tag" as_u64 l;
    sid ← field "sector_id" as_bytes16 l;
    si ← field "sender_identity" as_bytes16 l;
    sm ← field "sender_machine" as_bytes16 l;
    ep ← field "epoch" as_u64 l;
    prev ← field "prev_sector_id" as_prev l;
    Some (mkMessageAad (mkSchemaTag (umk 32 (uval tag))) (mkAadSectorId sid) (mkIdentityId si)
      (mkMachineId sm) (mkEpoch ep) prev)
  else None.

Definition override {A} (new old : option A) : option A :=
  match new with Some x => Some x | None => old end.

(** The loop's variables after [l]. *)
Definition updated (f : Fields) (l : list (Value * Value)) : Fields :=
  mkFields
    (override (field "epoch" as_u64 l) (f_epoch f))
    (override (field "prev_sector_id" as_prev l) (f_prev_sector_id f))
    (override ((λ t, umk 32 (uval t)) <$> field "schema_tag" as_u64 l) (f_schema_tag f))
    (override (mkAadSectorId <$> field "sector_id" as_bytes16 l) (f_sector_id f))
    (override (mkIdentityId <$> field "sender_identity" as_bytes16 l) (f_sender_identity f))
    (override (mkMachineId <$> field "sender_machine" as_bytes16 l) (f_sender_machine f)).

Lemma extract_u64_as v fld :
  extract_u64 v fld = ok_or (as_u64 v) (AadEncoding "") ∨
  as_u64 v = None ∧ is_ok (extract_u64 v fld) = false.
Proof using. destruct v; try (by right). unfold extract_u64. cbn. destruct (in_width 64 z); [by left|by right]. Qed.

Lemma extract_bytes16_as v fld :
  extract_bytes16 v fld = ok_or (as_bytes16 v) (AadEncoding "") ∨
  as_bytes16 v = None ∧ is_ok (extract_bytes16 v fld) = false.
Proof using.
  destruct v; try (by right). unfold extract_bytes16, bytes_to_16. cbn. destruct (arr_try 16 b); [by left|by right].
Qed.

(** Keys whose entries are well typed have a value as soon as they have an entry. *)
Lemma field_cons {A : Type} k (g : Value → option A) kv l :
  (∀ x, has_key k x = true → well_typed x = true → is_Some (g x.2)) →
  forallb well_typed l = true →
  field k g (kv :: l) = override (field k g l) (field k g [kv]).
Proof using.
  intros Hg Hl. unfold field. cbn [last_value].
  destruct (last_value k l) as [v|] eqn:Hv; [|done]. cbn [mbind option_bind].
  assert (is_Some (g v)) as [x ->]; [|done].
  revert Hl Hv. induction l as [|y l' IHl]; [done|]. cbn [forallb last_value].
  intros [Hy Hl']%andb_true_iff. destruct (last_value k l') as [w|]; [intros [= ->]; auto|].
  destruct (has_key k y) eqn:Hhas; [|done]. intros [= <-]. by apply Hg.
Qed.

Lemma typed_value x :
  well_typed x = true →
  (has_key "epoch" x = true → is_Some (as_u64 x.2)) ∧
  (has_key "prev_sector_id" x = true → is_Some (as_prev x.2)) ∧
  (has_key "schema_tag" x = true → is_Some (as_u64 x.2)) ∧
  (has_key "sector_id" x = true → is_Some (as_bytes16 x.2)) ∧
  (has_key "sender_identity" x = true → is_Some (as_bytes16 x.2)) ∧
  (has_key "sender_machine" x = true → is_Some (as_bytes16 x.2)).
Proof using.
  unfold well_typed. intros [[H1 H2]%andb_true_iff H3]%andb_true_iff.
  split_and!; intros Hk; rewrite Hk, ?orb_true_r in *; cbn [negb orb] in *;
    by eapply bool_decide_eq_true_1.
Qed.

Lemma updated_cons f kv l :
  forallb well_typed l = true → updated f (kv :: l) = updated (updated f [kv]) l.
Proof using.
  intros Hl. unfold updated.
  repeat rewrite (field_cons _ _ kv l) by (done || (intros x Hk Hx; destruct (typed_value x Hx) as (?&?&?&?&?&?); auto)).
  cbn [f_epoch f_prev_sector_id f_schema_tag f_sector_id f_sender_identity f_sender_machine].
  f_equal; by repeat destruct (field _ _ _).
Qed.

Ltac eval_keys :=
  repeat first
    [ rewrite decide_True by done
    | rewrite decide_False by (done || (intros ?%(inj rstr_of); discriminate))
    | match goal with
      | |- context [bool_decide (?x = rstr_of ?y)] =>
          first [ rewrite (bool_decide_true (x = rstr_of y)) by done
                | rewrite (bool_decide_false (x = rstr_of y))
                    by (done || (intros ?%(inj rstr_of); discriminate)) ]
      end ];
  cbn [negb orb andb mbind option_bind fmap option_fmap option_map override].

Lemma decode_entry_spec f kv :
  if well_typed kv then decode_entry f kv = Ok (Continue (updated f [kv]))
  else is_ok (decode_entry f kv) = false.
Proof using.
  destruct kv as [k v]. destruct k as [| | |s| | | | |]; try (by destruct f).
  unfold well_typed, decode_entry, updated, field, last_value, has_key. cbn [fst snd].
  destruct (decide (s = rstr_of "epoch")) as [->|H1].
  { eval_keys. destruct (extract_u64_as v "epoch") as [->|[Hn He]].
    - by destruct (as_u64 v).
    - rewrite Hn. by destruct (extract_u64 v "epoch"). }
  destruct (decide (s = rstr_of "prev_sector_id")) as [->|H2].
  { eval_keys. destruct v; try done. unfold as_prev, as_bytes16, bytes_to_16. by destruct (arr_try 16 b). }
  destruct (decide (s = rstr_of "schema_tag")) as [->|H3].
  { eval_keys. destruct (extract_u64_as v "schema_tag") as [->|[Hn He]].
    - by destruct (as_u64 v).
    - rewrite Hn. by destruct (extract_u64 v "schema_tag"). }
  destruct (decide (s = rstr_of "sector_id")) as [->|H4].
  { eval_keys. destruct (extract_bytes16_as v "sector_id") as [->|[Hn He]].
    - by destruct (as_bytes16 v).
    - rewrite Hn. by destruct (extract_bytes16 v "sector_id"). }
  destruct (decide (s = rstr_of "sender_identity")) as [->|H5].
  { eval_keys. destruct (extract_bytes16_as v "sender_identity") as [->|[Hn He]].
    - by destruct (as_bytes16 v).
    - rewrite Hn. by destruct (extract_bytes16 v "sender_identity"). }
  destruct (decide (s = rstr_of "sender_machine")) as [->|H6].
  { eval_keys. destruct (extract_bytes16_as v "sender_machine") as [->|[Hn He]].
    - by destruct (as_bytes16 v).
    - rewrite Hn. by destruct (extract_bytes16 v "sender_machine"). }
  eval_keys. by destruct f.
Qed.

Lemma decode_loop_spec f l :
  if forallb well_typed l then for_each decode_entry f l = Ok (updated f l)
  else is_ok (for_each decode_entry f l) = false.
Proof using.
  revert f. induction l as [|kv l IHl]; intros f; [by destruct f|]. cbn [forallb for_each].
  pose proof (decode_entry_spec f kv) as Hkv. destruct (well_typed kv); cbn [andb].
  - rewrite Hkv. specialize (IHl (updated f [kv])). destruct (forallb well_typed l) eqn:Hl; [|done].
    by rewrite (updated_cons f kv l).
  - by destruct (decode_entry f kv).
Qed.

Lemma aad_entries_kept a : filter (λ kv, skipped kv = false) (aad_entries a) = aad_entries a.
Proof using. apply filter_all. unfold aad_entries, aad_value. by repeat constructor. Qed.

Lemma encode_decode `{!CiboriumOk} a : ∃ b, encode a = Ok b ∧ decode b = Ok a.
Proof using.
  destruct (ciborium_roundtrip (aad_value a)) as (b & Hw & Hr).
  { unfold aad_value. simpl. pose proof (uint_range (epoch_0 (epoch a))).
    pose proof (uint_range (schema_tag_0 (schema_tag a))).
    destruct (prev_sector_id a); simpl; rewrite !andb_true_r; lia. }
  exists b. unfold encode. rewrite Hw. split; [done|].
  apply (decode_entries a b (aad_entries a)); [exact Hr|]. by rewrite aad_entries_kept.
Qed.
End decode.

(** ** A concrete CBOR implementation for the scalar fragment (witnesses only) *)

Section mem_ciborium.
Definition leaf_code : Type := Z + (bytes + (rstr + ())).

Definition to_leaf (v : Value) : leaf_code :=
  match v with
  | VInteger z => inl z
  | VBytes b => inr (inl b)
  | VText s => inr (inr (inl s))
  | _ => inr (inr (inr ()))
  end.

Definition of_leaf (c : leaf_code) : Value :=
  match c with
  | inl z => VInteger z
  | inr (inl b) => VBytes b
  | inr (inr (inl s)) => VText s
  | inr (inr (inr _)) => VNull
  end.

Lemma of_to_leaf v : leaf_ok v = true → of_leaf (to_leaf v) = v.
Proof using. by destruct v. Qed.

#[local] Instance leaf_ser : Ser leaf_code := ser_countable leaf_code.

#[export] Instance mem_ciborium : Ciborium := {
  ciborium_error := ();
  ciborium_error_string _ := "cbor"%string;
  value_debug _ := ""%string;
  into_writer v :=
    match v with
    | VMap l => Ok (ser ((λ kv, (to_leaf kv.1, to_leaf kv.2)) <$> l))
    | _ => Err ()
    end;
  from_reader b :=
    match deser b with
    | Some (l, []) => Ok (VMap ((λ kv : leaf_code * leaf_code, (of_leaf kv.1, of_leaf kv.2)) <$> l))
    | _ => Err ()
    end;
}.

#[export] Instance mem_ciborium_ok : CiboriumOk.
Proof using.
  intros [] Hv; try done. eexists. split; [reflexivity|].
  cbn [from_reader mem_ciborium]. rewrite deser_ser_nil. f_equal. f_equal.
  induction l as [|[k v] l IHl]; simpl in *; [done|].
  apply andb_true_iff in Hv as [[Hk Hv']%andb_true_iff Hl].
  f_equal; [by rewrite !of_to_leaf|by apply IHl].
Qed.
End mem_ciborium.

(** ** Properties *)

(** What [encode] produces decodes to the same AAD, so distinct AADs have distinct
    encodings. *)
Theorem aad_roundtrip `{CiboriumOk} a :
  (∃ b, encode a = Ok b ∧ decode b = Ok a) ∧
  ∀ a', encode a' = encode a → a' = a.
Proof.
  destruct (encode_decode a) as (b & Hb & Hd). split; [by exists b|].
  intros a' He. destruct (encode_decode a') as (b' & Hb' & Hd').
  rewrite Hb, Hb' in He. injection He as ->. rewrite Hd in Hd'. by injection Hd'.
Qed.

(** The order of the entries does not matter, nor do entries with unknown keys. *)
Lemma aad_decode_order `{Ciborium} a b l :
  from_reader b = Ok (VMap l) →
  filter (λ kv, skipped kv = false) l ≡ₚ aad_entries a → decode b = Ok a.
Proof. apply decode_entries. Qed.

(** C37: what [decode] accepts, exactly: the bytes of a map in which every entry with the key of
    a field is of the field's type and every field has an entry; the last entry of a key
    counts, entries with other keys do not, and of the schema tag the low 32 bits are kept. *)
Theorem aad_decode_exact `{Ciborium} a b :
  decode b = Ok a ↔ ∃ l, from_reader b = Ok (VMap l) ∧ decode_spec l = Some a.
Proof.
  unfold decode. destruct (from_reader b) as [v|e]; cbn [map_err mbind result_bind].
  2:{ split; [done|]. by intros (l & ? & _). }
  destruct v as [| | | | | | | |l]; try (split; [done|by intros (? & ? & _)]).
  assert ((∃ l', Ok (VMap l) = Ok (E:=ciborium_error) (VMap l') ∧ decode_spec l' = Some a) ↔ decode_spec l = Some a)
    as -> by (split; [by intros (l' & [= <-] & ?)|eauto]).
  unfold decode_spec. pose proof (decode_loop_spec no_fields l) as Hl. destruct (forallb well_typed l).
  - rewrite Hl. unfold updated. cbn [mbind result_bind no_fields f_epoch f_prev_sector_id f_schema_tag
      f_sector_id f_sender_identity f_sender_machine].
    destruct (field "schema_tag" as_u64 l); cbn; [|done].
    destruct (field "sector_id" as_bytes16 l); cbn; [|done].
    destruct (field "sender_identity" as_bytes16 l); cbn; [|done].
    destruct (field "sender_machine" as_bytes16 l); cbn; [|done].
    destruct (field "epoch" as_u64 l); cbn; [|done].
    destruct (field "prev_sector_id" as_prev l); cbn; [|done]. split; congruence.
  - destruct (for_each _ _ l); done.
Qed.

Definition sample_aad : MessageAad :=
  mkMessageAad (mkSchemaTag (umk 32 7)) (mkAadSectorId (arr_fill 16 Byte.x01))
    (mkIdentityId (arr_fill 16 Byte.x02)) (mkMachineId (arr_fill 16 Byte.x03))
    (mkEpoch (umk 64 42)) None.

Lemma aad_roundtrip_witness :
  is_ok (encode sample_aad) = true ∧
  ((∃ b, encode sample_aad = Ok b ∧ decode b = Ok sample_aad) ∧
   ∀ a', encode a' = encode sample_aad → a' = sample_aad).
Proof. split; [reflexivity|apply (aad_roundtrip sample_aad)]. Defined.

Definition shuffled_entries : list (Value * Value) :=
  (VText (rstr_of "x"), VNull) :: reverse (aad_entries sample_aad).

Lemma aad_decode_order_witness :
  ∃ b, from_reader b = Ok (VMap shuffled_entries) ∧ decode b = Ok sample_aad.
Proof.
  destruct (ciborium_roundtrip (VMap shuffled_entries) eq_refl) as (b & _ & Hb).
  exists b. split; [exact Hb|].
  apply (aad_decode_order sample_aad b shuffled_entries Hb).
  exact (reverse_Permutation (aad_entries sample_aad)).
Defined.
