(* ===== verification/GroupKey.v ===== *)
(** * MLS group keys ([zero-crypto/src/group_key.rs])

    The wrappers around [openmls]. The crate is an interface: its types, the calls the source
    makes, and, for the theorems, what RFC 9420 and the crate's documentation say of them: a
    commit leads from one epoch to the next for whoever processes it, a welcome puts a new
    member into that epoch, an application message of an epoch is read once by every other
    member of it. The provider (storage and random generator) is mutated through a shared
    reference; here it is threaded with the member that owns it. *)

From Stdlib Require Import ZArith Lia.
From stdpp Require Import base tactics gmap strings sorting numbers countable list.
From S2P Require Import Prelude Bytes Store Mem Aad.
#[local] Open Scope nat_scope.

(** ** openmls *)

(** Public data of the crate: [CredentialWithKey], and of the two enums that the source takes
    apart the variants it tells apart. *)
Record CredentialWithKey (C : Type) : Type := mkCredentialWithKey {
  credential : C;
  signature_key : bytes;
}.
Arguments mkCredentialWithKey {C}.
Arguments credential {C}.
Arguments signature_key {C}.

Inductive MlsMessageBodyIn (W : Type) : Type := BodyWelcome (w : W) | BodyOther.
Arguments BodyWelcome {W}.
Arguments BodyOther {W}.

Inductive ProcessedMessageContent (St Ot : Type) : Type :=
| ApplicationMessage (b : bytes)
| StagedCommitMessage (s : St)
| OtherContent (o : Ot).
Arguments ApplicationMessage {St Ot}.
Arguments StagedCommitMessage {St Ot}.
Arguments OtherContent {St Ot}.

Class OpenMls : Type := {
  mls_error : Type;
  (** [{e:?}] *)
  mls_debug : mls_error → string;
  Entropy : Type;
  Provider : Type;
  provider_default : Entropy → Provider;
  Ciphersuite : Type;
  MLS_128_DHKEMX25519_AES128GCM_SHA256_Ed25519 : Ciphersuite;
  SignatureScheme : Type;
  signature_algorithm : Ciphersuite → SignatureScheme;
  SignatureKeyPair : Type;
  sig_new : SignatureScheme → Entropy → result mls_error SignatureKeyPair;
  sig_store : SignatureKeyPair → io Provider mls_error ();
  to_public_vec : SignatureKeyPair → bytes;
  Credential : Type;
  basic_credential : bytes → Credential;
  KeyPackageBundle : Type;
  KeyPackage : Type;
  kp_build : Ciphersuite → SignatureKeyPair → CredentialWithKey Credential →
    io Provider mls_error KeyPackageBundle;
  bundle_key_package : KeyPackageBundle → KeyPackage;
  kp_serialize : KeyPackage → result mls_error bytes;
  (** The builders' [ciphersuite] and [use_ratchet_tree_extension]. *)
  MlsGroupCreateConfig : Type;
  create_config : Ciphersuite → bool → MlsGroupCreateConfig;
  MlsGroupJoinConfig : Type;
  join_config : bool → MlsGroupJoinConfig;
  MlsGroup : Type;
  MlsMessageOut : Type;
  MlsMessageIn : Type;
  ProtocolMessage : Type;
  Welcome : Type;
  StagedWelcome : Type;
  StagedCommit : Type;
  GroupInfo : Type;
  OtherProcessed : Type;
  group_new : SignatureKeyPair → MlsGroupCreateConfig → CredentialWithKey Credential →
    io Provider mls_error MlsGroup;
  add_members : SignatureKeyPair → list KeyPackage →
    io (MlsGroup * Provider) mls_error (MlsMessageOut * MlsMessageOut * option GroupInfo);
  merge_pending_commit : io (MlsGroup * Provider) mls_error ();
  msg_to_bytes : MlsMessageOut → result mls_error bytes;
  msg_deserialize_exact : bytes → result mls_error MlsMessageIn;
  msg_extract : MlsMessageIn → MlsMessageBodyIn Welcome;
  RatchetTreeIn : Type;
  new_from_welcome : MlsGroupJoinConfig → Welcome → option RatchetTreeIn →
    io Provider mls_error StagedWelcome;
  into_group : StagedWelcome → io Provider mls_error MlsGroup;
  create_message : SignatureKeyPair → bytes → io (MlsGroup * Provider) mls_error MlsMessageOut;
  try_into_protocol_message : MlsMessageIn → result mls_error ProtocolMessage;
  process_message : ProtocolMessage →
    io (MlsGroup * Provider) mls_error (ProcessedMessageContent StagedCommit OtherProcessed);
  content_debug : ProcessedMessageContent StagedCommit OtherProcessed → string;
  merge_staged_commit : StagedCommit → io (MlsGroup * Provider) mls_error ();
  export_secret : MlsGroup → Provider → rstr → bytes → nat → result mls_error bytes;
  mls_epoch : MlsGroup → u64;
}.

(** ** The wrappers *)

Section group_key.
Context `{M : OpenMls}.

Definition CIPHERSUITE : Ciphersuite := MLS_128_DHKEMX25519_AES128GCM_SHA256_Ed25519.

Definition map_mls (e : mls_error) : CryptoError := Mls (mls_debug e).

Record MlsMember : Type := mkMlsMember {
  provider : Provider;
  credential_with_key : CredentialWithKey Credential;
  signer : SignatureKeyPair;
}.

(** A call on the member's provider, or on a group and the member's provider. *)
Definition with_provider (p : Provider) (m : MlsMember) : MlsMember :=
  mkMlsMember p (credential_with_key m) (signer m).
Definition on_provider {A} (f : MlsMember → io Provider mls_error A) : io MlsMember CryptoError A :=
  λ m, let (p, r) := f m (provider m) in (with_provider p m, map_err map_mls r).
Definition on_group {A} (f : MlsMember → io (MlsGroup * Provider) mls_error A)
    : io (MlsGroup * MlsMember) CryptoError A :=
  λ s, let (gp, r) := f s.2 (s.1, provider s.2) in
       ((gp.1, with_provider gp.2 s.2), map_err map_mls r).

(** [MlsMember::new]: [seed] is what the provider's generator is seeded with, [key_seed] what
    the key pair is drawn from. *)
Definition MlsMember_new (identity_id machine_id : rstr) (seed key_seed : Entropy)
    : result CryptoError MlsMember :=
  let provider := provider_default seed in
  signature_keys ← map_err map_mls (sig_new (signature_algorithm CIPHERSUITE) key_seed);
  let (provider, stored) := sig_store signature_keys provider in
  map_err map_mls stored;;
  let identity := identity_id ++ rstr_of ":" ++ machine_id in
  let credential := basic_credential (as_bytes identity) in
  Ok (mkMlsMember provider
    (mkCredentialWithKey credential (to_public_vec signature_keys)) signature_keys).

Definition key_package : io MlsMember CryptoError KeyPackage :=
  kp ← on_provider (λ self, kp_build CIPHERSUITE (signer self) (credential_with_key self));
  mret (bundle_key_package kp).

Record MlsKeyPackage : Type := mkMlsKeyPackage { mls_key_package_0 : bytes }.

Definition generate_key_package (identity_id machine_id : rstr) (seed key_seed : Entropy)
    : result CryptoError MlsKeyPackage :=
  member ← MlsMember_new identity_id machine_id seed key_seed;
  kp ← (key_package member).2;
  b ← map_err map_mls (kp_serialize kp);
  Ok (mkMlsKeyPackage b).

Definition create_group : io MlsMember CryptoError MlsGroup :=
  let group_config := create_config CIPHERSUITE true in
  on_provider (λ creator, group_new (signer creator) group_config (credential_with_key creator)).

Definition add_member (joiner_kp : KeyPackage)
    : io (MlsGroup * MlsMember) CryptoError (MlsMessageOut * MlsMessageOut) :=
  '(commit_msg, welcome, _) ← on_group (λ adder, add_members (signer adder) [joiner_kp]);
  on_group (λ _, merge_pending_commit);;
  mret (commit_msg, welcome).

(** The bytes of a message and the message read back from them; [what] is in the errors. *)
Definition reserialize (what : string) (m : MlsMessageOut) : result CryptoError MlsMessageIn :=
  serialized ← map_err (λ e, Mls ("serialize " +:+ what +:+ ": " +:+ mls_debug e)) (msg_to_bytes m);
  map_err (λ e, Mls ("deserialize " +:+ what +:+ ": " +:+ mls_debug e))
    (msg_deserialize_exact serialized).

Definition join_group (welcome : MlsMessageOut) : io MlsMember CryptoError MlsGroup :=
  msg_in ← lift (reserialize "welcome" welcome);
  let group_config := join_config true in
  match msg_extract msg_in with
  | BodyWelcome w =>
      staged ← on_provider (λ _, new_from_welcome group_config w None);
      on_provider (λ _, into_group staged)
  | BodyOther => fails (Mls "expected welcome message")
  end.

Definition encrypt_for_group (plaintext : bytes)
    : io (MlsGroup * MlsMember) CryptoError MlsMessageOut :=
  on_group (λ sender, create_message (signer sender) plaintext).

Definition decrypt_from_group (mls_msg : MlsMessageOut)
    : io (MlsGroup * MlsMember) CryptoError bytes :=
  msg_in ← lift (reserialize "msg" mls_msg);
  protocol_msg ← lift (map_err map_mls (try_into_protocol_message msg_in));
  processed ← on_group (λ _, process_message protocol_msg);
  match processed with
  | ApplicationMessage app_msg => mret app_msg
  | other => fails (Mls ("expected application message, got " +:+ content_debug other))
  end.

Definition process_commit (commit_msg : MlsMessageOut)
    : io (MlsGroup * MlsMember) CryptoError () :=
  msg_in ← lift (reserialize "commit" commit_msg);
  protocol_msg ← lift (map_err map_mls (try_into_protocol_message msg_in));
  processed ← on_group (λ _, process_message protocol_msg);
  match processed with
  | StagedCommitMessage staged => on_group (λ _, merge_staged_commit staged);; mret ()
  | other => fails (Mls ("expected commit message, got " +:+ content_debug other))
  end.

Definition epoch_secret (group : MlsGroup) (member : MlsMember) (label : rstr) (len : nat)
    : result CryptoError bytes :=
  map_err map_mls (export_secret group (provider member) label [] len).

Definition epoch (group : MlsGroup) : u64 := mls_epoch group.
End group_key.

(** ** What the documentation of openmls and RFC 9420 say *)

(** The state of a group at an epoch, as its members share it: the number of the epoch, the
    signature keys of the members, and the exporter. *)
Class OpenMlsOk `{M : OpenMls} : Type := {
  transcript : Type;
  t_epoch : transcript → nat;
  t_roster : transcript → list bytes;
  exporter : transcript → rstr → nat → bytes;
  (** A member's copy: the epoch it is in, its own key, a commit it has made and not merged,
      per sender the number of the next application message, whether it has read a commit
      of the epoch, and whether its welcomes carry the ratchet tree. *)
  view : MlsGroup → transcript;
  own_key : MlsGroup → bytes;
  pending_commit : MlsGroup → option transcript;
  generation : MlsGroup → bytes → nat;
  commit_read : MlsGroup → bool;
  tree_extension : MlsGroup → bool;
  (** The provider's storage and generator work; it holds the private part of a package. *)
  provider_ok : Provider → Prop;
  holds : Provider → KeyPackage → Prop;
  kp_key : KeyPackage → bytes;
  (** A package a group of [CIPHERSUITE] can take in: made for that ciphersuite, signed, within
      its lifetime, and with encryption keys that are in use nowhere, since they were drawn for
      it (two draws are taken not to collide). *)
  admissible : KeyPackage → Prop;
  (** The messages: a commit by an author, a welcome for a package, the [n]th application
      message of a sender in an epoch; and the message as it is read back. *)
  incoming : MlsMessageOut → MlsMessageIn;
  is_commit : MlsMessageOut → transcript → transcript → bytes → Prop;
  is_welcome : MlsMessageOut → KeyPackage → transcript → Prop;
  is_app : MlsMessageOut → transcript → bytes → nat → bytes → Prop;

  mls_epoch_spec g : mls_epoch g = umk 64 (Z.of_nat (t_epoch (view g)));
  export_spec g p label len : provider_ok p → len ≤ 255 * 32 →
    export_secret g p label [] len = Ok (exporter (view g) label len) ∧
    length (exporter (view g) label len) = len;
  default_ok seed : provider_ok (provider_default seed);
  sig_new_ok seed : is_ok (sig_new (signature_algorithm CIPHERSUITE) seed) = true;
  sig_store_ok k p : provider_ok p → ∃ p', sig_store k p = (p', Ok ()) ∧ provider_ok p';
  kp_build_ok k c p : provider_ok p → signature_key c = to_public_vec k →
    ∃ p' b, kp_build CIPHERSUITE k c p = (p', Ok b) ∧ provider_ok p' ∧
      holds p' (bundle_key_package b) ∧ kp_key (bundle_key_package b) = to_public_vec k ∧
      admissible (bundle_key_package b);
  group_new_ok k c tree p : provider_ok p → signature_key c = to_public_vec k →
    ∃ p' g, group_new k (create_config CIPHERSUITE tree) c p = (p', Ok g) ∧ provider_ok p' ∧
      t_epoch (view g) = 0 ∧ t_roster (view g) = [to_public_vec k] ∧
      own_key g = to_public_vec k ∧ pending_commit g = None ∧ (∀ x, generation g x = 0) ∧
      commit_read g = false ∧ tree_extension g = tree;
  add_members_ok g p k kp : provider_ok p → own_key g = to_public_vec k →
    pending_commit g = None → admissible kp → kp_key kp ∉ t_roster (view g) →
    ∃ g' p' c w i next, add_members k [kp] (g, p) = ((g', p'), Ok (c, w, i)) ∧ provider_ok p' ∧
      pending_commit g' = Some next ∧ view g' = view g ∧ own_key g' = own_key g ∧
      tree_extension g' = tree_extension g ∧
      t_epoch next = S (t_epoch (view g)) ∧ t_roster next = t_roster (view g) ++ [kp_key kp] ∧
      is_commit c (view g) next (own_key g) ∧
      (tree_extension g = true → is_welcome w kp next);
  merge_pending_ok g p next : provider_ok p → pending_commit g = Some next →
    ∃ g' p', merge_pending_commit (g, p) = ((g', p'), Ok ()) ∧ provider_ok p' ∧
      view g' = next ∧ own_key g' = own_key g ∧ pending_commit g' = None ∧
      (∀ x, generation g' x = 0) ∧ commit_read g' = false ∧ tree_extension g' = tree_extension g;
  wire_ok m : ∃ b, msg_to_bytes m = Ok b ∧ msg_deserialize_exact b = Ok (incoming m);
  extract_other m v x n pt : is_app m v x n pt → msg_extract (incoming m) = BodyOther;
  welcome_ok w kp next tree p : is_welcome w kp next → provider_ok p → holds p kp →
    ∃ wel st p1 p2 g, msg_extract (incoming w) = BodyWelcome wel ∧
      new_from_welcome (join_config tree) wel None p = (p1, Ok st) ∧
      into_group st p1 = (p2, Ok g) ∧ provider_ok p2 ∧ view g = next ∧ own_key g = kp_key kp ∧
      pending_commit g = None ∧ (∀ x, generation g x = 0) ∧ commit_read g = false ∧
      tree_extension g = tree;
  protocol_ok m v : (∃ next x, is_commit m v next x) ∨ (∃ x n pt, is_app m v x n pt) →
    is_ok (try_into_protocol_message (incoming m)) = true;
  (** Reading a commit leaves the copy as it was until the staged commit is merged. *)
  commit_ok c pm g p next x : is_commit c (view g) next x → own_key g ≠ x → provider_ok p →
    pending_commit g = None → commit_read g = false →
    try_into_protocol_message (incoming c) = Ok pm →
    ∃ g1 p1 st, process_message pm (g, p) = ((g1, p1), Ok (StagedCommitMessage st)) ∧
      provider_ok p1 ∧ view g1 = view g ∧ own_key g1 = own_key g ∧ pending_commit g1 = None ∧
      (∀ x, generation g1 x = generation g x) ∧ tree_extension g1 = tree_extension g ∧
      ∃ g2 p2, merge_staged_commit st (g1, p1) = ((g2, p2), Ok ()) ∧ provider_ok p2 ∧
        view g2 = next ∧ own_key g2 = own_key g ∧ pending_commit g2 = None ∧
        (∀ x, generation g2 x = 0) ∧ commit_read g2 = false ∧ tree_extension g2 = tree_extension g;
  (** A sender's generations are numbered with 32 bits. *)
  create_message_ok k pt g p : provider_ok p → own_key g = to_public_vec k →
    pending_commit g = None → (Z.of_nat (generation g (own_key g)) < 2 ^ 32 - 1)%Z →
    ∃ g' p' m, create_message k pt (g, p) = ((g', p'), Ok m) ∧ provider_ok p' ∧
      is_app m (view g) (own_key g) (generation g (own_key g)) pt ∧
      view g' = view g ∧ own_key g' = own_key g ∧ pending_commit g' = None ∧
      commit_read g' = commit_read g ∧ tree_extension g' = tree_extension g ∧
      (∀ x, generation g' x = if decide (x = own_key g) then S (generation g x) else generation g x);
  (** The next message of another member is read. *)
  app_ok m pm g p x pt : is_app m (view g) x (generation g x) pt → x ≠ own_key g →
    x ∈ t_roster (view g) → provider_ok p → try_into_protocol_message (incoming m) = Ok pm →
    ∃ g' p', process_message pm (g, p) = ((g', p'), Ok (ApplicationMessage pt)) ∧ provider_ok p' ∧
      view g' = view g ∧ own_key g' = own_key g ∧ pending_commit g' = pending_commit g ∧
      commit_read g' = commit_read g ∧ tree_extension g' = tree_extension g ∧
      (∀ y, generation g' y = if decide (y = x) then S (generation g y) else generation g y);
  (** A message, commits included, is decrypted with a key that is gone afterwards. *)
  read_once m pm g p g1 p1 p' c v :
    (∃ next x, is_commit m v next x) ∨ (∃ x n pt, is_app m v x n pt) →
    try_into_protocol_message (incoming m) = Ok pm →
    process_message pm (g, p) = ((g1, p1), Ok c) → is_ok (process_message pm (g1, p')).2 = false;
}.

(** ** Each wrapper on a member in step with its group *)

Section wrapper_laws.
Context `{MOk : OpenMlsOk}.
Implicit Types (m : MlsMember) (s : MlsGroup * MlsMember) (v : transcript) (gen : bytes → nat).

Definition member_key m : bytes := to_public_vec (signer m).
Definition member_ok m : Prop :=
  provider_ok (provider m) ∧ signature_key (credential_with_key m) = member_key m.

(** The copy [s] is in the epoch [v], with [gen] messages read or sent per sender. *)
Definition synced v gen s : Prop :=
  view s.1 = v ∧ (∀ x, generation s.1 x = gen x) ∧ own_key s.1 = member_key s.2 ∧
  pending_commit s.1 = None ∧ commit_read s.1 = false ∧ tree_extension s.1 = true ∧
  provider_ok (provider s.2).

Definition no_messages : bytes → nat := λ _, 0.
Definition one_more (x : bytes) gen : bytes → nat := λ y, if decide (y = x) then S (gen y) else gen y.

Lemma new_member_run i mm seed key_seed :
  ∃ k m, sig_new (signature_algorithm CIPHERSUITE) key_seed = Ok k ∧
    MlsMember_new i mm seed key_seed = Ok m ∧ member_ok m ∧ member_key m = to_public_vec k.
Proof using.
  pose proof (sig_new_ok key_seed) as Hk. unfold MlsMember_new.
  destruct (sig_new _ key_seed) as [k|]; [|done]. cbn.
  destruct (sig_store_ok k (provider_default seed) (default_ok seed)) as (p' & -> & Hp).
  cbn. eexists k, _. by split_and!.
Qed.

Lemma key_package_run m :
  member_ok m → ∃ m' kp, key_package m = (m', Ok kp) ∧ member_ok m' ∧ signer m' = signer m ∧
    holds (provider m') kp ∧ kp_key kp = member_key m ∧ admissible kp.
Proof using.
  intros [Hp Hc]. destruct (kp_build_ok _ _ _ Hp Hc) as (p' & b & Hb & Hp' & Hh & Hk & Ha).
  exists (with_provider p' m), (bundle_key_package b). unfold key_package, on_provider, mbind, io_bind.
  rewrite Hb. by split_and!.
Qed.

Lemma group_new_run m :
  member_ok m → ∃ m' g, create_group m = (m', Ok g) ∧ signer m' = signer m ∧
    synced (view g) no_messages (g, m') ∧ t_epoch (view g) = 0 ∧ t_roster (view g) = [member_key m].
Proof using.
  intros [Hp Hc].
  destruct (group_new_ok _ _ true _ Hp Hc) as (p' & g & Hg & Hp' & He & Hr & Ho & Hpend & Hgen & Hcr & Ht).
  exists (with_provider p' m), g. unfold create_group, on_provider. rewrite Hg. by split_and!.
Qed.

Lemma add_member_run v gen s kp :
  synced v gen s → admissible kp → kp_key kp ∉ t_roster v →
  ∃ s' c w next, add_member kp s = (s', Ok (c, w)) ∧ synced next no_messages s' ∧
    signer s'.2 = signer s.2 ∧ t_epoch next = S (t_epoch v) ∧
    t_roster next = t_roster v ++ [kp_key kp] ∧
    is_commit c v next (member_key s.2) ∧ is_welcome w kp next.
Proof using.
  destruct s as [g m]. intros (<- & Hgen & Ho & Hpend & Hcr & Ht & Hp) Ha Hkp. cbn [fst snd] in *.
  destruct (add_members_ok g (provider m) (signer m) kp Hp Ho Hpend Ha Hkp)
    as (g1 & p1 & c & w & i & next & Hadd & Hp1 & Hnext & Hv1 & Ho1 & Ht1 & He & Hr & Hc & Hw).
  destruct (merge_pending_ok g1 p1 next Hp1 Hnext) as (g2 & p2 & Hm & Hp2 & Hv2 & Ho2 & Hpd & Hg2 & Hcr2 & Ht2).
  exists (g2, with_provider p2 (with_provider p1 m)), c, w, next.
  unfold add_member, on_group, mbind, io_bind. cbn [fst snd]. rewrite Hadd. cbn. rewrite Hm.
  rewrite <-Ho. split_and!; try done; [|by auto].
  unfold synced, member_key in *; split_and!; cbn; [done|done|congruence|done|congruence|congruence|done].
Qed.

Lemma process_commit_run v gen next x s c :
  synced v gen s → is_commit c v next x → member_key s.2 ≠ x →
  ∃ s', process_commit c s = (s', Ok ()) ∧ synced next no_messages s' ∧ signer s'.2 = signer s.2.
Proof using.
  destruct s as [g m]. intros (<- & Hgen & Ho & Hpend & Hcr & Ht & Hp) Hc Hx. cbn [fst snd] in *.
  rewrite <-Ho in Hx. destruct (wire_ok c) as (b & Hb & Hd).
  pose proof (protocol_ok c (view g) ltac:(eauto)) as Hpm.
  destruct (try_into_protocol_message (incoming c)) as [pm|] eqn:Hpr; [|done].
  destruct (commit_ok c pm g (provider m) next x Hc Hx Hp Hpend Hcr Hpr)
    as (g1 & p1 & st & H1 & Hp1 & _ & _ & _ & _ & _ & g2 & p2 & H2 & Hp2 & Hv2 & Ho2 & Hpd & Hg2 & Hcr2 & Ht2).
  exists (g2, with_provider p2 (with_provider p1 m)).
  unfold process_commit, reserialize, on_group, lift, mbind, io_bind. rewrite Hb. cbn. rewrite Hd. cbn.
  rewrite Hpr. cbn. rewrite H1. cbn. rewrite H2. cbn.
  split_and!; [done| |done]. unfold synced, member_key in *; split_and!; cbn; [done|done|congruence|done|congruence|congruence|done].
Qed.

Lemma join_group_run m kp w next :
  is_welcome w kp next → provider_ok (provider m) → holds (provider m) kp → kp_key kp = member_key m →
  ∃ m' g, join_group w m = (m', Ok g) ∧ synced next no_messages (g, m') ∧ signer m' = signer m.
Proof using.
  intros Hw Hp Hh Hk. destruct (wire_ok w) as (b & Hb & Hd).
  destruct (welcome_ok w kp next true (provider m) Hw Hp Hh)
    as (wel & st & p1 & p2 & g & Hx & H1 & H2 & Hp2 & Hv & Ho & Hpd & Hg & Hcr & Ht).
  exists (with_provider p2 (with_provider p1 m)), g.
  unfold join_group, reserialize, on_provider, lift, mbind, io_bind. rewrite Hb. cbn. rewrite Hd. cbn.
  rewrite Hx, H1. cbn. rewrite H2. split_and!; [done| |done].
  unfold synced, member_key in *; split_and!; cbn; [done|done|congruence|done|done|done|done].
Qed.

Lemma encrypt_run v gen s pt :
  synced v gen s → (Z.of_nat (gen (member_key s.2)) < 2 ^ 32 - 1)%Z →
  ∃ s' c, encrypt_for_group pt s = (s', Ok c) ∧
    synced v (one_more (member_key s.2) gen) s' ∧ signer s'.2 = signer s.2 ∧
    is_app c v (member_key s.2) (gen (member_key s.2)) pt.
Proof using.
  destruct s as [g m]. intros (<- & Hgen & Ho & Hpend & Hcr & Ht & Hp) Hlt. cbn [fst snd] in *.
  rewrite <-Hgen, <-Ho in Hlt.
  destruct (create_message_ok (signer m) pt g (provider m) Hp Ho Hpend Hlt)
    as (g' & p' & c & Hc & Hp' & Happ & Hv & Ho' & Hpd & Hcr' & Ht' & Hg').
  exists (g', with_provider p' m), c. unfold encrypt_for_group, on_group. cbn [fst snd]. rewrite Hc.
  rewrite <-Ho, <-Hgen. split_and!; [done| |done|done].
  unfold synced, member_key in *; split_and!; cbn; [done| |congruence|done|congruence|congruence|done].
  intros x. rewrite Hg'. unfold one_more. by rewrite Hgen.
Qed.

Lemma decrypt_run v gen s c x pt :
  synced v gen s → is_app c v x (gen x) pt → x ≠ member_key s.2 → x ∈ t_roster v →
  ∃ s', decrypt_from_group c s = (s', Ok pt) ∧ synced v (one_more x gen) s' ∧
    signer s'.2 = signer s.2.
Proof using.
  destruct s as [g m]. intros (<- & Hgen & Ho & Hpend & Hcr & Ht & Hp) Happ Hx Hin. cbn [fst snd] in *.
  rewrite <-Ho in Hx. rewrite <-Hgen in Happ. destruct (wire_ok c) as (b & Hb & Hd).
  pose proof (protocol_ok c (view g) ltac:(eauto)) as Hpm.
  destruct (try_into_protocol_message (incoming c)) as [pm|] eqn:Hpr; [|done].
  destruct (app_ok c pm g (provider m) x pt Happ Hx Hin Hp Hpr)
    as (g' & p' & H1 & Hp' & Hv & Ho' & Hpd & Hcr' & Ht' & Hg').
  exists (g', with_provider p' m).
  unfold decrypt_from_group, reserialize, on_group, lift, mbind, io_bind. rewrite Hb. cbn.
  rewrite Hd. cbn. rewrite Hpr. cbn. rewrite H1. cbn. split_and!; [done| |done].
  unfold synced, member_key in *; split_and!; cbn; [done| |congruence|congruence|congruence|congruence|done].
  intros y. rewrite Hg'. unfold one_more. by rewrite Hgen.
Qed.

Lemma epoch_secret_run v gen s label len :
  synced v gen s → len ≤ 255 * 32 →
  epoch_secret s.1 s.2 label len = Ok (exporter v label len) ∧ length (exporter v label len) = len.
Proof using.
  intros (<- & _ & _ & _ & _ & _ & Hp) Hlen. unfold epoch_secret.
  destruct (export_spec s.1 _ label len Hp Hlen) as [-> ?]. done.
Qed.
End wrapper_laws.
