(* ===== verification/GroupKeyRun.v ===== *)
(** * Groups of members over the MLS wrappers

    Several members of one group and a transport that brings every message to every other
    member in the order sent, built on the wrappers of [GroupKey]. The theorems: a group stays
    in agreement whatever its members do ([group_agrees]), and what becomes of a message given
    to the wrong reader ([group_errors]). At the end a toy instance of the interface. *)

From Stdlib Require Import ZArith Lia Strings.Byte.
From stdpp Require Import base tactics gmap strings sorting numbers countable list.
From S2P Require Import Prelude Bytes Store Mem Aad GroupKey.
#[local] Open Scope nat_scope.

(** ** A group of members

    A newcomer is made and invited by a member, the others process the commit
    and the newcomer joins from the welcome; a member sends a message and the others read it. *)

Section group.
Context `{M : OpenMls}.

Record newcomer : Type := mkNewcomer {
  nc_identity : rstr;
  nc_machine : rstr;
  nc_seed : Entropy;
  nc_key_seed : Entropy;
}.

Inductive group_event : Type :=
| Invite (inviter : nat) (n : newcomer)
| Say (sender : nat) (plaintext : bytes).

Abbreviation member_state := (MlsGroup * MlsMember)%type.

Definition make_member (n : newcomer) : result CryptoError MlsMember :=
  MlsMember_new (nc_identity n) (nc_machine n) (nc_seed n) (nc_key_seed n).

(** Each member but the one at [skip] handles a message. *)
Fixpoint deliver {A} (f : io member_state CryptoError A) (skip : option nat) (l : list member_state)
    : result CryptoError (list member_state * list A) :=
  match l with
  | [] => Ok ([], [])
  | s :: rest =>
      match skip with
      | Some 0 => '(rest', out) ← deliver f None rest; Ok (s :: rest', out)
      | _ =>
          match f s with
          | (s', Ok a) => '(rest', out) ← deliver f (pred <$> skip) rest; Ok (s' :: rest', a :: out)
          | (_, Err e) => Err e
          end
      end
  end.

(** The members afterwards and what the others have read. *)
Definition run_event (ev : group_event) (l : list member_state)
    : result CryptoError (list member_state * list bytes) :=
  match ev with
  | Invite i n =>
      inviter ← ok_or (l !! i) (Mls "no such member");
      joiner ← make_member n;
      let (joiner, kp) := key_package joiner in
      kp ← kp;
      let (inviter, added) := add_member kp inviter in
      '(c, w) ← added;
      '(l, _) ← deliver (process_commit c) (Some i) (<[i := inviter]> l);
      let (joiner, g) := join_group w joiner in
      g ← g;
      Ok (l ++ [(g, joiner)], [])
  | Say i pt =>
      sender ← ok_or (l !! i) (Mls "no such member");
      let (sender, c) := encrypt_for_group pt sender in
      c ← c;
      deliver (decrypt_from_group c) (Some i) (<[i := sender]> l)
  end.

Fixpoint run_events (evs : list group_event) (l : list member_state)
    : result CryptoError (list member_state * list (list bytes)) :=
  match evs with
  | [] => Ok (l, [])
  | ev :: rest =>
      '(l, out) ← run_event ev l;
      '(l, outs) ← run_events rest l;
      Ok (l, out :: outs)
  end.

Definition run_group (creator : newcomer) (evs : list group_event)
    : result CryptoError (list member_state * list (list bytes)) :=
  m ← make_member creator;
  let (m, g) := create_group m in
  g ← g;
  run_events evs [(g, m)].

(** What everybody should have read: with [n] members at first. *)
Fixpoint expected (evs : list group_event) (n : nat) : list (list bytes) :=
  match evs with
  | [] => []
  | Invite _ _ :: rest => [] :: expected rest (S n)
  | Say _ pt :: rest => replicate (pred n) pt :: expected rest n
  end.

Definition newcomers (evs : list group_event) : list newcomer :=
  omap (λ ev, match ev with Invite _ n => Some n | Say _ _ => None end) evs.

(** Every event is by somebody who is a member by then. *)
Fixpoint by_members (evs : list group_event) (n : nat) : Prop :=
  match evs with
  | [] => True
  | Invite i _ :: rest => i < n ∧ by_members rest (S n)
  | Say i _ :: rest => i < n ∧ by_members rest n
  end.

Definition drawn_key (n : newcomer) : bytes :=
  match sig_new (signature_algorithm CIPHERSUITE) (nc_key_seed n) with
  | Ok k => to_public_vec k
  | Err _ => []
  end.
End group.

Section group_laws.
Context `{MOk : OpenMlsOk}.
Implicit Types (l : list (MlsGroup * MlsMember)) (v : transcript) (gen : bytes → nat).

Definition keys_of l : list bytes := (λ s, member_key s.2) <$> l.

Lemma keys_of_cons s l : keys_of (s :: l) = member_key s.2 :: keys_of l.
Proof using. done. Qed.

Lemma keys_of_app l1 l2 : keys_of (l1 ++ l2) = keys_of l1 ++ keys_of l2.
Proof using. apply fmap_app. Qed.

(** All members are in [v], whose roster they are. *)
Definition in_step v gen l : Prop :=
  Forall (synced v gen) l ∧ t_roster v = keys_of l ∧ NoDup (keys_of l).

(** What each receiver does takes it from one state of agreement to another. *)
Definition handles {A} (f : io (MlsGroup * MlsMember) CryptoError A) v gen v' gen' (x : bytes) (a : A)
    : Prop :=
  ∀ s, synced v gen s → member_key s.2 ≠ x → member_key s.2 ∈ t_roster v →
    ∃ s', f s = (s', Ok a) ∧ synced v' gen' s' ∧ signer s'.2 = signer s.2.

Lemma deliver_all {A} (f : io (MlsGroup * MlsMember) CryptoError A) v gen v' gen' x (a : A) l :
  handles f v gen v' gen' x a → Forall (synced v gen) l → x ∉ keys_of l →
  keys_of l ⊆ t_roster v →
  ∃ l', deliver f None l = Ok (l', replicate (length l) a) ∧ Forall (synced v' gen') l' ∧
    keys_of l' = keys_of l.
Proof using.
  intros Hf Hl Hx Hr. induction Hl as [|s l Hs Hl IHl]; [by exists []|].
  rewrite keys_of_cons in Hx, Hr. apply not_elem_of_cons in Hx as [Hx1 Hx2].
  destruct (Hf s Hs) as (s' & Hfs & Hs' & Hk); [by intros <-; apply Hx1|apply Hr, list_elem_of_here|].
  destruct IHl as (l' & Hd & Hl' & Hkl); [done|intros y Hy; by apply Hr, list_elem_of_further|].
  exists (s' :: l'). cbn [deliver]. rewrite Hfs. cbn [fmap option_fmap option_map]. rewrite Hd. cbn -[keys_of].
  split_and!; [done|by constructor|].
  rewrite !keys_of_cons, Hkl. unfold member_key. by rewrite Hk.
Qed.

Lemma deliver_others {A} (f : io (MlsGroup * MlsMember) CryptoError A) v gen v' gen' (a : A) i s s' l :
  in_step v gen l → l !! i = Some s → handles f v gen v' gen' (member_key s.2) a →
  synced v' gen' s' → signer s'.2 = signer s.2 →
  ∃ l', deliver f (Some i) (<[i := s']> l) = Ok (l', replicate (pred (length l)) a) ∧
    Forall (synced v' gen') l' ∧ keys_of l' = keys_of l.
Proof using.
  intros (Hl & Hr & Hnd) Hi Hf Hs' Hk.
  assert (keys_of l ⊆ t_roster v) as Hsub by by rewrite Hr. clear Hr.
  revert i Hi. induction Hl as [|s0 l Hs0 Hl IHl]; intros [|i] Hi; try done; cbn in Hi.
  - injection Hi as ->. rewrite keys_of_cons in Hnd, Hsub.
    apply NoDup_cons in Hnd as [Hnin _].
    destruct (deliver_all f v gen v' gen' (member_key s.2) a l) as (l' & Hd & Hl' & Hkl);
      [done|done|done|intros y Hy; by apply Hsub, list_elem_of_further|].
    exists (s' :: l'). cbn -[keys_of]. rewrite Hd. cbn -[keys_of]. split_and!; [done|by constructor|].
    rewrite !keys_of_cons, Hkl. unfold member_key. by rewrite Hk.
  - rewrite keys_of_cons in Hnd, Hsub.
    apply NoDup_cons in Hnd as [Hnin Hnd].
    destruct (Hf s0 Hs0) as (s0' & Hfs & Hs0' & Hk0).
    { intros Heq. apply Hnin, list_elem_of_fmap. exists s.
      split; [exact Heq|by eapply list_elem_of_lookup_2]. }
    { apply Hsub, list_elem_of_here. }
    destruct (IHl Hnd) with (i := i) as (l' & Hd & Hl' & Hkl);
      [intros y Hy; by apply Hsub, list_elem_of_further|done|].
    exists (s0' :: l'). change (<[S i:=s']> (s0 :: l)) with (s0 :: <[i:=s']> l).
    cbn [deliver]. rewrite Hfs. change (pred <$> Some (S i)) with (Some i). rewrite Hd. cbn -[keys_of].
    assert (0 < length l) by (by apply lookup_lt_Some in Hi; lia).
    split_and!; [|by constructor|].
    + destruct l; [done|]. done.
    + rewrite !keys_of_cons, Hkl. unfold member_key. by rewrite Hk0.
Qed.

Lemma handles_commit v gen next c x :
  is_commit c v next x → handles (process_commit c) v gen next no_messages x ().
Proof using. intros Hc s Hs Hx _. by eapply process_commit_run. Qed.

Lemma handles_app v gen c x pt :
  is_app c v x (gen x) pt → x ∈ t_roster v →
  handles (decrypt_from_group c) v gen v (one_more x gen) x pt.
Proof using. intros Hc Hin s Hs Hx _. apply (decrypt_run v gen s c x pt Hs Hc); [congruence|done]. Qed.
Lemma invite_run v gen l i n :
  in_step v gen l → i < length l → drawn_key n ∉ keys_of l →
  ∃ l' next, run_event (Invite i n) l = Ok (l', []) ∧ in_step next no_messages l' ∧
    keys_of l' = keys_of l ++ [drawn_key n] ∧ t_epoch next = S (t_epoch v).
Proof using.
  intros Hl [s Hi]%lookup_lt_is_Some Hn. pose proof Hl as (Hall & Hr & Hnd).
  destruct (new_member_run (nc_identity n) (nc_machine n) (nc_seed n) (nc_key_seed n))
    as (k & m & Hk & Hm & Hok & Hmk).
  assert (drawn_key n = member_key m) as Hdk by (unfold drawn_key; by rewrite Hk).
  destruct (key_package_run m Hok) as (m' & kp & Hkp & [Hp' _] & Hs' & Hh & Hkk & Ha).
  destruct (add_member_run v gen s kp) as (s' & c & w & next & Hadd & Hsy & Hsg & He & Hrn & Hc & Hw).
  { by eapply Forall_lookup_1. }
  { done. }
  { by rewrite Hkk, Hr, <-Hdk. }
  destruct (deliver_others _ v gen next no_messages () i s s' l Hl Hi
    (handles_commit _ _ _ _ _ Hc) Hsy Hsg) as (l' & Hd & Hall' & Hkl).
  destruct (join_group_run m' kp w next Hw Hp' Hh) as (m'' & g & Hj & Hsj & Hsm).
  { rewrite Hkk. unfold member_key. by rewrite Hs'. }
  assert (member_key m'' = drawn_key n) as Hmn by (rewrite Hdk; unfold member_key; by rewrite Hsm, Hs').
  exists (l' ++ [(g, m'')]), next. unfold run_event, make_member. rewrite Hi. cbn -[keys_of].
  rewrite Hm. cbn -[keys_of]. rewrite Hkp. cbn -[keys_of]. rewrite Hadd. cbn -[keys_of].
  rewrite Hd. cbn -[keys_of]. rewrite Hj. cbn -[keys_of].
  assert (keys_of (l' ++ [(g, m'')]) = keys_of l ++ [drawn_key n]) as Hks
    by (rewrite keys_of_app, Hkl; cbn; by rewrite Hmn).
  split_and!; [done| |done|done]. split_and!.
  - apply Forall_app. by rewrite Forall_singleton.
  - by rewrite Hrn, Hr, Hkk, <-Hdk, Hks.
  - rewrite Hks. apply NoDup_app. split_and!; [done| |apply NoDup_singleton].
    intros x Hx ->%list_elem_of_singleton. done.
Qed.

Lemma say_run v gen l i pt :
  in_step v gen l → i < length l → (∀ x, (Z.of_nat (gen x) < 2 ^ 32 - 1)%Z) →
  ∃ l' x, run_event (Say i pt) l = Ok (l', replicate (pred (length l)) pt) ∧
    in_step v (one_more x gen) l' ∧ keys_of l' = keys_of l.
Proof using.
  intros Hl [s Hi]%lookup_lt_is_Some Hg. pose proof Hl as (Hall & Hr & Hnd).
  destruct (encrypt_run v gen s pt) as (s' & c & Hc & Hsy & Hsg & Happ);
    [by eapply Forall_lookup_1|done|].
  destruct (deliver_others (decrypt_from_group c) v gen v (one_more (member_key s.2) gen) pt i s s' l)
    as (l' & Hd & Hall' & Hkl); [done|done| |done|done|].
  { apply handles_app; [done|]. rewrite Hr. apply list_elem_of_fmap. exists s.
    split; [done|by eapply list_elem_of_lookup_2]. }
  exists l', (member_key s.2). unfold run_event. rewrite Hi. cbn -[keys_of]. rewrite Hc. cbn -[keys_of].
  unfold in_step. by rewrite Hd, Hkl.
Qed.

Lemma in_step_length v gen l l' ks :
  keys_of l' = keys_of l ++ ks → length l' = length l + length ks.
Proof using.
  intros H. apply (f_equal length) in H. unfold keys_of in H.
  by rewrite length_app, !length_fmap in H.
Qed.

Lemma run_events_run evs v gen l :
  in_step v gen l → by_members evs (length l) → NoDup (keys_of l ++ (drawn_key <$> newcomers evs)) →
  (∀ x, (Z.of_nat (gen x + length evs) < 2 ^ 32)%Z) →
  ∃ l' v' gen', run_events evs l = Ok (l', expected evs (length l)) ∧ in_step v' gen' l' ∧
    keys_of l' = keys_of l ++ (drawn_key <$> newcomers evs) ∧
    t_epoch v' = t_epoch v + length (newcomers evs) ∧ ∀ x, gen' x ≤ gen x + length evs.
Proof using.
  revert v gen l. induction evs as [|[i n|i pt] evs IHevs]; intros v gen l Hl Hby Hnd Hg.
  { exists l, v, gen. cbn -[keys_of]. rewrite app_nil_r, Nat.add_0_r.
    split_and!; [done|done|done|done|lia]. }
  - destruct Hby as [Hi Hby]. cbn in Hnd. change (omap _ evs) with (newcomers evs) in Hnd.
    rewrite (cons_middle (drawn_key n)), app_assoc in Hnd.
    destruct (invite_run v gen l i n Hl Hi) as (l1 & next & H1 & Hl1 & Hk1 & He1).
    { apply NoDup_app in Hnd as [(_ & Hx & _)%NoDup_app _].
      intros Hin. by eapply (Hx _ Hin), list_elem_of_singleton. }
    pose proof (in_step_length next gen _ _ _ Hk1) as Hlen. cbn in Hlen.
    rewrite Nat.add_1_r in Hlen.
    destruct (IHevs next no_messages l1 Hl1) as (l' & v' & gen' & H2 & Hl' & Hk' & He' & Hg').
    { by rewrite Hlen. }
    { by rewrite Hk1. }
    { intros x. specialize (Hg x). cbn in Hg |- *. lia. }
    exists l', v', gen'. cbn [run_events]. rewrite H1. cbn -[keys_of]. rewrite H2. cbn -[keys_of].
    change (omap _ evs) with (newcomers evs).
    rewrite Hlen. split_and!; [done|done| |lia|].
    + by rewrite Hk', Hk1, <-app_assoc.
    + intros x. specialize (Hg' x). cbn in Hg' |- *. lia.
  - destruct Hby as [Hi Hby].
    destruct (say_run v gen l i pt Hl Hi) as (l1 & x & H1 & Hl1 & Hk1).
    { intros x. specialize (Hg x). cbn in Hg. lia. }
    assert (length l1 = length l) as Hlen.
    { apply (f_equal length) in Hk1. unfold keys_of in Hk1. by rewrite !length_fmap in Hk1. }
    destruct (IHevs v (one_more x gen) l1 Hl1) as (l' & v' & gen' & H2 & Hl' & Hk' & He' & Hg').
    { by rewrite Hlen. }
    { by rewrite Hk1. }
    { intros y. specialize (Hg y). unfold one_more. cbn in Hg. destruct (decide _); lia. }
    exists l', v', gen'. cbn [run_events]. rewrite H1. cbn -[keys_of]. rewrite H2. cbn -[keys_of].
    change (omap _ evs) with (newcomers evs). rewrite <-Hk1, <-Hlen. split_and!; [done..|].
    intros y. specialize (Hg' y). unfold one_more in Hg'. cbn. destruct (decide _); lia.
Qed.

(** Two members at different places have different keys. *)
Lemma strangers l i j s r :
  NoDup (keys_of l) → i ≠ j → l !! i = Some s → l !! j = Some r →
  member_key s.2 ∈ keys_of l ∧ member_key s.2 ≠ member_key r.2.
Proof using.
  intros Hnd Hij Hi Hj. split.
  - apply list_elem_of_fmap. exists s. split; [done|by eapply list_elem_of_lookup_2].
  - intros Heq. apply Hij. eapply (NoDup_lookup _ _ _ (member_key s.2) Hnd).
    + unfold keys_of. by rewrite list_lookup_fmap, Hi.
    + unfold keys_of. rewrite list_lookup_fmap, Hj. cbn. by rewrite Heq.
Qed.

(** *** Messages in the wrong hands *)

Definition group_message (c : MlsMessageOut) v : Prop :=
  (∃ next x, is_commit c v next x) ∨ (∃ x n pt, is_app c v x n pt).

(** Both readers of a message come down to [process_message] on what it parses to. *)
Lemma readers_run c v :
  group_message c v → ∃ pm, try_into_protocol_message (incoming c) = Ok pm ∧
    ∀ s, decrypt_from_group c s =
      (processed ← on_group (λ _, process_message pm);
       match processed with
       | ApplicationMessage app_msg => mret app_msg
       | other => fails (Mls ("expected application message, got " +:+ content_debug other))
       end) s ∧
      process_commit c s =
      (processed ← on_group (λ _, process_message pm);
       match processed with
       | StagedCommitMessage staged => on_group (λ _, merge_staged_commit staged);; mret ()
       | other => fails (Mls ("expected commit message, got " +:+ content_debug other))
       end) s.
Proof using MOk.
  intros Hm. pose proof (protocol_ok c v Hm) as Hpm. destruct (wire_ok c) as (b & Hb & Hd).
  destruct (try_into_protocol_message (incoming c)) as [pm|] eqn:Hpr; [|done].
  exists pm. split; [done|]. intros s. unfold decrypt_from_group, process_commit, reserialize, lift.
  split; unfold mbind at 1, io_bind at 1; rewrite Hb; cbn; rewrite Hd; cbn;
    unfold mbind at 1, io_bind at 1; by rewrite Hpr.
Qed.

(** Once [process_message] has taken a message, no reader gets it again. *)
Lemma read_again c v pm g p g1 p1 m x :
  group_message c v → try_into_protocol_message (incoming c) = Ok pm →
  process_message pm (g, p) = ((g1, p1), Ok x) →
  (∃ e, (decrypt_from_group c (g1, m)).2 = Err (Mls e)) ∧
  (∃ e, (process_commit c (g1, m)).2 = Err (Mls e)).
Proof using MOk.
  intros Hm Hpr Hx. pose proof (read_once c pm g p g1 p1 (provider m) x v Hm Hpr Hx) as Hno.
  destruct (readers_run c v Hm) as (pm' & Hpr' & Hrd). rewrite Hpr in Hpr'. injection Hpr' as <-.
  destruct (Hrd (g1, m)) as [-> ->]. unfold on_group, mbind, io_bind. cbn [fst snd].
  destruct (process_message pm (g1, provider m)) as [gp [y|e]]; [done|]. cbn.
  split; by exists (mls_debug e).
Qed.

Lemma misread_app v gen s c x pt :
  synced v gen s → is_app c v x (gen x) pt → x ≠ member_key s.2 → x ∈ t_roster v →
  (∃ r, decrypt_from_group c s = (r, Ok pt) ∧ ∃ e, (decrypt_from_group c r).2 = Err (Mls e)) ∧
  (∃ r, process_commit c s =
      (r, Err (Mls ("expected commit message, got " +:+ content_debug (ApplicationMessage pt)))) ∧
    ∃ e, (decrypt_from_group c r).2 = Err (Mls e)).
Proof using MOk.
  destruct s as [g m]. intros (<- & Hgen & Ho & Hpend & Hcr & Ht & Hp) Happ Hx Hin. cbn [fst snd] in *.
  rewrite <-Ho in Hx. rewrite <-Hgen in Happ.
  assert (group_message c (view g)) as Hm by (unfold group_message; eauto).
  destruct (readers_run c _ Hm) as (pm & Hpr & Hrd).
  destruct (app_ok c pm g (provider m) x pt Happ Hx Hin Hp Hpr) as (g' & p' & H1 & _).
  destruct (read_again c _ pm _ _ _ _ (with_provider p' m) _ Hm Hpr H1) as [Hagain _].
  destruct (Hrd (g, m)) as [-> ->]. unfold on_group, mbind, io_bind. cbn [fst snd]. rewrite H1. cbn.
  split; eexists; (split; [reflexivity|exact Hagain]).
Qed.

Lemma misread_commit v gen s c next x :
  synced v gen s → is_commit c v next x → member_key s.2 ≠ x →
  ∃ r st, decrypt_from_group c s =
      (r, Err (Mls ("expected application message, got " +:+ content_debug (StagedCommitMessage st)))) ∧
    epoch r.1 = epoch s.1 ∧ ∃ e, (process_commit c r).2 = Err (Mls e).
Proof using MOk.
  destruct s as [g m]. intros (<- & Hgen & Ho & Hpend & Hcr & Ht & Hp) Hc Hx. cbn [fst snd] in *.
  rewrite <-Ho in Hx. assert (group_message c (view g)) as Hm by (unfold group_message; eauto).
  destruct (readers_run c _ Hm) as (pm & Hpr & Hrd).
  destruct (commit_ok c pm g (provider m) next x Hc Hx Hp Hpend Hcr Hpr)
    as (g1 & p1 & st & H1 & _ & Hv1 & _).
  destruct (read_again c _ pm _ _ _ _ (with_provider p1 m) _ Hm Hpr H1) as [_ Hagain].
  exists (g1, with_provider p1 m), st. destruct (Hrd (g, m)) as [-> _].
  unfold on_group at 1, mbind at 1, io_bind at 1. cbn [fst snd]. rewrite H1. cbn.
  split_and!; [done| |exact Hagain]. unfold epoch. by rewrite !mls_epoch_spec, Hv1.
Qed.

(** The package of a newcomer. *)
Lemma newcomer_package n : ∃ m m' kp,
  make_member n = Ok m ∧ key_package m = (m', Ok kp) ∧ kp_key kp = drawn_key n ∧ admissible kp.
Proof using.
  destruct (new_member_run (nc_identity n) (nc_machine n) (nc_seed n) (nc_key_seed n))
    as (k & m & Hk & Hm & Hok & Hmk).
  destruct (key_package_run m Hok) as (m' & kp & Hkp & _ & _ & _ & Hkk & Ha).
  exists m, m', kp. split_and!; [done|done| |done]. unfold drawn_key. by rewrite Hk, Hkk.
Qed.

Lemma misread_welcome c v x n pt m :
  is_app c v x n pt → join_group c m = (m, Err (Mls "expected welcome message")).
Proof using MOk.
  intros Happ. destruct (wire_ok c) as (b & Hb & Hd).
  unfold join_group, reserialize, lift, mbind, io_bind. rewrite Hb. cbn. rewrite Hd. cbn.
  by rewrite (extract_other c v x n pt Happ).
Qed.

(** The members and the state of agreement a run ends in. *)
Lemma run_group_run creator evs :
  NoDup (drawn_key <$> creator :: newcomers evs) → by_members evs 1 →
  (Z.of_nat (length evs) < 2 ^ 32)%Z →
  ∃ l v gen, run_group creator evs = Ok (l, expected evs 1) ∧ in_step v gen l ∧
    keys_of l = drawn_key <$> creator :: newcomers evs ∧ t_epoch v = length (newcomers evs) ∧
    ∀ x, gen x ≤ length evs.
Proof using.
  intros Hkeys Hby Hmany.
  destruct (new_member_run (nc_identity creator) (nc_machine creator) (nc_seed creator)
    (nc_key_seed creator)) as (k & m & Hk & Hm & Hok & Hmk).
  destruct (group_new_run m Hok) as (m' & g & Hc & Hs & Hsy & He & Hr).
  assert (keys_of [(g, m')] = [drawn_key creator]) as Hks.
  { cbn. unfold member_key, drawn_key. rewrite Hs, Hk. by rewrite <-Hmk. }
  destruct (run_events_run evs (view g) no_messages [(g, m')])
    as (l' & v' & gen' & H & Hin & Hk' & He' & Hg'); [|done|by rewrite Hks|by intros x| ].
  { split_and!; [by rewrite Forall_singleton| |rewrite Hks; apply NoDup_singleton].
    rewrite Hr. cbn. unfold member_key. by rewrite Hs. }
  exists l', v', gen'. split_and!; [|done|by rewrite Hk', Hks|lia|exact Hg'].
  unfold run_group, make_member. rewrite Hm. cbn. rewrite Hc. cbn. exact H.
Qed.

(** C7: A group stays in agreement. Whatever sequence of invitations and messages its members
    make, each drawing its own signature key, every call of the wrappers succeeds; each message
    is read, as it was written, by every other member and by them only; and at the end all
    members, the newcomers included, are in the epoch that counts the invitations and export
    the same secret for every label and length. *)
Theorem group_agrees (creator : newcomer) (evs : list group_event)
    (Hkeys : NoDup (drawn_key <$> creator :: newcomers evs)) (Hby : by_members evs 1)
    (Hmany : (Z.of_nat (length evs) < 2 ^ 32)%Z) :
  ∃ members : list (MlsGroup * MlsMember),
    run_group creator evs = Ok (members, expected evs 1) ∧
    length members = S (length (newcomers evs)) ∧
    (∀ s, s ∈ members → epoch s.1 = umk 64 (Z.of_nat (length (newcomers evs)))) ∧
    ∀ label len, len ≤ 255 * 32 → ∃ secret, length secret = len ∧
      ∀ s, s ∈ members → epoch_secret s.1 s.2 label len = Ok secret.
Proof using MOk.
  destruct (run_group_run creator evs Hkeys Hby Hmany) as (l & v & gen & H & (Hall & _) & Hk & He & _).
  rewrite Forall_forall in Hall.
  assert (length l = S (length (newcomers evs))) as Hlen.
  { apply (f_equal length) in Hk. unfold keys_of in Hk. by rewrite !length_fmap in Hk. }
  exists l. split_and!; [done|done| |].
  - intros s Hin. destruct (Hall s Hin) as (Hv & _).
    unfold epoch. by rewrite mls_epoch_spec, Hv, He.
  - intros label len Hl. exists (exporter v label len). destruct l as [|s0 l]; [done|].
    split; [by eapply (epoch_secret_run v gen s0), Hl; apply Hall, list_elem_of_here|].
    intros s Hin. by eapply epoch_secret_run, Hl; apply Hall.
Qed.

(** C20: What becomes of a message in the wrong hands. After any such history, take two members.
    A message of the one is read by the other once: a second reading fails. Taken for a commit
    it is refused with what was expected, and is lost: it can no longer be read after that.
    Taken for a welcome it is refused and nothing changes, so it is not lost. The commit that
    invites a newcomer, whose key is new and whose package is the one the wrappers make, taken
    for a message is refused as well: the reader stays in its epoch, and can no longer follow
    the others with that commit. *)
Theorem group_errors (creator : newcomer) (evs : list group_event)
    (Hkeys : NoDup (drawn_key <$> creator :: newcomers evs)) (Hby : by_members evs 1)
    (Hmany : (Z.of_nat (S (length evs)) < 2 ^ 32)%Z) :
  ∃ members : list (MlsGroup * MlsMember), run_group creator evs = Ok (members, expected evs 1) ∧
    ∀ i j s r, i ≠ j → members !! i = Some s → members !! j = Some r →
      (∀ pt, ∃ s' c, encrypt_for_group pt s = (s', Ok c) ∧
        (∃ r', decrypt_from_group c r = (r', Ok pt) ∧
          ∃ e, (decrypt_from_group c r').2 = Err (Mls e)) ∧
        (∃ r', process_commit c r = (r', Err (Mls
            ("expected commit message, got " +:+ content_debug (ApplicationMessage pt)))) ∧
          ∃ e, (decrypt_from_group c r').2 = Err (Mls e)) ∧
        join_group c r.2 = (r.2, Err (Mls "expected welcome message"))) ∧
      (∀ n, drawn_key n ∉ (drawn_key <$> creator :: newcomers evs) →
        ∃ joiner joiner' kp s' c w r' st,
          make_member n = Ok joiner ∧ key_package joiner = (joiner', Ok kp) ∧
          add_member kp s = (s', Ok (c, w)) ∧
          decrypt_from_group c r = (r', Err (Mls
            ("expected application message, got " +:+ content_debug (StagedCommitMessage st)))) ∧
          epoch r'.1 = epoch r.1 ∧ ∃ e, (process_commit c r').2 = Err (Mls e)).
Proof using MOk.
  destruct (run_group_run creator evs Hkeys Hby ltac:(lia))
    as (l & v & gen & H & (Hall & Hr & Hnd) & Hk & _ & Hg).
  exists l. split; [done|]. intros i j s r Hij Hi Hj.
  pose proof (Forall_lookup_1 _ _ _ _ Hall Hi) as Hs. pose proof (Forall_lookup_1 _ _ _ _ Hall Hj) as Hrs.
  destruct (strangers l i j s r Hnd Hij Hi Hj) as [Hin Hne]. rewrite <-Hr in Hin. split.
  - intros pt. destruct (encrypt_run v gen s pt Hs) as (s' & c & Hc & _ & _ & Happ).
    { specialize (Hg (member_key s.2)). lia. }
    exists s', c. destruct (misread_app v gen r c _ pt Hrs Happ Hne Hin) as [? ?].
    split_and!; [done..|]. by eapply misread_welcome.
  - intros n Hn. rewrite <-Hk, <-Hr in Hn.
    destruct (newcomer_package n) as (m & m' & kp & Hm & Hkp & Hkk & Ha). rewrite <-Hkk in Hn.
    destruct (add_member_run v gen s kp Hs Ha Hn) as (s' & c & w & next & Hadd & _ & _ & _ & _ & Hc & _).
    destruct (misread_commit v gen r c next _ Hrs Hc (not_eq_sym Hne)) as (r' & st & ? & ? & ?).
    by exists m, m', kp, s', c, w, r', st.
Qed.
End group_laws.

(** ** A toy delivery of the interface

    Epochs, rosters and messages in the clear, with the bookkeeping the laws speak of. Only
    the witnesses use it. *)

Module Toy.
Abbreviation epoch_state := (nat * list bytes)%type.

Inductive message : Type :=
| TCommit (v next : epoch_state) (author : bytes)
| TWelcome (kp : bytes) (next : epoch_state)
| TApp (v : epoch_state) (sender : bytes) (n : nat) (pt : bytes).

Record group : Type := mkGroup {
  tg_view : epoch_state;
  tg_own : bytes;
  tg_pending : option epoch_state;
  tg_seen : list bytes;
  tg_commit_read : bool;
  tg_tree : bool;
}.

#[local] Instance ser_nat : Ser nat := ser_countable nat.

Definition flat (m : message) : nat * (epoch_state * epoch_state * bytes * nat * bytes) :=
  match m with
  | TCommit v next x => (0, (v, next, x, 0, []))
  | TWelcome kp next => (1, ((0, []), next, kp, 0, []))
  | TApp v x n pt => (2, (v, (0, []), x, n, pt))
  end.

Definition unflat (t : nat * (epoch_state * epoch_state * bytes * nat * bytes)) : message :=
  let '(tag, (v, next, x, n, pt)) := t in
  match tag with 0 => TCommit v next x | 1 => TWelcome x next | _ => TApp v x n pt end.

#[local] Instance ser_message : Ser message.
Proof. refine (ser_iso flat unflat _). by intros []. Defined.

Definition count (x : bytes) (l : list bytes) : nat := length (filter (λ y, y = x) l).

Definition at_epoch (g : group) (v : epoch_state) (own : bytes) (tree : bool) : group :=
  mkGroup v own None [] false tree.

Definition process (m : message) (s : group * list bytes)
    : (group * list bytes) * result string (ProcessedMessageContent epoch_state Empty_set) :=
  let (g, p) := s in
  match m with
  | TCommit v next x =>
      if decide (v = tg_view g ∧ tg_commit_read g = false) then
        ((mkGroup (tg_view g) (tg_own g) (tg_pending g) (tg_seen g) true (tg_tree g), p),
         Ok (StagedCommitMessage next))
      else (s, Err "secret reuse")
  | TApp v x n pt =>
      if decide (v = tg_view g ∧ n = count x (tg_seen g)) then
        ((mkGroup (tg_view g) (tg_own g) (tg_pending g) (x :: tg_seen g) (tg_commit_read g) (tg_tree g), p),
         Ok (ApplicationMessage pt))
      else (s, Err "secret reuse")
  | TWelcome _ _ => (s, Err "welcome")
  end.

(** The number of the epoch, padded. *)
Definition exported (v : epoch_state) (len : nat) : bytes :=
  take len (be_bytes 4 (Z.of_nat v.1) ++ replicate len Byte.x00).

#[export] Instance toy_mls : OpenMls := {
  mls_error := string; mls_debug e := e;
  Entropy := bytes; Provider := list bytes; provider_default _ := [];
  Ciphersuite := bool; MLS_128_DHKEMX25519_AES128GCM_SHA256_Ed25519 := true;
  SignatureScheme := (); signature_algorithm _ := ();
  SignatureKeyPair := bytes; sig_new _ e := Ok e; sig_store _ := λ p, (p, Ok ());
  to_public_vec k := k;
  Credential := bytes; basic_credential b := b;
  KeyPackageBundle := bool * bytes; KeyPackage := bool * bytes;
  kp_build suite k _ := λ p, (k :: p, Ok (suite, k));
  bundle_key_package b := b; kp_serialize b := Ok b.2;
  MlsGroupCreateConfig := bool; create_config _ tree := tree;
  MlsGroupJoinConfig := bool; join_config tree := tree;
  MlsGroup := group; MlsMessageOut := message; MlsMessageIn := message;
  ProtocolMessage := message; Welcome := bytes * epoch_state;
  StagedWelcome := bytes * epoch_state * bool; StagedCommit := epoch_state;
  GroupInfo := (); OtherProcessed := Empty_set;
  group_new k tree _ := λ p, (p, Ok (mkGroup (0, [k]) k None [] false tree));
  add_members _ kps := λ '(g, p),
    let next := (S (tg_view g).1, (tg_view g).2 ++ kps.*2) in
    if forallb (λ kp, kp.1 && bool_decide (kp.2 ∉ (tg_view g).2)) kps then
      ((mkGroup (tg_view g) (tg_own g) (Some next) (tg_seen g) (tg_commit_read g) (tg_tree g), p),
       Ok (TCommit (tg_view g) next (tg_own g), TWelcome (default [] (head kps.*2)) next, None))
    else ((g, p), Err "key package refused");
  merge_pending_commit := λ '(g, p),
    match tg_pending g with
    | Some next => ((at_epoch g next (tg_own g) (tg_tree g), p), Ok ())
    | None => ((g, p), Ok ())
    end;
  msg_to_bytes m := Ok (ser m);
  msg_deserialize_exact b := match deser b with Some (m, []) => Ok m | _ => Err "tls" end;
  msg_extract m := match m with TWelcome kp next => BodyWelcome (kp, next) | _ => BodyOther end;
  RatchetTreeIn := ();
  new_from_welcome tree w _ := λ p,
    (p, if decide (w.1 ∈ p) then Ok (w, tree) else Err "no matching key package");
  into_group st := λ p, (p, Ok (mkGroup st.1.2 st.1.1 None [] false st.2));
  create_message _ pt := λ '(g, p),
    ((mkGroup (tg_view g) (tg_own g) (tg_pending g) (tg_own g :: tg_seen g) (tg_commit_read g) (tg_tree g), p),
     Ok (TApp (tg_view g) (tg_own g) (count (tg_own g) (tg_seen g)) pt));
  try_into_protocol_message m := match m with TWelcome _ _ => Err "wire format" | _ => Ok m end;
  process_message := process;
  content_debug c := match c with
    | ApplicationMessage _ => "ApplicationMessage"
    | StagedCommitMessage _ => "StagedCommitMessage"
    | OtherContent _ => "Other"
    end;
  merge_staged_commit next := λ '(g, p), ((at_epoch g next (tg_own g) (tg_tree g), p), Ok ());
  export_secret g _ _ _ len := Ok (exported (tg_view g) len);
  mls_epoch g := umk 64 (Z.of_nat (tg_view g).1);
}.

Lemma count_cons x y l : count y (x :: l) = if decide (y = x) then S (count y l) else count y l.
Proof.
  unfold count. rewrite filter_cons. destruct (decide (x = y)), (decide (y = x)); cbn; congruence.
Qed.

#[export] Program Instance toy_mls_ok : @OpenMlsOk toy_mls := {
  transcript := epoch_state;
  t_epoch := fst;
  t_roster := snd;
  exporter v _ len := exported v len;
  view := tg_view;
  own_key := tg_own;
  pending_commit := tg_pending;
  generation g x := count x (tg_seen g);
  commit_read := tg_commit_read;
  tree_extension := tg_tree;
  provider_ok _ := True;
  holds p kp := kp.2 ∈ p;
  kp_key kp := kp.2;
  admissible kp := kp.1 = true;
  incoming m := m;
  is_commit m v next x := m = TCommit v next x;
  is_welcome m kp next := m = TWelcome kp.2 next;
  is_app m v x n pt := m = TApp v x n pt;
}.
Next Obligation. done. Qed.
Next Obligation.
  intros. split; [done|]. unfold exported. rewrite length_take, length_app, length_replicate. lia.
Qed.
Next Obligation. done. Qed.
Next Obligation. done. Qed.
Next Obligation. eauto. Qed.
Next Obligation. intros k c p _ _. exists (k :: p), (true, k). split_and!; try done. apply list_elem_of_here. Qed.
Next Obligation. intros. repeat eexists. Qed.
Next Obligation.
  intros g p k [suite key] _ _ _ Hs Hn. simpl in *. subst suite. rewrite bool_decide_true by done.
  repeat eexists.
Qed.
Next Obligation. intros g p next _ Hn. simpl in *. rewrite Hn. by repeat eexists. Qed.
Next Obligation.
  intros m. exists (ser m). split; [done|]. cbv beta iota delta [toy_mls msg_deserialize_exact].
  by rewrite deser_ser_nil.
Qed.
Next Obligation. by intros m v x n pt ->. Qed.
Next Obligation.
  intros w kp next tree p -> _ Hp. exists (kp.2, next), (kp.2, next, tree), p, p. eexists. simpl.
  rewrite decide_True by exact Hp. by split_and!.
Qed.
Next Obligation. by intros m v [(next & x & ->)|(x & n & pt & ->)]. Qed.
Next Obligation.
  intros c pm g p next x -> _ _ Hpd Hcr [= <-]. simpl. rewrite decide_True by done. repeat eexists. exact Hpd.
Qed.
Next Obligation.
  intros k pt g p _ Ho Hpd _. simpl in *. repeat eexists; [done|]. intros x. exact (count_cons _ _ _).
Qed.
Next Obligation.
  intros m pm g p x pt -> _ _ _ [= <-]. simpl. rewrite decide_True by done. repeat eexists.
  intros y. exact (count_cons _ _ _).
Qed.
Next Obligation.
  intros m pm g p g1 p1 p' c v [(next & x & ->)|(x & n & pt & ->)] [= <-]; simpl;
    (destruct (decide _) as [[? ?]|]; [|done]); intros [= <- <- <-]; simpl; rewrite decide_False; try done;
    intros [_ Hc]; [done|].
  rewrite count_cons, decide_True in Hc by done. lia.
Qed.

Definition named (n : nat) : newcomer :=
  mkNewcomer (rstr_of "id") (rstr_of "m") [] (replicate n Byte.x07).

Definition sample : list group_event :=
  [Say 0 [Byte.x01]; Invite 0 (named 2); Say 1 [Byte.x02]; Invite 1 (named 3); Say 0 [Byte.x03]].

Lemma group_agrees_witness :
  ∃ members, run_group (named 1) sample =
      Ok (members, [[]; []; [[Byte.x02]]; []; [[Byte.x03]; [Byte.x03]]]) ∧
    length members = 3 ∧ ∀ s, s ∈ members → epoch s.1 = umk 64 2.
Proof.
  destruct (group_agrees (named 1) sample) as (members & H & Hl & He & _).
  - apply (bool_decide_unpack _). vm_compute. exact I.
  - cbn. lia.
  - cbn. lia.
  - exists members. by split_and!.
Defined.

Lemma group_errors_witness :
  ∃ members, run_group (named 1) sample =
      Ok (members, [[]; []; [[Byte.x02]]; []; [[Byte.x03]; [Byte.x03]]]) ∧
    ∀ s r, members !! 0 = Some s → members !! 2 = Some r →
      ∃ s' c r', encrypt_for_group [Byte.x09] s = (s', Ok c) ∧
        process_commit c r = (r', Err (Mls "expected commit message, got ApplicationMessage")).
Proof.
  destruct (group_errors (named 1) sample) as (members & H & Herr).
  - apply (bool_decide_unpack _). vm_compute. exact I.
  - cbn. lia.
  - cbn. lia.
  - exists members. split; [done|]. intros s r Hs Hr.
    destruct (Herr 0 2 s r ltac:(done) Hs Hr) as [Hsay _].
    destruct (Hsay [Byte.x09]) as (s' & c & Hc & _ & (r' & Hp & _) & _). eauto.
Defined.
End Toy.
