(* ===== verification/Db.v ===== *)
(** * Sectors, the storage error type and [ZeroDb] ([zero-storage/src/sector.rs], [error.rs], [db.rs])

    Every operation of [ZeroDb] over the [RocksDB] and [Postcard] interfaces. Reads are
    functions of the database, writes are state-passing computations. [good] and [runs]
    are the vocabulary in which the other components state what their operations do to
    the contents of the database. *)

From Stdlib Require Import ZArith Lia.
From stdpp Require Import base tactics gmap strings sorting numbers countable list.
From S2P Require Import Prelude Bytes Store Mem.

(** ** [SectorId] and [Sector] *)

Record SectorId : Type := mkSectorId { sid_0 : arr 16 }.

#[export] Instance sid_0_inj : Inj (=) (=) sid_0.
Proof. intros [] [] H; simpl in H; by subst. Qed.
#[export] Instance SectorId_eq_dec : EqDecision SectorId.
Proof. solve_decision. Defined.
#[export] Program Instance SectorId_countable : Countable SectorId :=
  inj_countable' sid_0 mkSectorId _.
Next Obligation. by intros []. Qed.

(** [SectorId::new]; the UUIDv7 it draws is an argument. *)
Definition SectorId_new (now_v7 : arr 16) : SectorId := mkSectorId now_v7.
Definition SectorId_from_bytes (b : arr 16) : SectorId := mkSectorId b.
Definition SectorId_as_bytes (s : SectorId) : bytes := arr_bytes (sid_0 s).
(** [impl Ord for SectorId] *)
Definition SectorId_cmp (a b : SectorId) : comparison := arr_cmp (sid_0 a) (sid_0 b).

#[export] Instance SectorId_cmp_ok : CmpOk SectorId_cmp.
Proof. unfold SectorId_cmp. apply _. Qed.

Lemma SectorId_cmp_eq a b : SectorId_cmp a b = Eq ↔ a = b.
Proof.
  unfold SectorId_cmp. rewrite arr_cmp_eq. split; [apply (inj sid_0)|by intros ->].
Qed.

#[export] Instance SectorId_as_bytes_inj : Inj (=) (=) SectorId_as_bytes.
Proof. intros a b H. apply (inj sid_0), (inj arr_bytes), H. Qed.

Lemma length_sector_id s : length (SectorId_as_bytes s) = 16%nat.
Proof. apply length_arr. Qed.

Lemma SectorId_from_as s l :
  arr_try 16 l = Some s → SectorId_as_bytes (mkSectorId s) = l.
Proof. by intros ->%arr_try_some. Qed.

Record Sector : Type := mkSector {
  sector_id : SectorId;
  sector_kind : rstr;
  sector_identity_id : rstr;
  sector_machine_id : rstr;
  sector_created_at : u64;
  sector_payload : bytes;
  sector_prev : option SectorId;
}.

#[export] Instance Sector_eq_dec : EqDecision Sector.
Proof. solve_decision. Defined.

(** ** Column families *)

Definition CF_SECTORS : string := "cf_sectors".
Definition CF_CHAINS : string := "cf_chains".
Definition CF_INBOX_INDEX : string := "cf_inbox_index".
Definition CF_CONTACTS : string := "cf_contacts".
Definition CF_GROUPS : string := "cf_groups".
Definition CF_OUTBOX : string := "cf_outbox".
Definition CF_META : string := "cf_meta".

Definition ALL_CFS : list string :=
  [CF_SECTORS; CF_CHAINS; CF_INBOX_INDEX; CF_CONTACTS; CF_GROUPS; CF_OUTBOX; CF_META].

(** ** Sector keys *)

(** [s.len() as u16] *)
Definition len_u16 (s : rstr) : u16 := umk 16 (Z.of_nat (str_len s)).

Definition make_sector_key (identity_id machine_id : rstr) (sid : SectorId) : bytes :=
  u16_be (len_u16 identity_id) ++ as_bytes identity_id ++
  u16_be (len_u16 machine_id) ++ as_bytes machine_id ++ SectorId_as_bytes sid.

Definition make_scope_prefix (identity_id machine_id : rstr) : bytes :=
  u16_be (len_u16 identity_id) ++ as_bytes identity_id ++
  u16_be (len_u16 machine_id) ++ as_bytes machine_id.

(** ** [StorageError] *)

Section storage.
Context `{R : RocksDB} `{P : PostcardLib}.

Inductive StorageError : Type :=
| Rocks (e : rocks_error)
| Codec (e : postcard_error)
| MissingColumnFamily (name : string)
| SectorNotFound (id : SectorId)
| OutboxFull
| InvalidSector.

(** The struct [ZeroDb] wraps the RocksDB handle and nothing else. *)
Abbreviation ZeroDb := DB.

(** ** Operations *)

Definition encode_sector `{!Postcard Sector} (s : Sector) : result StorageError bytes :=
  map_err Codec (to_vec s).

Definition decode_sector `{!Postcard Sector} (b : bytes) : result StorageError Sector :=
  map_err Codec (from_bytes b).

(** [ZeroDb::open] *)
Definition open (path : Directory) : result StorageError ZeroDb :=
  map_err Rocks (DB_open_cf_descriptors path ALL_CFS).

Definition cf_handle (db : ZeroDb) (name : string) : result StorageError () :=
  if DB_cf_handle db name then Ok () else Err (MissingColumnFamily name).

Definition put_raw (cf : string) (key value : bytes) : io ZeroDb StorageError () :=
  reads (λ db, cf_handle db cf);;
  io_map_err Rocks (DB_put_cf cf key value);;
  mret ().

Definition get_raw (db : ZeroDb) (cf : string) (key : bytes)
    : result StorageError (option bytes) :=
  cf_handle db cf;;
  map_err Rocks (DB_get_cf db cf key).

Definition delete_raw (cf : string) (key : bytes) : io ZeroDb StorageError () :=
  reads (λ db, cf_handle db cf);;
  io_map_err Rocks (DB_delete_cf cf key);;
  mret ().

Definition prefix_scan_raw (db : ZeroDb) (cf : string) (prefix : bytes)
    : result StorageError (list (bytes * bytes)) :=
  cf_handle db cf;;
  for_each (λ results item,
      '(k, v) ← map_err Rocks item;
      if negb (starts_with k prefix) then Ok (Break results)
      else Ok (Continue (results ++ [(k, v)])))
    [] (DB_prefix_iterator_cf db cf prefix).

Definition put_sector `{!Postcard Sector} (sector : Sector) : io ZeroDb StorageError () :=
  let key := make_sector_key (sector_identity_id sector) (sector_machine_id sector)
               (sector_id sector) in
  value ← lift (encode_sector sector);
  reads (λ db, cf_handle db CF_SECTORS);;
  io_map_err Rocks (DB_put_cf CF_SECTORS key value);;
  mret ().

Definition get_sector `{!Postcard Sector} (db : ZeroDb) (identity_id machine_id : rstr)
    (sid : SectorId) : result StorageError (option Sector) :=
  let key := make_sector_key identity_id machine_id sid in
  cf_handle db CF_SECTORS;;
  found ← map_err Rocks (DB_get_cf db CF_SECTORS key);
  match found with
  | Some b => s ← decode_sector b; Ok (Some s)
  | None => Ok None
  end.

Definition delete_sector (identity_id machine_id : rstr) (sid : SectorId)
    : io ZeroDb StorageError () :=
  let key := make_sector_key identity_id machine_id sid in
  reads (λ db, cf_handle db CF_SECTORS);;
  io_map_err Rocks (DB_delete_cf CF_SECTORS key);;
  mret ().

Definition iter_chain `{!Postcard Sector} (db : ZeroDb) (identity_id machine_id : rstr)
    : result StorageError (list Sector) :=
  let prefix := make_scope_prefix identity_id machine_id in
  cf_handle db CF_SECTORS;;
  for_each (λ results item,
      '(k, v) ← map_err Rocks item;
      if negb (starts_with k prefix) then Ok (Break results)
      else s ← decode_sector v; Ok (Continue (results ++ [s])))
    [] (DB_prefix_iterator_cf db CF_SECTORS prefix).
End storage.

#[export] Instance StorageError_eq_dec `{R : RocksDB, P : PostcardLib}
  `{!EqDecision rocks_error, !EqDecision postcard_error} : EqDecision StorageError.
Proof. solve_decision. Defined.

(** ** What an operation does to a working database *)

Section runs.
Context `{ROk : RocksOk} `{P : PostcardLib}.

(** The environment lets operations succeed and the seven column families are open. *)
Definition good (db : DB) : Prop :=
  healthy db ∧ ∀ cf, cf ∈ ALL_CFS → DB_cf_handle db cf = true.

(** [m] run on [db] ends with [r] and leaves the contents [st]. *)
Definition runs {E A} (m : io DB E A) (db : DB) (r : result E A) (st : store) : Prop :=
  ∃ db', m db = (db', r) ∧ good db' ∧ contents db' = st.

Lemma runs_bind {E A B} (m : io DB E A) (f : A → io DB E B) db a st r st' :
  runs m db (Ok a) st →
  (∀ db', good db' → contents db' = st → runs (f a) db' r st') →
  runs (m ≫= f) db r st'.
Proof using.
  intros (db' & Hm & Hg & Hc) Hf. destruct (Hf db' Hg Hc) as (db'' & Hf' & Hg' & Hc').
  exists db''. split; [|done]. by erewrite io_bind_ok.
Qed.

Lemma runs_bind_err {E A B} (m : io DB E A) (f : A → io DB E B) db e st :
  runs m db (Err e) st → runs (m ≫= f) db (Err e) st.
Proof using.
  intros (db' & Hm & Hg & Hc). exists db'. split; [|done]. by erewrite io_bind_err.
Qed.

(** Steps that leave the database as it is. *)
Lemma runs_bind_reads {E A B} (g : DB → result E A) (f : A → io DB E B) db a r st :
  g db = Ok a → runs (f a) db r st → runs (reads g ≫= f) db r st.
Proof using. intros Hg (db' & Hf & ?). exists db'. by erewrite io_bind_ok by (unfold reads; by rewrite Hg). Qed.

Lemma runs_bind_lift {E A B} (x : result E A) (f : A → io DB E B) db a r st :
  x = Ok a → runs (f a) db r st → runs (lift x ≫= f) db r st.
Proof using. intros Hx (db' & Hf & ?). exists db'. by erewrite io_bind_ok by (unfold lift; by rewrite Hx). Qed.

Lemma runs_bind_reads_err {E A B} (g : DB → result E A) (f : A → io DB E B) db e :
  good db → g db = Err e → runs (reads g ≫= f) db (Err e) (contents db).
Proof using. intros Hd Hg. exists db. by erewrite io_bind_err by (unfold reads; by rewrite Hg). Qed.

Lemma runs_bind_lift_err {E A B} (x : result E A) (f : A → io DB E B) db e :
  good db → x = Err e → runs (lift x ≫= f) db (Err e) (contents db).
Proof using. intros Hd Hx. exists db. by erewrite io_bind_err by (unfold lift; by rewrite Hx). Qed.

(** A step followed by the rest, each described by what holds of the contents after it. *)
Lemma runs_then {E A B : Type} (Φ Ψ : store → Prop) (m : io DB E A) (f : A → io DB E B) db a r :
  (∃ st, runs m db (Ok a) st ∧ Φ st) →
  (∀ db', good db' → Φ (contents db') → ∃ st', runs (f a) db' r st' ∧ Ψ st') →
  ∃ st', runs (m ≫= f) db r st' ∧ Ψ st'.
Proof using.
  intros (st & (db' & Hm & Hg & <-) & HΦ) Hf.
  destruct (Hf db' Hg HΦ) as (st' & (db'' & Hf' & ?) & HΨ). exists st'. split; [|done].
  exists db''. by erewrite io_bind_ok.
Qed.

Lemma runs_then_err {E A B : Type} (Φ : store → Prop) (m : io DB E A) (f : A → io DB E B) db e :
  (∃ st, runs m db (Err e) st ∧ Φ st) →
  ∃ st', runs (m ≫= f) db (Err e) st' ∧ Φ st'.
Proof using. intros (st & Hm & ?). exists st. split; [by apply runs_bind_err|done]. Qed.

Lemma runs_reads_then {E A B : Type} (Φ : store → Prop) (g : DB → result E A)
    (f : A → io DB E B) db a r :
  g db = Ok a → (∃ st, runs (f a) db r st ∧ Φ st) →
  ∃ st, runs (reads g ≫= f) db r st ∧ Φ st.
Proof using. intros Hg (st & ? & ?). exists st. split; [by eapply runs_bind_reads|done]. Qed.

Lemma runs_lift_then {E A B : Type} (Φ : store → Prop) (x : result E A)
    (f : A → io DB E B) db a r :
  x = Ok a → (∃ st, runs (f a) db r st ∧ Φ st) →
  ∃ st, runs (lift x ≫= f) db r st ∧ Φ st.
Proof using. intros Hx (st & ? & ?). exists st. split; [by eapply runs_bind_lift|done]. Qed.

Lemma runs_ret {E A : Type} (Φ : store → Prop) (a : A) db :
  good db → Φ (contents db) → ∃ st, runs (mret a : io DB E A) db (Ok a) st ∧ Φ st.
Proof using. intros Hg HΦ. exists (contents db). split; [by exists db|done]. Qed.

Lemma runs_fail {E A : Type} (Φ : store → Prop) (e : E) db :
  good db → Φ (contents db) → ∃ st, runs (fails e : io DB E A) db (Err e) st ∧ Φ st.
Proof using. intros Hg HΦ. exists (contents db). split; [by exists db|done]. Qed.

Lemma runs_mapped {E E' A : Type} (g : E → E') (Φ : store → Prop) (m : io DB E A) db r :
  (∃ st, runs m db r st ∧ Φ st) →
  ∃ st, runs (io_map_err g m) db (map_err g r) st ∧ Φ st.
Proof using.
  intros (st & (db' & Hm & ?) & ?). exists st. split; [|done].
  exists db'. unfold io_map_err. by rewrite Hm.
Qed.

Lemma runs_attempt_then {E A B : Type} (Φ Ψ : store → Prop) (m : io DB E A)
    (f : result E A → io DB E B) db a r :
  (∃ st, runs m db a st ∧ Φ st) →
  (∀ db', good db' → Φ (contents db') → ∃ st, runs (f a) db' r st ∧ Ψ st) →
  ∃ st, runs (attempt m ≫= f) db r st ∧ Ψ st.
Proof using.
  intros (st & (db' & Hm & Hg & <-) & HΦ) Hf. destruct (Hf db' Hg HΦ) as (st' & Hr & HΨ).
  exists st'. split; [|done]. destruct Hr as (db2 & Hr & ?). exists db2. split; [|done].
  unfold mbind, io_bind, attempt. by rewrite Hm.
Qed.

Lemma runs_stay {E A : Type} (Φ : store → Prop) (m : io DB E A) db r :
  good db → m db = (db, r) → Φ (contents db) → ∃ st, runs m db r st ∧ Φ st.
Proof using. intros Hg Hm HΦ. exists (contents db). split; [by exists db|done]. Qed.

Lemma runs_pure {E A} (m : io DB E A) db r :
  good db → m db = (db, r) → runs m db r (contents db).
Proof using. intros Hg Hm. by exists db. Qed.

Lemma runs_reads {E A} (f : DB → result E A) db r :
  good db → f db = r → runs (reads f) db r (contents db).
Proof using. intros Hg <-. by apply runs_pure. Qed.

Lemma runs_lift {E A} (r : result E A) db : good db → runs (lift r) db r (contents db).
Proof using. intros Hg. by apply runs_pure. Qed.

Lemma runs_mret {E A} (a : A) db : good db → runs (mret a : io DB E A) db (Ok a) (contents db).
Proof using. intros Hg. by apply runs_pure. Qed.

Lemma runs_done {E A} (a : A) db st :
  good db → contents db = st → runs (mret a : io DB E A) db (Ok a) st.
Proof using. intros Hg <-. by apply runs_mret. Qed.

Lemma runs_fails {E A} (e : E) db : good db → runs (fails e : io DB E A) db (Err e) (contents db).
Proof using. intros Hg. by apply runs_pure. Qed.

Lemma runs_map_err {E E' A} (f : E → E') (m : io DB E A) db r st :
  runs m db r st → runs (io_map_err f m) db (map_err f r) st.
Proof using.
  intros (db' & Hm & ?). exists db'. unfold io_map_err. by rewrite Hm.
Qed.

Lemma good_handle db cf : good db → cf ∈ ALL_CFS → cf_handle db cf = Ok ().
Proof using. intros [_ Hcf] ?. unfold cf_handle. by rewrite Hcf. Qed.

Lemma open_good path db :
  open path = Ok db → healthy db → good db.
Proof using.
  unfold open. destruct (DB_open_cf_descriptors _ _) as [db'|] eqn:Ho; intros [= <-] Hh.
  split; [done|]. intros cf. by apply open_handles with path.
Qed.

Lemma get_raw_good db cf k :
  good db → cf ∈ ALL_CFS → get_raw db cf k = Ok (contents db !! (cf, k)).
Proof using.
  intros Hg Hcf. unfold get_raw. rewrite good_handle by done. simpl.
  destruct Hg as [? Hh]. by rewrite get_spec by auto.
Qed.

Lemma put_cf_good db cf k v :
  good db → cf ∈ ALL_CFS →
  runs (DB_put_cf cf k v) db (Ok ()) (<[(cf, k) := v]> (contents db)).
Proof using.
  intros [Hh Hc] Hcf. destruct (put_spec db cf k v Hh (Hc _ Hcf)) as (db' & Hp & Hh' & Hs & Hc').
  exists db'. split_and!; [done|split; [done|]|done]. intros. rewrite Hc'. auto.
Qed.

Lemma delete_cf_good db cf k :
  good db → cf ∈ ALL_CFS →
  runs (DB_delete_cf cf k) db (Ok ()) (delete (cf, k) (contents db)).
Proof using.
  intros [Hh Hc] Hcf. destruct (delete_spec db cf k Hh (Hc _ Hcf)) as (db' & Hp & Hh' & Hs & Hc').
  exists db'. split_and!; [done|split; [done|]|done]. intros. rewrite Hc'. auto.
Qed.

Lemma put_raw_good db cf k v :
  good db → cf ∈ ALL_CFS →
  runs (put_raw cf k v) db (Ok ()) (<[(cf, k) := v]> (contents db)).
Proof using.
  intros Hg Hcf. unfold put_raw.
  eapply runs_bind; [apply runs_reads; [done|by apply good_handle]|].
  intros db' Hg' <-. eapply runs_bind.
  { apply (runs_map_err _ _ _ (Ok ())). by apply put_cf_good. }
  intros db'' Hg'' <-. by apply runs_mret.
Qed.

Lemma delete_raw_good db cf k :
  good db → cf ∈ ALL_CFS →
  runs (delete_raw cf k) db (Ok ()) (delete (cf, k) (contents db)).
Proof using.
  intros Hg Hcf. unfold delete_raw.
  eapply runs_bind; [apply runs_reads; [done|by apply good_handle]|].
  intros db' Hg' <-. eapply runs_bind.
  { apply (runs_map_err _ _ _ (Ok ())). by apply delete_cf_good. }
  intros db'' Hg'' <-. by apply runs_mret.
Qed.

(** Reading the key of a key space. *)
Lemma get_raw_space {K V} `{Countable K} `{!Postcard V} (ks : keyspace K)
    (M : gmap K V) db k :
  good db → ks_cf ks ∈ ALL_CFS → repr ks (contents db) M →
  get_raw db (ks_cf ks) (ks_key ks k) = Ok (enc <$> M !! k).
Proof using. intros Hg Hcf [Hr _]. by rewrite get_raw_good, Hr. Qed.

(** A loop over a prefix iterator that stops at the first key without the prefix is a fold
    over the pairs that have it. *)
Lemma prefix_for_each {E A} (body : A → result rocks_error (bytes * bytes) → result E (ctl A))
    (step : A → bytes * bytes → A) acc db cf p :
  good db → cf ∈ ALL_CFS →
  (∀ a kv, kv ∈ view (contents db) cf → starts_with kv.1 p = true →
     body a (Ok kv) = Ok (Continue (step a kv))) →
  (∀ a kv, starts_with kv.1 p = false → body a (Ok kv) = Ok (Break a)) →
  for_each body acc (DB_prefix_iterator_cf db cf p) =
  Ok (foldl step acc (filter (λ kv, starts_with kv.1 p = true) (view (contents db) cf))).
Proof using.
  intros [Hh Hc] Hcf Hin Hout.
  destruct (prefix_iterator_spec db cf p Hh (Hc _ Hcf)) as (rest & -> & Hrest).
  assert (∀ l a, (∀ kv, kv ∈ l → kv ∈ view (contents db) cf ∧ starts_with kv.1 p = true) →
    for_each body a ((Ok <$> l) ++ (Ok <$> rest)) = Ok (foldl step a l)) as Hloop.
  { intros l. induction l as [|kv l IHl]; intros a Hl; simpl.
    - destruct rest as [|kv rest]; [done|]. simpl.
      apply Forall_cons in Hrest as [Hk _]. by rewrite Hout.
    - destruct (Hl kv (list_elem_of_here _ _)). rewrite Hin by done.
      apply IHl. intros kv' Hkv'. apply Hl. by apply list_elem_of_further. }
  apply Hloop. intros kv [??]%list_elem_of_filter. done.
Qed.

(** The loops that decode every pair. *)
Lemma prefix_loop {E A} (fe : rocks_error → E) (dec : bytes * bytes → result E A)
    (f : bytes * bytes → A) db cf p :
  good db → cf ∈ ALL_CFS →
  (∀ kv, kv ∈ view (contents db) cf → starts_with kv.1 p = true → dec kv = Ok (f kv)) →
  for_each (λ results item,
      '(k, v) ← map_err fe item;
      if negb (starts_with k p) then Ok (Break results)
      else s ← dec (k, v); Ok (Continue (results ++ [s])))
    [] (DB_prefix_iterator_cf db cf p) =
  Ok (f <$> filter (λ kv, starts_with kv.1 p = true) (view (contents db) cf)).
Proof using.
  intros Hg Hcf Hdec. rewrite (prefix_for_each _ (λ acc kv, acc ++ [f kv])); [|done|done|..].
  - by rewrite (foldl_push f).
  - intros a [k v] Hin Hk. simpl in *. rewrite Hk. simpl. by rewrite (Hdec (k, v)).
  - intros a [k v] Hk. simpl in *. by rewrite Hk.
Qed.

Lemma prefix_scan_raw_good db cf p :
  good db → cf ∈ ALL_CFS →
  prefix_scan_raw db cf p =
    Ok (filter (λ kv, starts_with kv.1 p = true) (view (contents db) cf)).
Proof using.
  intros Hg Hcf. unfold prefix_scan_raw. rewrite good_handle by done. simpl.
  rewrite <-(list_fmap_id (filter _ _)).
  by apply (prefix_loop Rocks (λ kv, Ok kv) id).
Qed.

(** A loop over a whole iterator. *)
Lemma iterator_loop {E A} (fe : rocks_error → E) (dec : bytes * bytes → result E A)
    (f : bytes * bytes → A) db cf mode :
  good db → cf ∈ ALL_CFS →
  (∀ kv, kv ∈ iter_select mode (view (contents db) cf) → dec kv = Ok (f kv)) →
  for_each (λ results item,
      kv ← map_err fe item; s ← dec kv; Ok (Continue (results ++ [s])))
    [] (DB_iterator_cf db cf mode) =
  Ok (f <$> iter_select mode (view (contents db) cf)).
Proof using.
  intros [Hh Hc] Hcf Hdec. rewrite iterator_spec by auto.
  assert (∀ l acc, (∀ kv, kv ∈ l → dec kv = Ok (f kv)) →
    for_each (λ results (item : result rocks_error (bytes * bytes)),
        kv ← map_err fe item; s ← dec kv; Ok (Continue (results ++ [s])))
      acc (Ok <$> l) = Ok (acc ++ (f <$> l))) as Hloop; [|by apply Hloop].
  intros l. induction l as [|kv l IHl]; intros acc Hd; simpl; [by rewrite app_nil_r|].
  rewrite Hd by set_solver. simpl. rewrite IHl by (intros; apply Hd; set_solver).
  by rewrite <-(assoc_L (++)).
Qed.
End runs.

#[export] Hint Resolve runs_reads runs_lift runs_mret runs_fails put_raw_good delete_raw_good
  : store.

(** Membership of a named column family. *)
#[export] Hint Extern 1 (_ ∈ ALL_CFS) => (repeat (apply elem_of_cons; first [by left|right])) : store.

Ltac cf_mem := first [done | by eauto with store | by vm_compute; set_solver].

(** Symbolic execution of a handler: one bind at a time. *)
Ltac run_step :=
  match goal with
  | |- runs (_ ≫= _) _ _ _ => eapply runs_bind; [|intros ? ? ?; simplify_eq/=]
  end.

(** ** The sector store as a finite map *)

Definition fits_u16 (s : rstr) : bool := (Z.of_nat (str_len s) <? 65536)%Z.

Lemma fits_u16_len s t :
  fits_u16 s = true → fits_u16 t = true → u16_be (len_u16 s) = u16_be (len_u16 t) →
  length (as_bytes s) = length (as_bytes t).
Proof.
  unfold fits_u16, str_len. rewrite !Z.ltb_lt. intros Hs Ht H.
  apply u16_be_inj, (f_equal uval) in H. unfold len_u16, str_len in H.
  rewrite !uval_umk_small in H; lia.
Qed.

Lemma make_scope_prefix_app_inj i m i' m' r r' :
  fits_u16 i = true → fits_u16 m = true → fits_u16 i' = true → fits_u16 m' = true →
  make_scope_prefix i m ++ r = make_scope_prefix i' m' ++ r' → i = i' ∧ m = m' ∧ r = r'.
Proof.
  intros Hi Hm Hi' Hm'. unfold make_scope_prefix. rewrite <-!(assoc_L (++)).
  intros (H1 & H)%app_inj_1; [|done].
  apply app_inj_1 in H as [Hii H]; [|by apply fits_u16_len].
  apply app_inj_1 in H as [H2 H]; [|done].
  apply app_inj_1 in H as [Hmm H]; [|by apply fits_u16_len].
  by apply (inj as_bytes) in Hii as ->; apply (inj as_bytes) in Hmm as ->.
Qed.

Lemma make_sector_key_prefix i m s :
  make_sector_key i m s = make_scope_prefix i m ++ SectorId_as_bytes s.
Proof. unfold make_sector_key, make_scope_prefix. by rewrite <-!(assoc_L (++)). Qed.

(** The scopes whose lengths the two-byte length fields can hold. *)
Record Scope : Type := mkScope {
  scope_identity : rstr;
  scope_machine : rstr;
  scope_wf : Is_true (fits_u16 scope_identity && fits_u16 scope_machine);
}.

Lemma scope_ext (a b : Scope) :
  scope_identity a = scope_identity b → scope_machine a = scope_machine b → a = b.
Proof. destruct a, b; simpl; intros -> ->. f_equal. apply proof_irrel. Qed.

Lemma scope_fits (a : Scope) :
  fits_u16 (scope_identity a) = true ∧ fits_u16 (scope_machine a) = true.
Proof. destruct a as [i m H]; simpl. by apply Is_true_true, andb_true_iff in H. Qed.

#[export] Instance Scope_eq_dec : EqDecision Scope.
Proof.
  refine (λ a b, cast_if_and (decide (scope_identity a = scope_identity b))
                             (decide (scope_machine a = scope_machine b)));
    first [by apply scope_ext | congruence].
Defined.

Definition scope_try (i m : rstr) : option Scope :=
  match decide (Is_true (fits_u16 i && fits_u16 m)) with
  | left H => Some (mkScope i m H)
  | right _ => None
  end.

Lemma scope_try_scope (a : Scope) : scope_try (scope_identity a) (scope_machine a) = Some a.
Proof.
  unfold scope_try. destruct a as [i m H]; simpl. destruct (decide _) as [H'|]; [|done].
  by f_equal; apply scope_ext.
Qed.

#[export] Program Instance Scope_countable : Countable Scope :=
  inj_countable (λ a, (scope_identity a, scope_machine a)) (λ p, scope_try p.1 p.2) _.
Next Obligation. intros a. apply scope_try_scope. Qed.

Definition scoped_key (k : Scope * SectorId) : bytes :=
  make_sector_key (scope_identity k.1) (scope_machine k.1) k.2.

#[export] Instance scoped_key_inj : Inj (=) (=) scoped_key.
Proof.
  intros [a s] [b t]. unfold scoped_key; simpl. rewrite !make_sector_key_prefix.
  destruct (scope_fits a), (scope_fits b).
  intros Hk. apply make_scope_prefix_app_inj in Hk as (? & ? & Hk); [|done..].
  f_equal; [by apply scope_ext|by apply (inj SectorId_as_bytes)].
Qed.

(** The key space of [CF_SECTORS]: the whole column family. *)
Definition sector_space : keyspace (Scope * SectorId) :=
  KeySpace CF_SECTORS scoped_key (λ _, true) _ (λ _, eq_refl).

Lemma scope_prefix_iff (a : Scope) k :
  starts_with (scoped_key k) (make_scope_prefix (scope_identity a) (scope_machine a)) = true
  ↔ k.1 = a.
Proof.
  destruct k as [b t]. unfold scoped_key; cbn [fst snd]. rewrite make_sector_key_prefix, starts_with_iff.
  destruct (scope_fits a), (scope_fits b). split; [|intros ->; eauto].
  intros (r & (? & ? & _)%make_scope_prefix_app_inj); [|done..]. by apply scope_ext.
Qed.

Section sectors.
Context `{ROk : RocksOk} `{P : PostcardLib} `{!Postcard Sector, !PostcardOk Sector}.
Implicit Types (M : gmap (Scope * SectorId) Sector) (db : DB).

Lemma decode_sector_enc s : decode_sector (enc s) = Ok s.
Proof using PostcardOk0. unfold decode_sector. by rewrite from_bytes_enc. Qed.

Lemma put_sector_run db M s a :
  good db → repr sector_space (contents db) M →
  scope_identity a = sector_identity_id s → scope_machine a = sector_machine_id s →
  ∃ st, runs (put_sector s) db (Ok ()) st ∧
    repr sector_space st (<[(a, sector_id s) := s]> M).
Proof using PostcardOk0.
  intros Hg Hr Hi Hm. eexists. split; [|by apply repr_insert].
  unfold put_sector, encode_sector. rewrite to_vec_enc. simpl map_err.
  eapply runs_bind; [by apply runs_lift|]. intros db1 Hg1 Hc1. rewrite <-Hc1.
  eapply runs_bind; [apply runs_reads; [done|apply good_handle; [done|cf_mem]]|].
  intros db2 Hg2 <-. eapply runs_bind.
  { apply (runs_map_err _ _ _ (Ok ())). rewrite <-Hi, <-Hm.
    change (make_sector_key _ _ _) with (scoped_key (a, sector_id s)).
    apply put_cf_good; [done|cf_mem]. }
  intros db3 Hg3 Hc3. by apply runs_done.
Qed.

Lemma get_sector_run db M a sid :
  good db → repr sector_space (contents db) M →
  get_sector db (scope_identity a) (scope_machine a) sid = Ok (M !! (a, sid)).
Proof using PostcardOk0.
  intros Hg [Hr _]. unfold get_sector. rewrite good_handle; [|done|cf_mem]. simpl.
  destruct Hg as [Hh Hc]. rewrite get_spec by (done || apply Hc; cf_mem). simpl.
  change (make_sector_key _ _ _) with (scoped_key (a, sid)).
  change (contents db !! (CF_SECTORS, scoped_key (a, sid)))
    with (contents db !! (ks_cf sector_space, ks_key sector_space (a, sid))).
  rewrite Hr. destruct (M !! _) as [s|]; simpl; [by rewrite decode_sector_enc|done].
Qed.

Lemma delete_sector_run db M a sid :
  good db → repr sector_space (contents db) M →
  ∃ st, runs (delete_sector (scope_identity a) (scope_machine a) sid) db (Ok ()) st ∧
    repr sector_space st (delete (a, sid) M).
Proof using PostcardOk0.
  intros Hg Hr. eexists. split; [|by apply repr_delete].
  unfold delete_sector.
  eapply runs_bind; [apply runs_reads; [done|apply good_handle; [done|cf_mem]]|].
  intros db2 Hg2 <-. eapply runs_bind.
  { apply (runs_map_err _ _ _ (Ok ())).
    change (make_sector_key _ _ _) with (scoped_key (a, sid)).
    apply delete_cf_good; [done|cf_mem]. }
  intros db3 Hg3 Hc3. by apply runs_done.
Qed.

(** The sectors of one scope in key order. *)
Definition chain M (a : Scope) : list ((Scope * SectorId) * Sector) :=
  entries sector_space (λ k, k.1 = a) M.

Lemma iter_chain_run db M a :
  good db → repr sector_space (contents db) M →
  iter_chain db (scope_identity a) (scope_machine a) = Ok (snd <$> chain M a).
Proof using PostcardOk0.
  intros Hg Hr. unfold iter_chain. rewrite good_handle; [|done|cf_mem]. simpl.
  rewrite (prefix_loop Rocks (λ kv, decode_sector kv.2)
    (λ kv, match decode_sector kv.2 with Ok s => s | Err _ => mkSector (mkSectorId (arr_fill 16 Byte.x00)) [] [] [] (umk 64 0) [] None end));
    [|done|cf_mem|].
  - f_equal. change CF_SECTORS with (ks_cf sector_space).
    rewrite (repr_filter sector_space _ M
      (λ b, starts_with b (make_scope_prefix (scope_identity a) (scope_machine a)))
      (λ k, k.1 = a)); [|done|done|apply scope_prefix_iff].
    unfold chain. rewrite <-list_fmap_compose. apply list_fmap_ext.
    intros _ x _. simpl. by rewrite decode_sector_enc.
  - intros [k v] Hin _. simpl. apply elem_of_view in Hin.
    destruct Hr as [Hlk Hfam]. destruct (Hfam k v Hin eq_refl) as [k' ->].
    change CF_SECTORS with (ks_cf sector_space) in Hin. rewrite Hlk in Hin.
    apply fmap_Some in Hin as (s & _ & ->). by rewrite decode_sector_enc.
Qed.

Lemma chain_sorted M a :
  StronglySorted (λ x y, SectorId_cmp x.1.2 y.1.2 = Lt) (chain M a).
Proof using PostcardOk0.
  pose proof (entries_sorted sector_space (λ k, k.1 = a) M) as Hs.
  pose proof (entries_keys sector_space (λ k, k.1 = a) M) as Hn. revert Hs Hn.
  assert (∀ x, x ∈ chain M a → x.1.1 = a) as Ha.
  { intros [k s] Hin. by apply elem_of_entries in Hin as [? _]. }
  revert Ha. unfold chain. generalize (entries sector_space (λ k, k.1 = a) M).
  intros l Ha. induction 1 as [|x l Hl IHl Hx]; simpl; [constructor|].
  intros [Hnin Hn]%NoDup_cons. constructor; [apply IHl; [|done]; intros; apply Ha; set_solver|].
  rewrite Forall_forall in Hx |- *. intros y Hy. specialize (Hx y Hy).
  assert (x.1 ≠ y.1) as Hne by (intros He; apply Hnin; rewrite He; apply list_elem_of_fmap; eauto).
  destruct x as [[ax sx] vx], y as [[ay sy] vy].
  pose proof (Ha _ (list_elem_of_here _ _)) as Hax. pose proof (Ha _ (list_elem_of_further _ _ _ Hy)) as Hay.
  cbn [fst snd] in Hax, Hay, Hne. subst ax ay. unfold cmp_le, entry_cmp in Hx.
  cbn [fst snd ks_key sector_space] in Hx. unfold scoped_key in Hx. cbn [fst snd] in Hx.
  rewrite !make_sector_key_prefix, bytes_cmp_app in Hx. unfold SectorId_cmp, arr_cmp.
  change (bytes_cmp (SectorId_as_bytes sx) (SectorId_as_bytes sy) = Lt).
  destruct (bytes_cmp _ _) eqn:Hc; [|done..].
  apply bytes_cmp_eq, (inj SectorId_as_bytes) in Hc. congruence.
Qed.
End sectors.

(** ** Concrete values for the witnesses *)

#[export] Instance ser_SectorId : Ser SectorId :=
  ser_iso sid_0 mkSectorId (λ a, match a with mkSectorId _ => eq_refl end).

Definition ser_Sector : Ser Sector :=
  ser_iso (λ s, (sector_id s, (sector_kind s, (sector_identity_id s, (sector_machine_id s,
                  (sector_created_at s, (sector_payload s, sector_prev s)))))))
    (λ p, let '(a, (b, (c, (d, (e, (f, g)))))) := p in mkSector a b c d e f g)
    (λ s, match s with mkSector _ _ _ _ _ _ _ => eq_refl end).

Definition mem_sector : Postcard Sector := @mem_postcard Sector ser_Sector.
Definition mem_sector_ok : @PostcardOk _ Sector mem_sector := @mem_postcard_ok Sector ser_Sector.

(** The database just opened. *)
Definition mem_new : mem_db := MemDb ALL_CFS ∅.

Lemma mem_good_iff db : good (db : @DB mem_rocks) ↔ ∀ cf, cf ∈ ALL_CFS → cf ∈ mem_cfs db.
Proof.
  unfold good. simpl. setoid_rewrite bool_decide_eq_true. naive_solver.
Qed.

(** A database that holds [st]. *)
Definition mem_with (st : store) : mem_db := MemDb ALL_CFS st.

Lemma mem_with_good st : good (mem_with st : @DB mem_rocks).
Proof. by apply mem_good_iff. Qed.

Lemma mem_new_good : good (mem_new : @DB mem_rocks).
Proof. by apply mem_good_iff. Qed.

Definition sid (b : byte) : SectorId := mkSectorId (arr_fill 16 b).

Definition sample_sector : Sector :=
  mkSector (sid Byte.x01) (rstr_of "note") (rstr_of "alice") (rstr_of "laptop") (umk 64 1) [] None.
Definition sample_scope : Scope := mkScope (rstr_of "alice") (rstr_of "laptop") I.

(** ** Properties *)

(** C34: two sectors share a storage key only if they have the same identity, machine and id,
    provided the identity and machine strings are shorter than 65536 bytes. *)
Theorem make_sector_key_inj i m s i' m' s' :
  fits_u16 i = true → fits_u16 m = true → fits_u16 i' = true → fits_u16 m' = true →
  make_sector_key i m s = make_sector_key i' m' s' → i = i' ∧ m = m' ∧ s = s'.
Proof.
  intros. rewrite !make_sector_key_prefix in *.
  edestruct make_scope_prefix_app_inj as (? & ? & ?); [..|eassumption|]; [done..|].
  split_and!; [done..|]. by apply (inj SectorId_as_bytes).
Qed.

Lemma make_sector_key_inj_witness :
  fits_u16 (rstr_of "a") = true ∧
  (make_sector_key (rstr_of "a") (rstr_of "b") (sid Byte.x01) =
   make_sector_key (rstr_of "a") (rstr_of "b") (sid Byte.x01) →
   rstr_of "a" = rstr_of "a" ∧ rstr_of "b" = rstr_of "b" ∧ sid Byte.x01 = sid Byte.x01).
Proof. split; [reflexivity|]. by apply make_sector_key_inj. Defined.

Section sector_props.
Context `{ROk : RocksOk} `{P : PostcardLib} `{!Postcard Sector, !PostcardOk Sector}.

(** The sectors of one scope, each once, in strictly increasing order of sector id. *)
Definition scope_chain (M : gmap (Scope * SectorId) Sector) (a : Scope)
    (l : list ((Scope * SectorId) * Sector)) : Prop :=
  StronglySorted (λ x y, SectorId_cmp x.1.2 y.1.2 = Lt) l ∧
  ∀ k s, (k, s) ∈ l ↔ k.1 = a ∧ M !! k = Some s.

(** C13: [put_sector], [get_sector] and [delete_sector] act on the column family as
    insertion, lookup and deletion act on a finite map keyed by scope and sector id: a
    sector stored is read back unchanged, and no operation touches another scope; and
    [iter_chain] returns exactly the sectors of one scope, each once, in strictly increasing
    order of sector id. *)
Theorem sector_store_refines (db : DB) (M : gmap (Scope * SectorId) Sector) a s sid :
  good db → repr sector_space (contents db) M →
  scope_identity a = sector_identity_id s → scope_machine a = sector_machine_id s →
  (∃ st, runs (put_sector s) db (Ok ()) st ∧
     repr sector_space st (<[(a, sector_id s) := s]> M)) ∧
  get_sector db (scope_identity a) (scope_machine a) sid = Ok (M !! (a, sid)) ∧
  (∃ st, runs (delete_sector (scope_identity a) (scope_machine a) sid) db (Ok ()) st ∧
     repr sector_space st (delete (a, sid) M)) ∧
  ∃ l, iter_chain db (scope_identity a) (scope_machine a) = Ok (snd <$> l) ∧ scope_chain M a l.
Proof using PostcardOk0.
  intros. split_and!; [by apply put_sector_run|by apply get_sector_run|by apply delete_sector_run|].
  exists (chain M a). split; [by apply iter_chain_run|]. split; [apply chain_sorted|].
  intros. apply (elem_of_entries sector_space (λ k, k.1 = a)).
Qed.
End sector_props.

#[local] Existing Instances mem_sector mem_sector_ok.

Definition sample_key : Scope * SectorId := (sample_scope, sid Byte.x01).
Definition sample_map : gmap (Scope * SectorId) Sector := <[sample_key := sample_sector]> ∅.
Definition sample_db : @DB mem_rocks :=
  mem_with (<[(CF_SECTORS, scoped_key sample_key) := enc sample_sector]> ∅).

Lemma sample_repr : repr sector_space (contents sample_db) sample_map.
Proof. exact (repr_insert sector_space ∅ ∅ sample_key sample_sector (repr_empty _)). Qed.

Lemma sector_store_refines_witness :
  (∃ st, runs (put_sector sample_sector) sample_db (Ok ()) st ∧
     repr sector_space st (<[(sample_scope, sid Byte.x01) := sample_sector]> sample_map)) ∧
  get_sector sample_db (rstr_of "alice") (rstr_of "laptop") (sid Byte.x01) =
    Ok (sample_map !! sample_key) ∧
  (∃ st, runs (delete_sector (rstr_of "alice") (rstr_of "laptop") (sid Byte.x01))
     sample_db (Ok ()) st ∧ repr sector_space st (delete sample_key sample_map)) ∧
  ∃ l, iter_chain sample_db (rstr_of "alice") (rstr_of "laptop") = Ok (snd <$> l) ∧
    scope_chain sample_map sample_scope l.
Proof.
  apply (sector_store_refines sample_db sample_map sample_scope sample_sector (sid Byte.x01));
    [apply mem_with_good|apply sample_repr|reflexivity|reflexivity].
Defined.
