(* ===== verification/Threads.v ===== *)
(** * Operations side by side

    The services are shared between threads, and RocksDB takes one call at a time; so while an
    operation is under way, the calls of others fall between its own. [Split] takes an operation
    apart at its calls of the database, along its own definition, and [run_schedule] runs the
    operations of many threads in any order of these calls. *)

From Stdlib Require Import Lia.
From stdpp Require Import base tactics gmap strings sorting numbers list.
From S2P Require Import Prelude Bytes Store Db.
#[local] Open Scope nat_scope.

(** An operation is taken apart as it is written, not as it computes. *)
#[export] Typeclasses Opaque reads lift fails io_map_err attempt io_ret io_bind put_raw delete_raw.

Section threads.
Context `{R : RocksDB} `{P : PostcardLib}.

(** An operation in the middle: over, or about to call the database. *)
Inductive prog (E A : Type) : Type :=
| Done (r : result E A)
| Access (X : Type) (c : DB → DB * X) (k : X → prog E A).
#[global] Arguments Done {E A} r.
#[global] Arguments Access {E A X} c k.

(** Its calls one after the other. *)
Fixpoint alone {E A} (p : prog E A) : io DB E A := λ db,
  match p with
  | Done r => (db, r)
  | Access c k => let (db, x) := c db in alone (k x) db
  end.

Fixpoint prog_bind {E A B} (p : prog E A) (f : A → prog E B) : prog E B :=
  match p with
  | Done (Ok a) => f a
  | Done (Err e) => Done (Err e)
  | Access c k => Access c (λ x, prog_bind (k x) f)
  end.

Fixpoint prog_map {E E' A B} (h : result E A → result E' B) (p : prog E A) : prog E' B :=
  match p with
  | Done r => Done (h r)
  | Access c k => Access c (λ x, prog_map h (k x))
  end.

Lemma alone_bind {E A B : Type} (p : prog E A) (f : A → prog E B) m g db :
  (∀ db, alone p db = m db) → (∀ a db, alone (f a) db = g a db) →
  alone (prog_bind p f) db = (m ≫= g) db.
Proof using.
  intros Hm Hg. unfold mbind, io_bind. rewrite <-Hm. clear Hm.
  revert db. induction p as [[a|e]|X c k IH]; intros db; cbn; [by apply Hg|done|].
  destruct (c db). apply IH.
Qed.

Lemma alone_map {E E' A B : Type} (h : result E A → result E' B) (p : prog E A) m db :
  (∀ db, alone p db = m db) → alone (prog_map h p) db = let (db', r) := m db in (db', h r).
Proof using.
  intros Hm. rewrite <-Hm. clear Hm. revert db.
  induction p as [r|X c k IH]; intros db; cbn; [done|]. destruct (c db). apply IH.
Qed.

(** The calls of an operation, which make it up. *)
Class Split {E A} (m : io DB E A) : Type := {
  calls : prog E A;
  calls_alone : ∀ db, alone calls db = m db;
}.
#[global] Arguments calls {E A} m {_}.

#[export] Instance split_ret {E A : Type} (a : A) : Split (mret a : io DB E A) :=
  {| calls := Done (Ok a); calls_alone db := eq_refl |}.
#[export] Instance split_lift {E A : Type} (r : result E A) : Split (lift r) :=
  {| calls := Done r; calls_alone db := eq_refl |}.
#[export] Instance split_fails {E A : Type} (e : E) : Split (fails e : io DB E A) :=
  {| calls := Done (Err e); calls_alone db := eq_refl |}.
#[export] Instance split_reads {E A : Type} (f : DB → result E A) : Split (reads f) :=
  {| calls := Access (reads f) Done; calls_alone db := eq_refl |}.

#[export] Instance split_bind {E A B : Type} (m : io DB E A) (k : A → io DB E B) :
    Split m → (∀ a, Split (k a)) → Split (m ≫= k) := λ Sm Sk,
  {| calls := prog_bind (calls m) (λ a, calls (k a));
     calls_alone db := alone_bind _ _ m k db calls_alone (λ a, calls_alone) |}.

#[export] Instance split_map_err {E E' A : Type} (h : E → E') (m : io DB E A) :
    Split m → Split (io_map_err h m) := λ Sm,
  {| calls := prog_map (map_err h) (calls m);
     calls_alone db := alone_map (map_err h) _ m db calls_alone |}.
#[export] Instance split_attempt {E A : Type} (m : io DB E A) : Split m → Split (attempt m) := λ Sm,
  {| calls := prog_map Ok (calls m); calls_alone db := alone_map Ok _ m db calls_alone |}.

(** A write is one call of the database. *)
Lemma alone_access {E A : Type} (c : io DB E A) db : alone (Access c Done) db = c db.
Proof using. cbn. by destruct (c db). Qed.

#[export] Instance split_put cf k v : Split (put_raw cf k v) :=
  {| calls := Access (put_raw cf k v) Done; calls_alone := alone_access _ |}.
#[export] Instance split_delete cf k : Split (delete_raw cf k) :=
  {| calls := Access (delete_raw cf k) Done; calls_alone := alone_access _ |}.

(** ** Threads *)

(** The operations a thread has yet to end, the first perhaps under way, and what those before
    them have returned. *)
Record thread (E A : Type) : Type := mkThread {
  th_todo : list (prog E A);
  th_said : list (result E A);
}.
#[global] Arguments mkThread {E A}.
#[global] Arguments th_todo {E A}.
#[global] Arguments th_said {E A}.

Definition turn {E A} (t : thread E A) (db : DB) : thread E A * DB :=
  match th_todo t with
  | [] => (t, db)
  | Done r :: rest => (mkThread rest (th_said t ++ [r]), db)
  | Access c k :: rest =>
      let (db, x) := c db in (mkThread (k x :: rest) (th_said t), db)
  end.

(** The order in which the threads take their turns; a process that is killed ends it early. *)
Fixpoint run_schedule {E A} (turns : list nat) (ts : list (thread E A)) (db : DB)
    : list (thread E A) * DB :=
  match turns with
  | [] => (ts, db)
  | i :: turns =>
      match ts !! i with
      | Some t => let (t, db) := turn t db in run_schedule turns (<[i := t]> ts) db
      | None => run_schedule turns ts db
      end
  end.

Definition start {O E A} (run : O → io DB E A) `{HS : ∀ op, Split (run op)} (ops : list O) : thread E A :=
  mkThread ((λ op, calls (run op)) <$> ops) [].

(** A property of the threads and the database together that each turn keeps. *)
Lemma run_schedule_inv {E A : Type} (I : list (thread E A) → DB → Prop) :
  (∀ ts i t db, I ts db → ts !! i = Some t → let (t', db') := turn t db in I (<[i := t']> ts) db') →
  ∀ turns ts db, I ts db → let (ts', db') := run_schedule turns ts db in I ts' db'.
Proof using.
  intros Hturn turns. induction turns as [|i turns IH]; intros ts db HI; cbn; [done|].
  destruct (ts !! i) as [t|] eqn:Hi; [|by apply IH].
  specialize (Hturn ts i t db HI Hi). destruct (turn t db) as [t' db']. by apply IH.
Qed.

(** ** Invariants of the database, under any schedule *)

(** Each call keeps [I], whoever else has kept it in between; [Q] of the value. *)
Fixpoint safe {E A} (I : DB → Prop) (Q : A → Prop) (p : prog E A) : Prop :=
  match p with
  | Done r => ∀ a, r = Ok a → Q a
  | Access c k => ∀ db, I db → I (c db).1 ∧ safe I Q (k (c db).2)
  end.

Lemma safe_bind {E A B : Type} (I : DB → Prop) (p : prog E A) (f : A → prog E B) Q Q' :
  safe I Q p → (∀ a, Q a → safe I Q' (f a)) → safe I Q' (prog_bind p f).
Proof using.
  intros Hp Hf. induction p as [[a|e]|X c k IH]; cbn in *; [by auto|done|].
  intros db Hdb. destruct (Hp db Hdb). auto.
Qed.

Lemma safe_map {E E' A B : Type} (I : DB → Prop) (h : result E A → result E' B) (p : prog E A) Q Q' :
  safe I Q p → (∀ r b, (∀ a, r = Ok a → Q a) → h r = Ok b → Q' b) → safe I Q' (prog_map h p).
Proof using.
  intros Hp Hh. induction p as [r|X c k IH]; cbn in *; [by eauto|].
  intros db Hdb. destruct (Hp db Hdb). auto.
Qed.

Definition thread_safe {E A} (I : DB → Prop) (t : thread E A) : Prop :=
  Forall (safe I (λ _, True)) (th_todo t).

Lemma start_safe {O E A : Type} (I : DB → Prop) (run : O → io DB E A) `{HS : ∀ op, Split (run op)} ops :
  (∀ op, safe I (λ _, True) (calls (run op))) → thread_safe I (start run ops).
Proof using. intros Hs. apply Forall_fmap, Forall_forall. intros op _. apply Hs. Qed.

Lemma schedule_safe {E A : Type} (I : DB → Prop) turns (ts : list (thread E A)) db :
  Forall (thread_safe I) ts → I db → I (run_schedule turns ts db).2.
Proof using.
  intros Hts Hdb.
  enough (let (ts', db') := run_schedule turns ts db in Forall (thread_safe I) ts' ∧ I db') as H.
  { revert H. destruct (run_schedule turns ts db). by intros []. }
  apply (run_schedule_inv (λ ts db, Forall (thread_safe I) ts ∧ I db)); [|done].
  clear Hts Hdb ts db.
  intros ts i t db [Hts Hdb] Hi. pose proof (Forall_lookup_1 _ _ _ _ Hts Hi) as Ht.
  unfold turn. destruct t as [todo said]. unfold thread_safe in Ht. cbn [th_todo th_said] in *.
  destruct Ht as [|[r|X c k] rest Hp Hrest].
  - split; [|done]. apply Forall_insert; [done|constructor].
  - split; [|done]. by apply Forall_insert.
  - destruct (Hp db Hdb) as [Hdb' Hk]. destruct (c db) as [db' x]. split; [|done].
    apply Forall_insert; [done|]. by constructor.
Qed.

(** ** A thread that has the database to itself *)

Lemma run_schedule_app {E A : Type} l1 l2 (ts : list (thread E A)) db :
  run_schedule (l1 ++ l2) ts db =
    let (ts1, db1) := run_schedule l1 ts db in run_schedule l2 ts1 db1.
Proof using.
  revert ts db. induction l1 as [|i l1 IH]; intros ts db; cbn; [done|].
  destruct (ts !! i) as [t|]; [|apply IH]. destruct (turn t db). apply IH.
Qed.

Lemma schedule_alone {E A : Type} (p : prog E A) ts i rest said db :
  ts !! i = Some (mkThread (p :: rest) said) →
  let (db', r) := alone p db in
  ∃ n, run_schedule (replicate n i) ts db = (<[i := mkThread rest (said ++ [r])]> ts, db').
Proof using.
  revert ts db. induction p as [r|X c k IH]; intros ts db Hi; cbn.
  - exists 1. cbn. by rewrite Hi.
  - destruct (c db) as [db1 x] eqn:Hc. specialize (IH x (<[i := mkThread (k x :: rest) said]> ts) db1).
    destruct (alone (k x) db1) as [db' r]. destruct IH as (n & Hn).
    { rewrite list_lookup_insert_eq; [done|]. by eapply lookup_lt_Some. }
    exists (S n). cbn. rewrite Hi. cbn [turn th_todo]. rewrite Hc. cbn [th_said].
    rewrite Hn. by rewrite list_insert_insert_eq.
Qed.

(** With all turns given to one thread, its operations run one after the other as they do
    without threads. *)
Lemma schedule_history {O E A : Type} (run : O → io DB E A) `{HS : ∀ op, Split (run op)} ops ts i said db :
  ts !! i = Some (mkThread ((λ op, calls (run op)) <$> ops) said) →
  let (db', rs) := Prelude.history run ops db in
  ∃ n, run_schedule (replicate n i) ts db = (<[i := mkThread [] (said ++ rs)]> ts, db').
Proof using.
  revert ts said db. induction ops as [|op ops IH]; intros ts said db Hi; cbn [Prelude.history].
  { exists 0. cbn. by rewrite app_nil_r, list_insert_id. }
  pose proof (schedule_alone _ ts i _ said db Hi) as H. rewrite calls_alone in H.
  destruct (run op db) as [db1 r]. destruct H as (n & Hn).
  specialize (IH (<[i := mkThread ((λ op, calls (run op)) <$> ops) (said ++ [r])]> ts) (said ++ [r]) db1).
  destruct (Prelude.history run ops db1) as [db2 rs]. destruct IH as (n' & Hn').
  { rewrite list_lookup_insert_eq; [done|]. by eapply lookup_lt_Some. }
  exists (n + n'). rewrite replicate_add, run_schedule_app, Hn. etrans; [exact Hn'|].
  by rewrite list_insert_insert_eq, <-(assoc_L (++)).
Qed.
End threads.

(** Takes an operation apart along its definition. *)
Ltac split_calls :=
  repeat lazymatch goal with
    | |- Split (_ ≫= _) => apply split_bind; [|intros ?]
    | |- Split (let _ := _ in _) => cbv zeta
    | |- Split (match ?x with _ => _ end) => destruct x
    | |- Split _ => apply _
    end.
