(* ===== verification/Dedupe.v ===== *)
(** * The dedupe cache ([zero-storage/src/dedupe.rs])

    [lru::LruCache] is an interface whose documented behaviour is a bounded list of
    distinct keys, most recently put first. *)

From Stdlib Require Import ZArith Lia.
From stdpp Require Import base tactics gmap strings sorting numbers countable list.
From S2P Require Import Prelude Bytes Store Mem Db.
#[local] Open Scope nat_scope.

(** ** The [lru] crate at [SectorId] keys and unit values *)

Class Lru : Type := {
  LruCache : Type;
  lru_new : nat → LruCache;
  lru_peek : LruCache → SectorId → option ();
  lru_put : LruCache → SectorId → () → LruCache;
  lru_len : LruCache → nat;
}.

(** [recency c]: the keys held, most recently put first. *)
Class LruOk `{L : Lru} : Type := {
  recency : LruCache → list SectorId;
  lru_cap : LruCache → nat;
  lru_new_spec cap : 0 < cap → recency (lru_new cap) = [] ∧ lru_cap (lru_new cap) = cap;
  lru_peek_spec c id : lru_peek c id = if decide (id ∈ recency c) then Some () else None;
  lru_put_spec c id :
    recency (lru_put c id ()) =
      take (lru_cap c) (id :: filter (λ x, x ≠ id) (recency c)) ∧
    lru_cap (lru_put c id ()) = lru_cap c;
  lru_len_spec c : lru_len c = length (recency c);
}.

(** ** [DedupeCache] *)

Definition DEFAULT_DEDUPE_CAPACITY : nat := 8192.

Section dedupe.
Context `{L : Lru}.

(** The mutex-protected cache: every method holds the lock from start to end, so a
    method is a function of the cache. *)
Record DedupeCache : Type := mkDedupeCache { inner : LruCache }.

(** [DedupeCache::new]; [None] is the panic on a zero capacity. *)
Definition DedupeCache_new (capacity : nat) : option DedupeCache :=
  if decide (capacity = 0) then None else Some (mkDedupeCache (lru_new capacity)).

Definition seen (c : DedupeCache) (id : SectorId) : bool :=
  match lru_peek (inner c) id with Some _ => true | None => false end.

Definition mark (c : DedupeCache) (id : SectorId) : DedupeCache :=
  mkDedupeCache (lru_put (inner c) id ()).

Definition dedupe_len (c : DedupeCache) : nat := lru_len (inner c).

Definition dedupe_is_empty (c : DedupeCache) : bool := dedupe_len c =? 0.
End dedupe.

(** ** The cache holds the most recently marked distinct ids *)

(** The distinct ids of a history of marks, most recent first. *)
Definition recent (ids : list SectorId) : list SectorId :=
  foldl (λ acc id, id :: filter (λ x, x ≠ id) acc) [] ids.

Lemma recent_snoc ids id : recent (ids ++ [id]) = id :: filter (λ x, x ≠ id) (recent ids).
Proof. unfold recent. by rewrite foldl_app. Qed.

Lemma recent_NoDup ids : NoDup (recent ids).
Proof.
  induction ids as [|id ids IHl] using rev_ind; [constructor|].
  rewrite recent_snoc. constructor; [|by apply NoDup_filter].
  intros [Hne _]%list_elem_of_filter. done.
Qed.

Lemma elem_of_recent ids id : id ∈ recent ids ↔ id ∈ ids.
Proof.
  induction ids as [|x ids IHl] using rev_ind; [done|].
  rewrite recent_snoc, elem_of_cons, list_elem_of_filter, IHl, elem_of_app, list_elem_of_singleton.
  destruct (decide (id = x)); tauto.
Qed.

(** A bounded prefix loses nothing that putting one more id would keep. *)
Lemma take_filter_take (x : SectorId) l n :
  NoDup l → take n (filter (λ y, y ≠ x) (take (S n) l)) = take n (filter (λ y, y ≠ x) l).
Proof.
  intros Hl. revert n. induction Hl as [|y l Hy Hl IHl]; intros n; [done|].
  simpl take at 2. rewrite !filter_cons. case_decide as Hne.
  - destruct n as [|n]; [done|]. simpl. f_equal. apply IHl.
  - assert (y = x) as -> by (by destruct (decide (y = x))).
    rewrite !filter_all.
    + by rewrite take_take, Nat.min_id.
    + apply Forall_forall. intros z Hz ->. done.
    + apply Forall_forall. intros z Hz ->. apply Hy. by eapply elem_of_take in Hz as (?&?%list_elem_of_lookup_2&?).
Qed.

Section dedupe_laws.
Context `{LOk : LruOk}.

Lemma mark_recent cap c ids id :
  recency (inner c) = take cap (recent ids) → lru_cap (inner c) = cap →
  recency (inner (mark c id)) = take cap (recent (ids ++ [id])) ∧ lru_cap (inner (mark c id)) = cap.
Proof using.
  intros Hr Hc. unfold mark. cbn [inner]. destruct (lru_put_spec (inner c) id) as [-> ->].
  split; [|done]. rewrite Hr, Hc, recent_snoc. destruct cap as [|cap]; [done|]. cbn [take]. f_equal.
  apply take_filter_take, recent_NoDup.
Qed.

Lemma mark_all cap c ids :
  DedupeCache_new cap = Some c →
  recency (inner (foldl mark c ids)) = take cap (recent ids) ∧
  lru_cap (inner (foldl mark c ids)) = cap.
Proof using.
  unfold DedupeCache_new. case_decide as Hcap; [done|]. intros [= <-].
  induction ids as [|id ids [IHl IHc]] using rev_ind.
  - destruct (lru_new_spec cap) as [Hr Hc]; [lia|].
    cbn [foldl inner]. rewrite Hr. split; [by destruct cap|done].
  - rewrite foldl_app. by apply mark_recent.
Qed.

Lemma seen_iff c id : seen c id = true ↔ id ∈ recency (inner c).
Proof using. unfold seen. rewrite lru_peek_spec. by case_decide. Qed.

Lemma seen_mark c id : 0 < lru_cap (inner c) → seen (mark c id) id = true.
Proof using.
  intros Hc. rewrite seen_iff. unfold mark. simpl.
  destruct (lru_put_spec (inner c) id) as [-> _].
  destruct (lru_cap (inner c)); [lia|]. simpl. apply list_elem_of_here.
Qed.
End dedupe_laws.

(** ** A concrete cache for the witnesses *)

Record mem_lru : Type := MemLru { ml_cap : nat; ml_keys : list SectorId }.

#[export] Instance mem_lru_ops : Lru := {
  LruCache := mem_lru;
  lru_new cap := MemLru cap [];
  lru_peek c id := if decide (id ∈ ml_keys c) then Some () else None;
  lru_put c id _ :=
    MemLru (ml_cap c) (take (ml_cap c) (id :: filter (λ x, x ≠ id) (ml_keys c)));
  lru_len c := length (ml_keys c);
}.

#[export] Program Instance mem_lru_ok : @LruOk mem_lru_ops := {
  recency := ml_keys; lru_cap := ml_cap }.
Solve All Obligations with done.

(** ** Properties *)

(** C35: after any history of marks on a fresh cache, [seen] answers true exactly for the
    [capacity] most recently marked distinct ids; the cache never holds more than
    [capacity] ids. *)
Theorem dedupe_remembers `{LruOk} cap c ids :
  DedupeCache_new cap = Some c →
  let c' := foldl mark c ids in
  (∀ id, seen c' id = true ↔ id ∈ take cap (recent ids)) ∧
  dedupe_len c' = Nat.min cap (length (recent ids)).
Proof.
  intros Hc. destruct (mark_all cap c ids Hc) as [Hr _]. simpl. split.
  - intros id. by rewrite seen_iff, Hr.
  - unfold dedupe_len. by rewrite lru_len_spec, Hr, length_take.
Qed.

Definition sample_marks : list SectorId := [sid Byte.x01; sid Byte.x02; sid Byte.x01; sid Byte.x03].

Lemma dedupe_remembers_witness :
  let c' := foldl mark (mkDedupeCache (lru_new 2)) sample_marks in
  (∀ id, seen c' id = true ↔ id ∈ take 2 (recent sample_marks)) ∧
  dedupe_len c' = Nat.min 2 (length (recent sample_marks)).
Proof. apply (dedupe_remembers 2 (mkDedupeCache (lru_new 2)) sample_marks). reflexivity. Defined.
