(* ===== verification/Outbox.v ===== *)
(** * The persistent outbox ([zero-storage/src/outbox.rs])

    The retry queue kept in [CF_OUTBOX], one entry per sector id, with a capacity checked
    when a new entry is added. *)

From Stdlib Require Import ZArith Lia.
From stdpp Require Import base tactics gmap strings sorting numbers countable list.
From S2P Require Import Prelude Bytes Store Mem Db.
#[local] Open Scope nat_scope.

Definition DEFAULT_OUTBOX_CAPACITY : nat := 1000.

Record OutboxEntry : Type := mkOutboxEntry {
  oe_sector_id : SectorId;
  oe_payload : bytes;
  oe_attempt_count : u8;
  oe_next_attempt_ms : u64;
  oe_created_at_ms : u64;
}.

#[export] Instance OutboxEntry_eq_dec : EqDecision OutboxEntry.
Proof. solve_decision. Defined.

(** ** Operations *)

Section outbox.
Context `{R : RocksDB} `{P : PostcardLib} `{!Postcard OutboxEntry}.

(** [Outbox { db, capacity }]: the database is threaded by the operations. *)
Record Outbox : Type := mkOutbox { capacity : nat }.
Definition Outbox_new : Outbox := mkOutbox DEFAULT_OUTBOX_CAPACITY.
Definition Outbox_with_capacity (cap : nat) : Outbox := mkOutbox cap.

Definition count (db : DB) : result StorageError nat :=
  cf_handle db CF_OUTBOX;;
  for_each (λ n item, map_err Rocks item;; Ok (Continue (S n)))
    0 (DB_iterator_cf db CF_OUTBOX IterStart).

Definition scan_all (db : DB) : result StorageError (list OutboxEntry) :=
  cf_handle db CF_OUTBOX;;
  for_each (λ es item,
      '(_, v) ← map_err Rocks item;
      entry ← map_err Codec (from_bytes v);
      Ok (Continue (es ++ [entry])))
    [] (DB_iterator_cf db CF_OUTBOX IterStart).

Definition enqueue (ob : Outbox) (entry : OutboxEntry) : io DB StorageError () :=
  let key := SectorId_as_bytes (oe_sector_id entry) in
  found ← reads (λ db, get_raw db CF_OUTBOX key);
  match found with
  | Some _ => mret ()
  | None =>
      n ← reads count;
      if capacity ob <=? n then fails OutboxFull
      else
        value ← lift (map_err Codec (to_vec entry));
        put_raw CF_OUTBOX key value;;
        mret ()
  end.

Definition dequeue_due (db : DB) (now_ms : u64) : result StorageError (list OutboxEntry) :=
  all ← scan_all db;
  let due := filter (λ e, ule (oe_next_attempt_ms e) now_ms = true) all in
  Ok (sort_by (λ a b, ucmp (oe_next_attempt_ms a) (oe_next_attempt_ms b)) due).

Definition mark_attempted (id : SectorId) (next_attempt_ms : u64) : io DB StorageError () :=
  let key := SectorId_as_bytes id in
  found ← reads (λ db, get_raw db CF_OUTBOX key);
  raw ← lift (ok_or found (SectorNotFound id));
  entry ← lift (map_err Codec (from_bytes raw));
  let entry' := mkOutboxEntry (oe_sector_id entry) (oe_payload entry)
    (usat_add (oe_attempt_count entry) (umk 8 1)) next_attempt_ms (oe_created_at_ms entry) in
  value ← lift (map_err Codec (to_vec entry'));
  put_raw CF_OUTBOX key value;;
  mret ().

Definition remove (id : SectorId) : io DB StorageError () :=
  delete_raw CF_OUTBOX (SectorId_as_bytes id).
End outbox.

(** ** Specification: a finite map from sector ids to entries *)

Abbreviation outbox_map := (gmap SectorId OutboxEntry).

Definition outbox_space : keyspace SectorId :=
  KeySpace CF_OUTBOX SectorId_as_bytes (λ _, true) _ (λ _, eq_refl).

(** The outcome and the next map. *)
Inductive outbox_error := OFull | ONotFound (id : SectorId).

Definition spec_enqueue (cap : nat) (e : OutboxEntry) (M : outbox_map)
    : outbox_map * result outbox_error () :=
  match M !! oe_sector_id e with
  | Some _ => (M, Ok ())
  | None => if cap <=? size M then (M, Err OFull) else (<[oe_sector_id e := e]> M, Ok ())
  end.

Definition retried (t : u64) (e : OutboxEntry) : OutboxEntry :=
  mkOutboxEntry (oe_sector_id e) (oe_payload e)
    (usat_add (oe_attempt_count e) (umk 8 1)) t (oe_created_at_ms e).

Definition spec_mark_attempted (id : SectorId) (t : u64) (M : outbox_map)
    : outbox_map * result outbox_error () :=
  match M !! id with
  | Some e => (<[id := retried t e]> M, Ok ())
  | None => (M, Err (ONotFound id))
  end.

Definition all_entries `{!PostcardLib} (M : outbox_map) : list OutboxEntry :=
  snd <$> entries outbox_space (λ _, True) M.

Section outbox_laws.
Context `{ROk : RocksOk} `{P : PostcardLib} `{!Postcard OutboxEntry, !PostcardOk OutboxEntry}.
Implicit Types (M : outbox_map) (db : DB).

Definition conc (e : outbox_error) : StorageError :=
  match e with OFull => OutboxFull | ONotFound id => SectorNotFound id end.

Lemma count_run db M :
  good db → repr outbox_space (contents db) M → count db = Ok (size M).
Proof using PostcardOk0.
  intros Hg Hr. unfold count. rewrite good_handle; [|done|cf_mem]. simpl.
  destruct Hg as [Hh Hc]. rewrite iterator_spec by (done || apply Hc; cf_mem). simpl.
  change CF_OUTBOX with (ks_cf outbox_space). rewrite (repr_view _ _ M); [|done|done].
  rewrite (for_each_all _ (λ n _, S n)).
  - f_equal. rewrite <-(entries_length outbox_space M).
    generalize (entries outbox_space (λ _, True) M). intros l.
    change (length l) with (0 + length l). generalize 0.
    induction l as [|x l IHl]; intros n; simpl; [lia|]. rewrite IHl. lia.
  - intros x n Hin. apply list_elem_of_fmap in Hin as (kv & -> & _). done.
Qed.

Lemma scan_all_run db M :
  good db → repr outbox_space (contents db) M → scan_all db = Ok (all_entries M).
Proof using PostcardOk0.
  intros Hg Hr. unfold scan_all. rewrite good_handle; [|done|cf_mem]. simpl.
  destruct Hg as [Hh Hc]. rewrite iterator_spec by (done || apply Hc; cf_mem). simpl.
  change CF_OUTBOX with (ks_cf outbox_space). rewrite (repr_view _ _ M); [|done|done].
  unfold all_entries. generalize (entries outbox_space (λ _, True) M). intros l.
  assert (∀ acc, for_each (λ es (item : result rocks_error (bytes * bytes)),
      '(_, v) ← map_err Rocks item;
      entry ← map_err Codec (from_bytes v);
      Ok (Continue (es ++ [entry]))) acc (Ok <$> (stored outbox_space <$> l)) =
      Ok (acc ++ (snd <$> l))) as ->; [|done].
  induction l as [|x l IHl]; intros acc; simpl; [by rewrite app_nil_r|].
  rewrite from_bytes_enc. simpl. rewrite IHl. by rewrite <-(assoc_L (++)).
Qed.

Lemma elem_of_all_entries M e : e ∈ all_entries M ↔ ∃ id, M !! id = Some e.
Proof using.
  unfold all_entries. rewrite list_elem_of_fmap. split.
  - intros ([id e'] & -> & [_ H]%elem_of_entries). eauto.
  - intros [id H]. exists (id, e). split; [done|]. by apply elem_of_entries.
Qed.

Lemma enqueue_run ob db M e :
  good db → repr outbox_space (contents db) M →
  let (M', r) := spec_enqueue (capacity ob) e M in
  ∃ st, runs (enqueue ob e) db (map_err conc r) st ∧ repr outbox_space st M' ∧
    frame CF_OUTBOX (contents db) st.
Proof using PostcardOk0.
  intros Hg Hr. unfold spec_enqueue, enqueue.
  assert (get_raw db CF_OUTBOX (SectorId_as_bytes (oe_sector_id e)) =
    Ok (enc <$> M !! oe_sector_id e)) as Hget.
  { apply (get_raw_space outbox_space); [done|cf_mem|done]. }
  destruct (M !! oe_sector_id e) as [e'|] eqn:He; simpl in Hget.
  - exists (contents db). split_and!; [|done|apply frame_refl].
    eapply runs_bind; [by apply runs_reads|]. intros. by apply runs_done.
  - destruct (Nat.leb_spec (capacity ob) (size M)) as [Hle|Hlt].
    + exists (contents db). split_and!; [|done|apply frame_refl].
      eapply runs_bind; [by apply runs_reads|]. intros db1 Hg1 Hc1. rewrite <-Hc1 in Hr |- *.
      eapply runs_bind; [by apply runs_reads; [|by apply count_run]|]. intros db2 Hg2 <-.
      destruct (Nat.leb_spec (capacity ob) (size M)); [|lia]. by apply runs_fails.
    + eexists. split_and!; [|by apply repr_insert|apply frame_insert].
      eapply runs_bind; [by apply runs_reads|]. intros db1 Hg1 Hc1. rewrite <-Hc1 in Hr |- *.
      eapply runs_bind; [by apply runs_reads; [|by apply count_run]|]. intros db2 Hg2 <-.
      destruct (Nat.leb_spec (capacity ob) (size M)); [lia|].
      rewrite to_vec_enc. eapply runs_bind; [by apply runs_lift|]. intros db3 Hg3 <-.
      eapply runs_bind; [apply put_raw_good; [done|cf_mem]|]. intros. by apply runs_done.
Qed.

Lemma mark_attempted_run db M id t :
  good db → repr outbox_space (contents db) M →
  let (M', r) := spec_mark_attempted id t M in
  ∃ st, runs (mark_attempted id t) db (map_err conc r) st ∧ repr outbox_space st M'.
Proof using PostcardOk0.
  intros Hg Hr. unfold spec_mark_attempted, mark_attempted.
  assert (get_raw db CF_OUTBOX (SectorId_as_bytes id) = Ok (enc <$> M !! id)) as Hget.
  { apply (get_raw_space outbox_space); [done|cf_mem|done]. }
  destruct (M !! id) as [e|] eqn:He; simpl in Hget.
  - eexists. split; [|by apply repr_insert].
    eapply runs_bind; [by apply runs_reads|]. intros db1 Hg1 <-.
    eapply runs_bind; [by apply runs_lift|]. intros db2 Hg2 <-. simpl.
    rewrite from_bytes_enc. eapply runs_bind; [by apply runs_lift|]. intros db3 Hg3 <-.
    rewrite to_vec_enc. eapply runs_bind; [by apply runs_lift|]. intros db4 Hg4 <-.
    eapply runs_bind; [apply put_raw_good; [done|cf_mem]|]. intros. by apply runs_done.
  - exists (contents db). split; [|done].
    eapply runs_bind; [by apply runs_reads|]. intros db1 Hg1 <-.
    apply runs_bind_err. by apply runs_lift.
Qed.

Lemma remove_run db M id :
  good db → repr outbox_space (contents db) M →
  ∃ st, runs (remove id) db (Ok ()) st ∧ repr outbox_space st (delete id M).
Proof using.
  intros Hg Hr. eexists. split; [|by apply repr_delete].
  apply delete_raw_good; [done|cf_mem].
Qed.

Lemma dequeue_due_run db M now :
  good db → repr outbox_space (contents db) M →
  ∃ l, dequeue_due db now = Ok l ∧
    StronglySorted (λ a b, ule (oe_next_attempt_ms a) (oe_next_attempt_ms b) = true) l ∧
    l ≡ₚ filter (λ e, ule (oe_next_attempt_ms e) now = true) (all_entries M).
Proof using PostcardOk0.
  intros Hg Hr. unfold dequeue_due. rewrite (scan_all_run _ M) by done. simpl.
  eexists. split; [done|]. split; [|apply sort_by_perm].
  pose proof (sort_by_sorted (λ a b, ucmp (oe_next_attempt_ms a) (oe_next_attempt_ms b))
    (filter (λ e, ule (oe_next_attempt_ms e) now = true) (all_entries M))) as Hs.
  eapply StronglySorted_fmap with (f := id) in Hs; [rewrite list_fmap_id in Hs; exact Hs|].
  intros a b. unfold cmp_le, ucmp, ule. rewrite Z.leb_le. apply Z.compare_le_iff.
Qed.
End outbox_laws.

(** ** Histories of operations *)

Inductive outbox_op : Type :=
| OpEnqueue (e : OutboxEntry)
| OpMarkAttempted (id : SectorId) (t : u64)
| OpRemove (id : SectorId).

Definition spec_op (cap : nat) (op : outbox_op) (M : outbox_map)
    : outbox_map * result outbox_error () :=
  match op with
  | OpEnqueue e => spec_enqueue cap e M
  | OpMarkAttempted id t => spec_mark_attempted id t M
  | OpRemove id => (delete id M, Ok ())
  end.

(** The queue is within its capacity and every entry is stored under its own id. *)
Definition outbox_inv (cap : nat) (M : outbox_map) : Prop :=
  size M ≤ cap ∧ ∀ id e, M !! id = Some e → oe_sector_id e = id.

Lemma outbox_inv_step cap op M : outbox_inv cap M → outbox_inv cap (spec_op cap op M).1.
Proof.
  intros [Hs Hid]. destruct op as [e|id t|id]; simpl.
  - unfold spec_enqueue. destruct (M !! oe_sector_id e) eqn:He; [done|].
    destruct (Nat.leb_spec cap (size M)); [done|]. split; simpl.
    + rewrite map_size_insert_None by done. lia.
    + intros id e' [[<- <-]|[_ ?]]%lookup_insert_Some; auto.
  - unfold spec_mark_attempted. destruct (M !! id) as [e|] eqn:He; [|done]. split; simpl.
    + rewrite map_size_insert_Some by eauto. done.
    + intros id' e' [[<- <-]|[_ ?]]%lookup_insert_Some; simpl; auto.
  - split.
    + rewrite map_size_delete. destruct (M !! id); simpl; lia.
    + intros id' e' [_ ?]%lookup_delete_Some. auto.
Qed.

Lemma outbox_inv_history cap ops M :
  outbox_inv cap M → outbox_inv cap (history (spec_op cap) ops M).1.
Proof. apply (history_inv (spec_op cap)). intros. by apply outbox_inv_step. Qed.

Section outbox_history.
Context `{ROk : RocksOk} `{P : PostcardLib} `{!Postcard OutboxEntry, !PostcardOk OutboxEntry}.

Definition run_op (ob : Outbox) (op : outbox_op) : io DB StorageError () :=
  match op with
  | OpEnqueue e => enqueue ob e
  | OpMarkAttempted id t => mark_attempted id t
  | OpRemove id => remove id
  end.

Lemma run_op_run ob op db M :
  good db → repr outbox_space (contents db) M →
  let (M', r) := spec_op (capacity ob) op M in
  ∃ st, runs (run_op ob op) db (map_err conc r) st ∧ repr outbox_space st M'.
Proof using PostcardOk0.
  intros Hg Hr. destruct op as [e| |]; simpl;
    [|by apply mark_attempted_run|by apply remove_run].
  pose proof (enqueue_run ob db M e Hg Hr) as He.
  destruct (spec_enqueue (capacity ob) e M) as [M' r]. naive_solver.
Qed.

Lemma outbox_history_run ob ops db M :
  good db → repr outbox_space (contents db) M →
  let (M', rs) := history (spec_op (capacity ob)) ops M in
  ∃ db', history (run_op ob) ops db = (db', map_err conc <$> rs) ∧
    good db' ∧ repr outbox_space (contents db') M'.
Proof using PostcardOk0.
  intros Hg Hr.
  destruct (history_sim (run_op ob) (spec_op (capacity ob)) conc
    (λ db M, good db ∧ repr outbox_space (contents db) M)) with (ops := ops) (s := db) (t := M)
    as [[? ?] Hrs]; [|done|].
  - intros op db1 M1 [Hg1 Hr1]. pose proof (run_op_run ob op db1 M1 Hg1 Hr1) as Hop.
    destruct (spec_op (capacity ob) op M1) as [M2 r].
    destruct Hop as (st & (db2 & -> & ? & <-) & ?). done.
  - destruct (history (spec_op (capacity ob)) ops M) as [M' rs].
    destruct (history (run_op ob) ops db) as [db' rs']. cbn [fst snd] in *. subst. eauto.
Qed.

(** What [dequeue_due] returns at a time: the entries whose scheduled time has come, each once,
    in order of scheduled time. *)
Definition due_at (M : outbox_map) (now : u64) (l : list OutboxEntry) : Prop :=
  StronglySorted (λ a b, ule (oe_next_attempt_ms a) (oe_next_attempt_ms b) = true) l ∧
  l ≡ₚ filter (λ e, ule (oe_next_attempt_ms e) now = true) (all_entries M) ∧
  ∀ e, e ∈ l ↔ (∃ id, M !! id = Some e) ∧ (uval (oe_next_attempt_ms e) <= uval now)%Z.

Lemma dequeue_due_at (db : DB) (M : outbox_map) now :
  good db → repr outbox_space (contents db) M →
  ∃ l, dequeue_due db now = Ok l ∧ due_at M now l.
Proof using PostcardOk0.
  intros Hg Hr. destruct (dequeue_due_run db M now Hg Hr) as (l & ? & ? & Hp).
  exists l. split; [done|]. split; [done|]. split; [done|]. intros e.
  rewrite Hp, list_elem_of_filter, elem_of_all_entries. unfold ule. rewrite Z.leb_le. tauto.
Qed.

(** C14: on a database with an empty outbox, any sequence of [enqueue], [mark_attempted] and
    [remove] returns what the finite-map specification returns and leaves the map it
    leaves: enqueueing a known id is a no-op, a new id beyond the capacity is refused with
    [OutboxFull], attempts are counted with saturation; the queue never exceeds its capacity;
    and [dequeue_due] then returns exactly the entries whose scheduled time has come, each
    once, in order of scheduled time. *)
Theorem outbox_refines ob ops (db : DB) :
  good db → repr outbox_space (contents db) (∅ : outbox_map) →
  let (M, rs) := history (spec_op (capacity ob)) ops ∅ in
  ∃ db', history (run_op ob) ops db = (db', map_err conc <$> rs) ∧
    good db' ∧ repr outbox_space (contents db') M ∧ outbox_inv (capacity ob) M ∧
    ∀ now, ∃ l, dequeue_due db' now = Ok l ∧ due_at M now l.
Proof using PostcardOk0.
  intros Hg Hr. pose proof (outbox_history_run ob ops db ∅ Hg Hr) as Hh.
  pose proof (outbox_inv_history (capacity ob) ops ∅) as Hi.
  destruct (history (spec_op (capacity ob)) ops ∅) as [M rs].
  destruct Hh as (db' & ? & ? & ?). exists db'. split; [done|]. split; [done|]. split; [done|]. split.
  - apply Hi. split; [rewrite map_size_empty; lia|intros ?? [=]].
  - intros now. by apply dequeue_due_at.
Qed.
End outbox_history.

(** ** Witnesses *)

Definition ser_OutboxEntry : Ser OutboxEntry :=
  ser_iso (λ e, (oe_sector_id e, (oe_payload e, (oe_attempt_count e,
                  (oe_next_attempt_ms e, oe_created_at_ms e)))))
    (λ p, let '(a, (b, (c, (d, e)))) := p in mkOutboxEntry a b c d e)
    (λ e, match e with mkOutboxEntry _ _ _ _ _ => eq_refl end).

Definition mem_outbox : Postcard OutboxEntry := @mem_postcard _ ser_OutboxEntry.
Definition mem_outbox_ok : @PostcardOk _ OutboxEntry mem_outbox := @mem_postcard_ok _ ser_OutboxEntry.
#[local] Existing Instances mem_outbox mem_outbox_ok.

Definition entry_at (b : byte) (t : Z) : OutboxEntry :=
  mkOutboxEntry (sid b) [b] (umk 8 0) (umk 64 t) (umk 64 0).

Definition sample_ops : list outbox_op :=
  [OpEnqueue (entry_at Byte.x01 5); OpEnqueue (entry_at Byte.x02 3);
   OpEnqueue (entry_at Byte.x03 4); OpEnqueue (entry_at Byte.x01 9);
   OpMarkAttempted (sid Byte.x02) (umk 64 8); OpRemove (sid Byte.x01);
   OpMarkAttempted (sid Byte.x01) (umk 64 8)].

Lemma outbox_refines_witness :
  (history (spec_op 2) sample_ops ∅).2 =
    [Ok (); Ok (); Err OFull; Ok (); Ok (); Ok (); Err (ONotFound (sid Byte.x01))] ∧
  let (M, rs) := history (spec_op 2) sample_ops ∅ in
  ∃ db', history (run_op (mkOutbox 2)) sample_ops (mem_new : @DB mem_rocks) =
      (db', map_err conc <$> rs) ∧
    good db' ∧ repr outbox_space (contents db') M ∧ outbox_inv 2 M ∧
    ∀ now, ∃ l, dequeue_due db' now = Ok l ∧ due_at M now l.
Proof.
  split; [vm_compute; reflexivity|].
  apply (outbox_refines (mkOutbox 2) sample_ops (mem_new : @DB mem_rocks));
    [apply mem_new_good|apply repr_empty].
Defined.
