(* ===== verification/Contacts.v ===== *)
(** * The address book ([zero-messaging/src/contacts/])

    Contacts of one owner, keyed by owner and contact identity in [CF_CONTACTS]. *)

From Stdlib Require Import ZArith Lia.
From stdpp Require Import base tactics gmap strings sorting numbers countable list.
From S2P Require Import Prelude Bytes Store Mem Aad Db.
#[local] Open Scope nat_scope.

Record ContactMachineKey : Type := mkContactMachineKey {
  cmk_machine_id : MachineId;
  cmk_x25519_public : arr 32;
  cmk_mlkem_encap_key : bytes;
  cmk_ed25519_verifying : arr 32;
  cmk_mldsa_verifying : bytes;
  cmk_epoch : Epoch;
}.

Record Contact : Type := mkContact {
  contact_identity_id : IdentityId;
  contact_label : rstr;
  contact_machine_keys : list ContactMachineKey;
  contact_last_seen_epoch : option Epoch;
  contact_added_at_ms : u64;
}.

Definition contact_key (owner contact : IdentityId) : bytes :=
  arr_bytes (identity_id_0 owner) ++ arr_bytes (identity_id_0 contact).

Definition owner_prefix (owner : IdentityId) : bytes := arr_bytes (identity_id_0 owner).

Section contacts.
Context `{R : RocksDB} `{P : PostcardLib} `{!Postcard Contact}.

Inductive ContactError : Type :=
| CeStorage (e : StorageError)
| CeNotFound (id : IdentityId)
| CeLabelTooLong (len : nat)
| CeCodec (s : string)
| CeDuplicate (id : IdentityId).

(** [ContactStore { db, owner }]: the database is threaded by the operations. *)
Record ContactStore : Type := mkContactStore { owner : IdentityId }.

Definition ContactStore_new (owner : IdentityId) : ContactStore := mkContactStore owner.

Definition codec_err (e : postcard_error) : ContactError := CeCodec (postcard_error_string e).

Definition add_contact (cs : ContactStore) (contact : Contact) : io DB ContactError () :=
  if 64 <? str_len (contact_label contact) then
    fails (CeLabelTooLong (str_len (contact_label contact)))
  else
    let key := contact_key (owner cs) (contact_identity_id contact) in
    value ← lift (map_err codec_err (to_vec contact));
    io_map_err CeStorage (put_raw CF_CONTACTS key value).

Definition get_contact (cs : ContactStore) (db : DB) (id : IdentityId)
    : result ContactError (option Contact) :=
  let key := contact_key (owner cs) id in
  match get_raw db CF_CONTACTS key with
  | Ok (Some b) => contact ← map_err codec_err (from_bytes b); Ok (Some contact)
  | Ok None => Ok None
  | Err e => Err (CeStorage e)
  end.

Definition remove_contact (cs : ContactStore) (id : IdentityId) : io DB ContactError () :=
  let key := contact_key (owner cs) id in
  io_map_err CeStorage (delete_raw CF_CONTACTS key).

Definition list_contacts (cs : ContactStore) (db : DB) : result ContactError (list Contact) :=
  let prefix := owner_prefix (owner cs) in
  map_err CeStorage (cf_handle db CF_CONTACTS);;
  for_each (λ contacts item,
      '(key, value) ← map_err (λ e, CeCodec (rocks_error_string e)) item;
      if negb (starts_with key prefix) then Ok (Break contacts)
      else
        contact ← map_err codec_err (from_bytes value);
        Ok (Continue (contacts ++ [contact])))
    [] (DB_prefix_iterator_cf db CF_CONTACTS prefix).
End contacts.

(** ** The address books as one finite map *)

Abbreviation books := (gmap (IdentityId * IdentityId) Contact).

Definition pair_key (k : IdentityId * IdentityId) : bytes := contact_key k.1 k.2.

#[export] Instance pair_key_inj : Inj (=) (=) pair_key.
Proof.
  intros [a b] [c d]. unfold pair_key, contact_key. cbn [fst snd]. intros H.
  apply app_inj_1 in H as [H1 H2]; [|by rewrite !length_arr].
  by apply (inj arr_bytes), (inj identity_id_0) in H1 as ->;
     apply (inj arr_bytes), (inj identity_id_0) in H2 as ->.
Qed.

Definition contact_space : keyspace (IdentityId * IdentityId) :=
  KeySpace CF_CONTACTS pair_key (λ _, true) _ (λ _, eq_refl).

Lemma owner_prefix_iff o k : starts_with (pair_key k) (owner_prefix o) = true ↔ k.1 = o.
Proof.
  destruct k as [a b]. unfold pair_key, contact_key, owner_prefix. cbn [fst snd].
  rewrite starts_with_iff. split; [|intros ->; eauto].
  intros (r & H). apply app_inj_1 in H as [H _]; [|by rewrite !length_arr].
  by apply (inj arr_bytes), (inj identity_id_0) in H.
Qed.

Section contact_laws.
Context `{ROk : RocksOk} `{P : PostcardLib} `{!Postcard Contact, !PostcardOk Contact}.
Implicit Types (M : books) (db : DB).

(** The contacts of one owner in key order. *)
Definition book M (o : IdentityId) : list ((IdentityId * IdentityId) * Contact) :=
  entries contact_space (λ k, k.1 = o) M.

Lemma contact_stored db M k v :
  repr contact_space (contents db) M → contents db !! (CF_CONTACTS, k) = Some v →
  ∃ c, from_bytes v = Ok c.
Proof using PostcardOk0.
  intros [Hlk Hfam] Hin. destruct (Hfam k v Hin eq_refl) as [k' ->].
  change CF_CONTACTS with (ks_cf contact_space) in Hin. rewrite Hlk in Hin.
  apply fmap_Some in Hin as (c & _ & ->). exists c. by rewrite from_bytes_enc.
Qed.

Lemma list_contacts_run cs db M :
  good db → repr contact_space (contents db) M →
  list_contacts cs db = Ok (snd <$> book M (owner cs)).
Proof using PostcardOk0.
  intros Hg Hr. unfold list_contacts. rewrite good_handle; [|done|cf_mem]. simpl.
  pose (dflt := mkContact (owner cs) [] [] None (umk 64 0)).
  rewrite (prefix_loop (λ e, CeCodec (rocks_error_string e))
    (λ kv, map_err codec_err (from_bytes kv.2))
    (λ kv, match from_bytes kv.2 with Ok c => c | Err _ => dflt end)); [|done|cf_mem|].
  - f_equal. change CF_CONTACTS with (ks_cf contact_space).
    rewrite (repr_filter contact_space _ M (λ b, starts_with b (owner_prefix (owner cs)))
      (λ k, k.1 = owner cs)); [|done|done|apply owner_prefix_iff].
    unfold book. rewrite <-list_fmap_compose. apply list_fmap_ext.
    intros _ x _. simpl. by rewrite from_bytes_enc.
  - intros [k v] Hin _. simpl. apply elem_of_view in Hin.
    destruct (contact_stored db M k v Hr Hin) as [c ->]. done.
Qed.

Lemma get_contact_run cs db M id :
  good db → repr contact_space (contents db) M →
  get_contact cs db id = Ok (M !! (owner cs, id)).
Proof using PostcardOk0.
  intros Hg Hr. unfold get_contact.
  change (contact_key (owner cs) id) with (ks_key contact_space (owner cs, id)).
  change CF_CONTACTS with (ks_cf contact_space).
  rewrite (get_raw_space contact_space M); [|done|cf_mem|done].
  destruct (M !! _); simpl; [by rewrite from_bytes_enc|done].
Qed.

Lemma add_contact_run cs db M c :
  good db → repr contact_space (contents db) M →
  ∃ st, runs (add_contact cs c) db
      (if 64 <? str_len (contact_label c) then Err (CeLabelTooLong (str_len (contact_label c)))
       else Ok ()) st ∧
    repr contact_space st
      (if 64 <? str_len (contact_label c) then M
       else <[(owner cs, contact_identity_id c) := c]> M).
Proof using PostcardOk0.
  intros Hg Hr. unfold add_contact. destruct (64 <? _).
  - exists (contents db). split; [by apply runs_fails|done].
  - eexists. split; [|by apply repr_insert]. rewrite to_vec_enc.
    eapply runs_bind; [by apply runs_lift|]. intros db1 Hg1 <-.
    apply (runs_map_err _ _ _ (Ok ())). apply put_raw_good; [done|cf_mem].
Qed.

Lemma remove_contact_run cs db M id :
  good db → repr contact_space (contents db) M →
  ∃ st, runs (remove_contact cs id) db (Ok ()) st ∧
    repr contact_space st (delete (owner cs, id) M).
Proof using.
  intros Hg Hr. eexists. split; [|by apply repr_delete].
  apply (runs_map_err _ _ _ (Ok ())). apply delete_raw_good; [done|cf_mem].
Qed.

(** [list_contacts] returns exactly the owner's contacts, each once, and none of another
    owner's. *)
Lemma list_contacts_scoped cs db M :
  good db → repr contact_space (contents db) M →
  ∃ l, list_contacts cs db = Ok (snd <$> l) ∧ NoDup l.*1 ∧
    ∀ k c, (k, c) ∈ l ↔ k.1 = owner cs ∧ M !! k = Some c.
Proof using PostcardOk0.
  intros. exists (book M (owner cs)). split_and!; [by apply list_contacts_run| |].
  - apply entries_keys.
  - intros. apply (elem_of_entries contact_space (λ k, k.1 = owner cs)).
Qed.
(** C36: the contact store is a finite map from (owner, contact) to contacts: a label of more
    than 64 bytes is refused and nothing is written; otherwise the contact replaces any
    previous one; lookups and removals concern the owner's own entry only, and
    the listing holds exactly the owner's contacts, each once. *)
Theorem contacts_refine cs db M c id :
  good db → repr contact_space (contents db) M →
  (∃ st, runs (add_contact cs c) db
      (if 64 <? str_len (contact_label c) then Err (CeLabelTooLong (str_len (contact_label c)))
       else Ok ()) st ∧
    repr contact_space st
      (if 64 <? str_len (contact_label c) then M
       else <[(owner cs, contact_identity_id c) := c]> M)) ∧
  get_contact cs db id = Ok (M !! (owner cs, id)) ∧
  (∃ st, runs (remove_contact cs id) db (Ok ()) st ∧
    repr contact_space st (delete (owner cs, id) M)) ∧
  (∃ l, list_contacts cs db = Ok (snd <$> l) ∧ NoDup l.*1 ∧
    ∀ k c, (k, c) ∈ l ↔ k.1 = owner cs ∧ M !! k = Some c).
Proof using PostcardOk0.
  intros. split_and!; [by apply add_contact_run|by apply get_contact_run|
    by apply remove_contact_run|by apply list_contacts_scoped].
Qed.

End contact_laws.

(** ** Witnesses *)

#[export] Instance ser_IdentityId : Ser IdentityId :=
  ser_iso identity_id_0 mkIdentityId (λ a, match a with mkIdentityId _ => eq_refl end).
#[export] Instance ser_MachineId : Ser MachineId :=
  ser_iso machine_id_0 mkMachineId (λ a, match a with mkMachineId _ => eq_refl end).
#[export] Instance ser_Epoch : Ser Epoch :=
  ser_iso epoch_0 mkEpoch (λ a, match a with mkEpoch _ => eq_refl end).

#[export] Instance ser_ContactMachineKey : Ser ContactMachineKey :=
  ser_iso (λ k, (cmk_machine_id k, (cmk_x25519_public k, (cmk_mlkem_encap_key k,
                 (cmk_ed25519_verifying k, (cmk_mldsa_verifying k, cmk_epoch k))))))
    (λ p, let '(a, (b, (c, (d, (e, f))))) := p in mkContactMachineKey a b c d e f)
    (λ k, match k with mkContactMachineKey _ _ _ _ _ _ => eq_refl end).

Definition ser_Contact : Ser Contact :=
  ser_iso (λ c, (contact_identity_id c, (contact_label c, (contact_machine_keys c,
                 (contact_last_seen_epoch c, contact_added_at_ms c)))))
    (λ p, let '(a, (b, (c, (d, e)))) := p in mkContact a b c d e)
    (λ c, match c with mkContact _ _ _ _ _ => eq_refl end).

Definition mem_contact : Postcard Contact := @mem_postcard _ ser_Contact.
Definition mem_contact_ok : @PostcardOk _ Contact mem_contact := @mem_postcard_ok _ ser_Contact.
#[local] Existing Instances mem_contact mem_contact_ok.

Definition ident (b : byte) : IdentityId := mkIdentityId (arr_fill 16 b).
Definition machine (b : byte) : MachineId := mkMachineId (arr_fill 16 b).
Definition bob : Contact := mkContact (ident Byte.x02) (rstr_of "bob") [] None (umk 64 0).
Definition bob_book : books := <[(ident Byte.x01, ident Byte.x02) := bob]> ∅.
Definition bob_db : @DB mem_rocks :=
  mem_with (<[(CF_CONTACTS, pair_key (ident Byte.x01, ident Byte.x02)) := enc bob]> ∅).

Lemma bob_repr : repr contact_space (contents bob_db) bob_book.
Proof.
  exact (repr_insert contact_space ∅ ∅ (ident Byte.x01, ident Byte.x02) bob (repr_empty _)).
Qed.

Lemma contacts_refine_witness :
  let cs := mkContactStore (ident Byte.x03) in
  (∃ st, runs (add_contact cs bob) bob_db (Ok ()) st ∧
    repr contact_space st (<[(ident Byte.x03, ident Byte.x02) := bob]> bob_book)) ∧
  get_contact cs bob_db (ident Byte.x02) = Ok None ∧
  (∃ st, runs (remove_contact cs (ident Byte.x02)) bob_db (Ok ()) st ∧
    repr contact_space st (delete (ident Byte.x03, ident Byte.x02) bob_book)) ∧
  (∃ l, list_contacts cs bob_db = Ok (snd <$> l) ∧ NoDup l.*1 ∧
    ∀ k c, (k, c) ∈ l ↔ k.1 = ident Byte.x03 ∧ bob_book !! k = Some c).
Proof.
  exact (contacts_refine (mkContactStore (ident Byte.x03)) bob_db bob_book bob (ident Byte.x02)
    (mem_with_good _) bob_repr).
Defined.
