(* ===== verification/Net.v ===== *)
(** * The network interface ([zero-network/src/error.rs], [client.rs], [lib.rs])

    [NetworkError] and the [GridClient] trait. A client's effects on the network are a state
    passed explicitly; an asynchronous call is one step of that state. *)

From Stdlib Require Import ZArith Lia.
From stdpp Require Import base tactics gmap strings sorting numbers countable list.
From S2P Require Import Prelude Bytes.

Inductive NetworkError : Type :=
| Io (error : string)
| MaxRetriesExceeded (sector_id : rstr) (attempts : u8)
| SubscriptionClosed
| Timeout
| NetOther (s : string).

#[export] Instance NetworkError_eq_dec : EqDecision NetworkError.
Proof. solve_decision. Defined.

Definition PROGRAM_ID : rstr := rstr_of "zero.chat.v1".

Abbreviation SectorBytes := bytes.

(** The trait: [stream] stands for the boxed stream a subscription returns. *)
Class GridClient : Type := {
  grid_state : Type;
  grid_stream : Type;
  publish : rstr → SectorBytes → io grid_state NetworkError ();
  subscribe : rstr → io grid_state NetworkError grid_stream;
  unsubscribe : rstr → io grid_state NetworkError ();
}.
