(* ===== verification/Dm.v ===== *)
(** * Direct messages ([zero-messaging/src/dm/])

    Types and identifiers ([types.rs], [mod.rs]), [DmService] ([service.rs]), the standalone
    paginator ([paginate.rs]) and receipts ([receipt.rs]). Clock readings and fresh UUIDs are
    arguments, one per reading in the source and in its order. *)

From Stdlib Require Import ZArith Lia.
From stdpp Require Import base tactics gmap strings sorting numbers countable list.
From S2P Require Import Prelude Bytes Store Mem Aad Db Outbox Contacts Net.
#[local] Open Scope nat_scope.

(** ** Identifiers *)

Record ConversationId : Type := mkConversationId { conv_id_0 : arr 32 }.
Record MessageId : Type := mkMessageId { message_id_0 : arr 16 }.

#[export] Instance conv_id_0_inj : Inj (=) (=) conv_id_0.
Proof. intros [] [] H; simpl in H; by subst. Qed.
#[export] Instance message_id_0_inj : Inj (=) (=) message_id_0.
Proof. intros [] [] H; simpl in H; by subst. Qed.
#[export] Instance ConversationId_eq_dec : EqDecision ConversationId.
Proof. solve_decision. Defined.
#[export] Instance MessageId_eq_dec : EqDecision MessageId.
Proof. solve_decision. Defined.
#[export] Program Instance ConversationId_countable : Countable ConversationId :=
  inj_countable' conv_id_0 mkConversationId _.
Next Obligation. by intros []. Qed.
#[export] Program Instance MessageId_countable : Countable MessageId :=
  inj_countable' message_id_0 mkMessageId _.
Next Obligation. by intros []. Qed.

(** [size_of::<Message>()], which the language leaves to the compiler. *)
Class MessageLayout : Type := { size_of_message : Z }.

(** [blake3::hash] *)
Class Blake3 : Type := { blake3_hash : bytes → arr 32 }.

(** [ConversationId::storage_key] *)
Definition storage_key (c : ConversationId) : bytes := blit "dm:" ++ arr_bytes (conv_id_0 c).

(** The buffer [derive] hashes: the two identities, smaller first. *)
Definition derive_input (a b : IdentityId) : bytes :=
  let '(first, second) :=
    match arr_cmp (identity_id_0 a) (identity_id_0 b) with
    | Gt => (identity_id_0 b, identity_id_0 a)
    | _ => (identity_id_0 a, identity_id_0 b)
    end in
  arr_bytes first ++ arr_bytes second.

(** [ConversationId::derive] *)
Definition derive `{Blake3} (a b : IdentityId) : ConversationId :=
  mkConversationId (blake3_hash (derive_input a b)).

(** [MessageId::new] *)
Definition MessageId_new (now_v7 : arr 16) : MessageId := mkMessageId now_v7.

(** ** Messages *)

Inductive MessageStatus : Type := Queued | Sent | Delivered | Read.

#[export] Instance MessageStatus_eq_dec : EqDecision MessageStatus.
Proof. solve_decision. Defined.

(** The derived order: declaration order of the variants. *)
Definition status_rank (s : MessageStatus) : nat :=
  match s with Queued => 0 | Sent => 1 | Delivered => 2 | Read => 3 end.

Definition is_valid_transition (from to : MessageStatus) : bool :=
  status_rank from <? status_rank to.

Record Message : Type := mkMessage {
  msg_id : MessageId;
  msg_conversation_id : ConversationId;
  msg_sender_identity : IdentityId;
  msg_sender_machine : MachineId;
  msg_text : rstr;
  msg_status : MessageStatus;
  msg_created_at_ms : u64;
  msg_status_updated_at_ms : u64;
}.

Record Conversation : Type := mkConversation {
  conv_conversation_id : ConversationId;
  conv_peer_identity : IdentityId;
  conv_last_sector : option SectorId;
}.

(** Declared by the source and used nowhere in it. *)
Record ConversationMeta : Type := mkConversationMeta {
  cm_conversation_id : ConversationId;
  cm_peer_identity : IdentityId;
  cm_last_message_at_ms : u64;
  cm_last_sector_id : option SectorId;
}.

Record DmSectorPayload : Type := mkDmSectorPayload {
  dsp_message_id : MessageId;
  dsp_conversation_id : ConversationId;
  dsp_sender_identity : IdentityId;
  dsp_sender_machine : MachineId;
  dsp_text : rstr;
  dsp_created_at_ms : u64;
}.

Record ReceiptPayload : Type := mkReceiptPayload {
  rp_message_id : MessageId;
  rp_conversation_id : ConversationId;
  rp_recipient_identity : IdentityId;
  rp_recipient_machine : MachineId;
  rp_status : MessageStatus;
  rp_timestamp_ms : u64;
}.

(** [impl Display for ConversationId] *)
Definition ConversationId_fmt (c : ConversationId) (f : rstr) : rstr :=
  foldl (λ f byte, f ++ hex_byte byte) f (arr_bytes (conv_id_0 c)).

Lemma ConversationId_fmt_inj f : Inj (=) (=) (λ c, ConversationId_fmt c f).
Proof.
  intros [a] [b]. unfold ConversationId_fmt. cbn [conv_id_0]. rewrite !hex_foldl.
  intros Heq%(inj _)%hex_inj. f_equal. by apply (inj arr_bytes).
Qed.

(** ** Keys of [CF_CHAINS] *)

Definition MSG_KEY_PREFIX : bytes := blit "dm_msg:".

Definition make_msg_key (c : ConversationId) (m : MessageId) : bytes :=
  MSG_KEY_PREFIX ++ arr_bytes (conv_id_0 c) ++ arr_bytes (message_id_0 m).

Definition make_msg_prefix (c : ConversationId) : bytes :=
  MSG_KEY_PREFIX ++ arr_bytes (conv_id_0 c).

#[global] Arguments storage_key : simpl never.
#[global] Arguments make_msg_key : simpl never.
#[global] Arguments make_msg_prefix : simpl never.

(** The loop of [increment_bytes] over the bytes from last to first; [true] when it
    returned inside the loop. *)
Fixpoint increment_loop (rev_v : bytes) : bytes * bool :=
  match rev_v with
  | [] => ([], false)
  | b :: rest =>
      if (byte_Z b <? 255)%Z then (Z_byte (byte_Z b + 1) :: rest, true)
      else let (rest', stop) := increment_loop rest in (Z_byte 0 :: rest', stop)
  end.

(** [increment_bytes] of [service.rs]: on overflow a leading byte is inserted. *)
Definition increment_bytes (v : bytes) : bytes :=
  let (r, stop) := increment_loop (reverse v) in
  if stop then reverse r else Z_byte 1 :: reverse r.

(** [increment_bytes] of [paginate.rs]: on overflow a trailing byte is pushed. *)
Definition paginate_increment_bytes (v : bytes) : bytes :=
  let (r, stop) := increment_loop (reverse v) in
  if stop then reverse r else reverse r ++ [Z_byte 1].

(** ** Errors and service *)

Section dm.
Context `{R : RocksDB} `{P : PostcardLib} `{B : Blake3}.
Context `{!Postcard OutboxEntry, !Postcard Contact, !Postcard Conversation, !Postcard Message,
          !Postcard DmSectorPayload, !Postcard ReceiptPayload} `{ML : MessageLayout}.

Inductive DmError : Type :=
| DmCrypto (e : CryptoError)
| DmStorage (e : StorageError)
| DmNetwork (e : NetworkError)
| DmContact (e : ContactError)
| UnknownConversation (id : ConversationId)
| InvalidStatusTransition (from to : MessageStatus)
| ContactNotFound (id : IdentityId)
| MessageNotFound (id : MessageId)
| DmCodec (s : string).

(** [DmService { db, identity, machine_id, contacts }] *)
Record DmService : Type := mkDmService {
  ds_identity : IdentityId;
  ds_machine_id : MachineId;
  ds_contacts : ContactStore;
}.

Definition DmService_new (identity : IdentityId) (machine_id : MachineId) (contacts : ContactStore)
    : DmService := mkDmService identity machine_id contacts.

Definition dm_codec (e : postcard_error) : DmError := DmCodec (postcard_error_string e).

Definition open_conversation (svc : DmService) (peer : IdentityId)
    : io DB DmError Conversation :=
  found ← reads (λ db, map_err DmContact (get_contact (ds_contacts svc) db peer));
  match found with
  | None => fails (ContactNotFound peer)
  | Some _ =>
      let conv_id := derive (ds_identity svc) peer in
      let key := storage_key conv_id in
      raw ← reads (λ db, map_err DmStorage (get_raw db CF_CHAINS key));
      match raw with
      | Some b => lift (map_err dm_codec (from_bytes b))
      | None =>
          let conv := mkConversation conv_id peer None in
          encoded ← lift (map_err dm_codec (to_vec conv));
          io_map_err DmStorage (put_raw CF_CHAINS key encoded);;
          mret conv
      end
  end.

Definition resume_conversation (db : DB) (cid : ConversationId) : result DmError Conversation :=
  let key := storage_key cid in
  found ← map_err DmStorage (get_raw db CF_CHAINS key);
  b ← ok_or found (UnknownConversation cid);
  map_err dm_codec (from_bytes b).

Definition save_conversation (conv : Conversation) : io DB DmError () :=
  let key := storage_key (conv_conversation_id conv) in
  encoded ← lift (map_err dm_codec (to_vec conv));
  io_map_err DmStorage (put_raw CF_CHAINS key encoded);;
  mret ().

Definition store_message (msg : Message) : io DB DmError () :=
  let key := make_msg_key (msg_conversation_id msg) (msg_id msg) in
  encoded ← lift (map_err dm_codec (to_vec msg));
  io_map_err DmStorage (put_raw CF_CHAINS key encoded);;
  mret ().

(** The body of the loop of [history] and of [paginate_messages]; their copies are the same
    text. *)
Definition page_step (prefix seek_key : bytes) (before : option MessageId) (limit : u64)
    (results : list Message) (item : result rocks_error (bytes * bytes))
    : result DmError (ctl (list Message)) :=
  '(k, v) ← map_err (λ e, DmCodec (rocks_error_string e)) item;
  if negb (starts_with k prefix) then Ok (Break results)
  else if bool_decide (is_Some before) && bool_decide (k = seek_key) then
    Ok (Continue results)
  else
    msg ← map_err dm_codec (from_bytes v);
    let results := results ++ [msg] in
    if (uval limit <=? Z.of_nat (length results))%Z then Ok (Break results)
    else Ok (Continue results).

Definition history (db : DB) (cid : ConversationId) (before : option MessageId) (limit : u64)
    : result (raised DmError) (list Message) :=
  map_err (Raised ∘ DmStorage) (cf_handle db CF_CHAINS);;
  let prefix := make_msg_prefix cid in
  let seek_key :=
    match before with
    | Some id => make_msg_key cid id
    | None => increment_bytes prefix
    end in
  let iter := DB_iterator_cf db CF_CHAINS (IterFrom seek_key Reverse) in
  vec_with_capacity size_of_message (uval limit);;
  map_err Raised (for_each (page_step prefix seek_key before limit) [] iter).

(** [paginate.rs] has its own copies of the functions that build keys. *)
Definition paginate_KEY_PREFIX : bytes := blit "dm_msg:".
Definition paginate_msg_prefix (c : ConversationId) : bytes :=
  paginate_KEY_PREFIX ++ arr_bytes (conv_id_0 c).
Definition paginate_msg_key (c : ConversationId) (m : MessageId) : bytes :=
  paginate_msg_prefix c ++ arr_bytes (message_id_0 m).

Lemma paginate_msg_key_eq c m : paginate_msg_key c m = make_msg_key c m.
Proof using. unfold paginate_msg_key, paginate_msg_prefix, make_msg_key. by rewrite <-(assoc_L (++)). Qed.

(** [paginate_messages] of [paginate.rs] *)
Definition paginate_messages (db : DB) (cid : ConversationId) (before : option MessageId)
    (limit : u64) : result (raised DmError) (list Message) :=
  if (uval limit =? 0)%Z then Ok []
  else
    map_err (Raised ∘ DmStorage) (cf_handle db CF_CHAINS);;
    let prefix := paginate_msg_prefix cid in
    let seek_key :=
      match before with
      | Some id => paginate_msg_key cid id
      | None => paginate_increment_bytes prefix
      end in
    let iter := DB_iterator_cf db CF_CHAINS (IterFrom seek_key Reverse) in
    vec_with_capacity size_of_message (uval limit);;
    map_err Raised (for_each (page_step prefix seek_key before limit) [] iter).

Definition get_message (db : DB) (cid : ConversationId) (mid : MessageId)
    : result DmError (option Message) :=
  let key := make_msg_key cid mid in
  map_err DmStorage (cf_handle db CF_CHAINS);;
  match DB_get_cf db CF_CHAINS key with
  | Ok (Some b) => msg ← map_err dm_codec (from_bytes b); Ok (Some msg)
  | Ok None => Ok None
  | Err e => Err (DmCodec (rocks_error_string e))
  end.

Definition update_status (cid : ConversationId) (mid : MessageId) (new_status : MessageStatus)
    (now : u64) : io DB DmError () :=
  found ← reads (λ db, get_message db cid mid);
  msg ← lift (ok_or found (MessageNotFound mid));
  if negb (is_valid_transition (msg_status msg) new_status) then
    fails (InvalidStatusTransition (msg_status msg) new_status)
  else
    let updated := mkMessage (msg_id msg) (msg_conversation_id msg) (msg_sender_identity msg)
      (msg_sender_machine msg) (msg_text msg) new_status (msg_created_at_ms msg) now in
    store_message updated;;
    mret ().

Definition process_receipt (receipt : ReceiptPayload) (now : u64) : io DB DmError () :=
  update_status (rp_conversation_id receipt) (rp_message_id receipt) (rp_status receipt) now.

Definition mark_read (svc : DmService) (cid : ConversationId) (mid : MessageId)
    (now_update now : u64) : io DB DmError ReceiptPayload :=
  update_status cid mid Read now_update;;
  mret (mkReceiptPayload mid cid (ds_identity svc) (ds_machine_id svc) Read now).

(** ** Receipts ([receipt.rs]) *)

Definition RECEIPT_SCHEMA_TAG : rstr := rstr_of "zero.receipt.v1".

Definition build_delivered_receipt (mid : MessageId) (cid : ConversationId)
    (recipient : IdentityId) (recipient_machine : MachineId) (now : u64) : ReceiptPayload :=
  mkReceiptPayload mid cid recipient recipient_machine Delivered now.

Definition build_read_receipt (mid : MessageId) (cid : ConversationId)
    (recipient : IdentityId) (recipient_machine : MachineId) (now : u64) : ReceiptPayload :=
  mkReceiptPayload mid cid recipient recipient_machine Read now.

Definition is_valid_receipt_status (s : MessageStatus) : bool :=
  match s with Delivered | Read => true | _ => false end.

Definition decode_receipt (b : bytes) : result DmError ReceiptPayload :=
  map_err dm_codec (from_bytes b).

Definition enqueue_receipt (outbox : Outbox) (receipt : ReceiptPayload) (uuid : arr 16)
    (now : u64) : io DB DmError SectorId :=
  payload_bytes ← lift (map_err dm_codec (to_vec receipt));
  let sector_id := SectorId_new uuid in
  let entry := mkOutboxEntry sector_id payload_bytes (umk 8 0) now now in
  io_map_err DmStorage (enqueue outbox entry);;
  mret sector_id.

Definition mark_read_and_emit (svc : DmService) (cid : ConversationId) (mid : MessageId)
    (outbox : Outbox) (now_update now uuid_now : u64) (uuid : arr 16)
    : io DB DmError ReceiptPayload :=
  receipt ← mark_read svc cid mid now_update now;
  enqueue_receipt outbox receipt uuid uuid_now;;
  mret receipt.

Definition send_text (svc : DmService) (cid : ConversationId) (text : rstr)
    (now : u64) (message_uuid sector_uuid : arr 16) : io DB DmError MessageId :=
  conv ← reads (λ db, resume_conversation db cid);
  let message_id := MessageId_new message_uuid in
  let sector_id := SectorId_new sector_uuid in
  let msg := mkMessage message_id cid (ds_identity svc) (ds_machine_id svc) text Queued now now in
  store_message msg;;
  let sector_payload :=
    mkDmSectorPayload message_id cid (ds_identity svc) (ds_machine_id svc) text now in
  payload_bytes ← lift (map_err dm_codec (to_vec sector_payload));
  let entry := mkOutboxEntry sector_id payload_bytes (umk 8 0) now now in
  io_map_err DmStorage (enqueue Outbox_new entry);;
  let conv := mkConversation (conv_conversation_id conv) (conv_peer_identity conv)
    (Some sector_id) in
  save_conversation conv;;
  mret message_id.

Definition acknowledge_sent (cid : ConversationId) (mid : MessageId) (now : u64)
    : io DB DmError () :=
  update_status cid mid Sent now.
End dm.

(** ** Key order *)

Lemma be_Z_snoc l b : be_Z (l ++ [b]) = (be_Z l * 256 + byte_Z b)%Z.
Proof. unfold be_Z. by rewrite foldl_app. Qed.

Lemma increment_loop_spec r :
  let (r', stop) := increment_loop r in
  length r' = length r ∧
  (stop = true → be_Z (reverse r') = (be_Z (reverse r) + 1)%Z) ∧
  (stop = false → be_Z (reverse r') = 0%Z ∧ Forall (λ b, byte_Z b = 255%Z) r).
Proof.
  induction r as [|b r IHr]; simpl; [by split_and!|].
  pose proof (byte_Z_range b) as Hb. destruct (Z.ltb_spec (byte_Z b) 255) as [Hlt|Hge].
  - split_and!; [done| |done]. intros _. rewrite !reverse_cons, !be_Z_snoc, byte_Z_of.
    rewrite Z.mod_small by lia. lia.
  - destruct (increment_loop r) as [r' stop]. destruct IHr as (Hl & Ht & Hf).
    split_and!; [simpl; by f_equal| |]; intros Hs.
    + rewrite !reverse_cons, !be_Z_snoc, byte_Z_of, Ht, Zmod_0_l by done. lia.
    + destruct (Hf Hs) as [H0 Hall]. rewrite reverse_cons, be_Z_snoc, byte_Z_of, H0.
      split; [done|]. constructor; [lia|done].
Qed.

(** Bytes that are not all 0xFF: the two variants add one and keep the length. *)
Lemma increment_bytes_spec v b :
  b ∈ v → (byte_Z b < 255)%Z →
  paginate_increment_bytes v = increment_bytes v ∧
  length (increment_bytes v) = length v ∧ be_Z (increment_bytes v) = (be_Z v + 1)%Z.
Proof.
  intros Hb Hlt. unfold increment_bytes, paginate_increment_bytes.
  pose proof (increment_loop_spec (reverse v)) as H.
  destruct (increment_loop (reverse v)) as [r stop]. destruct H as (Hl & Ht & Hf).
  destruct stop.
  - rewrite reverse_involutive in Ht. split_and!; [done| |by apply Ht].
    by rewrite length_reverse, Hl, length_reverse.
  - destruct (Hf eq_refl) as [_ Hall]. rewrite Forall_forall in Hall.
    specialize (Hall b (proj2 (elem_of_reverse _ _) Hb)). lia.
Qed.

Lemma msg_prefix_not_max c : ∃ b, b ∈ make_msg_prefix c ∧ (byte_Z b < 255)%Z.
Proof.
  exists (Z_byte 100). split; [|by vm_compute].
  unfold make_msg_prefix. apply elem_of_app. left. by apply list_elem_of_here.
Qed.

(** The upper bound used for the newest page: the next prefix. *)
Lemma next_prefix_spec c :
  paginate_increment_bytes (make_msg_prefix c) = increment_bytes (make_msg_prefix c) ∧
  length (increment_bytes (make_msg_prefix c)) = length (make_msg_prefix c) ∧
  be_Z (increment_bytes (make_msg_prefix c)) = (be_Z (make_msg_prefix c) + 1)%Z.
Proof. destruct (msg_prefix_not_max c) as (b & ? & ?). by apply increment_bytes_spec with b. Qed.

Lemma length_msg_prefix c : length (make_msg_prefix c) = 39.
Proof. unfold make_msg_prefix. by rewrite length_app, length_arr. Qed.

Lemma make_msg_key_prefix c m : make_msg_key c m = make_msg_prefix c ++ arr_bytes (message_id_0 m).
Proof. unfold make_msg_key, make_msg_prefix. by rewrite <-(assoc_L (++)). Qed.

Lemma make_msg_prefix_inj c c' : make_msg_prefix c = make_msg_prefix c' → c = c'.
Proof.
  unfold make_msg_prefix. intros H. apply app_inj_1 in H as [_ H]; [|done].
  by apply (inj conv_id_0), (inj arr_bytes).
Qed.

Lemma msg_prefix_iff c c' m : starts_with (make_msg_key c' m) (make_msg_prefix c) = true ↔ c' = c.
Proof.
  rewrite make_msg_key_prefix. split.
  - intros H. symmetry. apply make_msg_prefix_inj.
    eapply starts_with_eq_len; [|exact H]. by rewrite !length_msg_prefix.
  - intros ->. apply starts_with_app.
Qed.

Lemma conv_key_before c c' : bytes_cmp (storage_key c') (make_msg_prefix c) = Lt.
Proof. done. Qed.

Lemma conv_key_not_msg c c' : starts_with (storage_key c') (make_msg_prefix c) = false.
Proof. done. Qed.

(** A message key of another conversation that is not above the next prefix is below
    the prefix. *)
Lemma other_msg_key_before c c' m :
  c' ≠ c → bytes_cmp (make_msg_key c' m) (increment_bytes (make_msg_prefix c)) ≠ Gt →
  bytes_cmp (make_msg_key c' m) (make_msg_prefix c) = Lt.
Proof.
  intros Hne Hle. destruct (next_prefix_spec c) as (_ & Hlen & Hz).
  rewrite make_msg_key_prefix in Hle |- *.
  rewrite <-(app_nil_r (increment_bytes _)) in Hle. rewrite <-(app_nil_r (make_msg_prefix c)).
  rewrite bytes_cmp_app_len, be_Z_cmp in Hle
    by (rewrite ?Hlen, ?length_msg_prefix; done).
  rewrite bytes_cmp_app_len, be_Z_cmp by (rewrite ?length_msg_prefix; done).
  rewrite Hz in Hle.
  assert (be_Z (make_msg_prefix c') ≠ be_Z (make_msg_prefix c)) as Hz'.
  { intros He. apply Hne, make_msg_prefix_inj.
    apply bytes_cmp_eq. rewrite be_Z_cmp by by rewrite !length_msg_prefix.
    by rewrite He, Z.compare_refl. }
  destruct (Z.compare_spec (be_Z (make_msg_prefix c')) (be_Z (make_msg_prefix c))) as [?|?|?];
    [done|done|].
  destruct (Z.compare_spec (be_Z (make_msg_prefix c')) (be_Z (make_msg_prefix c) + 1))
    as [?|?|?]; try done; [|lia].
  by pose proof (length_arr (message_id_0 m)); destruct (arr_bytes (message_id_0 m)).
Qed.

(** ** The conversations and messages stored, as finite maps *)

Abbreviation conv_map := (gmap ConversationId Conversation).
Abbreviation msg_map := (gmap (ConversationId * MessageId) Message).

#[export] Instance storage_key_inj : Inj (=) (=) storage_key.
Proof.
  intros a b H. apply app_inj_1 in H as [_ H]; [|done].
  by apply (inj conv_id_0), (inj arr_bytes).
Qed.

Definition msg_key (k : ConversationId * MessageId) : bytes := make_msg_key k.1 k.2.

#[export] Instance msg_key_inj : Inj (=) (=) msg_key.
Proof.
  intros [c m] [c' m']. unfold msg_key. cbn [fst snd]. rewrite !make_msg_key_prefix. intros H.
  apply app_inj_1 in H as [H1 H2]; [|by rewrite !length_msg_prefix].
  apply make_msg_prefix_inj in H1 as ->. by apply (inj arr_bytes), (inj message_id_0) in H2 as ->.
Qed.

Definition conv_space : keyspace ConversationId :=
  KeySpace CF_CHAINS storage_key (λ b, starts_with b (blit "dm:")) _
    (λ c, starts_with_app (blit "dm:") _).

Definition msg_space : keyspace (ConversationId * MessageId) :=
  KeySpace CF_CHAINS msg_key (λ b, starts_with b MSG_KEY_PREFIX) _
    (λ k, starts_with_app MSG_KEY_PREFIX _).

Definition before_ok (before : option MessageId) (m : MessageId) : Prop :=
  match before with
  | Some id => arr_cmp (message_id_0 m) (message_id_0 id) = Lt
  | None => True
  end.

#[export] Instance before_ok_dec before m : Decision (before_ok before m).
Proof. destruct before; simpl; apply _. Defined.

Section dm_store.
Context `{ROk : RocksOk} `{P : PostcardLib}.
Context `{!Postcard Conversation, !PostcardOk Conversation, !Postcard Message, !PostcardOk Message}.
Implicit Types (C : conv_map) (M : msg_map) (db : DB) (st : store).

(** [CF_CHAINS] holds the conversations [C], the messages [M], and nothing else. *)
Definition chains_repr st C M : Prop :=
  repr conv_space st C ∧ repr msg_space st M ∧
  ∀ b v, st !! (CF_CHAINS, b) = Some v →
    ks_fam conv_space b = true ∨ ks_fam msg_space b = true.

(** The messages of a conversation below the cursor, newest id first. *)
Definition older M (c : ConversationId) (before : option MessageId)
    : list ((ConversationId * MessageId) * Message) :=
  reverse (entries msg_space (λ k, k.1 = c ∧ before_ok before k.2) M).

Definition seek (c : ConversationId) (before : option MessageId) : bytes :=
  match before with
  | Some id => make_msg_key c id
  | None => increment_bytes (make_msg_prefix c)
  end.

Lemma seek_prefix c k before :
  (∃ c', k = storage_key c') ∨ (∃ q, k = msg_key q) →
  bytes_cmp k (seek c before) ≠ Gt → starts_with k (make_msg_prefix c) = false →
  bytes_cmp k (make_msg_prefix c) = Lt.
Proof using.
  intros [[c' ->]|[[c' m] ->]] Hle Hn; [apply conv_key_before|].
  unfold msg_key in *. cbn [fst snd] in *.
  assert (c' ≠ c) as Hne.
  { intros ->. rewrite (proj2 (msg_prefix_iff c c m) eq_refl) in Hn. done. }
  destruct before as [id|]; cbn [seek] in Hle.
  - rewrite (make_msg_key_prefix c id), cmp_not_prefix in Hle by done.
    destruct (bytes_cmp _ _) eqn:Hc; [|done|done].
    apply bytes_cmp_eq in Hc. rewrite <-Hc in Hn.
    rewrite <-(app_nil_r (make_msg_key c' m)) in Hn at 1. by rewrite starts_with_app in Hn.
  - by apply other_msg_key_before.
Qed.

(** The messages of a conversation up to and including the cursor. *)
Definition upto (before : option MessageId) (m : MessageId) : Prop :=
  match before with
  | Some id => arr_cmp (message_id_0 m) (message_id_0 id) ≠ Gt
  | None => True
  end.

#[local] Instance upto_dec before m : Decision (upto before m).
Proof. destruct before; simpl; apply _. Defined.

Lemma below_seek c before m :
  bytes_cmp (make_msg_key c m) (seek c before) ≠ Gt ↔ upto before m.
Proof using.
  destruct before as [id|]; cbn [seek upto].
  - by rewrite !make_msg_key_prefix, bytes_cmp_app.
  - split; [done|]. intros _. destruct (next_prefix_spec c) as (_ & Hl & Hz).
    rewrite make_msg_key_prefix, <-(app_nil_r (increment_bytes _)).
    rewrite bytes_cmp_app_len, be_Z_cmp by (by rewrite Hl). rewrite Hz.
    assert ((be_Z (make_msg_prefix c) ?= be_Z (make_msg_prefix c) + 1)%Z = Lt) as ->; [|done].
    apply Z.compare_lt_iff. lia.
Qed.

(** What the reverse iterator yields: the conversation's messages, then foreign keys. *)
Lemma reverse_scan st C M c before :
  chains_repr st C M →
  ∃ rest, iter_select (IterFrom (seek c before) Reverse) (view st CF_CHAINS) =
      (stored msg_space <$> reverse (entries msg_space (λ k, k.1 = c ∧ upto before k.2) M)) ++ rest ∧
    Forall (λ kv, starts_with kv.1 (make_msg_prefix c) = false) rest.
Proof using All.
  intros (HC & HM & Hfam). simpl.
  set (l := filter (λ kv, bytes_cmp kv.1 (seek c before) ≠ Gt) (view st CF_CHAINS)).
  set (p := make_msg_prefix c).
  assert (∀ y, y ∈ l → starts_with y.1 p = false → bytes_cmp y.1 p = Lt) as Hlow.
  { intros [k v] [Hle Hin]%list_elem_of_filter. apply seek_prefix with before; [|done].
    apply elem_of_view in Hin. destruct (Hfam k v Hin) as [Hk|Hk].
    - left. by apply (proj2 HC k v).
    - right. by apply (proj2 HM k v). }
  rewrite (sorted_split (cmp_le key_cmp) (λ kv, starts_with kv.1 p = true) l).
  - rewrite reverse_app. eexists. split.
    + f_equal. rewrite fmap_reverse. f_equal. unfold l. rewrite list_filter_filter.
      rewrite <-(repr_filter msg_space st M
        (λ b, starts_with b p && bool_decide (bytes_cmp b (seek c before) ≠ Gt))); [|done| |].
      * apply list_filter_iff. intros kv.
        rewrite andb_true_iff, bool_decide_eq_true. tauto.
      * intros b [Hb _]%andb_true_iff. simpl.
        apply starts_with_iff in Hb as [r ->]. unfold p, make_msg_prefix.
        rewrite <-(assoc_L (++)). apply starts_with_app.
      * intros [c' m]. simpl. unfold msg_key. cbn [fst snd].
        rewrite andb_true_iff, bool_decide_eq_true, (msg_prefix_iff c c' m).
        split; [intros [-> H]|intros [-> H]]; (split; [done|]); by apply (below_seek c before m).
    + rewrite Forall_reverse, Forall_forall.
      intros kv [Hn _]%list_elem_of_filter. by apply not_true_is_false.
  - intros x y _ Hy Hx Hny Hle. apply not_true_is_false in Hny.
    specialize (Hlow y Hy Hny). apply starts_with_iff in Hx as [r Hr].
    apply Hle. unfold key_cmp. apply (cmp_lt_gt bytes_cmp). by rewrite Hr, cmp_not_prefix.
  - apply StronglySorted_filter, view_sorted.
Qed.

(** How many messages a page holds at most: the limit is tested after the first. *)
Definition page_size (limit : u64) : nat := Z.to_nat (Z.max 1 (uval limit)).

Lemma page_step_entry c before limit acc k v :
  k.1 = c →
  page_step (make_msg_prefix c) (seek c before) before limit acc
    (Ok (stored msg_space (k, v))) =
  if bool_decide (before = Some k.2) then Ok (Continue acc)
  else if (uval limit <=? Z.of_nat (length (acc ++ [v])))%Z then Ok (Break (acc ++ [v]))
  else Ok (Continue (acc ++ [v])).
Proof using PostcardOk1.
  intros Hk. destruct k as [c' m]. cbn [fst snd] in *. subst c'. unfold page_step, stored.
  cbn [fst snd map_err mbind result_bind ks_key msg_space]. unfold msg_key. cbn [fst snd].
  rewrite (proj2 (msg_prefix_iff c c m) eq_refl), from_bytes_enc.
  cbn [negb map_err]. destruct before as [id|]; cbn [seek].
  - destruct (decide (m = id)) as [->|Hne].
    + by rewrite !bool_decide_true by done.
    + rewrite (bool_decide_false (make_msg_key c m = _)), (bool_decide_false (Some id = _));
        [by rewrite andb_false_r|congruence|].
      intros H. apply Hne. by apply (inj msg_key (c, m) (c, id)) in H; simplify_eq.
  - by rewrite (bool_decide_false (None = Some m)).
Qed.

Lemma page_loop c before limit (E : list ((ConversationId * MessageId) * Message)) rest acc :
  Forall (λ x, x.1.1 = c) E →
  Forall (λ kv, starts_with kv.1 (make_msg_prefix c) = false) rest →
  length acc < page_size limit →
  for_each (page_step (make_msg_prefix c) (seek c before) before limit) acc
    (Ok <$> ((stored msg_space <$> E) ++ rest)) =
  Ok (acc ++ take (page_size limit - length acc)
               (snd <$> filter (λ x, before ≠ Some x.1.2) E)).
Proof using PostcardOk1.
  intros HE Hrest. revert acc. induction HE as [|[k v] E Hk HE IHE]; intros acc Hacc.
  - cbn. rewrite take_nil, app_nil_r. destruct rest as [|[k v] rest]; [done|].
    apply Forall_cons in Hrest as [Hk _]. cbn in Hk |- *. by rewrite Hk.
  - rewrite fmap_cons, <-app_comm_cons, fmap_cons. cbn [for_each].
    rewrite page_step_entry by done. rewrite filter_cons.
    case_bool_decide as Hb; [rewrite decide_False by tauto; by apply IHE|].
    rewrite decide_True, fmap_cons by done. rewrite length_app. cbn [length snd].
    unfold page_size in *.
    destruct (Z.leb_spec (uval limit) (Z.of_nat (length acc + 1))) as [Hl|Hl].
    + replace (Z.to_nat (Z.max 1 (uval limit)) - length acc) with 1 by lia. done.
    + rewrite IHE by (rewrite length_app; simpl; lia).
      rewrite length_app. cbn [length].
      replace (Z.to_nat (Z.max 1 (uval limit)) - length acc)
        with (S (Z.to_nat (Z.max 1 (uval limit)) - (length acc + 1))) by lia.
      rewrite firstn_cons. by rewrite <-(assoc_L (++)).
Qed.

Lemma older_filter M c before :
  filter (λ x, before ≠ Some x.1.2)
    (reverse (entries msg_space (λ k, k.1 = c ∧ upto before k.2) M)) = older M c before.
Proof using.
  unfold older. rewrite filter_reverse. f_equal.
  pose proof (entries_filter (V:=Message) msg_space (λ k, k.1 = c ∧ upto before k.2)
    (λ k, before ≠ Some k.2) M) as Hf.
  etransitivity; [exact Hf|]. clear Hf.
  apply entries_ext.
  intros [c' m]. cbn [fst snd]. destruct before as [id|]; simpl; [|naive_solver].
  split.
  - intros [[-> Hle] Hne]. split; [done|]. destruct (arr_cmp _ _) eqn:Hc; [|done..].
    apply arr_cmp_eq in Hc. destruct Hne. f_equal. symmetry. by apply (inj message_id_0).
  - intros [-> Hlt]. split; [split; [done|by rewrite Hlt]|]. intros [= ->].
    by rewrite (proj2 (arr_cmp_eq _ _) eq_refl) in Hlt.
Qed.
End dm_store.

(** ** What the operations do to the stored maps *)

Section dm_laws.
Context `{ROk : RocksOk} `{P : PostcardLib} `{B : Blake3}.
Context `{!Postcard Contact, !PostcardOk Contact, !Postcard OutboxEntry, !PostcardOk OutboxEntry,
          !Postcard Conversation, !PostcardOk Conversation, !Postcard Message,
          !PostcardOk Message, !Postcard DmSectorPayload, !PostcardOk DmSectorPayload,
          !Postcard ReceiptPayload, !PostcardOk ReceiptPayload}.
Implicit Types (C : conv_map) (M : msg_map) (O : outbox_map) (K : books) (db : DB) (st : store).

Lemma chains_insert_conv st C M c v :
  chains_repr st C M →
  chains_repr (<[(CF_CHAINS, storage_key c) := enc v]> st) (<[c := v]> C) M.
Proof using.
  intros (HC & HM & Hf). split_and!.
  - by apply (repr_insert conv_space).
  - apply repr_frame_insert; [|done]. by intros _.
  - intros b w [[[= <-] _]|[_ ?]]%lookup_insert_Some; [|by eauto].
    left. apply (ks_in conv_space).
Qed.

Lemma chains_insert_msg st C M k v :
  chains_repr st C M →
  chains_repr (<[(CF_CHAINS, msg_key k) := enc v]> st) C (<[k := v]> M).
Proof using.
  intros (HC & HM & Hf). split_and!.
  - apply repr_frame_insert; [|done]. by intros _.
  - by apply (repr_insert msg_space).
  - intros b w [[[= <-] _]|[_ ?]]%lookup_insert_Some; [|by eauto].
    right. apply (ks_in msg_space).
Qed.

Lemma chains_frame cf st st' C M :
  frame cf st st' → cf ≠ CF_CHAINS → chains_repr st C M → chains_repr st' C M.
Proof using.
  intros Hfr Hne (HC & HM & Hf). split_and!.
  - by eapply repr_frame; [exact Hfr|simpl; congruence|].
  - by eapply repr_frame; [exact Hfr|simpl; congruence|].
  - intros b v. rewrite Hfr by (simpl; congruence). apply Hf.
Qed.

(** A message is stored under its own conversation and id. *)
Definition msgs_wf M : Prop := ∀ k m, M !! k = Some m → k = (msg_conversation_id m, msg_id m).
Definition convs_wf C : Prop := ∀ c v, C !! c = Some v → c = conv_conversation_id v.

Definition own_key (m : Message) : ConversationId * MessageId :=
  (msg_conversation_id m, msg_id m).

Lemma msgs_wf_insert M m : msgs_wf M → msgs_wf (<[own_key m := m]> M).
Proof using. intros Hw k m' [[<- <-]|[_ ?]]%lookup_insert_Some; [done|by apply Hw]. Qed.

Lemma chains_get_msg db C M c m :
  good db → chains_repr (contents db) C M → get_message db c m = Ok (M !! (c, m)).
Proof using PostcardOk3.
  intros Hg (_ & [HM _] & _). unfold get_message. rewrite good_handle; [|done|cf_mem]. simpl.
  destruct Hg as [Hh Hc]. rewrite get_spec by (done || apply Hc; cf_mem).
  change (contents db !! (CF_CHAINS, make_msg_key c m))
    with (contents db !! (ks_cf msg_space, ks_key msg_space (c, m))).
  rewrite HM. destruct (M !! _); simpl; [by rewrite from_bytes_enc|done].
Qed.

Lemma store_message_run db C M m :
  good db → chains_repr (contents db) C M →
  ∃ st, runs (store_message m) db (Ok ()) st ∧ chains_repr st C (<[own_key m := m]> M) ∧
    frame CF_CHAINS (contents db) st.
Proof using PostcardOk3.
  intros Hg Hr. eexists. split_and!; [|by apply chains_insert_msg|apply frame_insert].
  unfold store_message. rewrite to_vec_enc.
  eapply runs_bind; [by apply runs_lift|]. intros db1 Hg1 <-.
  eapply runs_bind; [apply (runs_map_err _ _ _ (Ok ())), put_raw_good; [done|cf_mem]|].
  intros. by apply runs_done.
Qed.

Lemma get_chains_conv db C M c :
  good db → chains_repr (contents db) C M →
  get_raw db CF_CHAINS (storage_key c) = Ok (enc <$> C !! c).
Proof using.
  intros Hg (HC & _). apply (get_raw_space conv_space); [done|cf_mem|done].
Qed.

Lemma resume_conversation_run db C M c :
  good db → chains_repr (contents db) C M →
  resume_conversation db c = ok_or (C !! c) (UnknownConversation c).
Proof using PostcardOk2.
  intros Hg Hr. unfold resume_conversation. erewrite get_chains_conv by done.
  destruct (C !! c); simpl; [by rewrite from_bytes_enc|done].
Qed.

Lemma save_conversation_run db C M v :
  good db → chains_repr (contents db) C M →
  ∃ st, runs (save_conversation v) db (Ok ()) st ∧
    chains_repr st (<[conv_conversation_id v := v]> C) M ∧ frame CF_CHAINS (contents db) st.
Proof using PostcardOk2.
  intros Hg Hr. eexists. split_and!; [|by apply chains_insert_conv|apply frame_insert].
  unfold save_conversation. rewrite to_vec_enc.
  eapply runs_bind; [by apply runs_lift|]. intros db1 Hg1 <-.
  eapply runs_bind; [apply (runs_map_err _ _ _ (Ok ())), put_raw_good; [done|cf_mem]|].
  intros. by apply runs_done.
Qed.

Definition with_status (s : MessageStatus) (now : u64) (m : Message) : Message :=
  mkMessage (msg_id m) (msg_conversation_id m) (msg_sender_identity m) (msg_sender_machine m)
    (msg_text m) s (msg_created_at_ms m) now.

(** The specification of [update_status]. *)
Definition spec_update_status (c : ConversationId) (m : MessageId) (s : MessageStatus)
    (now : u64) M : msg_map * result DmError () :=
  match M !! (c, m) with
  | None => (M, Err (MessageNotFound m))
  | Some msg =>
      if status_rank (msg_status msg) <? status_rank s then
        (<[(c, m) := with_status s now msg]> M, Ok ())
      else (M, Err (InvalidStatusTransition (msg_status msg) s))
  end.

Lemma update_status_run db C M c m s now :
  good db → chains_repr (contents db) C M → msgs_wf M →
  ∃ st, runs (update_status c m s now) db (spec_update_status c m s now M).2 st ∧
    chains_repr st C (spec_update_status c m s now M).1 ∧ frame CF_CHAINS (contents db) st.
Proof using PostcardOk3.
  intros Hg Hr Hw. unfold spec_update_status, update_status.
  pose proof (chains_get_msg db C M c m Hg Hr) as Hget.
  destruct (M !! (c, m)) as [msg|] eqn:Hm; cbn [fst snd].
  - unfold is_valid_transition. destruct (_ <? _) eqn:Hv; cbn [fst snd].
    + pose proof (Hw _ _ Hm) as Hk. injection Hk as -> ->.
      destruct (store_message_run db C M (with_status s now msg) Hg Hr) as (st & Hs & Hr' & Hf).
      exists st. split_and!; [|done|done].
      eapply runs_bind_reads; [exact Hget|]. eapply runs_bind_lift; [done|]. cbv beta.
      rewrite Hv. eapply runs_bind; [exact Hs|]. intros. by apply runs_done.
    + apply runs_stay; [done| |by split]. unfold reads, lift, fails, mbind, io_bind.
      rewrite Hget. simpl. by rewrite Hv.
  - apply runs_stay; [done| |by split]. unfold reads, lift, mbind, io_bind. by rewrite Hget.
Qed.

(** ** The state of the messaging components and the specification of [DmService] *)

Record dm_state : Type := DmState {
  d_contacts : books;
  d_convs : conv_map;
  d_msgs : msg_map;
  d_outbox : outbox_map;
}.

Definition dm_repr st (S : dm_state) : Prop :=
  repr contact_space st (d_contacts S) ∧ chains_repr st (d_convs S) (d_msgs S) ∧
  repr outbox_space st (d_outbox S).

Definition dm_wf (S : dm_state) : Prop := msgs_wf (d_msgs S) ∧ convs_wf (d_convs S).

Lemma dm_chains st st' S C M :
  frame CF_CHAINS st st' → chains_repr st' C M → dm_repr st S →
  dm_repr st' (DmState (d_contacts S) C M (d_outbox S)).
Proof using.
  intros Hf Hr (HK & _ & HO). split_and!; [|done|]; by eapply repr_frame.
Qed.

Lemma dm_outbox st st' S O :
  frame CF_OUTBOX st st' → repr outbox_space st' O → dm_repr st S →
  dm_repr st' (DmState (d_contacts S) (d_convs S) (d_msgs S) O).
Proof using.
  intros Hf Hr (HK & HC & _). split_and!; [by eapply repr_frame|by eapply chains_frame|done].
Qed.

Definition set_msgs M (S : dm_state) : dm_state :=
  DmState (d_contacts S) (d_convs S) M (d_outbox S).
Lemma set_msgs_same (S : dm_state) : set_msgs (d_msgs S) S = S.
Proof using. by destruct S. Qed.
Definition set_convs C (S : dm_state) : dm_state :=
  DmState (d_contacts S) C (d_msgs S) (d_outbox S).
Definition set_outbox O (S : dm_state) : dm_state :=
  DmState (d_contacts S) (d_convs S) (d_msgs S) O.

Definition spec_open (svc : DmService) (peer : IdentityId) (S : dm_state)
    : dm_state * result DmError Conversation :=
  match d_contacts S !! (owner (ds_contacts svc), peer) with
  | None => (S, Err (ContactNotFound peer))
  | Some _ =>
      let c := derive (ds_identity svc) peer in
      match d_convs S !! c with
      | Some v => (S, Ok v)
      | None =>
          let v := mkConversation c peer None in
          (set_convs (<[c := v]> (d_convs S)) S, Ok v)
      end
  end.

Lemma open_conversation_run svc db S peer :
  good db → dm_repr (contents db) S →
  ∃ st, runs (open_conversation svc peer) db (spec_open svc peer S).2 st ∧
    dm_repr st (spec_open svc peer S).1.
Proof using PostcardOk0 PostcardOk2.
  intros Hg HS. pose proof HS as (HK & HC & HO). unfold spec_open, open_conversation.
  pose proof (get_contact_run (ds_contacts svc) db _ peer Hg HK) as Hc.
  destruct (d_contacts S !! _) as [k|] eqn:Hk; cbn [fst snd].
  - pose proof (get_chains_conv db _ _ (derive (ds_identity svc) peer) Hg HC) as Hget.
    destruct (d_convs S !! _) as [v|] eqn:Hv; cbn [fst snd] in *.
    + apply runs_stay; [done| |done]. unfold reads, lift, mbind, io_bind. rewrite Hc. simpl.
      rewrite Hget. simpl. by rewrite from_bytes_enc.
    + eexists. split; [|eapply dm_chains; [apply frame_insert|by apply chains_insert_conv|done]].
      eapply runs_bind_reads; [by rewrite Hc|]. cbv beta iota zeta.
      eapply runs_bind_reads; [by rewrite Hget|]. cbv beta iota zeta. simpl fmap.
      rewrite to_vec_enc. eapply runs_bind_lift; [done|].
      eapply runs_bind; [apply (runs_map_err _ _ _ (Ok ())), put_raw_good; [done|cf_mem]|].
      intros. by apply runs_done.
  - apply runs_stay; [done| |done]. unfold reads, fails, mbind, io_bind. by rewrite Hc.
Qed.

(** Enqueueing from a DM operation: the outbox map changes as specified. *)
Lemma enqueue_dm ob db S e :
  good db → dm_repr (contents db) S →
  ∃ st, runs (io_map_err DmStorage (enqueue ob e)) db
      (map_err (λ x, DmStorage (conc x)) (spec_enqueue (capacity ob) e (d_outbox S)).2) st ∧
    dm_repr st (set_outbox (spec_enqueue (capacity ob) e (d_outbox S)).1 S).
Proof using PostcardOk1.
  intros Hg HS. pose proof HS as (_ & _ & HO).
  pose proof (enqueue_run ob db (d_outbox S) e Hg HO) as He.
  destruct (spec_enqueue (capacity ob) e (d_outbox S)) as [O' r]. cbn [fst snd].
  destruct He as (st & Hs & Hr & Hf). exists st. split; [|by eapply dm_outbox].
  replace (map_err (λ x, DmStorage (conc x)) r) with (map_err DmStorage (map_err conc r))
    by by destruct r. by apply runs_map_err.
Qed.

Definition spec_send (svc : DmService) (cid : ConversationId) (text : rstr) (now : u64)
    (mu su : arr 16) (S : dm_state) : dm_state * result DmError MessageId :=
  match d_convs S !! cid with
  | None => (S, Err (UnknownConversation cid))
  | Some v =>
      let m := mkMessage (mkMessageId mu) cid (ds_identity svc) (ds_machine_id svc) text
        Queued now now in
      let S1 := set_msgs (<[(cid, mkMessageId mu) := m]> (d_msgs S)) S in
      let payload := mkDmSectorPayload (mkMessageId mu) cid (ds_identity svc)
        (ds_machine_id svc) text now in
      let e := mkOutboxEntry (mkSectorId su) (enc payload) (umk 8 0) now now in
      let (O', r) := spec_enqueue DEFAULT_OUTBOX_CAPACITY e (d_outbox S) in
      match r with
      | Err x => (S1, Err (DmStorage (conc x)))
      | Ok _ =>
          let v' := mkConversation (conv_conversation_id v) (conv_peer_identity v)
            (Some (mkSectorId su)) in
          (set_convs (<[cid := v']> (d_convs S)) (set_outbox O' S1), Ok (mkMessageId mu))
      end
  end.

Lemma spec_enqueue_err cap e O x : (spec_enqueue cap e O).2 = Err x → (spec_enqueue cap e O).1 = O.
Proof using. unfold spec_enqueue. by repeat case_match. Qed.

Lemma send_text_run svc db S cid text now mu su :
  good db → dm_repr (contents db) S → dm_wf S →
  ∃ st, runs (send_text svc cid text now mu su) db (spec_send svc cid text now mu su S).2 st ∧
    dm_repr st (spec_send svc cid text now mu su S).1.
Proof using PostcardOk1 PostcardOk2 PostcardOk3 PostcardOk4.
  intros Hg HS [_ Hcw]. pose proof HS as (_ & HC & _). unfold spec_send, send_text.
  pose proof (resume_conversation_run db _ _ cid Hg HC) as Hres.
  destruct (d_convs S !! cid) as [v|] eqn:Hv; simpl in Hres;
    [|apply runs_stay; [done|unfold reads, mbind, io_bind; by rewrite Hres|done]].
  apply (runs_reads_then _ _ _ _ v); [by rewrite Hres|]. cbv zeta.
  set (m := mkMessage _ _ _ _ _ _ _ _). set (S1 := set_msgs _ S).
  eapply (runs_then (λ st, dm_repr st S1)).
  { destruct (store_message_run db _ _ m Hg HC) as (st & ? & ? & ?).
    exists st. split; [done|]. by eapply dm_chains. }
  intros db1 Hg1 HS1. eapply runs_lift_then; [by rewrite to_vec_enc|].
  set (e := mkOutboxEntry _ _ _ _ _).
  change (mkOutboxEntry (mkSectorId su) _ (umk 8 0) now now) with e.
  pose proof (spec_enqueue_err DEFAULT_OUTBOX_CAPACITY e (d_outbox S)) as Herr.
  pose proof (enqueue_dm Outbox_new db1 S1 e Hg1 HS1) as Henq.
  change (d_outbox S1) with (d_outbox S) in Henq.
  change (capacity Outbox_new) with DEFAULT_OUTBOX_CAPACITY in Henq.
  destruct (spec_enqueue DEFAULT_OUTBOX_CAPACITY e (d_outbox S)) as [O' [[]|x]]; cbn [fst snd map_err] in *.
  - eapply runs_then; [exact Henq|]. intros db2 Hg2 HS2. pose proof HS2 as (_ & HC2 & _).
    set (v' := mkConversation (conv_conversation_id v) (conv_peer_identity v)
      (Some (mkSectorId su))).
    eapply (runs_then (λ st, dm_repr st
      (set_convs (<[cid := v']> (d_convs S)) (set_outbox O' S1)))).
    { destruct (save_conversation_run db2 _ _ v' Hg2 HC2) as (st & ? & HC3 & Hf3).
      change (conv_conversation_id v') with (conv_conversation_id v) in HC3.
      exists st. split; [done|]. rewrite <-(Hcw cid v Hv) in HC3.
      exact (dm_chains _ _ _ _ _ Hf3 HC3 HS2). }
    intros db3 Hg3 HS3. exact (runs_ret _ (mkMessageId mu) db3 Hg3 HS3).
  - apply runs_then_err. by rewrite (Herr x eq_refl) in Henq.
Qed.

Definition receipt_entry (r : ReceiptPayload) (uuid : arr 16) (now : u64) : OutboxEntry :=
  mkOutboxEntry (mkSectorId uuid) (enc r) (umk 8 0) now now.

Definition spec_enqueue_receipt (ob : Outbox) (r : ReceiptPayload) (uuid : arr 16) (now : u64)
    (S : dm_state) : dm_state * result DmError SectorId :=
  let (O', x) := spec_enqueue (capacity ob) (receipt_entry r uuid now) (d_outbox S) in
  (set_outbox O' S, match x with Ok _ => Ok (mkSectorId uuid) | Err e => Err (DmStorage (conc e)) end).

Lemma enqueue_receipt_run ob db S r uuid now :
  good db → dm_repr (contents db) S →
  ∃ st, runs (enqueue_receipt ob r uuid now) db (spec_enqueue_receipt ob r uuid now S).2 st ∧
    dm_repr st (spec_enqueue_receipt ob r uuid now S).1.
Proof using PostcardOk1 PostcardOk5.
  intros Hg HS. unfold spec_enqueue_receipt, enqueue_receipt.
  eapply runs_lift_then; [by rewrite to_vec_enc|]. cbv zeta.
  pose proof (enqueue_dm ob db S (receipt_entry r uuid now) Hg HS) as Henq.
  unfold receipt_entry, SectorId_new in *.
  destruct (spec_enqueue (capacity ob) _ (d_outbox S)) as [O' [[]|x]];
    cbn [fst snd map_err] in *.
  - eapply runs_then; [exact Henq|]. intros db1 Hg1 HS1.
    exact (runs_ret _ (mkSectorId uuid) db1 Hg1 HS1).
  - by apply runs_then_err.
Qed.

Definition spec_mark_read (svc : DmService) (c : ConversationId) (m : MessageId)
    (now_update now : u64) (S : dm_state) : dm_state * result DmError ReceiptPayload :=
  let (M', r) := spec_update_status c m Read now_update (d_msgs S) in
  (set_msgs M' S,
   match r with
   | Ok _ => Ok (mkReceiptPayload m c (ds_identity svc) (ds_machine_id svc) Read now)
   | Err e => Err e
   end).

Lemma update_status_dm db S c m s now :
  good db → dm_repr (contents db) S → dm_wf S →
  ∃ st, runs (update_status c m s now) db (spec_update_status c m s now (d_msgs S)).2 st ∧
    dm_repr st (set_msgs (spec_update_status c m s now (d_msgs S)).1 S).
Proof using PostcardOk3.
  intros Hg HS [Hw _]. pose proof HS as (_ & HC & _).
  destruct (update_status_run db _ _ c m s now Hg HC Hw) as (st & ? & ? & ?).
  exists st. split; [done|]. by eapply dm_chains.
Qed.

Lemma mark_read_run svc db S c m t1 t2 :
  good db → dm_repr (contents db) S → dm_wf S →
  ∃ st, runs (mark_read svc c m t1 t2) db (spec_mark_read svc c m t1 t2 S).2 st ∧
    dm_repr st (spec_mark_read svc c m t1 t2 S).1.
Proof using PostcardOk3.
  intros Hg HS Hw. unfold spec_mark_read, mark_read.
  pose proof (update_status_dm db S c m Read t1 Hg HS Hw) as Hu.
  destruct (spec_update_status c m Read t1 (d_msgs S)) as [M' [[]|e]]; cbn [fst snd] in *.
  - eapply runs_then; [exact Hu|]. intros db1 Hg1 HS1. exact (runs_ret _ _ db1 Hg1 HS1).
  - by apply runs_then_err.
Qed.

(** [mark_read_and_emit]: the status change stays even when the outbox refuses the receipt. *)
Definition spec_emit (svc : DmService) (c : ConversationId) (m : MessageId) (ob : Outbox)
    (t1 t2 t3 : u64) (uuid : arr 16) (S : dm_state) : dm_state * result DmError ReceiptPayload :=
  match spec_mark_read svc c m t1 t2 S with
  | (S1, Err e) => (S1, Err e)
  | (S1, Ok r) =>
      let (S2, x) := spec_enqueue_receipt ob r uuid t3 S1 in
      (S2, match x with Ok _ => Ok r | Err e => Err e end)
  end.

Lemma mark_read_and_emit_run svc db S c m ob t1 t2 t3 uuid :
  good db → dm_repr (contents db) S → dm_wf S →
  ∃ st, runs (mark_read_and_emit svc c m ob t1 t2 t3 uuid) db
      (spec_emit svc c m ob t1 t2 t3 uuid S).2 st ∧
    dm_repr st (spec_emit svc c m ob t1 t2 t3 uuid S).1.
Proof using PostcardOk1 PostcardOk3 PostcardOk5.
  intros Hg HS Hw. unfold spec_emit, mark_read_and_emit.
  pose proof (mark_read_run svc db S c m t1 t2 Hg HS Hw) as Hm.
  destruct (spec_mark_read svc c m t1 t2 S) as [S1 [r|e]]; cbn [fst snd] in *;
    [|by apply runs_then_err].
  eapply runs_then; [exact Hm|]. intros db1 Hg1 HS1.
  pose proof (enqueue_receipt_run ob db1 S1 r uuid t3 Hg1 HS1) as He.
  destruct (spec_enqueue_receipt ob r uuid t3 S1) as [S2 [i|e]]; cbn [fst snd] in *;
    [|by apply runs_then_err].
  eapply runs_then; [exact He|]. intros db2 Hg2 HS2. exact (runs_ret _ _ db2 Hg2 HS2).
Qed.

(** ** Invariants of the specification *)

Lemma dm_wf_update c m s now S :
  dm_wf S → dm_wf (set_msgs (spec_update_status c m s now (d_msgs S)).1 S).
Proof using.
  intros [Hm Hc]. split; [|done]. unfold spec_update_status. simpl.
  destruct (d_msgs S !! (c, m)) as [msg|] eqn:Hk; [|done].
  destruct (_ <? _); [|done]. simpl.
  intros k m' [[<- <-]|[_ ?]]%lookup_insert_Some; [|by apply Hm]. by apply (Hm (c, m) msg).
Qed.

Lemma dm_wf_send svc cid text now mu su S :
  dm_wf S → dm_wf (spec_send svc cid text now mu su S).1.
Proof using.
  intros [Hm Hc]. unfold spec_send. destruct (d_convs S !! cid) as [v|] eqn:Hv; [|done].
  set (m := mkMessage _ _ _ _ _ _ _ _).
  assert (msgs_wf (<[(cid, mkMessageId mu) := m]> (d_msgs S))) as Hm'
    by exact (msgs_wf_insert (d_msgs S) m Hm).
  destruct (spec_enqueue _ _ _) as [O' [[]|x]]; (split; [exact Hm'|]); [|done].
  intros c w. cbn [fst d_convs set_convs set_outbox set_msgs].
  intros [[<- <-]|[_ ?]]%lookup_insert_Some; [exact (Hc cid v Hv)|by apply Hc].
Qed.

(** One message, before and after: nothing but the status and its time has changed, and
    the status has not gone back. *)
Definition advanced (m m' : Message) : Prop :=
  with_status (msg_status m) (msg_status_updated_at_ms m) m' = m ∧
  status_rank (msg_status m) ≤ status_rank (msg_status m').

#[export] Instance advanced_refl : Reflexive advanced.
Proof using. intros []. split; [done|simpl; lia]. Qed.

#[export] Instance advanced_trans : Transitive advanced.
Proof using.
  intros [] [] [] [H1 L1] [H2 L2]. unfold advanced, with_status in *. cbn in *.
  injection H1; injection H2; intros; subst. split; [done|lia].
Qed.

Definition advanced_map M M' : Prop :=
  dom M' = dom M ∧ ∀ k m m', M !! k = Some m → M' !! k = Some m' → advanced m m'.

Lemma spec_update_advanced c m s now M :
  advanced_map M (spec_update_status c m s now M).1.
Proof using.
  assert (advanced_map M M) as Hrefl by (split; [done|]; intros; by simplify_eq).
  unfold spec_update_status.
  destruct (M !! (c, m)) as [msg|] eqn:Hm; [|done].
  destruct (Nat.ltb_spec (status_rank (msg_status msg)) (status_rank s)); [|done]. simpl.
  split; [rewrite dom_insert_lookup_L; [done|by eauto]|].
  intros k x x' Hx [[<- <-]|[_ Hx']]%lookup_insert_Some; [|by simplify_eq].
  simplify_eq. split; [by destruct msg|]. simpl. lia.
Qed.

Lemma advanced_map_trans M1 M2 M3 :
  advanced_map M1 M2 → advanced_map M2 M3 → advanced_map M1 M3.
Proof using.
  intros [H1 HA] [H2 HB]. split; [congruence|]. intros k m m' Hm Hm'.
  assert (is_Some (M2 !! k)) as [x Hx].
  { apply elem_of_dom. rewrite H1. by apply elem_of_dom. }
  etransitivity; [by eapply HA|by eapply HB].
Qed.
End dm_laws.

(** ** Properties *)

Lemma derive_input_comm a b : derive_input a b = derive_input b a.
Proof.
  unfold derive_input. rewrite (cmp_opp (cmp:=arr_cmp) (identity_id_0 a)).
  destruct (arr_cmp _ _) eqn:H; simpl; [|done..].
  by apply arr_cmp_eq in H as ->.
Qed.

Lemma derive_input_inj a b c d :
  derive_input a b = derive_input c d → (a = c ∧ b = d) ∨ (a = d ∧ b = c).
Proof.
  unfold derive_input. intros H.
  destruct (arr_cmp _ _), (arr_cmp _ _);
    (apply app_inj_1 in H as [H1 H2]; [|by rewrite !length_arr]);
    apply (inj arr_bytes), (inj identity_id_0) in H1;
    apply (inj arr_bytes), (inj identity_id_0) in H2; subst; auto.
Qed.

(** A conversation id does not depend on which side derives it, and two pairs of
    identities share an id only if they are the same pair or their two 32-byte inputs are
    a collision of the hash. *)
Lemma derive_sound `{Blake3} a b c d :
  derive a b = derive b a ∧
  (derive a b = derive c d →
   (a = c ∧ b = d) ∨ (a = d ∧ b = c) ∨
   (derive_input a b ≠ derive_input c d ∧
    blake3_hash (derive_input a b) = blake3_hash (derive_input c d))).
Proof.
  split; [unfold derive; by rewrite derive_input_comm|].
  intros [= Hh]. destruct (decide (derive_input a b = derive_input c d)) as [Heq|Hne].
  - destruct (derive_input_inj a b c d Heq); auto.
  - auto.
Qed.

Lemma older_sorted `{PostcardLib} (M : msg_map) c before :
  StronglySorted (λ x y, arr_cmp (message_id_0 y.1.2) (message_id_0 x.1.2) = Lt)
    (older M c before) ∧
  ∀ k m, (k, m) ∈ older M c before ↔ k.1 = c ∧ before_ok before k.2 ∧ M !! k = Some m.
Proof.
  split.
  - unfold older.
    pose proof (entries_sorted msg_space (λ k, k.1 = c ∧ before_ok before k.2) M) as Hs.
    pose proof (entries_keys msg_space (λ k, k.1 = c ∧ before_ok before k.2) M) as Hn.
    assert (∀ x, x ∈ entries msg_space (λ k, k.1 = c ∧ before_ok before k.2) M → x.1.1 = c) as Hc.
    { intros [k m] [[? _] _]%elem_of_entries. done. }
    revert Hs Hn Hc. generalize (entries msg_space (λ k, k.1 = c ∧ before_ok before k.2) M).
    intros l. induction 1 as [|x l Hl IHl Hx]; intros Hn Hc; [constructor|].
    apply NoDup_cons in Hn as [Hnin Hn]. rewrite reverse_cons.
    apply StronglySorted_app. split_and!;
      [|apply IHl; [done|]; intros; apply Hc; set_solver|by repeat constructor].
    intros y z Hy Hz. apply list_elem_of_singleton in Hz as ->. rewrite elem_of_reverse in Hy.
    rewrite Forall_forall in Hx. specialize (Hx y Hy).
    pose proof (Hc x (list_elem_of_here _ _)) as Hcx.
    pose proof (Hc y (list_elem_of_further _ _ _ Hy)) as Hcy.
    destruct x as [[cx mx] vx], y as [[cy my] vy]. cbn [fst snd] in *. subst cx cy.
    unfold cmp_le, entry_cmp in Hx. cbn [fst snd ks_key msg_space] in Hx.
    unfold msg_key in Hx. cbn [fst snd] in Hx.
    rewrite !make_msg_key_prefix, bytes_cmp_app in Hx. unfold arr_cmp.
    destruct (bytes_cmp _ _) eqn:He; [|done|done].
    apply bytes_cmp_eq, (inj arr_bytes), (inj message_id_0) in He as ->.
    destruct Hnin. apply list_elem_of_fmap. by exists ((c, my), vy).
  - intros k m. unfold older. rewrite elem_of_reverse.
    rewrite (elem_of_entries msg_space (λ k, k.1 = c ∧ before_ok before k.2)). tauto.
Qed.

Lemma older_below `{PostcardLib} (M : msg_map) c before id :
  before_ok before id →
  filter (λ x : (ConversationId * MessageId) * Message, before_ok (Some id) x.1.2)
    (older M c before) = older M c (Some id).
Proof.
  intros Hid. unfold older. rewrite filter_reverse. f_equal.
  pose proof (entries_filter (V:=Message) msg_space (λ k, k.1 = c ∧ before_ok before k.2)
    (λ k, before_ok (Some id) k.2) M) as Hf.
  etransitivity; [exact Hf|]. clear Hf. apply entries_ext.
  intros [c' m]. cbn [fst snd before_ok]. split; [tauto|]. intros [-> Hm].
  split_and!; [done| |done]. destruct before as [b|]; [|done]. simpl in *.
  assert (arr_cmp (message_id_0 m) (message_id_0 b) ≠ Gt) as Hle.
  { eapply cmp_trans with (message_id_0 id); by rewrite ?Hm, ?Hid. }
  destruct (arr_cmp (message_id_0 m) (message_id_0 b)) eqn:He; [|done|done].
  apply arr_cmp_eq in He. rewrite He in Hm.
  pose proof (cmp_opp (cmp:=arr_cmp) (message_id_0 id) (message_id_0 b)) as Ho.
  rewrite Hm, Hid in Ho. done.
Qed.

(** The page after the one that ends with [x]. *)
Lemma older_next `{PostcardLib} (M : msg_map) c before l1 x l2 :
  older M c before = l1 ++ x :: l2 → older M c (Some x.1.2) = l2.
Proof.
  intros Hold. destruct (older_sorted M c before) as [Hs Hin].
  assert (x ∈ older M c before) as Hx by (rewrite Hold; set_solver).
  destruct x as [k m]. apply Hin in Hx as (_ & Hb & _).
  cbn [fst]. rewrite <-(older_below M c before k.2) by done. rewrite Hold, filter_app.
  rewrite Hold in Hs. cbn [fst].
  rewrite (filter_none _ l1), (filter_cons_False _ (k, m)), (filter_all _ l2); [done| | |].
  - apply StronglySorted_app_1_r in Hs. apply StronglySorted_cons in Hs as [Hs _]. exact Hs.
  - simpl. rewrite cmp_refl. done.
  - apply Forall_forall. intros y Hy Hlt. simpl in Hlt.
    pose proof (StronglySorted_app_1_elem_of _ _ _ y (k, m) Hs Hy (list_elem_of_here _ _)) as Hgt.
    cbn [fst snd] in Hgt. rewrite (cmp_opp (cmp:=arr_cmp) (message_id_0 y.1.2)) in Hgt.
    by rewrite Hlt in Hgt.
Qed.

Section dm_props.
Context `{ROk : RocksOk} `{P : PostcardLib} `{B : Blake3}.
Context `{!Postcard Contact, !PostcardOk Contact, !Postcard OutboxEntry, !PostcardOk OutboxEntry,
          !Postcard Conversation, !PostcardOk Conversation, !Postcard Message,
          !PostcardOk Message, !Postcard DmSectorPayload, !PostcardOk DmSectorPayload,
          !Postcard ReceiptPayload, !PostcardOk ReceiptPayload} `{ML : MessageLayout}.
Implicit Types (C : conv_map) (M : msg_map) (db : DB).

(** A vector for this many messages can be asked for. *)
Definition reservable (limit : u64) : bool := vec_fits size_of_message (uval limit).

Lemma history_run db C M c before limit :
  good db → chains_repr (contents db) C M →
  Dm.history db c before limit =
    if reservable limit then Ok (take (page_size limit) (snd <$> older M c before))
    else Err Panicked.
Proof using PostcardOk2 PostcardOk3.
  intros Hg Hr. unfold Dm.history. rewrite good_handle; [|done|cf_mem].
  cbn [map_err mbind result_bind]. unfold vec_with_capacity. fold (reservable limit).
  destruct (reservable limit); [|done]. cbn [mbind result_bind]. fold (seek c before).
  destruct (reverse_scan (contents db) C M c before Hr) as (rest & Hsel & Hrest).
  destruct Hg as [Hh Hc]. rewrite iterator_spec by (done || apply Hc; cf_mem).
  rewrite Hsel, page_loop; [|..|unfold page_size; cbn [length]; lia].
  - by rewrite older_filter, Nat.sub_0_r.
  - rewrite Forall_reverse, Forall_forall.
    intros [k m] Hin.
    by apply (elem_of_entries msg_space (λ k, k.1 = c ∧ upto before k.2)) in Hin as [[? _] _].
  - done.
Qed.

(** C12: on a working database, let [l] be the messages of the conversation strictly below the
    cursor if there is one, newest id first. [history] returns the first [limit] of them; a
    limit of zero, which is tested after the first message is taken, yields that one message
    as a limit of one does; and a limit for which no vector can be asked for, its bytes beyond
    [isize::MAX], panics whatever is stored. *)
Theorem history_spec db C M c before limit :
  good db → chains_repr (contents db) C M →
  ∃ l : list ((ConversationId * MessageId) * Message),
    StronglySorted (λ x y, arr_cmp (message_id_0 y.1.2) (message_id_0 x.1.2) = Lt) l ∧
    (∀ k m, (k, m) ∈ l ↔ k.1 = c ∧ before_ok before k.2 ∧ M !! k = Some m) ∧
    ((0 < uval limit)%Z → (uval limit * size_of_message <= 2 ^ 63 - 1)%Z →
       Dm.history db c before limit = Ok (take (Z.to_nat (uval limit)) (snd <$> l))) ∧
    (uval limit = 0%Z → Dm.history db c before limit = Ok (take 1 (snd <$> l))) ∧
    ((2 ^ 63 - 1 < uval limit * size_of_message)%Z →
       Dm.history db c before limit = Err Panicked).
Proof using PostcardOk2 PostcardOk3.
  intros Hg Hr. exists (older M c before). destruct (older_sorted M c before) as [Hs Hin].
  rewrite (history_run db C M c before limit Hg Hr). unfold reservable, vec_fits, page_size.
  split_and!; [done|done|..].
  - intros Hpos Hfit. rewrite (proj2 (Z.leb_le _ _) Hfit). by rewrite Z.max_r by lia.
  - intros ->. done.
  - intros Hbig. by rewrite (proj2 (Z.leb_gt _ _) Hbig).
Qed.

(** C39: the standalone paginator agrees with [history] on every database, cursor and
    positive limit, although it increments the prefix with another overflow rule; with
    limit zero it returns nothing. *)
Theorem paginate_is_history db c before limit :
  paginate_messages db c before limit =
    if (uval limit =? 0)%Z then Ok [] else Dm.history db c before limit.
Proof using.
  unfold paginate_messages, Dm.history. destruct (uval limit =? 0)%Z; [done|].
  change paginate_msg_prefix with make_msg_prefix.
  by destruct before as [id|]; rewrite ?paginate_msg_key_eq, ?(proj1 (next_prefix_spec c)).
Qed.

(** The client loop of the documentation of [history]: each call passes the id of the last
    message of the previous page. *)
Fixpoint all_pages (fuel : nat) db c (before : option MessageId) (limit : u64)
    : result (raised DmError) (list Message) :=
  match fuel with
  | 0 => Ok []
  | S fuel' =>
      page ← Dm.history db c before limit;
      match last page with
      | None => Ok []
      | Some m => rest ← all_pages fuel' db c (Some (msg_id m)) limit; Ok (page ++ rest)
      end
  end.

(** C33: successive pages are contiguous and do not overlap: paging through a conversation
    with any limit that [history] takes yields each of its messages once, newest first; with
    a limit it panics on, so does the loop. *)
Theorem pages_cover db C M c before limit fuel :
  good db → chains_repr (contents db) C M → msgs_wf M →
  length (older M c before) < fuel →
  all_pages fuel db c before limit =
    if reservable limit then Ok (snd <$> older M c before) else Err Panicked.
Proof using PostcardOk2 PostcardOk3.
  intros Hg Hr Hw. destruct (reservable limit) eqn:Hres.
  2:{ destruct fuel; [lia|]. intros _. cbn [all_pages]. by rewrite (history_run db C M), Hres. }
  revert before. induction fuel as [|fuel IHf]; intros before Hf; [lia|].
  cbn [all_pages]. rewrite (history_run db C M) by done. rewrite Hres. cbn [mbind result_bind].
  rewrite <-fmap_take.
  destruct (older M c before) as [|x l] eqn:Hold; [by rewrite take_nil|].
  assert (1 ≤ page_size limit) as Hpos by (unfold page_size; lia).
  set (n := page_size limit) in *. rewrite fmap_last.
  destruct (last (take n (x :: l))) as [y|] eqn:Hl.
  2:{ apply last_None in Hl. destruct n eqn:Hn; [lia|done]. }
  simpl option_map. apply last_Some in Hl as [l1 Hl1].
  assert (older M c before = l1 ++ y :: drop n (x :: l)) as Hsplit.
  { rewrite Hold, <-(take_drop n (x :: l)) at 1. rewrite Hl1. by rewrite <-(assoc_L (++)). }
  assert (msg_id y.2 = y.1.2) as Hid.
  { destruct (older_sorted M c before) as [_ Hin]. destruct y as [k m].
    assert ((k, m) ∈ older M c before) as Hk by (rewrite Hsplit; apply elem_of_app; right; apply list_elem_of_here).
    apply Hin in Hk as (_ & _ & Hk). by rewrite (Hw k m Hk). }
  cbn [fmap option_fmap option_map]. rewrite Hid.
  pose proof (older_next M c before l1 y _ Hsplit) as Hnext.
  rewrite IHf; rewrite Hnext; cbn [mbind result_bind].
  - by rewrite <-fmap_app, take_drop.
  - rewrite length_drop. cbn [length] in Hf |- *. lia.
Qed.

(** Opening a conversation requires the peer to be a contact, creates it once, and
    returns the stored conversation ever after without writing. *)
Lemma open_conversation_spec svc db (S : dm_state) peer :
  good db → dm_repr (contents db) S →
  (∃ st, runs (open_conversation svc peer) db (spec_open svc peer S).2 st ∧
     dm_repr st (spec_open svc peer S).1) ∧
  (is_ok (spec_open svc peer S).2 = true ↔
     is_Some (d_contacts S !! (owner (ds_contacts svc), peer))) ∧
  ∀ v, (spec_open svc peer S).2 = Ok v →
    spec_open svc peer (spec_open svc peer S).1 = ((spec_open svc peer S).1, Ok v).
Proof using PostcardOk0 PostcardOk2.
  intros Hg HS. split_and!; [by apply open_conversation_run| |]; unfold spec_open.
  - destruct (d_contacts S !! _) eqn:Hk; [|split; [done|by intros [??]]].
    destruct (d_convs S !! _); split; eauto.
  - intros v. destruct (d_contacts S !! _) eqn:Hk; [|done].
    destruct (d_convs S !! _) eqn:Hv; cbn; intros [= <-]; rewrite ?Hk, ?Hv; [done|].
    by rewrite lookup_insert_eq.
Qed.

(** [send_text] fails on an unknown conversation without writing; otherwise it stores the
    message as Queued and, if the outbox accepts the payload, one entry for it and the new
    last sector; if the outbox is full it reports that, and the message stays stored. *)
Lemma send_text_spec svc db (S : dm_state) cid text now mu su :
  good db → dm_repr (contents db) S → dm_wf S →
  ∃ st, runs (send_text svc cid text now mu su) db (spec_send svc cid text now mu su S).2 st ∧
    dm_repr st (spec_send svc cid text now mu su S).1 ∧
    dm_wf (spec_send svc cid text now mu su S).1.
Proof using PostcardOk1 PostcardOk2 PostcardOk3 PostcardOk4.
  intros Hg HS Hw. destruct (send_text_run svc db S cid text now mu su Hg HS Hw) as (st & ? & ?).
  exists st. split_and!; [done|done|by apply dm_wf_send].
Qed.

(** C28: a receipt that does not fit is lost. When the outbox is full, [mark_read_and_emit] reports
    it and has made the message Read all the same; from then on every retry, with whatever
    outbox, is refused as a transition from Read to Read and changes nothing: no receipt is
    ever queued. *)
Theorem receipt_lost svc db (S : dm_state) c m ob t1 t2 t3 uuid msg :
  good db → dm_repr (contents db) S → dm_wf S →
  d_msgs S !! (c, m) = Some msg → is_valid_transition (msg_status msg) Read = true →
  d_outbox S !! mkSectorId uuid = None → capacity ob ≤ size (d_outbox S) →
  let S' := set_msgs (<[(c, m) := with_status Read t1 msg]> (d_msgs S)) S in
  ∃ db', mark_read_and_emit svc c m ob t1 t2 t3 uuid db = (db', Err (DmStorage OutboxFull)) ∧
    dm_repr (contents db') S' ∧
    ∀ ob' u1 u2 u3 uuid', ∃ db'',
      mark_read_and_emit svc c m ob' u1 u2 u3 uuid' db' = (db'', Err (InvalidStatusTransition Read Read)) ∧
      dm_repr (contents db'') S'.
Proof using PostcardOk1 PostcardOk3 PostcardOk5.
  intros Hg HS Hw Hm Hv Hu Hcap S'.
  destruct (mark_read_and_emit_run svc db S c m ob t1 t2 t3 uuid Hg HS Hw) as (st & (db' & Hrun & Hg' & <-) & HS').
  pose proof (dm_wf_update c m Read t1 S Hw) as Hw'.
  unfold is_valid_transition in Hv.
  assert (spec_update_status c m Read t1 (d_msgs S) = (d_msgs S', Ok ())) as Hupd
    by (unfold spec_update_status; by rewrite Hm, Hv).
  assert (spec_emit svc c m ob t1 t2 t3 uuid S = (S', Err (DmStorage OutboxFull))) as Hspec.
  { unfold spec_emit, spec_mark_read. rewrite Hupd. unfold spec_enqueue_receipt, spec_enqueue, receipt_entry.
    cbn [oe_sector_id set_msgs d_outbox]. rewrite Hu.
    by destruct (Nat.leb_spec (capacity ob) (size (d_outbox S))); [|lia]. }
  rewrite Hspec in Hrun, HS'. rewrite Hupd in Hw'. cbn [fst snd] in *.
  exists db'. split_and!; [done|done|]. intros ob' u1 u2 u3 uuid'.
  destruct (mark_read_and_emit_run svc db' S' c m ob' u1 u2 u3 uuid' Hg' HS' Hw')
    as (st & (db'' & Hrun' & _ & <-) & HS'').
  assert (spec_emit svc c m ob' u1 u2 u3 uuid' S' = (S', Err (InvalidStatusTransition Read Read))) as Hspec'.
  { unfold spec_emit, spec_mark_read, spec_update_status. unfold S' at 1. cbn [set_msgs d_msgs].
    rewrite lookup_insert_eq. done. }
  rewrite Hspec' in Hrun', HS''. by exists db''.
Qed.

(** A request to change a status: [update_status], [process_receipt] and
    [acknowledge_sent] are such requests. *)
Definition status_request : Type := ConversationId * MessageId * MessageStatus * u64.

Definition run_request (q : status_request) : io DB DmError () :=
  let '(c, m, s, now) := q in update_status c m s now.
Definition spec_request (q : status_request) : io msg_map DmError () :=
  λ M, let '(c, m, s, now) := q in spec_update_status c m s now M.

(** C25: whatever sequence of status changes, receipts and acknowledgements is applied, each
    succeeds exactly when it moves its message strictly forward; no message is added, lost
    or altered otherwise, and no status ever goes back. *)
Theorem status_only_advances (S : dm_state) db (qs : list status_request) :
  good db → dm_repr (contents db) S → dm_wf S →
  let (M', rs) := Prelude.history spec_request qs (d_msgs S) in
  ∃ db', Prelude.history run_request qs db = (db', rs) ∧ good db' ∧
    dm_repr (contents db') (set_msgs M' S) ∧ advanced_map (d_msgs S) M'.
Proof using PostcardOk3.
  intros Hg HS Hw.
  destruct (history_sim run_request spec_request id
    (λ db M, good db ∧ dm_repr (contents db) (set_msgs M S) ∧ dm_wf (set_msgs M S) ∧
       advanced_map (d_msgs S) M)) with (ops := qs) (s := db) (t := d_msgs S)
    as [(Hg' & HS' & Hw' & Ha) Hrs].
  - intros [[[c m] s] now] db1 M1 (Hg1 & HS1 & Hw1 & Ha1).
    destruct (update_status_dm db1 (set_msgs M1 S) c m s now Hg1 HS1 Hw1)
      as (st & (db2 & Hrun & Hg2 & <-) & HS2).
    unfold run_request, spec_request. rewrite Hrun. cbn [fst snd d_msgs set_msgs] in *.
    split; [|by destruct (spec_update_status _ _ _ _ _) as [? []]].
    split_and!; [done|done|exact (dm_wf_update c m s now (set_msgs M1 S) Hw1)|].
    eapply advanced_map_trans; [exact Ha1|]. apply spec_update_advanced.
  - rewrite set_msgs_same. split_and!; [done..|].
    split; [done|]. intros. simplify_eq. reflexivity.
  - destruct (Prelude.history spec_request qs (d_msgs S)) as [M' rs].
    destruct (Prelude.history run_request qs db) as [db' rs']. cbn [fst snd] in *.
    exists db'. split_and!; try done. by rewrite Hrs, map_err_id.
Qed.
End dm_props.

(** ** Witnesses *)

#[export] Instance ser_ConversationId : Ser ConversationId :=
  ser_iso conv_id_0 mkConversationId (λ a, match a with mkConversationId _ => eq_refl end).
#[export] Instance ser_MessageId : Ser MessageId :=
  ser_iso message_id_0 mkMessageId (λ a, match a with mkMessageId _ => eq_refl end).

Definition status_of (n : Z) : MessageStatus :=
  if (n =? 0)%Z then Queued else if (n =? 1)%Z then Sent else if (n =? 2)%Z then Delivered else Read.
#[export] Instance ser_MessageStatus : Ser MessageStatus :=
  ser_iso (λ s, umk 8 (Z.of_nat (status_rank s))) (λ x, status_of (uval x))
    (λ s, match s with Queued => eq_refl | Sent => eq_refl | Delivered => eq_refl | Read => eq_refl end).

Definition ser_Message : Ser Message :=
  ser_iso (λ m, (msg_id m, (msg_conversation_id m, (msg_sender_identity m, (msg_sender_machine m,
                 (msg_text m, (msg_status m, (msg_created_at_ms m, msg_status_updated_at_ms m))))))))
    (λ p, let '(a, (b, (c, (d, (e, (f, (g, h))))))) := p in mkMessage a b c d e f g h)
    (λ m, match m with mkMessage _ _ _ _ _ _ _ _ => eq_refl end).
Definition ser_Conversation : Ser Conversation :=
  ser_iso (λ v, (conv_conversation_id v, (conv_peer_identity v, conv_last_sector v)))
    (λ p, let '(a, (b, c)) := p in mkConversation a b c)
    (λ v, match v with mkConversation _ _ _ => eq_refl end).
Definition ser_DmSectorPayload : Ser DmSectorPayload :=
  ser_iso (λ m, (dsp_message_id m, (dsp_conversation_id m, (dsp_sender_identity m,
                 (dsp_sender_machine m, (dsp_text m, dsp_created_at_ms m))))))
    (λ p, let '(a, (b, (c, (d, (e, f))))) := p in mkDmSectorPayload a b c d e f)
    (λ m, match m with mkDmSectorPayload _ _ _ _ _ _ => eq_refl end).
Definition ser_ReceiptPayload : Ser ReceiptPayload :=
  ser_iso (λ m, (rp_message_id m, (rp_conversation_id m, (rp_recipient_identity m,
                 (rp_recipient_machine m, (rp_status m, rp_timestamp_ms m))))))
    (λ p, let '(a, (b, (c, (d, (e, f))))) := p in mkReceiptPayload a b c d e f)
    (λ m, match m with mkReceiptPayload _ _ _ _ _ _ => eq_refl end).

Definition mem_message : Postcard Message := @mem_postcard _ ser_Message.
Definition mem_message_ok : @PostcardOk _ Message mem_message := @mem_postcard_ok _ ser_Message.
Definition mem_conversation : Postcard Conversation := @mem_postcard _ ser_Conversation.
Definition mem_conversation_ok : @PostcardOk _ Conversation mem_conversation :=
  @mem_postcard_ok _ ser_Conversation.
Definition mem_dm_payload : Postcard DmSectorPayload := @mem_postcard _ ser_DmSectorPayload.
Definition mem_dm_payload_ok : @PostcardOk _ DmSectorPayload mem_dm_payload :=
  @mem_postcard_ok _ ser_DmSectorPayload.
Definition mem_receipt : Postcard ReceiptPayload := @mem_postcard _ ser_ReceiptPayload.
Definition mem_receipt_ok : @PostcardOk _ ReceiptPayload mem_receipt :=
  @mem_postcard_ok _ ser_ReceiptPayload.
#[export] Instance mem_blake3 : Blake3 := { blake3_hash b := arr_fit 32 b }.

#[local] Existing Instances mem_contact mem_contact_ok mem_outbox mem_outbox_ok mem_message
  mem_message_ok mem_conversation mem_conversation_ok mem_dm_payload mem_dm_payload_ok
  mem_receipt mem_receipt_ok.

Definition conv_id (b : byte) : ConversationId := mkConversationId (arr_fill 32 b).
Definition message_id (b : byte) : MessageId := mkMessageId (arr_fill 16 b).
Definition hello (c m : byte) : Message :=
  mkMessage (message_id m) (conv_id c) (ident Byte.x01) (machine Byte.x01) (rstr_of "hello")
    Queued (umk 64 1) (umk 64 1).
Definition sample_conv (c : byte) : Conversation := mkConversation (conv_id c) (ident Byte.x02) None.

(** Two messages of one conversation and one of another. *)
Definition sample_chains : list (bytes * bytes) :=
  [(msg_key (own_key (hello Byte.x07 Byte.x01)), enc (hello Byte.x07 Byte.x01));
   (msg_key (own_key (hello Byte.x07 Byte.x02)), enc (hello Byte.x07 Byte.x02));
   (msg_key (own_key (hello Byte.x08 Byte.x01)), enc (hello Byte.x08 Byte.x01));
   (storage_key (conv_id Byte.x07), enc (sample_conv Byte.x07))].

Definition sample_store : store :=
  foldr (λ kv st, <[(CF_CHAINS, kv.1) := kv.2]> st)
    (<[(CF_CONTACTS, pair_key (ident Byte.x01, ident Byte.x02)) := enc bob]> ∅) sample_chains.

Definition sample_state : dm_state :=
  DmState bob_book (<[conv_id Byte.x07 := sample_conv Byte.x07]> ∅)
    (<[own_key (hello Byte.x07 Byte.x01) := hello Byte.x07 Byte.x01]>
       (<[own_key (hello Byte.x07 Byte.x02) := hello Byte.x07 Byte.x02]>
          (<[own_key (hello Byte.x08 Byte.x01) := hello Byte.x08 Byte.x01]> ∅))) ∅.

Definition dm_db : @DB mem_rocks := mem_with sample_store.

Lemma empty_chains_repr : chains_repr ∅ ∅ ∅.
Proof.
  split_and!; [apply repr_empty|apply repr_empty|]. intros b v. by rewrite lookup_empty.
Qed.

Lemma sample_dm_repr : dm_repr (contents dm_db) sample_state.
Proof.
  split_and!.
  - unfold dm_db, sample_store. simpl contents. simpl foldr.
    do 4 (apply repr_frame_insert; [by intros [=]|]). exact bob_repr.
  - unfold dm_db, sample_store. simpl contents. simpl foldr.
    do 3 apply chains_insert_msg. apply chains_insert_conv.
    eapply chains_frame; [apply frame_insert|done|apply empty_chains_repr].
  - unfold dm_db, sample_store. simpl contents. simpl foldr.
    do 5 (apply repr_frame_insert; [by intros [=]|]). apply repr_empty.
Qed.

Lemma sample_dm_wf : dm_wf sample_state.
Proof.
  split.
  - unfold sample_state, d_msgs. do 3 apply msgs_wf_insert. intros k m. by rewrite lookup_empty.
  - intros c v. unfold sample_state, d_convs.
    intros [[<- <-]|[_ H]]%lookup_insert_Some; [done|]. by rewrite lookup_empty in H.
Qed.

Definition sample_svc : DmService :=
  mkDmService (ident Byte.x01) (machine Byte.x01) (mkContactStore (ident Byte.x01)).

Lemma sample_chains_repr : chains_repr (contents dm_db) (d_convs sample_state) (d_msgs sample_state).
Proof. exact (proj1 (proj2 sample_dm_repr)). Qed.

Lemma derive_sound_witness :
  derive (ident Byte.x01) (ident Byte.x02) = derive (ident Byte.x02) (ident Byte.x01) ∧
  ((ident Byte.x01 = ident Byte.x02 ∧ ident Byte.x02 = ident Byte.x01) ∨
   (ident Byte.x01 = ident Byte.x01 ∧ ident Byte.x02 = ident Byte.x02) ∨
   (derive_input (ident Byte.x01) (ident Byte.x02) ≠ derive_input (ident Byte.x02) (ident Byte.x01) ∧
    blake3_hash (derive_input (ident Byte.x01) (ident Byte.x02)) =
    blake3_hash (derive_input (ident Byte.x02) (ident Byte.x01)))).
Proof.
  split; [reflexivity|].
  apply (proj2 (derive_sound (ident Byte.x01) (ident Byte.x02) (ident Byte.x02) (ident Byte.x01))).
  reflexivity.
Defined.

Definition sample_layout : MessageLayout := {| size_of_message := 144 |}.
#[local] Existing Instance sample_layout.

Lemma history_spec_witness :
  ∃ l : list ((ConversationId * MessageId) * Message),
    StronglySorted (λ x y, arr_cmp (message_id_0 y.1.2) (message_id_0 x.1.2) = Lt) l ∧
    (∀ k m, (k, m) ∈ l ↔ k.1 = conv_id Byte.x07 ∧ before_ok (Some (message_id Byte.x02)) k.2 ∧
      d_msgs sample_state !! k = Some m) ∧
    Dm.history dm_db (conv_id Byte.x07) (Some (message_id Byte.x02)) (umk 64 5) =
      Ok (take 5 (snd <$> l)).
Proof.
  destruct (history_spec dm_db _ _ (conv_id Byte.x07) (Some (message_id Byte.x02)) (umk 64 5)
    (mem_with_good _) sample_chains_repr) as (l & Hs & Hin & Hrun & _).
  exists l. split; [exact Hs|]. split; [exact Hin|].
  apply Hrun; [reflexivity|vm_compute; discriminate].
Defined.

Lemma pages_cover_witness :
  length (older (d_msgs sample_state) (conv_id Byte.x07) None) = 2 ∧
  all_pages 3 dm_db (conv_id Byte.x07) None (umk 64 1) =
    Ok (snd <$> older (d_msgs sample_state) (conv_id Byte.x07) None).
Proof.
  split; [vm_compute; reflexivity|].
  refine (pages_cover dm_db _ _ (conv_id Byte.x07) None (umk 64 1) 3 (mem_with_good _)
    sample_chains_repr (proj1 sample_dm_wf) _).
  change (2 < 3). lia.
Defined.

Lemma open_conversation_spec_witness :
  is_ok (spec_open sample_svc (ident Byte.x02) sample_state).2 = true ∧
  ∃ st, runs (open_conversation sample_svc (ident Byte.x02)) dm_db
      (spec_open sample_svc (ident Byte.x02) sample_state).2 st ∧
    dm_repr st (spec_open sample_svc (ident Byte.x02) sample_state).1.
Proof.
  split; [vm_compute; reflexivity|].
  exact (proj1 (open_conversation_spec sample_svc dm_db sample_state (ident Byte.x02)
    (mem_with_good _) sample_dm_repr)).
Defined.

Lemma send_text_spec_witness :
  is_ok (spec_send sample_svc (conv_id Byte.x07) (rstr_of "hi") (umk 64 9) (arr_fill 16 Byte.x03)
    (arr_fill 16 Byte.x04) sample_state).2 = true ∧
  ∃ st, runs (send_text sample_svc (conv_id Byte.x07) (rstr_of "hi") (umk 64 9)
        (arr_fill 16 Byte.x03) (arr_fill 16 Byte.x04)) dm_db
      (spec_send sample_svc (conv_id Byte.x07) (rstr_of "hi") (umk 64 9) (arr_fill 16 Byte.x03)
        (arr_fill 16 Byte.x04) sample_state).2 st ∧
    dm_repr st (spec_send sample_svc (conv_id Byte.x07) (rstr_of "hi") (umk 64 9)
        (arr_fill 16 Byte.x03) (arr_fill 16 Byte.x04) sample_state).1 ∧
    dm_wf (spec_send sample_svc (conv_id Byte.x07) (rstr_of "hi") (umk 64 9)
        (arr_fill 16 Byte.x03) (arr_fill 16 Byte.x04) sample_state).1.
Proof.
  split; [vm_compute; reflexivity|].
  exact (send_text_spec sample_svc dm_db sample_state (conv_id Byte.x07) (rstr_of "hi") (umk 64 9)
    (arr_fill 16 Byte.x03) (arr_fill 16 Byte.x04) (mem_with_good _) sample_dm_repr sample_dm_wf).
Defined.

(** A full outbox: the receipt is refused and the message is Read. *)
Lemma receipt_lost_witness :
  let c := conv_id Byte.x07 in
  let m := message_id Byte.x01 in
  let S' := set_msgs (<[(c, m) := with_status Read (umk 64 5) (hello Byte.x07 Byte.x01)]> (d_msgs sample_state))
    sample_state in
  ∃ db', mark_read_and_emit sample_svc c m (mkOutbox 0) (umk 64 5) (umk 64 6) (umk 64 7)
      (arr_fill 16 Byte.x09) dm_db = (db', Err (DmStorage OutboxFull)) ∧ dm_repr (contents db') S' ∧
    ∃ db'', mark_read_and_emit sample_svc c m (mkOutbox 9) (umk 64 8) (umk 64 8) (umk 64 8)
      (arr_fill 16 Byte.x09) db' = (db'', Err (InvalidStatusTransition Read Read)).
Proof.
  cbv zeta. destruct (receipt_lost sample_svc dm_db sample_state (conv_id Byte.x07) (message_id Byte.x01)
    (mkOutbox 0) (umk 64 5) (umk 64 6) (umk 64 7) (arr_fill 16 Byte.x09) (hello Byte.x07 Byte.x01)
    (mem_with_good _) sample_dm_repr sample_dm_wf eq_refl eq_refl eq_refl (Nat.le_0_l _))
    as (db' & H1 & H2 & H3).
  exists db'. split_and!; [exact H1|exact H2|].
  destruct (H3 (mkOutbox 9) (umk 64 8) (umk 64 8) (umk 64 8) (arr_fill 16 Byte.x09)) as (db'' & H4 & _). eauto.
Defined.

Definition sample_requests : list status_request :=
  [(conv_id Byte.x07, message_id Byte.x01, Delivered, umk 64 2);
   (conv_id Byte.x07, message_id Byte.x01, Sent, umk 64 3);
   (conv_id Byte.x07, message_id Byte.x09, Read, umk 64 4)].

Lemma status_only_advances_witness :
  is_ok <$> (Prelude.history spec_request sample_requests (d_msgs sample_state)).2 =
    [true; false; false] ∧
  let (M', rs) := Prelude.history spec_request sample_requests (d_msgs sample_state) in
  ∃ db', Prelude.history run_request sample_requests dm_db = (db', rs) ∧ good db' ∧
    dm_repr (contents db') (set_msgs M' sample_state) ∧ advanced_map (d_msgs sample_state) M'.
Proof.
  split; [vm_compute; reflexivity|].
  exact (status_only_advances sample_state dm_db sample_requests
    (mem_with_good _) sample_dm_repr sample_dm_wf).
Defined.
