(* ===== verification/Group.v ===== *)
(** * Groups: types, permissions and manifests ([zero-messaging/src/group/types.rs],
      [permissions.rs], [manifest.rs])

    The data of group messaging, the permission table, and the manifest codec, persistence
    and merge. The lifecycle handlers of [group/mod.rs] are in [GroupOps]. *)

From Stdlib Require Import ZArith Lia.
From stdpp Require Import base tactics gmap strings sorting numbers countable list.
From S2P Require Import Prelude Bytes Store Mem Aad Db.
#[local] Open Scope nat_scope.

(** ** Types *)

Definition GROUP_MSG_TAG : rstr := rstr_of "zero.group.v1".
Definition GROUP_RECEIPT_TAG : rstr := rstr_of "zero.receipt.v1".

Record GroupId : Type := mkGroupId { group_id_0 : arr 16 }.
Record GroupMessageId : Type := mkGroupMessageId { group_message_id_0 : arr 16 }.

#[export] Instance group_id_0_inj : Inj (=) (=) group_id_0.
Proof. intros [] [] H; simpl in H; by subst. Qed.
#[export] Instance group_message_id_0_inj : Inj (=) (=) group_message_id_0.
Proof. intros [] [] H; simpl in H; by subst. Qed.
#[export] Instance GroupId_eq_dec : EqDecision GroupId.
Proof. solve_decision. Defined.
#[export] Instance GroupMessageId_eq_dec : EqDecision GroupMessageId.
Proof. solve_decision. Defined.
#[export] Program Instance GroupId_countable : Countable GroupId :=
  inj_countable' group_id_0 mkGroupId _.
Next Obligation. by intros []. Qed.
#[export] Program Instance GroupMessageId_countable : Countable GroupMessageId :=
  inj_countable' group_message_id_0 mkGroupMessageId _.
Next Obligation. by intros []. Qed.

Inductive Role : Type := Owner | Admin | Moderator | Member.

#[export] Instance Role_eq_dec : EqDecision Role.
Proof. solve_decision. Defined.

Inductive GroupAction : Type :=
| SendMessage
| AddMember
| RemoveMember
| PromoteDemoteMod
| PromoteDemoteAdmin
| DeleteGroup.

#[export] Instance GroupAction_eq_dec : EqDecision GroupAction.
Proof. solve_decision. Defined.

Record GroupMember : Type := mkGroupMember {
  gm_identity_id : IdentityId;
  gm_machine_id : MachineId;
  gm_role : Role;
  gm_added_at_ms : u64;
}.

Record GroupManifest : Type := mkGroupManifest {
  man_group_id : GroupId;
  man_name : rstr;
  man_creator : IdentityId;
  man_members : list GroupMember;
  man_mls_epoch : u64;
  man_mls_state_blob : bytes;
  man_created_at_ms : u64;
  man_updated_at_ms : u64;
}.

Inductive GroupMessageStatus : Type := GSent | GDelivered | GRead.

#[export] Instance GroupMessageStatus_eq_dec : EqDecision GroupMessageStatus.
Proof. solve_decision. Defined.

Record GroupMessage : Type := mkGroupMessage {
  gmsg_id : GroupMessageId;
  gmsg_group_id : GroupId;
  gmsg_sender_identity : IdentityId;
  gmsg_sender_machine : MachineId;
  gmsg_text : rstr;
  gmsg_mls_epoch : u64;
  gmsg_created_at_ms : u64;
  gmsg_status : GroupMessageStatus;
}.

Record GroupReceiptPayload : Type := mkGroupReceiptPayload {
  grp_message_id : GroupMessageId;
  grp_group_id : GroupId;
  grp_recipient_identity : IdentityId;
  grp_recipient_machine : MachineId;
  grp_status : GroupMessageStatus;
  grp_timestamp_ms : u64;
}.

(** ** Permissions *)

Definition PERMISSION_TABLE : list (list bool) :=
  [[true; true; true; true; true; true];
   [true; true; true; true; false; false];
   [true; false; true; false; false; false];
   [true; false; false; false; false; false]].

Definition role_idx (r : Role) : nat :=
  match r with Owner => 0 | Admin => 1 | Moderator => 2 | Member => 3 end.

Definition action_idx (a : GroupAction) : nat :=
  match a with
  | SendMessage => 0
  | AddMember => 1
  | RemoveMember => 2
  | PromoteDemoteMod => 3
  | PromoteDemoteAdmin => 4
  | DeleteGroup => 5
  end.

(** Both indices are within the bounds of the table, so the default is never used. *)
Definition check_permission (actor_role : Role) (action : GroupAction)
    (target_role : option Role) : bool :=
  let permitted := nth (action_idx action) (nth (role_idx actor_role) PERMISSION_TABLE []) false in
  if negb permitted then false
  else if bool_decide (actor_role = Moderator) && bool_decide (action = RemoveMember) then
    bool_decide (target_role = Some Member)
  else true.

(** ** Manifests *)

Section manifest.
Context `{R : RocksDB} `{P : PostcardLib} `{!Postcard GroupManifest}.
Open Scope string_scope.

Inductive GroupError : Type :=
| GStorage (e : StorageError)
| GMls (s : string)
| PermissionDenied (actor : Role) (action : GroupAction)
| GroupFull (size : nat)
| NotAMember (id : IdentityId)
| GroupNotFound (id : GroupId)
| ManifestConflict
| InvalidManifestUpdate
| NameTooLong (len : nat).

Definition encode_manifest (m : GroupManifest) : result GroupError bytes :=
  map_err (λ e, GMls ("encode: " +:+ postcard_error_string e)) (to_vec m).

Definition decode_manifest (b : bytes) : result GroupError GroupManifest :=
  map_err (λ e, GMls ("decode: " +:+ postcard_error_string e)) (from_bytes b).

Definition member_cmp (a b : GroupMember) : comparison :=
  arr_cmp (identity_id_0 (gm_identity_id a)) (identity_id_0 (gm_identity_id b)).

Definition with_members (l : list GroupMember) (m : GroupManifest) : GroupManifest :=
  mkGroupManifest (man_group_id m) (man_name m) (man_creator m) l (man_mls_epoch m)
    (man_mls_state_blob m) (man_created_at_ms m) (man_updated_at_ms m).

Definition normalize_members (m : GroupManifest) : GroupManifest :=
  with_members (sort_by member_cmp (man_members m)) m.

Definition group_key (g : GroupId) : bytes := arr_bytes (group_id_0 g).

Definition persist_manifest (m : GroupManifest) : io DB GroupError () :=
  let key := group_key (man_group_id m) in
  value ← lift (encode_manifest m);
  io_map_err GStorage (put_raw CF_GROUPS key value);;
  mret ().

(** [merge_manifests]; its debug assertion on the group ids is not part of a release build. *)
Definition merge_manifests (a b : GroupManifest) : GroupManifest :=
  let winner :=
    if ult (man_mls_epoch b) (man_mls_epoch a) then a
    else if ult (man_mls_epoch a) (man_mls_epoch b) then b
    else if ule (man_updated_at_ms b) (man_updated_at_ms a) then a
    else b in
  normalize_members winner.

Definition load_manifest (db : DB) (g : GroupId) : result GroupError (option GroupManifest) :=
  found ← map_err GStorage (get_raw db CF_GROUPS (group_key g));
  match found with
  | Some b => m ← decode_manifest b; Ok (Some m)
  | None => Ok None
  end.

Definition merge_manifest (a b : GroupManifest) : GroupManifest :=
  if ult (man_mls_epoch b) (man_mls_epoch a) then a
  else if ult (man_mls_epoch a) (man_mls_epoch b) then b
  else if ult (man_updated_at_ms a) (man_updated_at_ms b) then b
  else a.
End manifest.

(** ** The documented permission matrix *)

Inductive allowed : Role → GroupAction → option Role → Prop :=
| anyone_sends r t : allowed r SendMessage t
| owner_all a t : allowed Owner a t
| admin_adds t : allowed Admin AddMember t
| admin_removes t : allowed Admin RemoveMember t
| admin_mods t : allowed Admin PromoteDemoteMod t
| moderator_removes_member : allowed Moderator RemoveMember (Some Member).

(** ** The order that decides a merge *)

(** [newer a b]: [a] has the higher epoch, or the same epoch and a later update. *)
Definition newer (a b : GroupManifest) : Prop :=
  (uval (man_mls_epoch b) < uval (man_mls_epoch a))%Z ∨
  uval (man_mls_epoch a) = uval (man_mls_epoch b) ∧
  (uval (man_updated_at_ms b) < uval (man_updated_at_ms a))%Z.

Lemma merge_manifest_cases a b :
  (newer b a ∧ merge_manifest a b = b) ∨ (¬ newer b a ∧ merge_manifest a b = a).
Proof.
  unfold merge_manifest, newer, ult.
  destruct (Z.ltb_spec (uval (man_mls_epoch b)) (uval (man_mls_epoch a)));
    [right; split; [lia|done]|].
  destruct (Z.ltb_spec (uval (man_mls_epoch a)) (uval (man_mls_epoch b)));
    [left; split; [lia|done]|].
  destruct (Z.ltb_spec (uval (man_updated_at_ms a)) (uval (man_updated_at_ms b)));
    [left|right]; (split; [lia|done]).
Qed.

Lemma newer_trans a b c : newer a b → newer b c → newer a c.
Proof. unfold newer. lia. Qed.

Lemma newer_asym a b : newer a b → ¬ newer b a.
Proof. unfold newer. lia. Qed.

Lemma not_newer_trans a b c : ¬ newer a b → ¬ newer b c → ¬ newer a c.
Proof. unfold newer. lia. Qed.

Lemma merge_manifest_idem a : merge_manifest a a = a.
Proof. by destruct (merge_manifest_cases a a) as [[_ ->]|[_ ->]]. Qed.

Lemma merge_manifest_comm a b : newer a b ∨ newer b a → merge_manifest a b = merge_manifest b a.
Proof.
  intros H. destruct (merge_manifest_cases a b) as [[Hab ->]|[Hab ->]],
    (merge_manifest_cases b a) as [[Hba ->]|[Hba ->]]; try done.
  - by destruct (newer_asym _ _ Hab).
  - tauto.
Qed.

Lemma merge_manifest_assoc a b c :
  merge_manifest a (merge_manifest b c) = merge_manifest (merge_manifest a b) c.
Proof.
  destruct (merge_manifest_cases b c) as [[Hbc ->]|[Hbc ->]],
    (merge_manifest_cases a b) as [[Hab ->]|[Hab ->]].
  - destruct (merge_manifest_cases b c) as [[_ ->]|[? _]]; [|done].
    destruct (merge_manifest_cases a c) as [[_ ->]|[Hn _]]; [done|].
    destruct Hn. by eapply newer_trans.
  - done.
  - by destruct (merge_manifest_cases b c) as [[? _]|[_ ->]].
  - destruct (merge_manifest_cases a c) as [[Hc _]|[_ ->]]; [|done].
    destruct (not_newer_trans c b a Hbc Hab Hc).
Qed.

Lemma merge_manifests_normal a b :
  merge_manifests a b = normalize_members (merge_manifest a b).
Proof.
  unfold merge_manifests, merge_manifest, ult, ule. f_equal.
  repeat match goal with |- context [Z.ltb ?x ?y] => destruct (Z.ltb_spec x y) end;
  repeat match goal with |- context [Z.leb ?x ?y] => destruct (Z.leb_spec x y) end;
    first [done | lia].
Qed.

#[export] Instance member_cmp_ok : CmpOk member_cmp.
Proof.
  unfold member_cmp. apply (cmp_by_ok arr_cmp (λ m, identity_id_0 (gm_identity_id m))).
Qed.

Lemma normalize_idem m : normalize_members (normalize_members m) = normalize_members m.
Proof.
  unfold normalize_members, with_members. simpl. f_equal. apply sort_by_id, sort_by_sorted, _.
Qed.

(** ** Properties *)

(** [check_permission] grants exactly what the permission matrix documents: everything to
    owners, all but admin changes and deletion to admins, sending and the removal of plain
    members to moderators, sending to members. *)
Lemma check_permission_table r a t : check_permission r a t = true ↔ allowed r a t.
Proof.
  split.
  - destruct r, a, t as [[]|]; intros H; try (exfalso; vm_compute in H; discriminate); constructor.
  - destruct 1; try destruct r; try destruct a; try destruct t as [[]|]; reflexivity.
Qed.

(** What a replica holds after merging the copies [l] into its own: the newest it has seen. *)
Lemma merge_all_newest (l : list GroupManifest) (m : GroupManifest) :
  foldl merge_manifest m l ∈ m :: l ∧ ∀ x, x ∈ m :: l → ¬ newer x (foldl merge_manifest m l).
Proof.
  revert m. induction l as [|b l IHl]; intros m.
  { split; [apply list_elem_of_here|]. intros x ->%list_elem_of_singleton. cbn. unfold newer. lia. }
  cbn [foldl]. destruct (IHl (merge_manifest m b)) as [Hin Hmax].
  assert (¬ newer m (merge_manifest m b) ∧ ¬ newer b (merge_manifest m b)) as [Hm Hb]
    by (destruct (merge_manifest_cases m b) as [[H ->]|[H ->]]; clear -H; unfold newer in *; lia).
  split.
  - apply elem_of_cons in Hin as [->|?]; [|by do 2 apply list_elem_of_further].
    destruct (merge_manifest_cases m b) as [[_ ->]|[_ ->]]; rewrite !elem_of_cons; tauto.
  - pose proof (Hmax _ (list_elem_of_here _ _)) as Hw.
    intros x [->|[->|?]%elem_of_cons]%elem_of_cons; [by eapply not_newer_trans..|].
    by apply Hmax, list_elem_of_further.
Qed.

(** C32: [merge_manifest] returns one of its arguments, idempotently and associatively, and
    which one does not depend on the order of the arguments unless the two have the same
    epoch and the same update time; [merge_manifests] returns the same winner with its
    members sorted. So replicas converge: two that have seen the same manifests, in whatever
    order and however often, hold the same one, and it is the newest, if no two of the
    manifests tie. *)
Theorem merge_manifest_laws a b c :
  merge_manifest a a = a ∧
  (merge_manifest a b = a ∨ merge_manifest a b = b) ∧
  ¬ newer a (merge_manifest a b) ∧ ¬ newer b (merge_manifest a b) ∧
  merge_manifest a (merge_manifest b c) = merge_manifest (merge_manifest a b) c ∧
  (newer a b ∨ newer b a → merge_manifest a b = merge_manifest b a) ∧
  merge_manifests a b = normalize_members (merge_manifest a b) ∧
  ∀ m l m' l', (∀ x, x ∈ m :: l ↔ x ∈ m' :: l') →
    (∀ x y, x ∈ m :: l → y ∈ m :: l → x = y ∨ newer x y ∨ newer y x) →
    foldl merge_manifest m l = foldl merge_manifest m' l' ∧
    ∀ x, x ∈ m :: l → x = foldl merge_manifest m l ∨ newer (foldl merge_manifest m l) x.
Proof.
  split_and!; [apply merge_manifest_idem| | | |apply merge_manifest_assoc|apply merge_manifest_comm|
    apply merge_manifests_normal|].
  - destruct (merge_manifest_cases a b) as [[_ ->]|[_ ->]]; auto.
  - destruct (merge_manifest_cases a b) as [[H ->]|[_ ->]]; [by apply newer_asym|unfold newer; lia].
  - destruct (merge_manifest_cases a b) as [[_ ->]|[H ->]]; [unfold newer; lia|done].
  - intros m l m' l' Hsame Htie. destruct (merge_all_newest l m) as [Hin Hmax].
    destruct (merge_all_newest l' m') as [Hin' Hmax']. split.
    + destruct (Htie _ _ Hin (proj2 (Hsame _) Hin')) as [?|[Hn|Hn]]; [done| |].
      * by destruct (Hmax' _ (proj1 (Hsame _) Hin)).
      * by destruct (Hmax _ (proj2 (Hsame _) Hin')).
    + intros x Hx. destruct (Htie _ _ Hx Hin) as [->|[Hn|Hn]]; [by left| |by right].
      by destruct (Hmax _ Hx).
Qed.
