(* ===== verification/GroupOps.v ===== *)
(** * Group lifecycle and messages ([zero-messaging/src/group/mod.rs])

    Every handler of the module over [CF_GROUPS], which holds manifests under 16-byte keys
    and messages under 42-byte keys. Clock readings and fresh UUIDs are arguments. *)

From Stdlib Require Import ZArith Lia.
From stdpp Require Import base tactics gmap strings sorting numbers countable list.
From S2P Require Import Prelude Bytes Store Mem Aad Db Group.
#[local] Open Scope nat_scope.

(** ** Keys *)

Definition GROUP_MSG_PREFIX : bytes := blit "group_msg:".

Definition group_msg_key (g : GroupId) (m : GroupMessageId) : bytes :=
  GROUP_MSG_PREFIX ++ arr_bytes (group_id_0 g) ++ arr_bytes (group_message_id_0 m).

Definition group_msg_prefix (g : GroupId) : bytes :=
  GROUP_MSG_PREFIX ++ arr_bytes (group_id_0 g).

#[global] Arguments group_msg_key : simpl never.
#[global] Arguments group_msg_prefix : simpl never.

(** ** Roles *)

Definition action_for_role_change (new_role : Role) : GroupAction :=
  match new_role with
  | Admin | Owner => PromoteDemoteAdmin
  | Moderator | Member => PromoteDemoteMod
  end.

Definition role_privilege (r : Role) : nat :=
  match r with Owner => 0 | Admin => 1 | Moderator => 2 | Member => 3 end.

Definition MAX_GROUP_SIZE : nat := 256.
#[global] Opaque MAX_GROUP_SIZE.

Definition same_id (id : IdentityId) (m : GroupMember) : bool :=
  bool_decide (gm_identity_id m = id).

Definition set_role (r : Role) (m : GroupMember) : GroupMember :=
  mkGroupMember (gm_identity_id m) (gm_machine_id m) r (gm_added_at_ms m).

(** The statements [man.mls_epoch += 1; man.updated_at_ms = now_ms();]. *)
Definition bump (now : u64) (m : GroupManifest) : GroupManifest :=
  mkGroupManifest (man_group_id m) (man_name m) (man_creator m) (man_members m)
    (uadd (man_mls_epoch m) (umk 64 1)) (man_mls_state_blob m) (man_created_at_ms m) now.

(** ** Handlers *)

Section group_ops.
Context `{R : RocksDB} `{P : PostcardLib} `{!Postcard GroupManifest, !Postcard GroupMessage}.

Definition create_group (label : rstr) (founders : list IdentityId) (uuid : arr 16) (now : u64)
    : io DB GroupError GroupId :=
  if 64 <? str_len label then fails (NameTooLong (str_len label))
  else
    let group_id := mkGroupId uuid in
    let members := (λ id, mkGroupMember id (mkMachineId (arr_fill 16 Byte.x00)) Owner now)
      <$> founders in
    let man := mkGroupManifest group_id label
      (default (mkIdentityId (arr_fill 16 Byte.x00)) (head founders)) members
      (umk 64 0) [] now now in
    let man := normalize_members man in
    encoded ← lift (encode_manifest man);
    io_map_err GStorage (put_raw CF_GROUPS (group_key group_id) encoded);;
    mret group_id.

Definition get_manifest (db : DB) (group_id : GroupId) : result GroupError GroupManifest :=
  found ← map_err GStorage (get_raw db CF_GROUPS (group_key group_id));
  b ← ok_or found (GroupNotFound group_id);
  decode_manifest b.

(** The common end of the handlers that change a manifest: sort, encode, write. *)
Definition put_manifest (group_id : GroupId) (man : GroupManifest) : io DB GroupError () :=
  let man := normalize_members man in
  encoded ← lift (encode_manifest man);
  io_map_err GStorage (put_raw CF_GROUPS (group_key group_id) encoded);;
  mret ().

Definition promote (group_id : GroupId) (caller target : IdentityId) (new_role : Role) (now : u64)
    : io DB GroupError () :=
  man ← reads (λ db, get_manifest db group_id);
  caller_member ← lift (ok_or (find (same_id caller) (man_members man)) (NotAMember caller));
  let caller_role := gm_role caller_member in
  target_member ← lift (ok_or (find (same_id target) (man_members man)) (NotAMember target));
  let target_role := gm_role target_member in
  if role_privilege target_role <=? role_privilege new_role then fails InvalidManifestUpdate
  else
    let action := action_for_role_change new_role in
    if negb (check_permission caller_role action (Some target_role)) then
      fails (PermissionDenied caller_role action)
    else
      let man := with_members (modify_first (same_id target) (set_role new_role)
        (man_members man)) man in
      put_manifest group_id (bump now man).

Definition demote (group_id : GroupId) (caller target : IdentityId) (new_role : Role) (now : u64)
    : io DB GroupError () :=
  man ← reads (λ db, get_manifest db group_id);
  caller_member ← lift (ok_or (find (same_id caller) (man_members man)) (NotAMember caller));
  let caller_role := gm_role caller_member in
  target_member ← lift (ok_or (find (same_id target) (man_members man)) (NotAMember target));
  let target_role := gm_role target_member in
  if role_privilege new_role <=? role_privilege target_role then fails InvalidManifestUpdate
  else
    let action := action_for_role_change target_role in
    if negb (check_permission caller_role action (Some target_role)) then
      fails (PermissionDenied caller_role action)
    else
      let man := with_members (modify_first (same_id target) (set_role new_role)
        (man_members man)) man in
      put_manifest group_id (bump now man).

Definition add_member (group_id : GroupId) (caller new_member : IdentityId) (now_added now : u64)
    : io DB GroupError () :=
  man ← reads (λ db, get_manifest db group_id);
  caller_member ← lift (ok_or (find (same_id caller) (man_members man)) (NotAMember caller));
  let caller_role := gm_role caller_member in
  if negb (check_permission caller_role AddMember None) then
    fails (PermissionDenied caller_role AddMember)
  else if any (same_id new_member) (man_members man) then mret ()
  else if MAX_GROUP_SIZE <=? length (man_members man) then
    fails (GroupFull (length (man_members man)))
  else
    let entry := mkGroupMember new_member (mkMachineId (arr_fill 16 Byte.x00)) Member now_added in
    let man := with_members (man_members man ++ [entry]) man in
    put_manifest group_id (bump now man).

Definition remove_member (group_id : GroupId) (caller target : IdentityId) (now : u64)
    : io DB GroupError () :=
  man ← reads (λ db, get_manifest db group_id);
  caller_member ← lift (ok_or (find (same_id caller) (man_members man)) (NotAMember caller));
  let caller_role := gm_role caller_member in
  target_member ← lift (ok_or (find (same_id target) (man_members man)) (NotAMember target));
  let target_role := gm_role target_member in
  if negb (check_permission caller_role RemoveMember (Some target_role)) then
    fails (PermissionDenied caller_role RemoveMember)
  else if negb (bool_decide (caller_role = Owner)) &&
          (role_privilege target_role <=? role_privilege caller_role) then
    fails (PermissionDenied caller_role RemoveMember)
  else
    let man := with_members (retain (λ m, negb (same_id target m)) (man_members man)) man in
    put_manifest group_id (bump now man).

(** ** Messages *)

Definition gmsg_err (e : postcard_error) : GroupError := GMls (postcard_error_string e).

Definition send_message (group_id : GroupId) (sender : IdentityId) (machine : MachineId)
    (text : rstr) (uuid : arr 16) (now : u64) : io DB GroupError GroupMessageId :=
  man ← reads (λ db, get_manifest db group_id);
  if negb (any (same_id sender) (man_members man)) then fails (NotAMember sender)
  else
    let msg_id := mkGroupMessageId uuid in
    let msg := mkGroupMessage msg_id group_id sender machine text (man_mls_epoch man) now GSent in
    encoded ← lift (map_err gmsg_err (to_vec msg));
    io_map_err GStorage (put_raw CF_GROUPS (group_msg_key group_id msg_id) encoded);;
    mret msg_id.

Definition receive_message (msg : GroupMessage) : io DB GroupError bool :=
  reads (λ db, get_manifest db (gmsg_group_id msg));;
  let key := group_msg_key (gmsg_group_id msg) (gmsg_id msg) in
  found ← reads (λ db, map_err GStorage (get_raw db CF_GROUPS key));
  match found with
  | Some _ => mret false
  | None =>
      encoded ← lift (map_err gmsg_err (to_vec msg));
      io_map_err GStorage (put_raw CF_GROUPS key encoded);;
      mret true
  end.

Definition group_get_message (db : DB) (group_id : GroupId) (message_id : GroupMessageId)
    : result GroupError (option GroupMessage) :=
  let key := group_msg_key group_id message_id in
  found ← map_err GStorage (get_raw db CF_GROUPS key);
  match found with
  | Some b => msg ← map_err gmsg_err (from_bytes b); Ok (Some msg)
  | None => Ok None
  end.

(** [b.created_at_ms.cmp(&a.created_at_ms).then_with(|| b.id.0.cmp(&a.id.0))] *)
Definition newest_first (a b : GroupMessage) : comparison :=
  then_with (ucmp (gmsg_created_at_ms b) (gmsg_created_at_ms a))
    (arr_cmp (group_message_id_0 (gmsg_id b)) (group_message_id_0 (gmsg_id a))).

Definition list_step (prefix : bytes) (before : option GroupMessageId)
    (messages : list GroupMessage) (item : result rocks_error (bytes * bytes))
    : result GroupError (ctl (list GroupMessage)) :=
  '(key, value) ← map_err (λ e, GStorage (Rocks e)) item;
  if negb (starts_with key prefix) then Ok (Break messages)
  else
    msg ← map_err gmsg_err (from_bytes value);
    match before with
    | Some cursor =>
        match arr_cmp (group_message_id_0 (gmsg_id msg)) (group_message_id_0 cursor) with
        | Lt => Ok (Continue (messages ++ [msg]))
        | _ => Ok (Continue messages)
        end
    | None => Ok (Continue (messages ++ [msg]))
    end.

Definition list_messages (db : DB) (group_id : GroupId) (before : option GroupMessageId)
    (limit : nat) : result GroupError (list GroupMessage) :=
  let prefix := group_msg_prefix group_id in
  map_err GStorage (cf_handle db CF_GROUPS);;
  messages ← for_each (list_step prefix before) [] (DB_prefix_iterator_cf db CF_GROUPS prefix);
  Ok (take limit (sort_by newest_first messages)).

Definition gstatus_rank (s : GroupMessageStatus) : nat :=
  match s with GSent => 0 | GDelivered => 1 | GRead => 2 end.

Definition is_forward_transition (current new : GroupMessageStatus) : bool :=
  gstatus_rank current <? gstatus_rank new.

Definition group_process_receipt (receipt : GroupReceiptPayload) : io DB GroupError bool :=
  let key := group_msg_key (grp_group_id receipt) (grp_message_id receipt) in
  found ← reads (λ db, map_err GStorage (get_raw db CF_GROUPS key));
  match found with
  | None => mret false
  | Some b =>
      msg ← lift (map_err gmsg_err (from_bytes b));
      if negb (is_forward_transition (gmsg_status msg) (grp_status receipt)) then mret false
      else
        let msg := mkGroupMessage (gmsg_id msg) (gmsg_group_id msg) (gmsg_sender_identity msg)
          (gmsg_sender_machine msg) (gmsg_text msg) (gmsg_mls_epoch msg) (gmsg_created_at_ms msg)
          (grp_status receipt) in
        encoded ← lift (map_err gmsg_err (to_vec msg));
        io_map_err GStorage (put_raw CF_GROUPS key encoded);;
        mret true
  end.

Definition mark_status (group_id : GroupId) (message_id : GroupMessageId) (recipient : IdentityId)
    (machine : MachineId) (status : GroupMessageStatus) (now : u64)
    : io DB GroupError (option GroupReceiptPayload) :=
  let receipt := mkGroupReceiptPayload message_id group_id recipient machine status now in
  updated ← group_process_receipt receipt;
  if (updated : bool) then mret (Some receipt) else mret None.

Definition mark_delivered (group_id : GroupId) (message_id : GroupMessageId)
    (recipient : IdentityId) (machine : MachineId) (now : u64)
    : io DB GroupError (option GroupReceiptPayload) :=
  mark_status group_id message_id recipient machine GDelivered now.

Definition group_mark_read (group_id : GroupId) (message_id : GroupMessageId)
    (recipient : IdentityId) (machine : MachineId) (now : u64)
    : io DB GroupError (option GroupReceiptPayload) :=
  mark_status group_id message_id recipient machine GRead now.
End group_ops.

(** ** Membership changes as functions of the manifest *)

Inductive group_op : Type :=
| OpPromote (caller target : IdentityId) (new_role : Role) (now : u64)
| OpDemote (caller target : IdentityId) (new_role : Role) (now : u64)
| OpAdd (caller new_member : IdentityId) (now_added now : u64)
| OpRemoveMember (caller target : IdentityId) (now : u64).

Definition op_caller (op : group_op) : IdentityId :=
  match op with OpPromote c _ _ _ | OpDemote c _ _ _ | OpAdd c _ _ _ | OpRemoveMember c _ _ => c end.

(** The identity an operation is about. *)
Definition op_subject (op : group_op) : IdentityId :=
  match op with OpPromote _ t _ _ | OpDemote _ t _ _ | OpAdd _ t _ _ | OpRemoveMember _ t _ => t end.

Definition op_time (op : group_op) : u64 :=
  match op with OpPromote _ _ _ t | OpDemote _ _ _ t | OpAdd _ _ _ t | OpRemoveMember _ _ t => t end.

Definition members_after (op : group_op) (man : GroupManifest) : list GroupMember :=
  match op with
  | OpPromote _ t r _ | OpDemote _ t r _ => modify_first (same_id t) (set_role r) (man_members man)
  | OpAdd _ t ta _ =>
      man_members man ++ [mkGroupMember t (mkMachineId (arr_fill 16 Byte.x00)) Member ta]
  | OpRemoveMember _ t _ => retain (λ m, negb (same_id t m)) (man_members man)
  end.

(** The manifest an accepted, effective operation leaves. *)
Definition after (op : group_op) (man : GroupManifest) : GroupManifest :=
  normalize_members (bump (op_time op) (with_members (members_after op man) man)).

Definition role_of (man : GroupManifest) (id : IdentityId) : option Role :=
  gm_role <$> find (same_id id) (man_members man).

Section group_spec.
Context `{R : RocksDB} `{P : PostcardLib}.

(** What the guards decide: an error, nothing to do ([None]), or the change. *)
Definition decide_op (op : group_op) (man : GroupManifest)
    : result GroupError (option GroupManifest) :=
  cr ← ok_or (role_of man (op_caller op)) (NotAMember (op_caller op));
  match op with
  | OpPromote _ t r _ =>
      tr ← ok_or (role_of man t) (NotAMember t);
      if role_privilege tr <=? role_privilege r then Err InvalidManifestUpdate
      else if check_permission cr (action_for_role_change r) (Some tr) then Ok (Some (after op man))
      else Err (PermissionDenied cr (action_for_role_change r))
  | OpDemote _ t r _ =>
      tr ← ok_or (role_of man t) (NotAMember t);
      if role_privilege r <=? role_privilege tr then Err InvalidManifestUpdate
      else if check_permission cr (action_for_role_change tr) (Some tr) then Ok (Some (after op man))
      else Err (PermissionDenied cr (action_for_role_change tr))
  | OpAdd _ t _ _ =>
      if negb (check_permission cr AddMember None) then Err (PermissionDenied cr AddMember)
      else match role_of man t with
           | Some _ => Ok None
           | None =>
               if MAX_GROUP_SIZE <=? length (man_members man) then
                 Err (GroupFull (length (man_members man)))
               else Ok (Some (after op man))
           end
  | OpRemoveMember _ t _ =>
      tr ← ok_or (role_of man t) (NotAMember t);
      if check_permission cr RemoveMember (Some tr) &&
         (bool_decide (cr = Owner) || (role_privilege cr <? role_privilege tr))
      then Ok (Some (after op man))
      else Err (PermissionDenied cr RemoveMember)
  end.
End group_spec.

(** ** Membership lemmas *)

Definition member_ids (l : list GroupMember) : list IdentityId := gm_identity_id <$> l.

(** At most 256 members, one entry per identity, in the order of their identities. *)
Definition man_wf (man : GroupManifest) : Prop :=
  NoDup (member_ids (man_members man)) ∧
  StronglySorted (cmp_le member_cmp) (man_members man) ∧
  length (man_members man) ≤ MAX_GROUP_SIZE.

Lemma same_id_true id m : same_id id m = true ↔ gm_identity_id m = id.
Proof. unfold same_id. apply bool_decide_eq_true. Qed.

Lemma find_member id l m :
  NoDup (member_ids l) → find (same_id id) l = Some m ↔ m ∈ l ∧ gm_identity_id m = id.
Proof.
  intros Hn. split.
  - intros [? Hs]%find_some. by rewrite same_id_true in Hs.
  - intros [Hin Hid]. induction l as [|x l IHl]; [by apply elem_of_nil in Hin|].
    apply NoDup_cons in Hn as [Hx Hn]. simpl.
    apply elem_of_cons in Hin as [->|Hin]; [by rewrite (proj2 (same_id_true id x))|].
    destruct (same_id id x) eqn:Hs; [|by apply IHl].
    apply same_id_true in Hs. destruct Hx. apply list_elem_of_fmap. exists m.
    split; [congruence|done].
Qed.

Lemma find_perm id l1 l2 :
  NoDup (member_ids l1) → l1 ≡ₚ l2 → find (same_id id) l1 = find (same_id id) l2.
Proof.
  intros Hn Hp. assert (NoDup (member_ids l2)) as Hn2.
  { unfold member_ids in *. by rewrite <-Hp. }
  destruct (find (same_id id) l1) as [m|] eqn:H1; symmetry.
  - apply find_member; [done|]. apply find_member in H1; [|done]. by rewrite <-Hp.
  - apply find_none. intros x Hx. rewrite <-Hp in Hx. by eapply find_none in H1.
Qed.

Lemma member_ids_modify id r l :
  member_ids (modify_first (same_id id) (set_role r) l) = member_ids l.
Proof.
  unfold member_ids. induction l as [|x l IHl]; [done|]. simpl.
  destruct (same_id id x); [done|]. simpl. by f_equal.
Qed.

Lemma length_modify {A} (p : A → bool) f l : length (modify_first p f l) = length l.
Proof. induction l as [|x l IHl]; simpl; [done|]. destruct (p x); simpl; congruence. Qed.

Lemma find_modify_ne id t r l :
  id ≠ t → find (same_id id) (modify_first (same_id t) (set_role r) l) = find (same_id id) l.
Proof.
  intros Hne. induction l as [|x l IHl]; simpl; [done|].
  destruct (same_id t x) eqn:Ht; simpl.
  - apply same_id_true in Ht. unfold same_id at 1 3. simpl. by rewrite bool_decide_false by congruence.
  - destruct (same_id id x); [done|apply IHl].
Qed.

Lemma find_modify_eq t r l m :
  find (same_id t) l = Some m →
  find (same_id t) (modify_first (same_id t) (set_role r) l) = Some (set_role r m).
Proof.
  induction l as [|x l IHl]; simpl; [done|]. destruct (same_id t x) eqn:Ht; simpl.
  - intros [= ->]. unfold same_id in *. simpl. by rewrite Ht.
  - rewrite Ht. apply IHl.
Qed.

Lemma find_retain id t l :
  find (same_id id) (retain (λ m, negb (same_id t m)) l) =
    if decide (id = t) then None else find (same_id id) l.
Proof.
  induction l as [|x l IHl]; [by case_decide|]. unfold retain in *. rewrite filter_cons.
  destruct (same_id t x) eqn:Ht.
  - rewrite decide_False by done. rewrite IHl. apply same_id_true in Ht.
    case_decide as Hd; [done|]. simpl. unfold same_id at 2.
    by rewrite bool_decide_false by congruence.
  - rewrite decide_True by done. simpl. rewrite IHl. destruct (same_id id x) eqn:Hid; [|done].
    case_decide as Hd; [|done]. subst. congruence.
Qed.

Lemma find_push id l e :
  find (same_id id) (l ++ [e]) =
    match find (same_id id) l with
    | Some m => Some m
    | None => if same_id id e then Some e else None
    end.
Proof. induction l as [|x l IHl]; simpl; [done|]. by destruct (same_id id x). Qed.

Lemma role_of_none man id : role_of man id = None ↔ id ∉ member_ids (man_members man).
Proof.
  unfold role_of. rewrite fmap_None, find_none. unfold member_ids. rewrite list_elem_of_fmap. split.
  - intros H (m & -> & Hm). specialize (H m Hm). unfold same_id in H.
    by rewrite bool_decide_true in H.
  - intros H m Hm. apply bool_decide_eq_false. intros <-. apply H. eauto.
Qed.

Lemma any_member id l : any (same_id id) l = true ↔ id ∈ member_ids l.
Proof.
  rewrite any_true. unfold member_ids. rewrite list_elem_of_fmap.
  setoid_rewrite same_id_true. naive_solver.
Qed.

(** The members an operation leaves, role by role. *)
Lemma role_after op man id :
  NoDup (member_ids (members_after op man)) →
  role_of (after op man) id = gm_role <$> find (same_id id) (members_after op man).
Proof.
  intros Hn. unfold role_of, after, normalize_members, bump, with_members. simpl.
  f_equal. symmetry. apply find_perm; [done|]. by rewrite sort_by_perm.
Qed.

Lemma members_after_NoDup op man :
  NoDup (member_ids (man_members man)) →
  (∀ c t ta tn, op = OpAdd c t ta tn → role_of man t = None) →
  NoDup (member_ids (members_after op man)).
Proof.
  intros Hn Hadd. destruct op as [c t r now|c t r now|c t ta now|c t now]; simpl.
  - by rewrite member_ids_modify.
  - by rewrite member_ids_modify.
  - specialize (Hadd c t ta now eq_refl). apply role_of_none in Hadd.
    unfold member_ids in *. rewrite fmap_app. simpl.
    apply NoDup_app. split_and!; [done| |by apply NoDup_singleton].
    intros x Hx ->%list_elem_of_singleton. done.
  - unfold retain, member_ids in *.
    eapply sublist_NoDup; [exact Hn|]. apply fmap_sublist, sublist_filter.
Qed.

Lemma length_members_after op man :
  length (members_after op man) ≤
    match op with OpAdd _ _ _ _ => S (length (man_members man)) | _ => length (man_members man) end.
Proof.
  destruct op; simpl; rewrite ?length_modify; try lia.
  - rewrite length_app. simpl. lia.
  - unfold retain. apply length_filter.
Qed.

Section group_decide.
Context `{R : RocksDB} `{P : PostcardLib}.

(** What an accepted operation says about its caller and subject. *)
Lemma decide_op_some op man man' :
  decide_op op man = Ok (Some man') →
  man' = after op man ∧
  (∃ cr, role_of man (op_caller op) = Some cr ∧
    match op with
    | OpPromote _ t r _ => ∃ tr, role_of man t = Some tr ∧
        role_privilege r < role_privilege tr ∧
        check_permission cr (action_for_role_change r) (Some tr) = true
    | OpDemote _ t r _ => ∃ tr, role_of man t = Some tr ∧
        role_privilege tr < role_privilege r ∧
        check_permission cr (action_for_role_change tr) (Some tr) = true
    | OpAdd _ t _ _ => check_permission cr AddMember None = true ∧ role_of man t = None ∧
        length (man_members man) < MAX_GROUP_SIZE
    | OpRemoveMember _ t _ => ∃ tr, role_of man t = Some tr ∧
        check_permission cr RemoveMember (Some tr) = true ∧
        (cr = Owner ∨ role_privilege cr < role_privilege tr)
    end).
Proof.
  unfold decide_op. destruct (role_of man (op_caller op)) as [cr|]; [|done]. simpl.
  destruct op as [c t r now|c t r now|c t ta now|c t now]; simpl.
  - destruct (role_of man t) as [tr|]; [|done]. simpl.
    destruct (Nat.leb_spec (role_privilege tr) (role_privilege r)); [done|].
    destruct (check_permission _ _ _) eqn:Hc; [|done]. intros [= <-]. eauto 10.
  - destruct (role_of man t) as [tr|]; [|done]. simpl.
    destruct (Nat.leb_spec (role_privilege r) (role_privilege tr)); [done|].
    destruct (check_permission _ _ _) eqn:Hc; [|done]. intros [= <-]. eauto 10.
  - destruct (check_permission _ _ _) eqn:Hc; [|done]. simpl.
    destruct (role_of man t) eqn:Ht; [done|].
    destruct (Nat.leb_spec MAX_GROUP_SIZE (length (man_members man))); [done|].
    intros [= <-]. eauto 10.
  - destruct (role_of man t) as [tr|]; [|done]. simpl.
    destruct (check_permission _ _ _) eqn:Hc; [|done]. simpl.
    destruct (bool_decide (cr = Owner)) eqn:Ho; simpl.
    + apply bool_decide_eq_true in Ho. intros [= <-]. split; [done|]. eauto 10.
    + destruct (Nat.ltb_spec (role_privilege cr) (role_privilege tr)); [|done].
      intros [= <-]. split; [done|]. eauto 10.
Qed.

(** Well-formedness is kept. *)
Lemma decide_op_wf op man man' :
  man_wf man → decide_op op man = Ok (Some man') → man_wf man'.
Proof.
  intros (Hn & Hs & Hl) Hd. apply decide_op_some in Hd as (-> & cr & Hcr & Hop).
  assert (NoDup (member_ids (members_after op man))) as Hn'.
  { apply members_after_NoDup; [done|]. intros c t ta tn ->. tauto. }
  assert (length (members_after op man) ≤ MAX_GROUP_SIZE) as Hl'.
  { pose proof (length_members_after op man). destruct op; try lia. }
  unfold after, normalize_members, bump, with_members, man_wf. simpl. split_and!.
  - unfold member_ids in *. by rewrite sort_by_perm.
  - apply sort_by_sorted, _.
  - by rewrite length_sort_by.
Qed.

(** Roles other than the subject's stay. *)
Lemma decide_op_others op man man' id :
  man_wf man → decide_op op man = Ok (Some man') → id ≠ op_subject op →
  role_of man' id = role_of man id.
Proof.
  intros (Hn & Hs & Hl) Hd Hid. apply decide_op_some in Hd as (-> & cr & Hcr & Hop).
  rewrite role_after.
  2:{ apply members_after_NoDup; [done|]. intros c t ta tn ->. tauto. }
  unfold role_of. f_equal. destruct op as [c t r now|c t r now|c t ta now|c t now]; simpl in *.
  - by apply find_modify_ne.
  - by apply find_modify_ne.
  - rewrite find_push. destruct (find (same_id id) (man_members man)); [done|].
    unfold same_id. simpl. by rewrite bool_decide_false.
  - rewrite find_retain. by rewrite decide_False.
Qed.

(** The subject's role before and after. *)
Lemma decide_op_subject op man man' :
  man_wf man → decide_op op man = Ok (Some man') →
  role_of man' (op_subject op) =
    match op with
    | OpPromote _ _ r _ | OpDemote _ _ r _ => Some r
    | OpAdd _ _ _ _ => Some Member
    | OpRemoveMember _ _ _ => None
    end.
Proof.
  intros (Hn & Hs & Hl) Hd. apply decide_op_some in Hd as (-> & cr & Hcr & Hop).
  rewrite role_after.
  2:{ apply members_after_NoDup; [done|]. intros c t ta tn ->. tauto. }
  destruct op as [c t r now|c t r now|c t ta now|c t now]; simpl in *.
  - destruct Hop as (tr & Ht & _). unfold role_of in Ht. apply fmap_Some in Ht as (m & Hm & _).
    by rewrite (find_modify_eq t r _ m).
  - destruct Hop as (tr & Ht & _). unfold role_of in Ht. apply fmap_Some in Ht as (m & Hm & _).
    by rewrite (find_modify_eq t r _ m).
  - destruct Hop as (_ & Ht & _). unfold role_of in Ht. apply fmap_None in Ht.
    rewrite find_push, Ht. unfold same_id. simpl. by rewrite bool_decide_true.
  - rewrite find_retain. by rewrite decide_True.
Qed.
End group_decide.

(** ** [CF_GROUPS] as two finite maps *)

Abbreviation group_map := (gmap GroupId GroupManifest).
Abbreviation gmsg_map := (gmap (GroupId * GroupMessageId) GroupMessage).

#[export] Instance group_key_inj : Inj (=) (=) group_key.
Proof. intros a b H. by apply (inj group_id_0), (inj arr_bytes). Qed.

Definition gmsg_key (k : GroupId * GroupMessageId) : bytes := group_msg_key k.1 k.2.

Lemma group_msg_key_prefix g m :
  group_msg_key g m = group_msg_prefix g ++ arr_bytes (group_message_id_0 m).
Proof. unfold group_msg_key, group_msg_prefix. by rewrite <-(assoc_L (++)). Qed.

Lemma length_group_msg_prefix g : length (group_msg_prefix g) = 26.
Proof. unfold group_msg_prefix. by rewrite length_app, length_arr. Qed.

Lemma group_msg_prefix_inj g g' : group_msg_prefix g = group_msg_prefix g' → g = g'.
Proof.
  unfold group_msg_prefix. intros H. apply app_inj_1 in H as [_ H]; [|done].
  by apply (inj group_id_0), (inj arr_bytes).
Qed.

#[export] Instance gmsg_key_inj : Inj (=) (=) gmsg_key.
Proof.
  intros [g m] [g' m']. unfold gmsg_key. cbn [fst snd]. rewrite !group_msg_key_prefix. intros H.
  apply app_inj_1 in H as [H1 H2]; [|by rewrite !length_group_msg_prefix].
  apply group_msg_prefix_inj in H1 as ->.
  by apply (inj arr_bytes), (inj group_message_id_0) in H2 as ->.
Qed.

Lemma gmsg_prefix_iff g g' m :
  starts_with (group_msg_key g' m) (group_msg_prefix g) = true ↔ g' = g.
Proof.
  rewrite group_msg_key_prefix. split.
  - intros H. symmetry. apply group_msg_prefix_inj.
    eapply starts_with_eq_len; [|exact H]. by rewrite !length_group_msg_prefix.
  - intros ->. apply starts_with_app.
Qed.

Definition group_fam (b : bytes) : bool := length b =? 16.
Definition gmsg_fam (b : bytes) : bool := starts_with b GROUP_MSG_PREFIX && (26 <=? length b).

Lemma group_fam_key g : group_fam (group_key g) = true.
Proof. unfold group_fam, group_key. by rewrite length_arr. Qed.

Lemma gmsg_fam_prefix g r : gmsg_fam (group_msg_prefix g ++ r) = true.
Proof.
  unfold gmsg_fam. apply andb_true_iff. split.
  - unfold group_msg_prefix. rewrite <-(assoc_L (++)). apply starts_with_app.
  - apply Nat.leb_le. rewrite length_app, length_group_msg_prefix. lia.
Qed.

Lemma gmsg_fam_key k : gmsg_fam (gmsg_key k) = true.
Proof. unfold gmsg_key. rewrite group_msg_key_prefix. apply gmsg_fam_prefix. Qed.

Definition group_space : keyspace GroupId :=
  KeySpace CF_GROUPS group_key group_fam _ group_fam_key.

Definition gmsg_space : keyspace (GroupId * GroupMessageId) :=
  KeySpace CF_GROUPS gmsg_key gmsg_fam _ gmsg_fam_key.

Lemma gmsg_key_not_group k : group_fam (gmsg_key k) = false.
Proof.
  unfold group_fam, gmsg_key. rewrite group_msg_key_prefix, length_app, length_group_msg_prefix.
  by rewrite length_arr.
Qed.

Lemma group_key_not_gmsg g : gmsg_fam (group_key g) = false.
Proof.
  unfold gmsg_fam, group_key. rewrite length_arr. apply andb_false_r.
Qed.

Section group_laws.
Context `{ROk : RocksOk} `{P : PostcardLib}.
Context `{!Postcard GroupManifest, !PostcardOk GroupManifest}.
Context `{!Postcard GroupMessage, !PostcardOk GroupMessage}.
Implicit Types (G : group_map) (GM : gmsg_map) (db : DB) (st : store).

Definition groups_repr st G GM : Prop := repr group_space st G ∧ repr gmsg_space st GM.

Lemma groups_insert_man st G GM g v :
  groups_repr st G GM →
  groups_repr (<[(CF_GROUPS, group_key g) := enc v]> st) (<[g := v]> G) GM.
Proof using.
  intros [HG HM]. split; [by apply (repr_insert group_space)|].
  apply repr_frame_insert; [|done]. intros _. apply group_key_not_gmsg.
Qed.

Lemma groups_insert_msg st G GM k v :
  groups_repr st G GM →
  groups_repr (<[(CF_GROUPS, gmsg_key k) := enc v]> st) G (<[k := v]> GM).
Proof using.
  intros [HG HM]. split; [|by apply (repr_insert gmsg_space)].
  apply repr_frame_insert; [|done]. intros _. apply gmsg_key_not_group.
Qed.

Lemma get_manifest_run db G GM g :
  good db → groups_repr (contents db) G GM →
  get_manifest db g = ok_or (G !! g) (GroupNotFound g).
Proof using PostcardOk0.
  intros Hg [HG _]. unfold get_manifest.
  pose proof (get_raw_space group_space G db g Hg ltac:(cf_mem) HG) as Hget.
  cbn [ks_cf ks_key group_space] in Hget. rewrite Hget.
  destruct (G !! g) as [m|]; simpl; [|done].
  unfold decode_manifest. by rewrite from_bytes_enc.
Qed.

Lemma put_manifest_run db G GM g m :
  good db → groups_repr (contents db) G GM →
  ∃ st, runs (put_manifest g m) db (Ok ()) st ∧
    groups_repr st (<[g := normalize_members m]> G) GM.
Proof using PostcardOk0.
  intros Hg HG. eexists. split; [|by apply groups_insert_man].
  unfold put_manifest, encode_manifest. rewrite to_vec_enc.
  eapply runs_bind_lift; [done|].
  eapply runs_bind; [apply (runs_map_err _ _ _ (Ok ())), put_raw_good; [done|cf_mem]|].
  intros. by apply runs_done.
Qed.

Definition run_group_op (g : GroupId) (op : group_op) : io DB GroupError () :=
  match op with
  | OpPromote c t r now => promote g c t r now
  | OpDemote c t r now => demote g c t r now
  | OpAdd c t ta now => add_member g c t ta now
  | OpRemoveMember c t now => remove_member g c t now
  end.

Definition spec_group_op (g : GroupId) (op : group_op) G : group_map * result GroupError () :=
  match G !! g with
  | None => (G, Err (GroupNotFound g))
  | Some man =>
      match decide_op op man with
      | Err e => (G, Err e)
      | Ok None => (G, Ok ())
      | Ok (Some man') => (<[g := man']> G, Ok ())
      end
  end.

(** What a handler does once its guards have decided. *)
Definition act_on (g : GroupId) (op : group_op) (man : GroupManifest)
    (d : result GroupError (option GroupManifest)) : io DB GroupError () :=
  match d with
  | Err e => fails e
  | Ok None => mret ()
  | Ok (Some _) => put_manifest g (bump (op_time op) (with_members (members_after op man) man))
  end.

Ltac guards := repeat (cbn [ok_or negb andb orb mbind result_bind fmap option_fmap option_map];
  match goal with
  | |- context [?a <? ?b] => rewrite (Nat.ltb_antisym b a)
  | |- context [find ?p ?l] => destruct (find p l)
  | |- context [?a <=? ?b] => destruct (a <=? b)
  | |- context [check_permission ?a ?b ?c] => destruct (check_permission a b c)
  | |- context [bool_decide ?p] => destruct (bool_decide p)
  end); try done.

Lemma group_op_decided g op db man :
  get_manifest db g = Ok man → run_group_op g op db = act_on g op man (decide_op op man) db.
Proof using.
  intros Hman. unfold act_on, decide_op, role_of.
  destruct op; cbn [run_group_op op_caller op_time];
    unfold promote, demote, add_member, remove_member, reads, lift, fails, mbind, io_bind;
    rewrite Hman, ?any_as_find; guards.
Qed.

Lemma group_op_unknown g op db e :
  get_manifest db g = Err e → run_group_op g op db = (db, Err e).
Proof using.
  intros He. destruct op; cbn [run_group_op];
    unfold promote, demote, add_member, remove_member, reads, mbind, io_bind; by rewrite He.
Qed.

Lemma group_op_run g op db G GM :
  good db → groups_repr (contents db) G GM →
  ∃ st, runs (run_group_op g op) db (spec_group_op g op G).2 st ∧
    groups_repr st (spec_group_op g op G).1 GM.
Proof using PostcardOk0.
  intros Hg HG. pose proof (get_manifest_run db G GM g Hg HG) as Hman.
  unfold spec_group_op. destruct (G !! g) as [man|]; cbn [ok_or] in Hman.
  2:{ apply runs_stay; [done| |done]. by apply group_op_unknown. }
  pose proof (group_op_decided g op db man Hman) as Hact.
  destruct (decide_op op man) as [[man'|]|e] eqn:Hd.
  - apply decide_op_some in Hd as [-> _].
    destruct (put_manifest_run db G GM g (bump (op_time op)
      (with_members (members_after op man) man)) Hg HG) as (st & (db' & Hp & ?) & ?).
    exists st. split; [|done]. exists db'. split; [|done]. by rewrite Hact.
  - by apply runs_stay.
  - by apply runs_stay.
Qed.
End group_laws.

(** ** Creation and messages *)

Definition with_gstatus (s : GroupMessageStatus) (m : GroupMessage) : GroupMessage :=
  mkGroupMessage (gmsg_id m) (gmsg_group_id m) (gmsg_sender_identity m) (gmsg_sender_machine m)
    (gmsg_text m) (gmsg_mls_epoch m) (gmsg_created_at_ms m) s.

Definition own_gkey (m : GroupMessage) : GroupId * GroupMessageId := (gmsg_group_id m, gmsg_id m).

(** The manifest a successful [create_group] writes. *)
Definition new_manifest (label : rstr) (founders : list IdentityId) (uuid : arr 16) (now : u64)
    : GroupManifest :=
  normalize_members (mkGroupManifest (mkGroupId uuid) label
    (default (mkIdentityId (arr_fill 16 Byte.x00)) (head founders))
    ((λ id, mkGroupMember id (mkMachineId (arr_fill 16 Byte.x00)) Owner now) <$> founders)
    (umk 64 0) [] now now).

Section group_msgs.
Context `{ROk : RocksOk} `{P : PostcardLib}.
Context `{!Postcard GroupManifest, !PostcardOk GroupManifest}.
Context `{!Postcard GroupMessage, !PostcardOk GroupMessage}.
Implicit Types (G : group_map) (GM : gmsg_map) (db : DB) (st : store).

Definition spec_create (label : rstr) (founders : list IdentityId) (uuid : arr 16) (now : u64) G
    : group_map * result GroupError GroupId :=
  if 64 <? str_len label then (G, Err (NameTooLong (str_len label)))
  else (<[mkGroupId uuid := new_manifest label founders uuid now]> G, Ok (mkGroupId uuid)).

Lemma create_group_run label founders uuid now db G GM :
  good db → groups_repr (contents db) G GM →
  ∃ st, runs (create_group label founders uuid now) db (spec_create label founders uuid now G).2 st ∧
    groups_repr st (spec_create label founders uuid now G).1 GM.
Proof using PostcardOk0.
  intros Hg HG. unfold spec_create, create_group. destruct (64 <? _); cbn [fst snd].
  { by apply (runs_fail (λ st, groups_repr st G GM)). }
  eexists. split; [|by apply groups_insert_man].
  unfold encode_manifest. rewrite to_vec_enc. eapply runs_bind_lift; [done|].
  eapply runs_bind; [apply (runs_map_err _ _ _ (Ok ())), put_raw_good; [done|cf_mem]|].
  intros. by apply runs_done.
Qed.

Lemma get_gmsg_raw db G GM k :
  good db → groups_repr (contents db) G GM →
  get_raw db CF_GROUPS (gmsg_key k) = Ok (enc <$> GM !! k).
Proof using.
  intros Hg [_ HM]. apply (get_raw_space gmsg_space); [done|cf_mem|done].
Qed.

Lemma put_gmsg_run {A} db G GM k v (a : A) :
  good db → groups_repr (contents db) G GM →
  ∃ st, runs (io_map_err GStorage (put_raw CF_GROUPS (gmsg_key k) (enc v));; mret a) db (Ok a) st ∧
    groups_repr st G (<[k := v]> GM).
Proof using.
  intros Hg HG. eexists. split; [|by apply groups_insert_msg].
  eapply runs_bind; [apply (runs_map_err _ _ _ (Ok ())), put_raw_good; [done|cf_mem]|].
  intros. by apply runs_done.
Qed.

Definition spec_gsend (g : GroupId) (sender : IdentityId) (machine : MachineId) (text : rstr)
    (uuid : arr 16) (now : u64) G GM : gmsg_map * result GroupError GroupMessageId :=
  match G !! g with
  | None => (GM, Err (GroupNotFound g))
  | Some man =>
      match role_of man sender with
      | None => (GM, Err (NotAMember sender))
      | Some _ =>
          (<[(g, mkGroupMessageId uuid) :=
             mkGroupMessage (mkGroupMessageId uuid) g sender machine text (man_mls_epoch man) now
               GSent]> GM, Ok (mkGroupMessageId uuid))
      end
  end.

Lemma send_message_run g sender machine text uuid now db G GM :
  good db → groups_repr (contents db) G GM →
  ∃ st, runs (send_message g sender machine text uuid now) db
      (spec_gsend g sender machine text uuid now G GM).2 st ∧
    groups_repr st G (spec_gsend g sender machine text uuid now G GM).1.
Proof using PostcardOk0 PostcardOk1.
  intros Hg HG. pose proof (get_manifest_run db G GM g Hg HG) as Hman.
  unfold spec_gsend, send_message. destruct (G !! g) as [man|]; simpl in Hman.
  2:{ apply runs_stay; [done| |done]. unfold reads, mbind, io_bind. by rewrite Hman. }
  eapply runs_reads_then; [exact Hman|].
  destruct (any (same_id sender) (man_members man)) eqn:Ha; simpl negb; cbv iota.
  - destruct (role_of man sender) eqn:Hr.
    2:{ apply role_of_none in Hr. by apply any_member in Ha. }
    eapply runs_lift_then; [by rewrite to_vec_enc|].
    apply (put_gmsg_run db G GM (g, mkGroupMessageId uuid)); done.
  - destruct (role_of man sender) eqn:Hr.
    { apply not_true_iff_false in Ha. destruct Ha. apply any_member.
      destruct (decide (sender ∈ member_ids (man_members man))) as [|Hn]; [done|].
      apply role_of_none in Hn. congruence. }
    by apply (runs_fail (λ st, groups_repr st G GM)).
Qed.

Definition spec_receive (m : GroupMessage) G GM : gmsg_map * result GroupError bool :=
  match G !! gmsg_group_id m with
  | None => (GM, Err (GroupNotFound (gmsg_group_id m)))
  | Some _ =>
      match GM !! own_gkey m with
      | Some _ => (GM, Ok false)
      | None => (<[own_gkey m := m]> GM, Ok true)
      end
  end.

Lemma receive_message_run m db G GM :
  good db → groups_repr (contents db) G GM →
  ∃ st, runs (receive_message m) db (spec_receive m G GM).2 st ∧
    groups_repr st G (spec_receive m G GM).1.
Proof using PostcardOk0 PostcardOk1.
  intros Hg HG. pose proof (get_manifest_run db G GM (gmsg_group_id m) Hg HG) as Hman.
  pose proof (get_gmsg_raw db G GM (own_gkey m) Hg HG) as Hget.
  unfold spec_receive, receive_message. destruct (G !! gmsg_group_id m) as [man|]; simpl in Hman.
  2:{ apply runs_stay; [done| |done]. unfold reads, mbind, io_bind. by rewrite Hman. }
  eapply runs_reads_then; [exact Hman|]. cbv zeta.
  change (group_msg_key (gmsg_group_id m) (gmsg_id m)) with (gmsg_key (own_gkey m)).
  eapply runs_reads_then; [by rewrite Hget|].
  destruct (GM !! own_gkey m) as [m'|]; cbn [fst snd fmap option_fmap option_map].
  - by apply (runs_ret (λ st, groups_repr st G GM)).
  - eapply runs_lift_then; [by rewrite to_vec_enc|]. by apply put_gmsg_run.
Qed.

Lemma group_get_message_run g mid db G GM :
  good db → groups_repr (contents db) G GM →
  group_get_message db g mid = Ok (GM !! (g, mid)).
Proof using PostcardOk1.
  intros Hg HG. unfold group_get_message.
  change (group_msg_key g mid) with (gmsg_key (g, mid)).
  rewrite (get_gmsg_raw db G GM) by done. simpl.
  destruct (GM !! (g, mid)); simpl; [by rewrite from_bytes_enc|done].
Qed.

Definition spec_greceipt (r : GroupReceiptPayload) GM : gmsg_map * result GroupError bool :=
  match GM !! (grp_group_id r, grp_message_id r) with
  | None => (GM, Ok false)
  | Some m =>
      if gstatus_rank (gmsg_status m) <? gstatus_rank (grp_status r) then
        (<[(grp_group_id r, grp_message_id r) := with_gstatus (grp_status r) m]> GM, Ok true)
      else (GM, Ok false)
  end.

Lemma group_process_receipt_run r db G GM :
  good db → groups_repr (contents db) G GM →
  ∃ st, runs (group_process_receipt r) db (spec_greceipt r GM).2 st ∧
    groups_repr st G (spec_greceipt r GM).1.
Proof using PostcardOk1.
  intros Hg HG.
  pose proof (get_gmsg_raw db G GM (grp_group_id r, grp_message_id r) Hg HG) as Hget.
  unfold spec_greceipt, group_process_receipt. cbv zeta.
  change (group_msg_key (grp_group_id r) (grp_message_id r))
    with (gmsg_key (grp_group_id r, grp_message_id r)).
  eapply runs_reads_then; [by rewrite Hget|].
  destruct (GM !! _) as [m|]; cbn [fst snd fmap option_fmap option_map].
  2:{ by apply (runs_ret (λ st, groups_repr st G GM)). }
  eapply runs_lift_then; [by rewrite from_bytes_enc|]. unfold is_forward_transition.
  destruct (_ <? _); cbn [negb fst snd].
  - eapply runs_lift_then; [by rewrite to_vec_enc|]. by apply put_gmsg_run.
  - by apply (runs_ret (λ st, groups_repr st G GM)).
Qed.
End group_msgs.

#[export] Instance newest_first_ok : CmpOk newest_first.
Proof.
  split.
  - intros x. unfold newest_first. by rewrite !cmp_refl.
  - intros x y. unfold newest_first.
    rewrite (cmp_opp (cmp:=ucmp) (gmsg_created_at_ms y)).
    rewrite (cmp_opp (cmp:=arr_cmp) (group_message_id_0 (gmsg_id y))).
    by destruct (ucmp _ _), (arr_cmp _ _).
  - intros x y z. unfold newest_first, ucmp, arr_cmp. rewrite !be_Z_cmp by by rewrite !length_arr.
    repeat match goal with |- context [Z.compare ?a ?b] => destruct (Z.compare_spec a b) end;
      simpl; try done; lia.
Qed.

Section group_list.
Context `{ROk : RocksOk} `{P : PostcardLib}.
Context `{!Postcard GroupMessage, !PostcardOk GroupMessage}.
Implicit Types (G : group_map) (GM : gmsg_map) (db : DB).

Definition before_gok (before : option GroupMessageId) (m : GroupMessageId) : Prop :=
  match before with
  | Some cursor => arr_cmp (group_message_id_0 m) (group_message_id_0 cursor) = Lt
  | None => True
  end.

#[export] Instance before_gok_dec before m : Decision (before_gok before m).
Proof using. destruct before; simpl; apply _. Defined.

(** The messages of a group below the cursor, in key order. *)
Definition group_msgs GM (g : GroupId) (before : option GroupMessageId) : list GroupMessage :=
  filter (λ m, before_gok before (gmsg_id m)) (snd <$> entries gmsg_space (λ k, k.1 = g) GM).

Lemma list_messages_run db GM g before limit :
  good db → repr gmsg_space (contents db) GM →
  list_messages db g before limit =
    Ok (take limit (sort_by newest_first (group_msgs GM g before))).
Proof using PostcardOk0.
  intros Hg HG. unfold list_messages. rewrite good_handle; [|done|cf_mem].
  cbn [map_err mbind result_bind].
  pose (keep := λ acc m, if decide (before_gok before (gmsg_id m)) then acc ++ [m] else acc).
  rewrite (prefix_for_each _ (λ acc kv,
    match from_bytes kv.2 with Ok m => keep acc m | Err _ => acc end)); [|done|cf_mem|..].
  - cbn [mbind result_bind]. do 2 f_equal. change CF_GROUPS with (ks_cf gmsg_space).
    rewrite (repr_filter gmsg_space _ GM (λ b, starts_with b (group_msg_prefix g))
      (λ k, k.1 = g)); [|done| |].
    + unfold group_msgs. f_equal. generalize (entries gmsg_space (λ k, k.1 = g) GM). intros l.
      assert (∀ acc, foldl (λ acc (kv : bytes * bytes),
          match from_bytes kv.2 with Ok m => keep acc m | Err _ => acc end) acc
          (stored gmsg_space <$> l) =
        acc ++ filter (λ m, before_gok before (gmsg_id m)) (snd <$> l)) as ->; [|done].
      induction l as [|x l IHl]; intros acc; simpl; [by rewrite app_nil_r|].
      rewrite from_bytes_enc, IHl, filter_cons. unfold keep.
      case_decide; [by rewrite <-(assoc_L (++))|done].
    + intros b [r ->]%starts_with_iff. apply gmsg_fam_prefix.
    + intros [g' m]. apply gmsg_prefix_iff.
  - intros acc [k v] Hin Hk. apply elem_of_view in Hin. simpl in Hk.
    unfold list_step. cbn [map_err mbind result_bind]. rewrite Hk. cbn [negb snd].
    assert (∃ m, from_bytes v = Ok m) as [m Hm].
    { destruct HG as [Hlk Hfam]. destruct (Hfam k v Hin) as [k' ->].
      { apply starts_with_iff in Hk as [r ->]. apply gmsg_fam_prefix. }
      change CF_GROUPS with (ks_cf gmsg_space) in Hin. rewrite Hlk in Hin.
      apply fmap_Some in Hin as (m & _ & ->). exists m. apply from_bytes_enc. }
    rewrite Hm. cbn [map_err mbind result_bind]. unfold keep.
    destruct before as [c|]; [|by rewrite decide_True].
    case_decide as Hd; simpl in Hd; [by rewrite Hd|by destruct (arr_cmp _ _)].
  - intros acc [k v] Hk. unfold list_step. cbn [map_err mbind result_bind fst] in *.
    by rewrite Hk.
Qed.

Lemma elem_of_group_msgs GM g before m :
  m ∈ group_msgs GM g before ↔
    before_gok before (gmsg_id m) ∧ ∃ mid, GM !! (g, mid) = Some m.
Proof using.
  unfold group_msgs. rewrite list_elem_of_filter, list_elem_of_fmap. split.
  - intros [Hb ([[g' mid] m'] & -> & Hin)].
    apply (elem_of_entries gmsg_space (λ k, k.1 = g)) in Hin as [Hg Hin]. simpl in *. subst. eauto.
  - intros [Hb [mid Hm]]. split; [done|]. exists ((g, mid), m). split; [done|].
    by apply (elem_of_entries gmsg_space (λ k, k.1 = g)).
Qed.
End group_list.

(** ** Properties *)

(** The changes of one member's role that the role of the caller permits; [None] is not
    being a member. *)
Inductive may_change : Role → option Role → option Role → Prop :=
| owner_changes old new : may_change Owner old new
| admin_changes old new :
    old ≠ Some Owner → old ≠ Some Admin → new ≠ Some Owner → new ≠ Some Admin →
    may_change Admin old new
| moderator_changes : may_change Moderator (Some Member) None.

Section group_props.
Context `{ROk : RocksOk} `{P : PostcardLib}.
Context `{!Postcard GroupManifest, !PostcardOk GroupManifest}.
Context `{!Postcard GroupMessage, !PostcardOk GroupMessage}.
Implicit Types (G : group_map) (GM : gmsg_map) (db : DB).

Lemma decide_op_authority op man man' :
  man_wf man → decide_op op man = Ok (Some man') →
  ∃ cr, role_of man (op_caller op) = Some cr ∧
    may_change cr (role_of man (op_subject op)) (role_of man' (op_subject op)).
Proof using.
  intros Hw Hd. rewrite (decide_op_subject op man man' Hw Hd).
  apply decide_op_some in Hd as (_ & cr & Hcr & Hop). exists cr. split; [done|].
  destruct op as [c t r now|c t r now|c t ta now|c t now]; simpl in *.
  - destruct Hop as (tr & -> & Hlt & Hc). apply check_permission_table in Hc.
    destruct cr; [constructor| | |]; destruct r, tr; simpl in *; try lia;
      inversion Hc; by constructor.
  - destruct Hop as (tr & -> & Hlt & Hc). apply check_permission_table in Hc.
    destruct cr; [constructor| | |]; destruct r, tr; simpl in *; try lia;
      inversion Hc; by constructor.
  - destruct Hop as (Hc & -> & _). apply check_permission_table in Hc.
    destruct cr; [constructor|by constructor|inversion Hc..].
  - destruct Hop as (tr & -> & Hc & Hlt). apply check_permission_table in Hc.
    destruct cr; [constructor| | |]; destruct tr; simpl in *;
      destruct Hlt as [|Hlt]; try done; try lia; inversion Hc; by constructor.
Qed.

(** C6: promoting, demoting, adding and removing members: the handler answers as decided by
    the guards; a refused operation leaves the group as it was; an accepted one raises the
    epoch by one, stamps the update time, and changes at most the role of its subject, in a
    way the caller's role permits: only owners touch owners and admins, admins manage the
    rest, moderators only remove plain members, members change nothing. The member list stays
    sorted, free of duplicates and within 256 entries. *)
Theorem group_authority g op db G GM man :
  good db → groups_repr (contents db) G GM → G !! g = Some man → man_wf man →
  ∃ st man', runs (run_group_op g op) db (spec_group_op g op G).2 st ∧
    groups_repr st (<[g := man']> G) GM ∧ man_wf man' ∧
    (is_ok (spec_group_op g op G).2 = false → man' = man) ∧
    (man' = man ∨
      man_mls_epoch man' = uadd (man_mls_epoch man) (umk 64 1) ∧
      man_updated_at_ms man' = op_time op) ∧
    (∀ id, role_of man' id ≠ role_of man id →
      id = op_subject op ∧ ∃ cr, role_of man (op_caller op) = Some cr ∧
        may_change cr (role_of man id) (role_of man' id)).
Proof using PostcardOk0.
  intros Hg HG Hman Hw. destruct (group_op_run g op db G GM Hg HG) as (st & Hrun & HG').
  unfold spec_group_op in *. rewrite Hman in *.
  destruct (decide_op op man) as [[man'|]|e] eqn:Hd; cbn [fst snd] in *.
  - exists st, man'. split_and!; [done|done|by eapply decide_op_wf|done| |].
    + right. apply decide_op_some in Hd as [-> _]. done.
    + intros id Hne. destruct (decide (id = op_subject op)) as [->|Hid].
      * split; [done|]. by apply decide_op_authority.
      * by rewrite (decide_op_others op man man' id) in Hne.
  - exists st, man. rewrite insert_id by done. split_and!; by auto.
  - exists st, man. rewrite insert_id by done. split_and!; by auto.
Qed.

(** C24: any sequence of membership operations on a group keeps its manifest well formed, and
    each operation returns what its guards decide on the manifest of that moment. *)
Theorem group_history g ops db G GM man :
  good db → groups_repr (contents db) G GM → G !! g = Some man → man_wf man →
  let (G', rs) := history (spec_group_op g) ops G in
  ∃ db' man', history (run_group_op g) ops db = (db', rs) ∧ good db' ∧
    groups_repr (contents db') G' GM ∧ G' = <[g := man']> G ∧ man_wf man'.
Proof using PostcardOk0.
  intros Hg HG Hman Hw.
  destruct (history_sim (run_group_op g) (spec_group_op g) id
    (λ db G', good db ∧ groups_repr (contents db) G' GM ∧
       ∃ man', G' = <[g := man']> G ∧ man_wf man')) with (ops := ops) (s := db) (t := G)
    as [(Hg' & HG' & man' & Heq & Hw') Hrs].
  - intros op db1 G1 (Hg1 & HG1 & man1 & -> & Hw1).
    destruct (group_op_run g op db1 _ GM Hg1 HG1) as (st & (db2 & -> & Hg2 & <-) & HG2).
    cbn [fst snd]. split; [|by destruct (spec_group_op g op _) as [? []]].
    split_and!; [done|done|]. unfold spec_group_op. rewrite lookup_insert_eq.
    destruct (decide_op op man1) as [[man2|]|e] eqn:Hd; cbn [fst]; [|by eauto..].
    exists man2. rewrite insert_insert_eq. split; [done|by eapply decide_op_wf].
  - split_and!; [done|done|]. exists man. by rewrite insert_id.
  - destruct (history (spec_group_op g) ops G) as [G' rs].
    destruct (history (run_group_op g) ops db) as [db' rs']. cbn [fst snd] in *.
    exists db', man'. split_and!; try done. by rewrite Hrs, map_err_id.
Qed.

(** [create_group] refuses a label of more than 64 bytes; otherwise it stores a manifest at
    epoch zero in which exactly the founders are members, all of them owners, sorted; the
    manifest is well formed when the founders are distinct and at most 256. *)
Theorem create_group_spec label founders uuid now db G GM :
  good db → groups_repr (contents db) G GM →
  (∃ st, runs (create_group label founders uuid now) db
      (spec_create label founders uuid now G).2 st ∧
    groups_repr st (spec_create label founders uuid now G).1 GM) ∧
  (is_ok (spec_create label founders uuid now G).2 = true ↔ str_len label ≤ 64) ∧
  let man := new_manifest label founders uuid now in
  man_mls_epoch man = umk 64 0 ∧
  (∀ id r, (∃ m, m ∈ man_members man ∧ gm_identity_id m = id ∧ gm_role m = r) ↔
     id ∈ founders ∧ r = Owner) ∧
  (NoDup founders → length founders ≤ MAX_GROUP_SIZE → man_wf man).
Proof using PostcardOk0.
  intros Hg HG. split; [by apply create_group_run|].
  split; [|cbv zeta; split; [done|split]].
  - unfold spec_create. destruct (Nat.ltb_spec 64 (str_len label)); simpl; split; try done; lia.
  - intros id r. unfold new_manifest, normalize_members, with_members. simpl.
    setoid_rewrite elem_of_sort_by. setoid_rewrite list_elem_of_fmap. split.
    + by intros (m & (id' & -> & Hin) & <- & <-).
    + intros [Hin ->]. eexists. split_and!; [by exists id|done|done].
  - intros Hn Hl. unfold new_manifest, normalize_members, with_members, man_wf. simpl.
    split_and!.
    + unfold member_ids. rewrite sort_by_perm, <-list_fmap_compose.
      replace (_ <$> founders) with founders; [done|].
      rewrite <-(list_fmap_id founders) at 1. by apply list_fmap_ext.
    + apply sort_by_sorted, _.
    + by rewrite length_sort_by, length_fmap.
Qed.

(** C30: receiving a message stores it once: the first delivery answers true, every later one
    answers false and changes nothing, even if the copy differs; an unknown group is an
    error. *)
Theorem receive_message_once m db G GM :
  good db → groups_repr (contents db) G GM →
  (∃ st, runs (receive_message m) db (spec_receive m G GM).2 st ∧
    groups_repr st G (spec_receive m G GM).1) ∧
  (∀ m', own_gkey m' = own_gkey m → (spec_receive m G GM).2 = Ok true →
    spec_receive m' G (spec_receive m G GM).1 = ((spec_receive m G GM).1, Ok false)) ∧
  (∀ k x, GM !! k = Some x → (spec_receive m G GM).1 !! k = Some x).
Proof using PostcardOk0 PostcardOk1.
  intros Hg HG. split_and!; [by apply receive_message_run| |]; unfold spec_receive.
  - intros m' Hk. destruct (G !! gmsg_group_id m) as [man|] eqn:Hman; [|done].
    destruct (GM !! own_gkey m); [done|]. intros _. cbn [fst].
    pose proof (f_equal fst Hk) as Hgr. cbn [fst own_gkey] in Hgr.
    by rewrite Hgr, Hman, Hk, lookup_insert_eq.
  - intros k x Hx. destruct (G !! _); [|done].
    destruct (GM !! own_gkey m) eqn:Hm; [done|]. cbn [fst].
    rewrite lookup_insert_ne; [done|]. intros <-. congruence.
Qed.

(** C31: a receipt changes a stored message exactly when it moves its status forward, and then
    only the status; duplicate, backward and unknown receipts answer false and change
    nothing. *)
Theorem group_receipt_forward r db G GM :
  good db → groups_repr (contents db) G GM →
  (∃ st, runs (group_process_receipt r) db (spec_greceipt r GM).2 st ∧
    groups_repr st G (spec_greceipt r GM).1) ∧
  ((spec_greceipt r GM).2 = Ok true ↔
    ∃ m, GM !! (grp_group_id r, grp_message_id r) = Some m ∧
      gstatus_rank (gmsg_status m) < gstatus_rank (grp_status r)) ∧
  ((spec_greceipt r GM).2 ≠ Ok true → (spec_greceipt r GM).1 = GM) ∧
  (∀ k m, GM !! k = Some m → ∃ m', (spec_greceipt r GM).1 !! k = Some m' ∧
    with_gstatus (gmsg_status m) m' = m ∧
    gstatus_rank (gmsg_status m) ≤ gstatus_rank (gmsg_status m')).
Proof using PostcardOk1.
  intros Hg HG. split; [by apply group_process_receipt_run|].
  assert (∀ k m, GM !! k = Some m → ∃ m', GM !! k = Some m' ∧
    with_gstatus (gmsg_status m) m' = m ∧
    gstatus_rank (gmsg_status m) ≤ gstatus_rank (gmsg_status m')) as Hsame.
  { intros k m Hm. exists m. split_and!; [done|by destruct m|lia]. }
  unfold spec_greceipt. destruct (GM !! (grp_group_id r, grp_message_id r)) as [m|] eqn:Hm.
  2:{ split_and!; [split; [done|by intros (? & ? & _)]|done|done]. }
  destruct (Nat.ltb_spec (gstatus_rank (gmsg_status m)) (gstatus_rank (grp_status r))) as [Hlt|Hge];
    cbn [fst snd].
  - split_and!; [split; [by eauto|done]|done|]. intros k x Hx.
    destruct (decide ((grp_group_id r, grp_message_id r) = k)) as [<-|Hne].
    + simplify_eq. eexists. rewrite lookup_insert_eq. split_and!; [done|by destruct m|].
      simpl. lia.
    + rewrite lookup_insert_ne by done. by apply Hsame.
  - split_and!; [split; [done|]|done|done]. intros (x & Hx & ?). simplify_eq. lia.
Qed.

(** C29: [list_messages] returns the newest [limit] of exactly the group's messages below the
    cursor, by creation time and then id, newest first. *)
Theorem list_messages_spec db G GM g before limit :
  good db → groups_repr (contents db) G GM →
  ∃ l, list_messages db g before limit = Ok (take limit l) ∧
    StronglySorted (cmp_le newest_first) l ∧
    l ≡ₚ group_msgs GM g before ∧
    ∀ m, m ∈ l ↔ before_gok before (gmsg_id m) ∧ ∃ mid, GM !! (g, mid) = Some m.
Proof using PostcardOk1.
  intros Hg [_ HG]. exists (sort_by newest_first (group_msgs GM g before)).
  split_and!; [by apply list_messages_run|apply sort_by_sorted, _|apply sort_by_perm|].
  intros m. rewrite elem_of_sort_by. apply elem_of_group_msgs.
Qed.
End group_props.

(** ** Witnesses *)

Definition role_at (z : Z) : Role :=
  if (z =? 0)%Z then Owner else if (z =? 1)%Z then Admin else if (z =? 2)%Z then Moderator else Member.
#[export] Instance ser_Role : Ser Role :=
  ser_iso (λ r, umk 8 (Z.of_nat (role_idx r))) (λ x, role_at (uval x))
    (λ r, match r with Owner => eq_refl | Admin => eq_refl | Moderator => eq_refl | Member => eq_refl end).
Definition gstatus_at (z : Z) : GroupMessageStatus :=
  if (z =? 0)%Z then GSent else if (z =? 1)%Z then GDelivered else GRead.
#[export] Instance ser_gstatus : Ser GroupMessageStatus :=
  ser_iso (λ r, umk 8 (Z.of_nat (gstatus_rank r))) (λ x, gstatus_at (uval x))
    (λ r, match r with GSent => eq_refl | GDelivered => eq_refl | GRead => eq_refl end).
#[export] Instance ser_identity : Ser IdentityId :=
  ser_iso identity_id_0 mkIdentityId (λ a, match a with mkIdentityId _ => eq_refl end).
#[export] Instance ser_machine : Ser MachineId :=
  ser_iso machine_id_0 mkMachineId (λ a, match a with mkMachineId _ => eq_refl end).
#[export] Instance ser_GroupId : Ser GroupId :=
  ser_iso group_id_0 mkGroupId (λ a, match a with mkGroupId _ => eq_refl end).
#[export] Instance ser_GroupMessageId : Ser GroupMessageId :=
  ser_iso group_message_id_0 mkGroupMessageId (λ a, match a with mkGroupMessageId _ => eq_refl end).
#[export] Instance ser_GroupMember : Ser GroupMember :=
  ser_iso (λ m, (gm_identity_id m, (gm_machine_id m, (gm_role m, gm_added_at_ms m))))
    (λ p, let '(a, (b, (c, d))) := p in mkGroupMember a b c d)
    (λ m, match m with mkGroupMember _ _ _ _ => eq_refl end).
Definition ser_GroupManifest : Ser GroupManifest :=
  ser_iso (λ m, (man_group_id m, (man_name m, (man_creator m, (man_members m,
      (man_mls_epoch m, (man_mls_state_blob m, (man_created_at_ms m, man_updated_at_ms m))))))))
    (λ p, let '(a, (b, (c, (d, (e, (f, (g, h))))))) := p in mkGroupManifest a b c d e f g h)
    (λ m, match m with mkGroupManifest _ _ _ _ _ _ _ _ => eq_refl end).
Definition ser_GroupMessage : Ser GroupMessage :=
  ser_iso (λ m, (gmsg_id m, (gmsg_group_id m, (gmsg_sender_identity m, (gmsg_sender_machine m,
      (gmsg_text m, (gmsg_mls_epoch m, (gmsg_created_at_ms m, gmsg_status m))))))))
    (λ p, let '(a, (b, (c, (d, (e, (f, (g, h))))))) := p in mkGroupMessage a b c d e f g h)
    (λ m, match m with mkGroupMessage _ _ _ _ _ _ _ _ => eq_refl end).

Definition mem_manifest : Postcard GroupManifest := @mem_postcard _ ser_GroupManifest.
Definition mem_manifest_ok : @PostcardOk _ GroupManifest mem_manifest :=
  @mem_postcard_ok _ ser_GroupManifest.
Definition mem_gmessage : Postcard GroupMessage := @mem_postcard _ ser_GroupMessage.
Definition mem_gmessage_ok : @PostcardOk _ GroupMessage mem_gmessage :=
  @mem_postcard_ok _ ser_GroupMessage.
#[local] Existing Instances mem_manifest mem_manifest_ok mem_gmessage mem_gmessage_ok.

Definition person (b : byte) : IdentityId := mkIdentityId (arr_fill 16 b).
Definition team : GroupId := mkGroupId (arr_fill 16 Byte.x01).
Definition member_of (b : byte) (r : Role) : GroupMember :=
  mkGroupMember (person b) (mkMachineId (arr_fill 16 Byte.x00)) r (umk 64 0).
Definition team_man : GroupManifest :=
  mkGroupManifest team (rstr_of "team") (person Byte.x01)
    [member_of Byte.x01 Owner; member_of Byte.x02 Admin; member_of Byte.x03 Member]
    (umk 64 4) [] (umk 64 0) (umk 64 0).
Definition team_msg : GroupMessage :=
  mkGroupMessage (mkGroupMessageId (arr_fill 16 Byte.x05)) team (person Byte.x01)
    (mkMachineId (arr_fill 16 Byte.x00)) (rstr_of "hi") (umk 64 4) (umk 64 8) GSent.

Definition team_groups : group_map := <[team := team_man]> ∅.
Definition team_msgs : gmsg_map := <[own_gkey team_msg := team_msg]> ∅.
Definition team_db : @DB mem_rocks :=
  mem_with (<[(CF_GROUPS, group_key team) := enc team_man]>
    (<[(CF_GROUPS, gmsg_key (own_gkey team_msg)) := enc team_msg]> ∅)).

Lemma team_repr : groups_repr (contents team_db) team_groups team_msgs.
Proof.
  apply groups_insert_man. apply groups_insert_msg. split; apply repr_empty.
Qed.

Lemma team_wf : man_wf team_man.
Proof.
  split_and!.
  - by apply (bool_decide_unpack _).
  - repeat constructor; done.
  - apply Nat.leb_le. reflexivity.
Qed.

Lemma team_lookup : team_groups !! team = Some team_man.
Proof. apply lookup_insert_eq. Qed.

(** The same manifest two epochs later. *)
Definition later_man : GroupManifest := bump (umk 64 9) (bump (umk 64 9) team_man).

Lemma merge_manifest_laws_witness :
  newer later_man team_man ∧
  merge_manifest team_man later_man = merge_manifest later_man team_man ∧
  foldl merge_manifest team_man [later_man; team_man] = foldl merge_manifest later_man [team_man] ∧
  merge_manifest team_man later_man = later_man.
Proof.
  assert (newer later_man team_man) as H by (left; vm_compute; reflexivity).
  split; [exact H|].
  destruct (merge_manifest_laws team_man later_man team_man) as (_ & _ & _ & _ & _ & Hc & _ & Hr).
  split; [exact (Hc (or_intror H))|]. split; [|vm_compute; reflexivity].
  refine (proj1 (Hr team_man [later_man; team_man] later_man [team_man] _ _)).
  - intros x. rewrite !elem_of_cons, elem_of_nil. tauto.
  - intros x y. rewrite !elem_of_cons, !elem_of_nil.
    intros [->|[->|[->|[]]]] [->|[->|[->|[]]]]; first [by left | by (right; left) | by (right; right)].
Defined.

(** The admin removes the plain member. *)
Definition kick : group_op := OpRemoveMember (person Byte.x02) (person Byte.x03) (umk 64 9).

Lemma group_authority_witness :
  is_ok (spec_group_op team kick team_groups).2 = true ∧
  ∃ st man', runs (run_group_op team kick) team_db (spec_group_op team kick team_groups).2 st ∧
    groups_repr st (<[team := man']> team_groups) team_msgs ∧ man_wf man' ∧
    (is_ok (spec_group_op team kick team_groups).2 = false → man' = team_man) ∧
    (man' = team_man ∨
      man_mls_epoch man' = uadd (man_mls_epoch team_man) (umk 64 1) ∧
      man_updated_at_ms man' = op_time kick) ∧
    (∀ id, role_of man' id ≠ role_of team_man id →
      id = op_subject kick ∧ ∃ cr, role_of team_man (op_caller kick) = Some cr ∧
        may_change cr (role_of team_man id) (role_of man' id)).
Proof.
  split; [vm_compute; reflexivity|].
  exact (group_authority team kick team_db team_groups team_msgs team_man
    (mem_with_good _) team_repr team_lookup team_wf).
Defined.

Definition team_ops : list group_op :=
  [OpAdd (person Byte.x02) (person Byte.x04) (umk 64 9) (umk 64 9);
   OpPromote (person Byte.x02) (person Byte.x04) Admin (umk 64 9);
   OpPromote (person Byte.x02) (person Byte.x04) Moderator (umk 64 9);
   OpRemoveMember (person Byte.x04) (person Byte.x03) (umk 64 9);
   OpRemoveMember (person Byte.x04) (person Byte.x01) (umk 64 9)].

Lemma group_history_witness :
  is_ok <$> (history (spec_group_op team) team_ops team_groups).2 = [true; false; true; true; false] ∧
  let (G', rs) := history (spec_group_op team) team_ops team_groups in
  ∃ db' man', history (run_group_op team) team_ops team_db = (db', rs) ∧ good db' ∧
    groups_repr (contents db') G' team_msgs ∧ G' = <[team := man']> team_groups ∧ man_wf man'.
Proof.
  split; [vm_compute; reflexivity|].
  exact (group_history team team_ops team_db team_groups team_msgs team_man
    (mem_with_good _) team_repr team_lookup team_wf).
Defined.

Lemma create_group_spec_witness :
  (∃ st, runs (create_group (rstr_of "new") [person Byte.x02; person Byte.x01]
        (arr_fill 16 Byte.x07) (umk 64 3)) team_db
      (spec_create (rstr_of "new") [person Byte.x02; person Byte.x01] (arr_fill 16 Byte.x07)
        (umk 64 3) team_groups).2 st ∧
    groups_repr st (spec_create (rstr_of "new") [person Byte.x02; person Byte.x01]
        (arr_fill 16 Byte.x07) (umk 64 3) team_groups).1 team_msgs) ∧
  man_wf (new_manifest (rstr_of "new") [person Byte.x02; person Byte.x01]
        (arr_fill 16 Byte.x07) (umk 64 3)).
Proof.
  destruct (create_group_spec (rstr_of "new") [person Byte.x02; person Byte.x01]
    (arr_fill 16 Byte.x07) (umk 64 3) team_db team_groups team_msgs (mem_with_good _) team_repr)
    as (Hrun & _ & _ & _ & Hwf).
  split; [exact Hrun|]. apply Hwf.
  - apply NoDup_cons. split; [|apply NoDup_singleton].
    intros H. apply list_elem_of_singleton in H. discriminate H.
  - apply Nat.leb_le. reflexivity.
Defined.

Lemma receive_message_once_witness :
  let m := with_gstatus GRead team_msg in
  is_ok (spec_receive m team_groups team_msgs).2 = true ∧
  ∃ st, runs (receive_message m) team_db (spec_receive m team_groups team_msgs).2 st ∧
    groups_repr st team_groups (spec_receive m team_groups team_msgs).1.
Proof.
  split; [vm_compute; reflexivity|].
  exact (proj1 (receive_message_once (with_gstatus GRead team_msg) team_db team_groups team_msgs
    (mem_with_good _) team_repr)).
Defined.

Lemma group_receipt_forward_witness :
  let r := mkGroupReceiptPayload (gmsg_id team_msg) team (person Byte.x02)
    (mkMachineId (arr_fill 16 Byte.x00)) GRead (umk 64 9) in
  ∃ st, runs (group_process_receipt r) team_db (spec_greceipt r team_msgs).2 st ∧
    groups_repr st team_groups (spec_greceipt r team_msgs).1.
Proof.
  exact (proj1 (group_receipt_forward (mkGroupReceiptPayload (gmsg_id team_msg) team
    (person Byte.x02) (mkMachineId (arr_fill 16 Byte.x00)) GRead (umk 64 9))
    team_db team_groups team_msgs (mem_with_good _) team_repr)).
Defined.

Lemma list_messages_spec_witness :
  ∃ l, list_messages team_db team None 3 = Ok (take 3 l) ∧
    StronglySorted (cmp_le newest_first) l ∧ l ≡ₚ group_msgs team_msgs team None ∧
    ∀ m, m ∈ l ↔ before_gok None (gmsg_id m) ∧ ∃ mid, team_msgs !! (team, mid) = Some m.
Proof.
  exact (list_messages_spec team_db team_groups team_msgs team None 3 (mem_with_good _) team_repr).
Defined.
