(* ===== verification/Inbox.v ===== *)
(** * The inbox index ([zero-messaging/src/inbox/])

    One entry per conversation of an owner (identity and machine) in [CF_INBOX_INDEX], keyed
    so that a forward scan meets the most recent conversations first. [types.rs], [index.rs]
    and [service.rs]. *)

From Stdlib Require Import ZArith Lia.
From stdpp Require Import base tactics gmap strings sorting numbers countable list.
From S2P Require Import Prelude Bytes Store Mem Aad Db Outbox Contacts Net Dm.
#[local] Open Scope nat_scope.

(** ** Types *)

Inductive ConversationKind : Type := KindDm | KindGroup.

#[export] Instance ConversationKind_eq_dec : EqDecision ConversationKind.
Proof. solve_decision. Defined.

Record ConversationRef : Type := mkConversationRef {
  ref_conversation_id : ConversationId;
  ref_kind : ConversationKind;
}.

Definition ref_dm (c : ConversationId) : ConversationRef := mkConversationRef c KindDm.
Definition ref_group (c : ConversationId) : ConversationRef := mkConversationRef c KindGroup.

Record InboxEntry : Type := mkInboxEntry {
  ie_conversation_id : ConversationId;
  ie_kind : ConversationKind;
  ie_last_ts : u64;
  ie_unread : u32;
  ie_preview_sender : IdentityId;
  ie_preview : rstr;
}.

#[export] Instance InboxEntry_eq_dec : EqDecision InboxEntry.
Proof. solve_decision. Defined.

Definition MAX_PREVIEW_CHARS : nat := 140.

(** [InboxEntry::cap_preview] *)
Definition cap_preview (text : rstr) : rstr :=
  if length text <=? MAX_PREVIEW_CHARS then text else take MAX_PREVIEW_CHARS text.

Record InboxStats : Type := mkInboxStats {
  total_unread : u64;
  conversation_count : nat;
}.

(** ** Keys *)

Definition KEY_LEN : nat := 16 + 16 + 8 + 32.
Definition PREFIX_LEN : nat := 16 + 16.

Definition encode_key (identity_id : IdentityId) (machine_id : MachineId) (last_ts : u64)
    (conversation_id : ConversationId) : bytes :=
  let inverted_ts := uinv last_ts in
  arr_bytes (identity_id_0 identity_id) ++ arr_bytes (machine_id_0 machine_id) ++
  u64_be inverted_ts ++ arr_bytes (conv_id_0 conversation_id).

Definition inbox_prefix (identity_id : IdentityId) (machine_id : MachineId) : bytes :=
  arr_bytes (identity_id_0 identity_id) ++ arr_bytes (machine_id_0 machine_id).

Definition decode_key (key : bytes) : option (IdentityId * MachineId * u64 * ConversationId) :=
  if negb (length key =? KEY_LEN) then None
  else
    let id := arr_fit 16 (take 16 key) in
    let mid := arr_fit 16 (take 16 (drop 16 key)) in
    let ts_start := 16 + 16 in
    let inverted_ts := u64_from_be (take 8 (drop ts_start key)) in
    let last_ts := uinv inverted_ts in
    let cid := arr_fit 32 (drop (ts_start + 8) key) in
    Some (mkIdentityId id, mkMachineId mid, last_ts, mkConversationId cid).

#[global] Arguments encode_key : simpl never.
#[global] Arguments inbox_prefix : simpl never.

(** ** Operations *)

Section inbox.
Context `{R : RocksDB} `{P : PostcardLib} `{!Postcard InboxEntry}.

Inductive InboxError : Type :=
| InStorage (e : StorageError)
| InCodec (s : string).

(** [InboxService { db, identity_id, machine_id }] *)
Record InboxService : Type := mkInboxService {
  is_identity_id : IdentityId;
  is_machine_id : MachineId;
}.

Definition in_codec (e : postcard_error) : InboxError := InCodec (postcard_error_string e).

(** The scan every method starts with. *)
Definition owner_pairs (svc : InboxService) (db : DB) : result InboxError (list (bytes * bytes)) :=
  let prefix := inbox_prefix (is_identity_id svc) (is_machine_id svc) in
  map_err InStorage (prefix_scan_raw db CF_INBOX_INDEX prefix).

Definition find_raw_entry (svc : InboxService) (db : DB) (conv_id : ConversationId)
    : result InboxError (option (bytes * InboxEntry)) :=
  pairs ← owner_pairs svc db;
  for_each (λ found '(key, value),
      entry ← map_err in_codec (from_bytes value);
      if decide (ie_conversation_id entry = conv_id) then Ok (Break (Some (key, entry)))
      else Ok (Continue found))
    None pairs.

Definition upsert (svc : InboxService) (entry : InboxEntry) : io DB InboxError () :=
  found ← reads (λ db, find_raw_entry svc db (ie_conversation_id entry));
  match found with
  | Some (old_key, _) => io_map_err InStorage (delete_raw CF_INBOX_INDEX old_key)
  | None => mret ()
  end;;
  let key := encode_key (is_identity_id svc) (is_machine_id svc) (ie_last_ts entry)
    (ie_conversation_id entry) in
  value ← lift (map_err in_codec (to_vec entry));
  io_map_err InStorage (put_raw CF_INBOX_INDEX key value);;
  mret ().

Definition list_inbox (svc : InboxService) (db : DB) (limit : option nat)
    : result InboxError (list InboxEntry) :=
  let limit := default 50 limit in
  pairs ← owner_pairs svc db;
  for_each (λ entries '(_, value),
      if limit <=? length entries then Ok (Break entries)
      else
        entry ← map_err in_codec (from_bytes value);
        Ok (Continue (entries ++ [entry])))
    [] pairs.

Definition list_conversations (svc : InboxService) (db : DB) (limit : option nat)
    : result InboxError (list InboxEntry) :=
  list_inbox svc db limit.

(** [u64::from(entry.unread)] *)
Definition u64_of (x : u32) : u64 := umk 64 (uval x).

Definition unread_total (svc : InboxService) (db : DB) : result InboxError u64 :=
  pairs ← owner_pairs svc db;
  for_each (λ total '(_, value),
      entry ← map_err in_codec (from_bytes value);
      Ok (Continue (uadd total (u64_of (ie_unread entry)))))
    (umk 64 0) pairs.

Definition stats (svc : InboxService) (db : DB) : result InboxError InboxStats :=
  pairs ← owner_pairs svc db;
  acc ← for_each (λ '(total, n) '(_, value),
      entry ← map_err in_codec (from_bytes value);
      Ok (Continue (uadd total (u64_of (ie_unread entry)), S n)))
    (umk 64 0, 0) pairs;
  Ok (mkInboxStats acc.1 acc.2).

Definition inbox_mark_read (svc : InboxService) (r : ConversationRef) : io DB InboxError () :=
  found ← reads (λ db, find_raw_entry svc db (ref_conversation_id r));
  match found with
  | Some (old_key, entry) =>
      if (0 <? uval (ie_unread entry))%Z then
        io_map_err InStorage (delete_raw CF_INBOX_INDEX old_key);;
        let entry := mkInboxEntry (ie_conversation_id entry) (ie_kind entry) (ie_last_ts entry)
          (umk 32 0) (ie_preview_sender entry) (ie_preview entry) in
        let new_key := encode_key (is_identity_id svc) (is_machine_id svc) (ie_last_ts entry)
          (ie_conversation_id entry) in
        value ← lift (map_err in_codec (to_vec entry));
        io_map_err InStorage (put_raw CF_INBOX_INDEX new_key value);;
        mret ()
      else mret ()
  | None => mret ()
  end.
End inbox.

(** ** The key space *)

Abbreviation inbox_key := (IdentityId * MachineId * u64 * ConversationId)%type.

Definition ikey (k : inbox_key) : bytes := encode_key k.1.1.1 k.1.1.2 k.1.2 k.2.

Lemma encode_key_prefix i m ts c :
  encode_key i m ts c = inbox_prefix i m ++ u64_be (uinv ts) ++ arr_bytes (conv_id_0 c).
Proof. unfold encode_key, inbox_prefix. by rewrite <-!(assoc_L (++)). Qed.

Lemma length_inbox_prefix i m : length (inbox_prefix i m) = 32.
Proof. unfold inbox_prefix. by rewrite length_app, !length_arr. Qed.

Lemma length_u64_be x : length (u64_be x) = 8.
Proof. unfold u64_be. apply length_be_bytes. Qed.

Lemma length_encode_key i m ts c : length (encode_key i m ts c) = KEY_LEN.
Proof.
  rewrite encode_key_prefix, !length_app, length_inbox_prefix, length_u64_be, length_arr. done.
Qed.

Lemma decode_encode_key i m ts c : decode_key (encode_key i m ts c) = Some (i, m, ts, c).
Proof.
  unfold decode_key. rewrite length_encode_key, Nat.eqb_refl. simpl negb. cbv iota zeta.
  unfold encode_key. set (a := arr_bytes (identity_id_0 i)). set (b := arr_bytes (machine_id_0 m)).
  assert (length a = 16) as Ha by apply length_arr. assert (length b = 16) as Hb by apply length_arr.
  rewrite (take_app_length' a) by done. rewrite (drop_app_length' a) by done.
  rewrite (take_app_length' b) by done.
  rewrite (drop_app_ge a), Ha by lia. change (16 + 16 - 16) with 16.
  rewrite (drop_app_length' b) by done.
  rewrite (take_app_length' (u64_be (uinv ts))) by by rewrite length_u64_be.
  rewrite (drop_app_ge a), Ha by lia. rewrite (drop_app_ge b), Hb by lia.
  change (16 + 16 + 8 - 16 - 16) with 8. rewrite (drop_app_length' (u64_be (uinv ts))) by by rewrite length_u64_be.
  unfold a, b. rewrite !arr_fit_arr, u64_from_be_be, uinv_inv. by destruct i, m, c.
Qed.

#[export] Instance ikey_inj : Inj (=) (=) ikey.
Proof.
  intros [[[i m] ts] c] [[[i' m'] ts'] c'] H. unfold ikey in H. cbn [fst snd] in H.
  apply (f_equal decode_key) in H. rewrite !decode_encode_key in H. by simplify_eq.
Qed.

Definition inbox_space : keyspace inbox_key :=
  KeySpace CF_INBOX_INDEX ikey (λ _, true) _ (λ _, eq_refl).

Lemma inbox_prefix_iff i m (k : inbox_key) :
  starts_with (ikey k) (inbox_prefix i m) = true ↔ k.1.1 = (i, m).
Proof.
  destruct k as [[[i' m'] ts] c]. unfold ikey. cbn [fst snd]. rewrite encode_key_prefix. split.
  - intros H. apply starts_with_eq_len in H; [|by rewrite !length_inbox_prefix].
    unfold inbox_prefix in H. apply app_inj_1 in H as [H1 H2]; [|by rewrite !length_arr].
    by apply (inj arr_bytes), (inj identity_id_0) in H1 as ->;
       apply (inj arr_bytes), (inj machine_id_0) in H2 as ->.
  - intros [= -> ->]. apply starts_with_app.
Qed.

(** Stored keys of one owner compare by falling time, then by conversation. *)
Lemma ikey_cmp i m ts c ts' c' :
  bytes_cmp (ikey (i, m, ts, c)) (ikey (i, m, ts', c')) =
    then_with (ucmp ts' ts) (arr_cmp (conv_id_0 c) (conv_id_0 c')).
Proof.
  unfold ikey. cbn [fst snd]. rewrite !encode_key_prefix, bytes_cmp_app.
  rewrite bytes_cmp_app_len by by rewrite !length_u64_be. rewrite u64_be_cmp.
  f_equal. unfold ucmp. rewrite !uval_inv.
  destruct (Z.compare_spec (uval ts') (uval ts)) as [->|?|?].
  - apply Z.compare_refl.
  - apply Z.compare_lt_iff. lia.
  - apply Z.compare_gt_iff. lia.
Qed.

(** ** The index as a map from owner and conversation to entries *)

Abbreviation box_owner := (IdentityId * MachineId)%type.
Abbreviation inbox_map := (gmap (box_owner * ConversationId) InboxEntry).

Definition newest_conv (a b : InboxEntry) : comparison :=
  then_with (ucmp (ie_last_ts b) (ie_last_ts a))
    (arr_cmp (conv_id_0 (ie_conversation_id a)) (conv_id_0 (ie_conversation_id b))).

Definition sum_unread (es : list InboxEntry) : Z :=
  foldr (λ e z, (uval (ie_unread e) + z)%Z) 0%Z es.

Definition cleared (e : InboxEntry) : InboxEntry :=
  mkInboxEntry (ie_conversation_id e) (ie_kind e) (ie_last_ts e) (umk 32 0)
    (ie_preview_sender e) (ie_preview e).

Section inbox_laws.
Context `{ROk : RocksOk} `{P : PostcardLib} `{!Postcard InboxEntry, !PostcardOk InboxEntry}.
Implicit Types (I : gmap inbox_key InboxEntry) (B : inbox_map) (db : DB).

(** The stored index [I] holds each entry of [B] under its own time, and nothing else. *)
Definition indexed I B : Prop :=
  (∀ o ts c e, I !! (o, ts, c) = Some e ↔ B !! (o, c) = Some e ∧ ts = ie_last_ts e) ∧
  (∀ o c e, B !! (o, c) = Some e → ie_conversation_id e = c).

Definition inbox_repr (st : store) B : Prop := ∃ I, repr inbox_space st I ∧ indexed I B.

Definition box (svc : InboxService) : box_owner := (is_identity_id svc, is_machine_id svc).

Definition owned I (o : box_owner) : list (inbox_key * InboxEntry) :=
  entries inbox_space (λ k, k.1.1 = o) I.

Lemma elem_of_owned I B o k e :
  indexed I B → (k, e) ∈ owned I o ↔
    B !! (o, ie_conversation_id e) = Some e ∧ k = (o, ie_last_ts e, ie_conversation_id e).
Proof using.
  intros [HI Hw]. unfold owned. rewrite (elem_of_entries inbox_space (λ k, k.1.1 = o)).
  destruct k as [[o' ts] c]. cbn [fst]. rewrite HI. split.
  - intros (-> & HB & ->). rewrite (Hw _ _ _ HB). done.
  - intros [HB [= -> -> ->]]. done.
Qed.

Lemma owned_sorted I B o :
  indexed I B → StronglySorted (cmp_le newest_conv) (snd <$> owned I o).
Proof using PostcardOk0.
  intros HI. pose proof (entries_sorted inbox_space (λ k, k.1.1 = o) I) as Hs.
  change (entries inbox_space (λ k, k.1.1 = o) I) with (owned I o) in Hs.
  assert (∀ x, x ∈ owned I o → x.1 = (o, ie_last_ts x.2, ie_conversation_id x.2)) as Hx.
  { intros [k e] Hin. by apply (elem_of_owned I B o k e HI) in Hin as [_ ->]. }
  revert Hx. induction Hs as [|x l Hl IHl Hle]; intros Hx; [constructor|].
  constructor; [apply IHl; intros y Hy; apply Hx; by apply list_elem_of_further|].
  apply Forall_fmap, Forall_forall. intros y Hy. rewrite Forall_forall in Hle.
  specialize (Hle y Hy). unfold cmp_le, entry_cmp in Hle. cbn [ks_key inbox_space] in Hle.
  rewrite (Hx x (list_elem_of_here _ _)), (Hx y (list_elem_of_further _ _ _ Hy)) in Hle.
  destruct o as [i m]. rewrite ikey_cmp in Hle. exact Hle.
Qed.

Lemma owner_pairs_run svc db I :
  good db → repr inbox_space (contents db) I →
  owner_pairs svc db = Ok (stored inbox_space <$> owned I (box svc)).
Proof using PostcardOk0.
  intros Hg Hr. unfold owner_pairs. rewrite prefix_scan_raw_good; [|done|cf_mem].
  cbn [map_err]. f_equal. change CF_INBOX_INDEX with (ks_cf inbox_space).
  apply (repr_filter inbox_space _ I
    (λ b, starts_with b (inbox_prefix (is_identity_id svc) (is_machine_id svc)))
    (λ k, k.1.1 = box svc)); [done|done|]. intros k. apply inbox_prefix_iff.
Qed.

Lemma find_loop (l : list (inbox_key * InboxEntry)) (c : ConversationId) found :
  for_each (λ found '(key, value),
      entry ← map_err in_codec (from_bytes value);
      if decide (ie_conversation_id entry = c) then Ok (Break (Some (key, entry)))
      else Ok (Continue found))
    found (stored inbox_space <$> l) =
  Ok (match find (λ x, bool_decide (ie_conversation_id x.2 = c)) l with
      | Some x => Some (ikey x.1, x.2)
      | None => found
      end).
Proof using PostcardOk0.
  induction l as [|[k e] l IHl]; [done|]. simpl. rewrite from_bytes_enc. simpl.
  case_bool_decide as Hd; [by rewrite decide_True|]. rewrite decide_False by done. apply IHl.
Qed.

Lemma find_raw_entry_run svc db I B (c : ConversationId) :
  good db → repr inbox_space (contents db) I → indexed I B →
  find_raw_entry svc db c =
    Ok ((λ e, (ikey (box svc, ie_last_ts e, c), e)) <$> B !! (box svc, c)).
Proof using PostcardOk0.
  intros Hg Hr HI. unfold find_raw_entry. rewrite (owner_pairs_run svc db I) by done.
  cbn [mbind result_bind]. rewrite find_loop. f_equal.
  destruct (find _ _) as [[k e]|] eqn:Hf.
  - apply find_some in Hf as [Hin Hc]. apply bool_decide_eq_true in Hc. cbn [snd] in Hc.
    apply (elem_of_owned I B _ _ _ HI) in Hin as [HB ->]. cbn [fst snd]. rewrite Hc in *.
    by rewrite HB.
  - destruct (B !! (box svc, c)) as [e|] eqn:HB; [|done].
    assert (((box svc, ie_last_ts e, c), e) ∈ owned I (box svc)) as Hin.
    { apply (elem_of_owned I B _ _ _ HI). pose proof (proj2 HI _ _ _ HB) as <-. done. }
    eapply find_none in Hf; [|exact Hin]. cbn [snd] in Hf.
    pose proof (proj2 HI _ _ _ HB) as Hc. by rewrite bool_decide_true in Hf.
Qed.

(** Replacing the entry of a conversation in the index. *)
Definition old_removed I (o : box_owner) (c : ConversationId) B : gmap inbox_key InboxEntry :=
  match B !! (o, c) with Some e => delete (o, ie_last_ts e, c) I | None => I end.

Lemma indexed_upsert I B o e :
  indexed I B →
  indexed (<[(o, ie_last_ts e, ie_conversation_id e) := e]>
             (old_removed I o (ie_conversation_id e) B))
          (<[(o, ie_conversation_id e) := e]> B).
Proof using.
  intros [HI Hw]. split.
  - intros o' ts c e'. unfold old_removed. destruct (decide ((o', c) = (o, ie_conversation_id e))) as [Heq|Hne].
    + injection Heq as -> ->. rewrite lookup_insert_eq. rewrite lookup_insert_Some. split.
      * intros [[Heq <-]|[Hne Hold]]; [by injection Heq as <-|].
        destruct (B !! (o, ie_conversation_id e)) as [x|] eqn:HB.
        -- apply lookup_delete_Some in Hold as [Hne' Hold]. apply HI in Hold as [HB' ->].
           rewrite HB in HB'. injection HB' as ->. done.
        -- apply HI in Hold as [HB' _]. congruence.
      * intros [[= <-] ->]. by left.
    + rewrite (lookup_insert_ne B) by congruence. rewrite <-HI.
      rewrite lookup_insert_ne by congruence.
      destruct (B !! (o, ie_conversation_id e)); [|done]. rewrite lookup_delete_ne; [done|congruence].
  - intros o' c e' [[[= <- <-] <-]|[_ HB]]%lookup_insert_Some; [done|by apply Hw in HB].
Qed.

Lemma write_entry_run svc db I B (e : InboxEntry) :
  good db → repr inbox_space (contents db) I →
  ∃ st, runs (
      value ← lift (map_err in_codec (to_vec e));
      io_map_err InStorage (put_raw CF_INBOX_INDEX
        (encode_key (is_identity_id svc) (is_machine_id svc) (ie_last_ts e)
          (ie_conversation_id e)) value);;
      mret ()) db (Ok ()) st ∧
    repr inbox_space st (<[(box svc, ie_last_ts e, ie_conversation_id e) := e]> I).
Proof using PostcardOk0.
  intros Hg Hr. eexists. split; [|by apply (repr_insert inbox_space)].
  rewrite to_vec_enc. eapply runs_bind_lift; [done|].
  eapply runs_bind; [apply (runs_map_err _ _ _ (Ok ())), put_raw_good; [done|cf_mem]|].
  intros. by apply runs_done.
Qed.

Lemma delete_entry_run db I k :
  good db → repr inbox_space (contents db) I →
  ∃ st, runs (io_map_err InStorage (delete_raw CF_INBOX_INDEX (ikey k))) db (Ok ()) st ∧
    repr inbox_space st (delete k I).
Proof using.
  intros Hg Hr. eexists. split; [|by apply (repr_delete inbox_space)].
  apply (runs_map_err _ _ _ (Ok ())). apply delete_raw_good; [done|cf_mem].
Qed.

Lemma upsert_run svc db B e :
  good db → inbox_repr (contents db) B →
  ∃ st, runs (upsert svc e) db (Ok ()) st ∧
    inbox_repr st (<[(box svc, ie_conversation_id e) := e]> B).
Proof using PostcardOk0.
  intros Hg (I & Hr & HI). unfold upsert.
  eapply runs_reads_then; [by eapply find_raw_entry_run|].
  eapply (runs_then (λ st, repr inbox_space st (old_removed I (box svc) (ie_conversation_id e) B))).
  - unfold old_removed. destruct (B !! _) as [x|]; cbn [fmap option_fmap option_map].
    + by apply delete_entry_run.
    + by apply (runs_ret (λ st, repr inbox_space st I)).
  - intros db1 Hg1 Hr1. cbv zeta.
    destruct (write_entry_run svc db1 _ B e Hg1 Hr1) as (st & ? & ?).
    exists st. split; [done|]. eexists. split; [done|]. by apply indexed_upsert.
Qed.

Lemma mark_read_same B svc (c : ConversationId) e :
  B !! (box svc, c) = Some e → uval (ie_unread e) = 0%Z →
  alter cleared (box svc, c) B = B.
Proof using.
  intros HB Hz. apply map_eq. intros k. destruct (decide (k = (box svc, c))) as [->|Hne].
  - rewrite lookup_alter_eq, HB. simpl. f_equal. destruct e. unfold cleared. simpl in *. f_equal.
    apply (inj uval). by rewrite Hz.
  - by rewrite lookup_alter_ne.
Qed.

Lemma inbox_mark_read_run svc db B r :
  good db → inbox_repr (contents db) B →
  ∃ st, runs (inbox_mark_read svc r) db (Ok ()) st ∧
    inbox_repr st (alter cleared (box svc, ref_conversation_id r) B).
Proof using PostcardOk0.
  intros Hg (I & Hr & HI). unfold inbox_mark_read. set (c := ref_conversation_id r).
  eapply runs_reads_then; [by eapply find_raw_entry_run|].
  destruct (B !! (box svc, c)) as [e|] eqn:HB; cbn [fmap option_fmap option_map].
  2:{ apply (runs_ret (λ st, inbox_repr st (alter cleared (box svc, c) B))); [done|].
      rewrite alter_id by (intros ?; by rewrite HB). by exists I. }
  pose proof (proj2 HI _ _ _ HB) as Hc.
  destruct (Z.ltb_spec 0 (uval (ie_unread e))) as [Hpos|Hz].
  - eapply runs_then; [by apply delete_entry_run|]. intros db1 Hg1 Hr1. cbv beta zeta.
    change (mkInboxEntry _ _ _ _ _ _) with (cleared e).
    destruct (write_entry_run svc db1 _ B (cleared e) Hg1 Hr1) as (st & ? & Hr2).
    exists st. split; [done|]. eexists. split; [exact Hr2|].
    pose proof (indexed_upsert I B (box svc) (cleared e) HI) as Hi.
    unfold old_removed in Hi. cbn [ie_conversation_id ie_last_ts cleared] in *.
    rewrite Hc in *. rewrite HB in Hi.
    replace (alter cleared (box svc, c) B) with (<[(box svc, c) := cleared e]> B); [exact Hi|].
    apply map_eq. intros k. destruct (decide (k = (box svc, c))) as [->|Hne].
    + by rewrite lookup_insert_eq, lookup_alter_eq, HB.
    + by rewrite lookup_insert_ne, lookup_alter_ne by done.
  - apply (runs_ret (λ st, inbox_repr st (alter cleared (box svc, c) B))); [done|].
    pose proof (uint_range (ie_unread e)). rewrite (mark_read_same B svc c e) by (done || lia).
    by exists I.
Qed.
End inbox_laws.

(** ** Properties *)

Lemma length_take_le {A} n (l : list A) : length (take n l) ≤ n.
Proof. rewrite length_take. lia. Qed.

Section inbox_props.
Context `{ROk : RocksOk} `{P : PostcardLib} `{!Postcard InboxEntry, !PostcardOk InboxEntry}.
Implicit Types (B : inbox_map) (db : DB).

Lemma list_loop (l : list (inbox_key * InboxEntry)) limit acc :
  for_each (λ entries '(_, value),
      if limit <=? length entries then Ok (Break entries)
      else
        entry ← map_err in_codec (from_bytes value);
        Ok (Continue (entries ++ [entry])))
    acc (stored inbox_space <$> l) = Ok (acc ++ take (limit - length acc) (snd <$> l)).
Proof using PostcardOk0.
  revert acc. induction l as [|[k e] l IHl]; intros acc; [simpl; by rewrite take_nil, app_nil_r|].
  rewrite fmap_cons. cbn [for_each stored snd fst].
  destruct (Nat.leb_spec limit (length acc)) as [Hl|Hl].
  - replace (limit - length acc) with 0 by lia. by rewrite app_nil_r.
  - rewrite from_bytes_enc. cbn [map_err mbind result_bind]. rewrite IHl, length_app.
    cbn [length]. replace (limit - length acc) with (S (limit - (length acc + 1))) by lia.
    rewrite fmap_cons, firstn_cons. by rewrite <-(assoc_L (++)).
Qed.

Lemma sum_unread_nonneg es : (0 <= sum_unread es)%Z.
Proof using. induction es as [|e es IHl]; simpl; [lia|]. pose proof (uint_range (ie_unread e)). lia. Qed.

Lemma unread_step t (e : InboxEntry) z :
  uval t = (z mod 2 ^ 64)%Z →
  uval (uadd t (u64_of (ie_unread e))) = ((z + uval (ie_unread e)) mod 2 ^ 64)%Z.
Proof using.
  intros Ht. unfold uadd, u64_of. rewrite !uval_umk, Ht. rewrite <-Zplus_mod. done.
Qed.

Lemma unread_loop (l : list (inbox_key * InboxEntry)) t z :
  uval t = (z mod 2 ^ 64)%Z →
  ∃ t', for_each (λ total '(_, value),
      entry ← map_err in_codec (from_bytes value);
      Ok (Continue (uadd total (u64_of (ie_unread entry)))))
    t (stored inbox_space <$> l) = Ok t' ∧
    uval t' = ((z + sum_unread (snd <$> l)) mod 2 ^ 64)%Z.
Proof using PostcardOk0.
  revert t z. induction l as [|[k e] l IHl]; intros t z Ht.
  - exists t. split; [done|]. simpl. by rewrite Z.add_0_r.
  - rewrite fmap_cons. cbn [for_each stored snd fst]. rewrite from_bytes_enc.
    cbn [map_err mbind result_bind].
    destruct (IHl _ _ (unread_step t e z Ht)) as (t' & -> & Hv). exists t'. split; [done|].
    rewrite Hv. simpl. by rewrite Z.add_assoc.
Qed.

Lemma stats_loop (l : list (inbox_key * InboxEntry)) t n z :
  uval t = (z mod 2 ^ 64)%Z →
  ∃ t', for_each (λ '(total, n) '(_, value),
      entry ← map_err in_codec (from_bytes value);
      Ok (Continue (uadd total (u64_of (ie_unread entry)), S n)))
    (t, n) (stored inbox_space <$> l) = Ok (t', n + length l) ∧
    uval t' = ((z + sum_unread (snd <$> l)) mod 2 ^ 64)%Z.
Proof using PostcardOk0.
  revert t n z. induction l as [|[k e] l IHl]; intros t n z Ht.
  - exists t. simpl. by rewrite Z.add_0_r, Nat.add_0_r.
  - rewrite fmap_cons. cbn [for_each stored snd fst]. rewrite from_bytes_enc.
    cbn [map_err mbind result_bind].
    destruct (IHl _ (S n) _ (unread_step t e z Ht)) as (t' & -> & Hv). exists t'.
    split; [do 2 f_equal; simpl; lia|]. rewrite Hv. simpl. by rewrite Z.add_assoc.
Qed.

(** The entries of an owner, newest first. *)
Definition owner_view (B : inbox_map) (o : box_owner) (l : list InboxEntry) : Prop :=
  StronglySorted (cmp_le newest_conv) l ∧ NoDup (ie_conversation_id <$> l) ∧
  ∀ e, e ∈ l ↔ B !! (o, ie_conversation_id e) = Some e.

Lemma owned_view I B o : indexed I B → owner_view B o (snd <$> owned I o).
Proof using PostcardOk0.
  intros HI. split_and!; [by eapply owned_sorted| |].
  - rewrite <-list_fmap_compose.
    assert (∀ x, x ∈ owned I o → x.1 = (o, ie_last_ts x.2, ie_conversation_id x.2) ∧
      B !! (o, ie_conversation_id x.2) = Some x.2) as Hx.
    { intros [k e] Hin. by apply (elem_of_owned I B o k e HI) in Hin as [? ->]. }
    pose proof (entries_keys inbox_space (λ k, k.1.1 = o) I) as Hn.
    change (entries inbox_space (λ k, k.1.1 = o) I) with (owned I o) in Hn.
    revert Hx Hn. generalize (owned I o). intros l Hx Hn.
    induction l as [|x l IHl]; simpl; [constructor|].
    apply NoDup_cons in Hn as [Hnin Hn]. constructor.
    2:{ apply IHl; [|done]. intros y Hy. apply Hx. by apply list_elem_of_further. }
    intros (y & Hc & Hy)%list_elem_of_fmap. simpl in Hc.
    destruct (Hx x (list_elem_of_here _ _)) as [Hkx HBx].
    destruct (Hx y (list_elem_of_further _ _ _ Hy)) as [Hky HBy].
    rewrite Hc, HBy in HBx. injection HBx as Hxy. apply Hnin. apply list_elem_of_fmap.
    exists y. split; [|done]. by rewrite Hkx, Hky, Hxy.
  - intros e. rewrite list_elem_of_fmap. split.
    + intros ([k e'] & -> & Hin). by apply (elem_of_owned I B o k e' HI) in Hin as [? _].
    + intros HB. exists ((o, ie_last_ts e, ie_conversation_id e), e). split; [done|].
      by apply (elem_of_owned I B o _ e HI).
Qed.

(** The owner's conversations [l], and what [list_inbox], [unread_total] and [stats] make of
    them. *)
Definition reads_view (svc : InboxService) (db : DB) (B : inbox_map) (limit : option nat) : Prop :=
  ∃ l, owner_view B (box svc) l ∧
    list_inbox svc db limit = Ok (take (default 50 limit) l) ∧
    ∃ t, unread_total svc db = Ok t ∧ stats svc db = Ok (mkInboxStats t (length l)) ∧
      uval t = (sum_unread l mod 2 ^ 64)%Z ∧
      ((Z.of_nat (length l) < 2 ^ 32)%Z → uval t = sum_unread l).

(** What the reading operations return. *)
Lemma inbox_reads svc db B limit :
  good db → inbox_repr (contents db) B →
  reads_view svc db B limit.
Proof using PostcardOk0.
  intros Hg (I & Hr & HI). exists (snd <$> owned I (box svc)).
  split; [by apply owned_view|]. split.
  { unfold list_inbox. erewrite owner_pairs_run by done. cbn [mbind result_bind].
    by rewrite list_loop, Nat.sub_0_r. }
  destruct (unread_loop (owned I (box svc)) (umk 64 0) 0 eq_refl) as (t & Ht & Hv).
  destruct (stats_loop (owned I (box svc)) (umk 64 0) 0 0 eq_refl) as (t' & Ht' & Hv').
  assert (t' = t) as -> by (apply (inj uval); by rewrite Hv, Hv').
  exists t. split_and!.
  - unfold unread_total. erewrite owner_pairs_run by done. exact Ht.
  - unfold stats. erewrite owner_pairs_run by done. cbn [mbind result_bind].
    rewrite Ht'. cbn [mbind result_bind fst snd]. by rewrite length_fmap.
  - exact Hv.
  - intros Hlen. rewrite Hv, Z.mod_small; [done|].
    assert (∀ es, (sum_unread es <= Z.of_nat (length es) * (2 ^ 32 - 1))%Z) as Hb.
    { intros es. induction es as [|e es IHl]; simpl; [lia|].
      pose proof (uint_range (ie_unread e)). lia. }
    specialize (Hb (snd <$> owned I (box svc))).
    pose proof (sum_unread_nonneg (snd <$> owned I (box svc))). lia.
Qed.

(** C27: the index keeps one entry per conversation and owner: [upsert] inserts or replaces it,
    whatever its previous time, and [mark_read] clears its unread count and nothing else; no
    other owner's entry is touched. [list_inbox] returns the newest conversations of its
    owner, each once, newest first and at most [limit] (50 by default); the counts of [stats]
    and [unread_total] are those of all of the owner's conversations, the total being exact
    below 2^32 conversations. *)
Theorem inbox_refines svc db B e r limit :
  good db → inbox_repr (contents db) B →
  (∃ st, runs (upsert svc e) db (Ok ()) st ∧
    inbox_repr st (<[(box svc, ie_conversation_id e) := e]> B)) ∧
  (∃ st, runs (inbox_mark_read svc r) db (Ok ()) st ∧
    inbox_repr st (alter cleared (box svc, ref_conversation_id r) B)) ∧
  reads_view svc db B limit.
Proof using PostcardOk0.
  intros. split_and!; [by apply upsert_run|by apply inbox_mark_read_run|by apply inbox_reads].
Qed.

(** The key of an entry decodes to its parts, and among one owner's keys the byte order is
    the order by falling time and then by conversation id. *)
Lemma inbox_keys i m ts c ts' c' :
  decode_key (encode_key i m ts c) = Some (i, m, ts, c) ∧
  bytes_cmp (encode_key i m ts c) (encode_key i m ts' c') =
    then_with (ucmp ts' ts) (arr_cmp (conv_id_0 c) (conv_id_0 c')).
Proof using. split; [apply decode_encode_key|apply (ikey_cmp i m ts c ts' c')]. Qed.

(** A preview is a prefix of the text of at most 140 characters, and the whole text when
    that is short enough. *)
Lemma cap_preview_spec text :
  length (cap_preview text) = Nat.min 140 (length text) ∧
  (∃ rest, text = cap_preview text ++ rest) ∧
  (length text ≤ 140 → cap_preview text = text).
Proof using.
  unfold cap_preview, MAX_PREVIEW_CHARS. destruct (Nat.leb_spec (length text) 140).
  - split_and!; [lia|exists []; by rewrite app_nil_r|done].
  - split_and!; [by rewrite length_take|exists (drop 140 text); by rewrite take_drop|lia].
Qed.
End inbox_props.

(** ** Witnesses *)

Definition ser_kind : Ser ConversationKind :=
  ser_iso (λ k, umk 8 (match k with KindDm => 0 | KindGroup => 1 end))
    (λ x, if (uval x =? 0)%Z then KindDm else KindGroup)
    (λ k, match k with KindDm => eq_refl | KindGroup => eq_refl end).
#[local] Existing Instance ser_kind.
Definition ser_InboxEntry : Ser InboxEntry :=
  ser_iso (λ e, (ie_conversation_id e, (ie_kind e, (ie_last_ts e, (ie_unread e,
                 (ie_preview_sender e, ie_preview e))))))
    (λ p, let '(a, (b, (c, (d, (e, f))))) := p in mkInboxEntry a b c d e f)
    (λ e, match e with mkInboxEntry _ _ _ _ _ _ => eq_refl end).
Definition mem_inbox : Postcard InboxEntry := @mem_postcard _ ser_InboxEntry.
Definition mem_inbox_ok : @PostcardOk _ InboxEntry mem_inbox := @mem_postcard_ok _ ser_InboxEntry.
#[local] Existing Instances mem_inbox mem_inbox_ok.

Definition chat (b : byte) (t n : Z) : InboxEntry :=
  mkInboxEntry (conv_id b) KindDm (umk 64 t) (umk 32 n) (ident Byte.x02) (rstr_of "hello").
Definition box_svc : InboxService := mkInboxService (ident Byte.x01) (machine Byte.x01).
Definition chat_entry : InboxEntry := chat Byte.x07 5 3.
Definition chat_box : inbox_map := <[(box box_svc, conv_id Byte.x07) := chat_entry]> ∅.
Definition chat_db : @DB mem_rocks :=
  mem_with (<[(CF_INBOX_INDEX, ikey (box box_svc, umk 64 5, conv_id Byte.x07)) := enc chat_entry]> ∅).

Lemma empty_indexed : indexed ∅ ∅.
Proof. split; [intros o ts c e|intros o c e]; rewrite !lookup_empty; naive_solver. Qed.

Lemma chat_repr : inbox_repr (contents chat_db) chat_box.
Proof.
  exists (<[(box box_svc, umk 64 5, conv_id Byte.x07) := chat_entry]> ∅). split.
  - exact (repr_insert inbox_space ∅ ∅ (box box_svc, umk 64 5, conv_id Byte.x07) chat_entry
      (repr_empty _)).
  - exact (indexed_upsert ∅ ∅ (box box_svc) chat_entry empty_indexed).
Qed.

Lemma inbox_refines_witness :
  (∃ st, runs (upsert box_svc (chat Byte.x07 9 1)) chat_db (Ok ()) st ∧
    inbox_repr st (<[(box box_svc, conv_id Byte.x07) := chat Byte.x07 9 1]> chat_box)) ∧
  (∃ st, runs (inbox_mark_read box_svc (ref_dm (conv_id Byte.x07))) chat_db (Ok ()) st ∧
    inbox_repr st (alter cleared (box box_svc, conv_id Byte.x07) chat_box)) ∧
  reads_view box_svc chat_db chat_box (Some 3).
Proof.
  exact (inbox_refines box_svc chat_db chat_box (chat Byte.x07 9 1) (ref_dm (conv_id Byte.x07)) (Some 3)
    (mem_with_good _) chat_repr).
Defined.
