(* ===== verification/DmReceive.v ===== *)
(** * Inbound direct messages ([zero-messaging/src/dm/receive.rs])

    [process_inbound_dm] and the receive loop. The stream a subscription returns is the list
    of the items it yields; [start_receive_loop] is the spawned task run to its end, [poll_item]
    one turn of it, and [task] what its [ReceiveLoopHandle] sees. The service and the receiver
    share one database. *)

From Stdlib Require Import ZArith Lia.
From stdpp Require Import base tactics gmap strings sorting numbers countable list.
From S2P Require Import Prelude Bytes Store Mem Aad Db Dedupe Outbox Contacts Net Dm.
#[local] Open Scope nat_scope.

(** The clock readings and the fresh UUID of one run of [process_inbound_dm], in the order
    the code takes them. *)
Record readings : Type := mkReadings {
  rd_now : u64;
  rd_receipt : u64;
  rd_sector : arr 16;
  rd_enqueue : u64;
}.

(** One item of the stream with the readings its processing takes. *)
Abbreviation arrival := (result NetworkError SectorBytes * readings)%type.

Definition inbound_topic (identity : IdentityId) : rstr :=
  foldl (λ topic b, topic ++ hex_byte b) (rstr_of "dm/") (arr_bytes (identity_id_0 identity)).

(** No two identities share a topic. *)
#[export] Instance inbound_topic_inj : Inj (=) (=) inbound_topic.
Proof.
  intros [a] [b]. unfold inbound_topic. cbn [identity_id_0]. rewrite !hex_foldl.
  intros Heq%(inj _)%hex_inj. f_equal. by apply (inj arr_bytes).
Qed.

(** The spawned task as its [ReceiveLoopHandle] sees it: not yet subscribed, waiting for the
    next item of the stream, returned, or aborted while it waited. *)
Inductive task : Type := Spawned | Polling | Finished | Aborted.

#[export] Instance task_eq_dec : EqDecision task.
Proof. solve_decision. Defined.

(** [Drop]: an abort takes effect where the task waits; one that has returned stays so. *)
Definition drop_handle (t : task) : task := match t with Spawned | Polling => Aborted | t => t end.

Definition is_finished (t : task) : bool := match t with Spawned | Polling => false | _ => true end.

Section receive.
Context `{R : RocksDB} `{P : PostcardLib} `{B : Blake3} `{L : Lru} `{G : GridClient}.
Context `{!Postcard OutboxEntry, !Postcard Contact, !Postcard Conversation, !Postcard Message,
          !Postcard DmSectorPayload, !Postcard ReceiptPayload}.

(** [DmReceiver { service, db, identity, machine_id, grid, dedupe }]; the database, the
    network and the cache are threaded. *)
Record DmReceiver : Type := mkDmReceiver {
  rc_service : DmService;
  rc_identity : IdentityId;
  rc_machine_id : MachineId;
}.

(** The message a payload becomes. *)
Definition inbound_message (payload : DmSectorPayload) (now_ms : u64) : Message :=
  mkMessage (dsp_message_id payload) (dsp_conversation_id payload) (dsp_sender_identity payload)
    (dsp_sender_machine payload) (dsp_text payload) Delivered (dsp_created_at_ms payload) now_ms.

Definition process_inbound_dm (rcv : DmReceiver) (sector_bytes : bytes) (rd : readings)
    : io DB DmError MessageId :=
  payload ← lift (map_err dm_codec (from_bytes sector_bytes));
  let msg := inbound_message payload (rd_now rd) in
  opened ← attempt (open_conversation (rc_service rcv) (dsp_sender_identity payload));
  match opened with
  | Err (DmStorage e) => fails (DmStorage e)
  | _ =>
      store_message msg;;
      let receipt := build_delivered_receipt (dsp_message_id payload)
        (dsp_conversation_id payload) (rc_identity rcv) (rc_machine_id rcv) (rd_receipt rd) in
      enqueue_receipt Outbox_new receipt (rd_sector rd) (rd_enqueue rd);;
      mret (dsp_message_id payload)
  end.

(** The id under which the loop remembers a sector. *)
Definition inbound_sector_id (sector_bytes : bytes) : SectorId :=
  mkSectorId (arr_fit 16 (take 16 (arr_bytes (blake3_hash sector_bytes)))).

Fixpoint receive_loop (rcv : DmReceiver) (items : list arrival) (dedupe : DedupeCache) (db : DB)
    : DedupeCache * DB :=
  match items with
  | [] => (dedupe, db)
  | (Err _, _) :: _ => (dedupe, db)
  | (Ok sector_bytes, rd) :: rest =>
      let sector_id := inbound_sector_id sector_bytes in
      if seen dedupe sector_id then receive_loop rcv rest dedupe db
      else
        let dedupe := mark dedupe sector_id in
        let (db, _) := process_inbound_dm rcv sector_bytes rd db in
        receive_loop rcv rest dedupe db
  end.

(** What the task does before its loop. *)
Definition first_turn (rcv : DmReceiver) (net : grid_state) : grid_state * task :=
  match subscribe (inbound_topic (rc_identity rcv)) net with
  | (net, Ok _) => (net, Polling)
  | (net, Err _) => (net, Finished)
  end.

(** One turn of the loop, on the next item or the end of the stream. *)
Definition poll_item (rcv : DmReceiver) (item : option arrival) (dedupe : DedupeCache) (db : DB)
    : task * (DedupeCache * DB) :=
  match item with
  | Some (Ok sector_bytes, rd) =>
      let sector_id := inbound_sector_id sector_bytes in
      if seen dedupe sector_id then (Polling, (dedupe, db))
      else
        let dedupe := mark dedupe sector_id in
        let (db, _) := process_inbound_dm rcv sector_bytes rd db in
        (Polling, (dedupe, db))
  | Some (Err _, _) | None => (Finished, (dedupe, db))
  end.

(** [start_receive_loop]: [items] is what the stream yields. *)
Definition start_receive_loop (rcv : DmReceiver) (items : grid_stream → list arrival)
    (net : grid_state) (dedupe : DedupeCache) (db : DB) : grid_state * (DedupeCache * DB) :=
  match subscribe (inbound_topic (rc_identity rcv)) net with
  | (net, Ok stream) => (net, receive_loop rcv (items stream) dedupe db)
  | (net, Err _) => (net, (dedupe, db))
  end.

(** The loop, turn by turn. *)
Fixpoint poll_all (rcv : DmReceiver) (items : list arrival) (t : task) (dedupe : DedupeCache) (db : DB)
    : task * (DedupeCache * DB) :=
  match items, t with
  | item :: rest, Polling =>
      let '(t, (dedupe, db)) := poll_item rcv (Some item) dedupe db in
      poll_all rcv rest t dedupe db
  | _, _ => (t, (dedupe, db))
  end.

Lemma poll_all_loop rcv items dedupe db :
  (poll_all rcv items Polling dedupe db).2 = receive_loop rcv items dedupe db.
Proof using.
  revert dedupe db. induction items as [|[[b|e] rd] items IHl]; intros dedupe db; [done| |].
  - cbn. destruct (seen _ _); [apply IHl|]. destruct (process_inbound_dm _ _ _ _). apply IHl.
  - cbn. by destruct items.
Qed.
End receive.

(** ** Specification *)

Section receive_laws.
Context `{ROk : RocksOk} `{P : PostcardLib} `{B : Blake3} `{LOk : LruOk}.
Context `{!Postcard Contact, !PostcardOk Contact, !Postcard OutboxEntry, !PostcardOk OutboxEntry,
          !Postcard Conversation, !PostcardOk Conversation, !Postcard Message,
          !PostcardOk Message, !Postcard DmSectorPayload, !PostcardOk DmSectorPayload,
          !Postcard ReceiptPayload, !PostcardOk ReceiptPayload}.

Definition delivered_receipt (rcv : DmReceiver) (p : DmSectorPayload) (rd : readings)
    : ReceiptPayload :=
  mkReceiptPayload (dsp_message_id p) (dsp_conversation_id p) (rc_identity rcv)
    (rc_machine_id rcv) Delivered (rd_receipt rd).

(** The maps after a payload: the conversation opened if the sender is a contact, the message
    stored over whatever had its key, and the receipt queued if there is room. *)
Definition spec_process (rcv : DmReceiver) (b : bytes) (rd : readings) (S : dm_state)
    : dm_state * result DmError MessageId :=
  match from_bytes b with
  | Err e => (S, Err (dm_codec e))
  | Ok p =>
      let S1 := (spec_open (rc_service rcv) (dsp_sender_identity p) S).1 in
      let m := inbound_message p (rd_now rd) in
      let S2 := set_msgs (<[own_key m := m]> (d_msgs S1)) S1 in
      let (S3, x) := spec_enqueue_receipt Outbox_new (delivered_receipt rcv p rd)
        (rd_sector rd) (rd_enqueue rd) S2 in
      (S3, match x with Ok _ => Ok (dsp_message_id p) | Err e => Err e end)
  end.

Lemma spec_open_no_storage svc peer S e : (spec_open svc peer S).2 ≠ Err (DmStorage e).
Proof using. unfold spec_open. by repeat case_match. Qed.

Lemma process_inbound_run rcv b rd db S :
  good db → dm_repr (contents db) S →
  ∃ st, runs (process_inbound_dm rcv b rd) db (spec_process rcv b rd S).2 st ∧
    dm_repr st (spec_process rcv b rd S).1.
Proof using PostcardOk0 PostcardOk1 PostcardOk2 PostcardOk3 PostcardOk5.
  intros Hg HS. unfold spec_process, process_inbound_dm.
  destruct (from_bytes b) as [p|e] eqn:Hp; cbn [map_err fst snd].
  2:{ by apply runs_stay. }
  eapply runs_lift_then; [done|]. cbv zeta.
  set (m := inbound_message p (rd_now rd)).
  pose proof (open_conversation_run (rc_service rcv) db S (dsp_sender_identity p) Hg HS) as Ho.
  pose proof (spec_open_no_storage (rc_service rcv) (dsp_sender_identity p) S) as Hno.
  destruct (spec_open (rc_service rcv) (dsp_sender_identity p) S) as [S1 o]. cbn [fst snd] in *.
  eapply runs_attempt_then; [exact Ho|]. intros db1 Hg1 HS1.
  set (S2 := set_msgs (<[own_key m := m]> (d_msgs S1)) S1).
  pose proof (λ db, enqueue_receipt_run Outbox_new db S2 (delivered_receipt rcv p rd)
    (rd_sector rd) (rd_enqueue rd)) as Henq.
  destruct (spec_enqueue_receipt _ _ _ _ S2) as [S3 x]. cbn [fst snd] in *.
  assert (∃ st, runs (store_message m;;
      enqueue_receipt Outbox_new (delivered_receipt rcv p rd) (rd_sector rd) (rd_enqueue rd);;
      mret (dsp_message_id p)) db1
    (match x with Ok _ => Ok (dsp_message_id p) | Err e => Err e end) st ∧ dm_repr st S3) as Hrest.
  { eapply (runs_then (λ st, dm_repr st S2)).
    { destruct (store_message_run db1 _ _ m Hg1 (proj1 (proj2 HS1))) as (st & ? & ? & ?).
      exists st. split; [done|]. by eapply dm_chains. }
    intros db2 Hg2 HS2. destruct x as [sid|e].
    - eapply runs_then; [by apply Henq|]. intros db3 Hg3 HS3.
      exact (runs_ret _ (dsp_message_id p) db3 Hg3 HS3).
    - by apply runs_then_err, Henq. }
  destruct o as [v|[]]; try exact Hrest. by destruct (Hno e).
Qed.

Lemma spec_process_wf rcv b rd S : dm_wf S → dm_wf (spec_process rcv b rd S).1.
Proof using.
  intros [HM HC]. unfold spec_process. destruct (from_bytes b) as [p|]; [|done].
  assert (dm_wf (spec_open (rc_service rcv) (dsp_sender_identity p) S).1) as [HM1 HC1].
  { unfold spec_open. repeat case_match; [done| |done]. split; [done|].
    intros c0 v0. cbn [set_convs d_convs fst]. intros [[<- <-]|[_ Hv]]%lookup_insert_Some; [done|]. by apply HC. }
  unfold spec_enqueue_receipt. destruct (spec_enqueue _ _ _) as [O' x].
  split; [|exact HC1]. by apply msgs_wf_insert.
Qed.

(** ** The loop *)

(** The sectors received before the stream fails or ends. *)
Fixpoint received (items : list arrival) : list (bytes * readings) :=
  match items with
  | (Ok b, rd) :: rest => (b, rd) :: received rest
  | _ => []
  end.

(** The first sector of each id that is not among [old]. *)
Fixpoint firsts (old : list SectorId) (l : list (bytes * readings)) : list (bytes * readings) :=
  match l with
  | [] => []
  | (b, rd) :: l' =>
      if decide (inbound_sector_id b ∈ old) then firsts old l'
      else (b, rd) :: firsts (inbound_sector_id b :: old) l'
  end.

Definition spec_receive_all (rcv : DmReceiver) (l : list (bytes * readings)) (S : dm_state)
    : dm_state := foldl (λ S a, (spec_process rcv a.1 a.2 S).1) S l.

Lemma mark_new c id old :
  recency (inner c) = old → id ∉ old → S (length old) ≤ lru_cap (inner c) →
  recency (inner (mark c id)) = id :: old ∧ lru_cap (inner (mark c id)) = lru_cap (inner c).
Proof using.
  intros Hr Hid Hlen. unfold mark. cbn [inner].
  destruct (lru_put_spec (inner c) id) as [-> ->]. split; [|done]. rewrite Hr.
  rewrite filter_all by (apply Forall_forall; intros x Hx ->; done).
  apply take_ge. cbn [length]. lia.
Qed.

Lemma receive_loop_run rcv items old c db S :
  recency (inner c) = old → length old + length (firsts old (received items)) ≤ lru_cap (inner c) →
  good db → dm_repr (contents db) S →
  let (c', db') := receive_loop rcv items c db in
  good db' ∧ dm_repr (contents db') (spec_receive_all rcv (firsts old (received items)) S) ∧
  ∀ id, seen c' id = true ↔ id ∈ old ∨ id ∈ (inbound_sector_id ∘ fst) <$> received items.
Proof using PostcardOk0 PostcardOk1 PostcardOk2 PostcardOk3 PostcardOk5.
  revert old c db S. induction items as [|[[b|e] rd] items IHl]; intros old c db S Hold Hcap Hg HS;
    cbn [receive_loop received].
  - cbn [firsts spec_receive_all foldl fmap list_fmap]. split_and!; [done|done|]. intros id. rewrite seen_iff, Hold, elem_of_nil. tauto.
  - cbn [firsts received] in Hcap |- *. set (id := inbound_sector_id b) in *.
    destruct (seen c id) eqn:Hseen.
    + assert (id ∈ old) as Hin by (by apply seen_iff in Hseen; rewrite Hold in Hseen).
      rewrite decide_True in Hcap |- * by done.
      specialize (IHl old c db S Hold Hcap Hg HS).
      destruct (receive_loop rcv items c db) as [c' db']. destruct IHl as (?&?&Hs).
      split_and!; [done|done|]. intros id'. rewrite Hs, fmap_cons, elem_of_cons.
      cbn [compose fst]. fold id. split; [tauto|]. by intros [?|[->|?]]; auto.
    + assert (id ∉ old) as Hnin.
      { rewrite <-Hold, <-seen_iff. by rewrite Hseen. }
      rewrite decide_False in Hcap |- * by done. cbn [length] in Hcap.
      destruct (mark_new c id old Hold Hnin) as [Hold' Hcap']; [lia|].
      destruct (process_inbound_run rcv b rd db S Hg HS) as (st & (db1 & -> & Hg1 & <-) & HS1).
      specialize (IHl (id :: old) (mark c id) db1 _ Hold' ltac:(cbn [length]; lia) Hg1 HS1).
      destruct (receive_loop rcv items (mark c id) db1) as [c' db']. destruct IHl as (?&?&Hs).
      split_and!; [done|done|]. intros id'. rewrite Hs, fmap_cons, !elem_of_cons.
      cbn [compose fst]. fold id. tauto.
  - cbn [firsts spec_receive_all foldl fmap list_fmap]. split_and!; [done|done|]. intros id. rewrite seen_iff, Hold, elem_of_nil. tauto.
Qed.
End receive_laws.

(** ** Properties *)

Section receive_props.
Context `{ROk : RocksOk} `{P : PostcardLib} `{B : Blake3} `{LOk : LruOk} `{G : GridClient}.
Context `{!Postcard Contact, !PostcardOk Contact, !Postcard OutboxEntry, !PostcardOk OutboxEntry,
          !Postcard Conversation, !PostcardOk Conversation, !Postcard Message,
          !PostcardOk Message, !Postcard DmSectorPayload, !PostcardOk DmSectorPayload,
          !Postcard ReceiptPayload, !PostcardOk ReceiptPayload}.

(** C26: an inbound payload is stored as a Delivered message whether or not its sender is a
    contact, over whatever had its key, and nothing else of the messages changes; its receipt
    is queued, or the full outbox is reported with the message stored all the same. Bytes that
    are no payload change nothing. *)
Theorem process_inbound_spec rcv b rd db (S : dm_state) :
  good db → dm_repr (contents db) S → dm_wf S →
  let S' := (spec_process rcv b rd S).1 in
  let r := (spec_process rcv b rd S).2 in
  (∃ st, runs (process_inbound_dm rcv b rd) db r st ∧ dm_repr st S' ∧ dm_wf S') ∧
  match from_bytes b with
  | Err e => S' = S ∧ r = Err (dm_codec e)
  | Ok p =>
      d_msgs S' = <[(dsp_conversation_id p, dsp_message_id p) :=
        inbound_message p (rd_now rd)]> (d_msgs S) ∧
      d_contacts S' = d_contacts S ∧
      match r with
      | Ok id => id = dsp_message_id p ∧ is_Some (d_outbox S' !! mkSectorId (rd_sector rd))
      | Err e => e = DmStorage OutboxFull ∧ d_outbox S' = d_outbox S
      end
  end.
Proof using PostcardOk0 PostcardOk1 PostcardOk2 PostcardOk3 PostcardOk5.
  intros Hg HS Hw. cbv zeta. split.
  { destruct (process_inbound_run rcv b rd db S Hg HS) as (st & ? & ?). exists st.
    split_and!; [done|done|by apply spec_process_wf]. }
  unfold spec_process. destruct (from_bytes b) as [p|e]; [|done].
  assert (∀ S1, S1 = (spec_open (rc_service rcv) (dsp_sender_identity p) S).1 →
    d_msgs S1 = d_msgs S ∧ d_contacts S1 = d_contacts S ∧ d_outbox S1 = d_outbox S) as Ho.
  { intros S1 ->. unfold spec_open. by repeat case_match. }
  destruct (Ho _ eq_refl) as (HM & HK & HO). unfold spec_enqueue_receipt.
  cbn [set_msgs d_outbox]. rewrite HO, HM. unfold spec_enqueue, receipt_entry. cbn [oe_sector_id].
  destruct (d_outbox S !! _) eqn:Hsome; [|destruct (capacity Outbox_new <=? _)];
    cbn [fst snd conc set_outbox set_msgs d_msgs d_contacts d_outbox]; split_and!; try done.
  rewrite lookup_insert_eq. by eexists.
Qed.

Lemma receive_loop_replay rcv items c db :
  (∀ a, a ∈ received items → seen c (inbound_sector_id a.1) = true) →
  receive_loop rcv items c db = (c, db).
Proof using.
  induction items as [|[[b|e] rd] items IHl]; intros Hs; [done| |done].
  cbn [receive_loop received] in *. pose proof (Hs (b, rd) (list_elem_of_here _ _)) as Hb.
  cbn [fst] in Hb. rewrite Hb.
  apply IHl. intros a Ha. by apply Hs, list_elem_of_further.
Qed.

(** C10: the loop processes each distinct sector of its stream once, at its first arrival and in
    order, up to the stream's end or first error, for streams with no more distinct sectors
    than the dedupe cache holds; sectors delivered again by a later subscription are ignored.
    A subscription that fails leaves everything as it was. *)
Theorem receive_once rcv items replay net cap c db (S : dm_state) :
  DedupeCache_new cap = Some c → good db → dm_repr (contents db) S →
  (∀ s, length (firsts [] (received (items s))) ≤ cap ∧
    ∀ a, a ∈ received (replay s) → ∃ a', a' ∈ received (items s) ∧
      inbound_sector_id a'.1 = inbound_sector_id a.1) →
  match subscribe (inbound_topic (rc_identity rcv)) net with
  | (net', Ok stream) =>
      ∃ c' db', start_receive_loop rcv items net c db = (net', (c', db')) ∧ good db' ∧
        dm_repr (contents db') (spec_receive_all rcv (firsts [] (received (items stream))) S) ∧
        receive_loop rcv (replay stream) c' db' = (c', db')
  | (net', Err _) => start_receive_loop rcv items net c db = (net', (c, db))
  end.
Proof using LOk PostcardOk0 PostcardOk1 PostcardOk2 PostcardOk3 PostcardOk5.
  intros Hc Hg HS Hlen. unfold start_receive_loop.
  destruct (subscribe _ net) as [net' [stream|e]]; [|done].
  destruct (Hlen stream) as [Hcap Hrep].
  destruct (mark_all cap c [] Hc) as [Hr Hk]. cbn [foldl] in Hr, Hk.
  pose proof (receive_loop_run rcv (items stream) [] c db S) as H.
  destruct (receive_loop rcv (items stream) c db) as [c' db'].
  destruct H as (Hg' & HS' & Hs); [by rewrite Hr; destruct cap|cbn [length]; lia|done|done|].
  exists c', db'. split_and!; [done|done|done|]. apply receive_loop_replay.
  intros a Ha. apply Hs. right. destruct (Hrep a Ha) as (a' & Ha' & <-).
  apply list_elem_of_fmap. by exists a'.
Qed.
End receive_props.

(** ** Witnesses *)

#[local] Existing Instances mem_contact mem_contact_ok mem_outbox mem_outbox_ok mem_message
  mem_message_ok mem_conversation mem_conversation_ok mem_dm_payload mem_dm_payload_ok
  mem_receipt mem_receipt_ok.

Definition sample_rcv : DmReceiver := mkDmReceiver sample_svc (ident Byte.x01) (machine Byte.x01).
Definition inbound (m : byte) : DmSectorPayload :=
  mkDmSectorPayload (message_id m) (conv_id Byte.x07) (ident Byte.x02) (machine Byte.x02)
    (rstr_of "hello") (umk 64 3).
Definition rd (n : byte) : readings :=
  mkReadings (umk 64 10) (umk 64 11) (arr_fill 16 n) (umk 64 12).

(** A message that was stored as Queued becomes Delivered. *)
Lemma process_inbound_spec_witness :
  let spec := spec_process sample_rcv (enc (inbound Byte.x01)) (rd Byte.x0a) sample_state in
  is_ok spec.2 = true ∧
  msg_status <$> d_msgs spec.1 !! own_key (hello Byte.x07 Byte.x01) = Some Delivered ∧
  ∃ st, runs (process_inbound_dm sample_rcv (enc (inbound Byte.x01)) (rd Byte.x0a)) dm_db spec.2 st ∧
    dm_repr st spec.1 ∧ dm_wf spec.1.
Proof.
  split_and!; [vm_compute; reflexivity|vm_compute; reflexivity|].
  exact (proj1 (process_inbound_spec sample_rcv (enc (inbound Byte.x01)) (rd Byte.x0a) dm_db
    sample_state (mem_with_good _) sample_dm_repr sample_dm_wf)).
Defined.

(** A network whose subscriptions always succeed. *)
Definition quiet_net : GridClient :=
  {| grid_state := (); grid_stream := (); publish _ _ s := (s, Ok ());
     subscribe _ s := (s, Ok ()); unsubscribe _ s := (s, Ok ()) |}.
#[local] Existing Instance quiet_net.
Definition idle : @grid_state quiet_net := tt.

(** Two payloads, the first of them twice, and an error that ends the stream. *)
Definition sample_arrivals : list arrival :=
  [(Ok (enc (inbound Byte.x01)), rd Byte.x0a); (Ok (enc (inbound Byte.x03)), rd Byte.x0b);
   (Ok (enc (inbound Byte.x01)), rd Byte.x0c); (Err SubscriptionClosed, rd Byte.x0d);
   (Ok (enc (inbound Byte.x04)), rd Byte.x0e)].

Lemma sample_firsts :
  firsts [] (received sample_arrivals) =
    [(enc (inbound Byte.x01), rd Byte.x0a); (enc (inbound Byte.x03), rd Byte.x0b)].
Proof. vm_compute. reflexivity. Qed.

Lemma receive_once_witness :
  ∃ c' db', start_receive_loop sample_rcv (λ _ : @grid_stream quiet_net, sample_arrivals) idle (mkDedupeCache (lru_new 4))
      dm_db = (idle, (c', db')) ∧ good db' ∧
    dm_repr (contents db') (spec_receive_all sample_rcv
      [(enc (inbound Byte.x01), rd Byte.x0a); (enc (inbound Byte.x03), rd Byte.x0b)] sample_state) ∧
    receive_loop sample_rcv (rev (take 3 sample_arrivals)) c' db' = (c', db').
Proof.
  rewrite <-sample_firsts.
  refine (receive_once sample_rcv (λ _ : @grid_stream quiet_net, sample_arrivals) (λ _, rev (take 3 sample_arrivals))
    idle 4 (mkDedupeCache (lru_new 4)) dm_db sample_state eq_refl (mem_with_good _) sample_dm_repr _).
  intros s. split.
  - rewrite sample_firsts. simpl. lia.
  - intros a Ha. exists a. split; [|reflexivity]. revert Ha. cbn.
    rewrite !elem_of_cons, !elem_of_nil. tauto.
Defined.
