(* ===== verification/Retry.v ===== *)
(** * The outbox pump ([zero-network/src/retry.rs])

    The backoff, the [OutboxHandle] trait as a type class with its contract, and the pump: one
    pass of its loop is a function of the network, the outbox and the emitted events; the
    endless loop is any number of passes. *)

From Stdlib Require Import ZArith Lia.
From stdpp Require Import base tactics gmap strings sorting numbers countable list.
From S2P Require Import Prelude Bytes Net.
#[local] Open Scope nat_scope.

(** ** Saturating arithmetic at a width *)

Definition usat_sub {w} (x y : uint w) : uint w := umk w (Z.max (uval x - uval y) 0).
Definition usat_mul {w} (x y : uint w) : uint w := umk w (Z.min (uval x * uval y) (umax w)).
Definition usat_pow {w} (x : uint w) (e : u32) : uint w :=
  umk w (Z.min (uval x ^ uval e) (umax w)).

(** ** Policy *)

Definition RETRY_INITIAL_DELAY_MS : u64 := umk 64 500.
Definition RETRY_BACKOFF_MULTIPLIER : u64 := umk 64 2.
Definition RETRY_MAX_ATTEMPTS : u8 := umk 8 5.
Definition RETRY_CAP_MS : u64 := umk 64 30000.
Definition PUMP_POLL_INTERVAL_MS : u64 := umk 64 250.

(** [ns] is the nanosecond part of the clock. *)
Definition compute_backoff_ms (attempts : u8) (ns : u64) : u64 :=
  let exp := usat_sub (umk 32 (uval attempts)) (umk 32 1) in
  let base := usat_mul RETRY_INITIAL_DELAY_MS (usat_pow RETRY_BACKOFF_MULTIPLIER exp) in
  let capped := umk 64 (Z.min (uval base) (uval RETRY_CAP_MS)) in
  let half := umk 64 (uval capped / 2) in
  let frac := umk 64 (uval ns mod Z.max (uval half) 1) in
  uadd half frac.

(** ** The outbox the pump drives *)

Record RetryExhausted : Type := mkRetryExhausted { rx_topic : rstr; rx_attempts : u8 }.

Record OutboxEntryHandle : Type := mkOutboxEntryHandle {
  oh_topic : rstr;
  oh_payload : SectorBytes;
  oh_attempts : u8;
}.

Class OutboxHandle : Type := {
  outbox_state : Type;
  due_entries : outbox_state → u64 → list OutboxEntryHandle;
  ack : rstr → outbox_state → outbox_state;
  record_failure : rstr → u64 → outbox_state → outbox_state;
  outbox_remove : rstr → outbox_state → outbox_state;
}.

(** What the trait's documentation promises: a queue with one entry per topic. *)
Record queued : Type := mkQueued { q_payload : SectorBytes; q_attempts : u8; q_next : u64 }.

Definition failed_once (next : u64) (e : queued) : queued :=
  mkQueued (q_payload e) (uadd (q_attempts e) (umk 8 1)) next.

Class OutboxHandleOk `{OB : OutboxHandle} : Type := {
  queue : outbox_state → gmap rstr queued;
  (** The implementation's invariant, which its operations keep. *)
  outbox_ok : outbox_state → Prop;
  due_nodup s now : outbox_ok s → NoDup (oh_topic <$> due_entries s now);
  due_spec s now h : outbox_ok s →
    h ∈ due_entries s now ↔ ∃ e, queue s !! oh_topic h = Some e ∧
      ule (q_next e) now = true ∧ oh_payload h = q_payload e ∧ oh_attempts h = q_attempts e;
  ack_spec t s : outbox_ok s → outbox_ok (ack t s) ∧ queue (ack t s) = delete t (queue s);
  record_failure_spec t next s : outbox_ok s →
    outbox_ok (record_failure t next s) ∧
    queue (record_failure t next s) = alter (failed_once next) t (queue s);
  outbox_remove_spec t s : outbox_ok s →
    outbox_ok (outbox_remove t s) ∧ queue (outbox_remove t s) = delete t (queue s);
}.

(** ** The pump *)

Section pump.
Context `{G : GridClient} `{OB : OutboxHandle}.

(** [RetryPump { client, outbox, exhausted_tx }]: the client's network and the outbox are
    threaded, with the events sent so far; [exhausted_tx] is whether a channel is attached. *)
Record RetryPump : Type := mkRetryPump { exhausted_tx : bool }.
Definition RetryPump_new : RetryPump := mkRetryPump false.
Definition with_exhaustion_channel (p : RetryPump) : RetryPump := mkRetryPump true.

Record pump_state : Type := mkPump {
  ps_net : grid_state;
  ps_outbox : outbox_state;
  ps_events : list RetryExhausted;
}.

(** The readings a failed entry takes: the nanoseconds and then the time. *)
Definition pump_entry (p : RetryPump) (rd : u64 * u64) (entry : OutboxEntryHandle)
    (s : pump_state) : pump_state :=
  let next_attempts := uadd (oh_attempts entry) (umk 8 1) in
  match publish (oh_topic entry) (oh_payload entry) (ps_net s) with
  | (net, Ok _) => mkPump net (ack (oh_topic entry) (ps_outbox s)) (ps_events s)
  | (net, Err _) =>
      if ule RETRY_MAX_ATTEMPTS next_attempts then
        mkPump net (outbox_remove (oh_topic entry) (ps_outbox s))
          (if exhausted_tx p
           then ps_events s ++ [mkRetryExhausted (oh_topic entry) next_attempts]
           else ps_events s)
      else
        let delay := compute_backoff_ms next_attempts rd.1 in
        mkPump net (record_failure (oh_topic entry) (uadd rd.2 delay) (ps_outbox s)) (ps_events s)
  end.

(** [for entry in due]; the [i]th entry takes the readings [rds i]. *)
Fixpoint pump_entries (p : RetryPump) (rds : nat → u64 * u64) (due : list OutboxEntryHandle)
    (s : pump_state) : pump_state :=
  match due with
  | [] => s
  | entry :: rest => pump_entries p (λ i, rds (S i)) rest (pump_entry p (rds 0) entry s)
  end.

(** One pass of [pump_loop]. *)
Definition pump_pass (p : RetryPump) (now : u64) (rds : nat → u64 * u64) (s : pump_state)
    : pump_state := pump_entries p rds (due_entries (ps_outbox s) now) s.

(** [pump_loop] cut after the given passes; between passes it only sleeps. *)
Definition pump_loop (p : RetryPump) (passes : list (u64 * (nat → u64 * u64))) (s : pump_state)
    : pump_state := foldl (λ s pass, pump_pass p pass.1 pass.2 s) s passes.
End pump.

(** ** Backoff *)

(** The delay before the jitter. *)
Definition nominal_delay (attempts : u8) : Z :=
  Z.min (500 * 2 ^ Z.max (uval attempts - 1) 0) 30000.

Lemma nominal_delay_range a : (500 <= nominal_delay a <= 30000)%Z.
Proof.
  unfold nominal_delay. assert (1 <= 2 ^ Z.max (uval a - 1) 0)%Z; [|lia].
  apply (Z.pow_le_mono_r 2 0); lia.
Qed.

Lemma backoff_value a ns :
  uval (compute_backoff_ms a ns) =
    (nominal_delay a / 2 + uval ns mod (nominal_delay a / 2))%Z.
Proof.
  pose proof (uint_range a). unfold compute_backoff_ms, usat_sub, usat_mul, usat_pow, uadd.
  set (n := nominal_delay a). pose proof (nominal_delay_range a) as Hn. fold n in Hn.
  assert (uval (umk 64 (Z.min (uval (umk 64 (Z.min (uval RETRY_INITIAL_DELAY_MS *
     uval (umk 64 (Z.min (uval RETRY_BACKOFF_MULTIPLIER ^
       uval (umk 32 (Z.max (uval (umk 32 (uval a)) - uval (umk 32 1)) 0)))%Z (umax 64))))
     (umax 64)))) (uval RETRY_CAP_MS))) = n) as ->.
  { rewrite (uval_umk_small 32 (uval a)) by lia.
    change (uval (umk 32 1)) with 1%Z. rewrite (uval_umk_small 32) by lia.
    change (uval RETRY_BACKOFF_MULTIPLIER) with 2%Z. change (uval RETRY_INITIAL_DELAY_MS) with 500%Z.
    change (uval RETRY_CAP_MS) with 30000%Z.
    set (x := (2 ^ Z.max (uval a - 1) 0)%Z).
    assert (1 <= x)%Z by (apply (Z.pow_le_mono_r 2 0); lia).
    assert (umax 64 = 18446744073709551615)%Z as Hmax by reflexivity.
    rewrite (uval_umk_small 64 (Z.min x _)) by lia.
    rewrite (uval_umk_small 64 (Z.min (500 * _) _)) by lia.
    rewrite uval_umk_small by lia. unfold n, nominal_delay. fold x. lia. }
  assert (250 <= n / 2 <= 15000)%Z by (split; [apply Z.div_le_lower_bound|apply Z.div_le_upper_bound]; lia).
  rewrite (uval_umk_small 64 (n / 2)) by lia. rewrite Z.max_l by lia.
  pose proof (Z.mod_pos_bound (uval ns) (n / 2) ltac:(lia)).
  rewrite (uval_umk_small 64 (_ mod _)) by lia. by rewrite uval_umk_small by lia.
Qed.

(** ** What a pass does *)

Section pump_laws.
Context `{G : GridClient} `{OB : OutboxHandle} `{OBOk : !OutboxHandleOk}.

(** The publications of a pass in order: the network afterwards and which succeeded. *)
Fixpoint outcomes (due : list OutboxEntryHandle) (net : grid_state) : grid_state * list bool :=
  match due with
  | [] => (net, [])
  | h :: rest =>
      let (net1, r) := publish (oh_topic h) (oh_payload h) net in
      let (net2, oks) := outcomes rest net1 in (net2, is_ok r :: oks)
  end.

(** What becomes of an entry. *)
Definition after_publish (rd : u64 * u64) (ok : bool) (h : OutboxEntryHandle) : option queued :=
  let n := uadd (oh_attempts h) (umk 8 1) in
  if ok || ule RETRY_MAX_ATTEMPTS n then None
  else Some (mkQueued (oh_payload h) n (uadd rd.2 (compute_backoff_ms n rd.1))).

(** The events of the entries given up. *)
Fixpoint given_up (due : list OutboxEntryHandle) (oks : list bool) : list RetryExhausted :=
  match due, oks with
  | h :: due', ok :: oks' =>
      let n := uadd (oh_attempts h) (umk 8 1) in
      if negb ok && ule RETRY_MAX_ATTEMPTS n then mkRetryExhausted (oh_topic h) n :: given_up due' oks'
      else given_up due' oks'
  | _, _ => []
  end.

Definition pending (s : pump_state) : gmap rstr queued := queue (ps_outbox s).
Definition pump_ok (s : pump_state) : Prop := outbox_ok (ps_outbox s).

Definition handles (h : OutboxEntryHandle) (Q : gmap rstr queued) : Prop :=
  ∃ e, Q !! oh_topic h = Some e ∧ oh_payload h = q_payload e ∧ oh_attempts h = q_attempts e.

Lemma pump_entry_spec p rd h s :
  pump_ok s → handles h (pending s) →
  let (net', r) := publish (oh_topic h) (oh_payload h) (ps_net s) in
  pump_ok (pump_entry p rd h s) ∧
  ps_net (pump_entry p rd h s) = net' ∧
  pending (pump_entry p rd h s) !! oh_topic h = after_publish rd (is_ok r) h ∧
  (∀ t, t ≠ oh_topic h → pending (pump_entry p rd h s) !! t = pending s !! t) ∧
  ps_events (pump_entry p rd h s) =
    ps_events s ++ (if exhausted_tx p then given_up [h] [is_ok r] else []).
Proof using.
  intros Hok (e & He & Hp & Ha). unfold pump_entry, after_publish, pending, pump_ok. cbn [given_up].
  destruct (publish _ _ _) as [net' [[]|x]]; cbn [is_ok negb andb orb];
    [|destruct (ule RETRY_MAX_ATTEMPTS _)]; cbn [ps_net ps_outbox ps_events].
  - destruct (ack_spec (oh_topic h) _ Hok) as [Hok' ->]. split_and!; [done|done|by rewrite lookup_delete_eq| |].
    + intros t Ht. by rewrite lookup_delete_ne.
    + destruct (exhausted_tx p); by rewrite app_nil_r.
  - destruct (outbox_remove_spec (oh_topic h) _ Hok) as [Hok' ->]. split_and!; [done|done|by rewrite lookup_delete_eq| |].
    + intros t Ht. by rewrite lookup_delete_ne.
    + destruct (exhausted_tx p); [done|by rewrite app_nil_r].
  - destruct (record_failure_spec (oh_topic h)
      (uadd rd.2 (compute_backoff_ms (uadd (oh_attempts h) (umk 8 1)) rd.1)) _ Hok) as [Hok' ->].
    split_and!; [done|done| | |].
    + rewrite lookup_alter_eq. unfold pending in He. rewrite He. cbn. unfold failed_once.
      by rewrite Hp, Ha.
    + intros t Ht. by rewrite lookup_alter_ne.
    + destruct (exhausted_tx p); by rewrite app_nil_r.
Qed.

Lemma handles_step p rd h h' s :
  pump_ok s → handles h (pending s) → oh_topic h' ≠ oh_topic h → handles h' (pending s) →
  handles h' (pending (pump_entry p rd h s)).
Proof using.
  intros Hok Hh Hne (e & He & ?). pose proof (pump_entry_spec p rd h s Hok Hh) as Hst.
  destruct (publish _ _ _) as [net' r]. destruct Hst as (_ & _ & _ & Ho & _).
  exists e. by rewrite Ho.
Qed.

Lemma pump_entries_spec p rds due s :
  pump_ok s → NoDup (oh_topic <$> due) → (∀ h, h ∈ due → handles h (pending s)) →
  let (net', oks) := outcomes due (ps_net s) in
  let s' := pump_entries p rds due s in
  pump_ok s' ∧ ps_net s' = net' ∧ length oks = length due ∧
  (∀ i h ok, due !! i = Some h → oks !! i = Some ok →
     pending s' !! oh_topic h = after_publish (rds i) ok h) ∧
  (∀ t, t ∉ oh_topic <$> due → pending s' !! t = pending s !! t) ∧
  ps_events s' = ps_events s ++ (if exhausted_tx p then given_up due oks else []).
Proof using.
  revert rds s. induction due as [|h due IHl]; intros rds s Hok Hnd Hall.
  { cbn. split_and!; [done|done|done|done|done|]. destruct (exhausted_tx p); by rewrite app_nil_r. }
  rewrite fmap_cons in Hnd. apply NoDup_cons in Hnd as [Hnin Hnd].
  pose proof (Hall h (list_elem_of_here _ _)) as Hh.
  pose proof (pump_entry_spec p (rds 0) h s Hok Hh) as H. cbn [outcomes pump_entries].
  destruct (publish _ _ _) as [net1 r]. destruct H as (Hok1 & Hn & Hq & Ho & Hev).
  specialize (IHl (λ i, rds (S i)) (pump_entry p (rds 0) h s) Hok1 Hnd). rewrite Hn in IHl.
  destruct (outcomes due net1) as [net2 oks]. destruct IHl as (Hok2 & Hn2 & Hlen & Hq2 & Ho2 & Hev2).
  { intros h' Hin. apply handles_step; [done|done| |by apply Hall, list_elem_of_further].
    intros Heq. apply Hnin. rewrite <-Heq. apply list_elem_of_fmap. by exists h'. }
  split_and!; [done|done|cbn [length]; by f_equal| | |].
  - intros [|i] h' ok; cbn [lookup list_lookup].
    + intros [= <-] [= <-]. by rewrite Ho2, Hq.
    + apply Hq2.
  - intros t. rewrite fmap_cons, not_elem_of_cons. intros [Hne Ht]. by rewrite Ho2, Ho.
  - rewrite Hev2, Hev. destruct (exhausted_tx p); [|by rewrite !app_nil_r].
    rewrite <-(assoc_L (++)). f_equal. cbn [given_up]. by destruct (_ && _).
Qed.

(** The entries a pass publishes are those of the queue that are due. *)
Lemma due_handles s now h :
  pump_ok s → h ∈ due_entries (ps_outbox s) now → handles h (pending s).
Proof using. intros Hok (e & ? & _ & ? & ?)%due_spec; [|done]. by exists e. Qed.

Lemma pump_pass_run p now rds s :
  pump_ok s →
  let (net', oks) := outcomes (due_entries (ps_outbox s) now) (ps_net s) in
  let s' := pump_pass p now rds s in
  pump_ok s' ∧ ps_net s' = net' ∧ length oks = length (due_entries (ps_outbox s) now) ∧
  (∀ i h ok, due_entries (ps_outbox s) now !! i = Some h → oks !! i = Some ok →
     pending s' !! oh_topic h = after_publish (rds i) ok h) ∧
  (∀ t, t ∉ oh_topic <$> due_entries (ps_outbox s) now → pending s' !! t = pending s !! t) ∧
  ps_events s' = ps_events s ++
    (if exhausted_tx p then given_up (due_entries (ps_outbox s) now) oks else []).
Proof using.
  intros Hok. apply pump_entries_spec; [done|by apply due_nodup|intros h; by apply due_handles].
Qed.

(** ** The retry budget *)

Definition attempts_left (e : queued) : nat := Z.to_nat (5 - uval (q_attempts e)).
Definition budget (Q : gmap rstr queued) : nat :=
  sum_list_with (λ x, attempts_left x.2) (map_to_list Q).
Definition within_limit (Q : gmap rstr queued) : Prop :=
  map_Forall (λ _ e, (uval (q_attempts e) < 5)%Z) Q.

Lemma budget_insert Q t e :
  Q !! t = None → budget (<[t := e]> Q) = attempts_left e + budget Q.
Proof using. intros H. unfold budget. by rewrite map_to_list_insert. Qed.

Lemma budget_delete Q t e :
  Q !! t = Some e → budget Q = attempts_left e + budget (delete t Q).
Proof using.
  intros H. rewrite <-(insert_delete_id Q t e H) at 1. apply budget_insert, lookup_delete_eq.
Qed.

(** Replacing an entry of the queue by what [after_publish] leaves costs an attempt. *)
Lemma budget_step Q Q' t e o :
  Q !! t = Some e → (uval (q_attempts e) < 5)%Z → Q' !! t = o →
  (∀ t', t' ≠ t → Q' !! t' = Q !! t') →
  (∀ e', o = Some e' → uval (q_attempts e') = (uval (q_attempts e) + 1)%Z ∧
     (uval (q_attempts e') < 5)%Z) →
  within_limit Q → budget Q' + 1 ≤ budget Q ∧ within_limit Q'.
Proof using.
  intros He Hlt Hq Hother Ho Hw. pose proof (uint_range (q_attempts e)) as Hr.
  assert (delete t Q' = delete t Q) as Hd.
  { apply map_eq. intros t'. destruct (decide (t' = t)) as [->|Hne].
    - by rewrite !lookup_delete_eq.
    - rewrite !lookup_delete_ne by done. by apply Hother. }
  rewrite (budget_delete Q t e He), <-Hd. unfold attempts_left. split.
  - destruct o as [e'|].
    + destruct (Ho e' eq_refl) as [Hv Hlt']. rewrite (budget_delete Q' t e' Hq).
      unfold attempts_left. pose proof (uint_range (q_attempts e')). lia.
    + rewrite (delete_id Q') by done. lia.
  - intros t' e'' Hl. destruct (decide (t' = t)) as [->|Hne].
    + rewrite Hq in Hl. by apply Ho.
    + rewrite Hother in Hl by done. by eapply Hw.
Qed.

Lemma after_publish_attempts rd ok h e' :
  (uval (oh_attempts h) < 5)%Z → after_publish rd ok h = Some e' →
  uval (q_attempts e') = (uval (oh_attempts h) + 1)%Z ∧ (uval (q_attempts e') < 5)%Z.
Proof using.
  intros Hlt. unfold after_publish, ule. pose proof (uint_range (oh_attempts h)).
  assert (uval (uadd (oh_attempts h) (umk 8 1)) = uval (oh_attempts h) + 1)%Z as Hv.
  { unfold uadd. rewrite (uval_umk_small 8 1) by lia. by rewrite uval_umk_small by lia. }
  rewrite Hv. change (uval RETRY_MAX_ATTEMPTS) with 5%Z.
  destruct ok; [done|]. cbn [orb]. destruct (Z.leb_spec 5 (uval (oh_attempts h) + 1)); [done|].
  intros [= <-]. cbn [q_attempts]. rewrite Hv. lia.
Qed.

Lemma budget_entries p rds due s :
  pump_ok s → NoDup (oh_topic <$> due) → (∀ h, h ∈ due → handles h (pending s)) →
  within_limit (pending s) →
  budget (pending (pump_entries p rds due s)) + length due ≤ budget (pending s) ∧
  within_limit (pending (pump_entries p rds due s)).
Proof using.
  revert rds s. induction due as [|h due IHl]; intros rds s Hok Hnd Hall Hw.
  { cbn. split; [lia|done]. }
  rewrite fmap_cons in Hnd. apply NoDup_cons in Hnd as [Hnin Hnd].
  pose proof (Hall h (list_elem_of_here _ _)) as Hh.
  pose proof (pump_entry_spec p (rds 0) h s Hok Hh) as H. cbn [pump_entries length].
  destruct (publish _ _ _) as [net1 r]. destruct H as (Hok1 & _ & Hq & Ho & _).
  destruct Hh as (e & He & Hp & Ha).
  assert (uval (q_attempts e) < 5)%Z as Hlt by (by eapply Hw).
  destruct (budget_step _ _ _ e _ He Hlt Hq Ho) as [Hb Hw1]; [|done|].
  { intros e' He'. rewrite <-Ha in Hlt |- *. by eapply after_publish_attempts. }
  destruct (IHl (λ i, rds (S i)) (pump_entry p (rds 0) h s)) as [Hb2 Hw2]; [done|done| |done|].
  { intros h' Hin. apply handles_step; [done|by exists e| |by apply Hall, list_elem_of_further].
    intros Heq. apply Hnin. rewrite <-Heq. apply list_elem_of_fmap. by exists h'. }
  split; [lia|done].
Qed.

(** The number of publications the passes make. *)
Fixpoint publications (p : RetryPump) (passes : list (u64 * (nat → u64 * u64))) (s : pump_state)
    : nat :=
  match passes with
  | [] => 0
  | (now, rds) :: rest =>
      length (due_entries (ps_outbox s) now) + publications p rest (pump_pass p now rds s)
  end.

Lemma pump_loop_budget p passes s :
  pump_ok s → within_limit (pending s) →
  budget (pending (pump_loop p passes s)) + publications p passes s ≤ budget (pending s) ∧
  within_limit (pending (pump_loop p passes s)) ∧ pump_ok (pump_loop p passes s).
Proof using.
  unfold pump_loop. revert s.
  induction passes as [|[now rds] passes IHl]; intros s Hok Hw; cbn [foldl fst snd publications].
  { split_and!; [lia|done|done]. }
  destruct (budget_entries p rds (due_entries (ps_outbox s) now) s) as [Hb Hw1];
    [done|by apply due_nodup|intros h; by apply due_handles|done|].
  pose proof (pump_pass_run p now rds s Hok) as Hok1.
  destruct (outcomes _ _) as [net oks]. destruct Hok1 as [Hok1 _].
  destruct (IHl (pump_pass p now rds s) Hok1 Hw1) as (Hb2 & Hw2 & ?). unfold pump_pass in *.
  split_and!; [lia|done|done].
Qed.

Lemma budget_size Q : budget Q ≤ 5 * size Q.
Proof using.
  unfold budget. rewrite <-length_map_to_list. induction (map_to_list Q) as [|x l IHl]; cbn [sum_list_with length]; [lia|].
  pose proof (uint_range (q_attempts x.2)). unfold attempts_left at 1. lia.
Qed.
End pump_laws.

(** ** Properties *)

Section retry_props.
Context `{G : GridClient} `{OB : OutboxHandle} `{OBOk : !OutboxHandleOk}.

(** The delays of the attempts the pump reschedules. *)
Lemma backoff_rescheduled a ns :
  (1 <= uval a < 5)%Z → (250 <= uval (compute_backoff_ms a ns) < 4000)%Z.
Proof using.
  intros Ha. rewrite backoff_value. pose proof (nominal_delay_range a) as Hn.
  pose proof (Z.mul_div_le (nominal_delay a) 2 ltac:(lia)).
  assert (250 <= nominal_delay a / 2)%Z by (apply Z.div_le_lower_bound; lia).
  pose proof (Z.mod_pos_bound (uval ns) (nominal_delay a / 2) ltac:(lia)).
  split; [lia|]. apply Z.lt_le_trans with (nominal_delay a); [lia|].
  unfold nominal_delay. rewrite Z.max_l by lia.
  assert (2 ^ (uval a - 1) <= 2 ^ 3)%Z by (apply Z.pow_le_mono_r; lia). lia.
Qed.

(** C40: the delay after [attempts] failures is at least half of the nominal delay and below
    it, the nominal delay being 500 ms doubled per earlier failure up to 30 s; for the
    attempts the pump reschedules it stays below 4 s. *)
Theorem backoff_bounds a ns :
  let d := uval (compute_backoff_ms a ns) in
  (nominal_delay a / 2 <= d < nominal_delay a)%Z ∧
  (500 <= nominal_delay a <= 30000)%Z ∧
  ((1 <= uval a)%Z → nominal_delay a = Z.min (500 * 2 ^ (uval a - 1)) 30000) ∧
  ((1 <= uval a < 5)%Z → (250 <= d < 4000)%Z).
Proof using.
  cbv zeta. split_and!; [| | | | |apply backoff_rescheduled].
  1,2: rewrite backoff_value; pose proof (nominal_delay_range a) as Hn;
    pose proof (Z.mul_div_le (nominal_delay a) 2 ltac:(lia));
    assert (250 <= nominal_delay a / 2)%Z by (apply Z.div_le_lower_bound; lia);
    pose proof (Z.mod_pos_bound (uval ns) (nominal_delay a / 2) ltac:(lia)); lia.
  - apply nominal_delay_range.
  - apply nominal_delay_range.
  - intros Ha. unfold nominal_delay. by rewrite Z.max_l by lia.
Qed.

(** C23: a pass publishes each due entry once. A published entry leaves the queue; one that
    fails is rescheduled with one attempt more, after the backoff, or at its fifth failure
    removed with an event if a channel is attached; no other entry changes. *)
Theorem pump_pass_spec p now rds s :
  pump_ok s →
  let due := due_entries (ps_outbox s) now in
  let s' := pump_pass p now rds s in
  let (net', oks) := outcomes due (ps_net s) in
  ps_net s' = net' ∧
  (∀ t e, pending s !! t = Some e → ule (q_next e) now = true →
     ∃ i ok, let h := mkOutboxEntryHandle t (q_payload e) (q_attempts e) in
       due !! i = Some h ∧ oks !! i = Some ok ∧ pending s' !! t = after_publish (rds i) ok h) ∧
  (∀ t, (∀ e, pending s !! t = Some e → ule (q_next e) now = false) →
     pending s' !! t = pending s !! t) ∧
  ps_events s' = ps_events s ++ (if exhausted_tx p then given_up due oks else []).
Proof using.
  intros Hok. cbv zeta. pose proof (pump_pass_run p now rds s Hok) as Hspec.
  destruct (outcomes _ _) as [net' oks]. destruct Hspec as (_ & Hn & Hlen & Hq & Ho & Hev).
  split_and!; [done| | |done].
  - intros t e He Hdue. set (h := mkOutboxEntryHandle t (q_payload e) (q_attempts e)).
    assert (h ∈ due_entries (ps_outbox s) now) as (i & Hi)%list_elem_of_lookup.
    { apply due_spec; [done|]. by exists e. }
    destruct (lookup_lt_is_Some_2 oks i) as [ok Hoks].
    { rewrite Hlen. by eapply lookup_lt_Some. }
    exists i, ok. split_and!; [done|done|]. by apply (Hq i h ok).
  - intros t Ht. apply Ho. intros (h & -> & Hin)%list_elem_of_fmap.
    apply due_spec in Hin as (e & He & Hle & _); [|done]. specialize (Ht e He). congruence.
Qed.

Lemma given_up_five due oks :
  Forall (λ h, (uval (oh_attempts h) < 5)%Z) due →
  Forall (λ ev, rx_attempts ev = RETRY_MAX_ATTEMPTS) (given_up due oks).
Proof using.
  intros Hd. revert oks. induction Hd as [|h due Hlt Hd IHl]; intros [|ok oks]; cbn [given_up];
    try constructor.
  destruct (ule RETRY_MAX_ATTEMPTS _) eqn:Hle; [|by rewrite andb_false_r].
  destruct ok; cbn [negb andb]; [done|]. constructor; [|done]. cbn [rx_attempts].
  apply (inj uval). revert Hle. unfold ule. pose proof (uint_range (oh_attempts h)).
  assert (uval (uadd (oh_attempts h) (umk 8 1)) = uval (oh_attempts h) + 1)%Z as ->.
  { unfold uadd. rewrite (uval_umk_small 8 1) by lia. by rewrite uval_umk_small by lia. }
  change (uval RETRY_MAX_ATTEMPTS) with 5%Z. lia.
Qed.

(** C22: whatever the network does, passes over a queue publish no more than its remaining
    attempts allow, at most five per entry, and every entry given up was tried five times. *)
Theorem retry_budget p passes s :
  pump_ok s → within_limit (pending s) →
  let s' := pump_loop p passes s in
  publications p passes s + budget (pending s') ≤ budget (pending s) ∧
  budget (pending s) ≤ 5 * size (pending s) ∧ within_limit (pending s') ∧
  ∃ evs, ps_events s' = ps_events s ++ evs ∧
    Forall (λ ev, rx_attempts ev = RETRY_MAX_ATTEMPTS) evs.
Proof using.
  intros Hok Hw. cbv zeta. destruct (pump_loop_budget p passes s Hok Hw) as (Hb & Hw' & _).
  split_and!; [lia|apply budget_size|done|]. clear Hb Hw'. revert s Hok Hw. unfold pump_loop.
  induction passes as [|[now rds] passes IHl]; intros s Hok Hw; cbn [foldl fst snd].
  { exists []. by rewrite app_nil_r. }
  destruct (pump_loop_budget p [(now, rds)] s Hok Hw) as (_ & Hw1 & Hok1).
  unfold pump_loop in Hw1, Hok1. cbn [foldl fst snd] in Hw1, Hok1. destruct (IHl _ Hok1 Hw1) as (evs & -> & Hevs).
  pose proof (pump_pass_run p now rds s Hok) as Hspec.
  destruct (outcomes _ _) as [net' oks]. destruct Hspec as (_ & _ & _ & _ & _ & Hev).
  rewrite Hev, <-(assoc_L (++)). eexists. split; [done|].
  apply Forall_app. split; [|done]. destruct (exhausted_tx p); [|constructor].
  apply given_up_five, Forall_forall. intros h Hin.
  destruct (due_handles s now h Hok Hin) as (e & He & _ & ->). by eapply Hw.
Qed.
End retry_props.

(** ** Witness *)

Lemma backoff_bounds_witness :
  (1 <= uval (umk 8 4) < 5)%Z ∧ (250 <= uval (compute_backoff_ms (umk 8 4) (umk 64 99)) < 4000)%Z.
Proof.
  assert (1 <= uval (umk 8 4) < 5)%Z as H by (vm_compute; split; [discriminate|reflexivity]).
  split; [exact H|].
  exact (proj2 (proj2 (proj2 (backoff_bounds (umk 8 4) (umk 64 99)))) H).
Defined.
