(* ===== verification/PumpOutbox.v ===== *)
(** * The in-memory outbox handle and the draining of the queue ([zero-network/src/retry.rs])

    [InMemoryOutboxHandle], the implementation of [OutboxHandle] that [retry.rs] carries, with
    the two clients next to it; it keeps the contract the pump of [Retry] relies on. Then the
    liveness of the pump: passes at regular times empty the queue, whatever the network does.
    The order in which a [HashMap] yields its values is an interface. *)

From Stdlib Require Import ZArith Lia.
From stdpp Require Import base tactics gmap strings sorting numbers countable list.
From S2P Require Import Prelude Bytes Net Retry.
#[local] Open Scope nat_scope.

(** ** [InMemoryOutboxHandle] *)

(** [HashMap::iter]: some order of the entries. *)
Class HashOrder : Type := hash_iter : ∀ V : Type, gmap rstr V → list (rstr * V).
Class HashOrderOk `{H : HashOrder} : Prop :=
  hash_iter_perm (V : Type) (m : gmap rstr V) : hash_iter V m ≡ₚ map_to_list m.

(** The entry type [OutboxEntry] of the module. *)
Record HandleEntry : Type := mkHandleEntry {
  he_topic : rstr;
  he_payload : SectorBytes;
  he_attempts : u8;
  he_next_attempt_ms : u64;
}.

Abbreviation OutboxState := (gmap rstr HandleEntry).
Definition InMemoryOutboxHandle_new : OutboxState := ∅.

Definition handle_enqueue (topic : rstr) (payload : SectorBytes) (state : OutboxState)
    : OutboxState :=
  <[topic := mkHandleEntry topic payload (umk 8 0) (umk 64 0)]> state.
Definition handle_contains (topic : rstr) (state : OutboxState) : bool :=
  bool_decide (is_Some (state !! topic)).
Definition handle_len (state : OutboxState) : nat := size state.

Definition handle_of (e : HandleEntry) : OutboxEntryHandle :=
  mkOutboxEntryHandle (he_topic e) (he_payload e) (he_attempts e).
Definition handle_due `{H : HashOrder} (state : OutboxState) (now_ms : u64)
    : list OutboxEntryHandle :=
  handle_of <$> filter (λ e, ule (he_next_attempt_ms e) now_ms = true)
    ((hash_iter HandleEntry state).*2).
Definition handle_record_failure (topic : rstr) (next_attempt_ms : u64) (state : OutboxState)
    : OutboxState :=
  match state !! topic with
  | Some e => <[topic := mkHandleEntry (he_topic e) (he_payload e)
      (uadd (he_attempts e) (umk 8 1)) next_attempt_ms]> state
  | None => state
  end.

Definition InMemoryOutboxHandle `{H : HashOrder} : OutboxHandle :=
  {| outbox_state := OutboxState;
     due_entries := handle_due;
     ack topic state := delete topic state;
     record_failure := handle_record_failure;
     outbox_remove topic state := delete topic state |}.

(** [AlwaysOkClient] and [AlwaysFailClient]; neither has a stream. *)
Definition AlwaysOkClient : GridClient :=
  {| grid_state := (); grid_stream := Empty_set;
     publish _ _ net := (net, Ok ());
     subscribe _ net := (net, Err (NetOther "not implemented"));
     unsubscribe _ net := (net, Ok ()) |}.
Definition AlwaysFailClient : GridClient :=
  {| grid_state := (); grid_stream := Empty_set;
     publish _ _ net := (net, Err (NetOther "simulated failure"));
     subscribe _ net := (net, Err (NetOther "not implemented"));
     unsubscribe _ net := (net, Ok ()) |}.

(** ** It keeps the contract *)

Section handle_laws.
Context `{HOk : HashOrderOk}.
Implicit Types (st : OutboxState).

Definition queued_of (e : HandleEntry) : queued :=
  mkQueued (he_payload e) (he_attempts e) (he_next_attempt_ms e).

(** Every entry is filed under its own topic. *)
Definition filed st : Prop := map_Forall (λ t e, he_topic e = t) st.

Lemma hash_values_topics st : filed st → (he_topic <$> (hash_iter HandleEntry st).*2) = (hash_iter HandleEntry st).*1.
Proof using HOk.
  intros Hf. rewrite <-list_fmap_compose. apply list_fmap_ext. intros i [t e] Hi. cbn.
  apply Hf, elem_of_map_to_list. rewrite <-hash_iter_perm. by eapply list_elem_of_lookup_2.
Qed.

Lemma elem_of_hash_values st e :
  e ∈ (hash_iter HandleEntry st).*2 ↔ ∃ t, st !! t = Some e.
Proof using HOk.
  rewrite list_elem_of_fmap. split.
  - intros ([t e'] & -> & Hin). exists t. apply elem_of_map_to_list. by rewrite <-hash_iter_perm.
  - intros [t He]. exists (t, e). split; [done|]. rewrite hash_iter_perm. by apply elem_of_map_to_list.
Qed.

Lemma handle_due_nodup st now : filed st → NoDup (oh_topic <$> handle_due st now).
Proof using HOk.
  intros Hf. unfold handle_due. rewrite <-list_fmap_compose.
  apply (sublist_NoDup _ (he_topic <$> (hash_iter HandleEntry st).*2)).
  2: apply (fmap_sublist he_topic), sublist_filter.
  - rewrite hash_values_topics by done. rewrite hash_iter_perm. apply NoDup_fst_map_to_list.
Qed.

Lemma handle_due_spec st now h :
  filed st →
  h ∈ handle_due st now ↔ ∃ e, (queued_of <$> st) !! oh_topic h = Some e ∧
    ule (q_next e) now = true ∧ oh_payload h = q_payload e ∧ oh_attempts h = q_attempts e.
Proof using HOk.
  intros Hf. unfold handle_due. rewrite list_elem_of_fmap. split.
  - intros (e & -> & [Hd [t He]%elem_of_hash_values]%list_elem_of_filter).
    exists (queued_of e). split_and!; [|done|done|done]. cbn [handle_of oh_topic].
    rewrite lookup_fmap, (Hf t e He).
    by rewrite He.
  - intros (q & Hq & Hd & Hp & Ha). rewrite lookup_fmap in Hq.
    destruct (st !! oh_topic h) as [e|] eqn:He; [|done]. injection Hq as <-.
    exists e. split.
    + unfold handle_of. rewrite (Hf _ _ He). destruct h. cbn in *. by subst.
    + apply list_elem_of_filter. split; [done|]. apply elem_of_hash_values. by eexists.
Qed.

Lemma filed_delete t st : filed st → filed (delete t st).
Proof using. intros Hf t' e [_ He]%lookup_delete_Some. by apply Hf. Qed.

Lemma filed_enqueue t b st : filed st → filed (handle_enqueue t b st).
Proof using.
  unfold handle_enqueue. intros Hf t' e [[<- <-]|[_ He]]%lookup_insert_Some; [done|by apply Hf].
Qed.

Lemma handle_record_failure_spec t next st :
  filed st → filed (handle_record_failure t next st) ∧
  queued_of <$> handle_record_failure t next st = alter (failed_once next) t (queued_of <$> st).
Proof using.
  intros Hf. unfold handle_record_failure. destruct (st !! t) as [e|] eqn:He.
  - split.
    + intros t' e' [[<- <-]|[_ He']]%lookup_insert_Some; [exact (Hf t e He)|by apply Hf].
    + rewrite fmap_insert. apply map_eq. intros t'. destruct (decide (t = t')) as [<-|Hne].
      * rewrite lookup_insert_eq, lookup_alter_eq, lookup_fmap, He.
        done.
      * by rewrite lookup_insert_ne, lookup_alter_ne.
  - split; [done|]. apply map_eq. intros t'. destruct (decide (t = t')) as [<-|Hne].
    + by rewrite lookup_alter_eq, lookup_fmap, He.
    + by rewrite lookup_alter_ne.
Qed.

#[export] Instance InMemoryOutboxHandle_ok : @OutboxHandleOk InMemoryOutboxHandle.
Proof using HOk.
  refine (@Build_OutboxHandleOk InMemoryOutboxHandle (λ st : OutboxState, queued_of <$> st) filed
    handle_due_nodup handle_due_spec _ handle_record_failure_spec _);
    intros t st Hf; (split; [by apply filed_delete|exact (fmap_delete queued_of st t)]).
Defined.
End handle_laws.

(** ** Regular passes empty the queue *)

Section drain.
Context `{G : GridClient} `{OB : OutboxHandle} `{OBOk : !OutboxHandleOk}.

Abbreviation pass := (u64 * (nat → u64 * u64))%type.

(** Passes at most [gap] milliseconds apart, whose clock readings are taken within [gap] of
    their start, on a clock that is not about to overflow. *)
Fixpoint regular (gap : Z) (passes : list pass) : Prop :=
  match passes with
  | [] => True
  | (now, rds) :: rest =>
      (∀ i, uval now <= uval (rds i).2 <= uval now + gap)%Z ∧
      (uval now + gap + 4000 < 2 ^ 64)%Z ∧
      match rest with
      | [] => True
      | (now', _) :: _ => (uval now <= uval now' <= uval now + gap)%Z
      end ∧ regular gap rest
  end.

(** The topics whose sector was accepted by the network, pass by pass. *)
Fixpoint accepted (p : RetryPump) (passes : list pass) (s : pump_state) : list rstr :=
  match passes with
  | [] => []
  | (now, rds) :: rest =>
      let due := due_entries (ps_outbox s) now in
      (oh_topic ∘ fst <$> filter (λ x, x.2 = true) (zip due (outcomes due (ps_net s)).2)) ++
      accepted p rest (pump_pass p now rds s)
  end.

(** One retry costs at most this long. *)
Definition retry_span (gap : Z) : Z := 2 * gap + 4000.

(** The latest time [e] is scheduled at when its queue is to be empty at [D]. *)
Definition latest (gap D : Z) (e : queued) : Z := D - (4 - uval (q_attempts e)) * retry_span gap.

Definition on_time (gap D t : Z) (Q : gmap rstr queued) : Prop :=
  map_Forall (λ _ e, (uval (q_next e) <= latest gap D e)%Z ∧ (t <= latest gap D e + gap)%Z ∧
    (uval (q_attempts e) < 5)%Z) Q.
Definition waiting_after (gap D t : Z) (Q : gmap rstr queued) : Prop :=
  map_Forall (λ _ e, (t < uval (q_next e) <= latest gap D e)%Z ∧ (uval (q_attempts e) < 5)%Z) Q.

(** What becomes of a due entry. *)
Lemma pass_entry p now rds s t e :
  pump_ok s → pending s !! t = Some e → ule (q_next e) now = true →
  ∃ i ok, let h := mkOutboxEntryHandle t (q_payload e) (q_attempts e) in
    due_entries (ps_outbox s) now !! i = Some h ∧
    (outcomes (due_entries (ps_outbox s) now) (ps_net s)).2 !! i = Some ok ∧
    pending (pump_pass p now rds s) !! t = after_publish (rds i) ok h.
Proof using.
  intros Hok He Hd. pose proof (pump_pass_run p now rds s Hok) as Hrun.
  destruct (outcomes _ _) as [net oks]. destruct Hrun as (_ & _ & Hlen & Hq & _). cbv zeta.
  assert (mkOutboxEntryHandle t (q_payload e) (q_attempts e) ∈ due_entries (ps_outbox s) now)
    as (i & Hi)%list_elem_of_lookup by (apply due_spec; [done|by exists e]).
  destruct (lookup_lt_is_Some_2 oks i) as [ok Hoks]; [rewrite Hlen; by eapply lookup_lt_Some|].
  exists i, ok. split_and!; [done|done|]. exact (Hq i _ ok Hi Hoks).
Qed.

Lemma pass_other p now rds s t :
  pump_ok s → (∀ e, pending s !! t = Some e → ule (q_next e) now = false) →
  pending (pump_pass p now rds s) !! t = pending s !! t.
Proof using.
  intros Hok Ht. pose proof (pump_pass_run p now rds s Hok) as Hrun.
  destruct (outcomes _ _) as [net oks]. destruct Hrun as (_ & _ & _ & _ & Ho & _). apply Ho.
  intros (h & -> & Hin)%list_elem_of_fmap. apply due_spec in Hin as (e & He & Hle & _); [|done].
  specialize (Ht e He). congruence.
Qed.

Lemma pass_ok p now rds s : pump_ok s → pump_ok (pump_pass p now rds s).
Proof using.
  intros Hok. pose proof (pump_pass_run p now rds s Hok) as Hrun. by destruct (outcomes _ _), Hrun.
Qed.

(** A rescheduled entry. *)
Lemma rescheduled rd ok h e' t gap :
  (uval (oh_attempts h) < 5)%Z → (t <= uval rd.2 <= t + gap)%Z → (t + gap + 4000 < 2 ^ 64)%Z →
  after_publish rd ok h = Some e' →
  uval (q_attempts e') = (uval (oh_attempts h) + 1)%Z ∧ (uval (q_attempts e') < 5)%Z ∧
  (t < uval (q_next e') <= t + gap + 4000)%Z.
Proof using.
  intros Hlt Hrd Hmax Ha. destruct (after_publish_attempts rd ok h e' Hlt Ha) as [Hn Hn5].
  assert (t < uval (q_next e') <= t + gap + 4000)%Z; [|done].
  revert Ha Hn Hn5. unfold after_publish. destruct (ok || _); [done|]. intros [= <-].
  cbn [q_next q_attempts]. set (n := uadd (oh_attempts h) (umk 8 1)). intros Hn Hn5.
  pose proof (uint_range (oh_attempts h)). pose proof (uint_range rd.2).
  pose proof (backoff_rescheduled n rd.1 ltac:(lia)).
  unfold uadd. rewrite uval_umk_small by lia. lia.
Qed.

Lemma pass_waiting p now rds s gap D :
  pump_ok s → (0 <= gap)%Z → regular gap [(now, rds)] → on_time gap D (uval now) (pending s) →
  waiting_after gap D (uval now) (pending (pump_pass p now rds s)).
Proof using.
  intros Hok Hgap (Hrd & Hmax & _) Hot t e' He'. destruct (pending s !! t) as [e|] eqn:He.
  2:{ rewrite pass_other in He' by (congruence || (intros e; by rewrite He)). congruence. }
  destruct (Hot t e He) as (Hn & Ht & Ha). destruct (ule (q_next e) now) eqn:Hd.
  - destruct (pass_entry p now rds s t e Hok He Hd) as (i & ok & _ & _ & Hp). rewrite Hp in He'.
    destruct (rescheduled (rds i) ok (mkOutboxEntryHandle t (q_payload e) (q_attempts e)) e'
      (uval now) gap Ha (Hrd i) Hmax He') as (Ha' & ? & ?).
    cbn [oh_attempts] in Ha'. unfold latest, retry_span in *. rewrite Ha'. lia.
  - rewrite pass_other, He in He' by (congruence || (intros e0; rewrite He; congruence)).
    injection He' as <-. unfold ule in Hd. unfold latest in *. lia.
Qed.

Lemma waiting_on_time gap D t t' Q :
  (0 <= gap)%Z → (t' <= t + gap)%Z → waiting_after gap D t Q → on_time gap D t' Q.
Proof using. intros Hgap Ht HQ tp e He. destruct (HQ tp e He). lia. Qed.

Definition end_time (passes : list pass) : Z :=
  match last passes with Some (now, _) => uval now | None => 0 end.

Lemma drain_loop p passes s gap D :
  pump_ok s → (0 <= gap)%Z → regular gap passes → (D <= end_time passes)%Z → passes ≠ [] →
  on_time gap D (match passes with (now, _) :: _ => uval now | [] => 0%Z end) (pending s) →
  pending (pump_loop p passes s) = ∅.
Proof using.
  intros Hok Hgap. revert s Hok. unfold pump_loop, end_time.
  induction passes as [|[now rds] rest IHl]; intros s Hok Hreg HD Hne Hot; [done|].
  cbn [foldl fst snd]. pose proof Hreg as (Hrd & Hmax & Hgap' & Hrest).
  pose proof (pass_waiting p now rds s gap D Hok Hgap (conj Hrd (conj Hmax (conj I I))) Hot) as Hw.
  pose proof (pass_ok p now rds s Hok) as Hok1. destruct rest as [|[now' rds'] rest].
  - cbn in HD |- *. apply map_empty. intros t.
    destruct (pending _ !! t) as [e|] eqn:He; [|done].
    destruct (Hw t e He). unfold latest, retry_span in *.
    assert (0 <= (4 - uval (q_attempts e)) * (2 * gap + 4000))%Z
      by (apply Z.mul_nonneg_nonneg; lia). lia.
  - apply IHl; [done|done|exact HD|done|]. by apply (waiting_on_time gap D (uval now)); [|lia|].
Qed.

(** A due entry is accepted, given up, or still queued. *)
Lemma given_up_in due oks i h :
  due !! i = Some h → oks !! i = Some false →
  ule RETRY_MAX_ATTEMPTS (uadd (oh_attempts h) (umk 8 1)) = true →
  oh_topic h ∈ rx_topic <$> given_up due oks.
Proof using.
  revert oks i. induction due as [|h0 due IHl]; intros [|ok oks] [|i]; cbn [lookup list_lookup given_up];
    try done.
  - intros [= ->] [= ->] ->. cbn [negb andb]. rewrite fmap_cons. apply list_elem_of_here.
  - intros Hi Ho Hle. pose proof (IHl oks i Hi Ho Hle).
    destruct (_ && _); [rewrite fmap_cons; by apply list_elem_of_further|done].
Qed.

Lemma events_grow p passes s : pump_ok s → ps_events s `prefix_of` ps_events (pump_loop p passes s).
Proof using.
  unfold pump_loop. revert s. induction passes as [|[now rds] rest IHl]; intros s Hok; [done|].
  cbn [foldl fst snd]. etrans; [|apply IHl, pass_ok, Hok].
  pose proof (pump_pass_run p now rds s Hok) as Hrun. destruct (outcomes _ _) as [net oks].
  destruct Hrun as (_ & _ & _ & _ & _ & ->). by apply prefix_app_r.
Qed.

Lemma accounted p passes s t :
  pump_ok s → is_Some (pending s !! t) → exhausted_tx p = true →
  t ∈ accepted p passes s ∨ t ∈ rx_topic <$> ps_events (pump_loop p passes s) ∨
  is_Some (pending (pump_loop p passes s) !! t).
Proof using.
  intros Hok Ht Hx. revert s Hok Ht. induction passes as [|[now rds] rest IHl]; intros s Hok Ht; [by auto|].
  change (pump_loop p ((now, rds) :: rest) s) with (pump_loop p rest (pump_pass p now rds s)).
  cbn [accepted]. rewrite elem_of_app. pose proof (pass_ok p now rds s Hok) as Hok1.
  destruct (pending (pump_pass p now rds s) !! t) as [e'|] eqn:He'.
  { destruct (IHl _ Hok1 ltac:(by eexists)) as [?|[?|?]]; auto. }
  destruct Ht as [e He]. destruct (ule (q_next e) now) eqn:Hd.
  2:{ rewrite pass_other, He in He' by (done || (intros e0; rewrite He; congruence)). done. }
  destruct (pass_entry p now rds s t e Hok He Hd) as (i & ok & Hi & Ho & Hp).
  rewrite Hp in He'. revert He'. unfold after_publish. cbn [oh_attempts]. destruct ok; cbn [orb].
  - intros _. left. left. apply list_elem_of_fmap. eexists (_, true). split; [|
      apply list_elem_of_filter; split; [done|]; apply list_elem_of_lookup; exists i;
      apply lookup_zip_with_Some; eauto 6]. done.
  - destruct (ule RETRY_MAX_ATTEMPTS _) eqn:Hle; [|done]. intros _. right. left.
    destruct (events_grow p rest _ Hok1) as [evs ->].
    pose proof (pump_pass_run p now rds s Hok) as Hrun. destruct (outcomes _ _) as [net oks].
    destruct Hrun as (_ & _ & _ & _ & _ & ->). rewrite Hx, !fmap_app, !elem_of_app.
    left. right. exact (given_up_in _ _ i _ Hi Ho Hle).
Qed.

(** C15: passes at regular times empty the queue, whatever the network does: by the time the
    latest schedule plus four retries of [2 * gap + 4000] milliseconds has passed nothing is
    left, and with an exhaustion channel attached every entry was either accepted by the
    network or reported on the channel. *)
Theorem pump_drains p passes s gap D :
  pump_ok s → within_limit (pending s) → (0 <= gap)%Z → regular gap passes → passes ≠ [] →
  map_Forall (λ _ e, Z.max (uval (q_next e))
      (match passes with (now, _) :: _ => uval now | [] => 0 end) +
    (4 - uval (q_attempts e)) * (2 * gap + 4000) <= D)%Z (pending s) →
  (D <= end_time passes)%Z →
  pending (pump_loop p passes s) = ∅ ∧
  (exhausted_tx p = true → ∀ t, is_Some (pending s !! t) →
     t ∈ accepted p passes s ∨ t ∈ rx_topic <$> ps_events (pump_loop p passes s)).
Proof using.
  intros Hok Hw Hgap Hreg Hne HD Hend.
  assert (pending (pump_loop p passes s) = ∅) as Hempty.
  { apply (drain_loop p passes s gap D); try done. intros t e He.
    specialize (HD t e He). specialize (Hw t e He). cbv beta in *.
    unfold latest, retry_span. lia. }
  split; [done|]. intros Hx t Ht. destruct (accounted p passes s t Hok Ht Hx) as [?|[?|Hs]]; auto.
  rewrite Hempty, lookup_empty in Hs. by destruct Hs.
Qed.
End drain.

(** ** Witnesses *)

#[local] Instance listed_order : HashOrder := λ V m, map_to_list m.
#[local] Instance listed_order_ok : HashOrderOk.
Proof. by intros V m. Qed.
#[local] Existing Instance InMemoryOutboxHandle.

(** A network on which the topics in its state fail. *)
Definition lossy_net : GridClient :=
  {| grid_state := list rstr; grid_stream := Empty_set;
     publish t _ down := (down, if bool_decide (t ∈ down) then Err Timeout else Ok ());
     subscribe _ down := (down, Err (NetOther "not implemented"));
     unsubscribe _ down := (down, Ok ()) |}.
#[local] Existing Instance lossy_net.

Definition down_topic : rstr := rstr_of "dm/down".
Definition up_topic : rstr := rstr_of "dm/up".
Definition sample_queue : OutboxState :=
  handle_enqueue down_topic [] (handle_enqueue up_topic [] InMemoryOutboxHandle_new).
Definition sample_pump : @pump_state lossy_net InMemoryOutboxHandle :=
  @mkPump lossy_net InMemoryOutboxHandle [down_topic] sample_queue [].
Definition tick (n : Z) : u64 * (nat → u64 * u64) := (umk 64 n, λ _, (umk 64 7, umk 64 n)).

Lemma sample_pump_ok : pump_ok sample_pump.
Proof. apply filed_enqueue, filed_enqueue, map_Forall_empty. Qed.

Lemma sample_entries (P : rstr → queued → Prop) :
  P down_topic (mkQueued [] (umk 8 0) (umk 64 0)) → P up_topic (mkQueued [] (umk 8 0) (umk 64 0)) →
  map_Forall P (pending sample_pump).
Proof.
  intros Hd Hu t e. change (pending sample_pump) with (queued_of <$> sample_queue). rewrite lookup_fmap.
  destruct (sample_queue !! t) as [x|] eqn:Hx; [|done]. intros [= <-]. unfold sample_queue, handle_enqueue in Hx.
  apply lookup_insert_Some in Hx as [[<- <-]|[_ [[<- <-]|[_ Hx]]%lookup_insert_Some]];
    [exact Hd|exact Hu|].
  unfold InMemoryOutboxHandle_new in Hx. by rewrite lookup_empty in Hx.
Qed.

Lemma pump_pass_spec_witness :
  ∃ i ok, let h := mkOutboxEntryHandle down_topic [] (umk 8 0) in
    due_entries (ps_outbox sample_pump) (umk 64 1) !! i = Some h ∧
    (outcomes (due_entries (ps_outbox sample_pump) (umk 64 1)) (ps_net sample_pump)).2 !! i = Some ok ∧
    pending (pump_pass (mkRetryPump true) (umk 64 1) (tick 1).2 sample_pump) !! down_topic =
      after_publish ((tick 1).2 i) ok h.
Proof.
  pose proof (pump_pass_spec (mkRetryPump true) (umk 64 1) (tick 1).2 sample_pump sample_pump_ok) as H.
  cbv zeta in H. destruct (outcomes _ _) as [net oks]. destruct H as (_ & H & _).
  exact (H down_topic (mkQueued [] (umk 8 0) (umk 64 0)) eq_refl eq_refl).
Defined.

(** Six passes: the entry of the reachable topic is published at once, the other five times. *)
Lemma retry_budget_witness :
  let passes := tick <$> [1; 10000; 20000; 30000; 40000; 50000]%Z in
  let s' := pump_loop (mkRetryPump true) passes sample_pump in
  publications (mkRetryPump true) passes sample_pump = 6 ∧
  (λ ev, (as_bytes (rx_topic ev), uval (rx_attempts ev))) <$> ps_events s' = [(blit "dm/down", 5%Z)] ∧
  publications (mkRetryPump true) passes sample_pump + budget (pending s') ≤
    budget (pending sample_pump).
Proof.
  assert (within_limit (pending sample_pump)) as Hw by (apply sample_entries; reflexivity).
  cbv zeta. split; [vm_compute; reflexivity|]. split; [vm_compute; reflexivity|].
  exact (proj1 (retry_budget (mkRetryPump true) _ sample_pump sample_pump_ok Hw)).
Defined.

(** Passes every four seconds for fifty seconds. *)
Lemma pump_drains_witness :
  let passes := tick <$> [0; 4000; 8000; 12000; 16000; 20000; 24000; 28000; 32000; 36000; 40000;
                          44000; 48000]%Z in
  let s' := pump_loop (mkRetryPump true) passes sample_pump in
  pending s' = ∅ ∧
  (down_topic ∈ accepted (mkRetryPump true) passes sample_pump ∨
   down_topic ∈ rx_topic <$> ps_events s').
Proof.
  cbv zeta. set (passes := _ <$> _).
  destruct (pump_drains (mkRetryPump true) passes sample_pump 4000 48000) as [H1 H2].
  - apply sample_pump_ok.
  - apply sample_entries; reflexivity.
  - done.
  - repeat split; vm_compute; discriminate || reflexivity.
  - done.
  - apply sample_entries; vm_compute; discriminate.
  - vm_compute. discriminate.
  - split; [exact H1|]. exact (H2 eq_refl down_topic (ex_intro _ _ eq_refl)).
Defined.
