(* ===== verification/Broadcast.v ===== *)
(** * Broadcast channels and the topic table

    [tokio::sync::broadcast] as an interface with the delivery its documentation states, and
    what both network clients do with it: a table from topics to senders, an entry created on
    first use, a message sent to the topic's channel, and the entry removed. *)

From Stdlib Require Import ZArith Lia.
From stdpp Require Import base tactics gmap strings sorting numbers countable list.
From S2P Require Import Prelude Bytes Net.
#[local] Open Scope nat_scope.

(** ** [tokio::sync::broadcast] *)

Inductive recv_outcome : Type := Received (b : bytes) | Empty | Lagged (n : u64) | Closed.

Class Broadcast : Type := {
  bc_heap : Type;
  Sender : Type;
  Receiver : Type;
  (* [broadcast::channel(capacity).0] *)
  bc_channel : nat → bc_heap → bc_heap * Sender;
  bc_subscribe : Sender → bc_heap → bc_heap * Receiver;
  bc_send : Sender → bytes → bc_heap → bc_heap * bool;
  bc_try_recv : Receiver → bc_heap → bc_heap * recv_outcome;
  (* a sender of the channel goes out of scope *)
  bc_drop : Sender → bc_heap → bc_heap;
}.

(** The last [n] elements. *)
Definition lastn {A} (n : nat) (l : list A) : list A := drop (length l - n) l.

(** [waiting h r]: the messages retained for [r], oldest first, and [missed h r] the number
    that fell out since its last report. A new receiver has none; a message is retained for
    the receivers of its channel, the newest up to the channel's capacity, which is the one
    asked for when that is a power of two. A receiver that has missed some is told so once;
    otherwise it gets what waits, oldest first, and nothing when nothing waits. *)
Class BroadcastOk `{BC : Broadcast} : Type := {
  made : bc_heap → Sender → Prop;
  live : bc_heap → Receiver → Prop;
  source : Receiver → Sender;
  chan_cap : Sender → nat;
  waiting : bc_heap → Receiver → list bytes;
  missed : bc_heap → Receiver → nat;
  bc_channel_spec cap h : let (h', s) := bc_channel cap h in
    ¬ made h s ∧ made h' s ∧ (∀ k, cap = 2 ^ k → chan_cap s = cap) ∧ (∀ s', made h s' → made h' s') ∧
    ∀ r, live h r → live h' r ∧ waiting h' r = waiting h r ∧ missed h' r = missed h r;
  bc_subscribe_spec s h : let (h', r) := bc_subscribe s h in
    live h' r ∧ source r = s ∧ waiting h' r = [] ∧ missed h' r = 0 ∧
    (∀ s', made h s' → made h' s') ∧
    ∀ r', live h r' → live h' r' ∧ waiting h' r' = waiting h r' ∧ missed h' r' = missed h r';
  bc_send_spec s b h : let h' := (bc_send s b h).1 in
    (∀ s', made h s' → made h' s') ∧
    ∀ r, live h r → live h' r ∧
      (source r = s → waiting h' r = lastn (chan_cap s) (waiting h r ++ [b]) ∧
         missed h' r = missed h r + (S (length (waiting h r)) - chan_cap s)) ∧
      (source r ≠ s → waiting h' r = waiting h r ∧ missed h' r = missed h r);
  bc_drop_spec s h : let h' := bc_drop s h in
    (∀ s', made h s' → made h' s') ∧
    ∀ r, live h r → live h' r ∧ waiting h' r = waiting h r ∧ missed h' r = missed h r;
  bc_recv_spec r h b rest : live h r → missed h r = 0 → waiting h r = b :: rest →
    ∃ h', bc_try_recv r h = (h', Received b) ∧ live h' r ∧ missed h' r = 0 ∧
      waiting h' r = rest;
  bc_recv_lagged r h n : live h r → missed h r = S n →
    ∃ h', bc_try_recv r h = (h', Lagged (umk 64 (Z.of_nat (S n)))) ∧ live h' r ∧
      missed h' r = 0 ∧ waiting h' r = waiting h r;
  bc_recv_idle r h : live h r → missed h r = 0 → waiting h r = [] →
    ∃ h' o, bc_try_recv r h = (h', o) ∧ (o = Empty ∨ o = Closed) ∧ live h' r ∧
      missed h' r = 0 ∧ waiting h' r = [];
  bc_recv_frame r h : let h' := (bc_try_recv r h).1 in
    (∀ s', made h s' → made h' s') ∧
    ∀ r', r' ≠ r → live h r' → live h' r' ∧ waiting h' r' = waiting h r' ∧ missed h' r' = missed h r';
}.

(** ** The topic table *)

Section hub.
Context `{BC : Broadcast}.

Record hub : Type := mkHub { hub_topics : gmap rstr Sender; hub_heap : bc_heap }.

(** [topics.entry(topic).or_insert_with(|| broadcast::channel(capacity).0).clone()] *)
Definition get_or_create_sender (cap : nat) (topic : rstr) (h : hub) : hub * Sender :=
  match hub_topics h !! topic with
  | Some tx => (h, tx)
  | None =>
      let (heap, tx) := bc_channel cap (hub_heap h) in
      (mkHub (<[topic := tx]> (hub_topics h)) heap, tx)
  end.

Definition hub_subscribe (cap : nat) (topic : rstr) (h : hub) : hub * Receiver :=
  let (h, sender) := get_or_create_sender cap topic h in
  let (heap, rx) := bc_subscribe sender (hub_heap h) in
  (mkHub (hub_topics h) heap, rx).

(** [let _ = sender.send(data)] *)
Definition hub_send (sender : Sender) (data : bytes) (h : hub) : hub :=
  mkHub (hub_topics h) (bc_send sender data (hub_heap h)).1.

(** [topics.remove(topic)] *)
Definition hub_remove (topic : rstr) (h : hub) : hub :=
  match hub_topics h !! topic with
  | Some tx => mkHub (delete topic (hub_topics h)) (bc_drop tx (hub_heap h))
  | None => h
  end.
End hub.

(** ** Delivery *)

Lemma lastn_all {A} n (l : list A) : length l ≤ n → lastn n l = l.
Proof. intros H. unfold lastn. by replace (length l - n) with 0 by lia. Qed.

Section hub_laws.
Context `{BC : Broadcast} `{BOk : !BroadcastOk}.

(** Senders of the table are distinct existing channels of the given capacity. *)
Definition hub_wf (cap : nat) (h : hub) : Prop :=
  (∀ t s, hub_topics h !! t = Some s → made (hub_heap h) s ∧ chan_cap s = cap) ∧
  ∀ t t' s, hub_topics h !! t = Some s → hub_topics h !! t' = Some s → t = t'.

(** [r] listens to the channel the table has for [t], has missed nothing and waits to
    receive [l]. *)
Definition tuned (h : hub) (t : rstr) (r : Receiver) (l : list bytes) : Prop :=
  hub_topics h !! t = Some (source r) ∧ live (hub_heap h) r ∧ missed (hub_heap h) r = 0 ∧
  waiting (hub_heap h) r = l.

(** [r] is no longer fed, whatever happens to the table. *)
Definition detached (h : hub) (r : Receiver) (l : list bytes) : Prop :=
  (∀ t, hub_topics h !! t ≠ Some (source r)) ∧ made (hub_heap h) (source r) ∧
  live (hub_heap h) r ∧ missed (hub_heap h) r = 0 ∧ waiting (hub_heap h) r = l.

Lemma get_or_create_spec cap k t h :
  cap = 2 ^ k → hub_wf cap h →
  let (h', s) := get_or_create_sender cap t h in
  hub_wf cap h' ∧ hub_topics h' !! t = Some s ∧
  (∀ t' r l, tuned h t' r l → tuned h' t' r l) ∧ (∀ r l, detached h r l → detached h' r l).
Proof using.
  intros Hpow [Hm Hi]. unfold get_or_create_sender. destruct (hub_topics h !! t) as [s|] eqn:Ht.
  { by split_and!. }
  pose proof (bc_channel_spec cap (hub_heap h)) as Hc. destruct (bc_channel _ _) as [heap s].
  destruct Hc as (Hn & Hs & Hcap%(λ H, H k Hpow) & Hmade & Hlive). unfold tuned, detached, hub_wf.
  cbn [hub_topics hub_heap]. split_and!.
  - intros t' s' [[<- <-]|[_ Hx]]%lookup_insert_Some; [done|]. destruct (Hm _ _ Hx). auto.
  - intros t1 t2 s' [[<- <-]|[? H1]]%lookup_insert_Some [[<- Heq]|[? H2]]%lookup_insert_Some;
      [done| | |by eapply Hi].
    + destruct Hn. by apply (Hm t2 s).
    + subst s'. destruct Hn. by apply (Hm t1 s).
  - apply lookup_insert_eq.
  - intros t' r l (Hr & Hl & Hz & Hw). destruct (Hlive r Hl) as (? & -> & ->).
    split_and!; [|done|done|done]. rewrite lookup_insert_ne; [done|]. intros ->. congruence.
  - intros r l (Hr & Hd & Hl & Hz & Hw). destruct (Hlive r Hl) as (? & -> & ->).
    split_and!; [|auto|done|done|done]. intros t'. rewrite lookup_insert_Some.
    intros [[_ ->]|[_ Hx]]; [by apply Hn|by apply (Hr t')].
Qed.

Lemma hub_subscribe_spec cap k t h :
  cap = 2 ^ k → hub_wf cap h →
  let (h', r) := hub_subscribe cap t h in
  hub_wf cap h' ∧ tuned h' t r [] ∧
  (∀ t' r' l, tuned h t' r' l → tuned h' t' r' l) ∧ (∀ r' l, detached h r' l → detached h' r' l).
Proof using.
  intros Hpow Hw. unfold hub_subscribe. pose proof (get_or_create_spec cap k t h Hpow Hw) as Hg.
  destruct (get_or_create_sender cap t h) as [h1 s]. destruct Hg as ([Hm Hi] & Hs & Ht & Hd).
  pose proof (bc_subscribe_spec s (hub_heap h1)) as Hc. destruct (bc_subscribe _ _) as [heap r].
  destruct Hc as (Hl & Hsrc & Hwait & Hz & Hmade & Hlive).
  unfold hub_wf, tuned, detached in *. cbn [hub_topics hub_heap]. split_and!.
  - intros t' s' H'. destruct (Hm _ _ H'). auto.
  - done.
  - by rewrite Hsrc.
  - done.
  - done.
  - done.
  - intros t' r' l (Hr & Hlr & ? & ?)%Ht. destruct (Hlive r' Hlr) as (? & -> & ->). done.
  - intros r' l (Hr & ? & Hlr & ? & ?)%Hd. destruct (Hlive r' Hlr) as (? & -> & ->).
    split_and!; auto.
Qed.

Lemma hub_send_spec cap t s b h :
  hub_wf cap h → hub_topics h !! t = Some s →
  hub_wf cap (hub_send s b h) ∧ hub_topics (hub_send s b h) = hub_topics h ∧
  (∀ r l, tuned h t r l → length l < cap → tuned (hub_send s b h) t r (l ++ [b])) ∧
  (∀ t' r l, t' ≠ t → tuned h t' r l → tuned (hub_send s b h) t' r l) ∧
  (∀ r l, detached h r l → detached (hub_send s b h) r l).
Proof using.
  intros [Hm Hi] Hs. pose proof (bc_send_spec s b (hub_heap h)) as [Hmade Hlive].
  unfold hub_send, hub_wf, tuned, detached. cbn [hub_topics hub_heap]. split_and!.
  - intros t' s' H'. destruct (Hm _ _ H'). auto.
  - done.
  - done.
  - intros r l (Hr & Hl & Hz & Hw) Hlen. destruct (Hlive r Hl) as (Hl' & Hsame & _).
    rewrite Hs in Hr. injection Hr as Hr. destruct (Hsame (eq_sym Hr)) as [-> ->].
    destruct (Hm t s Hs) as [_ ->]. rewrite Hz, Hw. rewrite lastn_all by (rewrite length_app; simpl; lia).
    split_and!; [by rewrite Hs, Hr|done|lia|done].
  - intros t' r l Hne (Hr & Hl & Hz & Hw). destruct (Hlive r Hl) as (Hl' & _ & Hother).
    destruct Hother as [-> ->]; [|done]. intros <-. by apply Hne, (Hi t' t (source r)).
  - intros r l (Hr & Hd & Hl & Hz & Hw). destruct (Hlive r Hl) as (Hl' & _ & Hother).
    destruct Hother as [-> ->]; [|by split_and!; auto]. intros <-. by apply (Hr t).
Qed.

Lemma hub_remove_spec cap t h :
  hub_wf cap h →
  hub_wf cap (hub_remove t h) ∧
  (∀ r l, tuned h t r l → detached (hub_remove t h) r l) ∧
  (∀ t' r l, t' ≠ t → tuned h t' r l → tuned (hub_remove t h) t' r l) ∧
  (∀ r l, detached h r l → detached (hub_remove t h) r l).
Proof using.
  intros [Hm Hi]. unfold hub_remove. destruct (hub_topics h !! t) as [s|] eqn:Ht.
  2:{ split_and!; [done| |done|done]. intros r l [Hr _]. congruence. }
  pose proof (bc_drop_spec s (hub_heap h)) as [Hmade Hlive].
  unfold hub_wf, tuned, detached. cbn [hub_topics hub_heap]. split_and!.
  - intros t' s' [_ H']%lookup_delete_Some. destruct (Hm _ _ H'). auto.
  - intros t1 t2 s' [_ H1]%lookup_delete_Some [_ H2]%lookup_delete_Some. by eapply Hi.
  - intros r l (Hr & Hl & Hz & Hw). destruct (Hlive r Hl) as (? & -> & ->).
    split_and!; [|by apply Hmade, (Hm t)|done|done|done].
    intros t' [Hne H']%lookup_delete_Some. by apply Hne, (Hi t t' (source r)).
  - intros t' r l Hne (Hr & Hl & Hz & Hw). destruct (Hlive r Hl) as (? & -> & ->).
    rewrite lookup_delete_ne by done. done.
  - intros r l (Hr & Hd & Hl & Hz & Hw). destruct (Hlive r Hl) as (? & -> & ->).
    split_and!; [|auto|done|done|done]. intros t' [_ H']%lookup_delete_Some. by apply (Hr t').
Qed.

(** Receiving what waits, one message at a time. *)
Fixpoint recv_n (n : nat) (r : Receiver) (heap : bc_heap) : bc_heap * list recv_outcome :=
  match n with
  | 0 => (heap, [])
  | S n' =>
      let (heap1, o) := bc_try_recv r heap in
      let (heap2, os) := recv_n n' r heap1 in (heap2, o :: os)
  end.

Lemma recv_waiting r heap l :
  live heap r → missed heap r = 0 → waiting heap r = l →
  (recv_n (length l) r heap).2 = Received <$> l.
Proof using.
  revert heap. induction l as [|b l IHl]; intros heap Hl Hz Hw; [done|]. cbn [length recv_n].
  destruct (bc_recv_spec r heap b l Hl Hz Hw) as (heap' & -> & Hl' & Hz' & Hw').
  specialize (IHl heap' Hl' Hz' Hw'). destruct (recv_n _ _ _). cbn [snd] in *. by rewrite IHl.
Qed.
End hub_laws.

(** ** Channels in memory, for the witnesses *)

Record mem_queue : Type := MemQueue { mq_source : nat * nat; mq_waiting : list bytes; mq_missed : nat }.
Record mem_heap : Type := MemHeap { mh_senders : nat; mh_queues : list mem_queue }.

Definition mem_push (s : nat * nat) (b : bytes) (q : mem_queue) : mem_queue :=
  if decide (mq_source q = s) then
    MemQueue s (lastn s.2 (mq_waiting q ++ [b])) (mq_missed q + (S (length (mq_waiting q)) - s.2))
  else q.

Definition mem_pop (r : nat * (nat * nat)) (h : mem_heap) : mem_heap * recv_outcome :=
  match mh_queues h !! r.1 with
  | Some (MemQueue s l n) =>
      if decide (s = r.2) then
        match n, l with
        | 0, b :: rest =>
            (MemHeap (mh_senders h) (<[r.1 := MemQueue s rest 0]> (mh_queues h)), Received b)
        | 0, [] => (h, Empty)
        | n, l => (MemHeap (mh_senders h) (<[r.1 := MemQueue s l 0]> (mh_queues h)),
                   Lagged (umk 64 (Z.of_nat n)))
        end
      else (h, Closed)
  | None => (h, Closed)
  end.

(** A sender is its number and capacity, a receiver its position and sender. *)
#[export] Instance mem_broadcast : Broadcast := {
  bc_heap := mem_heap; Sender := nat * nat; Receiver := nat * (nat * nat);
  bc_channel cap h := (MemHeap (S (mh_senders h)) (mh_queues h), (mh_senders h, cap));
  bc_subscribe s h :=
    (MemHeap (mh_senders h) (mh_queues h ++ [MemQueue s [] 0]), (length (mh_queues h), s));
  bc_send s b h :=
    (MemHeap (mh_senders h) (mem_push s b <$> mh_queues h),
     bool_decide (Exists (λ q, mq_source q = s) (mh_queues h)));
  bc_try_recv := mem_pop;
  bc_drop _ h := h;
}.

Definition mem_at (h : mem_heap) (r : nat * (nat * nat)) : mem_queue :=
  default (MemQueue r.2 [] 0) (mh_queues h !! r.1).

#[export] Program Instance mem_broadcast_ok : @BroadcastOk mem_broadcast := {
  made h s := s.1 < mh_senders h;
  live h r := mq_source <$> mh_queues h !! r.1 = Some r.2;
  source r := r.2;
  chan_cap s := s.2;
  waiting h r := mq_waiting (mem_at h r);
  missed h r := mq_missed (mem_at h r);
}.
Next Obligation. intros cap h. cbn. split_and!; try lia; try done. Qed.
Next Obligation.
  intros s h. cbn. unfold mem_at. cbn. rewrite lookup_app_r by lia.
  rewrite Nat.sub_diag. cbn. split_and!; [done..|]. intros r'.
  destruct (mh_queues h !! r'.1) as [q|] eqn:Hq; [|done]. by rewrite (lookup_app_l_Some _ _ _ _ Hq).
Qed.
Next Obligation.
  intros s b h. cbn. split; [done|]. intros r. unfold mem_at. cbn. rewrite list_lookup_fmap.
  destruct (mh_queues h !! r.1) as [q|]; [|done]. cbn. intros [= Hs].
  unfold mem_push. case_decide as Hd; cbn; split_and!; congruence || (split; congruence) || done.
Qed.
Next Obligation. done. Qed.
Next Obligation.
  intros r h b rest. cbn. unfold mem_pop, mem_at.
  destruct (mh_queues h !! r.1) as [[s l n]|] eqn:Hq; [|done].
  cbn. intros [= ->] -> ->. rewrite decide_True by done. eexists. split; [done|]. cbn.
  rewrite list_lookup_insert_eq by (by eapply lookup_lt_Some). cbn. by split_and!.
Qed.
Next Obligation.
  intros r h n. cbn. unfold mem_pop, mem_at.
  destruct (mh_queues h !! r.1) as [[s l m]|] eqn:Hq; [|done].
  cbn. intros [= ->] ->. rewrite decide_True by done. eexists. split; [done|]. cbn.
  rewrite list_lookup_insert_eq by (by eapply lookup_lt_Some). cbn. by split_and!.
Qed.
Next Obligation.
  intros r h. cbn. unfold mem_pop, mem_at.
  destruct (mh_queues h !! r.1) as [[s l m]|] eqn:Hq; [|done].
  cbn. intros [= ->] -> ->. rewrite decide_True by done. eexists h, Empty.
  rewrite Hq. cbn. split_and!; auto.
Qed.
Next Obligation.
  intros r h. cbn. unfold mem_pop, mem_at. destruct (mh_queues h !! r.1) as [[s l m]|] eqn:Hq; [|by cbn].
  destruct (decide (s = r.2)) as [->|]; [|by cbn].
  assert (∀ q r', r' ≠ r → mq_source <$> mh_queues h !! r'.1 = Some r'.2 →
    (<[r.1 := q]> (mh_queues h) !! r'.1) = mh_queues h !! r'.1) as Hne.
  { intros q r' Hr' Hl. apply list_lookup_insert_ne. intros Heq. apply Hr'. rewrite <-Heq, Hq in Hl.
    injection Hl as Hl. destruct r, r'; cbn in *; congruence. }
  destruct m as [|m], l as [|b l]; cbn; (split; [done|]); try done;
    intros r' Hr' Hl; by rewrite Hne.
Qed.
