(* ===== verification/Broker.v ===== *)
(** * The in-memory broker ([zero-network/src/mock.rs])

    [InMemoryGridBroker] and its client with fault injection. The mutex is held for each
    access to the state. A publication records its sector and reads its faults under the
    mutex, sleeps if it is delayed, and sends its copies without the mutex: [broker_publish] is
    one that nothing interleaves with, [net] the tasks that run side by side. [air] says what a
    subscriber should hear of them, and [broker_delivery] that it hears exactly that. *)

From Stdlib Require Import ZArith Lia.
From stdpp Require Import base tactics gmap strings sorting numbers countable list.
From S2P Require Import Prelude Bytes Net Broadcast.
#[local] Open Scope nat_scope.

Inductive Fault : Type := Drop | Duplicate | Delay (ms : u64).

#[export] Instance Fault_eq_dec : EqDecision Fault.
Proof. solve_decision. Defined.

Definition BROKER_CAPACITY : nat := 256.

Section broker.
Context `{BC : Broadcast}.

Record BrokerState : Type := mkBroker {
  br_published : list (rstr * SectorBytes);
  br_hub : hub;
  br_faults : gmap rstr (list Fault);
}.

Definition broker_new (heap : bc_heap) : BrokerState := mkBroker [] (mkHub ∅ heap) ∅.

Definition sector_count (st : BrokerState) : nat := length (br_published st).

Definition drain_published (st : BrokerState) : BrokerState * list (rstr * SectorBytes) :=
  (mkBroker [] (br_hub st) (br_faults st), br_published st).

Definition inject_fault (topic : rstr) (fault : Fault) (st : BrokerState) : BrokerState :=
  mkBroker (br_published st) (br_hub st)
    (<[topic := default [] (br_faults st !! topic) ++ [fault]]> (br_faults st)).

Definition clear_faults (st : BrokerState) : BrokerState :=
  mkBroker (br_published st) (br_hub st) ∅.

(** What the faults of a topic ask for: dropping, the number of copies, the delay. *)
Fixpoint fault_plan (faults : list Fault) (should_drop : bool) (duplicate_count : nat)
    (delay : option u64) : bool * nat * option u64 :=
  match faults with
  | [] => (should_drop, duplicate_count, delay)
  | Drop :: rest => fault_plan rest true duplicate_count delay
  | Duplicate :: rest => fault_plan rest should_drop (duplicate_count + 1) delay
  | Delay d :: rest => fault_plan rest should_drop duplicate_count (Some d)
  end.

(** Up to the sleep: the sector is recorded, and [None] is the early return of a drop. *)
Definition publish_begin (topic : rstr) (sector_bytes : SectorBytes) (st : BrokerState)
    : BrokerState * option (Sender * nat * option u64) :=
  let published := br_published st ++ [(topic, sector_bytes)] in
  let (h, sender) := get_or_create_sender BROKER_CAPACITY topic (br_hub st) in
  let faults := default [] (br_faults st !! topic) in
  let '(should_drop, duplicate_count, delay) := fault_plan faults false 1 None in
  (mkBroker published h (br_faults st),
   if should_drop then None else Some (sender, duplicate_count, delay)).

(** [for _ in 0..duplicate_count { let _ = sender.send(..) }] *)
Fixpoint send_copies (n : nat) (sender : Sender) (sector_bytes : SectorBytes) (h : hub) : hub :=
  match n with
  | 0 => h
  | S n' => send_copies n' sender sector_bytes (hub_send sender sector_bytes h)
  end.

Definition publish_end (sender : Sender) (duplicate_count : nat) (sector_bytes : SectorBytes)
    (st : BrokerState) : BrokerState :=
  mkBroker (br_published st) (send_copies duplicate_count sender sector_bytes (br_hub st))
    (br_faults st).

(** A publication nothing interleaves with. The sleep between its parts changes nothing in the
    broker by itself; what other tasks do meanwhile is in the traces below. *)
Definition broker_publish (topic : rstr) (sector_bytes : SectorBytes)
    : io BrokerState NetworkError () := λ st,
  match publish_begin topic sector_bytes st with
  | (st, None) => (st, Ok ())
  | (st, Some (sender, n, _)) => (publish_end sender n sector_bytes st, Ok ())
  end.

Definition broker_subscribe (topic : rstr) : io BrokerState NetworkError Receiver := λ st,
  let (h, rx) := hub_subscribe BROKER_CAPACITY topic (br_hub st) in
  (mkBroker (br_published st) h (br_faults st), Ok rx).

Definition broker_unsubscribe (topic : rstr) : io BrokerState NetworkError () := λ st,
  (mkBroker (br_published st) (hub_remove topic (br_hub st)) (br_faults st), Ok ()).

(** [BroadcastStream::poll_next]; [None] is [Poll::Pending]. *)
Definition poll_next (rx : Receiver) (heap : bc_heap)
    : bc_heap * option (result NetworkError SectorBytes) :=
  match bc_try_recv rx heap with
  | (heap, Received b) => (heap, Some (Ok b))
  | (heap, Empty) => (heap, None)
  | (heap, Lagged _) => (heap, None)
  | (heap, Closed) => (heap, Some (Err SubscriptionClosed))
  end.

Definition MockGridClient : GridClient :=
  {| grid_state := BrokerState; grid_stream := Receiver; publish := broker_publish;
     subscribe := broker_subscribe; unsubscribe := broker_unsubscribe |}.

(** ** Tasks

    Publications run in tasks of their own: one has begun when its sector is recorded and its
    sender and faults are read; it sends its copies one by one, after its sleep, while other
    tasks do what they do. A clock counts milliseconds. *)

(** What a publication has still to do. *)
Record flight : Type := mkFlight {
  fl_sender : Sender;
  fl_left : nat;
  fl_bytes : SectorBytes;
  fl_due : Z;
}.

(** The publications in the order they began; [None] is one that was dropped. *)
Record net : Type := mkNet {
  nt_broker : BrokerState;
  nt_clock : Z;
  nt_flights : list (option flight);
}.

Definition net_new (heap : bc_heap) : net := mkNet (broker_new heap) 0 [].

Definition with_broker (st : BrokerState) (w : net) : net := mkNet st (nt_clock w) (nt_flights w).

Inductive broker_op : Type :=
| BPublish (topic : rstr) (b : SectorBytes)
| BSend (i : nat)
| BCancel (i : nat)
| BTick (ms : u64)
| BSubscribe (topic : rstr)
| BPoll (rx : Receiver)
| BUnsubscribe (topic : rstr)
| BFault (topic : rstr) (f : Fault)
| BClear
| BDrain.

Definition net_publish (topic : rstr) (b : SectorBytes) (w : net) : net :=
  let (st, rest) := publish_begin topic b (nt_broker w) in
  mkNet st (nt_clock w) (nt_flights w ++
    [match rest with
     | Some (sender, n, delay) =>
         Some (mkFlight sender n b (nt_clock w + match delay with Some ms => uval ms | None => 0 end)%Z)
     | None => None
     end]).

(** One turn of the sending loop of the [i]th publication, if its sleep is over. *)
Definition net_send (i : nat) (w : net) : net :=
  match nt_flights w !! i with
  | Some (Some (mkFlight sender (S n) b due)) =>
      if (due <=? nt_clock w)%Z then
        mkNet (publish_end sender 1 b (nt_broker w)) (nt_clock w)
          (<[i := Some (mkFlight sender n b due)]> (nt_flights w))
      else w
  | _ => w
  end.

Definition net_step (w : net) (op : broker_op) : net :=
  match op with
  | BPublish t b => net_publish t b w
  | BSend i => net_send i w
  | BCancel i => mkNet (nt_broker w) (nt_clock w) (<[i := None]> (nt_flights w))
  | BTick ms => mkNet (nt_broker w) (nt_clock w + uval ms)%Z (nt_flights w)
  | BSubscribe t => with_broker (broker_subscribe t (nt_broker w)).1 w
  | BPoll rx =>
      let st := nt_broker w in
      let heap := (poll_next rx (hub_heap (br_hub st))).1 in
      with_broker (mkBroker (br_published st) (mkHub (hub_topics (br_hub st)) heap) (br_faults st)) w
  | BUnsubscribe t => with_broker (broker_unsubscribe t (nt_broker w)).1 w
  | BFault t f => with_broker (inject_fault t f (nt_broker w)) w
  | BClear => with_broker (clear_faults (nt_broker w)) w
  | BDrain => with_broker (drain_published (nt_broker w)).1 w
  end.

Definition run_net : net → list broker_op → net := foldl net_step.

(** ** What should be heard

    Without channels: a topic has a number that changes when somebody unsubscribes from it. A
    publication is cast under the number its topic has when it begins, in as many copies as
    the faults in force then ask for, none if they drop it; a subscriber hears what is cast
    under the number the topic had when it subscribed. *)

Record cast : Type := mkCast {
  ca_channel : rstr * nat;
  ca_left : nat;
  ca_bytes : SectorBytes;
  ca_due : Z;
}.

Record air : Type := mkAir {
  ai_faults : gmap rstr (list Fault);
  ai_number : rstr → nat;
  ai_clock : Z;
  ai_casts : list cast;
}.

Definition air_new : air := mkAir ∅ (λ _, 0) 0 [].

Definition copies (faults : list Fault) : nat :=
  if bool_decide (Drop ∈ faults) then 0 else 1 + length (filter (λ f, f = Duplicate) faults).

Definition wait (faults : list Fault) : Z :=
  default 0%Z (last (omap (λ f, match f with Delay ms => Some (uval ms) | _ => None end) faults)).

(** The copy an operation sends, if it does. *)
Definition on_air (a : air) (op : broker_op) : option cast :=
  match op with
  | BSend i => c ← ai_casts a !! i;
      if (ca_due c <=? ai_clock a)%Z && (0 <? ca_left c) then Some c else None
  | _ => None
  end.

Definition with_left (n : nat) (c : cast) : cast := mkCast (ca_channel c) n (ca_bytes c) (ca_due c).

Definition air_step (a : air) (op : broker_op) : air :=
  let '(mkAir faults number clock casts) := a in
  match op with
  | BPublish t b =>
      let in_force := default [] (faults !! t) in
      mkAir faults number clock
        (casts ++ [mkCast (t, number t) (copies in_force) b (clock + wait in_force)%Z])
  | BSend i =>
      match on_air a op with
      | Some c => mkAir faults number clock (<[i := with_left (ca_left c - 1) c]> casts)
      | None => a
      end
  | BCancel i => mkAir faults number clock (alter (with_left 0) i casts)
  | BTick ms => mkAir faults number (clock + uval ms)%Z casts
  | BUnsubscribe t => mkAir faults (λ x, if decide (x = t) then S (number x) else number x) clock casts
  | BFault t f => mkAir (<[t := default [] (faults !! t) ++ [f]]> faults) number clock casts
  | BClear => mkAir ∅ number clock casts
  | BSubscribe _ | BPoll _ | BDrain => a
  end.

(** What an operation sends on the channel [c], and what a trace does. *)
Definition sent (c : rstr * nat) (a : air) (op : broker_op) : list SectorBytes :=
  match on_air a op with
  | Some k => if bool_decide (ca_channel k = c) then [ca_bytes k] else []
  | None => []
  end.

Fixpoint heard (c : rstr * nat) (a : air) (ops : list broker_op) : list SectorBytes :=
  match ops with
  | [] => []
  | op :: rest => sent c a op ++ heard c (air_step a op) rest
  end.

(** What one who subscribes to [t] after [before] is due during [ops]. *)
Definition deliveries (t : rstr) (before ops : list broker_op) : list SectorBytes :=
  let a := foldl air_step air_new before in heard (t, ai_number a t) a ops.
End broker.

(** ** Delivery *)

Section broker_laws.
Context `{BC : Broadcast} `{BOk : !BroadcastOk}.
Implicit Types (w : net) (a : air) (r : Receiver) (h : hub).

Lemma fault_plan_spec faults d n o :
  (fault_plan faults d n o).1 =
    (d || bool_decide (Drop ∈ faults), n + length (filter (λ f, f = Duplicate) faults)).
Proof using.
  revert d n o. induction faults as [|[| |ms] faults IHl]; intros d n o; cbn [fault_plan].
  - cbn. by rewrite orb_false_r, Nat.add_0_r.
  - rewrite IHl, filter_cons_False by done. f_equal.
    rewrite (bool_decide_true (Drop ∈ Drop :: faults)) by apply list_elem_of_here.
    by rewrite orb_true_r.
  - rewrite IHl, filter_cons_True by done. cbn [length]. f_equal; [|lia].
    f_equal. apply bool_decide_ext. rewrite elem_of_cons. split; [auto|by intros [?|?]].
  - rewrite IHl, filter_cons_False by done. do 2 f_equal. apply bool_decide_ext.
    rewrite elem_of_cons. split; [auto|by intros [?|?]].
Qed.

Lemma fault_plan_delay faults d n o :
  match (fault_plan faults d n o).2 with Some ms => uval ms | None => 0%Z end =
  default (match o with Some ms => uval ms | None => 0%Z end)
    (last (omap (λ f, match f with Delay ms => Some (uval ms) | _ => None end) faults)).
Proof using.
  revert d n o. induction faults as [|[| |ms] faults IHl]; intros d n o; cbn [fault_plan]; try apply IHl.
  - done.
  - rewrite IHl. cbn [omap list_omap]. rewrite last_cons.
    by destruct (last _).
Qed.

(** What begins, and what the abstract publication says of it. *)
Lemma publish_begin_spec t b st :
  let faults := default [] (br_faults st !! t) in
  let (st', rest) := publish_begin t b st in
  let (h, s) := get_or_create_sender BROKER_CAPACITY t (br_hub st) in
  br_hub st' = h ∧ br_faults st' = br_faults st ∧
  match rest with
  | None => copies faults = 0
  | Some (s', n, delay) => s' = s ∧ n = copies faults ∧
      match delay with Some ms => uval ms | None => 0%Z end = wait faults
  end.
Proof using.
  cbv zeta. unfold publish_begin, copies, wait. destruct (get_or_create_sender _ _ _) as [h s].
  pose proof (fault_plan_spec (default [] (br_faults st !! t)) false 1 None) as Hp.
  pose proof (fault_plan_delay (default [] (br_faults st !! t)) false 1 None) as Hd.
  destruct (fault_plan _ _ _ _) as [[dr n] o]. cbn [fst snd orb] in Hp, Hd. injection Hp as -> ->.
  by case_bool_decide.
Qed.

(** *** The channels

    [M] names the channel of each topic and number: the table has the current ones. *)

Record table (M : gmap (rstr * nat) Sender) (number : rstr → nat) (h : hub) : Prop := {
  tb_made c s : M !! c = Some s → made (hub_heap h) s ∧ chan_cap s = BROKER_CAPACITY;
  tb_inj c c' s : M !! c = Some s → M !! c' = Some s → c = c';
  tb_old t n s : M !! (t, n) = Some s → n ≤ number t;
  tb_topics t : hub_topics h !! t = M !! (t, number t);
}.

(** What a receiver has in store after its channel has carried [l]. *)
Definition carried (heap : bc_heap) r (l : list bytes) : Prop :=
  live heap r ∧ waiting heap r = lastn BROKER_CAPACITY l ∧ missed heap r = length l - BROKER_CAPACITY.

Definition kept (heap heap' : bc_heap) : Prop := ∀ r l, carried heap r l → carried heap' r l.

Lemma kept_intro (heap heap' : bc_heap) :
  (∀ r, live heap r → live heap' r ∧ waiting heap' r = waiting heap r ∧ missed heap' r = missed heap r) →
  kept heap heap'.
Proof using. intros H r l (Hl & Hw & Hm). destruct (H r Hl) as (Hl' & Hw' & Hm'). unfold carried. by rewrite Hw', Hm'. Qed.

Lemma lastn_snoc {A} n (l : list A) (b : A) : lastn n (lastn n l ++ [b]) = lastn n (l ++ [b]).
Proof using.
  unfold lastn. rewrite !length_app, length_drop. cbn [length].
  destruct (decide (length l ≤ n)).
  - replace (length l - n) with 0 by lia. rewrite drop_0. f_equal. lia.
  - destruct n as [|n].
    + rewrite !Nat.sub_0_r, !drop_ge; [done|rewrite length_app; cbn; lia|].
      rewrite length_app, length_drop. cbn. lia.
    + rewrite (drop_app_le l) by lia. rewrite (drop_app_le (drop _ _)) by (rewrite length_drop; lia).
      rewrite drop_drop. do 2 f_equal. lia.
Qed.

Lemma length_lastn {A} n (l : list A) : length (lastn n l) = Nat.min n (length l).
Proof using. unfold lastn. rewrite length_drop. lia. Qed.

Lemma table_made M number h heap' :
  table M number h → (∀ s, made (hub_heap h) s → made heap' s) →
  table M number (mkHub (hub_topics h) heap').
Proof using.
  intros [Hm Hi Ho Ht] Hmade. split; [|done..]. intros c s Hc. destruct (Hm c s Hc). auto.
Qed.

Lemma table_get t M number h :
  table M number h →
  let (h', s) := get_or_create_sender BROKER_CAPACITY t h in
  ∃ M', M ⊆ M' ∧ table M' number h' ∧ M' !! (t, number t) = Some s ∧ kept (hub_heap h) (hub_heap h').
Proof using.
  intros [Hm Hi Ho Ht]. unfold get_or_create_sender. destruct (hub_topics h !! t) as [s|] eqn:Hs.
  { exists M. split_and!; [done|done|by rewrite <-Ht|by intros r l]. }
  pose proof (bc_channel_spec BROKER_CAPACITY (hub_heap h)) as Hc. destruct (bc_channel _ _) as [heap s].
  destruct Hc as (Hn & Hsm & Hcap & Hmade & Hlive).
  assert (M !! (t, number t) = None) as Hfree by (by rewrite <-Ht).
  exists (<[(t, number t) := s]> M). split_and!.
  - by apply insert_subseteq.
  - split; cbn [hub_topics hub_heap].
    + intros c s' [[_ <-]|[_ Hc]]%lookup_insert_Some; [split; [done|by apply (Hcap 8)]|].
      destruct (Hm c s' Hc). auto.
    + intros c c' s' [[<- <-]|[Hne H1]]%lookup_insert_Some [[<- Heq]|[Hne' H2]]%lookup_insert_Some;
        [done| | |by eapply Hi].
      * destruct Hn. by apply (Hm c' s).
      * subst s'. destruct Hn. by apply (Hm c s).
    + intros t' n s' [[[= <- <-] _]|[_ Hc]]%lookup_insert_Some; [done|by eapply Ho].
    + intros t'. destruct (decide (t' = t)) as [->|Hne]; [by rewrite !lookup_insert_eq|].
      rewrite !lookup_insert_ne by congruence. apply Ht.
  - apply lookup_insert_eq.
  - by apply kept_intro.
Qed.

(** A message on the channel [c]. *)
Lemma table_send c s b M number h :
  table M number h → M !! c = Some s →
  table M number (hub_send s b h) ∧
  ∀ c' r l, M !! c' = Some (source r) → carried (hub_heap h) r l →
    carried (hub_heap (hub_send s b h)) r (l ++ if bool_decide (c = c') then [b] else []).
Proof using.
  intros HT Hc. pose proof (bc_send_spec s b (hub_heap h)) as [Hmade Hlive].
  split; [by apply table_made|]. intros c' r l Hc' (Hl & Hw & Hm). unfold hub_send. cbn [hub_heap].
  destruct (Hlive r Hl) as (Hl' & Hsame & Hother). case_bool_decide as Heq.
  - subst c'. rewrite Hc in Hc'. injection Hc' as ->. destruct (Hsame eq_refl) as [Hw' Hm'].
    rewrite (proj2 (tb_made _ _ _ HT _ _ Hc)), Hw in Hw', Hm'. rewrite Hm, length_lastn in Hm'.
    split_and!; [done|by rewrite Hw', lastn_snoc|]. rewrite Hm', length_app. cbn [length]. lia.
  - rewrite app_nil_r. destruct Hother as [Hw' Hm']; [|by split_and!; rewrite ?Hw', ?Hm'].
    intros <-. by apply Heq, (tb_inj _ _ _ HT c c' (source r)).
Qed.

Lemma table_remove t M number h :
  table M number h →
  table M (λ x, if decide (x = t) then S (number x) else number x) (hub_remove t h) ∧
  kept (hub_heap h) (hub_heap (hub_remove t h)).
Proof using.
  intros [Hm Hi Ho Ht].
  assert (M !! (t, S (number t)) = None) as Hnew.
  { apply eq_None_not_Some. intros [s Hs]. specialize (Ho _ _ _ Hs). lia. }
  assert (∀ heap', (∀ s, made (hub_heap h) s → made heap' s) → ∀ topics,
    (∀ x, topics !! x = if decide (x = t) then None else hub_topics h !! x) →
    table M (λ x, if decide (x = t) then S (number x) else number x) (mkHub topics heap')) as Hgo.
  { intros heap' Hmade topics Htop. split; cbn [hub_topics hub_heap]; [| done| |].
    - intros c s Hc. destruct (Hm c s Hc). auto.
    - intros x n s Hx. specialize (Ho _ _ _ Hx). destruct (decide _); lia.
    - intros x. rewrite Htop. destruct (decide (x = t)) as [->|]; [done|apply Ht]. }
  unfold hub_remove. destruct (hub_topics h !! t) as [s|] eqn:Hs.
  - pose proof (bc_drop_spec s (hub_heap h)) as [Hmade Hlive]. split; [|by apply kept_intro].
    apply Hgo; [done|]. intros x. destruct (decide (x = t)) as [->|]; [by rewrite lookup_delete_eq|].
    by rewrite lookup_delete_ne.
  - split; [|by intros r l]. destruct h as [topics heap]. apply Hgo; [done|]. cbn in *.
    intros x. by destruct (decide (x = t)) as [->|].
Qed.

(** *** The tasks *)

Definition flight_of (M : gmap (rstr * nat) Sender) (f : option flight) (c : cast) : Prop :=
  match f with
  | None => ca_left c = 0
  | Some f => M !! ca_channel c = Some (fl_sender f) ∧ fl_left f = ca_left c ∧
      fl_bytes f = ca_bytes c ∧ fl_due f = ca_due c
  end.

Abbreviation heap_of w := (hub_heap (br_hub (nt_broker w))).

Record tracks (M : gmap (rstr * nat) Sender) w a : Prop := {
  tr_table : table M (ai_number a) (br_hub (nt_broker w));
  tr_faults : br_faults (nt_broker w) = ai_faults a;
  tr_clock : nt_clock w = ai_clock a;
  tr_flights : Forall2 (flight_of M) (nt_flights w) (ai_casts a);
}.

(** A step of the tasks is the step of the abstract publications, and a receiver of the
    channel [c] that does not poll gets what is sent there. *)
Definition followed (M : gmap (rstr * nat) Sender) w a (op : broker_op) : Prop :=
  ∃ M', M ⊆ M' ∧ tracks M' (net_step w op) (air_step a op) ∧
    ∀ c r l, M !! c = Some (source r) → op ≠ BPoll r → carried (heap_of w) r l →
      carried (heap_of (net_step w op)) r (l ++ sent c a op).

(** Steps that send nothing. *)
Lemma followed_quietly M M' w a op :
  M ⊆ M' → tracks M' (net_step w op) (air_step a op) → on_air a op = None →
  (∀ r l, op ≠ BPoll r → carried (heap_of w) r l → carried (heap_of (net_step w op)) r l) →
  followed M w a op.
Proof using.
  intros Hsub HT Hno Hk. exists M'. split_and!; [done|done|]. intros c r l _ Hr Hl.
  unfold sent. rewrite Hno, app_nil_r. by apply Hk.
Qed.

Lemma flight_of_mono M M' f c : M ⊆ M' → flight_of M f c → flight_of M' f c.
Proof using.
  intros Hsub. destruct f as [f|]; [|done]. intros (Hc & ? & ? & ?).
  split_and!; [by eapply lookup_weaken|done..].
Qed.

Lemma flights_mono M M' fs cs : M ⊆ M' → Forall2 (flight_of M) fs cs → Forall2 (flight_of M') fs cs.
Proof using. intros Hsub H. eapply Forall2_impl; [exact H|]. intros f c. by apply flight_of_mono. Qed.

Lemma follow_publish M w a t b : tracks M w a → followed M w a (BPublish t b).
Proof using BOk.
  intros [HT Hf Hc Hfl].
  pose proof (table_get t M (ai_number a) _ HT) as Hg.
  pose proof (publish_begin_spec t b (nt_broker w)) as Hp. cbv zeta in Hp.
  destruct (get_or_create_sender _ _ _) as [h s]. destruct Hg as (M' & Hsub & HT' & Hs & Hk).
  destruct a as [faults number clock casts]. cbn [ai_number ai_faults ai_clock ai_casts] in *.
  rewrite Hf in Hp.
  apply (followed_quietly M M'); [done| |done|]; cbn [net_step]; unfold net_publish;
    destruct (publish_begin t b (nt_broker w)) as [st rest]; destruct Hp as (Hh & Hfs & Hrest).
  - cbn [air_step]. split; cbn [nt_broker nt_clock nt_flights ai_number ai_faults ai_clock ai_casts].
    + by rewrite Hh.
    + by rewrite Hfs.
    + done.
    + apply Forall2_app; [by apply (flights_mono M)|]. constructor; [|done].
      destruct rest as [[[s' n] d]|]; [|done]. destruct Hrest as (-> & -> & ->).
      cbn. split_and!; [done|done|done|by rewrite Hc].
  - intros r l _. cbn [nt_broker]. rewrite Hh. apply Hk.
Qed.

Lemma on_air_flight M w a i f c :
  tracks M w a → nt_flights w !! i = Some f → ai_casts a !! i = Some c → flight_of M f c.
Proof using. intros HT Hf Hc. exact (Forall2_lookup_lr _ _ _ _ _ _ (tr_flights _ _ _ HT) Hf Hc). Qed.

Lemma follow_send M w a i : tracks M w a → followed M w a (BSend i).
Proof using BOk.
  intros HT. pose proof HT as [Htab Hf Hc Hfl].
  assert (net_step w (BSend i) = w → on_air a (BSend i) = None → followed M w a (BSend i)) as Hidle.
  { intros Hw Ha. apply (followed_quietly M M); [done| |done|]; rewrite Hw; [|done].
    destruct a. cbn [air_step]. by rewrite Ha. }
  destruct (nt_flights w !! i) as [f|] eqn:Hi.
  2:{ apply Hidle; cbn [net_step on_air]; unfold net_send; [by rewrite Hi|].
      apply lookup_ge_None in Hi. rewrite lookup_ge_None_2; [done|].
      by rewrite <-(Forall2_length _ _ _ Hfl). }
  destruct (Forall2_lookup_l _ _ _ _ _ Hfl Hi) as (c & Hci & Hfc).
  destruct f as [[s [|n] b due]|]; cbn in Hfc.
  - destruct Hfc as (_ & Hl & _). apply Hidle; cbn [net_step on_air]; unfold net_send; [by rewrite Hi|].
    rewrite Hci. cbn. by rewrite <-Hl, andb_false_r.
  - destruct Hfc as (Hs & Hl & Hb & Hd).
    assert (on_air a (BSend i) = if (due <=? nt_clock w)%Z then Some c else None) as Hon.
    { cbn [on_air]. rewrite Hci. cbn. by rewrite <-Hl, Hd, Hc, andb_true_r. }
    destruct (due <=? nt_clock w)%Z eqn:Hdue.
    2:{ apply Hidle; [|done]. cbn [net_step]. unfold net_send. by rewrite Hi, Hdue. }
    destruct (table_send (ca_channel c) s b _ _ _ Htab Hs) as [Htab' Hget].
    exists M. cbn [net_step]. unfold net_send. rewrite Hi, Hdue. split_and!; [done| |].
    + destruct a as [faults number clock casts]. cbn [air_step]. rewrite Hon.
      split; [exact Htab'|done|done|]. cbn. apply Forall2_insert; [done|].
      cbn. rewrite <-Hl. split_and!; [done|cbn; lia|done|done].
    + intros c' r l Hc' _ Hcar. unfold sent. rewrite Hon, <-Hb. by apply (Hget c').
  - apply Hidle; cbn [net_step on_air]; unfold net_send; [by rewrite Hi|].
    rewrite Hci. cbn. by rewrite Hfc, andb_false_r.
Qed.

Lemma follow_cancel M w a i : tracks M w a → followed M w a (BCancel i).
Proof using.
  intros [Htab Hf Hc Hfl]. apply (followed_quietly M M); [done| |done|done].
  destruct a as [faults number clock casts]. cbn in *. split; try done. cbn.
  apply Forall2_same_length_lookup_2.
  { rewrite length_insert, length_alter. by apply (Forall2_length _ _ _ Hfl). }
  intros j f c Hj Hcj. destruct (decide (i = j)) as [<-|Hne].
  - pose proof (lookup_lt_Some _ _ _ Hj) as Hlt. rewrite length_insert in Hlt.
    rewrite list_lookup_insert_eq in Hj by done.
    injection Hj as <-. rewrite list_lookup_alter_eq in Hcj. destruct (casts !! i); by simplify_eq/=.
  - rewrite list_lookup_insert_ne in Hj by done. rewrite list_lookup_alter_ne in Hcj by done.
    exact (Forall2_lookup_lr _ _ _ _ _ _ Hfl Hj Hcj).
Qed.

Lemma table_subscribe t M number h :
  table M number h →
  let (h', r) := hub_subscribe BROKER_CAPACITY t h in
  ∃ M', M ⊆ M' ∧ table M' number h' ∧ M' !! (t, number t) = Some (source r) ∧
    carried (hub_heap h') r [] ∧ kept (hub_heap h) (hub_heap h').
Proof using BOk.
  intros HT. unfold hub_subscribe. pose proof (table_get t M number h HT) as Hg.
  destruct (get_or_create_sender _ _ _) as [h1 s]. destruct Hg as (M' & Hsub & HT' & Hs & Hk).
  pose proof (bc_subscribe_spec s (hub_heap h1)) as Hb. destruct (bc_subscribe _ _) as [heap r].
  destruct Hb as (Hl & Hsrc & Hw & Hm & Hmade & Hlive). exists M'. split_and!.
  - done.
  - by apply table_made.
  - by rewrite Hsrc.
  - exact (conj Hl (conj Hw Hm)).
  - intros r' l Hr'. by apply (kept_intro _ _ Hlive), Hk.
Qed.

(** Steps that leave the publications alone. *)
Lemma tracks_broker M M' number' faults' w a st :
  tracks M w a → M ⊆ M' → table M' number' (br_hub st) → br_faults st = faults' →
  tracks M' (with_broker st w) (mkAir faults' number' (ai_clock a) (ai_casts a)).
Proof using.
  intros [_ _ Hc Hfl] Hsub HT Hf. split; [done|done|done|]. by apply (flights_mono M).
Qed.

Lemma follow_step M w a op : tracks M w a → followed M w a op.
Proof using BOk.
  intros HT. pose proof HT as [Htab Hf Hc Hfl].
  assert (a = mkAir (ai_faults a) (ai_number a) (ai_clock a) (ai_casts a)) as Ha by (by destruct a).
  destruct op as [t b|i|i|ms|t|rx|t|t f| |];
    [by apply follow_publish|by apply follow_send|by apply follow_cancel|..].
  - apply (followed_quietly M M); [done| |done|done]. rewrite Ha. by split; cbn; rewrite ?Hc.
  - pose proof (table_subscribe t M _ _ Htab) as Hs.
    assert (net_step w (BSubscribe t) = with_broker (mkBroker (br_published (nt_broker w))
      (hub_subscribe BROKER_CAPACITY t (br_hub (nt_broker w))).1 (br_faults (nt_broker w))) w) as Hst.
    { cbn [net_step]. unfold broker_subscribe. by destruct (hub_subscribe _ _ _). }
    destruct (hub_subscribe _ _ _) as [h r]. destruct Hs as (M' & Hsub & HT' & _ & _ & Hk).
    apply (followed_quietly M M'); rewrite ?Hst; [done| |done|by intros r' l _ ?; apply Hk].
    rewrite Ha. by apply (tracks_broker M).
  - apply (followed_quietly M M); [done| |done|].
    + rewrite Ha. apply (tracks_broker M); [done|done| |done]. apply table_made; [done|].
      cbn. unfold poll_next. destruct (bc_recv_frame rx (heap_of w)) as [Hmade _].
      destruct (bc_try_recv rx _) as [heap o]. by destruct o.
    + intros r l Hr Hcar. cbn. unfold poll_next. destruct (bc_recv_frame rx (heap_of w)) as [_ Hlive].
      destruct (bc_try_recv rx _) as [heap o]. destruct Hcar as (Hl & Hw & Hm).
      destruct (Hlive r) as (Hl' & Hw' & Hm'); [by intros ->|done|].
      unfold carried. by destruct o; cbn in *; rewrite Hw', Hm'.
  - destruct (table_remove t M _ _ Htab) as [HT' Hk].
    apply (followed_quietly M M); [done| |done|by intros r l _ ?; apply Hk].
    rewrite Ha. by apply (tracks_broker M).
  - apply (followed_quietly M M); [done| |done|done]. rewrite Ha.
    apply (tracks_broker M); [done|done|done|]. cbn. by rewrite Hf.
  - apply (followed_quietly M M); [done| |done|done]. rewrite Ha. by apply (tracks_broker M).
  - apply (followed_quietly M M); [done| |done|done]. rewrite Ha. by apply (tracks_broker M).
Qed.

(** A trace, as the abstract publications have it. *)
Lemma follow_trace M w a ops :
  tracks M w a → ∃ M', M ⊆ M' ∧ tracks M' (run_net w ops) (foldl air_step a ops) ∧
    ∀ c r l, M !! c = Some (source r) → BPoll r ∉ ops → carried (heap_of w) r l →
      carried (heap_of (run_net w ops)) r (l ++ heard c a ops).
Proof using BOk.
  revert M w a. induction ops as [|op ops IHl]; intros M w a HT; cbn [foldl heard].
  { exists M. split_and!; [done|done|]. intros c r l _ _ Hl. by rewrite app_nil_r. }
  destruct (follow_step M w a op HT) as (M1 & Hsub1 & HT1 & Hg1).
  destruct (IHl M1 _ _ HT1) as (M2 & Hsub2 & HT2 & Hg2).
  exists M2. split_and!; [by etrans|done|]. intros c r l Hc [Hr1 Hr2]%not_elem_of_cons Hl.
  rewrite (assoc_L (++)). change (run_net w (op :: ops)) with (run_net (net_step w op) ops).
  apply Hg2; [by eapply lookup_weaken|done|]. by apply Hg1; [done|intros ->|].
Qed.

Lemma tracks_new heap : tracks ∅ (net_new heap) air_new.
Proof using.
  split; [|done|done|constructor]. split; cbn.
  - intros c s. by rewrite lookup_empty.
  - intros c c' s. by rewrite lookup_empty.
  - intros t n s. by rewrite lookup_empty.
  - intros t. by rewrite !lookup_empty.
Qed.

(** *** The subscriber *)

(** Polling the stream [n] times. *)
Fixpoint poll_n (n : nat) (rx : Receiver) (heap : bc_heap)
    : list (option (result NetworkError SectorBytes)) :=
  match n with
  | 0 => []
  | S n' => let (heap, item) := poll_next rx heap in item :: poll_n n' rx heap
  end.

(** A poll that brings no sector: pending, or the end of the subscription. *)
Definition idle (item : option (result NetworkError SectorBytes)) : Prop :=
  item = None ∨ item = Some (Err SubscriptionClosed).

Lemma poll_idle k r heap :
  live heap r → missed heap r = 0 → waiting heap r = [] →
  Forall idle (poll_n k r heap) ∧ length (poll_n k r heap) = k.
Proof using BOk.
  revert heap. induction k as [|k IHk]; intros heap Hl Hm Hw; cbn [poll_n]; [by split|].
  destruct (bc_recv_idle r heap Hl Hm Hw) as (heap' & o & Hr & Ho & Hl' & Hm' & Hw').
  destruct (IHk heap' Hl' Hm' Hw') as [H1 H2]. unfold poll_next at 1 2. rewrite Hr.
  destruct Ho as [-> | ->]; cbn [length]; (split; [constructor; [unfold idle; auto|done]|by rewrite H2]).
Qed.

Lemma poll_waiting k r heap l :
  live heap r → missed heap r = 0 → waiting heap r = l →
  ∃ rest, poll_n (length l + k) r heap = ((λ b, Some (Ok b)) <$> l) ++ rest ∧
    Forall idle rest ∧ length rest = k.
Proof using BOk.
  revert heap. induction l as [|b l IHl]; intros heap Hl Hm Hw; cbn [length Nat.add].
  { destruct (poll_idle k r heap Hl Hm Hw). eauto. }
  destruct (bc_recv_spec r heap b l Hl Hm Hw) as (heap' & Hr & Hl' & Hm' & Hw').
  destruct (IHl heap' Hl' Hm' Hw') as (rest & Hp & ? & ?). exists rest.
  cbn [poll_n]. unfold poll_next at 1. by rewrite Hr, Hp.
Qed.

Lemma poll_carried k r heap l :
  carried heap r l →
  let kept := lastn BROKER_CAPACITY l in
  let lag := if length l <=? BROKER_CAPACITY then [] else [None] in
  ∃ rest, poll_n (length lag + length kept + k) r heap =
      lag ++ ((λ b, Some (Ok b)) <$> kept) ++ rest ∧
    Forall idle rest ∧ length rest = k.
Proof using BOk.
  intros (Hl & Hw & Hm). cbv zeta. destruct (Nat.leb_spec (length l) BROKER_CAPACITY) as [Hle|Hlt].
  { apply (poll_waiting k r heap); [done|lia|done]. }
  destruct (missed heap r) as [|n] eqn:Hn; [lia|].
  destruct (bc_recv_lagged r heap n Hl Hn) as (heap' & Hr & Hl' & Hm' & Hw').
  destruct (poll_waiting k r heap' (lastn BROKER_CAPACITY l)) as (rest & Hp & ? & ?);
    [done|done|by rewrite Hw'|]. exists rest.
  change (length [None] + length (lastn BROKER_CAPACITY l) + k)
    with (S (length (lastn BROKER_CAPACITY l) + k)).
  cbn [poll_n]. unfold poll_next at 1. by rewrite Hr, Hp.
Qed.

(** What a subscriber has in store. *)
Lemma subscriber_carries heap before t ops :
  let w := run_net (net_new heap) before in
  ∃ st r, broker_subscribe t (nt_broker w) = (st, Ok r) ∧
    (BPoll r ∉ ops → carried (heap_of (run_net (with_broker st w) ops)) r (deliveries t before ops)).
Proof using BOk.
  cbv zeta. destruct (follow_trace ∅ _ _ before (tracks_new heap)) as (M & _ & HT & _).
  set (w := run_net _ before) in *. unfold deliveries. set (a := foldl air_step air_new before) in *.
  pose proof (table_subscribe t M _ _ (tr_table _ _ _ HT)) as Hs. unfold broker_subscribe.
  destruct (hub_subscribe _ _ _) as [h r]. destruct Hs as (M' & Hsub & HT' & Hc & Hcar & _).
  eexists _, r. split; [done|]. intros Hr.
  pose proof (tracks_broker M M' (ai_number a) (ai_faults a) w a
    (mkBroker (br_published (nt_broker w)) h (br_faults (nt_broker w))) HT Hsub HT' (tr_faults _ _ _ HT))
    as HT1.
  destruct (follow_trace M' _ _ ops HT1) as (_ & _ & _ & Hg). destruct a.
  by apply (Hg (t, _) r [] Hc Hr).
Qed.
End broker_laws.

(** ** Properties *)

Section broker_props.
Context `{BC : Broadcast} `{BOk : !BroadcastOk}.

Lemma send_all n s b due i (w : net) :
  nt_flights w !! i = Some (Some (mkFlight s n b due)) → (due <= nt_clock w)%Z →
  nt_broker (run_net w (replicate n (BSend i))) = publish_end s n b (nt_broker w).
Proof using.
  revert w. induction n as [|n IHn]; intros w Hi Hdue.
  { change (run_net w (replicate 0 _)) with w. by destruct (nt_broker w). }
  cbn [replicate]. change (run_net w (?op :: ?l)) with (run_net (net_step w op) l).
  cbn [net_step]. unfold net_send. rewrite Hi, (proj2 (Z.leb_le _ _) Hdue).
  apply IHn; [|done]. cbn [nt_flights]. apply list_lookup_insert_eq. by eapply lookup_lt_Some.
Qed.

(** [publish] with nothing in between is its steps in a row. *)
Lemma publish_alone t b (w : net) : ∃ ms n,
  nt_broker (run_net w (BPublish t b :: BTick ms :: replicate n (BSend (length (nt_flights w))))) =
  (broker_publish t b (nt_broker w)).1.
Proof using.
  change (run_net w (?op :: ?op' :: ?l)) with (run_net (net_step (net_step w op) op') l).
  cbn [net_step]. unfold net_publish, broker_publish.
  destruct (publish_begin t b (nt_broker w)) as [st [[[s n] delay]|]].
  - exists (default (umk 64 0) delay), n. cbn [fst].
    rewrite (send_all n s b (nt_clock w + match delay with Some ms => uval ms | None => 0 end)%Z);
      [done| |cbn; by destruct delay].
    cbn [nt_flights]. rewrite lookup_app_r by lia. by rewrite Nat.sub_diag.
  - by exists (umk 64 0), 0.
Qed.

(** C19: take a broker in any reachable state, publications asleep or half sent included, and a
    subscriber to a topic. During any interleaving of the tasks (publications begin, wait for
    their delays, send each copy and are dropped; others subscribe, poll and unsubscribe;
    faults are injected and cleared; time passes), its channel carries exactly [deliveries]:
    per publication begun under the topic's present number the copies its faults ask for, each
    at the moment it is sent, which is never before its delay is over. Polled afterwards, the
    subscriber gets these, in order and each once, and then nothing however often it polls;
    beyond the 256 a channel retains, one poll brings nothing and the newest 256 follow. *)
Theorem broker_delivery heap before t ops k :
  let w := run_net (net_new heap) before in
  let d := deliveries t before ops in
  let kept := lastn BROKER_CAPACITY d in
  let lag := if length d <=? BROKER_CAPACITY then [] else [None] in
  ∃ st r, broker_subscribe t (nt_broker w) = (st, Ok r) ∧
    (BPoll r ∉ ops → ∃ rest,
       poll_n (length lag + length kept + k) r
           (hub_heap (br_hub (nt_broker (run_net (with_broker st w) ops)))) =
         lag ++ ((λ b, Some (Ok b)) <$> kept) ++ rest ∧
       Forall idle rest ∧ length rest = k).
Proof using BOk.
  destruct (subscriber_carries heap before t ops) as (st & r & Hs & Hcar).
  exists st, r. split; [exact Hs|]. intros Hr. by apply poll_carried, Hcar.
Qed.

(** Within the capacity, the first polls. *)
Lemma subscriber_polls heap before t ops :
  let w := run_net (net_new heap) before in
  let d := deliveries t before ops in
  ∃ st r, broker_subscribe t (nt_broker w) = (st, Ok r) ∧
    (BPoll r ∉ ops → length d ≤ BROKER_CAPACITY →
     poll_n (length d) r (hub_heap (br_hub (nt_broker (run_net (with_broker st w) ops)))) =
       (λ b, Some (Ok b)) <$> d).
Proof using BOk.
  cbv zeta. destruct (subscriber_carries heap before t ops) as (st & r & Hs & Hcar).
  exists st, r. split; [exact Hs|]. intros Hr Hlen.
  destruct (poll_carried 0 _ _ _ (Hcar Hr)) as (rest & Hp & _ & Hnil%nil_length_inv).
  rewrite (proj2 (Nat.leb_le _ _) Hlen), lastn_all in Hp by done.
  by rewrite Hnil, Nat.add_0_r, app_nil_r in Hp.
Qed.
End broker_props.

(** ** Witness *)

Definition sample_heap : @bc_heap mem_broadcast := MemHeap 0 [].
Definition topic_a : rstr := rstr_of "a".
Definition topic_b : rstr := rstr_of "b".

(** The first publication is still asleep when the subscriber comes, and is overtaken by the
    second and the third, which is sent twice; the fourth is dropped, the last one begins
    after the topic was given up. *)
Definition sample_before : list (@broker_op mem_broadcast) :=
  [BFault topic_a (Delay (umk 64 100)); BPublish topic_a [Byte.x01]; BClear].
Definition sample_ops : list (@broker_op mem_broadcast) :=
  [BPublish topic_a [Byte.x02]; BPublish topic_b [Byte.x09]; BSend 1; BSend 2;
   BFault topic_a Duplicate; BPublish topic_a [Byte.x03]; BSend 3; BSend 0; BSend 3; BSend 3;
   BFault topic_a Drop; BPublish topic_a [Byte.x04]; BSend 4; BTick (umk 64 100);
   BUnsubscribe topic_a; BClear; BPublish topic_a [Byte.x05]; BSend 5; BSend 0].

Lemma broker_delivery_witness :
  deliveries topic_a sample_before sample_ops = [[Byte.x02]; [Byte.x03]; [Byte.x03]; [Byte.x01]] ∧
  let w := run_net (net_new sample_heap) sample_before in
  ∃ st r, broker_subscribe topic_a (nt_broker w) = (st, Ok r) ∧ ∃ rest,
    poll_n 6 r (hub_heap (br_hub (nt_broker (run_net (with_broker st w) sample_ops)))) =
      ((λ b, Some (Ok b)) <$> [[Byte.x02]; [Byte.x03]; [Byte.x03]; [Byte.x01]]) ++ rest ∧
    Forall idle rest ∧ length rest = 2.
Proof.
  assert (deliveries topic_a sample_before sample_ops = [[Byte.x02]; [Byte.x03]; [Byte.x03]; [Byte.x01]])
    as Hd by (vm_compute; reflexivity).
  split; [exact Hd|]. pose proof (broker_delivery sample_heap sample_before topic_a sample_ops 2) as H.
  cbv zeta in H. rewrite Hd in H. destruct H as (st & r & Hs & H). exists st, r. split; [exact Hs|].
  apply H. unfold sample_ops. rewrite !not_elem_of_cons. split_and!; try discriminate.
  intros Hin. inversion Hin.
Defined.
