(* ===== verification/RealClient.v ===== *)
(** * The live client ([zero-network/src/real.rs])

    [grid_net] is an interface: parsing of addresses, the service and its calls. Of its events
    the model has the ones the source tells apart. The event loop and the clients share the
    topic table; what one task does between two awaits is one step, so a method of the client
    is the steps it takes with the loop's steps between them as an argument. *)

From Stdlib Require Import ZArith Lia.
From stdpp Require Import base tactics gmap strings sorting numbers countable list.
From S2P Require Import Prelude Bytes Net Broadcast.
#[local] Open Scope nat_scope.

(** ** [grid_net] *)

Class GridNet : Type := {
  Multiaddr : Type;
  ZodeId : Type;
  NetworkService : Type;
  strip_zx_multiaddr : string → string;
  multiaddr_from_str : string → result string Multiaddr;
  extract_dial_target : Multiaddr → option ZodeId;
  (* [Multiaddr::from_str(LISTEN_ADDR)], a valid literal *)
  listen_addr : Multiaddr;
  (* [NetworkService::new] on the configuration for this listen address and bootstrap peer *)
  service_new : Multiaddr → Multiaddr → result string NetworkService;
  service_subscribe : rstr → NetworkService → NetworkService * result string ();
  service_unsubscribe : rstr → NetworkService → NetworkService * result string ();
  service_publish : rstr → bytes → NetworkService → NetworkService * result string ();
}.

Definition TOPIC_CHANNEL_CAPACITY : nat := 256.

Section real.
Context `{GN : GridNet} `{!EqDecision ZodeId} `{BC : Broadcast}.

Inductive NetworkEvent : Type :=
| PeerConnected (peer : ZodeId)
| ConnectionFailed (peer : option ZodeId) (error : string)
| GossipMessage (topic : rstr) (data : bytes)
| OtherEvent.

(** ** Dialling *)

(** [await_dial_completion] on the events the service reports: [Some r] when it returns [r],
    [None] when it still waits after them; a [None] among them is the end of the stream. *)
Fixpoint await_dial_completion (target_peer : option ZodeId) (events : list (option NetworkEvent))
    : option (result NetworkError ()) :=
  match events with
  | [] => None
  | None :: _ => Some (Err (NetOther "grid network event stream ended unexpectedly"))
  | Some (PeerConnected peer) :: rest =>
      if bool_decide (target_peer = None) || bool_decide (target_peer = Some peer) then Some (Ok ())
      else await_dial_completion target_peer rest
  | Some (ConnectionFailed peer error) :: rest =>
      if bool_decide (peer = target_peer) || bool_decide (target_peer = None)
      then Some (Err (NetOther ("dial failed: " +:+ error)))
      else await_dial_completion target_peer rest
  | Some _ :: rest => await_dial_completion target_peer rest
  end.

(** ** The event loop *)

(** The messages of the command channel, each answered through its reply. *)
Inductive Command : Type :=
| CmdSubscribe (topic : rstr)
| CmdUnsubscribe (topic : rstr)
| CmdPublish (topic : rstr) (data : SectorBytes).

Definition handle_command (cmd : Command) (service : NetworkService)
    : NetworkService * result NetworkError () :=
  match cmd with
  | CmdSubscribe topic =>
      let (service, res) := service_subscribe topic service in
      (service, map_err (λ e, NetOther ("subscribe failed: " +:+ e)) res)
  | CmdUnsubscribe topic =>
      let (service, res) := service_unsubscribe topic service in
      (service, map_err (λ e, NetOther ("unsubscribe failed: " +:+ e)) res)
  | CmdPublish topic data =>
      let (service, res) := service_publish topic data service in
      (service, map_err (λ e, NetOther ("publish failed: " +:+ e)) res)
  end.

(** What [select!] wakes up with. *)
Inductive loop_event : Type :=
| LShutdown
| LCommand (cmd : option Command)
| LEvent (event : option NetworkEvent).

(** The client and its loop: the address, the service the loop owns, the shared table, and
    whether the loop runs. *)
Record RealGridClient : Type := mkRealClient {
  rg_multiaddr : string;
  rg_service : NetworkService;
  rg_topics : hub;
  rg_running : bool;
}.

Definition set_service (service : NetworkService) (c : RealGridClient) : RealGridClient :=
  mkRealClient (rg_multiaddr c) service (rg_topics c) (rg_running c).
Definition set_topics (topics : hub) (c : RealGridClient) : RealGridClient :=
  mkRealClient (rg_multiaddr c) (rg_service c) topics (rg_running c).
Definition stop (c : RealGridClient) : RealGridClient :=
  mkRealClient (rg_multiaddr c) (rg_service c) (rg_topics c) false.

(** One turn of [event_loop]; a loop that has ended does nothing. *)
Definition event_loop (c : RealGridClient) (e : loop_event) : RealGridClient :=
  if negb (rg_running c) then c
  else
    match e with
    | LShutdown | LCommand None | LEvent None => stop c
    | LCommand (Some cmd) => set_service (handle_command cmd (rg_service c)).1 c
    | LEvent (Some (GossipMessage topic data)) =>
        match hub_topics (rg_topics c) !! topic with
        | Some tx => set_topics (hub_send tx data (rg_topics c)) c
        | None => c
        end
    | LEvent (Some _) => c
    end.

(** [RealGridClient::connect_with_timeout]; [events] is what the service reports within the
    timeout. *)
Definition connect_with_timeout (multiaddr : string) (events : list (option NetworkEvent))
    (heap : bc_heap) : result NetworkError RealGridClient :=
  let parsed_str := strip_zx_multiaddr multiaddr in
  dial_addr ← map_err (λ e, NetOther ("invalid multiaddr `" +:+ multiaddr +:+ "`: " +:+ e))
    (multiaddr_from_str parsed_str);
  let target_peer := extract_dial_target dial_addr in
  service ← map_err (λ e, NetOther ("network init failed: " +:+ e)) (service_new listen_addr dial_addr);
  match await_dial_completion target_peer events with
  | Some (Ok _) => Ok (mkRealClient multiaddr service (mkHub ∅ heap) true)
  | Some (Err e) => Err e
  | None => Err Timeout
  end.

(** ** Steps of all tasks *)

(** The first part of [subscribe], under the lock of the table. *)
Definition attach (topic : rstr) (c : RealGridClient) : RealGridClient * Receiver :=
  let (topics, rx) := hub_subscribe TOPIC_CHANNEL_CAPACITY topic (rg_topics c) in
  (set_topics topics c, rx).

(** The last part of [unsubscribe]. *)
Definition forget (topic : rstr) (c : RealGridClient) : RealGridClient :=
  set_topics (hub_remove topic (rg_topics c)) c.

(** What the loop and the calls of other tasks do between two awaits. *)
Inductive client_step : Type :=
| SAttach (topic : rstr)
| SForget (topic : rstr)
| SLoop (e : loop_event).

Definition take_step (c : RealGridClient) (a : client_step) : RealGridClient :=
  match a with
  | SAttach topic => (attach topic c).1
  | SForget topic => forget topic c
  | SLoop e => event_loop c e
  end.

(** ** The methods *)

(** [send_command]: [queued] is what happens while the call waits for room in the command
    channel, which holds 64, and [before] what happens while the command waits in it. *)
Definition send_command (queued before : list client_step) (cmd : Command)
    : io RealGridClient NetworkError () := λ c,
  let c := foldl take_step c queued in
  if negb (rg_running c) then (c, Err (NetOther "grid event loop terminated"))
  else
    let c := foldl take_step c before in
    if negb (rg_running c) then (c, Err (NetOther "grid event loop dropped command reply"))
    else
      let (service, reply) := handle_command cmd (rg_service c) in
      (set_service service c, reply).

Definition real_publish (queued before : list client_step) (topic : rstr)
    (sector_bytes : SectorBytes) : io RealGridClient NetworkError () :=
  send_command queued before (CmdPublish topic sector_bytes).

Definition real_subscribe (queued before : list client_step) (topic : rstr)
    : io RealGridClient NetworkError Receiver := λ c,
  let (c, rx) := attach topic c in
  (send_command queued before (CmdSubscribe topic);; mret rx) c.

Definition real_unsubscribe (queued before : list client_step) (topic : rstr)
    : io RealGridClient NetworkError () := λ c,
  let (c, outcome) := send_command queued before (CmdUnsubscribe topic) c in
  (forget topic c, outcome).

(** The items of the returned stream: a lag report becomes an error item. *)
Definition stream_item (item : result string SectorBytes) : result NetworkError SectorBytes :=
  map_err (λ e, NetOther ("broadcast lag: " +:+ e)) item.

(** The client when nothing else happens during its calls. *)
Definition RealGridClient_grid : GridClient :=
  {| grid_state := RealGridClient; grid_stream := Receiver; publish := real_publish [] [];
     subscribe := real_subscribe [] []; unsubscribe := real_unsubscribe [] [] |}.

(** The gossip on [t] that arrives while the loop runs and until [t] is forgotten. *)
Fixpoint gossip (t : rstr) (steps : list client_step) : list bytes :=
  match steps with
  | [] => []
  | SForget t' :: rest => if bool_decide (t' = t) then [] else gossip t rest
  | SLoop (LShutdown | LCommand None | LEvent None) :: _ => []
  | SLoop (LEvent (Some (GossipMessage t' data))) :: rest =>
      if bool_decide (t' = t) then data :: gossip t rest else gossip t rest
  | _ :: rest => gossip t rest
  end.
End real.

(** ** Delivery *)

Section real_laws.
Context `{GN : GridNet} `{EZ : !EqDecision ZodeId} `{BC : Broadcast} `{BOk : !BroadcastOk}.
Abbreviation cap := TOPIC_CHANNEL_CAPACITY.

Lemma event_loop_table c e :
  hub_wf cap (rg_topics c) →
  hub_wf cap (rg_topics (event_loop c e)) ∧
  (∀ r l, detached (rg_topics c) r l → detached (rg_topics (event_loop c e)) r l).
Proof using.
  intros Hw. unfold event_loop. destruct (rg_running c); cbn [negb]; [|done].
  destruct e as [|[cmd|]|[[p|p er|t b|]|]]; try done.
  destruct (hub_topics (rg_topics c) !! t) as [tx|] eqn:Ht; [|done].
  by destruct (hub_send_spec cap t tx b (rg_topics c) Hw Ht) as (? & _ & _ & _ & ?).
Qed.

Lemma attach_table c t :
  hub_wf cap (rg_topics c) →
  let (c', r) := attach t c in
  hub_wf cap (rg_topics c') ∧ rg_running c' = rg_running c ∧ tuned (rg_topics c') t r [] ∧
  (∀ t' r' l, tuned (rg_topics c) t' r' l → tuned (rg_topics c') t' r' l) ∧
  (∀ r' l, detached (rg_topics c) r' l → detached (rg_topics c') r' l).
Proof using.
  intros Hw. unfold attach. pose proof (hub_subscribe_spec cap 8 t (rg_topics c) eq_refl Hw) as Hs.
  destruct (hub_subscribe _ _ _) as [h r]. destruct Hs as (? & ? & ? & ?). by split_and!.
Qed.

Lemma take_step_wf c a : hub_wf cap (rg_topics c) → hub_wf cap (rg_topics (take_step c a)).
Proof using BOk.
  intros Hw. destruct a as [t|t|e]; cbn [take_step].
  - pose proof (attach_table c t Hw) as Ha. destruct (attach t c). by destruct Ha.
  - by destruct (hub_remove_spec cap t (rg_topics c) Hw).
  - by apply event_loop_table.
Qed.

Lemma take_steps_wf c steps :
  hub_wf cap (rg_topics c) → hub_wf cap (rg_topics (foldl take_step c steps)).
Proof using BOk.
  revert c. induction steps as [|a steps IHl]; intros c Hw; cbn [foldl]; [done|].
  by apply IHl, take_step_wf.
Qed.

(** A loop that has ended does not start again. *)
Lemma running_stays c steps : rg_running c = false → rg_running (foldl take_step c steps) = false.
Proof using.
  revert c. induction steps as [|a steps IHl]; intros c Hc; cbn [foldl]; [done|]. apply IHl.
  destruct a as [t|t|e]; cbn [take_step]; [|done|by unfold event_loop; rewrite Hc].
  unfold attach. by destruct (hub_subscribe _ _ _).
Qed.

(** A receiver of a forgotten channel, or of any when the loop has ended, receives no more. *)
Lemma client_quiet steps c t r l :
  hub_wf cap (rg_topics c) →
  (detached (rg_topics c) r l ∨ (rg_running c = false ∧ tuned (rg_topics c) t r l)) →
  let heap := hub_heap (rg_topics (foldl take_step c steps)) in
  live heap r ∧ missed heap r = 0 ∧ waiting heap r = l.
Proof using.
  revert c. induction steps as [|a steps IHl]; intros c Hw Hq; cbn [foldl].
  { by destruct Hq as [(_ & _ & ? & ? & ?)|[_ (_ & ? & ? & ?)]]. }
  apply IHl; [by apply take_step_wf|]. destruct a as [t'|t'|e]; cbn [take_step].
  - pose proof (attach_table c t' Hw) as Ha. destruct (attach t' c) as [c' r'].
    destruct Ha as (_ & Hrun & _ & Ht & Hd). cbn [fst]. destruct Hq as [?|[??]]; [auto|].
    right. rewrite Hrun. auto.
  - destruct (hub_remove_spec cap t' (rg_topics c) Hw) as (_ & Hsame & Ho & Hd).
    destruct Hq as [?|[? Ht]]; [left; by apply Hd|]. destruct (decide (t = t')) as [<-|Hne].
    + left. by apply Hsame.
    + right. split; [done|by apply Ho].
  - destruct Hq as [?|[Hrun Ht]]; [left; by apply event_loop_table|]. right.
    unfold event_loop. by rewrite Hrun.
Qed.

Lemma client_tuned steps c t r l :
  hub_wf cap (rg_topics c) → rg_running c = true → tuned (rg_topics c) t r l →
  length l + length (gossip t steps) ≤ cap →
  let heap := hub_heap (rg_topics (foldl take_step c steps)) in
  live heap r ∧ missed heap r = 0 ∧ waiting heap r = l ++ gossip t steps.
Proof using.
  revert c l. induction steps as [|a steps IHl]; intros c l Hw Hrun Ht Hlen.
  { cbn [foldl gossip]. rewrite app_nil_r. by destruct Ht as (_ & ? & ? & ?). }
  pose proof (take_step_wf c a Hw) as Hw'. cbn [foldl].
  destruct a as [t'|t'|e]; cbn [take_step gossip] in *.
  - pose proof (attach_table c t' Hw) as Ha. destruct (attach t' c) as [c' r'].
    destruct Ha as (_ & Hr & _ & Hkeep & _). cbn [fst] in *. apply IHl; [done|congruence|auto|done].
  - destruct (hub_remove_spec cap t' (rg_topics c) Hw) as (_ & Hsame & Ho & _).
    case_bool_decide as Hdec.
    + subst t'. rewrite app_nil_r. apply (client_quiet steps _ t); [done|]. left. by apply Hsame.
    + apply IHl; [done|done|by apply Ho|done].
  - unfold event_loop in *. rewrite Hrun in *. cbn [negb] in *.
    destruct e as [|[cmd|]|[[p|p er|t' b|]|]]; cbn [gossip] in *; try (by apply IHl);
      try (rewrite app_nil_r; apply (client_quiet steps _ t); [done|by right]).
    destruct (hub_topics (rg_topics c) !! t') as [tx|] eqn:Htx.
    + destruct (hub_send_spec cap t' tx b (rg_topics c) Hw Htx) as (_ & _ & Hsame & Ho & _).
      case_bool_decide as Hdec.
      * subst t'. cbn [length] in Hlen. change (b :: gossip t steps) with ([b] ++ gossip t steps).
        rewrite (assoc_L (++)). apply IHl; [done|done| |rewrite length_app; cbn [length]; lia].
        apply Hsame; [done|lia].
      * apply IHl; [done|done|by apply Ho; [congruence|]|done].
    + assert (t' ≠ t) as Hne by (intros ->; destruct Ht as [Ht _]; congruence).
      rewrite bool_decide_false in Hlen |- * by done. by apply IHl.
Qed.

(** A command taken up is no gossip. *)
Lemma gossip_command t cmd l1 l2 :
  gossip t (l1 ++ SLoop (LCommand (Some cmd)) :: l2) = gossip t (l1 ++ l2).
Proof using.
  induction l1 as [|a l1 IHl]; [done|]. cbn [app].
  destruct a as [t'|t'|[|[cmd'|]|[[p|p er|t' b|]|]]]; cbn [gossip]; rewrite ?IHl; done.
Qed.

(** C18: no message is lost while a subscription is set up: once [subscribe] has returned, its
    receiver holds every gossip message on the topic that the loop took up since the call
    began, also before the service was asked to subscribe, until the topic is forgotten or the
    loop ends, and nothing else, up to the 256 a channel retains. Meanwhile the loop and the
    calls of other tasks do what they do. A call whose loop is gone before its command is in
    the channel, or ends before answering, fails as such. *)
Theorem subscribe_no_gap c queued before t after :
  hub_wf cap (rg_topics c) →
  let (c1, res) := real_subscribe queued before t c in
  hub_wf cap (rg_topics c1) ∧
  match res with
  | Ok r =>
      let d := gossip t (queued ++ before ++ after) in
      let heap := hub_heap (rg_topics (foldl take_step c1 after)) in
      length d ≤ cap → missed heap r = 0 ∧ waiting heap r = d
  | Err e =>
      let accepted := rg_running (foldl take_step (attach t c).1 queued) in
      (rg_running c = false → accepted = false) ∧
      (accepted = false → e = NetOther "grid event loop terminated") ∧
      (accepted = true → rg_running c1 = false →
         e = NetOther "grid event loop dropped command reply")
  end.
Proof using BOk.
  intros Hw. unfold real_subscribe. pose proof (attach_table c t Hw) as Ha.
  destruct (attach t c) as [c0 r]. destruct Ha as (Hw0 & Hrun0 & Ht0 & _ & _). cbn [fst].
  unfold send_command, mbind, io_bind.
  pose proof (take_steps_wf c0 queued Hw0) as Hw1.
  pose proof (take_steps_wf _ before Hw1) as Hw2.
  set (cq := foldl take_step c0 queued) in *. set (cb := foldl take_step cq before) in *.
  assert (rg_running c = false → rg_running cq = false) as Hgone.
  { intros Hc. rewrite <-Hrun0 in Hc. by apply running_stays. }
  destruct (rg_running cq) eqn:Hrq; cbn [negb]; [|by split_and!].
  destruct (rg_running cb) eqn:Hrb; cbn [negb]; [|by split_and!].
  destruct (handle_command (CmdSubscribe t) (rg_service cb)) as [svc [[]|e]] eqn:Hcmd.
  2:{ split; [done|]. split_and!; [done|done|]. cbn [set_service rg_running]. congruence. }
  split; [done|]. cbv zeta. rewrite (assoc_L (++)), <-(gossip_command t (CmdSubscribe t)). intros Hlen.
  set (steps := (queued ++ before) ++ SLoop (LCommand (Some (CmdSubscribe t))) :: after) in *.
  assert (foldl take_step (set_service svc cb) after = foldl take_step c0 steps) as ->.
  { unfold steps. rewrite !foldl_app. cbn [foldl take_step]. fold cq. fold cb. unfold event_loop.
    by rewrite Hrb, Hcmd. }
  destruct (client_tuned steps c0 t r [] Hw0) as (_ & ? & ?); [|done|exact Hlen|done].
  destruct (rg_running c0) eqn:Hr0; [done|]. by specialize (Hgone (eq_sym Hrun0)).
Qed.
End real_laws.

(** With a target, only the target's own connection completes the dial: a relay's does not. *)
Lemma dial_needs_target `{GN : GridNet} `{!EqDecision ZodeId} p events :
  await_dial_completion (Some p) events = Some (Ok ()) → Some (PeerConnected p) ∈ events.
Proof.
  induction events as [|[[q|q er|t b|]|] events IHl]; cbn [await_dial_completion];
    rewrite ?elem_of_cons; try done.
  - rewrite (bool_decide_false (Some p = None)) by done. cbn [orb].
    case_bool_decide as Hq; [injection Hq as ->; auto|auto].
  - rewrite (bool_decide_false (Some p = None)) by done. case_bool_decide; [done|cbn; auto].
  - auto.
  - auto.
Qed.

(** ** Witness *)

Definition mem_net : GridNet :=
  {| Multiaddr := string; ZodeId := nat; NetworkService := list rstr;
     strip_zx_multiaddr s := s; multiaddr_from_str := Ok; extract_dial_target _ := None;
     listen_addr := EmptyString; service_new _ _ := Ok [];
     service_subscribe t s := (t :: s, Ok ()); service_unsubscribe t s := (s, Ok ());
     service_publish _ _ s := (s, Ok ()) |}.
#[local] Existing Instance mem_net.

Definition live_client : RealGridClient :=
  mkRealClient EmptyString ([] : NetworkService) (mkHub ∅ (MemHeap 0 [] : bc_heap)) true.
Definition news : rstr := rstr_of "news".
Definition other : rstr := rstr_of "other".

Lemma live_client_wf : hub_wf TOPIC_CHANNEL_CAPACITY (rg_topics live_client).
Proof. split; intros *; cbn; by rewrite lookup_empty. Qed.

(** Two messages arrive before the service is asked to subscribe, one after. *)
Definition early : list client_step :=
  [SLoop (LEvent (Some (GossipMessage news [Byte.x01]))); SAttach other;
   SLoop (LEvent (Some (GossipMessage other [Byte.x02])))].
Definition late : list client_step :=
  [SLoop (LEvent (Some (GossipMessage news [Byte.x03]))); SForget news;
   SLoop (LEvent (Some (GossipMessage news [Byte.x04])))].

Lemma subscribe_no_gap_witness :
  match real_subscribe [] early news live_client with
  | (c1, Ok r) =>
      waiting (hub_heap (rg_topics (foldl take_step c1 late))) r = [[Byte.x01]; [Byte.x03]]
  | (_, Err _) => False
  end.
Proof.
  pose proof (subscribe_no_gap live_client [] early news late live_client_wf) as H.
  assert (gossip news ([] ++ early ++ late) = [[Byte.x01]; [Byte.x03]]) as Hg
    by (vm_compute; reflexivity).
  assert (is_ok (real_subscribe [] early news live_client).2 = true) as Hok by (vm_compute; reflexivity).
  destruct (real_subscribe [] early news live_client) as [c1 [r|e]]; [|discriminate Hok].
  destruct H as [_ H]. rewrite Hg in H. apply H. apply Nat.leb_le. reflexivity.
Defined.
