(* ===== verification/Crypto.v ===== *)
(** * Hybrid encryption and dual signatures ([zero-crypto/src/encrypt.rs], [sign.rs])

    The cryptographic crates are interfaces: what each function takes and returns, and for
    the theorems the equations their documentation states (agreement, decapsulation,
    decryption and verification of what was made with the matching key). Randomness is an
    argument, one per draw and in the order of the draws. *)

From Stdlib Require Import ZArith Lia.
From stdpp Require Import base tactics gmap strings sorting numbers countable list.
From S2P Require Import Prelude Bytes Store Mem Aad.
#[local] Open Scope nat_scope.

(** ** The primitives *)

(** [chacha20poly1305]: keys are checked by [new_from_slice]; [None] is the crate's opaque
    error. *)
Class ChaCha20Poly1305 : Type := {
  chacha_cipher : Type;
  chacha_new : bytes → result string chacha_cipher;
  chacha_encrypt : chacha_cipher → arr 12 → bytes → bytes → option bytes;
  chacha_decrypt : chacha_cipher → arr 12 → bytes → bytes → option bytes;
}.

Class ChaChaOk `{CC : ChaCha20Poly1305} : Type := {
  chacha_limit : nat;
  chacha_new_32 (k : arr 32) : ∃ c, chacha_new (arr_bytes k) = Ok c;
  chacha_encrypt_some c n aad m :
    length m ≤ chacha_limit → is_Some (chacha_encrypt c n aad m);
  chacha_roundtrip c n aad m ct :
    chacha_encrypt c n aad m = Some ct → chacha_decrypt c n aad ct = Some m;
  chacha_canonical c n aad m ct :
    chacha_decrypt c n aad ct = Some m → chacha_encrypt c n aad m = Some ct;
}.

(** [Hkdf::<Sha256>::new(None, ikm)] expanded by [info] to 32 bytes; the expansion of so
    short an output cannot fail. *)
Class HkdfSha256 : Type := { hkdf_expand : bytes → bytes → arr 32 }.

(** [x25519_dalek] *)
Class X25519 : Type := {
  x25519_public : arr 32 → arr 32;
  diffie_hellman : arr 32 → arr 32 → arr 32;
}.

Class X25519Ok `{XX : X25519} : Prop := {
  dh_agree a b : diffie_hellman a (x25519_public b) = diffie_hellman b (x25519_public a);
}.

(** [ml_kem::MlKem768]: keys and ciphertexts have fixed-size encodings, which [.._try]
    recognises by their length. *)
Class MlKem768 : Type := {
  kem_rng : Type;
  DecapsulationKey : Type;
  EncapsulationKey : Type;
  KemCiphertext : Type;
  dk_bytes : DecapsulationKey → bytes;
  dk_try : bytes → option DecapsulationKey;
  ek_bytes : EncapsulationKey → bytes;
  ek_try : bytes → option EncapsulationKey;
  ct_bytes : KemCiphertext → bytes;
  ct_try : bytes → option KemCiphertext;
  mlkem_generate : kem_rng → DecapsulationKey * EncapsulationKey;
  encapsulate : EncapsulationKey → kem_rng → result string (KemCiphertext * arr 32);
  decapsulate : DecapsulationKey → KemCiphertext → result string (arr 32);
}.

Class MlKemOk `{KK : MlKem768} : Type := {
  kem_ct_len : nat;
  kem_ct_len_pos : 0 < kem_ct_len;
  dk_roundtrip k : dk_try (dk_bytes k) = Some k;
  ek_roundtrip k : ek_try (ek_bytes k) = Some k;
  ct_roundtrip c : ct_try (ct_bytes c) = Some c;
  ct_canonical b c : ct_try b = Some c → ct_bytes c = b;
  ct_len c : length (ct_bytes c) = kem_ct_len;
  encapsulate_ok k r : ∃ c ss, encapsulate k r = Ok (c, ss);
  decapsulate_ok r r' c ss :
    encapsulate (mlkem_generate r).2 r' = Ok (c, ss) →
    decapsulate (mlkem_generate r).1 c = Ok ss;
}.

(** [ed25519_dalek] *)
Class Ed25519Lib : Type := {
  EdVerifyingKey : Type;
  ed_sign : arr 32 → bytes → arr 64;
  ed_public : arr 32 → arr 32;
  ed_vk_from_bytes : arr 32 → result string EdVerifyingKey;
  ed_verify : EdVerifyingKey → bytes → arr 64 → bool;
}.

Class Ed25519Ok `{EE : Ed25519Lib} : Prop := {
  ed_correct sk : ∃ vk, ed_vk_from_bytes (ed_public sk) = Ok vk ∧
    ∀ m, ed_verify vk m (ed_sign sk m) = true;
}.

(** [pqcrypto_mldsa::mldsa65]; signing draws randomness. *)
Class MlDsa65 : Type := {
  dsa_rng : Type;
  DsaSecretKey : Type;
  DsaPublicKey : Type;
  DsaSignature : Type;
  dsa_sk_bytes : DsaSecretKey → bytes;
  dsa_sk_from_bytes : bytes → result string DsaSecretKey;
  dsa_pk_bytes : DsaPublicKey → bytes;
  dsa_pk_from_bytes : bytes → result string DsaPublicKey;
  dsa_sig_bytes : DsaSignature → bytes;
  dsa_sig_from_bytes : bytes → result string DsaSignature;
  dsa_keypair : dsa_rng → DsaPublicKey * DsaSecretKey;
  dsa_sign : bytes → DsaSecretKey → dsa_rng → DsaSignature;
  dsa_verify : DsaSignature → bytes → DsaPublicKey → bool;
}.

Class MlDsaOk `{MM : MlDsa65} : Prop := {
  dsa_sk_roundtrip k : dsa_sk_from_bytes (dsa_sk_bytes k) = Ok k;
  dsa_pk_roundtrip k : dsa_pk_from_bytes (dsa_pk_bytes k) = Ok k;
  dsa_sig_roundtrip s : dsa_sig_from_bytes (dsa_sig_bytes s) = Ok s;
  dsa_correct r r' m :
    dsa_verify (dsa_sign m (dsa_keypair r).2 r') m (dsa_keypair r).1 = true;
}.

(** ** [encrypt.rs] *)

Record RecipientPublicKey : Type := mkRecipientPublicKey {
  rpk_x25519 : arr 32;
  rpk_mlkem_encap_key : bytes;
}.

Record SenderPrivateKey : Type := mkSenderPrivateKey {
  spk_x25519_secret : arr 32;
  spk_mlkem_decap_key : bytes;
}.

Record HybridCiphertext : Type := mkHybridCiphertext {
  hc_kem_output : bytes;
  hc_ciphertext : bytes;
  hc_nonce : arr 12;
}.

Section encrypt.
Context `{CC : ChaCha20Poly1305} `{HK : HkdfSha256} `{XX : X25519} `{KK : MlKem768}.

Definition derive_aead_key (x25519_ss mlkem_ss : bytes) : arr 32 :=
  let ikm := x25519_ss ++ mlkem_ss in
  hkdf_expand ikm (blit "zero.hybrid.v1").

(** [random] is the drawn secret. *)
Definition generate_x25519_keypair (random : arr 32) : arr 32 * arr 32 :=
  let secret := random in
  let public := x25519_public secret in
  (secret, public).

Definition generate_mlkem_keypair (rng : kem_rng) : bytes * bytes :=
  let '(dk, ek) := mlkem_generate rng in
  (dk_bytes dk, ek_bytes ek).

Definition make_keypair (random : arr 32) (rng : kem_rng)
    : SenderPrivateKey * RecipientPublicKey :=
  let '(x_sec, x_pub) := generate_x25519_keypair random in
  let '(ml_dec, ml_enc) := generate_mlkem_keypair rng in
  (mkSenderPrivateKey x_sec ml_dec, mkRecipientPublicKey x_pub ml_enc).

(** The randomness of one encryption. *)
Record encrypt_rng : Type := mkEncryptRng {
  rng_ephemeral : arr 32;
  rng_kem : kem_rng;
  rng_nonce : arr 12;
}.

Definition hybrid_encrypt (plaintext : bytes) (recipient : RecipientPublicKey)
    (aad_bytes : bytes) (rng : encrypt_rng) : result CryptoError HybridCiphertext :=
  let eph_secret := rng_ephemeral rng in
  let eph_public := x25519_public eph_secret in
  let x25519_ss := diffie_hellman eph_secret (rpk_x25519 recipient) in
  ek ← ok_or (ek_try (rpk_mlkem_encap_key recipient))
    (MlKem "invalid encapsulation key length");
  '(mlkem_ct, mlkem_ss) ← map_err MlKem (encapsulate ek (rng_kem rng));
  let aead_key := derive_aead_key (arr_bytes x25519_ss) (arr_bytes mlkem_ss) in
  let kem_output := arr_bytes eph_public ++ ct_bytes mlkem_ct in
  let nonce := rng_nonce rng in
  cipher ← map_err Hpke (chacha_new (arr_bytes aead_key));
  ct ← ok_or (chacha_encrypt cipher nonce aad_bytes plaintext) DecryptionFailed;
  Ok (mkHybridCiphertext kem_output ct nonce).

Definition hybrid_decrypt (ciphertext : HybridCiphertext) (recipient_sk : SenderPrivateKey)
    (aad_bytes : bytes) : result CryptoError bytes :=
  if length (hc_kem_output ciphertext) <? 33 then Err DecryptionFailed
  else
    let eph_pub_bytes := take 32 (hc_kem_output ciphertext) in
    let mlkem_ct_bytes := drop 32 (hc_kem_output ciphertext) in
    eph_public ← ok_or (arr_try 32 eph_pub_bytes) DecryptionFailed;
    let x25519_ss := diffie_hellman (spk_x25519_secret recipient_sk) eph_public in
    dk ← ok_or (dk_try (spk_mlkem_decap_key recipient_sk))
      (MlKem "invalid decapsulation key length");
    mlkem_ct ← ok_or (ct_try mlkem_ct_bytes) DecryptionFailed;
    mlkem_ss ← map_err MlKem (decapsulate dk mlkem_ct);
    let aead_key := derive_aead_key (arr_bytes x25519_ss) (arr_bytes mlkem_ss) in
    cipher ← map_err Hpke (chacha_new (arr_bytes aead_key));
    ok_or (chacha_decrypt cipher (hc_nonce ciphertext) aad_bytes (hc_ciphertext ciphertext))
      DecryptionFailed.
End encrypt.

(** ** [sign.rs] *)

Record DualSignature : Type := mkDualSignature { ds_ed25519 : arr 64; ds_mldsa : bytes }.

Record SigningKeys : Type := mkSigningKeys {
  sk_ed25519_secret : arr 32;
  sk_mldsa_secret : bytes;
}.

Record VerifyingKeys : Type := mkVerifyingKeys {
  vk_ed25519_public : arr 32;
  vk_mldsa_public : bytes;
}.

Section sign.
Context `{EE : Ed25519Lib} `{MM : MlDsa65}.

Definition dual_sign (message : bytes) (keys : SigningKeys) (rng : dsa_rng)
    : result CryptoError DualSignature :=
  let ed_sig_bytes := ed_sign (sk_ed25519_secret keys) message in
  mldsa_sk ← map_err (λ e, MlDsa ("invalid ML-DSA-65 secret key: " +:+ e))
    (dsa_sk_from_bytes (sk_mldsa_secret keys));
  let mldsa_sig := dsa_sign message mldsa_sk rng in
  Ok (mkDualSignature ed_sig_bytes (dsa_sig_bytes mldsa_sig)).

Definition dual_verify (message : bytes) (sig : DualSignature) (keys : VerifyingKeys)
    : result CryptoError () :=
  ed_pk ← map_err (λ e, Ed25519 ("invalid Ed25519 public key: " +:+ e))
    (ed_vk_from_bytes (vk_ed25519_public keys));
  if ed_verify ed_pk message (ds_ed25519 sig) then
    mldsa_pk ← map_err (λ e, MlDsa ("invalid ML-DSA-65 public key: " +:+ e))
      (dsa_pk_from_bytes (vk_mldsa_public keys));
    mldsa_sig ← map_err (λ e, MlDsa ("invalid ML-DSA-65 signature: " +:+ e))
      (dsa_sig_from_bytes (ds_mldsa sig));
    if dsa_verify mldsa_sig message mldsa_pk then Ok ()
    else Err (SignatureVerificationFailed "ML-DSA-65")
  else Err (SignatureVerificationFailed "Ed25519").

Definition generate_ed25519_keypair (random : arr 32) : arr 32 * arr 32 :=
  (random, ed_public random).

Definition generate_mldsa_keypair (rng : dsa_rng) : bytes * bytes :=
  let '(pk, sk) := dsa_keypair rng in
  (dsa_sk_bytes sk, dsa_pk_bytes pk).
End sign.

(** ** Laws *)

Section crypto_laws.
Context `{CC : ChaCha20Poly1305} `{COk : !ChaChaOk} `{HK : HkdfSha256} `{XX : X25519}
  `{XOk : !X25519Ok} `{KK : MlKem768} `{KOk : !MlKemOk}.

(** What a successful decryption went through. *)
Definition decrypts (ct : HybridCiphertext) (sk : SenderPrivateKey) (aad p : bytes) : Prop :=
  ∃ eph dk c ss cipher,
    hc_kem_output ct = arr_bytes eph ++ ct_bytes c ∧
    dk_try (spk_mlkem_decap_key sk) = Some dk ∧ decapsulate dk c = Ok ss ∧
    chacha_new (arr_bytes (derive_aead_key
      (arr_bytes (diffie_hellman (spk_x25519_secret sk) eph)) (arr_bytes ss))) = Ok cipher ∧
    chacha_encrypt cipher (hc_nonce ct) aad p = Some (hc_ciphertext ct).

Lemma kem_split (eph : arr 32) (c : KemCiphertext) :
  (length (arr_bytes eph ++ ct_bytes c) <? 33) = false ∧
  arr_try 32 (take 32 (arr_bytes eph ++ ct_bytes c)) = Some eph ∧
  ct_try (drop 32 (arr_bytes eph ++ ct_bytes c)) = Some c.
Proof using KOk.
  pose proof (length_arr eph) as Hl. pose proof kem_ct_len_pos as Hp. split_and!.
  - apply Nat.ltb_ge. rewrite length_app, Hl, ct_len. lia.
  - rewrite take_app_length' by done. apply arr_try_arr.
  - rewrite drop_app_length' by done. apply ct_roundtrip.
Qed.

Lemma hybrid_decrypt_iff ct sk aad p :
  hybrid_decrypt ct sk aad = Ok p ↔ decrypts ct sk aad p.
Proof using COk KOk.
  unfold hybrid_decrypt, decrypts. split.
  - destruct (_ <? 33); [done|].
    destruct (arr_try 32 _) as [eph|] eqn:Heph; [|done]. cbn [ok_or mbind result_bind].
    destruct (dk_try _) as [dk|] eqn:Hdk; [|done]. cbn [ok_or mbind result_bind].
    destruct (ct_try _) as [c|] eqn:Hct; [|done]. cbn [ok_or mbind result_bind].
    destruct (decapsulate dk c) as [ss|] eqn:Hss; [|done]. cbn [map_err mbind result_bind].
    destruct (chacha_new _) as [cipher|] eqn:Hc; [|done]. cbn [map_err mbind result_bind].
    destruct (chacha_decrypt _ _ _ _) as [p'|] eqn:Hp; [|done]. cbn [ok_or]. intros [= ->].
    exists eph, dk, c, ss, cipher. split_and!; [|done|done|done|by apply chacha_canonical].
    apply arr_try_some in Heph. rewrite <-Heph, (ct_canonical _ _ Hct). by rewrite take_drop.
  - intros (eph & dk & c & ss & cipher & -> & Hdk & Hss & Hc & Hp).
    destruct (kem_split eph c) as (-> & -> & ->). rewrite Hdk. cbn [ok_or mbind result_bind].
    rewrite Hss. cbn [map_err mbind result_bind]. rewrite Hc. cbn [map_err mbind result_bind].
    by rewrite (chacha_roundtrip _ _ _ _ _ Hp).
Qed.

(** Encryption to a generated key pair succeeds and decrypts with it. *)
Lemma encrypt_decrypt random krng p aad rng :
  length p ≤ chacha_limit →
  let (sk, pk) := make_keypair random krng in
  ∃ ct, hybrid_encrypt p pk aad rng = Ok ct ∧ hybrid_decrypt ct sk aad = Ok p.
Proof using COk KOk XOk.
  intros Hlen. unfold make_keypair, generate_x25519_keypair, generate_mlkem_keypair.
  destruct (mlkem_generate krng) as [dk ek] eqn:Hgen. cbv beta iota zeta.
  unfold hybrid_encrypt. cbn [rpk_mlkem_encap_key rpk_x25519]. rewrite ek_roundtrip.
  cbn [ok_or mbind result_bind]. destruct (encapsulate_ok ek (rng_kem rng)) as (c & ss & He).
  rewrite He. cbn [map_err mbind result_bind].
  destruct (chacha_new_32 (derive_aead_key
    (arr_bytes (diffie_hellman (rng_ephemeral rng) (x25519_public random))) (arr_bytes ss)))
    as [cipher Hc]. rewrite Hc. cbn [map_err mbind result_bind].
  destruct (chacha_encrypt_some cipher (rng_nonce rng) aad p Hlen) as [ct Hct].
  rewrite Hct. cbn [ok_or mbind result_bind]. eexists. split; [done|].
  apply hybrid_decrypt_iff. exists (x25519_public (rng_ephemeral rng)), dk, c, ss, cipher.
  cbn [hc_kem_output spk_mlkem_decap_key spk_x25519_secret hc_nonce hc_ciphertext].
  split_and!; [done|apply dk_roundtrip| |by rewrite dh_agree|done].
  pose proof (decapsulate_ok krng (rng_kem rng) c ss) as Hd. rewrite Hgen in Hd. by apply Hd.
Qed.

(** Two accepted ciphertexts of the same transcript have the same plaintext exactly when
    they are the same. *)
Lemma decrypts_unique ct ct' sk aad p p' :
  hc_kem_output ct = hc_kem_output ct' → hc_nonce ct = hc_nonce ct' →
  decrypts ct sk aad p → decrypts ct' sk aad p' →
  p = p' ↔ hc_ciphertext ct = hc_ciphertext ct'.
Proof using COk KOk.
  intros Hk Hn (eph & dk & c & ss & ci & Ho & Hdk & Hss & Hc & Hp)
    (eph' & dk' & c' & ss' & ci' & Ho' & Hdk' & Hss' & Hc' & Hp').
  rewrite <-Hk, Ho in Ho'. apply app_inj_1 in Ho' as [He Hct]; [|by rewrite !length_arr].
  apply (inj arr_bytes) in He. subst eph'.
  assert (c = c') as <-.
  { pose proof (ct_roundtrip c) as H1. rewrite Hct, ct_roundtrip in H1. by injection H1. }
  rewrite Hdk in Hdk'. injection Hdk' as <-. rewrite Hss in Hss'. injection Hss' as <-.
  rewrite Hc in Hc'. injection Hc' as <-. rewrite <-Hn in Hp'. split; intros Heq.
  - subst p'. rewrite Hp in Hp'. by injection Hp'.
  - rewrite <-Heq in Hp'. apply chacha_roundtrip in Hp, Hp'. rewrite Hp in Hp'. by injection Hp'.
Qed.

(** The length of a transcript that decrypts is fixed. *)
Lemma decrypts_len ct sk aad p : decrypts ct sk aad p → length (hc_kem_output ct) = 32 + kem_ct_len.
Proof using.
  intros (eph & dk & c & ss & ci & -> & _). by rewrite length_app, length_arr, ct_len.
Qed.
End crypto_laws.

Section sign_laws.
Context `{EE : Ed25519Lib} `{EOk : !Ed25519Ok} `{MM : MlDsa65} `{MOk : !MlDsaOk}.

(** A dual signature with generated keys verifies. *)
Lemma sign_verify msg random krng rng :
  let (ed_sk, ed_pk) := generate_ed25519_keypair random in
  let (dsa_sk, dsa_pk) := generate_mldsa_keypair krng in
  ∃ sig, dual_sign msg (mkSigningKeys ed_sk dsa_sk) rng = Ok sig ∧
    dual_verify msg sig (mkVerifyingKeys ed_pk dsa_pk) = Ok ().
Proof using EOk MOk.
  unfold generate_ed25519_keypair, generate_mldsa_keypair.
  destruct (dsa_keypair krng) as [pk sk] eqn:Hk. cbv beta iota zeta.
  unfold dual_sign, dual_verify. cbn [sk_mldsa_secret sk_ed25519_secret vk_mldsa_public vk_ed25519_public].
  rewrite dsa_sk_roundtrip. cbn [map_err mbind result_bind]. eexists. split; [done|].
  destruct (ed_correct random) as (vk & -> & Hv). cbn [map_err mbind result_bind ds_ed25519 ds_mldsa].
  rewrite Hv, dsa_pk_roundtrip, dsa_sig_roundtrip. cbn [map_err mbind result_bind].
  pose proof (dsa_correct krng rng msg) as Hd. rewrite Hk in Hd. cbn [fst snd] in Hd. by rewrite Hd.
Qed.

(** Acceptance means that both signatures verify. *)
Lemma dual_verify_iff msg sig keys :
  dual_verify msg sig keys = Ok () ↔
  (∃ vk, ed_vk_from_bytes (vk_ed25519_public keys) = Ok vk ∧
     ed_verify vk msg (ds_ed25519 sig) = true) ∧
  (∃ pk s, dsa_pk_from_bytes (vk_mldsa_public keys) = Ok pk ∧
     dsa_sig_from_bytes (ds_mldsa sig) = Ok s ∧ dsa_verify s msg pk = true).
Proof using.
  unfold dual_verify. destruct (ed_vk_from_bytes _) as [vk|] eqn:Hvk; cbn [map_err mbind result_bind].
  2:{ split; [done|]. by intros [(? & ? & _) _]. }
  destruct (ed_verify _ _ _) eqn:Hv.
  2:{ split; [done|]. intros [(? & [= <-] & ?) _]. congruence. }
  destruct (dsa_pk_from_bytes _) as [pk|] eqn:Hpk; cbn [map_err mbind result_bind].
  2:{ split; [done|]. by intros [_ (? & ? & ? & _)]. }
  destruct (dsa_sig_from_bytes _) as [s|] eqn:Hs; cbn [map_err mbind result_bind].
  2:{ split; [done|]. by intros [_ (? & ? & _ & ? & _)]. }
  destruct (dsa_verify _ _ _) eqn:Hd.
  - split; [|done]. intros _. split; [by exists vk|by exists pk, s].
  - split; [done|]. intros [_ (? & ? & [= <-] & [= <-] & ?)]. congruence.
Qed.
End sign_laws.

(** ** Concrete primitives for the witnesses *)

(** A cipher that appends its key, nonce and AAD, and checks them when it strips them. *)
Definition toy_tag (k n aad : bytes) : bytes := k ++ n ++ aad.
Definition toy_decrypt (k : bytes) (n : arr 12) (aad c : bytes) : option bytes :=
  let t := toy_tag k (arr_bytes n) aad in
  let m := take (length c - length t) c in
  if bool_decide (c = m ++ t) then Some m else None.

Definition toy_chacha : ChaCha20Poly1305 :=
  {| chacha_cipher := bytes; chacha_new k := Ok k;
     chacha_encrypt k n aad m := Some (m ++ toy_tag k (arr_bytes n) aad);
     chacha_decrypt := toy_decrypt |}.

Definition toy_chacha_ok : @ChaChaOk toy_chacha.
Proof.
  refine (@Build_ChaChaOk toy_chacha 1000 _ _ _ _).
  - intros k. by eexists.
  - intros. by eexists.
  - intros c n aad m ct [= <-]. cbn [chacha_decrypt toy_chacha]. unfold toy_decrypt. rewrite length_app.
    replace (length m + _ - _) with (length m) by lia. rewrite take_app_length.
    by rewrite bool_decide_true.
  - intros c n aad m ct. cbn [chacha_decrypt chacha_encrypt toy_chacha]. unfold toy_decrypt.
    case_bool_decide as Hc; [|done]. intros [= <-]. by rewrite <-Hc.
Defined.

Definition toy_hkdf : HkdfSha256 := {| hkdf_expand ikm info := arr_fit 32 (ikm ++ info) |}.

(** Addition of the secrets' first bytes stands for the key agreement. *)
Definition toy_x25519 : X25519 :=
  {| x25519_public s := s;
     diffie_hellman a b :=
       arr_fit 32 (be_bytes 32 (be_Z (arr_bytes a) + be_Z (arr_bytes b))%Z) |}.
Definition toy_x25519_ok : @X25519Ok toy_x25519.
Proof. split. intros a b. cbn. by rewrite Z.add_comm. Defined.

Definition toy_mlkem : MlKem768 :=
  {| kem_rng := arr 32; DecapsulationKey := arr 32; EncapsulationKey := arr 32;
     KemCiphertext := arr 32; dk_bytes := arr_bytes; dk_try := arr_try 32;
     ek_bytes := arr_bytes; ek_try := arr_try 32; ct_bytes := arr_bytes; ct_try := arr_try 32;
     mlkem_generate r := (r, r); encapsulate _ r := Ok (r, r); decapsulate _ c := Ok c |}.
Definition toy_mlkem_ok : @MlKemOk toy_mlkem.
Proof.
  refine (@Build_MlKemOk toy_mlkem 32 _ _ _ _ _ _ _ _); cbn.
  - lia.
  - intros. apply arr_try_arr.
  - intros. apply arr_try_arr.
  - intros. apply arr_try_arr.
  - intros b c H. symmetry. by apply arr_try_some.
  - apply length_arr.
  - intros k r. by eexists _, _.
  - by intros r r' c ss [= <- <-].
Defined.

(** A signature is the key followed by the message. *)
Definition toy_ed25519 : Ed25519Lib :=
  {| EdVerifyingKey := arr 32; ed_sign k m := arr_fit 64 (arr_bytes k ++ m);
     ed_public k := k; ed_vk_from_bytes k := Ok k;
     ed_verify k m s := bool_decide (s = arr_fit 64 (arr_bytes k ++ m)) |}.
Definition toy_ed25519_ok : @Ed25519Ok toy_ed25519.
Proof. split. intros sk. exists sk. split; [done|]. intros m. by apply bool_decide_true. Defined.

Definition toy_mldsa : MlDsa65 :=
  {| dsa_rng := bytes; DsaSecretKey := bytes; DsaPublicKey := bytes; DsaSignature := bytes;
     dsa_sk_bytes k := k; dsa_sk_from_bytes := Ok; dsa_pk_bytes k := k; dsa_pk_from_bytes := Ok;
     dsa_sig_bytes s := s; dsa_sig_from_bytes := Ok; dsa_keypair r := (r, r);
     dsa_sign m k _ := k ++ m; dsa_verify s m k := bool_decide (s = k ++ m) |}.
Definition toy_mldsa_ok : @MlDsaOk toy_mldsa.
Proof. split; cbn; try done. intros. by apply bool_decide_true. Defined.

Definition key32 (b : byte) : arr 32 := arr_fill 32 b.
