(* ===== verification/Envelope.v ===== *)
(** * The message envelope ([zero-crypto/src/envelope.rs])

    [seal_envelope] and [open_envelope] over the AAD of [Aad] and the hybrid encryption and
    dual signature of [Crypto]. *)

From Stdlib Require Import ZArith Lia.
From stdpp Require Import base tactics gmap strings sorting numbers countable list.
From S2P Require Import Prelude Bytes Store Mem Aad Crypto.
#[local] Open Scope nat_scope.

Record CryptoEnvelope : Type := mkCryptoEnvelope {
  env_aad : bytes;
  env_ciphertext : HybridCiphertext;
  env_signature : DualSignature;
}.

(** The AEAD ciphertext is not part of the signed message. *)
Definition signing_message (aad : bytes) (ct : HybridCiphertext) : bytes :=
  aad ++ hc_kem_output ct ++ arr_bytes (hc_nonce ct).

Section envelope.
Context `{CB : Ciborium} `{CC : ChaCha20Poly1305} `{HK : HkdfSha256} `{XX : X25519}
  `{KK : MlKem768} `{EE : Ed25519Lib} `{MM : MlDsa65}.

Definition seal_envelope (plaintext : bytes) (aad : MessageAad) (recipient_pk : RecipientPublicKey)
    (sender_sk : SigningKeys) (rng : encrypt_rng) (sign_rng : dsa_rng)
    : result CryptoError CryptoEnvelope :=
  aad_bytes ← encode aad;
  ciphertext ← hybrid_encrypt plaintext recipient_pk aad_bytes rng;
  let sig_msg := signing_message aad_bytes ciphertext in
  signature ← dual_sign sig_msg sender_sk sign_rng;
  Ok (mkCryptoEnvelope aad_bytes ciphertext signature).

Definition open_envelope (env : CryptoEnvelope) (recipient_sk : SenderPrivateKey)
    (sender_vk : VerifyingKeys) : result CryptoError (bytes * MessageAad) :=
  let sig_msg := signing_message (env_aad env) (env_ciphertext env) in
  dual_verify sig_msg (env_signature env) sender_vk;;
  plaintext ← hybrid_decrypt (env_ciphertext env) recipient_sk (env_aad env);
  aad ← decode (env_aad env);
  Ok (plaintext, aad).
End envelope.

Section envelope_laws.
Context `{CB : Ciborium} `{CBOk : !CiboriumOk} `{CC : ChaCha20Poly1305} `{COk : !ChaChaOk}
  `{HK : HkdfSha256} `{XX : X25519} `{XOk : !X25519Ok} `{KK : MlKem768} `{KOk : !MlKemOk}
  `{EE : Ed25519Lib} `{EOk : !Ed25519Ok} `{MM : MlDsa65} `{MOk : !MlDsaOk}.

(** The parts an envelope that opens went through. *)
Lemma open_envelope_iff env sk vk p a :
  open_envelope env sk vk = Ok (p, a) ↔
  dual_verify (signing_message (env_aad env) (env_ciphertext env)) (env_signature env) vk = Ok () ∧
  decrypts (env_ciphertext env) sk (env_aad env) p ∧ decode (env_aad env) = Ok a.
Proof using COk KOk.
  unfold open_envelope. rewrite <-hybrid_decrypt_iff.
  destruct (dual_verify _ _ _) as [[]|e]; cbn [mbind result_bind]; [|split; [done|by intros [? _]]].
  destruct (hybrid_decrypt _ _ _) as [p'|e]; cbn [mbind result_bind];
    [|split; [done|by intros (_ & ? & _)]].
  destruct (decode _) as [a'|e]; cbn [mbind result_bind]; [|split; [done|by intros (_ & _ & ?)]].
  split; [by intros [= -> ->]|]. by intros (_ & [= ->] & [= ->]).
Qed.

(** Signed messages of envelopes that decrypt fall apart in one way only. *)
Lemma signing_message_inj aad aad' ct ct' sk sk' p p' :
  decrypts ct sk aad p → decrypts ct' sk' aad' p' →
  signing_message aad ct = signing_message aad' ct' →
  aad = aad' ∧ hc_kem_output ct = hc_kem_output ct' ∧ hc_nonce ct = hc_nonce ct'.
Proof using KOk.
  intros Hd Hd' Hs. pose proof (decrypts_len _ _ _ _ Hd) as Hl.
  pose proof (decrypts_len _ _ _ _ Hd') as Hl'. unfold signing_message in Hs.
  apply app_inj_2 in Hs as [-> Hs]; [|by rewrite !length_app, Hl, Hl', !length_arr].
  apply app_inj_1 in Hs as [-> Hs]; [|by rewrite Hl, Hl'].
  split_and!; [done|done|]. by apply (inj arr_bytes).
Qed.

(** Sealing and opening step by step. *)
Lemma seal_open_steps plaintext aad b ct sig recipient_pk recipient_sk sender_sk sender_vk rng sign_rng :
  encode aad = Ok b → decode b = Ok aad →
  hybrid_encrypt plaintext recipient_pk b rng = Ok ct → hybrid_decrypt ct recipient_sk b = Ok plaintext →
  dual_sign (signing_message b ct) sender_sk sign_rng = Ok sig →
  dual_verify (signing_message b ct) sig sender_vk = Ok () →
  seal_envelope plaintext aad recipient_pk sender_sk rng sign_rng = Ok (mkCryptoEnvelope b ct sig) ∧
  open_envelope (mkCryptoEnvelope b ct sig) recipient_sk sender_vk = Ok (plaintext, aad).
Proof using COk KOk.
  intros Hb Hd Hct Hdec Hsig Hv. split.
  - unfold seal_envelope. rewrite Hb. cbn [mbind result_bind]. rewrite Hct.
    cbn [mbind result_bind]. by rewrite Hsig.
  - apply open_envelope_iff. cbn [env_aad env_ciphertext env_signature].
    split_and!; [done|by apply hybrid_decrypt_iff|done].
Qed.

(** C4: an envelope sealed for a generated recipient key by a generated signing key opens with
    the matching keys to the plaintext and the AAD that were sealed. *)
Theorem envelope_roundtrip plaintext aad rx rk sx sk_rng rng sign_rng :
  length plaintext ≤ chacha_limit →
  let (recipient_sk, recipient_pk) := make_keypair rx rk in
  let (ed_sk, ed_pk) := generate_ed25519_keypair sx in
  let (dsa_sk, dsa_pk) := generate_mldsa_keypair sk_rng in
  ∃ env,
    seal_envelope plaintext aad recipient_pk (mkSigningKeys ed_sk dsa_sk) rng sign_rng = Ok env ∧
    open_envelope env recipient_sk (mkVerifyingKeys ed_pk dsa_pk) = Ok (plaintext, aad).
Proof using CBOk COk EOk KOk MOk XOk.
  intros Hlen. destruct (encode_decode aad) as (b & Hb & Hd).
  pose proof (encrypt_decrypt rx rk plaintext b rng Hlen) as Henc.
  destruct (make_keypair rx rk) as [rsk rpk]. destruct Henc as (ct & Hct & Hdec).
  pose proof (sign_verify (signing_message b ct) sx sk_rng sign_rng) as Hs.
  destruct (generate_ed25519_keypair sx) as [es ep].
  destruct (generate_mldsa_keypair sk_rng) as [ds dp]. destruct Hs as (sig & Hsig & Hv).
  exists (mkCryptoEnvelope b ct sig). by apply seal_open_steps.
Qed.

(** C5: an envelope whose signatures do not both verify is refused with the verifier's error
    whatever its ciphertext and the recipient's key; and the signature of an envelope that
    opens binds its AAD, key encapsulation and nonce: another envelope with the same signed
    message that opens has the same AAD, and the same plaintext exactly when its ciphertext
    is the same. *)
Theorem open_binds env sk vk :
  (∀ e, dual_verify (signing_message (env_aad env) (env_ciphertext env)) (env_signature env) vk
      = Err e → ∀ sk', open_envelope env sk' vk = Err e) ∧
  ∀ p a, open_envelope env sk vk = Ok (p, a) →
    (∃ k, ed_vk_from_bytes (vk_ed25519_public vk) = Ok k ∧
       ed_verify k (signing_message (env_aad env) (env_ciphertext env))
         (ds_ed25519 (env_signature env)) = true) ∧
    (∃ k s, dsa_pk_from_bytes (vk_mldsa_public vk) = Ok k ∧
       dsa_sig_from_bytes (ds_mldsa (env_signature env)) = Ok s ∧
       dsa_verify s (signing_message (env_aad env) (env_ciphertext env)) k = true) ∧
    ∀ env' p' a', open_envelope env' sk vk = Ok (p', a') →
      signing_message (env_aad env) (env_ciphertext env) =
        signing_message (env_aad env') (env_ciphertext env') →
      env_aad env = env_aad env' ∧ a = a' ∧
      (p = p' ↔ hc_ciphertext (env_ciphertext env) = hc_ciphertext (env_ciphertext env')).
Proof using COk KOk.
  split.
  - intros e He sk'. unfold open_envelope. by rewrite He.
  - intros p a (Hv & Hd & Ha)%open_envelope_iff. apply dual_verify_iff in Hv as [Hed Hdsa].
    split_and!; [done|done|]. intros env' p' a' (_ & Hd' & Ha')%open_envelope_iff Hs.
    destruct (signing_message_inj _ _ _ _ _ _ _ _ Hd Hd' Hs) as (Haad & Hk & Hn).
    rewrite <-Haad in Hd', Ha'. rewrite Ha in Ha'. injection Ha' as <-.
    split_and!; [done|done|]. by eapply decrypts_unique.
Qed.
End envelope_laws.

(** ** Witnesses *)

#[local] Existing Instances toy_chacha toy_chacha_ok toy_hkdf toy_x25519 toy_x25519_ok toy_mlkem
  toy_mlkem_ok toy_ed25519 toy_ed25519_ok toy_mldsa toy_mldsa_ok.

Definition sample_rng : encrypt_rng :=
  mkEncryptRng (key32 Byte.x05) (key32 Byte.x06) (arr_fill 12 Byte.x07).
Definition sample_text : bytes := blit "hello".

Lemma envelope_roundtrip_witness :
  length sample_text ≤ chacha_limit ∧
  ∃ env,
    seal_envelope sample_text sample_aad (mkRecipientPublicKey (key32 Byte.x01) (arr_bytes (key32 Byte.x02)))
      (mkSigningKeys (key32 Byte.x03) [Byte.x04]) sample_rng [] = Ok env ∧
    open_envelope env (mkSenderPrivateKey (key32 Byte.x01) (arr_bytes (key32 Byte.x02)))
      (mkVerifyingKeys (key32 Byte.x03) [Byte.x04]) = Ok (sample_text, sample_aad).
Proof.
  assert (length sample_text ≤ chacha_limit) as H by (apply Nat.leb_le; reflexivity).
  split; [exact H|].
  exact (envelope_roundtrip sample_text sample_aad (key32 Byte.x01) (key32 Byte.x02)
    (key32 Byte.x03) [Byte.x04] sample_rng [] H).
Defined.

(** An envelope under a wrong signature is refused before its decryption. *)
Definition forged : CryptoEnvelope :=
  mkCryptoEnvelope [] (mkHybridCiphertext [] [] (arr_fill 12 Byte.x00))
    (mkDualSignature (arr_fill 64 Byte.x00) []).

Definition sample_keys : SenderPrivateKey * VerifyingKeys :=
  (fst (make_keypair (key32 Byte.x01) (key32 Byte.x02)),
   mkVerifyingKeys (snd (generate_ed25519_keypair (key32 Byte.x03)))
     (snd (generate_mldsa_keypair [Byte.x04]))).
Definition genuine : CryptoEnvelope :=
  match seal_envelope sample_text sample_aad (snd (make_keypair (key32 Byte.x01) (key32 Byte.x02)))
    (mkSigningKeys (fst (generate_ed25519_keypair (key32 Byte.x03)))
       (fst (generate_mldsa_keypair [Byte.x04]))) sample_rng [] with
  | Ok env => env
  | Err _ => forged
  end.

Lemma open_binds_witness :
  open_envelope forged sample_keys.1 sample_keys.2 = Err (SignatureVerificationFailed "Ed25519") ∧
  open_envelope genuine sample_keys.1 sample_keys.2 = Ok (sample_text, sample_aad) ∧
  ∃ k, ed_vk_from_bytes (vk_ed25519_public sample_keys.2) = Ok k ∧
    ed_verify k (signing_message (env_aad genuine) (env_ciphertext genuine))
      (ds_ed25519 (env_signature genuine)) = true.
Proof.
  split; [|split].
  - refine (proj1 (open_binds forged sample_keys.1 sample_keys.2) _ _ _). reflexivity.
  - vm_compute. reflexivity.
  - refine (proj1 (proj2 (open_binds genuine sample_keys.1 sample_keys.2) sample_text sample_aad _)).
    vm_compute. reflexivity.
Defined.
