(* ===== verification/NeuralKey.v ===== *)
(** * The root secret and its shares ([zero-identity/src/neural_key.rs], [error.rs])

    [NeuralKey] wraps the key of the [zid] crate; that crate's key, its Shamir functions and
    its error are an interface, and so is BLAKE3's keyed hash. The operating system's
    randomness is an argument. *)

From Stdlib Require Import ZArith Lia.
From stdpp Require Import base tactics gmap strings sorting numbers countable list.
From S2P Require Import Prelude Bytes Dm.
#[local] Open Scope nat_scope.

(** ** [zid] and [blake3] *)

Class ZidKeys : Type := {
  zid_error : Type;
  zid_neural_key : Type;
  nk_generate : bytes → zid_neural_key;
  nk_validate_entropy : zid_neural_key → result zid_error ();
  nk_to_bytes : zid_neural_key → arr 32;
  nk_from_bytes : arr 32 → zid_neural_key;
  ShamirShare : Type;
  shamir_split : arr 32 → nat → nat → bytes → result zid_error (list ShamirShare);
  shamir_combine : list ShamirShare → result zid_error (arr 32);
  share_to_bytes : ShamirShare → bytes;
  share_from_bytes : bytes → result zid_error ShamirShare;
  ZidIdentityId : Type;
  zid_identity : arr 16 → ZidIdentityId;
  zid_identity_bytes : ZidIdentityId → arr 16;
}.

(** What is documented of them: encodings decode; for a threshold from 2 up to the total, and a
    total up to 255 (the limits of [error.rs]), a split succeeds and makes [total] distinct
    shares, any [threshold] of which combine to the secret. Nothing is said of threshold 1. *)
Class ZidKeysOk `{ZK : ZidKeys} : Prop := {
  nk_roundtrip k : nk_from_bytes (nk_to_bytes k) = k;
  share_roundtrip s : share_from_bytes (share_to_bytes s) = Ok s;
  zid_identity_roundtrip b : zid_identity_bytes (zid_identity b) = b;
  zid_identity_of_bytes i : zid_identity (zid_identity_bytes i) = i;
  shamir_split_ok s total threshold rng :
    2 ≤ threshold ≤ total → total ≤ 255 → ∃ l, shamir_split s total threshold rng = Ok l;
  shamir_split_len s total threshold rng l :
    2 ≤ threshold → shamir_split s total threshold rng = Ok l → length l = total ∧ NoDup l;
  shamir_combine_ok s total threshold rng l sel :
    2 ≤ threshold → shamir_split s total threshold rng = Ok l → NoDup sel → sel ⊆ l → threshold ≤ length sel →
    shamir_combine sel = Ok s;
}.

Class Blake3Keyed : Type := { blake3_keyed_hash : arr 32 → bytes → arr 32 }.

(** ** Errors *)

Section neural_key.
Context `{ZK : ZidKeys} `{BB : Blake3} `{BK : Blake3Keyed}.

Inductive IdentityError : Type :=
| Zid (e : zid_error)
| IdIo (e : string)
| InvalidShareConfig
| ShareRecoveryFailed
| KeyNotFound
| SerializationError
| SealError (s : string)
| UnsealError (s : string).

(** ** [NeuralKey] *)

Definition MAX_SHARES : nat := 16.
Definition IDENTITY_ID_CONTEXT : bytes := blit "zero-identity:identity-id:v1".

Record NeuralKey : Type := mkNeuralKey { neural_key_0 : zid_neural_key }.

Definition generate (os_rng : bytes) : result IdentityError NeuralKey :=
  let inner := nk_generate os_rng in
  map_err Zid (nk_validate_entropy inner);;
  Ok (mkNeuralKey inner).

Definition blake3_context_key : arr 32 := blake3_hash IDENTITY_ID_CONTEXT.

Definition identity_id_bytes (k : NeuralKey) : arr 16 :=
  let b := arr_bytes (nk_to_bytes (neural_key_0 k)) in
  let hash := blake3_keyed_hash blake3_context_key b in
  arr_fit 16 (take 16 (arr_bytes hash)).

Definition identity_id (k : NeuralKey) : ZidIdentityId := zid_identity (identity_id_bytes k).

Record ShareConfig : Type := mkShareConfig { cfg_threshold : u8; cfg_total : u8 }.

Definition ShareConfig_default : ShareConfig := mkShareConfig (umk 8 3) (umk 8 5).

Record NeuralKeyShares : Type := mkNeuralKeyShares { nks_shares : list bytes; nks_threshold : u8 }.

Definition u8_nat (x : u8) : nat := Z.to_nat (uval x).

Definition split_neural_key (key : NeuralKey) (cfg : ShareConfig) (os_rng : bytes)
    : result IdentityError NeuralKeyShares :=
  if (uval (cfg_threshold cfg) =? 0)%Z || ult (cfg_total cfg) (cfg_threshold cfg)
     || (MAX_SHARES <? u8_nat (cfg_total cfg)) then Err InvalidShareConfig
  else
    let secret := nk_to_bytes (neural_key_0 key) in
    raw ← map_err Zid
      (shamir_split secret (u8_nat (cfg_total cfg)) (u8_nat (cfg_threshold cfg)) os_rng);
    let shares := share_to_bytes <$> raw in
    Ok (mkNeuralKeyShares shares (cfg_threshold cfg)).

Definition recover_neural_key (shares : list bytes) (threshold : u8)
    : result IdentityError NeuralKey :=
  if (uval threshold =? 0)%Z || (length shares <? u8_nat threshold)
     || (MAX_SHARES <? length shares) then Err InvalidShareConfig
  else
    decoded ← for_each (λ decoded raw,
        share ← map_err (λ _, ShareRecoveryFailed) (share_from_bytes raw);
        Ok (Continue (decoded ++ [share])))
      [] shares;
    secret ← map_err (λ _, ShareRecoveryFailed) (shamir_combine decoded);
    Ok (mkNeuralKey (nk_from_bytes secret)).
End neural_key.

(** ** Laws *)

Section neural_key_laws.
Context `{ZK : ZidKeys} `{ZKOk : !ZidKeysOk} `{BB : Blake3} `{BK : Blake3Keyed}.

(** The condition under which shares are made. *)
Definition valid_config (cfg : ShareConfig) : Prop :=
  (1 <= uval (cfg_threshold cfg) <= uval (cfg_total cfg))%Z ∧ (uval (cfg_total cfg) <= 16)%Z.

#[export] Instance valid_config_dec cfg : Decision (valid_config cfg).
Proof. apply _. Defined.

Lemma config_check cfg :
  (uval (cfg_threshold cfg) =? 0)%Z || ult (cfg_total cfg) (cfg_threshold cfg)
    || (MAX_SHARES <? u8_nat (cfg_total cfg)) = negb (bool_decide (valid_config cfg)).
Proof using.
  pose proof (uint_range (cfg_threshold cfg)). pose proof (uint_range (cfg_total cfg)).
  unfold ult, u8_nat, MAX_SHARES, valid_config.
  destruct (Z.eqb_spec (uval (cfg_threshold cfg)) 0), (Z.ltb_spec (uval (cfg_total cfg))
    (uval (cfg_threshold cfg))), (Nat.ltb_spec 16 (Z.to_nat (uval (cfg_total cfg))));
    case_bool_decide; try done; cbn; exfalso; lia.
Qed.

Lemma decode_shares (l : list ShamirShare) acc :
  for_each (λ decoded raw,
      share ← map_err (λ _, ShareRecoveryFailed) (share_from_bytes raw);
      Ok (Continue (decoded ++ [share])))
    acc (share_to_bytes <$> l) = Ok (acc ++ l).
Proof using ZKOk.
  revert acc. induction l as [|s l IHl]; intros acc; [simpl; by rewrite app_nil_r|].
  rewrite fmap_cons. cbn [for_each]. rewrite share_roundtrip. cbn [map_err mbind result_bind].
  rewrite IHl. by rewrite <-(assoc_L (++)).
Qed.

Lemma decode_shares_err (raw : bytes) (l : list bytes) acc :
  raw ∈ l → is_ok (share_from_bytes raw) = false →
  for_each (λ decoded raw,
      share ← map_err (λ _, ShareRecoveryFailed) (share_from_bytes raw);
      Ok (Continue (decoded ++ [share]))) acc l = Err ShareRecoveryFailed.
Proof using.
  intros Hin Hbad. revert acc. induction l as [|b l IHl]; intros acc; [by apply elem_of_nil in Hin|].
  cbn [for_each]. destruct (share_from_bytes b) as [s|e] eqn:Hb; cbn [map_err mbind result_bind]; [|done].
  apply IHl. apply elem_of_cons in Hin as [->|?]; [|done]. by rewrite Hb in Hbad.
Qed.

(** C17: a configuration outside [0 < threshold <= total <= 16] is refused as such. Inside
    it, with a threshold of at least 2, the key is split into [total] shares;
    any distinct shares of them, at least [threshold], recover the key; too few are refused as
    such, and a share that does not decode is a failed recovery. A threshold of 1 passes the
    check of this crate and is left to the split of [zid]: its error is passed on, and its
    shares are returned encoded. *)
Theorem split_recover key cfg rng :
  (¬ valid_config cfg → split_neural_key key cfg rng = Err InvalidShareConfig) ∧
  (valid_config cfg → u8_nat (cfg_threshold cfg) = 1 →
     split_neural_key key cfg rng =
       match shamir_split (nk_to_bytes (neural_key_0 key)) (u8_nat (cfg_total cfg)) 1 rng with
       | Ok raw => Ok (mkNeuralKeyShares (share_to_bytes <$> raw) (cfg_threshold cfg))
       | Err e => Err (Zid e)
       end) ∧
  (valid_config cfg → 2 ≤ u8_nat (cfg_threshold cfg) →
   ∃ out, split_neural_key key cfg rng = Ok out ∧
     nks_threshold out = cfg_threshold cfg ∧
     length (nks_shares out) = u8_nat (cfg_total cfg) ∧ NoDup (nks_shares out) ∧
     ∀ sel, NoDup sel → sel ⊆ nks_shares out →
       (u8_nat (nks_threshold out) ≤ length sel → recover_neural_key sel (nks_threshold out) = Ok key) ∧
       (length sel < u8_nat (nks_threshold out) →
          recover_neural_key sel (nks_threshold out) = Err InvalidShareConfig) ∧
       ∀ raw, is_ok (share_from_bytes raw) = false → length sel < 16 →
         u8_nat (nks_threshold out) ≤ length sel →
         recover_neural_key (raw :: sel) (nks_threshold out) = Err ShareRecoveryFailed).
Proof using ZKOk.
  unfold split_neural_key. rewrite config_check. split; [|split].
  { intros Hbad. by rewrite bool_decide_false. }
  { intros Hok ->. rewrite bool_decide_true by done. by destruct (shamir_split _ _ _ _). }
  intros Hok Htwo. rewrite bool_decide_true by done. cbn [negb].
  pose proof (uint_range (cfg_total cfg)). destruct Hok as [Ht Hmax].
  destruct (shamir_split_ok (nk_to_bytes (neural_key_0 key)) (u8_nat (cfg_total cfg))
    (u8_nat (cfg_threshold cfg)) rng) as [l Hl]; [unfold u8_nat in *; lia|unfold u8_nat; lia|].
  rewrite Hl. cbn [map_err mbind result_bind]. eexists. split; [done|].
  cbn [nks_threshold nks_shares]. destruct (shamir_split_len _ _ _ _ _ Htwo Hl) as [Hlen Hnd].
  assert (Inj (=) (=) share_to_bytes) as Hinj.
  { intros s s' He. pose proof (share_roundtrip s) as H1. rewrite He, share_roundtrip in H1.
    by injection H1. }
  split_and!; [done|by rewrite length_fmap|by apply NoDup_fmap_2|].
  intros sel Hsel Hsub.
  assert (∃ sel', sel = share_to_bytes <$> sel' ∧ sel' ⊆ l) as (sel' & -> & Hsub').
  { clear Hsel. induction sel as [|b sel IHsel]; [exists []; split; [done|by intros ? ?%elem_of_nil]|].
    destruct IHsel as (sel' & -> & Hs); [intros x Hx; by apply Hsub, list_elem_of_further|].
    destruct (proj1 (list_elem_of_fmap _ _ _) (Hsub b (list_elem_of_here _ _))) as (s & -> & Hin).
    exists (s :: sel'). split; [done|]. intros x [->|?]%elem_of_cons; [done|by apply Hs]. }
  apply NoDup_fmap_1 in Hsel. rewrite length_fmap.
  assert (length sel' ≤ 16) as Hle.
  { pose proof (NoDup_submseteq sel' l Hsel Hsub') as Hm%submseteq_length.
    unfold u8_nat in Hlen. lia. }
  unfold recover_neural_key, MAX_SHARES. cbn [length]. rewrite !length_fmap.
  destruct (Z.eqb_spec (uval (cfg_threshold cfg)) 0) as [|_]; [lia|]. cbn [orb].
  split_and!.
  - intros Hge. destruct (Nat.ltb_spec (length sel') (u8_nat (cfg_threshold cfg))) as [|_]; [lia|].
    destruct (Nat.ltb_spec 16 (length sel')) as [|_]; [lia|]. cbn [orb].
    rewrite decode_shares. cbn [mbind result_bind app].
    rewrite (shamir_combine_ok _ _ _ _ _ _ Htwo Hl Hsel Hsub' Hge). cbn [map_err mbind result_bind].
    rewrite nk_roundtrip. by destruct key.
  - intros Hlt. destruct (Nat.ltb_spec (length sel') (u8_nat (cfg_threshold cfg))) as [_|]; [done|lia].
  - intros raw Hraw Hlt Hge.
    destruct (Nat.ltb_spec (S (length sel')) (u8_nat (cfg_threshold cfg))) as [|_]; [lia|].
    destruct (Nat.ltb_spec 16 (S (length sel'))) as [|_]; [lia|]. cbn [orb].
    by rewrite (decode_shares_err raw) by (done || apply list_elem_of_here).
Qed.
End neural_key_laws.

(** ** A concrete [zid] for the witnesses: every share carries the secret *)

Definition mem_split (s : arr 32) (total threshold : nat) (_ : bytes)
    : result string (list (byte * arr 32)) :=
  if bool_decide (2 ≤ threshold ≤ total ∧ total ≤ 255)
  then Ok ((λ i, (Z_byte (Z.of_nat i), s)) <$> seq 1 total) else Err "invalid shares"%string.

Definition mem_combine (l : list (byte * arr 32)) : result string (arr 32) :=
  match l with [] => Err "no shares"%string | (_, s) :: _ => Ok s end.

Definition mem_share_from (b : bytes) : result string (byte * arr 32) :=
  match b with
  | i :: rest => s ← ok_or (arr_try 32 rest) "bad share"%string; Ok (i, s)
  | [] => Err "bad share"%string
  end.

#[export] Instance mem_zid : ZidKeys := {
  zid_error := string; zid_neural_key := arr 32;
  nk_generate rng := arr_fit 32 rng;
  nk_validate_entropy k :=
    if bool_decide (k = arr_fill 32 Byte.x00) then Err "zero key"%string else Ok ();
  nk_to_bytes k := k; nk_from_bytes k := k;
  ShamirShare := byte * arr 32;
  shamir_split := mem_split; shamir_combine := mem_combine;
  share_to_bytes s := s.1 :: arr_bytes s.2; share_from_bytes := mem_share_from;
  ZidIdentityId := arr 16; zid_identity b := b; zid_identity_bytes i := i;
}.

Lemma mem_split_inv s total threshold rng l :
  mem_split s total threshold rng = Ok l →
  threshold ≤ total ∧ 2 ≤ threshold ∧ total ≤ 255 ∧ l = (λ i, (Z_byte (Z.of_nat i), s)) <$> seq 1 total.
Proof. unfold mem_split. case_bool_decide as H; [|done]. intros [= <-]. split_and!; tauto. Qed.

#[export] Instance mem_zid_ok : @ZidKeysOk mem_zid.
Proof.
  split; try done.
  - intros [i s]. cbn. by rewrite arr_try_arr.
  - intros s total threshold rng H1 H2. cbn. unfold mem_split.
    rewrite bool_decide_true by done. by eexists.
  - intros s total threshold rng l _ (_ & _ & H & ->)%mem_split_inv.
    rewrite length_fmap, length_seq. split; [done|]. apply NoDup_fmap_2_strong; [|apply NoDup_seq].
    intros i j Hi Hj [= He]. apply elem_of_seq in Hi, Hj. apply Z_byte_inj_small in He; lia.
  - intros s total threshold rng l sel _ (_ & H1 & _ & ->)%mem_split_inv _ Hsub Hlen.
    destruct sel as [|[i s'] sel]; cbn in *; [lia|].
    destruct (proj1 (list_elem_of_fmap _ _ _) (Hsub (i, s') (list_elem_of_here _ _)))
      as (? & [= _ ->] & _). done.
Qed.

#[export] Instance mem_keyed : Blake3Keyed := { blake3_keyed_hash k b := arr_fit 32 (b ++ arr_bytes k) }.

Definition root_key : NeuralKey := mkNeuralKey (arr_fill 32 Byte.x2a : zid_neural_key).

Lemma split_recover_witness :
  valid_config ShareConfig_default ∧
  ∃ out, split_neural_key root_key ShareConfig_default [] = Ok out ∧
    recover_neural_key (take 3 (nks_shares out)) (nks_threshold out) = Ok root_key.
Proof.
  assert (valid_config ShareConfig_default) as Hv by (apply (bool_decide_unpack _); exact I).
  split; [exact Hv|].
  destruct (proj2 (proj2 (split_recover root_key ShareConfig_default [])) Hv)
    as (out & Hout & Ht & Hlen & Hnd & Hsel); [apply Nat.leb_le; reflexivity|].
  exists out. split; [exact Hout|].
  destruct (Hsel (take 3 (nks_shares out))) as (Hrec & _ & _).
  - apply (NoDup_app _ (drop 3 (nks_shares out))). rewrite take_drop. exact Hnd.
  - intros x Hx. rewrite <-(take_drop 3 (nks_shares out)). apply elem_of_app. left. exact Hx.
  - apply Hrec. rewrite length_take, Hlen, Ht. change (3 ≤ Nat.min 3 5). lia.
Defined.
