(* ===== verification/MachineKey.v ===== *)
(** * The machine-key store ([zero-identity/src/machine_key.rs])

    The in-memory registry of machine keys, its signing operations and its sealed
    serialization. The key pairs of the [zid] crate and [ciborium]'s encoding of the sealed
    payload are interfaces. The mutex is held for the whole of each access; [poisoned] is the
    state a panic of another holder leaves it in. *)

From Stdlib Require Import ZArith Lia.
From stdpp Require Import base tactics gmap strings sorting numbers countable pretty list.
From S2P Require Import Prelude Bytes Store Mem Aad Dm Crypto NeuralKey.
#[local] Open Scope nat_scope.

(** ** [zid::keys::machine] *)

Class ZidMachine `{ZK : ZidKeys} : Type := {
  Capabilities : Type;
  caps_from_bits_truncate : u32 → Capabilities;
  caps_bits : Capabilities → u32;
  MachineKeyPair : Type;
  pair_from_seeds : arr 32 → arr 32 → arr 32 → arr 32 → Capabilities → u64 →
    result zid_error MachineKeyPair;
  pair_ed25519_bytes : MachineKeyPair → arr 32;
  pair_ml_dsa_bytes : MachineKeyPair → bytes;
  pair_sign_ed25519 : MachineKeyPair → bytes → arr 64;
  pair_sign_ml_dsa : MachineKeyPair → bytes → bytes;
  ZidMachineId : Type;
  zid_machine : arr 16 → ZidMachineId;
  zid_machine_bytes : ZidMachineId → arr 16;
}.

Class ZidMachineOk `{ZM : ZidMachine} : Prop := {
  caps_truncate_bits c : caps_from_bits_truncate (caps_bits c) = c;
  zid_machine_roundtrip b : zid_machine_bytes (zid_machine b) = b;
  zid_machine_of_bytes i : zid_machine (zid_machine_bytes i) = i;
}.

(** Raw data of the sealed payload, as [serde] hands it to [ciborium]: the seeds are byte
    strings there. *)
Record raw_entry : Type := mkRawEntry {
  re_identity_id : arr 16; re_machine_id : arr 16; re_label : rstr; re_created_at : u64;
  re_capabilities : u32; re_epoch : u64;
  re_sign : bytes; re_encrypt : bytes; re_pq_sign : bytes; re_pq_encrypt : bytes;
}.
Record raw_payload : Type := mkRawPayload { rp_version : u8; rp_entries : list raw_entry }.

Class SealedCbor : Type := {
  cbor_into_writer : raw_payload → result string bytes;
  cbor_from_reader : bytes → result string raw_payload;
}.
Class SealedCborOk `{SC : SealedCbor} : Type := {
  sealed_limit : raw_payload → Prop;
  cbor_into_some p : sealed_limit p → is_ok (cbor_into_writer p) = true;
  cbor_roundtrip p b : cbor_into_writer p = Ok b → cbor_from_reader b = Ok p;
}.

(** ** Data *)

Definition HKDF_INFO : bytes := blit "zero-identity/machine-key-store/v1".
Definition SEAL_VERSION : u8 := umk 8 1.
Definition NONCE_LEN : nat := 12.

Section machine_key.
Context `{ZK : ZidKeys} `{ZM : !ZidMachine} `{!EqDecision ZidIdentityId} `{!EqDecision ZidMachineId}.
Context `{BB : Blake3} `{BK : Blake3Keyed} `{HK : HkdfSha256} `{CC : ChaCha20Poly1305}
  `{SC : SealedCbor}.

Record MachineKeyEntry : Type := mkMachineKeyEntry {
  mke_machine_id : ZidMachineId;
  mke_label : rstr;
  mke_created_at : u64;
  mke_ed25519_pub : arr 32;
  mke_mldsa65_pub : bytes;
}.

Record MachineKeyRecord : Type := mkMachineKeyRecord {
  mkr_entry : MachineKeyEntry;
  mkr_capabilities : u32;
  mkr_epoch : u64;
}.

Record StoredSeeds : Type := mkStoredSeeds {
  ss_sign : arr 32; ss_encrypt : arr 32; ss_pq_sign : arr 32; ss_pq_encrypt : arr 32;
}.

Record EntryRecord : Type := mkEntryRecord {
  er_identity_id : ZidIdentityId;
  er_entry : MachineKeyEntry;
  er_capabilities : u32;
  er_epoch : u64;
  er_seeds : StoredSeeds;
  er_pair : MachineKeyPair;
}.

Record MachineKeyStore : Type := mkMachineKeyStore {
  mks_entries : list EntryRecord;
  mks_poisoned : bool;
}.

Definition MachineKeyStore_new : MachineKeyStore := mkMachineKeyStore [] false.

(** [self.entries.lock().map_err(|_| SerializationError)] *)
Definition lock (s : MachineKeyStore) : result IdentityError (list EntryRecord) :=
  if mks_poisoned s then Err SerializationError else Ok (mks_entries s).

(** [self.entries.lock().map_err(..)?.push(record)] *)
Definition push_record (record : EntryRecord) : io MachineKeyStore IdentityError () := λ s,
  match lock s with
  | Ok entries => (mkMachineKeyStore (entries ++ [record]) (mks_poisoned s), Ok ())
  | Err e => (s, Err e)
  end.

(** How the dedicated thread ends: joined, not spawned, or panicked. *)
Inductive thread_outcome : Type := Joined | SpawnFailed (e : string) | ThreadPanicked.

Definition run_on_big_stack {A} (t : thread_outcome) (f : () → A) : result IdentityError A :=
  match t with
  | Joined => Ok (f ())
  | SpawnFailed e => Err (SealError ("spawn big-stack thread: " +:+ e))
  | ThreadPanicked => Err (SealError "big-stack thread panicked")
  end.

Record DerivedPair : Type := mkDerivedPair {
  dp_pair : MachineKeyPair;
  dp_ed25519_pub : arr 32;
  dp_mldsa65_pub : bytes;
}.

Definition derive_pair_and_public (seeds : StoredSeeds) (capabilities : Capabilities) (epoch : u64)
    : result zid_error DerivedPair :=
  pair ← pair_from_seeds (ss_sign seeds) (ss_encrypt seeds) (ss_pq_sign seeds)
    (ss_pq_encrypt seeds) capabilities epoch;
  Ok (mkDerivedPair pair (pair_ed25519_bytes pair) (pair_ml_dsa_bytes pair)).

(** What one generation draws from its environment: the 128 seed bytes, the machine id, the
    thread's end, and the clock ([None] before the Unix epoch). *)
Record generate_env : Type := mkGenerateEnv {
  ge_seeds : arr 128;
  ge_machine_id : arr 16;
  ge_thread : thread_outcome;
  ge_now : option u64;
}.

Definition slice32 (b : bytes) (from : nat) : arr 32 := arr_fit 32 (take 32 (drop from b)).

Definition seeds_of (seed_buf : arr 128) : StoredSeeds :=
  let b := arr_bytes seed_buf in
  mkStoredSeeds (slice32 b 0) (slice32 b 32) (slice32 b 64) (slice32 b 96).

Definition generate_machine_key_with (identity : NeuralKey) (label : rstr)
    (capabilities_bits : u32) (epoch : u64) (env : generate_env)
    : io MachineKeyStore IdentityError MachineKeyRecord :=
  let capabilities := caps_from_bits_truncate capabilities_bits in
  let seeds := seeds_of (ge_seeds env) in
  let machine_id := zid_machine (ge_machine_id env) in
  derived ← lift (run_on_big_stack (ge_thread env)
    (λ _, derive_pair_and_public seeds capabilities epoch));
  d ← lift (map_err Zid derived);
  created_at ← lift (ok_or (ge_now env) SerializationError);
  let entry := mkMachineKeyEntry machine_id label created_at (dp_ed25519_pub d)
    (dp_mldsa65_pub d) in
  let record := mkEntryRecord (identity_id identity) entry (caps_bits capabilities) epoch seeds
    (dp_pair d) in
  let caps := caps_bits capabilities in
  push_record record;;
  mret (mkMachineKeyRecord entry caps epoch).

Definition generate_machine_key (identity : NeuralKey) (label : rstr) (env : generate_env)
    : io MachineKeyStore IdentityError MachineKeyEntry :=
  record ← generate_machine_key_with identity label (umk 32 0) (umk 64 0) env;
  mret (mkr_entry record).

Definition owned_by (identity : NeuralKey) (r : EntryRecord) : Prop :=
  er_identity_id r = identity_id identity.
#[local] Instance owned_by_dec identity r : Decision (owned_by identity r).
Proof using EqDecision0. unfold owned_by. apply _. Defined.

(** [guard.iter().filter(|record| record.identity_id == target)] *)
Definition owned_records (identity : NeuralKey) (guard : list EntryRecord) : list EntryRecord :=
  filter (owned_by identity) guard.

Definition list_machine_keys (s : MachineKeyStore) (identity : NeuralKey)
    : result IdentityError (list MachineKeyEntry) :=
  guard ← lock s;
  Ok (er_entry <$> owned_records identity guard).

Definition record_of (r : EntryRecord) : MachineKeyRecord :=
  mkMachineKeyRecord (er_entry r) (er_capabilities r) (er_epoch r).

Definition list_machine_records (s : MachineKeyStore) (identity : NeuralKey)
    : result IdentityError (list MachineKeyRecord) :=
  guard ← lock s;
  Ok (record_of <$> owned_records identity guard).

Definition with_pair {A} (s : MachineKeyStore) (machine_id : ZidMachineId)
    (f : MachineKeyPair → A) : result IdentityError A :=
  guard ← lock s;
  record ← ok_or (find (λ r, bool_decide (mke_machine_id (er_entry r) = machine_id)) guard)
    KeyNotFound;
  Ok (f (er_pair record)).

Definition sign_with (s : MachineKeyStore) (machine_id : ZidMachineId) (payload : bytes)
    (t : thread_outcome) : result IdentityError bytes :=
  r ← with_pair s machine_id
    (λ pair, run_on_big_stack t (λ _, pair_sign_ed25519 pair payload));
  ed25519_sig ← r;
  Ok (arr_bytes ed25519_sig).

Definition ml_dsa_sign_with (s : MachineKeyStore) (machine_id : ZidMachineId) (payload : bytes)
    (t : thread_outcome) : result IdentityError bytes :=
  r ← with_pair s machine_id (λ pair, run_on_big_stack t (λ _, pair_sign_ml_dsa pair payload));
  ml_dsa_sig ← r;
  Ok ml_dsa_sig.

(** ** Sealing *)

Record SealedEntry : Type := mkSealedEntry {
  se_identity_id : arr 16; se_machine_id : arr 16; se_label : rstr; se_created_at : u64;
  se_capabilities : u32; se_epoch : u64;
  se_sign_seed : arr 32; se_encrypt_seed : arr 32; se_pq_sign_seed : arr 32;
  se_pq_encrypt_seed : arr 32;
}.

Record SealedPayload : Type := mkSealedPayload {
  sp_version : u8;
  sp_entries : list SealedEntry;
}.

Definition from_record (r : EntryRecord) : SealedEntry :=
  mkSealedEntry (zid_identity_bytes (er_identity_id r))
    (zid_machine_bytes (mke_machine_id (er_entry r))) (mke_label (er_entry r))
    (mke_created_at (er_entry r)) (er_capabilities r) (er_epoch r) (ss_sign (er_seeds r))
    (ss_encrypt (er_seeds r)) (ss_pq_sign (er_seeds r)) (ss_pq_encrypt (er_seeds r)).

Definition into_record (e : SealedEntry) (t : thread_outcome) : result IdentityError EntryRecord :=
  let caps := caps_from_bits_truncate (se_capabilities e) in
  let seeds := mkStoredSeeds (se_sign_seed e) (se_encrypt_seed e) (se_pq_sign_seed e)
    (se_pq_encrypt_seed e) in
  derived ← run_on_big_stack t (λ _, derive_pair_and_public seeds caps (se_epoch e));
  d ← map_err Zid derived;
  let entry := mkMachineKeyEntry (zid_machine (se_machine_id e)) (se_label e) (se_created_at e)
    (dp_ed25519_pub d) (dp_mldsa65_pub d) in
  Ok (mkEntryRecord (zid_identity (se_identity_id e)) entry (se_capabilities e) (se_epoch e)
    seeds (dp_pair d)).

(** [serde_byte_array_32] *)
Definition seed_serialize (b : arr 32) : bytes := arr_bytes b.
Definition seed_deserialize (b : bytes) : result string (arr 32) :=
  if negb (length b =? 32) then Err ("expected 32-byte seed, got " +:+ pretty (length b))%string
  else Ok (arr_fit 32 b).

Definition raw_of_entry (e : SealedEntry) : raw_entry :=
  mkRawEntry (se_identity_id e) (se_machine_id e) (se_label e) (se_created_at e)
    (se_capabilities e) (se_epoch e) (seed_serialize (se_sign_seed e))
    (seed_serialize (se_encrypt_seed e)) (seed_serialize (se_pq_sign_seed e))
    (seed_serialize (se_pq_encrypt_seed e)).

Definition entry_of_raw (r : raw_entry) : result string SealedEntry :=
  sign ← seed_deserialize (re_sign r);
  encrypt ← seed_deserialize (re_encrypt r);
  pq_sign ← seed_deserialize (re_pq_sign r);
  pq_encrypt ← seed_deserialize (re_pq_encrypt r);
  Ok (mkSealedEntry (re_identity_id r) (re_machine_id r) (re_label r) (re_created_at r)
    (re_capabilities r) (re_epoch r) sign encrypt pq_sign pq_encrypt).

(** The derived [Serialize] and [Deserialize] of [SealedPayload]. *)
Definition raw_of_payload (p : SealedPayload) : raw_payload :=
  mkRawPayload (sp_version p) (raw_of_entry <$> sp_entries p).

Definition payload_of_raw (r : raw_payload) : result string SealedPayload :=
  entries ← for_each (λ es x, e ← entry_of_raw x; Ok (Continue (es ++ [e]))) [] (rp_entries r);
  Ok (mkSealedPayload (rp_version r) entries).

Definition aead_from_neural_key (k : NeuralKey) : result IdentityError chacha_cipher :=
  let ikm := arr_bytes (identity_id_bytes k) in
  let okm := hkdf_expand ikm HKDF_INFO in
  map_err (λ e, SealError ("aead key init: " +:+ e)) (chacha_new (arr_bytes okm)).

Definition to_sealed_bytes (s : MachineKeyStore) (k : NeuralKey) (nonce : arr 12)
    : result IdentityError bytes :=
  guard ← lock s;
  let payload := mkSealedPayload SEAL_VERSION (from_record <$> guard) in
  plaintext ← map_err (λ e, SealError ("cbor encode: " +:+ e))
    (cbor_into_writer (raw_of_payload payload));
  aead ← aead_from_neural_key k;
  ciphertext ← ok_or (chacha_encrypt aead nonce [] plaintext) (SealError "aead encrypt failed");
  Ok (arr_bytes nonce ++ ciphertext).

(** [ts i] is the end of the thread that rebuilds the [i]th entry. *)
Fixpoint rebuild (ts : nat → thread_outcome) (entries : list SealedEntry)
    : result IdentityError (list EntryRecord) :=
  match entries with
  | [] => Ok []
  | sealed :: rest =>
      record ← into_record sealed (ts 0);
      records ← rebuild (λ i, ts (S i)) rest;
      Ok (record :: records)
  end.

Definition from_sealed_bytes (k : NeuralKey) (b : bytes) (ts : nat → thread_outcome)
    : result IdentityError MachineKeyStore :=
  if length b <? NONCE_LEN then Err (UnsealError "payload shorter than nonce")
  else
    let nonce := arr_fit 12 (take NONCE_LEN b) in
    let ciphertext := drop NONCE_LEN b in
    aead ← aead_from_neural_key k;
    plaintext ← ok_or (chacha_decrypt aead nonce [] ciphertext)
      (UnsealError "aead authentication failed");
    raw ← map_err (λ e, UnsealError ("cbor decode: " +:+ e)) (cbor_from_reader plaintext);
    payload ← map_err (λ e, UnsealError ("cbor decode: " +:+ e)) (payload_of_raw raw);
    if bool_decide (sp_version payload ≠ SEAL_VERSION) then
      Err (UnsealError ("unsupported sealed version: " +:+ pretty (uval (sp_version payload))))
    else
      records ← rebuild ts (sp_entries payload);
      Ok (mkMachineKeyStore records false).
End machine_key.

(** ** Laws *)

Section machine_laws.
Context `{ZK : ZidKeys} `{ZKOk : !ZidKeysOk} `{ZM : !ZidMachine} `{ZMOk : !ZidMachineOk}
  `{EI : !EqDecision ZidIdentityId} `{EM : !EqDecision ZidMachineId}.
Context `{BB : Blake3} `{BK : Blake3Keyed} `{HK : HkdfSha256} `{CC : ChaCha20Poly1305}
  `{COk : !ChaChaOk} `{SC : SealedCbor} `{SCOk : !SealedCborOk}.
Implicit Types (s : MachineKeyStore) (r : EntryRecord) (k : NeuralKey).

(** A record's pair and public keys are those its seeds derive. *)
Definition record_wf r : Prop :=
  derive_pair_and_public (er_seeds r) (caps_from_bits_truncate (er_capabilities r)) (er_epoch r) =
    Ok (mkDerivedPair (er_pair r) (mke_ed25519_pub (er_entry r)) (mke_mldsa65_pub (er_entry r))).

Definition store_wf s : Prop := Forall record_wf (mks_entries s) ∧ mks_poisoned s = false.

(** The record a generation adds, when its environment lets it. *)
Definition new_record k (label : rstr) (bits : u32) (epoch : u64) (env : generate_env)
    : option EntryRecord :=
  let caps := caps_from_bits_truncate bits in
  match ge_thread env, derive_pair_and_public (seeds_of (ge_seeds env)) caps epoch, ge_now env with
  | Joined, Ok d, Some now =>
      Some (mkEntryRecord (identity_id k)
        (mkMachineKeyEntry (zid_machine (ge_machine_id env)) label now (dp_ed25519_pub d)
          (dp_mldsa65_pub d))
        (caps_bits caps) epoch (seeds_of (ge_seeds env)) (dp_pair d))
  | _, _, _ => None
  end.

Lemma new_record_wf k label bits epoch env r :
  new_record k label bits epoch env = Some r → record_wf r.
Proof using ZMOk.
  unfold new_record. destruct (ge_thread env); [|done|done].
  destruct (derive_pair_and_public _ _ _) as [[p e m]|] eqn:Hd; [|done].
  destruct (ge_now env); [|done]. intros [= <-]. unfold record_wf.
  cbn [er_seeds er_capabilities er_epoch er_pair er_entry mke_ed25519_pub mke_mldsa65_pub
       dp_pair dp_ed25519_pub dp_mldsa65_pub]. by rewrite caps_truncate_bits.
Qed.

Lemma generate_run k label bits epoch env s :
  mks_poisoned s = false →
  match new_record k label bits epoch env with
  | Some r => generate_machine_key_with k label bits epoch env s =
      (mkMachineKeyStore (mks_entries s ++ [r]) false, Ok (record_of r))
  | None => ∃ e, generate_machine_key_with k label bits epoch env s = (s, Err e)
  end.
Proof using.
  intros Hp. unfold new_record, generate_machine_key_with, mbind, io_bind, lift.
  destruct (ge_thread env); cbn [run_on_big_stack]; [|by eexists|by eexists].
  destruct (derive_pair_and_public _ _ _) as [d|e]; cbn [map_err]; [|by eexists].
  destruct (ge_now env); cbn [ok_or]; [|by eexists].
  unfold push_record, lock. rewrite Hp. done.
Qed.

Lemma list_run s k : mks_poisoned s = false →
  list_machine_records s k = Ok (record_of <$> owned_records k (mks_entries s)).
Proof using. intros Hp. unfold list_machine_records, lock. by rewrite Hp. Qed.

Lemma owned_snoc k l r :
  owned_records k (l ++ [r]) =
    owned_records k l ++ (if decide (er_identity_id r = identity_id k) then [r] else []).
Proof using.
  unfold owned_records. by rewrite filter_app.
Qed.

Lemma find_app {A} (p : A → bool) (l1 l2 : list A) :
  find p (l1 ++ l2) = match find p l1 with Some x => Some x | None => find p l2 end.
Proof using. induction l1 as [|x l1 IHl]; simpl; [done|]. by destruct (p x). Qed.

Lemma sign_with_run s mid payload : mks_poisoned s = false →
  sign_with s mid payload Joined =
    match find (λ r, bool_decide (mke_machine_id (er_entry r) = mid)) (mks_entries s) with
    | Some r => Ok (arr_bytes (pair_sign_ed25519 (er_pair r) payload))
    | None => Err KeyNotFound
    end.
Proof using.
  intros Hp. unfold sign_with, with_pair, lock. rewrite Hp. cbn [mbind result_bind].
  by destruct (find _ _).
Qed.

(** C38: generating a key succeeds exactly when its thread joins, the seeds are accepted and
    the clock is past the epoch. Then the key is listed last among its identity's, no other
    identity's list changes, the store stays well formed, and signing under a fresh machine id
    uses the new pair while every other id signs as before; otherwise nothing changes. *)
Theorem generate_machine_key_spec k label bits epoch env s :
  store_wf s →
  let (s', res) := generate_machine_key_with k label bits epoch env s in
  store_wf s' ∧
  match new_record k label bits epoch env with
  | None => s' = s ∧ is_ok res = false
  | Some r =>
      res = Ok (record_of r) ∧
      (∃ l, list_machine_records s k = Ok l ∧ list_machine_records s' k = Ok (l ++ [record_of r])) ∧
      (∀ k', identity_id k' ≠ identity_id k →
         list_machine_records s' k' = list_machine_records s k') ∧
      ∀ mid payload,
        sign_with s' mid payload Joined =
          match sign_with s mid payload Joined with
          | Ok sig => Ok sig
          | Err e =>
              if decide (mid = zid_machine (ge_machine_id env))
              then Ok (arr_bytes (pair_sign_ed25519 (er_pair r) payload)) else Err e
          end
  end.
Proof using ZMOk.
  intros [Hw Hp]. pose proof (generate_run k label bits epoch env s Hp) as Hrun.
  destruct (new_record k label bits epoch env) as [r|] eqn:Hr.
  2:{ destruct Hrun as [e ->]. by split_and!. }
  rewrite Hrun. split; [split; [|done]|].
  { apply Forall_app. split; [done|]. apply Forall_singleton. by eapply new_record_wf. }
  assert (er_identity_id r = identity_id k ∧ mke_machine_id (er_entry r) = zid_machine (ge_machine_id env))
    as [Hid Hmid].
  { revert Hr. unfold new_record. repeat case_match; try done. by intros [= <-]. }
  split; [done|]. rewrite !list_run by done. cbn [mks_entries].
  split_and!.
  - eexists. split; [done|].
    by rewrite owned_snoc, decide_True, fmap_app.
  - intros k' Hne. rewrite !list_run by done. cbn [mks_entries].
    by rewrite owned_snoc, decide_False, app_nil_r by congruence.
  - intros mid payload. rewrite !sign_with_run by done. cbn [mks_entries]. rewrite find_app.
    cbn [find]. rewrite Hmid. destruct (find _ (mks_entries s)); [done|].
    case_bool_decide; case_decide; congruence || done.
Qed.

(** ** Sealing *)

Lemma seed_roundtrip (a : arr 32) : seed_deserialize (seed_serialize a) = Ok a.
Proof using.
  unfold seed_deserialize, seed_serialize. rewrite length_arr. cbn [Nat.eqb negb].
  by rewrite arr_fit_arr.
Qed.

Lemma entry_roundtrip (e : SealedEntry) : entry_of_raw (raw_of_entry e) = Ok e.
Proof using.
  unfold entry_of_raw, raw_of_entry. cbn [re_sign re_encrypt re_pq_sign re_pq_encrypt].
  rewrite !seed_roundtrip. by destruct e.
Qed.

Lemma payload_roundtrip (p : SealedPayload) : payload_of_raw (raw_of_payload p) = Ok p.
Proof using.
  unfold payload_of_raw, raw_of_payload. cbn [rp_entries rp_version].
  assert (∀ l acc, for_each (λ es x, e ← entry_of_raw x; Ok (Continue (es ++ [e]))) acc
    (raw_of_entry <$> l) = Ok (acc ++ l)) as Hloop.
  { intros l. induction l as [|e l IHl]; intros acc; [simpl; by rewrite app_nil_r|].
    rewrite fmap_cons. cbn [for_each]. rewrite entry_roundtrip. cbn [mbind result_bind].
    rewrite IHl. by rewrite <-(assoc_L (++)). }
  rewrite Hloop. by destruct p.
Qed.

Lemma record_roundtrip r : record_wf r → into_record (from_record r) Joined = Ok r.
Proof using ZKOk ZMOk.
  destruct r as [i [m la c e d] ca ep [s1 s2 s3 s4] pr]. unfold record_wf, into_record, from_record.
  cbn [er_seeds er_capabilities er_epoch er_pair er_entry mke_ed25519_pub mke_mldsa65_pub
       se_capabilities se_sign_seed se_encrypt_seed se_pq_sign_seed se_pq_encrypt_seed se_epoch
       ss_sign ss_encrypt ss_pq_sign ss_pq_encrypt se_machine_id se_label se_created_at
       se_identity_id er_identity_id mke_machine_id mke_label mke_created_at run_on_big_stack
       mbind result_bind].
  intros ->. cbn [map_err dp_pair dp_ed25519_pub dp_mldsa65_pub].
  by rewrite zid_machine_of_bytes, zid_identity_of_bytes.
Qed.

Lemma rebuild_records (l : list EntryRecord) ts :
  Forall record_wf l → (∀ i, ts i = Joined) → rebuild ts (from_record <$> l) = Ok l.
Proof using ZKOk ZMOk.
  intros Hw. revert ts. induction Hw as [|r l Hr Hl IHl]; intros ts Hts; [done|].
  rewrite fmap_cons. cbn [rebuild]. rewrite Hts, record_roundtrip by done.
  cbn [mbind result_bind]. by rewrite IHl.
Qed.

(** What [into_record] rebuilds is well formed. *)
Lemma into_record_wf (e : SealedEntry) t r : into_record e t = Ok r → record_wf r.
Proof using.
  unfold into_record. destruct t; cbn [run_on_big_stack mbind result_bind]; [|done|done].
  destruct (derive_pair_and_public _ _ _) as [[p ed ml]|] eqn:Hd; cbn [map_err]; [|done].
  intros [= <-]. exact Hd.
Qed.

Lemma rebuild_wf ts es l : rebuild ts es = Ok l → Forall record_wf l.
Proof using.
  revert ts l. induction es as [|e es IHl]; intros ts l; cbn [rebuild]; [by intros [= <-]|].
  destruct (into_record e (ts 0)) as [r|] eqn:Hr; cbn [mbind result_bind]; [|done].
  destruct (rebuild _ es) as [l'|] eqn:Hl; [|done]. intros [= <-].
  constructor; [by eapply into_record_wf|by eapply IHl].
Qed.

Definition sealed_payload s : raw_payload :=
  raw_of_payload (mkSealedPayload SEAL_VERSION (from_record <$> mks_entries s)).

Lemma aead_ok k : ∃ aead, aead_from_neural_key k = Ok aead.
Proof using COk.
  unfold aead_from_neural_key. destruct (chacha_new_32
    (hkdf_expand (arr_bytes (identity_id_bytes k)) HKDF_INFO)) as [c ->]. by exists c.
Qed.

(** C16: a well-formed store within the encoder's and the cipher's limits seals, and what it
    seals to unseals under the same key to the same store, so the same keys sign the same;
    whatever unseals is a seal under that key by its own nonce, and a well-formed store. *)
Theorem sealed_roundtrip s k nonce :
  store_wf s →
  (sealed_limit (sealed_payload s) →
   (∀ p, cbor_into_writer (sealed_payload s) = Ok p → length p ≤ chacha_limit) →
   is_ok (to_sealed_bytes s k nonce) = true) ∧
  (∀ b ts, to_sealed_bytes s k nonce = Ok b → (∀ i, ts i = Joined) →
     from_sealed_bytes k b ts = Ok s) ∧
  ∀ b ts s', from_sealed_bytes k b ts = Ok s' →
    store_wf s' ∧ ∃ n aead p raw, aead_from_neural_key k = Ok aead ∧
      (∃ c, chacha_encrypt aead n [] p = Some c ∧ b = arr_bytes n ++ c) ∧
      cbor_from_reader p = Ok raw ∧ rp_version raw = SEAL_VERSION.
Proof using COk SCOk ZKOk ZMOk.
  intros [Hw Hp]. destruct (aead_ok k) as [aead Ha].
  unfold to_sealed_bytes, lock, from_sealed_bytes. rewrite Hp, Ha. cbn [mbind result_bind].
  fold (sealed_payload s). split_and!.
  - intros Hlim Hlen. pose proof (cbor_into_some _ Hlim) as Hs.
    destruct (cbor_into_writer _) as [p|]; [|done]. cbn [map_err mbind result_bind].
    destruct (chacha_encrypt_some aead nonce [] p (Hlen p eq_refl)) as [c ->]. done.
  - intros b ts Hb Hts. destruct (cbor_into_writer _) as [p|] eqn:Hc; [|done].
    cbn [map_err mbind result_bind] in Hb. destruct (chacha_encrypt _ _ _ _) as [c|] eqn:Henc; [|done].
    cbn [ok_or mbind result_bind] in Hb. injection Hb as <-.
    pose proof (length_arr nonce) as Hl. unfold NONCE_LEN.
    destruct (Nat.ltb_spec (length (arr_bytes nonce ++ c)) 12) as [Hlt|_];
      [rewrite length_app in Hlt; lia|].
    rewrite take_app_length', drop_app_length' by done. rewrite arr_fit_arr.
    rewrite (chacha_roundtrip _ _ _ _ _ Henc). cbn [ok_or mbind result_bind].
    rewrite (cbor_roundtrip _ _ Hc). cbn [map_err mbind result_bind].
    unfold sealed_payload. rewrite payload_roundtrip. cbn [map_err mbind result_bind sp_version].
    rewrite bool_decide_false by (intros Hn; by apply Hn). cbn [sp_entries].
    rewrite rebuild_records by done. cbn [mbind result_bind]. rewrite <-Hp. by destruct s.
  - intros b ts s'. destruct (Nat.ltb_spec (length b) NONCE_LEN) as [|Hlen]; [done|].
    destruct (chacha_decrypt _ _ _ _) as [p|] eqn:Hdec; [|done]. cbn [ok_or mbind result_bind].
    destruct (cbor_from_reader p) as [raw|] eqn:Hraw; [|done]. cbn [map_err mbind result_bind].
    destruct (payload_of_raw raw) as [pl|] eqn:Hpl; [|done]. cbn [map_err mbind result_bind].
    case_bool_decide as Hv; [done|]. destruct (rebuild ts _) as [l|] eqn:Hl; [|done].
    cbn [mbind result_bind]. intros [= <-]. split; [split; [by eapply rebuild_wf|done]|].
    exists (arr_fit 12 (take NONCE_LEN b)), aead, p, raw. split_and!; [done| |done|].
    + exists (drop NONCE_LEN b). split; [by apply chacha_canonical|].
      unfold NONCE_LEN in *. by rewrite arr_fit_bytes, take_drop by (rewrite length_take; lia).
    + assert (sp_version pl = rp_version raw) as <-.
      2:{ destruct (decide (sp_version pl = SEAL_VERSION)); [done|]. by destruct Hv. }
      revert Hpl. unfold payload_of_raw. destruct (for_each _ _ _) as [es|]; cbn [mbind result_bind]; [|done].
      by intros [= <-].
Qed.
End machine_laws.

(** ** A concrete [zid] and encoder for the witness *)

#[export] Instance mem_machine : @ZidMachine mem_zid := {
  Capabilities := uint 6;
  caps_from_bits_truncate x := umk 6 (uval x);
  caps_bits c := umk 32 (uval c);
  MachineKeyPair := arr 32 * arr 32;
  pair_from_seeds sign _ pq_sign _ _ _ := Ok (sign, pq_sign);
  pair_ed25519_bytes p := p.1;
  pair_ml_dsa_bytes p := arr_bytes p.2;
  pair_sign_ed25519 p m := arr_fit 64 (arr_bytes p.1 ++ m);
  pair_sign_ml_dsa p m := arr_bytes p.2 ++ m;
  ZidMachineId := arr 16; zid_machine b := b; zid_machine_bytes i := i;
}.

#[export] Instance mem_machine_ok : @ZidMachineOk mem_zid mem_machine.
Proof.
  split; [|done|done]. intros c. change (uint 6) in c.
  change (umk 6 (uval (umk 32 (uval c))) = c). pose proof (uint_range c).
  rewrite (uval_umk_small 32) by lia. apply umk_uval.
Qed.

Definition ser_raw_entry : Ser raw_entry :=
  ser_iso (λ e, (re_identity_id e, (re_machine_id e, (re_label e, (re_created_at e,
      (re_capabilities e, (re_epoch e, (re_sign e, (re_encrypt e, (re_pq_sign e, re_pq_encrypt e))))))))))
    (λ p, let '(a, (b, (c, (d, (e, (f, (g, (h, (i, j))))))))) := p in mkRawEntry a b c d e f g h i j)
    (λ e, match e with mkRawEntry _ _ _ _ _ _ _ _ _ _ => eq_refl end).
#[local] Existing Instance ser_raw_entry.
Definition ser_raw_payload : Ser raw_payload :=
  ser_iso (λ p, (rp_version p, rp_entries p)) (λ p, mkRawPayload p.1 p.2)
    (λ p, match p with mkRawPayload _ _ => eq_refl end).
#[local] Existing Instance ser_raw_payload.

#[export] Instance mem_cbor : SealedCbor := {
  cbor_into_writer p := Ok (ser p);
  cbor_from_reader b := match deser b with Some (p, []) => Ok p | _ => Err "decode"%string end;
}.

#[export] Program Instance mem_cbor_ok : @SealedCborOk mem_cbor := { sealed_limit _ := True }.
Next Obligation. done. Qed.
Next Obligation.
  intros p b Hb. change (Ok (ser p) = (Ok b : result string bytes)) in Hb.
  assert (ser p = b) as <- by congruence.
  change (match deser (ser p) with Some (q, []) => Ok q | _ => Err "decode"%string end = Ok p).
  by rewrite deser_ser_nil.
Qed.

#[local] Existing Instances toy_chacha toy_chacha_ok toy_hkdf.

Definition sample_env (m : byte) : generate_env :=
  mkGenerateEnv (arr_fill 128 m) (arr_fill 16 m) Joined (Some (umk 64 7)).
Definition empty_store : MachineKeyStore := MachineKeyStore_new.
Definition laptop_store : MachineKeyStore :=
  (generate_machine_key_with root_key (rstr_of "laptop") (umk 32 255) (umk 64 0)
     (sample_env Byte.x01) empty_store).1.

Lemma empty_store_wf : store_wf empty_store.
Proof. split; [constructor|reflexivity]. Qed.

Lemma laptop_store_wf : store_wf laptop_store.
Proof. split; [|reflexivity]. repeat constructor. Qed.

Lemma generate_machine_key_spec_witness :
  is_ok (generate_machine_key_with root_key (rstr_of "laptop") (umk 32 255) (umk 64 0)
    (sample_env Byte.x01) empty_store).2 = true ∧ store_wf laptop_store.
Proof.
  split; [vm_compute; reflexivity|].
  pose proof (generate_machine_key_spec root_key (rstr_of "laptop") (umk 32 255) (umk 64 0)
    (sample_env Byte.x01) empty_store empty_store_wf) as H.
  unfold laptop_store. destruct (generate_machine_key_with _ _ _ _ _ _). exact (proj1 H).
Defined.

Lemma sealed_roundtrip_witness :
  is_ok (to_sealed_bytes laptop_store root_key (arr_fill 12 Byte.x09)) = true ∧
  ∀ b, to_sealed_bytes laptop_store root_key (arr_fill 12 Byte.x09) = Ok b →
    from_sealed_bytes root_key b (λ _, Joined) = Ok laptop_store.
Proof.
  pose proof (sealed_roundtrip laptop_store root_key (arr_fill 12 Byte.x09) laptop_store_wf)
    as (_ & H & _).
  split; [vm_compute; reflexivity|]. intros b Hb. exact (H b (λ _, Joined) Hb (λ _, eq_refl)).
Defined.
