(* ===== verification/Sdk.v ===== *)
(** * The facade ([zero-sdk/src/])

    [ZeroSdk] ([lib.rs], [builder.rs]) opens one database and wires the services over it. The
    services keep their data in column families of that database; here they run side by side:
    any history of their operations behaves as its specification on the product of their
    states. *)

From Stdlib Require Import ZArith Lia.
From stdpp Require Import base tactics gmap strings sorting numbers countable list.
From S2P Require Import Prelude Bytes Store Mem Aad Db Dedupe Outbox.
From S2P Require Import Contacts Net Dm Group GroupOps Inbox DmReceive NeuralKey.
#[local] Open Scope nat_scope.

(** ** The column families an operation writes *)

Section writes.
Context `{ROk : RocksOk} `{P : PostcardLib}.

Definition writes {E A} (cfs : list string) (m : io DB E A) : Prop :=
  ∀ db, good db → good (m db).1 ∧
    ∀ p, p.1 ∉ cfs → contents (m db).1 !! p = contents db !! p.

Lemma writes_bind {E A B : Type} cfs (m : io DB E A) (f : A → io DB E B) :
  writes cfs m → (∀ a, writes cfs (f a)) → writes cfs (m ≫= f).
Proof using.
  intros Hm Hf db Hg. destruct (Hm db Hg) as [Hg1 H1]. unfold mbind, io_bind.
  destruct (m db) as [db1 [a|e]]; cbn [fst] in *; [|done].
  destruct (Hf a db1 Hg1) as [Hg2 H2]. split; [done|]. intros p Hp. by rewrite H2, H1.
Qed.

Lemma writes_ret {E A : Type} cfs (a : A) : writes cfs (mret a : io DB E A).
Proof using. by intros db Hg. Qed.
Lemma writes_reads {E A : Type} cfs (f : DB → result E A) : writes cfs (reads f).
Proof using. by intros db Hg. Qed.
Lemma writes_lift {E A : Type} cfs (r : result E A) : writes cfs (lift r : io DB E A).
Proof using. by intros db Hg. Qed.
Lemma writes_fails {E A : Type} cfs (e : E) : writes cfs (fails e : io DB E A).
Proof using. by intros db Hg. Qed.

Lemma writes_map_err {E E' A : Type} cfs (f : E → E') (m : io DB E A) :
  writes cfs m → writes cfs (io_map_err f m).
Proof using.
  intros Hm db Hg. destruct (Hm db Hg) as [? ?]. unfold io_map_err. by destruct (m db).
Qed.

Lemma writes_attempt {E A : Type} cfs (m : io DB E A) : writes cfs m → writes cfs (attempt m).
Proof using. intros Hm db Hg. destruct (Hm db Hg) as [? ?]. unfold attempt. by destruct (m db). Qed.

Lemma writes_put_raw cfs cf k v : cf ∈ cfs → cf ∈ ALL_CFS → writes cfs (put_raw cf k v).
Proof using.
  intros Hin Hall db Hg. destruct (put_raw_good db cf k v Hg Hall) as (db' & -> & Hg' & Hc).
  split; [done|]. cbn [fst]. rewrite Hc. intros p Hp. rewrite lookup_insert_ne; [done|].
  by intros <-.
Qed.

Lemma writes_delete_raw cfs cf k : cf ∈ cfs → cf ∈ ALL_CFS → writes cfs (delete_raw cf k).
Proof using.
  intros Hin Hall db Hg. destruct (delete_raw_good db cf k Hg Hall) as (db' & -> & Hg' & Hc).
  split; [done|]. cbn [fst]. rewrite Hc. intros p Hp. rewrite lookup_delete_ne; [done|].
  by intros <-.
Qed.

(** Outside the families written, nothing that [runs] describes has changed. *)
Lemma runs_outside {E A : Type} cfs (m : io DB E A) db r st :
  good db → writes cfs m → runs m db r st → ∀ p, p.1 ∉ cfs → st !! p = contents db !! p.
Proof using.
  intros Hg Hw (db' & Hm & _ & <-). destruct (Hw db Hg) as [_ Hout]. by rewrite Hm in Hout.
Qed.

Lemma repr_outside {K V} `{Countable K} `{!Postcard V} (ks : keyspace K)
    (cfs : list string) (st st' : store) (M : gmap K V) :
  (∀ p, p.1 ∉ cfs → st' !! p = st !! p) → ks_cf ks ∉ cfs → repr ks st M → repr ks st' M.
Proof using.
  intros Hout Hcf [Hlk Hfam]. split.
  - intros k. rewrite Hout by done. apply Hlk.
  - intros b v. rewrite Hout by done. apply Hfam.
Qed.
End writes.

(** Walks through an operation down to its writes. *)
Ltac solve_in := apply (bool_decide_unpack _); vm_compute; exact I.
Ltac solve_out := apply (bool_decide_unpack _); vm_compute; exact I.
Ltac walk :=
  repeat first
    [ apply writes_ret | apply writes_reads | apply writes_lift | apply writes_fails
    | apply writes_map_err | apply writes_attempt
    | apply writes_put_raw; [solve_in|solve_in]
    | apply writes_delete_raw; [solve_in|solve_in]
    | apply writes_bind; [|intros ?]
    | match goal with
      | |- writes _ (match ?x with _ => _ end) => destruct x
      | |- writes _ (if ?x then _ else _) => destruct x
      | |- writes _ (let _ := _ in _) => cbv zeta
      end ].

(** ** [ZeroSdk] *)

Section sdk.
Context `{R : RocksDB} `{P : PostcardLib} `{B : Blake3} `{BK : Blake3Keyed} `{ZK : ZidKeys}.
Context `{!Postcard OutboxEntry, !Postcard Contact, !Postcard Conversation, !Postcard Message,
          !Postcard DmSectorPayload, !Postcard ReceiptPayload, !Postcard InboxEntry,
          !Postcard GroupManifest, !Postcard GroupMessage}.

Inductive SdkError : Type :=
| SdkIdentity (e : IdentityError)
| SdkStorage (e : StorageError)
| SdkNetwork (e : NetworkError)
| SdkDm (e : DmError)
| SdkGroup (e : GroupError)
| SdkInbox (e : InboxError)
| SdkContact (e : ContactError)
| SdkBuild (s : string).

(** The services; the database they share is threaded. *)
Record ZeroSdk : Type := mkZeroSdk {
  sdk_contacts : ContactStore;
  sdk_dm : DmService;
  sdk_inbox : InboxService;
  sdk_identity_id : IdentityId;
  sdk_machine_id : MachineId;
}.

Definition derive_default_machine_id (identity_id : IdentityId) : MachineId :=
  let hash := blake3_keyed_hash (blake3_hash (blit "zero-sdk:machine-id:v1"))
    (arr_bytes (identity_id_0 identity_id)) in
  mkMachineId (arr_fit 16 (take 16 (arr_bytes hash))).

Definition open_raw (path : Directory) (identity_id : IdentityId) (machine_id : MachineId)
    : result SdkError (DB * ZeroSdk) :=
  db ← map_err SdkStorage (open path);
  let contacts := ContactStore_new identity_id in
  let dm := DmService_new identity_id machine_id contacts in
  let inbox := mkInboxService identity_id machine_id in
  Ok (db, mkZeroSdk contacts dm inbox identity_id machine_id).

Definition sdk_open (path : Directory) (neural_key : NeuralKey) : result SdkError (DB * ZeroSdk) :=
  let identity_id := mkIdentityId (identity_id_bytes neural_key) in
  let machine_id := derive_default_machine_id identity_id in
  open_raw path identity_id machine_id.

Definition sdk_list_inbox (sdk : ZeroSdk) (db : DB) (limit : option nat)
    : result SdkError (list InboxEntry) :=
  map_err SdkInbox (list_conversations (sdk_inbox sdk) db limit).

Definition sdk_inbox_stats (sdk : ZeroSdk) (db : DB) : result SdkError InboxStats :=
  map_err SdkInbox (stats (sdk_inbox sdk) db).

(** ** Operations of all services *)

Inductive sdk_op : Type :=
| AddContact (c : Contact)
| RemoveContact (id : IdentityId)
| OpenConversation (peer : IdentityId)
| SendText (cid : ConversationId) (text : rstr) (now : u64) (mu su : arr 16)
| ReceiveDm (b : bytes) (rd : readings)
| SetStatus (cid : ConversationId) (mid : MessageId) (s : MessageStatus) (now : u64)
| MarkReadEmit (cid : ConversationId) (mid : MessageId) (t1 t2 t3 : u64) (uuid : arr 16)
| OutboxRetried (id : SectorId) (t : u64)
| OutboxDone (id : SectorId)
| InboxUpsert (e : InboxEntry)
| InboxRead (r : ConversationRef)
| CreateGroup (label : rstr) (founders : list IdentityId) (uuid : arr 16) (now : u64)
| ChangeGroup (g : GroupId) (op : group_op)
| SendGroup (g : GroupId) (text : rstr) (uuid : arr 16) (now : u64)
| ReceiveGroup (m : GroupMessage)
| GroupReceipt (r : GroupReceiptPayload).

(** What an operation returns. *)
Inductive sdk_value : Type :=
| VUnit
| VConversation (v : Conversation)
| VMessage (m : MessageId)
| VReceipt (r : ReceiptPayload)
| VGroup (g : GroupId)
| VGroupMessage (m : GroupMessageId)
| VBool (b : bool).

Definition wrap {S E A : Type} (ferr : E → SdkError) (fval : A → sdk_value) (m : io S E A)
    : io S SdkError sdk_value := λ s,
  match m s with (s', r) => (s', fval <$> map_err ferr r) end.

Definition own_receiver (sdk : ZeroSdk) : DmReceiver :=
  mkDmReceiver (sdk_dm sdk) (sdk_identity_id sdk) (sdk_machine_id sdk).

Definition run_sdk (sdk : ZeroSdk) (op : sdk_op) : io DB SdkError sdk_value :=
  match op with
  | AddContact c => wrap SdkContact (λ _, VUnit) (add_contact (sdk_contacts sdk) c)
  | RemoveContact id => wrap SdkContact (λ _, VUnit) (remove_contact (sdk_contacts sdk) id)
  | OpenConversation peer => wrap SdkDm VConversation (open_conversation (sdk_dm sdk) peer)
  | SendText cid text now mu su => wrap SdkDm VMessage (send_text (sdk_dm sdk) cid text now mu su)
  | ReceiveDm b rd => wrap SdkDm VMessage (process_inbound_dm (own_receiver sdk) b rd)
  | SetStatus cid mid s now => wrap SdkDm (λ _, VUnit) (update_status cid mid s now)
  | MarkReadEmit cid mid t1 t2 t3 uuid =>
      wrap SdkDm VReceipt (mark_read_and_emit (sdk_dm sdk) cid mid Outbox_new t1 t2 t3 uuid)
  | OutboxRetried id t => wrap SdkStorage (λ _, VUnit) (mark_attempted id t)
  | OutboxDone id => wrap SdkStorage (λ _, VUnit) (remove id)
  | InboxUpsert e => wrap SdkInbox (λ _, VUnit) (upsert (sdk_inbox sdk) e)
  | InboxRead r => wrap SdkInbox (λ _, VUnit) (inbox_mark_read (sdk_inbox sdk) r)
  | CreateGroup label founders uuid now =>
      wrap SdkGroup VGroup (create_group label founders uuid now)
  | ChangeGroup g op => wrap SdkGroup (λ _, VUnit) (run_group_op g op)
  | SendGroup g text uuid now => wrap SdkGroup VGroupMessage
      (send_message g (sdk_identity_id sdk) (sdk_machine_id sdk) text uuid now)
  | ReceiveGroup m => wrap SdkGroup VBool (receive_message m)
  | GroupReceipt r => wrap SdkGroup VBool (group_process_receipt r)
  end.

(** ** Specification on the product of the states *)

Record sdk_state : Type := SdkState {
  s_dm : dm_state;
  s_inbox : inbox_map;
  s_groups : group_map;
  s_gmsgs : gmsg_map;
}.

Definition sdk_empty : sdk_state := SdkState (DmState ∅ ∅ ∅ ∅) ∅ ∅ ∅.

Definition set_dm (D : dm_state) (S : sdk_state) : sdk_state :=
  SdkState D (s_inbox S) (s_groups S) (s_gmsgs S).
Definition set_inbox (I : inbox_map) (S : sdk_state) : sdk_state :=
  SdkState (s_dm S) I (s_groups S) (s_gmsgs S).
Definition set_groups (G : group_map) (GM : gmsg_map) (S : sdk_state) : sdk_state :=
  SdkState (s_dm S) (s_inbox S) G GM.
Definition set_contacts (K : books) (D : dm_state) : dm_state :=
  DmState K (d_convs D) (d_msgs D) (d_outbox D).

Definition spec_add (o : IdentityId) (c : Contact) (K : books) : books * result ContactError () :=
  if 64 <? str_len (contact_label c) then (K, Err (CeLabelTooLong (str_len (contact_label c))))
  else (<[(o, contact_identity_id c) := c]> K, Ok ()).

(** The next DM, inbox or group state of a component's specification, put back. *)
Definition on_dm {E A : Type} (ferr : E → SdkError) (fval : A → sdk_value)
    (x : dm_state * result E A) (S : sdk_state) : sdk_state * result SdkError sdk_value :=
  (set_dm x.1 S, fval <$> map_err ferr x.2).
Definition on_groups {A : Type} (fval : A → sdk_value) (x : group_map * gmsg_map * result GroupError A)
    (S : sdk_state) : sdk_state * result SdkError sdk_value :=
  (set_groups x.1.1 x.1.2 S, fval <$> map_err SdkGroup x.2).

Definition spec_sdk (sdk : ZeroSdk) (op : sdk_op) : io sdk_state SdkError sdk_value := λ S,
  let D := s_dm S in
  let G := s_groups S in
  let GM := s_gmsgs S in
  match op with
  | AddContact c =>
      let x := spec_add (owner (sdk_contacts sdk)) c (d_contacts D) in
      on_dm SdkContact (λ _, VUnit) (set_contacts x.1 D, x.2) S
  | RemoveContact id =>
      on_dm SdkContact (λ _, VUnit)
        (set_contacts (delete (owner (sdk_contacts sdk), id) (d_contacts D)) D, Ok ()) S
  | OpenConversation peer => on_dm SdkDm VConversation (spec_open (sdk_dm sdk) peer D) S
  | SendText cid text now mu su => on_dm SdkDm VMessage (spec_send (sdk_dm sdk) cid text now mu su D) S
  | ReceiveDm b rd => on_dm SdkDm VMessage (spec_process (own_receiver sdk) b rd D) S
  | SetStatus cid mid s now =>
      let x := spec_update_status cid mid s now (d_msgs D) in
      on_dm SdkDm (λ _, VUnit) (set_msgs x.1 D, x.2) S
  | MarkReadEmit cid mid t1 t2 t3 uuid =>
      on_dm SdkDm VReceipt (spec_emit (sdk_dm sdk) cid mid Outbox_new t1 t2 t3 uuid D) S
  | OutboxRetried id t =>
      let x := spec_mark_attempted id t (d_outbox D) in
      on_dm SdkStorage (λ _, VUnit) (set_outbox x.1 D, map_err conc x.2) S
  | OutboxDone id => on_dm SdkStorage (λ _, VUnit) (set_outbox (delete id (d_outbox D)) D, Ok ()) S
  | InboxUpsert e =>
      (set_inbox (<[(box (sdk_inbox sdk), ie_conversation_id e) := e]> (s_inbox S)) S, Ok VUnit)
  | InboxRead r =>
      (set_inbox (alter cleared (box (sdk_inbox sdk), ref_conversation_id r) (s_inbox S)) S, Ok VUnit)
  | CreateGroup label founders uuid now =>
      let x := spec_create label founders uuid now G in on_groups VGroup (x.1, GM, x.2) S
  | ChangeGroup g op => let x := spec_group_op g op G in on_groups (λ _, VUnit) (x.1, GM, x.2) S
  | SendGroup g text uuid now =>
      let x := spec_gsend g (sdk_identity_id sdk) (sdk_machine_id sdk) text uuid now G GM in
      on_groups VGroupMessage (G, x.1, x.2) S
  | ReceiveGroup m => let x := spec_receive m G GM in on_groups VBool (G, x.1, x.2) S
  | GroupReceipt r => let x := spec_greceipt r GM in on_groups VBool (G, x.1, x.2) S
  end.
End sdk.

(** ** Refinement *)

Section sdk_laws.
Context `{ROk : RocksOk} `{P : PostcardLib} `{B : Blake3} `{BK : Blake3Keyed} `{ZK : ZidKeys}.
Context `{!Postcard Contact, !PostcardOk Contact, !Postcard OutboxEntry, !PostcardOk OutboxEntry,
          !Postcard Conversation, !PostcardOk Conversation, !Postcard Message,
          !PostcardOk Message, !Postcard DmSectorPayload, !PostcardOk DmSectorPayload,
          !Postcard ReceiptPayload, !PostcardOk ReceiptPayload, !Postcard InboxEntry,
          !PostcardOk InboxEntry, !Postcard GroupManifest, !PostcardOk GroupManifest,
          !Postcard GroupMessage, !PostcardOk GroupMessage}.
Implicit Types (db : DB) (S : sdk_state) (D : dm_state).

Definition sdk_repr (st : store) S : Prop :=
  dm_repr st (s_dm S) ∧ inbox_repr st (s_inbox S) ∧ groups_repr st (s_groups S) (s_gmsgs S).

Definition sdk_wf S : Prop := dm_wf (s_dm S).

(** The families of each service. *)
Definition DM_CFS : list string := [CF_CHAINS; CF_OUTBOX].

Lemma dm_outside (cfs : list string) (st st' : store) D :
  (∀ p, p.1 ∉ cfs → st' !! p = st !! p) → CF_CONTACTS ∉ cfs → CF_CHAINS ∉ cfs → CF_OUTBOX ∉ cfs →
  dm_repr st D → dm_repr st' D.
Proof using.
  intros Hout H1 H2 H3 (HK & (HC & HM & Hf) & HO). split_and!.
  - by apply (repr_outside contact_space cfs st).
  - split_and!; [by apply (repr_outside conv_space cfs st)|by apply (repr_outside msg_space cfs st)|].
    intros b v. rewrite Hout by done. apply Hf.
  - by apply (repr_outside outbox_space cfs st).
Qed.

Lemma inbox_outside (cfs : list string) (st st' : store) I :
  (∀ p, p.1 ∉ cfs → st' !! p = st !! p) → CF_INBOX_INDEX ∉ cfs → inbox_repr st I → inbox_repr st' I.
Proof using.
  intros Hout H1 (J & HJ & HI). exists J. split; [|done]. by apply (repr_outside inbox_space cfs st).
Qed.

Lemma groups_outside (cfs : list string) (st st' : store) G GM :
  (∀ p, p.1 ∉ cfs → st' !! p = st !! p) → CF_GROUPS ∉ cfs →
  groups_repr st G GM → groups_repr st' G GM.
Proof using.
  intros Hout H1 [HG HM].
  split; [by apply (repr_outside group_space cfs st)|by apply (repr_outside gmsg_space cfs st)].
Qed.

(** ** What each operation writes *)

Lemma writes_add cs c : writes [CF_CONTACTS] (add_contact cs c).
Proof using. unfold add_contact. walk. Qed.

Lemma writes_remove cs id : writes [CF_CONTACTS] (remove_contact cs id).
Proof using. unfold remove_contact. walk. Qed.

Lemma writes_update cid mid s now : writes DM_CFS (update_status cid mid s now).
Proof using. unfold update_status, store_message, DM_CFS. walk. Qed.

Lemma writes_enqueue ob e : writes DM_CFS (enqueue ob e).
Proof using. unfold enqueue, DM_CFS. walk. Qed.

Lemma writes_attempted id t : writes [CF_OUTBOX] (mark_attempted id t).
Proof using. unfold mark_attempted. walk. Qed.

Lemma writes_done id : writes [CF_OUTBOX] (remove id).
Proof using. unfold remove. walk. Qed.

Lemma writes_open svc peer : writes DM_CFS (open_conversation svc peer).
Proof using. unfold open_conversation, DM_CFS. walk. Qed.

Lemma writes_send svc cid text now mu su : writes DM_CFS (send_text svc cid text now mu su).
Proof using.
  unfold send_text, store_message, save_conversation. pose proof writes_enqueue. unfold DM_CFS in *.
  repeat first [progress walk | apply writes_map_err, H].
Qed.

Lemma writes_enqueue_receipt ob r uuid now : writes DM_CFS (enqueue_receipt ob r uuid now).
Proof using.
  unfold enqueue_receipt. pose proof writes_enqueue. repeat first [apply H | progress walk].
Qed.

Lemma writes_emit svc cid mid ob t1 t2 t3 uuid :
  writes DM_CFS (mark_read_and_emit svc cid mid ob t1 t2 t3 uuid).
Proof using.
  unfold mark_read_and_emit, mark_read. pose proof writes_enqueue_receipt as H1.
  pose proof writes_update as H2. repeat first [apply H1 | apply H2 | progress walk].
Qed.

Lemma writes_process rcv b rd : writes DM_CFS (process_inbound_dm rcv b rd).
Proof using.
  unfold process_inbound_dm. pose proof writes_open as H1. pose proof writes_enqueue_receipt as H2.
  assert (∀ m, writes DM_CFS (store_message m)) as H3 by (intros m; unfold store_message, DM_CFS; walk).
  repeat first [apply H1 | apply H2 | apply H3 | progress walk].
Qed.

Lemma writes_upsert svc e : writes [CF_INBOX_INDEX] (upsert svc e).
Proof using. unfold upsert. walk. Qed.

Lemma writes_inbox_read svc r : writes [CF_INBOX_INDEX] (inbox_mark_read svc r).
Proof using. unfold inbox_mark_read. walk. Qed.

Lemma writes_group_op g op : writes [CF_GROUPS] (run_group_op g op).
Proof using.
  destruct op; unfold run_group_op, promote, demote, add_member, remove_member, put_manifest; walk.
Qed.

Lemma writes_create label founders uuid now :
  writes [CF_GROUPS] (create_group label founders uuid now).
Proof using. unfold create_group, persist_manifest. walk. Qed.

Lemma writes_gsend g sender machine text uuid now :
  writes [CF_GROUPS] (send_message g sender machine text uuid now).
Proof using. unfold send_message. walk. Qed.

Lemma writes_greceive m : writes [CF_GROUPS] (receive_message m).
Proof using. unfold receive_message. walk. Qed.

Lemma writes_greceipt r : writes [CF_GROUPS] (group_process_receipt r).
Proof using. unfold group_process_receipt. walk. Qed.

(** ** One operation *)

(** [m] behaves on [db] as [x] says, from [S]. *)
Definition simulates {A : Type} (m : io DB SdkError A) db (x : sdk_state * result SdkError A) : Prop :=
  ∃ st, runs m db x.2 st ∧ sdk_repr st x.1.

Lemma runs_wrap {E A : Type} (ferr : E → SdkError) (fval : A → sdk_value) (m : io DB E A) db r st :
  runs m db r st → runs (wrap ferr fval m) db (fval <$> map_err ferr r) st.
Proof using. intros (db' & Hm & ?). exists db'. unfold wrap. by rewrite Hm. Qed.

(** A DM, contact or outbox operation leaves the inbox and the groups alone. *)
Lemma dm_step {E A : Type} (ferr : E → SdkError) (fval : A → sdk_value) (cfs : list string) (m : io DB E A) db S (x : dm_state * result E A) :
  good db → sdk_repr (contents db) S → writes cfs m →
  CF_INBOX_INDEX ∉ cfs → CF_GROUPS ∉ cfs →
  (∃ st, runs m db x.2 st ∧ dm_repr st x.1) →
  simulates (wrap ferr fval m) db (on_dm ferr fval x S).
Proof using.
  intros Hg (HD & HI & HG) Hw H1 H2 (st & Hr & HD').
  pose proof (runs_outside cfs m db x.2 st Hg Hw Hr) as Hout.
  exists st. split; [by apply runs_wrap|]. split_and!; [done| |].
  - by apply (inbox_outside cfs (contents db)).
  - by apply (groups_outside cfs (contents db)).
Qed.

Lemma inbox_step {E : Type} (ferr : E → SdkError) (m : io DB E ()) db S (I : inbox_map) :
  good db → sdk_repr (contents db) S → writes [CF_INBOX_INDEX] m →
  (∃ st, runs m db (Ok ()) st ∧ inbox_repr st I) →
  simulates (wrap ferr (λ _, VUnit) m) db (set_inbox I S, Ok VUnit).
Proof using.
  intros Hg (HD & HI & HG) Hw (st & Hr & HI').
  pose proof (runs_outside _ m db _ st Hg Hw Hr) as Hout.
  exists st. split; [exact (runs_wrap ferr (λ _, VUnit) m db (Ok ()) st Hr)|]. split_and!; [|done|].
  - apply (dm_outside [CF_INBOX_INDEX] (contents db)); [done|..|done]; solve_out.
  - apply (groups_outside [CF_INBOX_INDEX] (contents db)); [done|solve_out|done].
Qed.

Lemma groups_step {A : Type} (fval : A → sdk_value) (m : io DB GroupError A) db S
    (x : group_map * gmsg_map * result GroupError A) :
  good db → sdk_repr (contents db) S → writes [CF_GROUPS] m →
  (∃ st, runs m db x.2 st ∧ groups_repr st x.1.1 x.1.2) →
  simulates (wrap SdkGroup fval m) db (on_groups fval x S).
Proof using.
  intros Hg (HD & HI & HG) Hw (st & Hr & HG').
  pose proof (runs_outside _ m db _ st Hg Hw Hr) as Hout.
  exists st. split; [by apply runs_wrap|]. split_and!; [| |done].
  - apply (dm_outside [CF_GROUPS] (contents db)); [done|..|done]; solve_out.
  - apply (inbox_outside [CF_GROUPS] (contents db)); [done|solve_out|done].
Qed.

(** The address book part of the DM state. *)
Lemma contact_step {E : Type} (m : io DB E ()) db D (K : books) r :
  good db → dm_repr (contents db) D → writes [CF_CONTACTS] m →
  (∃ st, runs m db r st ∧ repr contact_space st K) →
  ∃ st, runs m db r st ∧ dm_repr st (set_contacts K D).
Proof using.
  intros Hg (HK & (HC & HM & Hf) & HO) Hw (st & Hr & HK').
  pose proof (runs_outside _ m db _ st Hg Hw Hr) as Hout.
  assert (∀ cf, cf ≠ CF_CONTACTS → cf ∉ [CF_CONTACTS]) as Hn
    by (intros cf Hne [->|Hin]%elem_of_cons; [done|by apply elem_of_nil in Hin]).
  exists st. split; [done|]. split_and!; [done| |].
  - split_and!; [apply (repr_outside conv_space [CF_CONTACTS] (contents db))|
      apply (repr_outside msg_space [CF_CONTACTS] (contents db))|]; try done; try solve_out.
    intros b v. rewrite Hout by solve_out. apply Hf.
  - apply (repr_outside outbox_space [CF_CONTACTS] (contents db)); [done|solve_out|done].
Qed.

(** The outbox part: these operations write the outbox family only. *)
Lemma outbox_step {E : Type} (m : io DB E ()) db D (O : outbox_map) r :
  good db → dm_repr (contents db) D → writes [CF_OUTBOX] m →
  (∃ st, runs m db r st ∧ repr outbox_space st O) →
  ∃ st, runs m db r st ∧ dm_repr st (set_outbox O D).
Proof using.
  intros Hg (HK & (HC & HM & Hf) & HO) Hw (st & Hr & HO').
  pose proof (runs_outside _ m db _ st Hg Hw Hr) as Hout.
  exists st. split; [done|]. split_and!; [|split_and!|done].
  - apply (repr_outside contact_space [CF_OUTBOX] (contents db)); [done|solve_out|done].
  - apply (repr_outside conv_space [CF_OUTBOX] (contents db)); [done|solve_out|done].
  - apply (repr_outside msg_space [CF_OUTBOX] (contents db)); [done|solve_out|done].
  - intros b v. rewrite Hout by solve_out. apply Hf.
Qed.

Lemma run_sdk_step sdk op db S :
  good db → sdk_repr (contents db) S → sdk_wf S →
  simulates (run_sdk sdk op) db (spec_sdk sdk op S).
Proof using PostcardOk0 PostcardOk1 PostcardOk2 PostcardOk3 PostcardOk4 PostcardOk5 PostcardOk6
  PostcardOk7 PostcardOk8.
  intros Hg HS Hw. pose proof HS as (HD & HI & HG).
  destruct op; cbn [run_sdk spec_sdk]; cbv zeta.
  - apply (dm_step _ _ [CF_CONTACTS]); [done|done|apply writes_add|solve_out|solve_out|].
    apply contact_step; [done|done|apply writes_add|]. unfold spec_add.
    destruct (add_contact_run (sdk_contacts sdk) db (d_contacts (s_dm S)) c Hg (proj1 HD))
      as (st & ? & ?). exists st. by destruct (64 <? _).
  - apply (dm_step _ _ [CF_CONTACTS]); [done|done|apply writes_remove|solve_out|solve_out|].
    apply contact_step; [done|done|apply writes_remove|]. by apply remove_contact_run, HD.
  - apply (dm_step _ _ DM_CFS); [done|done|apply writes_open|solve_out|solve_out|].
    by apply open_conversation_run.
  - apply (dm_step _ _ DM_CFS); [done|done|apply writes_send|solve_out|solve_out|].
    by apply send_text_run.
  - apply (dm_step _ _ DM_CFS); [done|done|apply writes_process|solve_out|solve_out|].
    by apply process_inbound_run.
  - apply (dm_step _ _ DM_CFS); [done|done|apply writes_update|solve_out|solve_out|].
    by apply update_status_dm.
  - apply (dm_step _ _ DM_CFS); [done|done|apply writes_emit|solve_out|solve_out|].
    by apply mark_read_and_emit_run.
  - apply (dm_step _ _ [CF_OUTBOX]); [done|done|apply writes_attempted|solve_out|solve_out|].
    apply outbox_step; [done|done|apply writes_attempted|].
    pose proof (mark_attempted_run db (d_outbox (s_dm S)) id t Hg (proj2 (proj2 HD))) as Hm.
    by destruct (spec_mark_attempted id t _).
  - apply (dm_step _ _ [CF_OUTBOX]); [done|done|apply writes_done|solve_out|solve_out|].
    apply outbox_step; [done|done|apply writes_done|]. by apply remove_run, HD.
  - apply inbox_step; [done|done|apply writes_upsert|by apply upsert_run].
  - apply inbox_step; [done|done|apply writes_inbox_read|by apply inbox_mark_read_run].
  - apply groups_step; [done|done|apply writes_create|by apply create_group_run].
  - apply groups_step; [done|done|apply writes_group_op|by apply group_op_run].
  - apply groups_step; [done|done|apply writes_gsend|by apply send_message_run].
  - apply groups_step; [done|done|apply writes_greceive|by apply receive_message_run].
  - apply groups_step; [done|done|apply writes_greceipt|by apply group_process_receipt_run].
Qed.

(** ** The invariant of the specification *)

Lemma dm_wf_open svc peer D : dm_wf D → dm_wf (spec_open svc peer D).1.
Proof using.
  intros [HM HC]. unfold spec_open. destruct (d_contacts D !! _); [|done].
  destruct (d_convs D !! _); [done|]. split; [done|]. intros c1 v1.
  cbn [set_convs d_convs fst]. intros [[<- <-]|[_ Hv]]%lookup_insert_Some; [done|by apply HC].
Qed.

Lemma dm_wf_emit svc c m ob t1 t2 t3 uuid D :
  dm_wf D → dm_wf (spec_emit svc c m ob t1 t2 t3 uuid D).1.
Proof using.
  intros Hw. pose proof (dm_wf_update c m Read t1 D Hw) as Hu.
  unfold spec_emit, spec_mark_read. destruct (spec_update_status c m Read t1 (d_msgs D)) as [M' [[]|e]];
    [|exact Hu].
  unfold spec_enqueue_receipt. destruct (spec_enqueue _ _ _). exact Hu.
Qed.

Lemma spec_sdk_wf sdk op S : sdk_wf S → sdk_wf (spec_sdk sdk op S).1.
Proof using.
  intros Hw. destruct op; cbn [spec_sdk]; cbv zeta; unfold sdk_wf; try exact Hw.
  - by apply dm_wf_open.
  - by apply dm_wf_send.
  - by apply spec_process_wf.
  - by apply dm_wf_update.
  - by apply dm_wf_emit.
Qed.

Lemma sdk_empty_repr : sdk_repr ∅ sdk_empty.
Proof using.
  split_and!.
  - split_and!; [apply repr_empty| |apply repr_empty].
    split_and!; [apply repr_empty|apply repr_empty|]. intros b v. by rewrite lookup_empty.
  - exists ∅. split; [apply repr_empty|apply empty_indexed].
  - split; apply repr_empty.
Qed.

Lemma sdk_empty_wf : sdk_wf sdk_empty.
Proof using. split; intros k v; cbn; by rewrite lookup_empty. Qed.

(** Every service acts for the same identity and machine. *)
Definition acts_for (identity : IdentityId) (machine : MachineId) (sdk : ZeroSdk) : Prop :=
  sdk_identity_id sdk = identity ∧ sdk_machine_id sdk = machine ∧
  owner (sdk_contacts sdk) = identity ∧ ds_contacts (sdk_dm sdk) = sdk_contacts sdk ∧
  ds_identity (sdk_dm sdk) = identity ∧ ds_machine_id (sdk_dm sdk) = machine ∧
  box (sdk_inbox sdk) = (identity, machine).

(** The services on a database that represents [S]. *)
Lemma sdk_history sdk ops db S :
  good db → sdk_repr (contents db) S → sdk_wf S →
  let (S', rs) := Prelude.history (spec_sdk sdk) ops S in
  ∃ db', Prelude.history (run_sdk sdk) ops db = (db', rs) ∧ good db' ∧
    sdk_repr (contents db') S' ∧ sdk_wf S'.
Proof using PostcardOk0 PostcardOk1 PostcardOk2 PostcardOk3 PostcardOk4 PostcardOk5 PostcardOk6
  PostcardOk7 PostcardOk8.
  intros Hg HS Hw. destruct (history_sim (run_sdk sdk) (spec_sdk sdk) id
    (λ db S, good db ∧ sdk_repr (contents db) S ∧ sdk_wf S)) with (ops := ops) (s := db)
    (t := S) as [(Hg' & HS' & Hw') Hrs].
  - intros op db1 S1 (Hg1 & HS1 & Hw1).
    destruct (run_sdk_step sdk op db1 S1 Hg1 HS1 Hw1) as (st & (db2 & -> & Hg2 & <-) & HS2).
    cbn [fst snd]. split; [|by destruct (spec_sdk sdk op S1) as [? []]].
    split_and!; [done|done|by apply spec_sdk_wf].
  - done.
  - destruct (Prelude.history (spec_sdk sdk) ops S) as [S' rs].
    destruct (Prelude.history (run_sdk sdk) ops db) as [db' rs']. cbn [fst snd] in *.
    exists db'. rewrite Hrs, map_err_id. done.
Qed.

(** C1: the services of an opened SDK act for the identity and machine it was opened with and
    share its database without interfering: from a fresh database, any history of contact,
    message, outbox, inbox and group operations has the outcomes of its specification, where
    each operation sees and changes the state of its own service alone, and ends in a database
    that represents the specification's state. *)
Theorem sdk_refines path identity machine db sdk ops :
  open_raw path identity machine = Ok (db, sdk) → healthy db → contents db = ∅ →
  acts_for identity machine sdk ∧
  let (S', rs) := Prelude.history (spec_sdk sdk) ops sdk_empty in
  ∃ db', Prelude.history (run_sdk sdk) ops db = (db', rs) ∧ good db' ∧
    sdk_repr (contents db') S' ∧ sdk_wf S'.
Proof using PostcardOk0 PostcardOk1 PostcardOk2 PostcardOk3 PostcardOk4 PostcardOk5 PostcardOk6
  PostcardOk7 PostcardOk8.
  intros Hopen Hh Hempty.
  assert (good db ∧ acts_for identity machine sdk) as [Hg Hfor].
  { revert Hopen. unfold open_raw. destruct (open path) as [db1|] eqn:Ho; [|done].
    cbn [map_err mbind result_bind]. intros [= <- <-]. split; [by apply open_good with path|done]. }
  split; [exact Hfor|]. apply sdk_history; [done| |apply sdk_empty_wf].
  rewrite Hempty. apply sdk_empty_repr.
Qed.
End sdk_laws.

(** ** Witness *)

#[local] Existing Instances mem_contact mem_contact_ok mem_outbox mem_outbox_ok mem_message
  mem_message_ok mem_conversation mem_conversation_ok mem_dm_payload mem_dm_payload_ok
  mem_receipt mem_receipt_ok mem_inbox mem_inbox_ok mem_manifest mem_manifest_ok mem_gmessage
  mem_gmessage_ok.

Definition alice : IdentityId := ident Byte.x01.
Definition alice_sdk : ZeroSdk :=
  mkZeroSdk (mkContactStore alice) (mkDmService alice (machine Byte.x01) (mkContactStore alice))
    (mkInboxService alice (machine Byte.x01)) alice (machine Byte.x01).

(** A contact, a conversation with it, a message; then an unknown contact and a message to a
    group that does not exist, which fail. *)
Definition sdk_sample_ops : list sdk_op :=
  [AddContact bob; OpenConversation (ident Byte.x02);
   SendText (derive alice (ident Byte.x02)) (rstr_of "hi") (umk 64 1) (arr_fill 16 Byte.x03)
     (arr_fill 16 Byte.x04);
   InboxUpsert chat_entry; CreateGroup (rstr_of "team") [alice] (arr_fill 16 Byte.x05) (umk 64 2);
   OpenConversation (ident Byte.x09);
   SendGroup (mkGroupId (arr_fill 16 Byte.x06)) (rstr_of "hi") (arr_fill 16 Byte.x07) (umk 64 3)].

Lemma sdk_refines_witness :
  is_ok <$> (Prelude.history (spec_sdk alice_sdk) sdk_sample_ops sdk_empty).2 =
    [true; true; true; true; true; false; false] ∧
  let (S', rs) := Prelude.history (spec_sdk alice_sdk) sdk_sample_ops sdk_empty in
  ∃ db', Prelude.history (run_sdk alice_sdk) sdk_sample_ops (mem_new : @DB mem_rocks) = (db', rs) ∧
    good db' ∧ sdk_repr (contents db') S' ∧ sdk_wf S'.
Proof.
  split; [vm_compute; reflexivity|].
  exact (proj2 (sdk_refines (∅ : @Directory mem_rocks) alice (machine Byte.x01) (mem_new : @DB mem_rocks) alice_sdk
    sdk_sample_ops eq_refl I eq_refl)).
Defined.
