(* ===== verification/Faults.v ===== *)
(** * The services on a database that fails

    RocksDB may refuse any call: a read, a write, an item of an iterator. [RocksFaults] states
    what is left then: a successful read is of what is stored, a failed write is done or not
    done, an iterator reports the error it stops at. The file follows every operation of the
    facade through such failures: what a successful result still means, and what state a
    failure can leave behind. *)

From Stdlib Require Import ZArith Lia Strings.Byte.
From stdpp Require Import base tactics gmap strings sorting numbers countable list.
From S2P Require Import Prelude Bytes Store Mem Aad Db Dedupe Outbox.
From S2P Require Import Contacts Net Dm Group GroupOps Inbox DmReceive NeuralKey Sdk.
#[local] Open Scope nat_scope.

(** ** What a failing database still does *)

(** What an iterator over [l] yields: all of it, or a part and then an error. *)
Definition cut {E X} (l : list X) (it : list (result E X)) : Prop :=
  it = Ok <$> l ∨ ∃ l1 l2 e rest, l = l1 ++ l2 ∧ it = (Ok <$> l1) ++ Err e :: rest.

Class RocksFaults `{ROk : RocksOk} : Type := {
  get_fault db cf k x : DB_get_cf db cf k = Ok x → x = contents db !! (cf, k);
  put_fault db cf k v :
    (∀ cf', DB_cf_handle (DB_put_cf cf k v db).1 cf' = DB_cf_handle db cf') ∧
    (contents (DB_put_cf cf k v db).1 = <[(cf, k) := v]> (contents db) ∨
     is_ok (DB_put_cf cf k v db).2 = false ∧ contents (DB_put_cf cf k v db).1 = contents db);
  delete_fault db cf k :
    (∀ cf', DB_cf_handle (DB_delete_cf cf k db).1 cf' = DB_cf_handle db cf') ∧
    (contents (DB_delete_cf cf k db).1 = delete (cf, k) (contents db) ∨
     is_ok (DB_delete_cf cf k db).2 = false ∧ contents (DB_delete_cf cf k db).1 = contents db);
  iterator_fault db cf mode :
    cut (iter_select mode (view (contents db) cf)) (DB_iterator_cf db cf mode);
  prefix_iterator_fault db cf p : ∃ rest,
    Forall (λ kv, starts_with kv.1 p = false) rest ∧
    cut (filter (λ kv, starts_with kv.1 p = true) (view (contents db) cf) ++ rest)
      (DB_prefix_iterator_cf db cf p);
  (** The same data on a device that works. *)
  working db : ∃ db0, healthy db0 ∧ contents db0 = contents db ∧
    ∀ cf, DB_cf_handle db0 cf = DB_cf_handle db cf;
}.

Section faults.
Context `{F : RocksFaults} `{P : PostcardLib}.
Implicit Types (db : DB) (C Φ : store → Prop).

Definition opened (db : DB) : Prop := ∀ cf, cf ∈ ALL_CFS → DB_cf_handle db cf = true.
Definition twin (db db0 : DB) : Prop := good db0 ∧ contents db0 = contents db.

Lemma good_opened db : good db → opened db.
Proof using. by intros [_ ?]. Qed.

Lemma has_twin db : opened db → ∃ db0, twin db db0.
Proof using F.
  intros Ho. destruct (working db) as (db0 & ? & ? & Hh). exists db0.
  split; [|done]. split; [done|]. intros cf Hcf. rewrite Hh. by apply Ho.
Qed.

(** What a write leaves. *)
Lemma put_raw_fault cf k v db :
  (opened db → opened (put_raw cf k v db).1) ∧
  (contents (put_raw cf k v db).1 = <[(cf, k) := v]> (contents db) ∨
   contents (put_raw cf k v db).1 = contents db).
Proof using F.
  unfold put_raw, mbind, io_bind, reads, cf_handle. destruct (DB_cf_handle db cf); [|by auto].
  unfold io_map_err, opened. destruct (put_fault db cf k v) as [Hh H]. revert Hh H.
  destruct (DB_put_cf cf k v db) as [db' [a|e]]; cbn; intros Hh [->|[_ ->]];
    (split; [setoid_rewrite Hh; done|auto]).
Qed.

Lemma delete_raw_fault cf k db :
  (opened db → opened (delete_raw cf k db).1) ∧
  (contents (delete_raw cf k db).1 = delete (cf, k) (contents db) ∨
   contents (delete_raw cf k db).1 = contents db).
Proof using F.
  unfold delete_raw, mbind, io_bind, reads, cf_handle. destruct (DB_cf_handle db cf); [|by auto].
  unfold io_map_err, opened. destruct (delete_fault db cf k) as [Hh H]. revert Hh H.
  destruct (DB_delete_cf cf k db) as [db' [a|e]]; cbn; intros Hh [->|[_ ->]];
    (split; [setoid_rewrite Hh; done|auto]).
Qed.

(** ** Reads: a success is true *)

Definition sound {E A} (f : DB → result E A) : Prop :=
  ∀ db db0 a, twin db db0 → f db = Ok a → f db0 = Ok a.

Lemma sound_const {E A : Type} (r : result E A) : sound (λ _, r).
Proof using. by intros db db0 a _. Qed.

Lemma sound_bind {E A B : Type} (f : DB → result E A) (g : A → DB → result E B) :
  sound f → (∀ a, sound (g a)) → sound (λ db, a ← f db; g a db).
Proof using.
  intros Hf Hg db db0 b Ht. cbn. destruct (f db) as [a|] eqn:Ha; [|done]. cbn.
  rewrite (Hf db db0 a Ht Ha). cbn. by apply Hg.
Qed.

Lemma sound_map_err {E E' A : Type} (h : E → E') (f : DB → result E A) :
  sound f → sound (λ db, map_err h (f db)).
Proof using.
  intros Hf db db0 a Ht. destruct (f db) as [x|] eqn:Hx; [|done]. cbn. intros [= ->].
  by rewrite (Hf db db0 a Ht Hx).
Qed.

Lemma sound_handle cf : cf ∈ ALL_CFS → sound (λ db, cf_handle db cf).
Proof using. intros Hcf db db0 [] [Hg _] _. by apply good_handle. Qed.

Lemma sound_get_cf cf k : cf ∈ ALL_CFS → sound (λ db, DB_get_cf db cf k).
Proof using F.
  intros Hcf db db0 x [[Hh Hc] Heq] Hx. rewrite get_spec by auto. by rewrite Heq, (get_fault db cf k x Hx).
Qed.

Lemma sound_get_raw cf k : cf ∈ ALL_CFS → sound (λ db, get_raw db cf k).
Proof using F.
  intros Hcf. unfold get_raw. apply (sound_bind (λ db, cf_handle db cf)); [by apply sound_handle|].
  intros _. by apply sound_map_err, sound_get_cf.
Qed.

(** A loop that fails on a failed item and succeeds has not seen one. *)
Lemma loop_cut {E E' A X : Type} (body : A → result E X → result E' (ctl A)) l it acc x :
  (∀ a e, is_ok (body a (Err e)) = false) → cut l it →
  for_each body acc it = Ok x → for_each body acc (Ok <$> l) = Ok x.
Proof using.
  intros Hbody [->|(l1 & l2 & e & rest & -> & ->)]; [done|]. revert acc.
  induction l1 as [|y l1 IHl]; intros acc; cbn.
  - specialize (Hbody acc e). by destruct (body acc (Err e)).
  - destruct (body acc (Ok y)) as [[a|a]|]; [apply IHl|done|done].
Qed.

Lemma loop_rest {E E' A : Type} (body : A → result E (bytes * bytes) → result E' (ctl A)) p l rest acc :
  (∀ a kv, starts_with kv.1 p = false → body a (Ok kv) = Ok (Break a)) →
  Forall (λ kv, starts_with kv.1 p = false) rest →
  for_each body acc (Ok <$> (l ++ rest)) = for_each body acc (Ok <$> l).
Proof using.
  intros Hbreak Hrest. revert acc. induction l as [|y l IHl]; intros acc; cbn.
  - destruct Hrest as [|kv rest Hkv _]; [done|]. cbn. by rewrite Hbreak.
  - by destruct (body acc (Ok y)) as [[a|a]|].
Qed.

Lemma sound_iterator {E A : Type} (body : A → result rocks_error (bytes * bytes) → result E (ctl A))
    acc cf mode :
  cf ∈ ALL_CFS → (∀ a e, is_ok (body a (Err e)) = false) →
  sound (λ db, for_each body acc (DB_iterator_cf db cf mode)).
Proof using F.
  intros Hcf Hbody db db0 x [[Hh Hc] Heq] Hx. rewrite iterator_spec, Heq by auto.
  eapply loop_cut; [done|apply iterator_fault|done].
Qed.

Lemma sound_prefix_iterator {E A : Type}
    (body : A → result rocks_error (bytes * bytes) → result E (ctl A)) acc cf p :
  cf ∈ ALL_CFS → (∀ a e, is_ok (body a (Err e)) = false) →
  (∀ a kv, starts_with kv.1 p = false → body a (Ok kv) = Ok (Break a)) →
  sound (λ db, for_each body acc (DB_prefix_iterator_cf db cf p)).
Proof using F.
  intros Hcf Hbody Hbreak db db0 x [[Hh Hc] Heq] Hx.
  destruct (prefix_iterator_spec db0 cf p Hh (Hc _ Hcf)) as (rest0 & -> & Hrest0).
  destruct (prefix_iterator_fault db cf p) as (rest & Hrest & Hcut).
  rewrite <-fmap_app, Heq, (loop_rest body p) by done.
  rewrite <-(loop_rest body p _ rest) by done. by eapply loop_cut.
Qed.

Lemma sound_prefix_scan cf p : cf ∈ ALL_CFS → sound (λ db, prefix_scan_raw db cf p).
Proof using F.
  intros Hcf. unfold prefix_scan_raw. apply (sound_bind (λ db, cf_handle db cf)); [by apply sound_handle|].
  intros _. apply sound_prefix_iterator; [done|done|]. intros a [k v] Hk. cbn in *. by rewrite Hk.
Qed.

(** ** Writes: done, not done, or the result of the whole operation *)

Definition atomic {E A} (m : io DB E A) : Prop :=
  ∀ db db0, opened db → twin db db0 → opened (m db).1 ∧
    match (m db).2 with
    | Ok a => (m db0).2 = Ok a ∧ twin (m db).1 (m db0).1
    | Err _ => contents (m db).1 = contents db ∨ contents (m db).1 = contents (m db0).1
    end.

Lemma atomic_ret {E A : Type} (a : A) : atomic (mret a : io DB E A).
Proof using. by intros db db0 Ho Ht. Qed.
Lemma atomic_fails {E A : Type} (e : E) : atomic (fails e : io DB E A).
Proof using. intros db db0 Ho Ht. split; [done|by left]. Qed.
Lemma atomic_lift {E A : Type} (r : result E A) : atomic (lift r).
Proof using. intros db db0 Ho Ht. split; [done|]. cbn. destruct r; [done|by left]. Qed.

Lemma atomic_reads {E A : Type} (f : DB → result E A) : sound f → atomic (reads f).
Proof using.
  intros Hf db db0 Ho Ht. split; [done|]. cbn. destruct (f db) as [a|] eqn:Ha; [|by left].
  by rewrite (Hf db db0 a Ht Ha).
Qed.

(** What comes before the write only reads; what comes after it cannot fail. *)
Lemma atomic_reads_then {E A B : Type} (f : DB → result E A) (k : A → io DB E B) :
  sound f → (∀ a, atomic (k a)) → atomic (reads f ≫= k).
Proof using.
  intros Hf Hk db db0 Ho Ht. unfold reads, mbind, io_bind.
  destruct (f db) as [a|] eqn:Ha; cbn [fst snd]; [|by split; [|left]].
  rewrite (Hf db db0 a Ht Ha). by apply Hk.
Qed.

Lemma atomic_lift_then {E A B : Type} (r : result E A) (k : A → io DB E B) :
  (∀ a, r = Ok a → atomic (k a)) → atomic (lift r ≫= k).
Proof using.
  intros Hk db db0 Ho Ht. unfold lift, mbind, io_bind. destruct r as [a|]; cbn [fst snd].
  - by apply Hk.
  - by split; [|left].
Qed.

Lemma atomic_then_ret {E A B : Type} (m : io DB E A) (g : A → B) :
  atomic m → atomic (m ≫= λ a, mret (g a)).
Proof using.
  intros Hm db db0 Ho Ht. destruct (Hm db db0 Ho Ht) as [Ho' H].
  unfold mbind, io_bind. destruct (m db) as [db' [a|e]], (m db0) as [db0' [a0|e0]]; cbn in *;
    (split; [done|]); try done.
  - by destruct H as [[= ->] ?].
  - by destruct H.
Qed.

Lemma atomic_map_err {E E' A : Type} (h : E → E') (m : io DB E A) :
  atomic m → atomic (io_map_err h m).
Proof using.
  intros Hm db db0 Ho Ht. destruct (Hm db db0 Ho Ht) as [Ho' H].
  unfold io_map_err. destruct (m db) as [db' [a|e]], (m db0) as [db0' [a0|e0]]; cbn in *;
    (split; [done|]); try done.
  - by destruct H as [[= ->] ?].
  - by destruct H.
Qed.

(** A write of the interface under the guard of its column family. *)
Lemma atomic_raw {A : Type} (cf : string) (w : io DB rocks_error A) (upd : store → store) (a0 : A) :
  cf ∈ ALL_CFS →
  (∀ db, (∀ cf', DB_cf_handle (w db).1 cf' = DB_cf_handle db cf') ∧
    (contents (w db).1 = upd (contents db) ∨ is_ok (w db).2 = false ∧ contents (w db).1 = contents db)) →
  (∀ db, (∀ a, (w db).2 = Ok a → a = a0)) →
  (∀ db, good db → runs w db (Ok a0) (upd (contents db))) →
  atomic (reads (λ db, cf_handle db cf);; io_map_err Rocks w;; mret ()).
Proof using.
  intros Hcf Hw Ha0 Hr. apply atomic_reads_then; [by apply sound_handle|]. intros _.
  apply atomic_then_ret, atomic_map_err. intros db db0 Ho [Hg Hc].
  destruct (Hw db) as [Hh Hd], (Hr db0 Hg) as (db0' & Hw0 & Hg' & Hc').
  split; [intros cf' Hin; rewrite Hh; by apply Ho|]. rewrite Hw0. cbn [fst snd].
  pose proof (Ha0 db) as Ha. destruct (w db) as [db' [a|e]]; cbn [fst snd is_ok] in *.
  - rewrite (Ha a eq_refl). split; [done|]. split; [done|].
    rewrite Hc', Hc. destruct Hd as [->|[? _]]; done.
  - rewrite Hc', Hc. destruct Hd as [->|[_ ->]]; [by right|by left].
Qed.

Lemma atomic_put_raw cf k v : cf ∈ ALL_CFS → atomic (put_raw cf k v).
Proof using F.
  intros Hcf. apply (atomic_raw cf _ (λ st, <[(cf, k) := v]> st) ()); [done|..].
  - intros db. apply put_fault.
  - by intros db [].
  - intros db Hg. by apply put_cf_good.
Qed.

Lemma atomic_delete_raw cf k : cf ∈ ALL_CFS → atomic (delete_raw cf k).
Proof using F.
  intros Hcf. apply (atomic_raw cf _ (λ st, delete (cf, k) st) ()); [done|..].
  - intros db. apply delete_fault.
  - by intros db [].
  - intros db Hg. by apply delete_cf_good.
Qed.

(** ** Sequences of writes

    [torn m db C Q]: run on [db], [m] ends with the database open and, if it succeeds with
    [a], contents in [Q a], if it fails, contents in [C]. *)

Definition torn {E A} (m : io DB E A) db (C : store → Prop) (Q : A → store → Prop) : Prop :=
  opened (m db).1 ∧
  match (m db).2 with Ok a => Q a (contents (m db).1) | Err _ => C (contents (m db).1) end.

Lemma torn_bind {E A B : Type} (m : io DB E A) (k : A → io DB E B) (db : DB) C Q Q' :
  torn m db C Q → (∀ a db', opened db' → Q a (contents db') → torn (k a) db' C Q') →
  torn (m ≫= k) db C Q'.
Proof using.
  intros [Ho Hm] Hk. unfold torn, mbind, io_bind in *.
  destruct (m db) as [db' [a|e]]; cbn [fst snd] in *; [by apply Hk|done].
Qed.

Lemma torn_ret {E A : Type} (a : A) (db : DB) C (Q : A → store → Prop) :
  opened db → Q a (contents db) → torn (mret a : io DB E A) db C Q.
Proof using. done. Qed.

Lemma torn_weaken {E A : Type} (m : io DB E A) db (C C' : store → Prop) (Q Q' : A → store → Prop) :
  torn m db C Q → (∀ st, C st → C' st) → (∀ a st, Q a st → Q' a st) → torn m db C' Q'.
Proof using. intros [Ho Hm] HC HQ. split; [done|]. destruct (m db).2; auto. Qed.

Lemma torn_map_err {E E' A : Type} (h : E → E') (m : io DB E A) db C Q :
  torn m db C Q → torn (io_map_err h m) db C Q.
Proof using. unfold torn, io_map_err. by destruct (m db) as [db' [a|e]]. Qed.

Lemma torn_attempt {E A : Type} (m : io DB E A) db C Q C' :
  torn m db C Q →
  torn (attempt m) db C' (λ x st, match x with Ok a => Q a st | Err _ => C st end).
Proof using. unfold torn, attempt. by destruct (m db) as [db' [a|e]]. Qed.

(** An atomic operation of which a good run is known. *)
Lemma torn_atomic {E A : Type} (m : io DB E A) db (r : result E A) (Φ : store → Prop) :
  atomic m → opened db →
  (∀ db0, good db0 → contents db0 = contents db → ∃ st, runs m db0 r st ∧ Φ st) →
  torn m db (λ st, st = contents db ∨ Φ st) (λ a st, r = Ok a ∧ Φ st).
Proof using F.
  intros Hm Ho Hr. destruct (has_twin db Ho) as (db0 & Ht). destruct (Hm db db0 Ho Ht) as [Ho' H].
  destruct (Hr db0 (proj1 Ht) (proj2 Ht)) as (st & (db0' & Hm0 & Hg & Hc) & HΦ). rewrite Hm0 in H.
  cbn [fst snd] in H. split; [done|]. destruct (m db) as [db' [a|e]]; cbn [fst snd] in *.
  - destruct H as [-> [_ <-]]. by rewrite Hc.
  - destruct H as [->| ->]; [by left|right]. by rewrite Hc.
Qed.

Lemma torn_reads {E A : Type} (f : DB → result E A) db (r : result E A) (Φ : store → Prop) :
  sound f → opened db → Φ (contents db) →
  (∀ db0, good db0 → contents db0 = contents db → f db0 = r) →
  torn (reads f) db Φ (λ a st, r = Ok a ∧ Φ st).
Proof using F.
  intros Hf Ho HΦ Hr. destruct (has_twin db Ho) as (db0 & Ht).
  split; [done|]. cbn. destruct (f db) as [a|] eqn:Ha; [|done].
  by rewrite <-(Hr db0 (proj1 Ht) (proj2 Ht)), (Hf db db0 a Ht Ha).
Qed.
End faults.

(** ** The operations *)

(** Down a read to the calls of the interface, and down a write operation likewise. *)
Create HintDb sound.
Ltac walk_sound :=
  repeat first
    [ solve [eauto 1 with sound nocore] | apply sound_const | apply sound_map_err
    | apply sound_handle; solve_in | apply sound_get_raw; solve_in | apply sound_get_cf; solve_in
    | apply sound_prefix_scan; solve_in
    | apply sound_bind; [|intros ?]
    | match goal with
      | |- sound (λ _, match ?x with _ => _ end) => destruct x
      | |- sound (λ _, if ?x then _ else _) => destruct x
      end ].

Ltac walk_atomic :=
  repeat first
    [ apply atomic_ret | apply atomic_fails | apply atomic_lift
    | apply atomic_put_raw; solve_in | apply atomic_delete_raw; solve_in
    | apply atomic_map_err
    | apply (atomic_then_ret _ (λ _, _))
    | apply atomic_reads; walk_sound
    | apply atomic_reads_then; [walk_sound|intros ?]
    | apply atomic_lift_then; intros ? ?
    | match goal with
      | |- atomic (match ?x with _ => _ end) => destruct x
      | |- atomic (if ?x then _ else _) => destruct x
      | |- atomic (let _ := _ in _) => cbv zeta
      end ].

Section operations.
Context `{F : RocksFaults} `{P : PostcardLib} `{B : Blake3} `{BK : Blake3Keyed} `{ZK : ZidKeys} `{ML : MessageLayout}.
Context `{!Postcard OutboxEntry, !Postcard Contact, !Postcard Conversation, !Postcard Message,
          !Postcard DmSectorPayload, !Postcard ReceiptPayload, !Postcard InboxEntry,
          !Postcard GroupManifest, !Postcard GroupMessage, !Postcard Sector}.

Lemma sound_count : sound count.
Proof using F.
  unfold count. apply sound_bind; [walk_sound|]. intros _. by apply sound_iterator; [solve_in|].
Qed.

Lemma sound_dequeue_due now : sound (λ db, dequeue_due db now).
Proof using F.
  unfold dequeue_due, scan_all. apply sound_bind; [|intros; walk_sound].
  apply sound_bind; [walk_sound|]. intros _. by apply sound_iterator; [solve_in|].
Qed.

Lemma sound_get_sector i m sid : sound (λ db, get_sector db i m sid).
Proof using F. unfold get_sector. walk_sound. Qed.

(** The prefix loops of the stores. *)
Lemma sound_prefix_loop {E A : Type} (fe : rocks_error → E) (dec : bytes * bytes → result E A) cf p :
  cf ∈ ALL_CFS →
  sound (λ db, for_each (λ results item,
      '(k, v) ← map_err fe item;
      if negb (starts_with k p) then Ok (Break results)
      else s ← dec (k, v); Ok (Continue (results ++ [s])))
    [] (DB_prefix_iterator_cf db cf p)).
Proof using F.
  intros Hcf. apply sound_prefix_iterator; [done|done|]. intros a [k v] Hk. cbn in *. by rewrite Hk.
Qed.

Lemma sound_iter_chain i m : sound (λ db, iter_chain db i m).
Proof using F.
  unfold iter_chain. apply sound_bind; [walk_sound|]. intros _.
  apply (sound_prefix_loop Rocks (λ kv, decode_sector kv.2)). solve_in.
Qed.

Lemma sound_get_contact cs id : sound (λ db, get_contact cs db id).
Proof using F.
  intros db db0 a Ht. unfold get_contact. destruct (get_raw db CF_CONTACTS _) as [o|] eqn:Ho; [|done].
  by rewrite (sound_get_raw CF_CONTACTS _ ltac:(solve_in) db db0 o Ht Ho).
Qed.

Lemma sound_list_contacts cs : sound (λ db, list_contacts cs db).
Proof using F.
  unfold list_contacts. apply sound_bind; [walk_sound|]. intros _.
  apply (sound_prefix_loop (λ e, CeCodec (rocks_error_string e))
    (λ kv, map_err codec_err (from_bytes kv.2))). solve_in.
Qed.

Lemma sound_resume cid : sound (λ db, resume_conversation db cid).
Proof using F. unfold resume_conversation. walk_sound. Qed.

Lemma sound_get_message c m : sound (λ db, get_message db c m).
Proof using F.
  unfold get_message. apply sound_bind; [walk_sound|]. intros _ db db0 a Ht.
  destruct (DB_get_cf db CF_CHAINS _) as [o|] eqn:Ho; [|done].
  by rewrite (sound_get_cf CF_CHAINS _ ltac:(solve_in) db db0 o Ht Ho).
Qed.

(** The scan of a page, once its vector is reserved. *)
Lemma sound_reserved prefix seek_key before limit mode :
  sound (λ db, let iter := DB_iterator_cf db CF_CHAINS mode in
    vec_with_capacity size_of_message (uval limit);;
    map_err (Raised (E := DmError)) (for_each (page_step prefix seek_key before limit) [] iter)).
Proof using F.
  cbv zeta. apply (sound_bind (λ _, vec_with_capacity _ _)); [apply sound_const|]. intros _.
  apply sound_map_err. by apply sound_iterator; [solve_in|].
Qed.

Lemma sound_history c before limit : sound (λ db, history db c before limit).
Proof using F.
  unfold history. apply sound_bind; [walk_sound|]. intros _. by apply sound_reserved.
Qed.

Lemma sound_paginate c before limit : sound (λ db, paginate_messages db c before limit).
Proof using F.
  unfold paginate_messages. destruct (uval limit =? 0)%Z; [walk_sound|].
  apply sound_bind; [walk_sound|]. intros _. by apply sound_reserved.
Qed.

Lemma sound_get_manifest g : sound (λ db, get_manifest db g).
Proof using F. unfold get_manifest. walk_sound. Qed.

Lemma sound_group_message g m : sound (λ db, group_get_message db g m).
Proof using F. unfold group_get_message. walk_sound. Qed.

Lemma sound_list_messages g before limit : sound (λ db, list_messages db g before limit).
Proof using F.
  unfold list_messages. apply sound_bind; [walk_sound|]. intros _.
  apply sound_bind; [|intros; walk_sound]. apply sound_prefix_iterator; [solve_in|done|].
  intros a [k v] Hk. cbn in *. by rewrite Hk.
Qed.

Lemma sound_owner_pairs svc : sound (λ db, owner_pairs svc db).
Proof using F. unfold owner_pairs. walk_sound. Qed.

Lemma sound_find_raw svc c : sound (λ db, find_raw_entry svc db c).
Proof using F. unfold find_raw_entry. apply sound_bind; [apply sound_owner_pairs|]. intros; walk_sound. Qed.

Lemma sound_list_inbox svc limit : sound (λ db, list_inbox svc db limit).
Proof using F. unfold list_inbox. apply sound_bind; [apply sound_owner_pairs|]. intros; walk_sound. Qed.

Lemma sound_stats svc : sound (λ db, stats svc db).
Proof using F. unfold stats. apply sound_bind; [apply sound_owner_pairs|]. intros; walk_sound. Qed.

(** C21: a read that succeeds is true. Whatever calls of the database fail underneath, an
    operation that returns a value returns what it returns on a working database with the
    same contents: a failure is reported, and never shortens a list or hides an entry. *)
Theorem reads_honest :
  (∀ i m sid, sound (λ db, get_sector db i m sid)) ∧ (∀ i m, sound (λ db, iter_chain db i m)) ∧
  sound count ∧ (∀ now, sound (λ db, dequeue_due db now)) ∧
  (∀ cs id, sound (λ db, get_contact cs db id)) ∧ (∀ cs, sound (λ db, list_contacts cs db)) ∧
  (∀ cid, sound (λ db, resume_conversation db cid)) ∧ (∀ c m, sound (λ db, get_message db c m)) ∧
  (∀ c before limit, sound (λ db, Dm.history db c before limit)) ∧
  (∀ c before limit, sound (λ db, paginate_messages db c before limit)) ∧
  (∀ svc limit, sound (λ db, list_inbox svc db limit)) ∧ (∀ svc, sound (λ db, stats svc db)) ∧
  (∀ g, sound (λ db, get_manifest db g)) ∧ (∀ g m, sound (λ db, group_get_message db g m)) ∧
  (∀ g before limit, sound (λ db, list_messages db g before limit)).
Proof using F.
  split_and!; intros; auto using sound_get_sector, sound_iter_chain, sound_count, sound_dequeue_due,
    sound_get_contact, sound_list_contacts, sound_resume, sound_get_message, sound_history,
    sound_paginate, sound_list_inbox, sound_stats, sound_get_manifest, sound_group_message,
    sound_list_messages.
Qed.

#[local] Hint Resolve sound_count sound_get_contact sound_resume sound_get_message
  sound_get_manifest sound_find_raw : sound.

Lemma atomic_enqueue ob e : atomic (enqueue ob e).
Proof using F. unfold enqueue. walk_atomic. Qed.

Lemma atomic_attempted id t : atomic (mark_attempted id t).
Proof using F. unfold mark_attempted. walk_atomic. Qed.

Lemma atomic_remove id : atomic (remove id).
Proof using F. unfold remove. walk_atomic. Qed.

Lemma atomic_add cs c : atomic (add_contact cs c).
Proof using F. unfold add_contact. walk_atomic. Qed.

Lemma atomic_remove_contact cs id : atomic (remove_contact cs id).
Proof using F. unfold remove_contact. walk_atomic. Qed.

Lemma atomic_open svc peer : atomic (open_conversation svc peer).
Proof using F. unfold open_conversation. walk_atomic. Qed.

Lemma atomic_store m : atomic (store_message m).
Proof using F. unfold store_message. walk_atomic. Qed.

Lemma atomic_save v : atomic (save_conversation v).
Proof using F. unfold save_conversation. walk_atomic. Qed.

Lemma atomic_update c m st now : atomic (update_status c m st now).
Proof using F. unfold update_status, store_message. walk_atomic. Qed.

Lemma atomic_mark_read svc c m t1 t2 : atomic (mark_read svc c m t1 t2).
Proof using F. unfold mark_read. apply (atomic_then_ret _ (λ _, _)), atomic_update. Qed.

Lemma atomic_enqueue_receipt ob r uuid now : atomic (enqueue_receipt ob r uuid now).
Proof using F.
  unfold enqueue_receipt. apply atomic_lift_then. intros b _. cbv zeta.
  apply (atomic_then_ret _ (λ _, _)), atomic_map_err, atomic_enqueue.
Qed.

Lemma atomic_create label founders uuid now : atomic (create_group label founders uuid now).
Proof using F. unfold create_group. walk_atomic. Qed.

Lemma atomic_group_op g op : atomic (run_group_op g op).
Proof using F.
  destruct op; unfold run_group_op, promote, demote, add_member, remove_member, put_manifest; walk_atomic.
Qed.

Lemma atomic_gsend g sender machine text uuid now : atomic (send_message g sender machine text uuid now).
Proof using F. unfold send_message. walk_atomic. Qed.

Lemma atomic_greceive m : atomic (receive_message m).
Proof using F. unfold receive_message. walk_atomic. Qed.

Lemma atomic_greceipt r : atomic (group_process_receipt r).
Proof using F. unfold group_process_receipt. walk_atomic. Qed.
End operations.

(** ** What a failing operation leaves *)

Section outcomes.
Context `{R : RocksDB} `{P : PostcardLib} `{B : Blake3} `{BK : Blake3Keyed} `{ZK : ZidKeys}.
Context `{!Postcard OutboxEntry, !Postcard DmSectorPayload, !Postcard ReceiptPayload}.
Implicit Types (S : sdk_state) (D : dm_state).

(** The parts of receiving a message, each on the state before it. *)
Definition dm_stored (p : DmSectorPayload) (rd : readings) D : dm_state :=
  let m := inbound_message p (rd_now rd) in set_msgs (<[own_key m := m]> (d_msgs D)) D.
Definition dm_receipted (rcv : DmReceiver) (p : DmSectorPayload) (rd : readings) D
    : dm_state * result DmError SectorId :=
  spec_enqueue_receipt Outbox_new (delivered_receipt rcv p rd) (rd_sector rd) (rd_enqueue rd) D.

(** The states between the writes of the operations that make more than one. *)
Definition between (sdk : ZeroSdk) (op : sdk_op) S : list sdk_state :=
  let D := s_dm S in
  match op with
  | SendText cid text now mu su =>
      let svc := sdk_dm sdk in
      let m := mkMessage (mkMessageId mu) cid (ds_identity svc) (ds_machine_id svc) text
        Queued now now in
      let p := mkDmSectorPayload (mkMessageId mu) cid (ds_identity svc) (ds_machine_id svc) text now in
      let D1 := set_msgs (<[(cid, mkMessageId mu) := m]> (d_msgs D)) D in
      let e := mkOutboxEntry (mkSectorId su) (enc p) (umk 8 0) now now in
      let D2 := set_outbox (spec_enqueue DEFAULT_OUTBOX_CAPACITY e (d_outbox D)).1 D1 in
      match d_convs D !! cid with None => [] | Some _ => [set_dm D1 S; set_dm D2 S] end
  | ReceiveDm b rd =>
      match from_bytes b with
      | Err _ => []
      | Ok p =>
          let O := (spec_open (sdk_dm sdk) (dsp_sender_identity p) D).1 in
          [set_dm O S; set_dm (dm_stored p rd D) S; set_dm (dm_stored p rd O) S;
           set_dm (dm_receipted (own_receiver sdk) p rd (dm_stored p rd D)).1 S]
      end
  | MarkReadEmit cid mid t1 _ _ _ =>
      [set_dm (set_msgs (spec_update_status cid mid Read t1 (d_msgs D)).1 D) S]
  | InboxUpsert e => [set_inbox (delete (box (sdk_inbox sdk), ie_conversation_id e) (s_inbox S)) S]
  | InboxRead r =>
      match s_inbox S !! (box (sdk_inbox sdk), ref_conversation_id r) with
      | Some e =>
          if (0 <? uval (ie_unread e))%Z
          then [set_inbox (delete (box (sdk_inbox sdk), ref_conversation_id r) (s_inbox S)) S] else []
      | None => []
      end
  | _ => []
  end.

(** [ReceiveDm] takes a contact it could not read for a stranger, and goes on. *)
Definition unopened (sdk : ZeroSdk) (op : sdk_op) S : sdk_state * result SdkError sdk_value :=
  match op with
  | ReceiveDm b rd =>
      match from_bytes b with
      | Err e => (S, Err (SdkDm (dm_codec e)))
      | Ok p =>
          let x := dm_receipted (own_receiver sdk) p rd (dm_stored p rd (s_dm S)) in
          on_dm SdkDm (λ _, VMessage (dsp_message_id p)) x S
      end
  | _ => spec_sdk sdk op S
  end.

(** One operation on a database that may fail: it has happened, or it reports an error and
    the state is the one before, the one after or one in between. *)
Definition outcome (sdk : ZeroSdk) (op : sdk_op) S (r : result SdkError sdk_value) S' : Prop :=
  match r with
  | Ok v => spec_sdk sdk op S = (S', Ok v) ∨ unopened sdk op S = (S', Ok v)
  | Err _ => S' ∈ S :: (spec_sdk sdk op S).1 :: between sdk op S
  end.

Inductive fault_run (sdk : ZeroSdk)
    : sdk_state → list sdk_op → list (result SdkError sdk_value) → sdk_state → Prop :=
| fault_nil S : fault_run sdk S [] [] S
| fault_cons S op ops r rs S1 S2 :
    outcome sdk op S r S1 → fault_run sdk S1 ops rs S2 →
    fault_run sdk S (op :: ops) (r :: rs) S2.
End outcomes.

Section contained.
Context `{F : RocksFaults} `{P : PostcardLib} `{B : Blake3} `{BK : Blake3Keyed} `{ZK : ZidKeys}.
Context `{!Postcard Contact, !PostcardOk Contact, !Postcard OutboxEntry, !PostcardOk OutboxEntry,
          !Postcard Conversation, !PostcardOk Conversation, !Postcard Message,
          !PostcardOk Message, !Postcard DmSectorPayload, !PostcardOk DmSectorPayload,
          !Postcard ReceiptPayload, !PostcardOk ReceiptPayload, !Postcard InboxEntry,
          !PostcardOk InboxEntry, !Postcard GroupManifest, !PostcardOk GroupManifest,
          !Postcard GroupMessage, !PostcardOk GroupMessage}.
Implicit Types (db : DB) (S : sdk_state) (D : dm_state) (C Φ : store → Prop).

Lemma torn_wrap {E A : Type} (ferr : E → SdkError) (fval : A → sdk_value) (m : io DB E A) db C
    (Q : A → store → Prop) (Q' : sdk_value → store → Prop) :
  torn m db C Q → (∀ a st, Q a st → Q' (fval a) st) → torn (wrap ferr fval m) db C Q'.
Proof using.
  intros [Ho Hm] HQ. unfold torn, wrap in *. destruct (m db) as [db' [a|e]]; cbn [fst snd] in *.
  - split; [done|]. cbn. auto.
  - done.
Qed.

Lemma atomic_wrap {E A : Type} (ferr : E → SdkError) (fval : A → sdk_value) (m : io DB E A) :
  atomic m → atomic (wrap ferr fval m).
Proof using.
  intros Hm db db0 Ho Ht. destruct (Hm db db0 Ho Ht) as [Ho' H].
  unfold wrap. destruct (m db) as [db' [a|e]], (m db0) as [db0' [a0|e0]]; cbn in *;
    (split; [done|]); try done.
  - by destruct H as [[= ->] ?].
  - by destruct H.
Qed.

Definition one_write (op : sdk_op) : bool :=
  match op with
  | SendText _ _ _ _ _ | ReceiveDm _ _ | MarkReadEmit _ _ _ _ _ _ | InboxUpsert _ | InboxRead _ => false
  | _ => true
  end.

Lemma atomic_sdk sdk op : one_write op = true → atomic (run_sdk sdk op).
Proof using F.
  destruct op; try done; intros _; cbn [run_sdk]; apply atomic_wrap;
    auto using atomic_add, atomic_remove_contact, atomic_open, atomic_update, atomic_attempted,
      atomic_remove, atomic_create, atomic_group_op, atomic_gsend, atomic_greceive, atomic_greceipt.
Qed.

(** What an operation on the DM families leaves of the rest. *)
Lemma dm_lift {E A : Type} (m : io DB E A) db S D r :
  good db → sdk_repr (contents db) S → writes DM_CFS m →
  (∃ st, runs m db r st ∧ dm_repr st D) → ∃ st, runs m db r st ∧ sdk_repr st (set_dm D S).
Proof using.
  intros Hg (HD & HI & HG) Hw (st & Hr & HD').
  pose proof (runs_outside DM_CFS m db r st Hg Hw Hr) as Hout.
  exists st. split; [done|]. split_and!; [done| |].
  - by apply (inbox_outside DM_CFS (contents db)); [|solve_out|].
  - by apply (groups_outside DM_CFS (contents db)); [|solve_out|].
Qed.

(** A step on the DM state inside a longer operation. *)
Lemma torn_dm {E A : Type} (m : io DB E A) db S (D : dm_state) r :
  atomic m → writes DM_CFS m → opened db → sdk_repr (contents db) S →
  (∀ db0, good db0 → dm_repr (contents db0) (s_dm S) → ∃ st, runs m db0 r st ∧ dm_repr st D) →
  torn m db (λ st, sdk_repr st S ∨ sdk_repr st (set_dm D S)) (λ a st, r = Ok a ∧ sdk_repr st (set_dm D S)).
Proof using F.
  intros Ha Hw Ho HS Hr.
  eapply torn_weaken; [apply (torn_atomic m db r (λ st, sdk_repr st (set_dm D S)) Ha Ho)|..].
  - intros db0 Hg Hc. apply dm_lift; [done|by rewrite Hc|done|].
    apply Hr; [done|]. rewrite Hc. apply HS.
  - intros st [->|?]; [by left|by right].
  - done.
Qed.

(** [m] ends in one of the states [L], and in [S'] with value [a] if it succeeds with one. *)
Definition ends {E A} (m : io DB E A) db (L : list sdk_state) (Q : A → sdk_state → Prop) : Prop :=
  torn m db (λ st, ∃ S', S' ∈ L ∧ sdk_repr st S') (λ a st, ∃ S', Q a S' ∧ sdk_repr st S').

Lemma ends_bind {E A B' : Type} (m : io DB E A) (k : A → io DB E B') db L Q Q' :
  ends m db L Q →
  (∀ a S' db', opened db' → Q a S' → sdk_repr (contents db') S' → ends (k a) db' L Q') →
  ends (m ≫= k) db L Q'.
Proof using.
  intros Hm Hk. eapply torn_bind; [exact Hm|]. intros a db' Ho (S' & HQ & HS'). by eapply Hk.
Qed.

Lemma ends_lift {E A B' : Type} (r : result E A) (k : A → io DB E B') db S L Q' :
  opened db → sdk_repr (contents db) S → S ∈ L →
  (∀ a, r = Ok a → ends (k a) db L Q') → ends (lift r ≫= k) db L Q'.
Proof using.
  intros Ho HS HL Hk. unfold ends, torn, lift, mbind, io_bind. destruct r as [a|e]; cbn [fst snd].
  - by apply Hk.
  - split; [done|]. by exists S.
Qed.

Lemma ends_ret {E A : Type} (a : A) db S L (Q : A → sdk_state → Prop) :
  opened db → sdk_repr (contents db) S → Q a S → ends (mret a : io DB E A) db L Q.
Proof using. intros Ho HS HQ. split; [done|]. by exists S. Qed.

Lemma ends_map_err {E E' A : Type} (h : E → E') (m : io DB E A) db L Q :
  ends m db L Q → ends (io_map_err h m) db L Q.
Proof using. apply torn_map_err. Qed.

(** The step lemma for the DM families, as it is used: [S] and the state after are both
    among the states allowed. *)
Lemma ends_dm {E A : Type} (m : io DB E A) db S D r L :
  atomic m → writes DM_CFS m → opened db → sdk_repr (contents db) S →
  (∀ db0, good db0 → dm_repr (contents db0) (s_dm S) → ∃ st, runs m db0 r st ∧ dm_repr st D) →
  S ∈ L → set_dm D S ∈ L →
  ends m db L (λ a S', r = Ok a ∧ S' = set_dm D S).
Proof using F.
  intros Ha Hw Ho HS Hr H1 H2. eapply torn_weaken; [by eapply torn_dm|..].
  - intros st [?|?]; eauto.
  - intros a st [-> ?]. by exists (set_dm D S).
Qed.

Lemma ends_wrap {E A : Type} (ferr : E → SdkError) (fval : A → sdk_value) (m : io DB E A) db L Q
    (Q' : sdk_value → sdk_state → Prop) :
  ends m db L Q → (∀ a S', Q a S' → Q' (fval a) S') → ends (wrap ferr fval m) db L Q'.
Proof using.
  intros Hm HQ. eapply torn_wrap; [exact Hm|]. intros a st (S' & ? & ?). exists S'. eauto.
Qed.

(** A step that only reads. *)
Lemma ends_reads {E A B' : Type} (f : DB → result E A) (k : A → io DB E B') db S r L Q :
  sound f → opened db → sdk_repr (contents db) S → S ∈ L →
  (∀ db0, good db0 → sdk_repr (contents db0) S → f db0 = r) →
  (∀ a, r = Ok a → ends (k a) db L Q) → ends (reads f ≫= k) db L Q.
Proof using F.
  intros Hf Ho HS HL Hr Hk. destruct (has_twin db Ho) as (db0 & Hg & Hc).
  unfold ends, torn, reads, mbind, io_bind. destruct (f db) as [a|e] eqn:Ha; cbn [fst snd].
  - apply Hk. by rewrite <-(Hr db0 Hg ltac:(by rewrite Hc)), (Hf db db0 a (conj Hg Hc) Ha).
  - split; [done|]. by exists S.
Qed.

Lemma store_dm db D m :
  good db → dm_repr (contents db) D →
  ∃ st, runs (store_message m) db (Ok ()) st ∧ dm_repr st (set_msgs (<[own_key m := m]> (d_msgs D)) D).
Proof using PostcardOk3.
  intros Hg HD. destruct (store_message_run db _ _ m Hg (proj1 (proj2 HD))) as (st & ? & ? & ?).
  exists st. split; [done|]. by eapply dm_chains.
Qed.

Lemma save_dm db D v :
  good db → dm_repr (contents db) D →
  ∃ st, runs (save_conversation v) db (Ok ()) st ∧
    dm_repr st (set_convs (<[conv_conversation_id v := v]> (d_convs D)) D).
Proof using PostcardOk2.
  intros Hg HD. destruct (save_conversation_run db _ _ v Hg (proj1 (proj2 HD))) as (st & ? & ? & ?).
  exists st. split; [done|]. by eapply dm_chains.
Qed.

Lemma writes_store m : writes DM_CFS (store_message m).
Proof using. unfold store_message, DM_CFS. walk. Qed.
Lemma writes_save v : writes DM_CFS (save_conversation v).
Proof using. unfold save_conversation, DM_CFS. walk. Qed.

Lemma writes_mark_read svc c m t1 t2 : writes DM_CFS (mark_read svc c m t1 t2).
Proof using. unfold mark_read. apply writes_bind; [apply writes_update|intros ?; apply writes_ret]. Qed.

Ltac in_list := solve [repeat first [apply list_elem_of_here | apply list_elem_of_further]].

Lemma ends_send sdk cid text now mu su db S :
  opened db → sdk_repr (contents db) S → sdk_wf S →
  ends (send_text (sdk_dm sdk) cid text now mu su) db
    (S :: (spec_sdk sdk (SendText cid text now mu su) S).1 :: between sdk (SendText cid text now mu su) S)
    (λ mid S', spec_sdk sdk (SendText cid text now mu su) S = (S', Ok (VMessage mid))).
Proof using F PostcardOk1 PostcardOk2 PostcardOk3 PostcardOk4.
  intros Ho HS [_ Hcw]. cbn [spec_sdk between]. unfold on_dm, spec_send, send_text. cbv zeta.
  eapply (ends_reads _ _ _ S); [apply sound_resume|done|done|in_list|..].
  { intros db0 Hg HS0. exact (resume_conversation_run db0 _ _ cid Hg (proj1 (proj2 (proj1 HS0)))). }
  intros v Hv. destruct (d_convs (s_dm S) !! cid) as [w|] eqn:Hw; [|done]. injection Hv as ->.
  unfold MessageId_new, SectorId_new.
  set (m := mkMessage _ _ _ _ _ _ _ _). set (D1 := set_msgs _ (s_dm S)).
  set (p := mkDmSectorPayload _ _ _ _ _ _). set (e := mkOutboxEntry _ _ _ _ _).
  set (O := spec_enqueue _ e _).
  eapply ends_bind.
  { eapply (ends_dm _ _ _ D1); [apply atomic_store|apply writes_store|done|done| |in_list|in_list].
    intros db0 Hg HD. exact (store_dm db0 _ m Hg HD). }
  intros [] S1 db1 Ho1 [_ ->] HS1. rewrite to_vec_enc. eapply ends_lift; [done|exact HS1|in_list|].
  intros b [= <-]. eapply ends_bind.
  { eapply (ends_dm _ _ _ (set_outbox O.1 D1));
      [apply atomic_map_err, atomic_enqueue|apply writes_map_err, writes_enqueue|done|exact HS1| |in_list|in_list].
    intros db0 Hg HD. exact (enqueue_dm Outbox_new db0 D1 e Hg HD). }
  intros [] S2 db2 Ho2 [HO ->] HS2.
  change (map_err (λ x, DmStorage (conc x)) O.2 = Ok ()) in HO. destruct O as [O' [[]|x]]; [|done]. cbn [fst snd] in *.
  set (v' := mkConversation _ _ _). eapply ends_bind.
  { eapply (ends_dm _ _ _ (set_convs (<[cid := v']> (d_convs (s_dm S))) (set_outbox O' D1)));
      [apply atomic_save|apply writes_save|done|exact HS2| |in_list|in_list].
    intros db0 Hg HD. rewrite (Hcw cid v Hw). exact (save_dm db0 _ v' Hg HD). }
  intros [] S3 db3 Ho3 [_ ->] HS3. by eapply ends_ret.
Qed.

Lemma ends_emit sdk cid mid t1 t2 t3 uuid db S :
  opened db → sdk_repr (contents db) S → sdk_wf S →
  ends (mark_read_and_emit (sdk_dm sdk) cid mid Outbox_new t1 t2 t3 uuid) db
    (S :: (spec_sdk sdk (MarkReadEmit cid mid t1 t2 t3 uuid) S).1 ::
     between sdk (MarkReadEmit cid mid t1 t2 t3 uuid) S)
    (λ rp S', spec_sdk sdk (MarkReadEmit cid mid t1 t2 t3 uuid) S = (S', Ok (VReceipt rp))).
Proof using F PostcardOk1 PostcardOk3 PostcardOk5.
  intros Ho HS Hw. cbn [spec_sdk between]. unfold on_dm, spec_emit, mark_read_and_emit. cbv zeta.
  assert ((spec_mark_read (sdk_dm sdk) cid mid t1 t2 (s_dm S)).1 =
    set_msgs (spec_update_status cid mid Read t1 (d_msgs (s_dm S))).1 (s_dm S)) as Hfst.
  { unfold spec_mark_read. by destruct (spec_update_status _ _ _ _ _). }
  rewrite <-Hfst. set (x := spec_mark_read _ _ _ _ _ (s_dm S)). set (L := _ :: _).
  eapply ends_bind.
  { eapply (ends_dm _ _ _ x.1); [apply atomic_mark_read|apply (writes_mark_read)|done|done| |in_list|in_list].
    intros db0 Hg HD. exact (mark_read_run _ db0 _ cid mid t1 t2 Hg HD Hw). }
  intros r S1 db1 Ho1 [Hx ->] HS1. subst L. change (spec_mark_read _ _ _ _ _ _) with x in Hx.
  destruct x as [D1 x]. cbn [fst snd] in *. subst x.
  set (y := spec_enqueue_receipt Outbox_new r uuid t3 D1).
  eapply ends_bind.
  { eapply (ends_dm _ _ _ y.1);
      [apply atomic_enqueue_receipt|apply writes_enqueue_receipt|done|exact HS1| |in_list|].
    - intros db0 Hg HD. exact (enqueue_receipt_run Outbox_new db0 D1 r uuid t3 Hg HD).
    - destruct y. in_list. }
  intros sid S2 db2 Ho2 [Hy ->] HS2. change (y.2 = Ok sid) in Hy. destruct y as [D2 y].
  cbn [fst snd] in *. subst y. by eapply ends_ret.
Qed.

(** Receiving a message once its conversation has been dealt with. *)
Lemma ends_accept rcv p rd db S L (Q : MessageId → sdk_state → Prop) :
  let D := dm_stored p rd (s_dm S) in
  let x := dm_receipted rcv p rd D in
  opened db → sdk_repr (contents db) S → S ∈ L → set_dm D S ∈ L → set_dm x.1 S ∈ L →
  (∀ sid, x.2 = Ok sid → Q (dsp_message_id p) (set_dm x.1 S)) →
  ends (store_message (inbound_message p (rd_now rd));;
    enqueue_receipt Outbox_new (delivered_receipt rcv p rd) (rd_sector rd) (rd_enqueue rd);;
    mret (dsp_message_id p)) db L Q.
Proof using F PostcardOk1 PostcardOk3 PostcardOk5.
  intros D x Ho HS H0 H1 H2 HQ. eapply ends_bind.
  { eapply (ends_dm _ _ _ D); [apply atomic_store|apply writes_store|done|exact HS| |done|done].
    intros db0 Hg HD. exact (store_dm db0 _ _ Hg HD). }
  intros [] S1 db1 Ho1 [_ ->] HS1. eapply ends_bind.
  { eapply (ends_dm _ _ _ x.1);
      [apply atomic_enqueue_receipt|apply writes_enqueue_receipt|done|exact HS1| |done|done].
    intros db0 Hg HD. exact (enqueue_receipt_run Outbox_new db0 D _ _ _ Hg HD). }
  intros sid S2 db2 Ho2 [Hx ->] HS2. eapply ends_ret; [done|exact HS2|]. by apply (HQ sid).
Qed.

Lemma ends_process sdk b rd db S :
  opened db → sdk_repr (contents db) S →
  ends (process_inbound_dm (own_receiver sdk) b rd) db
    (S :: (spec_sdk sdk (ReceiveDm b rd) S).1 :: between sdk (ReceiveDm b rd) S)
    (λ mid S', spec_sdk sdk (ReceiveDm b rd) S = (S', Ok (VMessage mid)) ∨
      unopened sdk (ReceiveDm b rd) S = (S', Ok (VMessage mid))).
Proof using F PostcardOk0 PostcardOk1 PostcardOk2 PostcardOk3 PostcardOk5.
  intros Ho HS. cbn [spec_sdk between unopened]. unfold on_dm, spec_process, process_inbound_dm.
  destruct (from_bytes b) as [p|e] eqn:Hp; cbn [map_err].
  2:{ eapply (ends_lift _ _ _ S); [done|done|in_list|done]. }
  eapply (ends_lift _ _ _ S); [done|done|in_list|]. intros ? [= <-]. cbv zeta.
  change (rc_service (own_receiver sdk)) with (sdk_dm sdk).
  set (O := (spec_open (sdk_dm sdk) (dsp_sender_identity p) (s_dm S)).1).
  change (set_msgs _ O) with (dm_stored p rd O).
  change (spec_enqueue_receipt _ _ _ _ _) with (dm_receipted (own_receiver sdk) p rd (dm_stored p rd O)).
  assert (set_dm (s_dm S) S = S) as Hsame by by destruct S.
  match goal with |- ends _ _ ?L0 ?Q0 => set (L := L0); set (Q := Q0) end.
  assert (∀ D0 db1, D0 = O ∨ D0 = s_dm S → opened db1 → sdk_repr (contents db1) (set_dm D0 S) →
    ends (store_message (inbound_message p (rd_now rd));;
      enqueue_receipt Outbox_new (delivered_receipt (own_receiver sdk) p rd) (rd_sector rd) (rd_enqueue rd);;
      mret (dsp_message_id p)) db1 L Q) as Hrest.
  { intros D0 db1 HD0 Ho1 HS1.
    apply (ends_accept (own_receiver sdk) p rd db1 (set_dm D0 S)); cbn [s_dm set_dm]; [done|done|..];
      unfold L, Q; destruct HD0 as [-> | ->]; try in_list.
    - rewrite Hsame. in_list.
    - by destruct (dm_receipted (own_receiver sdk) p rd (dm_stored p rd O)); in_list.
    - intros sid Hs. left. destruct (dm_receipted (own_receiver sdk) p rd (dm_stored p rd O)) as [S3 x].
      cbn [snd] in Hs. by subst x.
    - intros sid Hs. right. by rewrite Hs. }
  eapply torn_bind.
  { eapply torn_attempt, (torn_dm _ db S O); [apply atomic_open|apply writes_open|done|done|].
    intros db0 Hg HD. exact (open_conversation_run _ db0 _ _ Hg HD). }
  intros o db1 Ho1 Hst. assert (sdk_repr (contents db1) (set_dm O S) ∨ sdk_repr (contents db1) S) as HS1.
  { destruct o; [by destruct Hst; left|destruct Hst; [by right|by left]]. }
  assert (∀ e : DmError, ends (fails e) db1 L Q) as Hfail.
  { intros e. split; [done|]. cbn. destruct HS1 as [HS1|HS1]; eexists; (split; [|exact HS1]); unfold L; in_list. }
  destruct o as [v|[]]; try (destruct HS1 as [HS1|HS1]; [by apply (Hrest O); [left|..]|by apply (Hrest (s_dm S)); [right|..|rewrite Hsame]]).
  exact (Hfail _).
Qed.

(** *** The inbox *)

Lemma inbox_lift {E A : Type} (m : io DB E A) db S (I : inbox_map) r :
  good db → sdk_repr (contents db) S → writes [CF_INBOX_INDEX] m →
  (∃ st, runs m db r st ∧ inbox_repr st I) → ∃ st, runs m db r st ∧ sdk_repr st (set_inbox I S).
Proof using.
  intros Hg (HD & HI & HG) Hw (st & Hr & HI').
  pose proof (runs_outside [CF_INBOX_INDEX] m db r st Hg Hw Hr) as Hout.
  exists st. split; [done|]. split_and!; [|done|].
  - apply (dm_outside [CF_INBOX_INDEX] (contents db)); [done|..|done]; solve_out.
  - by apply (groups_outside [CF_INBOX_INDEX] (contents db)); [|solve_out|].
Qed.

Lemma ends_inbox {E A : Type} (m : io DB E A) db S (I : inbox_map) r L :
  atomic m → writes [CF_INBOX_INDEX] m → opened db → sdk_repr (contents db) S →
  (∀ db0, good db0 → inbox_repr (contents db0) (s_inbox S) → ∃ st, runs m db0 r st ∧ inbox_repr st I) →
  S ∈ L → set_inbox I S ∈ L →
  ends m db L (λ a S', r = Ok a ∧ S' = set_inbox I S).
Proof using F.
  intros Ha Hw Ho HS Hr H1 H2. eapply torn_weaken;
    [apply (torn_atomic m db r (λ st, sdk_repr st (set_inbox I S)) Ha Ho)|..].
  - intros db0 Hg Hc. apply inbox_lift; [done|by rewrite Hc|done|].
    apply Hr; [done|]. rewrite Hc. apply HS.
  - intros st [->|?]; eauto.
  - intros a st [-> ?]. by exists (set_inbox I S).
Qed.

Lemma indexed_delete (J : gmap inbox_key InboxEntry) I o c e :
  indexed J I → I !! (o, c) = Some e → indexed (delete (o, ie_last_ts e, c) J) (delete (o, c) I).
Proof using.
  intros [HJ Hw] He. split.
  - intros o' ts c' e'. rewrite !lookup_delete_Some, HJ. split.
    + intros [Hne [He' ->]]. split; [|done]. split; [|done]. intros [= -> ->].
      rewrite He in He'. by injection He' as ->.
    + intros [[Hne He'] ->]. split; [|done]. congruence.
  - intros o' c' e' [_ He']%lookup_delete_Some. by eapply Hw.
Qed.

(** The two writes of an inbox operation. *)
Lemma delete_old_run db I o c e :
  good db → inbox_repr (contents db) I → I !! (o, c) = Some e →
  ∃ st, runs (io_map_err InStorage (delete_raw CF_INBOX_INDEX (ikey (o, ie_last_ts e, c)))) db (Ok ()) st ∧
    inbox_repr st (delete (o, c) I).
Proof using.
  intros Hg (J & HJ & HI) He.
  destruct (delete_entry_run db J (o, ie_last_ts e, c) Hg HJ) as (st & ? & ?).
  exists st. split; [done|]. eexists. split; [done|]. by apply indexed_delete.
Qed.

Lemma put_new_run svc db I (e : InboxEntry) :
  good db → inbox_repr (contents db) I → I !! (box svc, ie_conversation_id e) = None →
  ∃ st, runs (
      value ← lift (map_err in_codec (to_vec e));
      io_map_err InStorage (put_raw CF_INBOX_INDEX
        (encode_key (is_identity_id svc) (is_machine_id svc) (ie_last_ts e)
          (ie_conversation_id e)) value);;
      mret ()) db (Ok ()) st ∧
    inbox_repr st (<[(box svc, ie_conversation_id e) := e]> I).
Proof using PostcardOk6.
  intros Hg (J & HJ & HI) He. destruct (write_entry_run svc db J I e Hg HJ) as (st & ? & ?).
  exists st. split; [done|]. eexists. split; [done|].
  pose proof (indexed_upsert J I (box svc) e HI) as Hu. unfold old_removed in Hu. by rewrite He in Hu.
Qed.

(** Deleting the entry found and writing [e'] for the same conversation. *)
Lemma ends_replace svc db S L e e' :
  let k := (box svc, ie_conversation_id e') in
  opened db → sdk_repr (contents db) S → s_inbox S !! k = Some e →
  S ∈ L → set_inbox (delete k (s_inbox S)) S ∈ L → set_inbox (<[k := e']> (s_inbox S)) S ∈ L →
  ends (io_map_err InStorage (delete_raw CF_INBOX_INDEX (ikey (box svc, ie_last_ts e, ie_conversation_id e')));;
    value ← lift (map_err in_codec (to_vec e'));
    io_map_err InStorage (put_raw CF_INBOX_INDEX
      (encode_key (is_identity_id svc) (is_machine_id svc) (ie_last_ts e') (ie_conversation_id e')) value);;
    mret ()) db L (λ _ S', S' = set_inbox (<[k := e']> (s_inbox S)) S).
Proof using F PostcardOk6.
  intros k Ho HS He H1 H2 H3. eapply ends_bind.
  { eapply (ends_inbox _ _ _ (delete k (s_inbox S))); [walk_atomic|walk|done|exact HS| |done|done].
    intros db0 Hg HI. by apply delete_old_run. }
  intros [] S1 db1 Ho1 [_ ->] HS1. eapply torn_weaken.
  { eapply (ends_inbox _ _ _ (<[k := e']> (delete k (s_inbox S))) (Ok ()) L);
      [walk_atomic|walk|done|exact HS1| |done|].
    - intros db0 Hg HI. apply put_new_run; [done|done|]. apply lookup_delete_eq.
    - by rewrite insert_delete_eq. }
  - done.
  - intros [] st (S' & [_ ->] & HS'). rewrite insert_delete_eq in HS'. eauto.
Qed.

Lemma find_raw_sdk svc db S c :
  good db → sdk_repr (contents db) S →
  find_raw_entry svc db c =
    Ok ((λ e, (ikey (box svc, ie_last_ts e, c), e)) <$> s_inbox S !! (box svc, c)).
Proof using PostcardOk6. intros Hg (_ & (J & HJ & HI) & _). by eapply find_raw_entry_run. Qed.

Lemma ends_upsert sdk e db S :
  opened db → sdk_repr (contents db) S →
  ends (upsert (sdk_inbox sdk) e) db
    (S :: (spec_sdk sdk (InboxUpsert e) S).1 :: between sdk (InboxUpsert e) S)
    (λ _ S', S' = (spec_sdk sdk (InboxUpsert e) S).1).
Proof using F PostcardOk6.
  intros Ho HS. cbn [spec_sdk between fst]. unfold upsert.
  eapply (ends_reads _ _ _ S); [apply sound_find_raw|done|done|in_list|..].
  { intros db0 Hg HS0. by apply find_raw_sdk. }
  intros found [= <-]. destruct (s_inbox S !! _) as [old|] eqn:Hold; cbn [fmap option_fmap option_map].
  - apply (ends_replace (sdk_inbox sdk) db S _ old e); [done|done|done|in_list..].
  - eapply ends_bind; [by apply (ends_ret _ _ S _ (λ _ S', S' = S))|].
    intros [] S' db1 Ho1 -> HS1. eapply torn_weaken; [|intros st H; exact H|].
    + eapply (ends_inbox _ _ _ _ (Ok ())); [walk_atomic|walk|done|exact HS1| |in_list|in_list].
      intros db0 Hg HI. exact (put_new_run (sdk_inbox sdk) db0 _ e Hg HI Hold).
    + intros a st (S' & [_ ->] & HS'). eauto.
Qed.

Lemma ends_inbox_read sdk r db S :
  opened db → sdk_repr (contents db) S →
  ends (inbox_mark_read (sdk_inbox sdk) r) db
    (S :: (spec_sdk sdk (InboxRead r) S).1 :: between sdk (InboxRead r) S)
    (λ _ S', S' = (spec_sdk sdk (InboxRead r) S).1).
Proof using F PostcardOk6.
  intros Ho HS. cbn [spec_sdk between fst]. unfold inbox_mark_read.
  eapply (ends_reads _ _ _ S); [apply sound_find_raw|done|done|in_list|..].
  { intros db0 Hg HS0. by apply find_raw_sdk. }
  pose proof HS as (_ & (J & _ & HJ) & _).
  intros found [= <-]. destruct (s_inbox S !! _) as [e|] eqn:He; cbn [fmap option_fmap option_map].
  - pose proof (proj2 HJ _ _ _ He) as Hc. destruct (Z.ltb_spec 0 (uval (ie_unread e))) as [Hpos|Hz].
    + assert (alter cleared (box (sdk_inbox sdk), ref_conversation_id r) (s_inbox S) =
        <[(box (sdk_inbox sdk), ref_conversation_id r) := cleared e]> (s_inbox S)) as ->.
      { apply map_eq. intros k. rewrite lookup_alter, lookup_insert. case_decide; [|done]. subst k. by rewrite He. }
      pose proof (ends_replace (sdk_inbox sdk) db S) as Hrep. rewrite <-Hc in *.
      apply (Hrep _ e (cleared e)); [done|done|done|in_list..].
    + apply (ends_ret _ _ S); [done|done|]. rewrite (mark_read_same _ _ _ e He) by (pose proof (uint_range (ie_unread e)); lia).
      by destruct S.
  - apply (ends_ret _ _ S); [done|done|]. rewrite alter_id by (intros ?; by rewrite He). by destruct S.
Qed.

(** ** One operation, and a history of them *)

Lemma dm_stored_wf p rd D : dm_wf D → dm_wf (dm_stored p rd D).
Proof using. intros [HM HC]. split; [|exact HC]. by apply msgs_wf_insert. Qed.

Lemma dm_receipted_wf rcv p rd D : dm_wf D → dm_wf (dm_receipted rcv p rd D).1.
Proof using.
  intros Hw. unfold dm_receipted, spec_enqueue_receipt. by destruct (spec_enqueue _ _ _).
Qed.

Lemma between_wf sdk op S : sdk_wf S → Forall sdk_wf (between sdk op S).
Proof using.
  intros Hw. pose proof Hw as [HM HC]. destruct op; cbn [between]; try by constructor.
  - destruct (d_convs (s_dm S) !! cid); [|done].
    pose proof (msgs_wf_insert (d_msgs (s_dm S)) (mkMessage (mkMessageId mu) cid (ds_identity (sdk_dm sdk))
      (ds_machine_id (sdk_dm sdk)) text Queued now now) HM) as Hm.
    by repeat constructor.
  - destruct (from_bytes b) as [p|]; [|done].
    pose proof (dm_wf_open (sdk_dm sdk) (dsp_sender_identity p) (s_dm S) Hw) as HO.
    repeat apply Forall_cons_2; try apply Forall_nil_2; unfold sdk_wf; cbn [s_dm set_dm];
      auto using dm_stored_wf, dm_receipted_wf.
  - constructor; [|done]. by apply (dm_wf_update cid mid Read t1 (s_dm S)).
  - destruct (s_inbox S !! _) as [e|]; [|done]. by destruct (0 <? _)%Z; [constructor|].
Qed.

Lemma outcome_wf sdk op S r S' : sdk_wf S → outcome sdk op S r S' → sdk_wf S'.
Proof using.
  intros Hw. pose proof (spec_sdk_wf sdk op S Hw) as Hs. unfold outcome. destruct r as [v|e].
  - intros [Hr|Hr]; [by rewrite Hr in Hs|]. destruct op; try by (cbn [unopened] in Hr; rewrite Hr in Hs).
    cbn [unopened] in Hr. destruct (from_bytes b) as [p|]; [|done]. injection Hr as <- _.
    by apply dm_receipted_wf, dm_stored_wf.
  - pose proof (between_wf sdk op S Hw) as Hb. rewrite Forall_forall in Hb.
    intros [->|[->|?]%elem_of_cons]%elem_of_cons; auto.
Qed.

(** The operations with one write, all at once, and the others. *)
Lemma ends_sdk sdk op db S :
  opened db → sdk_repr (contents db) S → sdk_wf S →
  ends (run_sdk sdk op) db (S :: (spec_sdk sdk op S).1 :: between sdk op S)
    (λ v S', outcome sdk op S (Ok v) S').
Proof using All.
  intros Ho HS Hw. destruct (one_write op) eqn:H1.
  - eapply torn_weaken; [apply (torn_atomic _ db (spec_sdk sdk op S).2
      (λ st, sdk_repr st (spec_sdk sdk op S).1) (atomic_sdk sdk op H1) Ho)|..].
    + intros db0 Hg Hc. apply run_sdk_step; [done|by rewrite Hc|done].
    + intros st [->|?]; eexists; (split; [|done]); in_list.
    + intros v st [Hv ?]. exists (spec_sdk sdk op S).1. split; [left|done].
      by rewrite <-Hv, <-surjective_pairing.
  - destruct op; try done; cbn [run_sdk].
    + eapply ends_wrap; [by apply ends_send|]. intros v S' Hv. by left.
    + eapply ends_wrap; [by apply ends_process|]. done.
    + eapply ends_wrap; [by apply ends_emit|]. intros v S' Hv. by left.
    + eapply ends_wrap; [by apply ends_upsert|]. intros v S' ->. by left.
    + eapply ends_wrap; [by apply ends_inbox_read|]. intros v S' ->. by left.
Qed.

(** Failures of the database are contained. Whatever calls of the database fail, during any
    history of contact, message, outbox, inbox and group operations: an operation that reports
    success has done exactly what its specification says (receiving a message, which may take
    a contact it could not read for a stranger, is the one exception); an operation that reports
    an error has left the state before it, the state after it, or one of the listed states
    between its writes; so that the database represents a well-formed state all along. *)
Theorem faults_contained sdk ops db S :
  opened db → sdk_repr (contents db) S → sdk_wf S →
  let (db', rs) := Prelude.history (run_sdk sdk) ops db in
  ∃ S', fault_run sdk S ops rs S' ∧ opened db' ∧ sdk_repr (contents db') S' ∧ sdk_wf S'.
Proof using All.
  revert db S. induction ops as [|op ops IHops]; intros db S Ho HS Hw; cbn [Prelude.history].
  { exists S. split_and!; [constructor|done..]. }
  destruct (ends_sdk sdk op db S Ho HS Hw) as [Ho1 H1].
  assert (∃ S1, outcome sdk op S (run_sdk sdk op db).2 S1 ∧ sdk_repr (contents (run_sdk sdk op db).1) S1)
    as (S1 & Hout & HS1) by (destruct (run_sdk sdk op db).2; exact H1).
  pose proof (outcome_wf sdk op S _ S1 Hw Hout) as Hw1.
  destruct (run_sdk sdk op db) as [db1 r]. cbn [fst snd] in *.
  specialize (IHops db1 S1 Ho1 HS1 Hw1). destruct (Prelude.history _ ops db1) as [db2 rs].
  destruct IHops as (S2 & Hrun & ? & ? & ?). exists S2. split_and!; [by econstructor|done..].
Qed.
End contained.

(** ** Witness: a database in memory with a script of failures *)

Module Flaky.

(** What the next writes do: succeed, or fail with the write done or not; and the keys that
    cannot be read. An iterator over a family with such a key stops there. *)
Record flaky_db : Type := mkFlaky {
  base : mem_db;
  script : list (option bool);
  unreadable : list (string * bytes);
}.

Definition readable (db : flaky_db) (cf : string) (k : bytes) : bool :=
  negb (bool_decide ((cf, k) ∈ unreadable db)).

Fixpoint up_to_bad (db : flaky_db) (cf : string) (l : list (bytes * bytes))
    : list (result () (bytes * bytes)) :=
  match l with
  | [] => []
  | kv :: rest => if readable db cf kv.1 then Ok kv :: up_to_bad db cf rest else [Err ()]
  end.

(** A write whose effect is [upd], under the script. *)
Definition scripted (upd : store → store) (db : flaky_db) : flaky_db * result () () :=
  let done b := mkFlaky (MemDb (mem_cfs (base db)) (upd (mem_map (base db)))) b (unreadable db) in
  match script db with
  | [] => (done [], Ok ())
  | None :: rest => (done rest, Ok ())
  | Some true :: rest => (done rest, Err ())
  | Some false :: rest => (mkFlaky (base db) rest (unreadable db), Err ())
  end.

#[export] Instance flaky_rocks : RocksDB := {
  DB := flaky_db;
  rocks_error := ();
  rocks_error_string _ := "io";
  Directory := flaky_db;
  directory db := db;
  DB_open_cf_descriptors dir cfs :=
    Ok (mkFlaky (MemDb cfs (mem_map (base dir))) (script dir) (unreadable dir));
  DB_cf_handle db cf := bool_decide (cf ∈ mem_cfs (base db));
  DB_get_cf db cf k := if readable db cf k then Ok (mem_map (base db) !! (cf, k)) else Err ();
  DB_put_cf cf k v := scripted (λ st, <[(cf, k) := v]> st);
  DB_delete_cf cf k := scripted (λ st, delete (cf, k) st);
  DB_iterator_cf db cf mode := up_to_bad db cf (iter_select mode (view (mem_map (base db)) cf));
  DB_prefix_iterator_cf db cf p := up_to_bad db cf
    (filter (λ kv, starts_with kv.1 p = true) (view (mem_map (base db)) cf));
}.

Lemma up_to_bad_cut db cf l : cut l (up_to_bad db cf l).
Proof.
  induction l as [|kv l IHl]; [by left|]. cbn. destruct (readable db cf kv.1).
  - destruct IHl as [->|(l1 & l2 & e & rest & -> & ->)]; [by left|].
    right. by exists (kv :: l1), l2, e, rest.
  - right. by exists [], (kv :: l), (), [].
Qed.

Lemma up_to_bad_good db cf l : unreadable db = [] → up_to_bad db cf l = Ok <$> l.
Proof.
  intros Hu. induction l as [|kv l IHl]; [done|]. cbn. unfold readable. rewrite Hu. cbn. by rewrite IHl.
Qed.

#[export] Program Instance flaky_rocks_ok : @RocksOk flaky_rocks := {
  contents db := mem_map (base db);
  healthy db := script db = [] ∧ unreadable db = [];
}.
Next Obligation. intros path cfs db cf [= <-] Hcf. by apply bool_decide_eq_true. Qed.
Next Obligation. by intros db cfs db' [= <-]. Qed.
Next Obligation. intros db cf k [_ Hu] _. cbn. unfold readable. by rewrite Hu. Qed.
Next Obligation. intros db cf k v [Hs Hu] _. cbn. unfold scripted. rewrite Hs. by eexists. Qed.
Next Obligation. intros db cf k [Hs Hu] _. cbn. unfold scripted. rewrite Hs. by eexists. Qed.
Next Obligation. intros db cf mode [_ Hu] _. by apply up_to_bad_good. Qed.
Next Obligation.
  intros db cf p [_ Hu] _. exists []. rewrite app_nil_r. split; [|constructor]. by apply up_to_bad_good.
Qed.

Lemma scripted_fault upd db :
  (∀ cf, bool_decide (cf ∈ mem_cfs (base (scripted upd db).1)) = bool_decide (cf ∈ mem_cfs (base db))) ∧
  (mem_map (base (scripted upd db).1) = upd (mem_map (base db)) ∨
   is_ok (scripted upd db).2 = false ∧ mem_map (base (scripted upd db).1) = mem_map (base db)).
Proof.
  unfold scripted. destruct (script db) as [|[[]|] rest]; (split; [done|]); [by left|by left|by right|by left].
Qed.

#[export] Program Instance flaky_faults : @RocksFaults flaky_rocks flaky_rocks_ok := {}.
Next Obligation. intros db cf k x. cbn. destruct (readable db cf k); [by intros [= <-]|done]. Qed.
Next Obligation. intros db cf k v. exact (scripted_fault _ db). Qed.
Next Obligation. intros db cf k. exact (scripted_fault _ db). Qed.
Next Obligation. intros db cf mode. apply up_to_bad_cut. Qed.
Next Obligation.
  intros db cf p. exists []. split; [constructor|]. rewrite app_nil_r. apply up_to_bad_cut.
Qed.
Next Obligation. intros db. by exists (mkFlaky (base db) [] []). Qed.

#[local] Existing Instances mem_contact mem_contact_ok mem_outbox mem_outbox_ok mem_message
  mem_message_ok mem_conversation mem_conversation_ok mem_dm_payload mem_dm_payload_ok
  mem_receipt mem_receipt_ok mem_inbox mem_inbox_ok mem_manifest mem_manifest_ok mem_gmessage
  mem_gmessage_ok.

(** The third write fails: the message of [send_text] is stored and never queued. *)
Definition third_fails : @DB flaky_rocks := mkFlaky (MemDb ALL_CFS ∅) [None; None; None; Some false] [].

Lemma faults_contained_witness :
  is_ok <$> (Prelude.history (run_sdk alice_sdk) sdk_sample_ops third_fails).2 =
    [true; true; false; true; true; false; false] ∧
  let (db', rs) := Prelude.history (run_sdk alice_sdk) sdk_sample_ops third_fails in
  ∃ S', fault_run alice_sdk sdk_empty sdk_sample_ops rs S' ∧ opened db' ∧
    sdk_repr (contents db') S' ∧ sdk_wf S'.
Proof.
  split; [vm_compute; reflexivity|].
  apply (faults_contained alice_sdk sdk_sample_ops third_fails sdk_empty).
  - intros cf Hcf. by apply bool_decide_eq_true.
  - apply sdk_empty_repr.
  - apply sdk_empty_wf.
Defined.
End Flaky.
