(* ===== verification/EndToEnd.v ===== *)
(** * A message and its receipt, from one machine to another

    The components put together the way the program is meant to run: the sender's [send_text]
    and outbox, the broker, the receiver's loop with its dedupe cache, and the receipts that
    come back. Two parts of this path are not in the program and are arguments here: what
    publishes the outbox's payloads, and what hands a receipt to [process_receipt]. *)

From Stdlib Require Import ZArith Lia Strings.Byte.
From stdpp Require Import base tactics gmap strings sorting numbers countable list.
From S2P Require Import Prelude Bytes Store Mem Aad Db Dedupe Outbox.
From S2P Require Import Contacts Net Dm DmReceive Broadcast Broker.
#[local] Open Scope nat_scope.

(** A text to send, with the clock reading and the two UUIDs [send_text] draws. *)
Record outgoing : Type := mkOutgoing {
  og_text : rstr;
  og_now : u64;
  og_message : arr 16;
  og_sector : arr 16;
}.

#[export] Instance outgoing_eq_dec : EqDecision outgoing.
Proof. solve_decision. Defined.

Section trip.
Context `{R : RocksDB} `{P : PostcardLib} `{B : Blake3}.
Context `{!Postcard OutboxEntry, !Postcard Contact, !Postcard Conversation, !Postcard Message,
          !Postcard DmSectorPayload, !Postcard ReceiptPayload}.

Definition send_one (svc : DmService) (cid : ConversationId) (q : outgoing) : io DB DmError MessageId :=
  send_text svc cid (og_text q) (og_now q) (og_message q) (og_sector q).

(** The handling of a receipt's payload, read at a given time. *)
Definition apply_receipt (x : bytes * u64) : io DB DmError () :=
  r ← lift (decode_receipt x.1); process_receipt r x.2.

Definition og_id (q : outgoing) : MessageId := mkMessageId (og_message q).

Definition og_payload (svc : DmService) (cid : ConversationId) (q : outgoing) : DmSectorPayload :=
  mkDmSectorPayload (og_id q) cid (ds_identity svc) (ds_machine_id svc) (og_text q) (og_now q).

(** The sender's copy with a status, and the receiver's. *)
Definition og_copy (svc : DmService) (cid : ConversationId) (q : outgoing) (s : MessageStatus) (t : u64)
    : Message :=
  mkMessage (og_id q) cid (ds_identity svc) (ds_machine_id svc) (og_text q) s (og_now q) t.
End trip.

Section trip_laws.
Context `{ROk : RocksOk} `{P : PostcardLib} `{B : Blake3} `{LOk : LruOk}.
Context `{!Postcard Contact, !PostcardOk Contact, !Postcard OutboxEntry, !PostcardOk OutboxEntry,
          !Postcard Conversation, !PostcardOk Conversation, !Postcard Message,
          !PostcardOk Message, !Postcard DmSectorPayload, !PostcardOk DmSectorPayload,
          !Postcard ReceiptPayload, !PostcardOk ReceiptPayload}.
Implicit Types (db : DB) (D : dm_state) (q : outgoing) (qs : list outgoing).

Variable svc : DmService.
Variable cid : ConversationId.

(** ** The sender *)

Definition og_entry q : OutboxEntry :=
  mkOutboxEntry (mkSectorId (og_sector q)) (enc (og_payload svc cid q)) (umk 8 0) (og_now q) (og_now q).

(** There is room for [qs]: a known conversation, free ids and capacity. *)
Definition room qs D : Prop :=
  is_Some (d_convs D !! cid) ∧ NoDup (og_message <$> qs) ∧ NoDup (og_sector <$> qs) ∧
  (∀ q, q ∈ qs → d_outbox D !! mkSectorId (og_sector q) = None) ∧
  size (d_outbox D) + length qs ≤ DEFAULT_OUTBOX_CAPACITY.

Lemma send_one_spec q qs D :
  room (q :: qs) D →
  ∃ D', spec_send svc cid (og_text q) (og_now q) (og_message q) (og_sector q) D = (D', Ok (og_id q)) ∧
    room qs D' ∧ d_msgs D' = <[(cid, og_id q) := og_copy svc cid q Queued (og_now q)]> (d_msgs D) ∧
    d_outbox D' = <[mkSectorId (og_sector q) := og_entry q]> (d_outbox D).
Proof using.
  intros ([v Hv] & Hm & Hs & Hf & Hc). apply NoDup_cons in Hm as [_ Hm], Hs as [Hnin Hs].
  cbn [length] in Hc. pose proof (Hf q (list_elem_of_here _ _)) as Hq.
  unfold spec_send, spec_enqueue. rewrite Hv. cbn [oe_sector_id]. rewrite Hq.
  destruct (Nat.leb_spec DEFAULT_OUTBOX_CAPACITY (size (d_outbox D))); [lia|].
  eexists. split; [reflexivity|]. split_and!; [|done|done].
  unfold room. cbn [set_convs set_outbox set_msgs d_convs d_outbox]. split_and!; [|done|done| |].
  - rewrite lookup_insert_eq. by eexists.
  - intros q' Hq'. rewrite lookup_insert_ne; [apply Hf; by apply list_elem_of_further|].
    intros [= Heq]. apply Hnin. rewrite Heq. by apply list_elem_of_fmap_2.
  - rewrite map_size_insert_None by done. lia.
Qed.

(** After all are sent: every message is there as Queued, and every payload in the outbox. *)
Lemma send_all_run qs db D :
  good db → dm_repr (contents db) D → dm_wf D → room qs D →
  ∃ db' D', Prelude.history (send_one svc cid) qs db = (db', (λ q, Ok (og_id q)) <$> qs) ∧
    good db' ∧ dm_repr (contents db') D' ∧ dm_wf D' ∧
    (∀ q, q ∈ qs → d_msgs D' !! (cid, og_id q) = Some (og_copy svc cid q Queued (og_now q)) ∧
       d_outbox D' !! mkSectorId (og_sector q) = Some (og_entry q)) ∧
    (∀ k, k ∉ (λ q, (cid, og_id q)) <$> qs → d_msgs D' !! k = d_msgs D !! k) ∧
    (∀ k, k ∉ (λ q, mkSectorId (og_sector q)) <$> qs → d_outbox D' !! k = d_outbox D !! k).
Proof using PostcardOk1 PostcardOk2 PostcardOk3 PostcardOk4.
  revert db D. induction qs as [|q qs IHqs]; intros db D Hg HD Hw Hroom.
  { exists db, D. split_and!; try done. by intros q ?%elem_of_nil. }
  pose proof Hroom as (_ & [Hnm Hndm]%NoDup_cons & [Hns Hnds]%NoDup_cons & _).
  destruct (send_one_spec q qs D Hroom) as (D1 & Hspec & Hroom1 & HM1 & HO1).
  destruct (send_text_run svc db D cid (og_text q) (og_now q) (og_message q) (og_sector q) Hg HD Hw)
    as (st & (db1 & Hrun & Hg1 & <-) & HD1).
  pose proof (dm_wf_send svc cid (og_text q) (og_now q) (og_message q) (og_sector q) D Hw) as Hw1.
  rewrite Hspec in Hrun, HD1, Hw1. cbn [fst snd] in *.
  destruct (IHqs db1 D1 Hg1 HD1 Hw1 Hroom1) as (db' & D' & Hh & Hg' & HD' & Hw' & Hin & HM & HO).
  exists db', D'. cbn [Prelude.history]. unfold send_one at 1. rewrite Hrun, Hh.
  split_and!; [done|done|done|done| | |].
  - intros q' [->|Hq']%elem_of_cons; [|by apply Hin]. split.
    + rewrite HM, HM1, lookup_insert_eq; [done|]. intros (q' & [= Heq] & Hq')%list_elem_of_fmap.
      apply Hnm. rewrite Heq. by apply list_elem_of_fmap_2.
    + rewrite HO, HO1, lookup_insert_eq; [done|]. intros (q' & [= Heq] & Hq')%list_elem_of_fmap.
      apply Hns. rewrite Heq. by apply list_elem_of_fmap_2.
  - intros k Hk. rewrite fmap_cons, not_elem_of_cons in Hk. destruct Hk as [Hk1 Hk2].
    rewrite HM, HM1, lookup_insert_ne by congruence. done.
  - intros k Hk. rewrite fmap_cons, not_elem_of_cons in Hk. destruct Hk as [Hk1 Hk2].
    rewrite HO, HO1, lookup_insert_ne by congruence. done.
Qed.

(** ** The receiver *)

Variable rcv : DmReceiver.

Definition og_receipt q (rd : readings) : ReceiptPayload :=
  delivered_receipt rcv (og_payload svc cid q) rd.

Lemma spec_process_payload q rd D :
  d_outbox D !! mkSectorId (rd_sector rd) = None → size (d_outbox D) < DEFAULT_OUTBOX_CAPACITY →
  let D' := (spec_process rcv (enc (og_payload svc cid q)) rd D).1 in
  d_msgs D' = <[(cid, og_id q) := inbound_message (og_payload svc cid q) (rd_now rd)]> (d_msgs D) ∧
  d_outbox D' = <[mkSectorId (rd_sector rd) :=
    receipt_entry (og_receipt q rd) (rd_sector rd) (rd_enqueue rd)]> (d_outbox D).
Proof using PostcardOk4.
  intros Hf Hc. cbv zeta. unfold spec_process. rewrite from_bytes_enc.
  set (D1 := (spec_open _ _ D).1).
  assert (d_msgs D1 = d_msgs D ∧ d_outbox D1 = d_outbox D) as [HM HO]
    by (unfold D1, spec_open; by repeat case_match).
  unfold spec_enqueue_receipt, spec_enqueue. cbn [oe_sector_id receipt_entry set_msgs d_outbox].
  rewrite HO, Hf. destruct (Nat.leb_spec (capacity Outbox_new) (size (d_outbox D))) as [Hle|].
  { change (capacity Outbox_new) with DEFAULT_OUTBOX_CAPACITY in Hle. lia. }
  cbn [fst set_outbox d_msgs d_outbox set_msgs]. by rewrite HM.
Qed.

Lemma og_key_inj qs q q' :
  NoDup (og_message <$> qs) → q ∈ qs → q' ∈ qs → og_id q = og_id q' → q = q'.
Proof using.
  intros Hn Hq Hq' [= Heq]. apply list_elem_of_lookup in Hq as [i Hi], Hq' as [i' Hi'].
  assert (i = i') as ->; [|congruence].
  eapply NoDup_lookup; [exact Hn| |]; rewrite list_lookup_fmap; [by rewrite Hi|].
  rewrite Hi'. cbn. by rewrite Heq.
Qed.

(** The arrivals [l] are payloads of [qs], all different, with fresh ids for their receipts. *)
Definition acceptable qs (l : list (bytes * readings)) D : Prop :=
  (∀ a, a ∈ l → ∃ q, q ∈ qs ∧ a.1 = enc (og_payload svc cid q)) ∧ NoDup l.*1 ∧
  NoDup ((λ a, rd_sector a.2) <$> l) ∧
  (∀ a, a ∈ l → d_outbox D !! mkSectorId (rd_sector a.2) = None) ∧
  size (d_outbox D) + length l ≤ DEFAULT_OUTBOX_CAPACITY.

Definition accepted_in D q (rd : readings) : Prop :=
  d_msgs D !! (cid, og_id q) = Some (inbound_message (og_payload svc cid q) (rd_now rd)) ∧
  d_outbox D !! mkSectorId (rd_sector rd) =
    Some (receipt_entry (og_receipt q rd) (rd_sector rd) (rd_enqueue rd)).

Lemma receive_all_spec qs l D :
  NoDup (og_message <$> qs) → acceptable qs l D →
  let D' := spec_receive_all rcv l D in
  (∀ q rd, q ∈ qs → (enc (og_payload svc cid q), rd) ∈ l → accepted_in D' q rd) ∧
  (∀ q, q ∈ qs → enc (og_payload svc cid q) ∉ l.*1 → d_msgs D' !! (cid, og_id q) = d_msgs D !! (cid, og_id q)) ∧
  (∀ s, s ∉ (λ a, rd_sector a.2) <$> l → d_outbox D' !! mkSectorId s = d_outbox D !! mkSectorId s) ∧
  size (d_outbox D') = size (d_outbox D) + length l.
Proof using PostcardOk4.
  intros Hn. cbv zeta. revert D. induction l as [|[b rd] l IHl]; intros D (Hq & Hb & Hs & Hf & Hc).
  { cbn. split_and!; try done. by intros q rd _ ?%elem_of_nil. }
  apply NoDup_cons in Hb as [Hnb Hb], Hs as [Hns Hs]. cbn [fst snd length] in *.
  destruct (Hq _ (list_elem_of_here _ _)) as (q0 & Hq0 & Hb0). cbn [fst] in Hb0. subst b.
  pose proof (Hf _ (list_elem_of_here _ _)) as Hf0. cbn [fst snd] in Hf0.
  destruct (spec_process_payload q0 rd D Hf0 ltac:(lia)) as [HM1 HO1].
  unfold spec_receive_all. cbn [foldl fst snd]. set (D1 := (spec_process _ _ _ D).1) in *.
  destruct (IHl D1) as (Hin & Hout & HoutO & Hsize).
  { split_and!; [|done|done| |].
    - intros a Ha. apply Hq. by apply list_elem_of_further.
    - intros a Ha. rewrite HO1, lookup_insert_ne; [apply Hf; by apply list_elem_of_further|].
      intros [= Heq]. apply Hns. rewrite Heq. by apply (list_elem_of_fmap_2 (λ a, rd_sector a.2)).
    - rewrite HO1, map_size_insert_None by done. lia. }
  split_and!.
  - intros q rd' Hq' [[= He <-]|Hl]%elem_of_cons; [|by apply Hin].
    apply (inj enc) in He. assert (q = q0) as -> by exact (og_key_inj qs q q0 Hn Hq' Hq0 (f_equal dsp_message_id He)).
    split.
    + rewrite Hout, HM1, lookup_insert_eq by done. done.
    + rewrite HoutO, HO1, lookup_insert_eq by done. done.
  - intros q Hq' [Hne Hnl]%not_elem_of_cons. rewrite Hout, HM1 by done. apply lookup_insert_ne.
    intros [= Heq]. apply Hne. by rewrite (og_key_inj qs q q0 Hn Hq' Hq0) by (by unfold og_id; f_equal).
  - intros s0 Hs0. rewrite fmap_cons, not_elem_of_cons in Hs0. destruct Hs0 as [Hne Hnl]. cbn [snd] in Hne.
    rewrite HoutO, HO1, lookup_insert_ne by congruence. done.
  - change (foldl _ D1 l) with (spec_receive_all rcv l D1).
    rewrite Hsize, HO1, map_size_insert_None by done. cbn [length]. lia.
Qed.

(** What the loop's dedupe leaves of the arrivals. *)
Lemma firsts_sublist old (l : list (bytes * readings)) : firsts old l `sublist_of` l.
Proof using.
  revert old. induction l as [|[b rd] l IHl]; intros old; [done|]. cbn [firsts].
  destruct (decide _); [by apply sublist_cons|by apply sublist_skip].
Qed.

Lemma firsts_ids old (l : list (bytes * readings)) :
  NoDup ((λ a, inbound_sector_id a.1) <$> firsts old l) ∧
  (∀ a, a ∈ firsts old l → inbound_sector_id a.1 ∉ old) ∧
  (∀ a, a ∈ l → inbound_sector_id a.1 ∉ old →
     ∃ a', a' ∈ firsts old l ∧ inbound_sector_id a'.1 = inbound_sector_id a.1).
Proof using.
  revert old. induction l as [|[b rd] l IHl]; intros old; cbn [firsts].
  { split_and!; [constructor| |]; by intros a ?%elem_of_nil. }
  destruct (decide (inbound_sector_id b ∈ old)) as [Hin|Hnin].
  - destruct (IHl old) as (H1 & H2 & H3). split_and!; [done|done|].
    intros a [->|Ha]%elem_of_cons Hold; [done|by apply H3].
  - destruct (IHl (inbound_sector_id b :: old)) as (H1 & H2 & H3). split_and!.
    + rewrite fmap_cons. apply NoDup_cons. split; [|done]. intros (a & Heq & Ha)%list_elem_of_fmap.
      apply (H2 a Ha). rewrite <-Heq. apply list_elem_of_here.
    + intros a [->|Ha]%elem_of_cons; [done|]. intros Hold. apply (H2 a Ha). by apply list_elem_of_further.
    + intros a [->|Ha]%elem_of_cons Hold; [eexists; split; [apply list_elem_of_here|done]|].
      destruct (decide (inbound_sector_id a.1 = inbound_sector_id b)) as [->|Hne].
      * eexists. split; [apply list_elem_of_here|done].
      * destruct (H3 a Ha) as (a' & Ha' & ?); [by apply not_elem_of_cons|].
        exists a'. split; [by apply list_elem_of_further|done].
Qed.

(** ** The receipts at the sender *)

Definition tracked D q (st : MessageStatus) : Prop :=
  ∃ t, d_msgs D !! (cid, og_id q) = Some (og_copy svc cid q st t).

Definition receipted qs D D' : Prop := ∀ q, q ∈ qs →
  (tracked D' q Queued ∨ tracked D' q Delivered) ∧ (tracked D q Delivered → tracked D' q Delivered).

Lemma apply_receipt_run qs q0 rd now db D :
  NoDup (og_message <$> qs) → q0 ∈ qs → good db → dm_repr (contents db) D → dm_wf D →
  (∀ q, q ∈ qs → tracked D q Queued ∨ tracked D q Delivered) →
  ∃ r db' D', apply_receipt (enc (og_receipt q0 rd), now) db = (db', r) ∧ good db' ∧
    dm_repr (contents db') D' ∧ dm_wf D' ∧ receipted qs D D' ∧ tracked D' q0 Delivered.
Proof using PostcardOk3 PostcardOk5.
  intros Hn Hq0 Hg HD Hw Ht.
  destruct (update_status_dm db D cid (og_id q0) Delivered now Hg HD Hw) as (st & (db' & Hrun & Hg' & <-) & HD').
  pose proof (dm_wf_update cid (og_id q0) Delivered now D Hw) as Hw'.
  set (x := spec_update_status cid (og_id q0) Delivered now (d_msgs D)) in *.
  exists x.2, db', (set_msgs x.1 D).
  split; [|split; [exact Hg'|split; [exact HD'|split; [exact Hw'|]]]].
  { unfold apply_receipt, decode_receipt. cbn [fst snd]. rewrite from_bytes_enc. exact Hrun. }
  clear Hrun HD' Hw'. unfold x, spec_update_status, receipted, tracked. cbn [d_msgs set_msgs].
  assert (∀ q t, q ∈ qs → q ≠ q0 → <[(cid, og_id q0) := og_copy svc cid q0 Delivered t]> (d_msgs D) !! (cid, og_id q) =
    d_msgs D !! (cid, og_id q)) as Hne.
  { intros q t Hq Hne. apply lookup_insert_ne. intros [= Heq]. apply Hne. symmetry.
    apply (og_key_inj qs); [done|done|done|]. unfold og_id. by rewrite Heq. }
  destruct (Ht q0 Hq0) as [[t Hk]|[t Hk]]; rewrite Hk; cbn [og_copy msg_status status_rank Nat.ltb Nat.leb fst].
  - change (with_status Delivered now _) with (og_copy svc cid q0 Delivered now).
    split; [|exists now; by rewrite lookup_insert_eq]. intros q Hq. destruct (decide (q = q0)) as [->|Hd].
    + rewrite lookup_insert_eq. eauto.
    + rewrite Hne by done. split; [by apply Ht|done].
  - split; [|by exists t]. intros q Hq. split; [by apply Ht|done].
Qed.

Lemma receipts_run qs back db D :
  NoDup (og_message <$> qs) → good db → dm_repr (contents db) D → dm_wf D →
  (∀ q, q ∈ qs → tracked D q Queued ∨ tracked D q Delivered) →
  (∀ x, x ∈ back → ∃ q rd, q ∈ qs ∧ x.1 = enc (og_receipt q rd)) →
  ∃ db' rs D', Prelude.history apply_receipt back db = (db', rs) ∧ good db' ∧
    dm_repr (contents db') D' ∧ dm_wf D' ∧ receipted qs D D' ∧
    ∀ q rd now, q ∈ qs → (enc (og_receipt q rd), now) ∈ back → tracked D' q Delivered.
Proof using PostcardOk3 PostcardOk5.
  intros Hn. revert db D. induction back as [|[b now] back IHback]; intros db D Hg HD Hw Ht Hback.
  { exists db, [], D. split_and!; try done; [by intros q Hq; split; [apply Ht|]|].
    by intros q rd now _ ?%elem_of_nil. }
  destruct (Hback _ (list_elem_of_here _ _)) as (q0 & rd & Hq0 & Hb). cbn [fst] in Hb. subst b.
  destruct (apply_receipt_run qs q0 rd now db D Hn Hq0 Hg HD Hw Ht)
    as (r & db1 & D1 & Hrun & Hg1 & HD1 & Hw1 & Hrec1 & Htr1).
  destruct (IHback db1 D1 Hg1 HD1 Hw1) as (db' & rs & D' & Hh & Hg' & HD' & Hw' & Hrec & Htr).
  { intros q Hq. apply Hrec1, Hq. }
  { intros x Hx. apply Hback. by apply list_elem_of_further. }
  exists db', (r :: rs), D'. cbn [Prelude.history]. rewrite Hrun, Hh. split_and!; [done|done|done|done| |].
  - intros q Hq. destruct (Hrec1 q Hq) as [_ H1], (Hrec q Hq) as [H2 H3]. auto.
  - intros q rd' now' Hq [[= He _]|Hx]%elem_of_cons; [|by eapply Htr].
    apply (inj enc), (f_equal rp_message_id) in He. cbn in He.
    rewrite (og_key_inj qs q q0 Hn Hq Hq0 He). by apply Hrec.
Qed.

(** ** The network in between *)

Definition og_bytes q : bytes := enc (og_payload svc cid q).

(** What arrives, [d], is the payloads of [qs], each at least once, and the receiver has room
    for their receipts. *)
Definition ready qs (d : list bytes) (rds : list readings) D : Prop :=
  (∀ b, b ∈ d ↔ b ∈ og_bytes <$> qs) ∧ NoDup (inbound_sector_id ∘ og_bytes <$> qs) ∧
  length rds = length d ∧ NoDup (rd_sector <$> rds) ∧
  (∀ rd, rd ∈ rds → d_outbox D !! mkSectorId (rd_sector rd) = None) ∧
  size (d_outbox D) + length qs ≤ DEFAULT_OUTBOX_CAPACITY.

Lemma received_zip (d : list bytes) (rds : list readings) :
  length rds = length d → received (zip (Ok <$> d) rds) = zip d rds.
Proof using.
  revert rds. induction d as [|b d IHd]; intros [|rd rds] Hl; try done. cbn. by rewrite IHd by (cbn in Hl; lia).
Qed.

Lemma firsts_acceptable qs d rds D :
  ready qs d rds D →
  acceptable qs (firsts [] (zip d rds)) D ∧ length (firsts [] (zip d rds)) = length qs ∧
  ∀ q, q ∈ qs → ∃ rd, rd ∈ rds ∧ (og_bytes q, rd) ∈ firsts [] (zip d rds).
Proof using.
  intros (Hd & Hid & Hlen & Hrd & Hf & Hc). set (l := firsts [] (zip d rds)).
  destruct (firsts_ids [] (zip d rds)) as (Hn & _ & Hcov). fold l in Hn, Hcov.
  assert (∀ a, a ∈ l → a.1 ∈ d ∧ a.2 ∈ rds) as Hin.
  { intros [b rd] Ha. eapply elem_of_sublist in Ha; [|apply firsts_sublist].
    split; [by eapply elem_of_zip_l|by eapply elem_of_zip_r]. }
  assert (∀ q, q ∈ qs → ∃ rd, rd ∈ rds ∧ (og_bytes q, rd) ∈ l) as Hex.
  { intros q Hq. assert (og_bytes q ∈ d) as Hb by (apply Hd; by apply list_elem_of_fmap_2).
    rewrite <-(fst_zip d rds) in Hb by lia. apply list_elem_of_fmap in Hb as ([b rd] & Heq & Ha).
    cbn [fst] in Heq. subst b. destruct (Hcov _ Ha) as ([b' rd'] & Ha' & Hi); [by intros ?%elem_of_nil|].
    destruct (Hin _ Ha') as [Hb' Hr']. cbn [fst snd] in *. exists rd'. split; [done|].
    apply Hd, list_elem_of_fmap in Hb' as (q' & -> & Hq').
    apply list_elem_of_lookup in Hq as [i Hi1], Hq' as [i' Hi2]. assert (i = i') as ->; [|congruence].
    eapply NoDup_lookup; [exact Hid| |]; rewrite list_lookup_fmap; [by rewrite Hi1|].
    rewrite Hi2. cbn. by rewrite Hi. }
  assert (length l = length qs) as Hll.
  { rewrite <-(length_fmap (λ a, inbound_sector_id a.1) l), <-(length_fmap (inbound_sector_id ∘ og_bytes) qs).
    apply Permutation_length, NoDup_Permutation; [done|done|]. intros x. rewrite !list_elem_of_fmap. split.
    - intros (a & -> & Ha). destruct (Hin a Ha) as [Hb _]. apply Hd, list_elem_of_fmap in Hb as (q & Hq & ?).
      exists q. cbn. by rewrite Hq.
    - intros (q & -> & Hq). destruct (Hex q Hq) as (rd & _ & Ha). by exists (og_bytes q, rd). }
  split_and!; [|done|done]. split_and!.
  - intros a Ha. destruct (Hin a Ha) as [Hb _]. apply Hd, list_elem_of_fmap in Hb as (q & ? & ?). by exists q.
  - apply (NoDup_fmap_1 inbound_sector_id). by rewrite <-list_fmap_compose.
  - eapply sublist_NoDup; [|apply fmap_sublist, firsts_sublist].
    change (λ a : bytes * readings, rd_sector a.2) with (rd_sector ∘ @snd bytes readings).
    by rewrite list_fmap_compose, snd_zip by lia.
  - intros a Ha. apply Hf, Hin, Ha.
  - by rewrite Hll.
Qed.

Context `{BC : Broadcast} `{BOk : !BroadcastOk}.

(** The stream of [n] items of a subscription, with the readings their processing takes. *)
Definition polled (n : nat) (rds : list readings) (net : BrokerState) (rx : Receiver) : list arrival :=
  zip (omap id (poll_n n rx (hub_heap (br_hub net)))) rds.

Lemma polled_items n rds net rx (d : list bytes) :
  poll_n n rx (hub_heap (br_hub net)) = (λ b, Some (Ok b)) <$> d → polled n rds net rx = zip (Ok <$> d) rds.
Proof using.
  unfold polled. intros ->. f_equal. induction d as [|b d IHd]; [done|]. cbn in *. by rewrite IHd.
Qed.

(** C2: messages arrive, and the sender learns of it. A sender with a known conversation and
    room in its outbox sends any texts; a receiver subscribes to its topic on the broker; the
    sender's payloads are published there by tasks that interleave in any way, under faults
    that may duplicate and delay, so that what is heard on the topic is each payload at least
    once, up to what a channel retains; the receiver runs its loop over what it polls. Then
    every send has succeeded; the receiver has stored every message once, as Delivered, and
    queued exactly one receipt for each; and when those receipts are processed at the sender,
    in any order and any number of times, all its messages are Delivered. The hash that names
    arrivals is assumed not to collide on these payloads, and nobody else polls the receiver's
    subscription. *)
Theorem message_round_trip qs (dba dbb : DB) (Da Db : dm_state) heap before ops cap c rds :
  let t := inbound_topic (rc_identity rcv) in
  let w := run_net (net_new heap) before in
  let d := deliveries t before ops in
  good dba → dm_repr (contents dba) Da → dm_wf Da → room qs Da →
  good dbb → dm_repr (contents dbb) Db → ready qs d rds Db → length d ≤ BROKER_CAPACITY →
  DedupeCache_new cap = Some c → length qs ≤ cap →
  (∀ st rx, broker_subscribe t (nt_broker w) = (st, Ok rx) → BPoll rx ∉ ops) →
  ∃ dba1, Prelude.history (send_one svc cid) qs dba = (dba1, (λ q, Ok (og_id q)) <$> qs) ∧
  ∃ st1 c1 dbb1 Db1,
    start_receive_loop (G := MockGridClient) rcv
      (polled (length d) rds (nt_broker (run_net (with_broker st1 w) ops))) (nt_broker w) c dbb =
      (st1, (c1, dbb1)) ∧
    dm_repr (contents dbb1) Db1 ∧
    (∀ q, q ∈ qs → ∃ rd, rd ∈ rds ∧ accepted_in Db1 q rd) ∧
    size (d_outbox Db1) = size (d_outbox Db) + length qs ∧
    ∀ back,
      (∀ q, q ∈ qs → ∃ rd now, accepted_in Db1 q rd ∧ (enc (og_receipt q rd), now) ∈ back) →
      (∀ x, x ∈ back → ∃ q rd, q ∈ qs ∧ x.1 = enc (og_receipt q rd)) →
      ∃ dba2 rs Da2, Prelude.history apply_receipt back dba1 = (dba2, rs) ∧
        dm_repr (contents dba2) Da2 ∧ ∀ q, q ∈ qs → tracked Da2 q Delivered.
Proof using All.
  cbv zeta. set (t := inbound_topic _). set (w := run_net _ before). set (d := deliveries _ _ _).
  intros Hga HDa Hwa Hroom Hgb HDb Hready Hcap Hc Hqs Hown.
  destruct (send_all_run qs dba Da Hga HDa Hwa Hroom)
    as (dba1 & Da1 & Hsend & Hga1 & HDa1 & Hwa1 & Hin & _ & _).
  exists dba1. split; [exact Hsend|].
  destruct (subscriber_polls heap before t ops) as (st1 & r & Hsub & Hpoll).
  fold w in Hsub, Hpoll. fold d in Hpoll.
  specialize (Hpoll (Hown _ _ Hsub) Hcap). destruct (firsts_acceptable qs d rds Db Hready) as (Hacc & Hlen & Hex).
  destruct (mark_all cap c [] Hc) as [Hr Hk]. cbn [foldl] in Hr, Hk.
  pose proof (receive_loop_run rcv (zip (Ok <$> d) rds) [] c dbb Db) as Hloop.
  rewrite received_zip in Hloop by apply Hready. rewrite Hlen in Hloop.
  destruct (receive_loop rcv (zip (Ok <$> d) rds) c dbb) as [c1 dbb1] eqn:Hrun.
  destruct Hloop as (Hgb1 & HDb1 & _); [by rewrite Hr; destruct cap|cbn [length]; lia|done|done|].
  set (Db1 := spec_receive_all rcv _ Db) in HDb1. exists st1, c1, dbb1, Db1.
  destruct Hroom as (_ & Hn & _). destruct (receive_all_spec qs _ Db Hn Hacc) as (Hstored & _ & _ & Hsize).
  split_and!; [|done| | |].
  - unfold start_receive_loop. cbn [subscribe MockGridClient]. fold t. rewrite Hsub.
    by rewrite (polled_items _ _ _ _ d Hpoll), Hrun.
  - intros q Hq. destruct (Hex q Hq) as (rd & Hrd & Ha). exists rd. split; [done|]. by apply Hstored.
  - by rewrite <-Hlen.
  - intros back Hall Honly. destruct (receipts_run qs back dba1 Da1 Hn Hga1 HDa1 Hwa1)
      as (dba2 & rs & Da2 & Hback & _ & HDa2 & _ & _ & Htr); [|done|].
    { intros q Hq. left. exists (og_now q). by apply Hin. }
    exists dba2, rs, Da2. split_and!; [done|done|]. intros q Hq.
    destruct (Hall q Hq) as (rd & now & _ & Hx). by eapply Htr.
Qed.
End trip_laws.

(** ** Witness *)

#[local] Existing Instances mem_contact mem_contact_ok mem_outbox mem_outbox_ok mem_message
  mem_message_ok mem_conversation mem_conversation_ok mem_dm_payload mem_dm_payload_ok
  mem_receipt mem_receipt_ok.

Definition hi : outgoing := mkOutgoing (rstr_of "hi") (umk 64 9) (arr_fill 16 Byte.x21) (arr_fill 16 Byte.x31).
Definition bye : outgoing := mkOutgoing (rstr_of "bye") (umk 64 10) (arr_fill 16 Byte.x22) (arr_fill 16 Byte.x32).
Definition peer_rcv : DmReceiver := mkDmReceiver sample_svc (ident Byte.x02) (machine Byte.x02).
Definition the_topic : rstr := inbound_topic (ident Byte.x02).
Definition trip_bytes (q : outgoing) : bytes := og_bytes sample_svc (conv_id Byte.x07) q.

(** The first payload is delayed, overtaken by the second, and arrives twice. *)
Definition trip_before : list (@broker_op mem_broadcast) :=
  [BFault the_topic Duplicate; BFault the_topic (Delay (umk 64 50))].
Definition trip_ops : list (@broker_op mem_broadcast) :=
  [BPublish the_topic (trip_bytes bye); BClear; BPublish topic_a [Byte.x00];
   BPublish the_topic (trip_bytes hi); BSend 1; BSend 0; BSend 2; BTick (umk 64 50);
   BSend 0; BSend 0].

Definition trip_readings : list readings := [rd Byte.x41; rd Byte.x42; rd Byte.x43].

Lemma trip_deliveries :
  deliveries the_topic trip_before trip_ops = [trip_bytes hi; trip_bytes bye; trip_bytes bye].
Proof. vm_compute. reflexivity. Qed.

Lemma trip_room : room (conv_id Byte.x07) [hi; bye] sample_state.
Proof.
  split_and!.
  - by eexists.
  - apply (bool_decide_unpack _). by vm_compute.
  - apply (bool_decide_unpack _). by vm_compute.
  - intros q _. done.
  - apply Nat.leb_le. by vm_compute.
Qed.

Lemma trip_ready :
  ready sample_svc (conv_id Byte.x07) [hi; bye] [trip_bytes hi; trip_bytes bye; trip_bytes bye]
    trip_readings sample_state.
Proof.
  split_and!.
  - intros b. change (og_bytes _ _ <$> _) with [trip_bytes hi; trip_bytes bye].
    rewrite !elem_of_cons, !elem_of_nil. tauto.
  - apply (bool_decide_unpack _). by vm_compute.
  - done.
  - apply (bool_decide_unpack _). by vm_compute.
  - done.
  - apply Nat.leb_le. by vm_compute.
Qed.

Lemma message_round_trip_witness :
  ∃ dba1, Prelude.history (send_one sample_svc (conv_id Byte.x07)) [hi; bye] dm_db =
      (dba1, [Ok (og_id hi); Ok (og_id bye)]) ∧
  ∃ st1 c1 dbb1 Db1,
    let w := run_net (net_new sample_heap) trip_before in
    start_receive_loop (G := MockGridClient) peer_rcv
      (polled 3 trip_readings (nt_broker (run_net (with_broker st1 w) trip_ops))) (nt_broker w)
      (mkDedupeCache (lru_new 2)) dm_db = (st1, (c1, dbb1)) ∧
    dm_repr (contents dbb1) Db1 ∧ size (d_outbox Db1) = 2.
Proof.
  pose proof (message_round_trip sample_svc (conv_id Byte.x07) peer_rcv [hi; bye] dm_db dm_db
    sample_state sample_state sample_heap trip_before trip_ops 2 (mkDedupeCache (lru_new 2)) trip_readings) as H.
  cbv zeta in H. change (inbound_topic (rc_identity peer_rcv)) with the_topic in H.
  rewrite trip_deliveries in H.
  destruct H as (dba1 & H1 & st1 & c1 & dbb1 & Db1 & H2 & H3 & _ & H4 & _);
    [apply mem_with_good|apply sample_dm_repr|apply sample_dm_wf|apply trip_room
    |apply mem_with_good|apply sample_dm_repr|apply trip_ready|apply Nat.leb_le; reflexivity|done|done
    |unfold trip_ops; intros st rx _; rewrite !not_elem_of_cons; split_and!; try discriminate;
     intros Hin; inversion Hin|].
  exists dba1. split; [exact H1|]. exists st1, c1, dbb1, Db1. split_and!; [exact H2|done|exact H4].
Defined.
