(* ===== verification/Restart.v ===== *)
(** * The SDK over many processes

    A process opens the directory of its database with [ZeroSdk::open], works and ends: it is
    closed, or killed at any point of an operation, after which no call of it reaches the disk
    (a database that refuses every further call, as [Faults] has it). The next process opens
    what is there. *)

From Stdlib Require Import ZArith Lia Strings.Byte.
From stdpp Require Import base tactics gmap strings sorting numbers countable list.
From S2P Require Import Prelude Bytes Store Mem Aad Db Dedupe Outbox.
From S2P Require Import Contacts Net Dm Group GroupOps Inbox DmReceive NeuralKey Sdk Faults.
#[local] Open Scope nat_scope.

Section sessions.
Context `{R : RocksDB} `{P : PostcardLib} `{B : Blake3} `{BK : Blake3Keyed} `{ZK : ZidKeys}.
Context `{!Postcard OutboxEntry, !Postcard Contact, !Postcard Conversation, !Postcard Message,
          !Postcard DmSectorPayload, !Postcard ReceiptPayload, !Postcard InboxEntry,
          !Postcard GroupManifest, !Postcard GroupMessage}.

(** The operations of one process and their outcomes; nothing runs when the open fails. *)
Definition run_session (key : NeuralKey) (ops : list sdk_op)
    : io Directory SdkError (list (result SdkError sdk_value)) := λ dir,
  match sdk_open dir key with
  | Ok (db, sdk) =>
      let (db', rs) := Prelude.history (run_sdk sdk) ops db in
      (directory db', Ok rs)
  | Err e => (dir, Err e)
  end.

(** The services that every process of [key] gets. *)
Definition facade (key : NeuralKey) : ZeroSdk :=
  let identity := mkIdentityId (identity_id_bytes key) in
  let machine := derive_default_machine_id identity in
  mkZeroSdk (mkContactStore identity) (mkDmService identity machine (mkContactStore identity))
    (mkInboxService identity machine) identity machine.

Lemma sdk_open_facade dir key :
  sdk_open dir key = match DB_open_cf_descriptors dir ALL_CFS with
    | Ok db => Ok (db, facade key) | Err e => Err (SdkStorage (Rocks e)) end.
Proof using. unfold sdk_open, open_raw, open. by destruct (DB_open_cf_descriptors dir ALL_CFS). Qed.

(** Each process continues from the state that the one before it has left. *)
Inductive sessions_run (sdk : ZeroSdk) : sdk_state → list (list sdk_op) →
    list (result SdkError (list (result SdkError sdk_value))) → sdk_state → Prop :=
| sessions_nil S : sessions_run sdk S [] [] S
| session_unopened S ops rest e outs S' :
    sessions_run sdk S rest outs S' → sessions_run sdk S (ops :: rest) (Err e :: outs) S'
| session_ran S ops rest rs outs S1 S' :
    fault_run sdk S ops rs S1 → sessions_run sdk S1 rest outs S' →
    sessions_run sdk S (ops :: rest) (Ok rs :: outs) S'.
End sessions.

Section restart.
Context `{F : RocksFaults} `{P : PostcardLib} `{B : Blake3} `{BK : Blake3Keyed} `{ZK : ZidKeys}.
Context `{!Postcard Contact, !PostcardOk Contact, !Postcard OutboxEntry, !PostcardOk OutboxEntry,
          !Postcard Conversation, !PostcardOk Conversation, !Postcard Message,
          !PostcardOk Message, !Postcard DmSectorPayload, !PostcardOk DmSectorPayload,
          !Postcard ReceiptPayload, !PostcardOk ReceiptPayload, !Postcard InboxEntry,
          !PostcardOk InboxEntry, !Postcard GroupManifest, !PostcardOk GroupManifest,
          !Postcard GroupMessage, !PostcardOk GroupMessage}.
Implicit Types (db : DB) (S : sdk_state).

(** Whoever opens the directory finds the state. *)
Definition holds (dir : Directory) S : Prop :=
  ∀ db, DB_open_cf_descriptors dir ALL_CFS = Ok db → sdk_repr (contents db) S.

(** Every open succeeds and nothing fails afterwards. *)
Definition all_well : Prop :=
  ∀ dir, ∃ db, DB_open_cf_descriptors dir ALL_CFS = Ok db ∧ healthy db.

Lemma holds_directory db S : sdk_repr (contents db) S → holds (directory db) S.
Proof using ROk. intros HS db' Ho. by rewrite (open_durable db _ db' Ho). Qed.

Lemma open_opened dir db : DB_open_cf_descriptors dir ALL_CFS = Ok db → opened db.
Proof using ROk. intros Ho cf. by eapply open_handles. Qed.

(** One process on a disk that may fail. *)
Lemma session_step key ops dir S :
  holds dir S → sdk_wf S →
  let (dir', out) := run_session key ops dir in
  ∃ S', match out with Ok rs => fault_run (facade key) S ops rs S' | Err _ => S' = S end ∧
    holds dir' S' ∧ sdk_wf S'.
Proof using All.
  intros HS Hw. unfold run_session. rewrite sdk_open_facade.
  destruct (DB_open_cf_descriptors dir ALL_CFS) as [db|e] eqn:Ho; [|by exists S].
  pose proof (faults_contained (facade key) ops db S (open_opened _ _ Ho) (HS _ Ho) Hw) as H.
  destruct (Prelude.history _ ops db) as [db' rs]. destruct H as (S' & Hrun & _ & HS' & Hw').
  exists S'. split_and!; [done|by apply holds_directory|done].
Qed.

(** One process on a disk that does not. *)
Lemma session_well key ops dir S :
  all_well → holds dir S → sdk_wf S →
  let (S', rs) := Prelude.history (spec_sdk (facade key)) ops S in
  ∃ dir', run_session key ops dir = (dir', Ok rs) ∧ holds dir' S' ∧ sdk_wf S'.
Proof using PostcardOk0 PostcardOk1 PostcardOk2 PostcardOk3 PostcardOk4 PostcardOk5 PostcardOk6
  PostcardOk7 PostcardOk8.
  intros Hwell HS Hw. destruct (Hwell dir) as (db & Ho & Hh).
  pose proof (sdk_history (facade key) ops db S (conj Hh (open_opened _ _ Ho)) (HS _ Ho) Hw) as H.
  destruct (Prelude.history (spec_sdk _) ops S) as [S' rs]. destruct H as (db' & Hrun & _ & HS' & Hw').
  exists (directory db'). unfold run_session. rewrite sdk_open_facade, Ho, Hrun.
  split_and!; [done|by apply holds_directory|done].
Qed.

(** State survives. Whatever processes open the database one after the other, run any
    operations and end at any point, and whatever calls of the database fail meanwhile: each
    process finds what the one before it left. An operation that reports success has done
    exactly what its specification says (receiving a message, which may take a contact it could
    not read for a stranger, is the one exception), an operation that reports an error has left
    the state before it, the state after it, or one of the listed states between its writes,
    a process that could not open has changed nothing; and what the last one leaves represents
    a well-formed state. If nothing fails, the processes together behave as the specification
    does on all their operations in one go. *)
Theorem restarts_contained key sessions dir S :
  holds dir S → sdk_wf S →
  let (dir', outs) := Prelude.history (run_session key) sessions dir in
  (∃ S', sessions_run (facade key) S sessions outs S' ∧ holds dir' S' ∧ sdk_wf S') ∧
  (all_well →
   let (S', rs) := Prelude.history (spec_sdk (facade key)) (concat sessions) S in
   holds dir' S' ∧ ∃ each, outs = Ok <$> each ∧ concat each = rs ∧
     length <$> each = length <$> sessions).
Proof using All.
  revert dir S. induction sessions as [|ops rest IHs]; intros dir S HS Hw.
  { cbn. split; [exists S; split_and!; [constructor|done..]|]. intros _. split; [done|]. by exists []. }
  cbn [Prelude.history concat]. pose proof (session_step key ops dir S HS Hw) as Hstep.
  pose proof (λ Hwell, session_well key ops dir S Hwell HS Hw) as Hall.
  destruct (run_session key ops dir) as [dir1 out]. destruct Hstep as (S1 & Hout & HS1 & Hw1).
  pose proof (IHs dir1) as IH. destruct (Prelude.history (run_session key) rest dir1) as [dir2 outs].
  split.
  - destruct (IH S1 HS1 Hw1) as [(S2 & Hrun & HS2 & Hw2) _]. exists S2. split_and!; [|done|done].
    destruct out as [rs|e]; [by eapply session_ran|]. subst S1. by apply session_unopened.
  - intros Hwell. rewrite history_app. specialize (Hall Hwell).
    pose proof (history_length (spec_sdk (facade key)) ops S) as Hl.
    destruct (Prelude.history (spec_sdk _) ops S) as [S3 rs3].
    destruct Hall as (dir3 & [= <- ->] & HS3 & Hw3). destruct (IH S3 HS3 Hw3) as [_ Hrest].
    specialize (Hrest Hwell). destruct (Prelude.history _ (concat rest) S3) as [S4 rs4].
    destruct Hrest as (HS4 & each & -> & <- & Hlen). split; [done|]. exists (rs3 :: each).
    split_and!; [done|done|]. rewrite !fmap_cons. by f_equal.
Qed.
End restart.

(** ** Witness: the failing database of [Faults] and the database in memory, two processes each *)

#[local] Existing Instances mem_contact mem_contact_ok mem_outbox mem_outbox_ok mem_message
  mem_message_ok mem_conversation mem_conversation_ok mem_dm_payload mem_dm_payload_ok
  mem_receipt mem_receipt_ok mem_inbox mem_inbox_ok mem_manifest mem_manifest_ok mem_gmessage
  mem_gmessage_ok.

Definition mem_faults : @RocksFaults mem_rocks mem_rocks_ok.
Proof.
  split.
  - intros db cf k x [= <-]. done.
  - intros db cf k v. split; [done|by left].
  - intros db cf k. split; [done|by left].
  - intros db cf mode. by left.
  - intros db cf p. exists []. split; [constructor|]. left. by rewrite app_nil_r.
  - intros db. by exists db.
Defined.

(** The key of [alice]. *)
Definition alice_key : NeuralKey :=
  mkNeuralKey (arr_fit 32 (arr_bytes (identity_id_0 alice)) : zid_neural_key).

Definition two_processes : list (list sdk_op) := [take 3 sdk_sample_ops; drop 3 sdk_sample_ops].

(** The first process loses a write; the second goes on from there. *)
Lemma restarts_contained_witness :
  ((λ out, match out with Ok rs => is_ok <$> rs | Err _ => [] end) <$>
    (Prelude.history (run_session (R := Flaky.flaky_rocks) alice_key) two_processes Flaky.third_fails).2
    = [[true; true; false]; [true; true; false; false]]) ∧
  (∃ S', sessions_run (facade alice_key) sdk_empty two_processes
     (Prelude.history (run_session (R := Flaky.flaky_rocks) alice_key) two_processes Flaky.third_fails).2
     S' ∧ sdk_wf S') ∧
  holds (ROk := mem_rocks_ok)
    (Prelude.history (run_session (R := mem_rocks) alice_key) two_processes ∅).1
    (Prelude.history (spec_sdk (facade alice_key)) sdk_sample_ops sdk_empty).1.
Proof.
  split; [vm_compute; reflexivity|]. split.
  - pose proof (restarts_contained (F := Flaky.flaky_faults) alice_key two_processes Flaky.third_fails
      sdk_empty) as H.
    destruct (Prelude.history (run_session (R := Flaky.flaky_rocks) alice_key) two_processes Flaky.third_fails) as [dir' outs].
    destruct H as [(S' & Hrun & _ & Hw) _].
    + intros db [= <-]. apply sdk_empty_repr.
    + apply sdk_empty_wf.
    + by exists S'.
  - pose proof (restarts_contained (F := mem_faults) alice_key two_processes ∅ sdk_empty) as H.
    destruct (Prelude.history (run_session (R := mem_rocks) alice_key) two_processes ∅) as [dir' outs].
    destruct H as [_ H].
    + intros db [= <-]. apply sdk_empty_repr.
    + apply sdk_empty_wf.
    + change (concat two_processes) with sdk_sample_ops in H.
      destruct (Prelude.history (spec_sdk (facade alice_key)) sdk_sample_ops sdk_empty) as [S' rs].
      apply H. intros dir. by eexists.
Defined.
