(* ===== verification/Live.v ===== *)
(** * A running process: the receive loops beside the API

    The tasks that [start_receive_loop] spawns share the dedupe cache and the database with the
    callers of the SDK. A loop gives way only where it waits for its stream, and processing one
    sector does not wait; so on one thread a run of the process is a sequence of events, each a
    call of the API, the spawn of a loop, a turn of one, or the drop of a handle. What several
    threads do is in [Concurrent] and [Race]. *)

From Stdlib Require Import ZArith Lia Strings.Byte.
From stdpp Require Import base tactics gmap strings sorting numbers countable list.
From S2P Require Import Prelude Bytes Store Mem Aad Db Dedupe Outbox.
From S2P Require Import Contacts Net Dm Group GroupOps Inbox DmReceive NeuralKey Sdk Faults Restart.
#[local] Open Scope nat_scope.

(** An operation and whether a caller waits for it; the loops ignore what theirs return. *)
Abbreviation entry := (bool * sdk_op)%type.

Section live.
Context `{R : RocksDB} `{P : PostcardLib} `{B : Blake3} `{BK : Blake3Keyed} `{ZK : ZidKeys}
  `{L : Lru} `{G : GridClient}.
Context `{!Postcard OutboxEntry, !Postcard Contact, !Postcard Conversation, !Postcard Message,
          !Postcard DmSectorPayload, !Postcard ReceiptPayload, !Postcard InboxEntry,
          !Postcard GroupManifest, !Postcard GroupMessage}.

(** [LoopItem i item]: the [i]th loop is woken with what its stream yields. *)
Inductive live_event : Type :=
| StartLoop
| LoopSubscribe (i : nat)
| LoopItem (i : nat) (item : option arrival)
| DropHandle (i : nat)
| Call (op : sdk_op).

(** The network, the shared cache, and the loops started so far. *)
Record process : Type := mkProcess {
  pr_net : grid_state;
  pr_dedupe : DedupeCache;
  pr_loops : list task;
}.

Definition start_loop (p : process) : process :=
  mkProcess (pr_net p) (pr_dedupe p) (pr_loops p ++ [Spawned]).

Definition subscribe_loop (rcv : DmReceiver) (i : nat) (p : process) : process :=
  match pr_loops p !! i with
  | Some Spawned =>
      let (net, t) := first_turn rcv (pr_net p) in
      mkProcess net (pr_dedupe p) (<[i := t]> (pr_loops p))
  | _ => p
  end.

Definition with_loop (i : nat) (t : task) (c : DedupeCache) (p : process) : process :=
  mkProcess (pr_net p) c (<[i := t]> (pr_loops p)).

(** The process, the database and what a call returned. *)
Definition live_step (sdk : ZeroSdk) (ev : live_event) (p : process) (db : DB)
    : process * DB * list (result SdkError sdk_value) :=
  match ev with
  | StartLoop => (start_loop p, db, [])
  | LoopSubscribe i => (subscribe_loop (own_receiver sdk) i p, db, [])
  | LoopItem i item =>
      match pr_loops p !! i with
      | Some Polling =>
          let '(t, (c, db)) := poll_item (own_receiver sdk) item (pr_dedupe p) db in
          (with_loop i t c p, db, [])
      | _ => (p, db, [])
      end
  | DropHandle i =>
      (mkProcess (pr_net p) (pr_dedupe p) (alter drop_handle i (pr_loops p)), db, [])
  | Call op => let (db, r) := run_sdk sdk op db in (p, db, [r])
  end.

Fixpoint run_live (sdk : ZeroSdk) (evs : list live_event) (p : process) (db : DB)
    : process * DB * list (result SdkError sdk_value) :=
  match evs with
  | [] => (p, db, [])
  | ev :: evs =>
      let '(p, db, out) := live_step sdk ev p db in
      let '(p, db, outs) := run_live sdk evs p db in
      (p, db, out ++ outs)
  end.

(** ** The operations of a run, one after the other *)

(** What an event adds to them, which is up to the cache and the loops alone. *)
Definition log_step (sdk : ZeroSdk) (ev : live_event) (p : process) : process * list entry :=
  match ev with
  | StartLoop => (start_loop p, [])
  | LoopSubscribe i => (subscribe_loop (own_receiver sdk) i p, [])
  | LoopItem i item =>
      match pr_loops p !! i, item with
      | Some Polling, Some (Ok b, rd) =>
          let id := inbound_sector_id b in
          if seen (pr_dedupe p) id then (p, [])
          else (with_loop i Polling (mark (pr_dedupe p) id) p, [(false, ReceiveDm b rd)])
      | Some Polling, _ => (with_loop i Finished (pr_dedupe p) p, [])
      | _, _ => (p, [])
      end
  | DropHandle i =>
      (mkProcess (pr_net p) (pr_dedupe p) (alter drop_handle i (pr_loops p)), [])
  | Call op => (p, [(true, op)])
  end.

Fixpoint log (sdk : ZeroSdk) (evs : list live_event) (p : process) : process * list entry :=
  match evs with
  | [] => (p, [])
  | ev :: evs =>
      let (p, l) := log_step sdk ev p in
      let (p, ls) := log sdk evs p in (p, l ++ ls)
  end.

(** What the callers among them are told. *)
Definition answers (h : list entry) (rs : list (result SdkError sdk_value))
    : list (result SdkError sdk_value) :=
  omap (λ x, if x.1.1 : bool then Some x.2 else None) (zip h rs).

Definition calls (evs : list live_event) : list sdk_op :=
  omap (λ ev, match ev with Call op => Some op | _ => None end) evs.
Definition called (h : list entry) : list sdk_op :=
  omap (λ x, if x.1 : bool then Some x.2 else None) h.

(** The sectors that the loops have handed on. *)
Definition heard (h : list entry) : list SectorId :=
  omap (λ x, match x with (false, ReceiveDm b _) => Some (inbound_sector_id b) | _ => None end) h.

(** The sectors that arrive at all. *)
Definition arriving (evs : list live_event) : list SectorId :=
  omap (λ ev, match ev with LoopItem _ (Some (Ok b, _)) => Some (inbound_sector_id b) | _ => None end) evs.

Lemma live_step_log sdk ev p db :
  let (p', l) := log_step sdk ev p in
  let (db', rs) := Prelude.history (run_sdk sdk) l.*2 db in
  live_step sdk ev p db = (p', db', answers l rs).
Proof using.
  destruct ev as [|i|i item|i|op]; cbn [log_step live_step]; try done.
  - destruct (pr_loops p !! i) as [[]|] eqn:Hi; try done.
    destruct item as [[[b|e] rd]|]; cbn [poll_item]; try done.
    destruct (seen _ _); cbn [fmap list_fmap Prelude.history snd].
    + unfold with_loop. rewrite list_insert_id by done. by destruct p.
    + cbn [run_sdk]. unfold wrap. by destruct (process_inbound_dm _ _ _ _).
  - cbn [fmap list_fmap Prelude.history snd]. by destruct (run_sdk sdk op db).
Qed.

Lemma answers_app h1 h2 rs1 rs2 :
  length h1 = length rs1 → answers (h1 ++ h2) (rs1 ++ rs2) = answers h1 rs1 ++ answers h2 rs2.
Proof using. intros Hl. unfold answers. by rewrite zip_with_app, omap_app. Qed.

(** A run is its operations in a row. *)
Lemma run_live_log sdk evs p db :
  let (p', h) := log sdk evs p in
  let (db', rs) := Prelude.history (run_sdk sdk) h.*2 db in
  run_live sdk evs p db = (p', db', answers h rs).
Proof using.
  revert p db. induction evs as [|ev evs IHevs]; intros p db; [done|]. cbn [log run_live].
  pose proof (live_step_log sdk ev p db) as Hstep. destruct (log_step sdk ev p) as [p1 l].
  specialize (IHevs p1). destruct (log sdk evs p1) as [p2 h].
  rewrite fmap_app, history_app. pose proof (history_length (run_sdk sdk) l.*2 db) as Hl.
  destruct (Prelude.history _ l.*2 db) as [db1 rs1]. specialize (IHevs db1).
  destruct (Prelude.history _ h.*2 db1) as [db2 rs2]. rewrite Hstep, IHevs.
  cbn [snd] in Hl. by rewrite answers_app by (by rewrite Hl, length_fmap).
Qed.

(** A process from its start to its end, with an empty cache and whatever network it finds. *)
Definition live_session (key : NeuralKey) (c : DedupeCache) (s : grid_state * list live_event)
    : io Directory SdkError (list (result SdkError sdk_value)) := λ dir,
  match sdk_open dir key with
  | Ok (db, sdk) =>
      let '(_, db, outs) := run_live sdk s.2 (mkProcess s.1 c []) db in
      (directory db, Ok outs)
  | Err e => (dir, Err e)
  end.

(** The operations of such a process. *)
Definition session_log (key : NeuralKey) (c : DedupeCache) (s : grid_state * list live_event)
    : list entry := (log (facade key) s.2 (mkProcess s.1 c [])).2.

Lemma live_session_log key c s dir :
  let (dir', r) := run_session key (session_log key c s).*2 dir in
  live_session key c s dir = (dir', answers (session_log key c s) <$> r).
Proof using.
  unfold run_session, live_session, session_log. rewrite sdk_open_facade.
  destruct (DB_open_cf_descriptors dir ALL_CFS) as [db|e]; [|done].
  pose proof (run_live_log (facade key) s.2 (mkProcess s.1 c []) db) as H.
  destruct (log _ _ _) as [p h]. cbn [snd]. destruct (Prelude.history _ h.*2 db) as [db' rs].
  by rewrite H.
Qed.

Lemma live_sessions_log key c ss dir :
  let (dir', rs) := Prelude.history (run_session key)
    ((λ s, (session_log key c s).*2) <$> ss) dir in
  Prelude.history (live_session key c) ss dir =
    (dir', zip_with (λ s r, answers (session_log key c s) <$> r) ss rs).
Proof using.
  revert dir. induction ss as [|s ss IH]; intros dir; [done|]. cbn.
  pose proof (live_session_log key c s dir) as H1. destruct (run_session _ _ dir) as [dir1 r].
  specialize (IH dir1). destruct (Prelude.history (run_session key) _ dir1) as [dir2 rs].
  rewrite H1, IH. done.
Qed.
End live.

(** ** Laws *)

Section live_laws.
Context `{R : RocksDB} `{P : PostcardLib} `{B : Blake3} `{BK : Blake3Keyed} `{ZK : ZidKeys}
  `{LOk : LruOk} `{G : GridClient}.
Context `{!Postcard OutboxEntry, !Postcard Contact, !Postcard Conversation, !Postcard Message,
          !Postcard DmSectorPayload, !Postcard ReceiptPayload, !Postcard InboxEntry,
          !Postcard GroupManifest, !Postcard GroupMessage}.
Implicit Types (sdk : ZeroSdk) (p : process) (ev : live_event) (h : list entry) (i : nat).

(** What the events offer, seen or not. *)
Definition offered (evs : list live_event) : list entry :=
  omap (λ ev, match ev with
    | Call op => Some (true, op)
    | LoopItem _ (Some (Ok b, rd)) => Some (false, ReceiveDm b rd)
    | _ => None end) evs.

Lemma log_app sdk l1 l2 p :
  log sdk (l1 ++ l2) p =
    let (p1, h1) := log sdk l1 p in let (p2, h2) := log sdk l2 p1 in (p2, h1 ++ h2).
Proof using.
  revert p. induction l1 as [|ev l1 IHl]; intros p; cbn; [by destruct (log sdk l2 p)|].
  destruct (log_step sdk ev p) as [p1 l]. rewrite IHl. destruct (log sdk l1 p1) as [p2 h1].
  destruct (log sdk l2 p2). by rewrite (assoc_L (++)).
Qed.

Lemma log_step_offered sdk ev p :
  (log_step sdk ev p).2 `sublist_of` offered [ev] ∧ called (log_step sdk ev p).2 = calls [ev].
Proof using.
  destruct ev as [|i|i [[[b|e] rd]|]|i|op]; cbn; repeat case_match; cbn; (split; [|done]);
    first [apply sublist_nil_l | done].
Qed.

Lemma log_offered sdk evs p :
  (log sdk evs p).2 `sublist_of` offered evs ∧ called (log sdk evs p).2 = calls evs.
Proof using.
  revert p. induction evs as [|ev evs IHevs]; intros p; [done|]. cbn [log].
  destruct (log_step_offered sdk ev p) as [H1 H2]. destruct (log_step sdk ev p) as [p1 l].
  destruct (IHevs p1) as [H3 H4]. destruct (log sdk evs p1) as [p2 h]. cbn [snd] in *.
  change (ev :: evs) with ([ev] ++ evs). unfold offered, calls, called in *.
  rewrite !omap_app, H2, H4. split; [|done]. by apply sublist_app.
Qed.

(** A loop that has ended stays so. *)
Lemma log_step_ended sdk ev p i t :
  pr_loops p !! i = Some t → is_finished t = true → pr_loops (log_step sdk ev p).1 !! i = Some t.
Proof using.
  intros Hi Ht.
  assert (∀ j t' c, pr_loops p !! j = Some Polling → pr_loops (with_loop j t' c p) !! i = Some t) as Hw.
  { intros j t' c Hj. cbn. rewrite list_lookup_insert_ne; [done|]. intros ->. by simplify_eq. }
  destruct ev as [|j|j item|j|op]; cbn [log_step]; [| | | |done].
  - cbn. by apply lookup_app_l_Some.
  - unfold subscribe_loop. destruct (pr_loops p !! j) as [[]|] eqn:Hj; try done.
    destruct (first_turn _ _). cbn. rewrite list_lookup_insert_ne; [done|]. intros ->. by simplify_eq.
  - destruct (pr_loops p !! j) as [[]|] eqn:Hj; try done.
    destruct item as [[[b|e] rd]|]; [destruct (seen _ _)|..]; cbn [fst]; by auto.
  - cbn. destruct (decide (j = i)) as [->|]; [|by rewrite list_lookup_alter_ne].
    rewrite list_lookup_alter_eq, Hi. by destruct t.
Qed.

Lemma log_ended sdk evs p i t :
  pr_loops p !! i = Some t → is_finished t = true → pr_loops (log sdk evs p).1 !! i = Some t.
Proof using.
  revert p. induction evs as [|ev evs IHevs]; intros p Hi Ht; [done|]. cbn [log].
  pose proof (log_step_ended sdk ev p i t Hi Ht) as H1. destruct (log_step sdk ev p) as [p1 l].
  specialize (IHevs p1 H1 Ht). by destruct (log sdk evs p1).
Qed.

(** The cache after [ids] have been handed on. *)
Definition remembers (cap : nat) (ids : list SectorId) p : Prop :=
  recency (inner (pr_dedupe p)) = take cap (recent ids) ∧ lru_cap (inner (pr_dedupe p)) = cap.

Lemma log_step_remembers sdk ev p cap ids :
  remembers cap ids p → remembers cap (ids ++ heard (log_step sdk ev p).2) (log_step sdk ev p).1.
Proof using.
  intros [Hr Hc]. assert (∀ p', pr_dedupe p' = pr_dedupe p → remembers cap (ids ++ []) p') as Hsame.
  { intros p' Hp. rewrite app_nil_r. unfold remembers. by rewrite Hp. }
  destruct ev as [|i|i item|i|op]; cbn [log_step]; try by apply Hsame.
  - apply Hsame. unfold subscribe_loop. repeat case_match; done.
  - destruct (pr_loops p !! i) as [[]|]; try by apply Hsame.
    destruct item as [[[b|e] rd]|]; try by apply Hsame.
    destruct (seen _ _); [by apply Hsame|]. by apply (mark_recent cap).
Qed.

Lemma log_remembers sdk evs p cap ids :
  remembers cap ids p → remembers cap (ids ++ heard (log sdk evs p).2) (log sdk evs p).1.
Proof using.
  revert p ids. induction evs as [|ev evs IHevs]; intros p ids Hp; [by rewrite app_nil_r|].
  cbn [log]. pose proof (log_step_remembers sdk ev p cap ids Hp) as H1.
  destruct (log_step sdk ev p) as [p1 l]. specialize (IHevs p1 _ H1).
  destruct (log sdk evs p1) as [p2 h]. cbn [fst snd] in *. unfold heard in *.
  by rewrite omap_app, (assoc_L (++)).
Qed.

Lemma heard_sublist h h' : h `sublist_of` h' → heard h `sublist_of` heard h'.
Proof using.
  induction 1 as [|[[] op] h h' _ IH|[[] op] h h' _ IH]; cbn; [done|done| |done|].
  - destruct op; done || by constructor.
  - destruct op; done || by constructor.
Qed.

Lemma heard_offered evs : heard (offered evs) = arriving evs.
Proof using.
  unfold heard, offered, arriving.
  induction evs as [|[|i|i [[[b|e] rd]|]|i|op] evs IH]; cbn; first [done | exact IH | by f_equal].
Qed.

(** Nothing is handed on twice while all that has been marked is remembered. *)
Lemma log_heard_once sdk evs p cap ids :
  remembers cap ids p → NoDup ids → (∀ l, NoDup l → l ⊆ ids ++ arriving evs → length l ≤ cap) →
  NoDup (ids ++ heard (log sdk evs p).2).
Proof using.
  revert p ids. induction evs as [|ev evs IHevs]; intros p ids Hp Hnd Hcap; [by rewrite app_nil_r|].
  cbn [log]. pose proof (log_step_remembers sdk ev p cap ids Hp) as H1.
  pose proof (log_step_offered sdk ev p) as [Hoff _].
  assert (NoDup (ids ++ heard (log_step sdk ev p).2)) as Hnd1.
  { destruct ev as [|i|i item|i|op]; cbn [log_step].
    - by rewrite app_nil_r.
    - by rewrite app_nil_r.
    - destruct (pr_loops p !! i) as [[]|]; try by rewrite app_nil_r.
      destruct item as [[[b|e] rd]|]; try by rewrite app_nil_r.
      destruct (seen _ _) eqn:Hseen; [by rewrite app_nil_r|]. cbn.
      apply NoDup_app. split_and!; [done| |by apply NoDup_singleton].
      intros x Hx ->%list_elem_of_singleton. apply not_true_iff_false in Hseen. apply Hseen.
      apply seen_iff. destruct Hp as [-> _]. rewrite take_ge; [by apply elem_of_recent|].
      apply Hcap; [apply recent_NoDup|]. intros y Hy. apply elem_of_app. left. by apply (proj1 (elem_of_recent _ _)) in Hy.
    - by rewrite app_nil_r.
    - by rewrite app_nil_r. }
  apply heard_sublist in Hoff. rewrite heard_offered in Hoff.
  destruct (log_step sdk ev p) as [p1 l]. cbn [fst snd] in *.
  specialize (IHevs p1 _ H1 Hnd1). destruct (log sdk evs p1) as [p2 h]. cbn [snd] in *.
  unfold heard at 2 in IHevs. unfold heard at 1. rewrite omap_app, (assoc_L (++)). apply IHevs.
  intros l0 Hl0 Hsub. apply Hcap; [done|]. intros x Hx%Hsub.
  change (ev :: evs) with ([ev] ++ evs). unfold arriving at 1. rewrite omap_app.
  rewrite !elem_of_app in Hx |- *. destruct Hx as [[Hx|Hx]|Hx]; [by left| |by right; right].
  right; left. by eapply elem_of_sublist.
Qed.

(** What is handed on has reached a loop that was waiting for it. *)
Lemma log_handed sdk evs p op : (false, op) ∈ (log sdk evs p).2 →
  ∃ l1 i b rd l2, evs = l1 ++ LoopItem i (Some (Ok b, rd)) :: l2 ∧ op = ReceiveDm b rd ∧
    pr_loops (log sdk l1 p).1 !! i = Some Polling.
Proof using.
  revert p. induction evs as [|ev evs IHevs]; intros p; [by intros ?%elem_of_nil|]. cbn [log].
  destruct (log_step sdk ev p) as [p1 l] eqn:Hstep.
  specialize (IHevs p1). destruct (log sdk evs p1) as [p2 h] eqn:Hlog. cbn [snd] in *.
  intros [Hl|Hh]%elem_of_app.
  - destruct ev as [|i|i item|i|op']; cbn [log_step] in Hstep.
    + injection Hstep as _ <-. by apply elem_of_nil in Hl.
    + injection Hstep as _ <-. by apply elem_of_nil in Hl.
    + destruct (pr_loops p !! i) as [[]|] eqn:Hi;
        try (injection Hstep as _ <-; by apply elem_of_nil in Hl).
      destruct item as [[[b|e] rd]|]; try (injection Hstep as _ <-; by apply elem_of_nil in Hl).
      destruct (seen _ _); injection Hstep as _ <-; [by apply elem_of_nil in Hl|].
      apply list_elem_of_singleton in Hl as [= ->]. by exists [], i, b, rd, evs.
    + injection Hstep as _ <-. by apply elem_of_nil in Hl.
    + injection Hstep as _ <-. by apply list_elem_of_singleton in Hl.
  - destruct (IHevs Hh) as (l1 & i & b & rd & l2 & -> & -> & Hi).
    exists (ev :: l1), i, b, rd, l2. split_and!; [done|done|]. cbn [log]. rewrite Hstep.
    by destruct (log sdk l1 p1).
Qed.

(** What reaches a waiting loop has been handed on, then or before. *)
Lemma log_polled sdk l1 i b rd l2 p cap ids :
  remembers cap ids p → 0 < cap → pr_loops (log sdk l1 p).1 !! i = Some Polling →
  inbound_sector_id b ∈ ids ++ heard (log sdk (l1 ++ LoopItem i (Some (Ok b, rd)) :: l2) p).2.
Proof using.
  intros Hp Hcap Hi. pose proof (log_remembers sdk l1 p cap ids Hp) as [Hr _].
  rewrite log_app. destruct (log sdk l1 p) as [p1 h1]. cbn [fst snd] in *. cbn [log log_step].
  rewrite Hi. destruct (seen (pr_dedupe p1) (inbound_sector_id b)) eqn:Hseen.
  - destruct (log sdk l2 p1) as [p2 h2]. cbn [snd]. unfold heard in *. rewrite !omap_app, (assoc_L (++)).
    apply elem_of_app. left. apply seen_iff in Hseen. rewrite Hr in Hseen.
    apply elem_of_take in Hseen as (j & Hj%list_elem_of_lookup_2 & _). by apply elem_of_recent.
  - destruct (log sdk l2 _) as [p2 h2]. cbn [snd]. unfold heard. rewrite !omap_app. cbn.
    rewrite !elem_of_app, elem_of_cons. tauto.
Qed.
End live_laws.

(** ** Properties *)

Section live_props.
Context `{R : RocksDB} `{P : PostcardLib} `{B : Blake3} `{BK : Blake3Keyed} `{ZK : ZidKeys}
  `{LOk : LruOk} `{G : GridClient}.
Context `{!Postcard OutboxEntry, !Postcard Contact, !Postcard Conversation, !Postcard Message,
          !Postcard DmSectorPayload, !Postcard ReceiptPayload, !Postcard InboxEntry,
          !Postcard GroupManifest, !Postcard GroupMessage}.

(** C9: a running process is in order. However the calls of the API, the starts of receive loops,
    their turns and the drops of their handles follow on one another, and whatever the database
    does: the run amounts to a list of operations done one after the other, and each caller is
    told what its own operation returned. Those operations are all the calls, and in between, in
    the order of arrival, sectors that reached a loop that was waiting; every sector that did is
    among them, none of them twice if the cache can hold all that arrive; and a loop whose
    handle has been dropped hands on nothing more. *)
Theorem live_in_order sdk cap c net evs db :
  DedupeCache_new cap = Some c →
  let p := mkProcess net c [] in
  let loops evs := pr_loops (run_live sdk evs p db).1.1 in
  ∃ (h : list entry) p',
    (let (db', rs) := Prelude.history (run_sdk sdk) h.*2 db in
     run_live sdk evs p db = (p', db', answers h rs)) ∧
    h `sublist_of` offered evs ∧ called h = calls evs ∧
    (∀ op, (false, op) ∈ h → ∃ l1 i b rd l2, evs = l1 ++ LoopItem i (Some (Ok b, rd)) :: l2 ∧
       op = ReceiveDm b rd ∧ loops l1 !! i = Some Polling) ∧
    (∀ l1 i b rd l2, evs = l1 ++ LoopItem i (Some (Ok b, rd)) :: l2 →
       loops l1 !! i = Some Polling → inbound_sector_id b ∈ heard h) ∧
    (length (remove_dups (arriving evs)) ≤ cap → NoDup (heard h)) ∧
    (∀ l1 i l2 l3, evs = l1 ++ DropHandle i :: l2 ++ l3 → i < length (loops l1) →
       ∃ t, loops (l1 ++ DropHandle i :: l2) !! i = Some t ∧ is_finished t = true).
Proof using LOk.
  intros Hc p loops. pose proof (run_live_log sdk evs p db) as Hrun.
  assert (∀ l, loops l = pr_loops (log sdk l p).1) as Hloops.
  { intros l. unfold loops. pose proof (run_live_log sdk l p db) as H.
    destruct (log sdk l p) as [pl hl]. destruct (Prelude.history _ hl.*2 db). by rewrite H. }
  assert (remembers cap [] p) as Hp by exact (mark_all cap c [] Hc).
  assert (0 < cap) as Hpos by (revert Hc; unfold DedupeCache_new; case_decide; [done|lia]).
  pose proof (log_offered sdk evs p) as [Hoff Hcalled].
  pose proof (log_handed sdk evs p) as Hhand.
  pose proof (λ l1 i b rd l2, log_polled sdk l1 i b rd l2 p cap [] Hp Hpos) as Hpoll.
  pose proof (log_heard_once sdk evs p cap [] Hp (NoDup_nil_2)) as Honce.
  pose proof (log_ended sdk) as Hend.
  exists (log sdk evs p).2, (log sdk evs p).1.
  split_and!; [|done|done| | | |].
  - destruct (log sdk evs p). exact Hrun.
  - intros op Hop. destruct (Hhand op Hop) as (l1 & i & b & rd & l2 & ? & ? & ?).
    exists l1, i, b, rd, l2. by rewrite Hloops.
  - intros l1 i b rd l2 -> Hi. rewrite Hloops in Hi. by apply Hpoll.
  - intros Hlen. apply Honce. intros l Hl Hsub. etrans; [|exact Hlen].
    apply submseteq_length, NoDup_submseteq; [done|]. intros x Hx. apply elem_of_remove_dups. by apply Hsub.
  - intros l1 i l2 l3 -> Hi. rewrite Hloops in Hi |- *. rewrite log_app.
    destruct (log sdk l1 p) as [p1 h1]. cbn [fst] in Hi. cbn [log log_step].
    apply lookup_lt_is_Some in Hi as [t Ht]. exists (drop_handle t).
    assert (is_finished (drop_handle t) = true) as Hdrop by by destruct t.
    split; [|done]. set (p2 := mkProcess _ _ _).
    assert (pr_loops p2 !! i = Some (drop_handle t)) as H2.
    { cbn. by rewrite list_lookup_alter_eq, Ht. }
    specialize (Hend l2 p2 i _ H2 Hdrop). by destruct (log sdk l2 p2).
Qed.
End live_props.

(** ** Over many processes, on a disk that may fail *)

Section processes.
Context `{F : RocksFaults} `{P : PostcardLib} `{B : Blake3} `{BK : Blake3Keyed} `{ZK : ZidKeys}
  `{L : Lru} `{G : GridClient}.
Context `{!Postcard Contact, !PostcardOk Contact, !Postcard OutboxEntry, !PostcardOk OutboxEntry,
          !Postcard Conversation, !PostcardOk Conversation, !Postcard Message,
          !PostcardOk Message, !Postcard DmSectorPayload, !PostcardOk DmSectorPayload,
          !Postcard ReceiptPayload, !PostcardOk ReceiptPayload, !Postcard InboxEntry,
          !PostcardOk InboxEntry, !Postcard GroupManifest, !PostcardOk GroupManifest,
          !Postcard GroupMessage, !PostcardOk GroupMessage}.

Lemma sessions_run_length sdk S ss outs S' :
  sessions_run sdk S ss outs S' → length outs = length ss.
Proof using. induction 1; cbn; by f_equal. Qed.

(** What the callers of several processes are told is what they are told process by process. *)
Lemma answers_concat hs rss :
  length <$> rss = length <$> hs → concat (zip_with answers hs rss) = answers (concat hs) (concat rss).
Proof using.
  revert rss. induction hs as [|h hs IH]; intros [|rs rss]; try done.
  intros [= Hl1 Hl2]. cbn [zip_with concat]. by rewrite answers_app, IH.
Qed.

(** C3: the SDK survives. Processes open the database one after the other; in each, calls of the
    API and the work of any number of receive loops follow on one another in any way, and it may
    be closed or killed at any point; and any calls of the database may fail. Then each process
    finds what the one before it left. What an operation reports is what it did: a success is
    exactly its specification (receiving a message, which may take a contact it could not read
    for a stranger, is the one exception), an error has left the state before it, the state
    after it, or one of the listed states between its writes, and a process that could not open
    has changed nothing; what the last one leaves represents a well-formed state. If nothing
    fails, the processes together behave as the specification does on the operations of all of
    them in one go, and every caller is told what the specification answers there. *)
Theorem processes_survive key c (processes : list (grid_state * list live_event)) dir S :
  holds dir S → sdk_wf S →
  let logs := session_log key c <$> processes in
  let (dir', outs) := Prelude.history (live_session key c) processes dir in
  (∃ each S', sessions_run (facade key) S ((λ h, h.*2) <$> logs) each S' ∧
     outs = zip_with (λ h r, answers h <$> r) logs each ∧ holds dir' S' ∧ sdk_wf S') ∧
  (all_well →
   let (S', rs) := Prelude.history (spec_sdk (facade key)) (concat logs).*2 S in
   holds dir' S' ∧ ∃ each, outs = Ok <$> each ∧ concat each = answers (concat logs) rs).
Proof using All.
  intros HS Hw logs. pose proof (live_sessions_log key c processes dir) as Hlive.
  pose proof (restarts_contained key ((λ h, h.*2) <$> logs) dir S HS Hw) as Hrest.
  assert ((λ s, (session_log key c s).*2) <$> processes = (λ h : list entry, h.*2) <$> logs) as Hops
    by apply (list_fmap_compose (session_log key c) (λ h : list entry, h.*2)).
  rewrite Hops in Hlive.
  destruct (Prelude.history (run_session key) _ dir) as [dir' outs]. rewrite Hlive.
  assert (∀ each : list (result SdkError _), zip_with (λ s r, answers (session_log key c s) <$> r) processes each =
    zip_with (λ h r, answers h <$> r) logs each) as Hzip.
  { intros each. unfold logs. by rewrite zip_with_fmap_l. }
  rewrite Hzip. destruct Hrest as [(S' & Hrun & HS' & Hw') Hwell]. split.
  { by exists outs, S'. }
  intros Hall. specialize (Hwell Hall).
  assert (concat ((λ h : list entry, h.*2) <$> logs) = (concat logs).*2) as Hcat
    by (symmetry; apply List.concat_map).
  rewrite Hcat in Hwell. destruct (Prelude.history (spec_sdk (facade key)) _ S) as [S2 rs].
  destruct Hwell as (HS2 & each & -> & <- & Hlen). split; [done|].
  exists (zip_with answers logs each). split; [|apply answers_concat].
  - rewrite zip_with_fmap_r. clear. generalize logs. intros hs. revert each.
    induction hs as [|h hs IH]; intros [|rs rss]; try done. cbn. by rewrite IH.
  - etrans; [exact Hlen|]. etrans; [symmetry; apply list_fmap_compose|].
    apply list_fmap_ext. intros i h _. cbn. by rewrite length_fmap.
Qed.
End processes.

(** ** Witnesses: two loops in one process, and two processes *)

#[local] Existing Instances mem_contact mem_contact_ok mem_outbox mem_outbox_ok mem_message
  mem_message_ok mem_conversation mem_conversation_ok mem_dm_payload mem_dm_payload_ok
  mem_receipt mem_receipt_ok mem_inbox mem_inbox_ok mem_manifest mem_manifest_ok mem_gmessage
  mem_gmessage_ok quiet_net.

Definition arrives (m : byte) : arrival := (Ok (enc (inbound m)), rd m).

(** The second loop hears the first sector again; the first one is dropped before the last. *)
Definition two_loops : list live_event :=
  [StartLoop; LoopSubscribe 0; Call (AddContact bob); LoopItem 0 (Some (arrives Byte.x01));
   StartLoop; LoopSubscribe 1; LoopItem 1 (Some (arrives Byte.x01));
   Call (OpenConversation (ident Byte.x02)); LoopItem 1 (Some (arrives Byte.x03)); DropHandle 0;
   LoopItem 0 (Some (arrives Byte.x04))].

Definition four : DedupeCache := mkDedupeCache (lru_new 4).
Definition reopened : DB := MemDb ALL_CFS ∅.

Lemma live_in_order_witness :
  let loops evs := pr_loops (run_live (facade alice_key) evs (mkProcess idle four []) reopened).1.1 in
  loops two_loops = [Aborted; Polling] ∧
  ∃ h : list entry, called h = [AddContact bob; OpenConversation (ident Byte.x02)] ∧ NoDup (heard h) ∧
    inbound_sector_id (enc (inbound Byte.x03)) ∈ heard h ∧
    (run_live (facade alice_key) two_loops (mkProcess idle four []) reopened).2 =
      answers h (Prelude.history (run_sdk (facade alice_key)) h.*2 reopened).2.
Proof.
  split; [vm_compute; reflexivity|].
  destruct (live_in_order (facade alice_key) 4 four idle two_loops reopened eq_refl)
    as (h & p' & Hrun & _ & Hcalled & _ & Hpoll & Hnd & _).
  exists h. split_and!; [exact Hcalled| | |].
  - apply Hnd. apply Nat.leb_le. vm_compute. reflexivity.
  - apply (Hpoll (take 8 two_loops) 1 _ (rd Byte.x03) (drop 9 two_loops)); [reflexivity|].
    vm_compute. reflexivity.
  - destruct (Prelude.history (run_sdk (facade alice_key)) h.*2 reopened) as [db' rs].
    by rewrite Hrun.
Defined.

Definition two_lives : list (@grid_state quiet_net * list live_event) :=
  [(idle, two_loops); (idle, Call <$> sdk_sample_ops)].

(** The first process loses a write of the loop. *)
Lemma processes_survive_witness :
  (∃ each S', sessions_run (R := Flaky.flaky_rocks) (facade alice_key) sdk_empty
     ((λ h : list entry, h.*2) <$> (session_log alice_key four <$> two_lives)) each S' ∧ sdk_wf S' ∧
     length each = 2) ∧
  holds (ROk := mem_rocks_ok)
    (Prelude.history (live_session (R := mem_rocks) alice_key four) two_lives ∅).1
    (Prelude.history (spec_sdk (facade alice_key))
       (concat (session_log alice_key four <$> two_lives)).*2 sdk_empty).1.
Proof.
  split.
  - pose proof (processes_survive (F := Flaky.flaky_faults) alice_key four two_lives
      Flaky.third_fails sdk_empty) as H.
    destruct (Prelude.history (live_session (R := Flaky.flaky_rocks) alice_key four) two_lives
      Flaky.third_fails) as [dir' outs].
    destruct H as [(each & S' & Hrun & _ & _ & Hw) _].
    + intros db [= <-]. apply sdk_empty_repr.
    + apply sdk_empty_wf.
    + exists each, S'. split_and!; [done|done|]. by rewrite (sessions_run_length _ _ _ _ _ Hrun).
  - pose proof (processes_survive (F := mem_faults) alice_key four two_lives ∅ sdk_empty) as H.
    destruct (Prelude.history (live_session (R := mem_rocks) alice_key four) two_lives ∅)
      as [dir' outs].
    destruct H as [_ H].
    + intros db [= <-]. apply sdk_empty_repr.
    + apply sdk_empty_wf.
    + destruct (Prelude.history (spec_sdk (facade alice_key)) _ sdk_empty) as [S' rs].
      apply H. intros dir. by eexists.
Defined.
