(* ===== verification/Concurrent.v ===== *)
(** * The SDK from several threads

    The operations of the facade taken apart at their calls of the database ([Threads]), so
    that those of many threads can be run in any order of these calls. *)

From Stdlib Require Import ZArith Lia.
From stdpp Require Import base tactics gmap strings sorting numbers countable list.
From S2P Require Import Prelude Bytes Store Mem Aad Db Dedupe Outbox.
From S2P Require Import Contacts Net Dm Group GroupOps Inbox DmReceive NeuralKey Sdk Faults Restart.
From S2P Require Import Live Threads.
#[local] Open Scope nat_scope.

(** ** Their calls *)

Section splits.
Context `{R : RocksDB} `{P : PostcardLib} `{B : Blake3} `{BK : Blake3Keyed} `{ZK : ZidKeys}.
Context `{!Postcard OutboxEntry, !Postcard Contact, !Postcard Conversation, !Postcard Message,
          !Postcard DmSectorPayload, !Postcard ReceiptPayload, !Postcard InboxEntry,
          !Postcard GroupManifest, !Postcard GroupMessage}.

#[export] Instance split_add cs c : Split (add_contact cs c).
Proof using. unfold add_contact. split_calls. Defined.
#[export] Instance split_remove_contact cs id : Split (remove_contact cs id).
Proof using. unfold remove_contact. split_calls. Defined.

#[export] Instance split_open svc peer : Split (open_conversation svc peer).
Proof using. unfold open_conversation. split_calls. Defined.
#[export] Instance split_store m : Split (store_message m).
Proof using. unfold store_message. split_calls. Defined.
#[export] Instance split_save c : Split (save_conversation c).
Proof using. unfold save_conversation. split_calls. Defined.
#[export] Instance split_update c m s now : Split (update_status c m s now).
Proof using. unfold update_status. split_calls. Defined.
#[export] Instance split_enqueue ob e : Split (enqueue ob e).
Proof using. unfold enqueue. split_calls. Defined.
#[export] Instance split_attempted id t : Split (mark_attempted id t).
Proof using. unfold mark_attempted. split_calls. Defined.
#[export] Instance split_done id : Split (remove id).
Proof using. unfold remove. split_calls. Defined.
#[export] Instance split_enqueue_receipt ob r uuid now : Split (enqueue_receipt ob r uuid now).
Proof using. unfold enqueue_receipt. split_calls. Defined.
#[export] Instance split_send svc cid text now mu su : Split (send_text svc cid text now mu su).
Proof using. unfold send_text. split_calls. Defined.
#[export] Instance split_mark_read svc cid mid t1 t2 : Split (mark_read svc cid mid t1 t2).
Proof using. unfold mark_read. split_calls. Defined.
#[export] Instance split_emit svc cid mid ob t1 t2 t3 uuid :
  Split (mark_read_and_emit svc cid mid ob t1 t2 t3 uuid).
Proof using. unfold mark_read_and_emit. split_calls. Defined.
#[export] Instance split_process rcv b rd : Split (process_inbound_dm rcv b rd).
Proof using. unfold process_inbound_dm. split_calls. Defined.

#[export] Instance split_upsert svc e : Split (upsert svc e).
Proof using. unfold upsert. split_calls. Defined.
#[export] Instance split_inbox_read svc r : Split (inbox_mark_read svc r).
Proof using. unfold inbox_mark_read. split_calls. Defined.

#[export] Instance split_put_manifest g man : Split (put_manifest g man).
Proof using. unfold put_manifest. split_calls. Defined.
#[export] Instance split_group_op g op : Split (run_group_op g op).
Proof using.
  destruct op; unfold run_group_op, promote, demote, GroupOps.add_member, remove_member; split_calls.
Defined.
#[export] Instance split_create label founders uuid now : Split (create_group label founders uuid now).
Proof using. unfold create_group. split_calls. Defined.
#[export] Instance split_gsend g sender mach text uuid now :
  Split (send_message g sender mach text uuid now).
Proof using. unfold send_message. split_calls. Defined.
#[export] Instance split_greceive m : Split (receive_message m).
Proof using. unfold receive_message. split_calls. Defined.
#[export] Instance split_greceipt r : Split (group_process_receipt r).
Proof using. unfold group_process_receipt. split_calls. Defined.

#[export] Instance split_wrap {E A : Type} (ferr : E → SdkError) (fval : A → sdk_value) (m : io DB E A) :
    Split m → Split (wrap ferr fval m) := λ Sm,
  {| calls := prog_map (λ r, fval <$> map_err ferr r) (calls m);
     calls_alone db := alone_map (λ r, fval <$> map_err ferr r) _ m db calls_alone |}.

#[export] Instance split_sdk sdk op : Split (run_sdk sdk op).
Proof using. destruct op; unfold run_sdk; split_calls. Defined.
End splits.

(** ** A process with threads *)

Section threaded.
Context `{R : RocksDB} `{P : PostcardLib} `{B : Blake3} `{BK : Blake3Keyed} `{ZK : ZidKeys}.
Context `{!Postcard OutboxEntry, !Postcard Contact, !Postcard Conversation, !Postcard Message,
          !Postcard DmSectorPayload, !Postcard ReceiptPayload, !Postcard InboxEntry,
          !Postcard GroupManifest, !Postcard GroupMessage}.

(** What each thread runs, in the order in which they take their turns: a process that ends when
    the turns do, be it in the middle of an operation. *)
Definition threaded_session (key : NeuralKey) (s : list (list sdk_op) * list nat)
    : io Directory SdkError (list (list (result SdkError sdk_value))) := λ dir,
  match sdk_open dir key with
  | Ok (db, sdk) =>
      let (ts, db) := run_schedule s.2 (start (run_sdk sdk) <$> s.1) db in
      (directory db, Ok (th_said <$> ts))
  | Err e => (dir, Err e)
  end.

(** A single thread with enough turns is a process without threads. *)
Lemma threaded_alone key ops dir :
  ∃ n, threaded_session key ([ops], replicate n 0) dir =
    let (dir', r) := run_session key ops dir in (dir', (λ rs, [rs]) <$> r).
Proof using.
  unfold threaded_session, run_session. destruct (sdk_open dir key) as [[db sdk]|e]; [|by exists 0].
  pose proof (schedule_history (run_sdk sdk) ops [start (run_sdk sdk) ops] 0 [] db eq_refl) as H.
  destruct (Prelude.history (run_sdk sdk) ops db) as [db' rs]. destruct H as (n & Hn).
  exists n. cbn [fmap list_fmap fst snd]. by rewrite Hn.
Qed.
End threaded.
