(* ===== verification/Race.v ===== *)
(** * What threads can do to each other

    The operations look before they write, in separate calls of the database. Between the two
    another thread can have made what was seen untrue; this file states how far the outbox can
    so come to exceed its capacity, and runs the interleavings that cost something. *)

From Stdlib Require Import ZArith Lia Strings.Byte.
From stdpp Require Import base tactics gmap strings sorting numbers countable list.
From S2P Require Import Prelude Bytes Store Mem Aad Db Dedupe Outbox.
From S2P Require Import Contacts Net Dm Group GroupOps Inbox DmReceive NeuralKey Sdk Faults Restart.
From S2P Require Import Live Threads Concurrent.
#[local] Open Scope nat_scope.

(** ** The size of the outbox *)

Section permits.
Context `{F : RocksFaults} `{P : PostcardLib} `{B : Blake3} `{BK : Blake3Keyed} `{ZK : ZidKeys}.
Context `{!Postcard OutboxEntry, !Postcard Contact, !Postcard Conversation, !Postcard Message,
          !Postcard DmSectorPayload, !Postcard ReceiptPayload, !Postcard InboxEntry,
          !Postcard GroupManifest, !Postcard GroupMessage}.
Implicit Types (db : DB) (st : store) (b : bool).

Definition family_size st (cf : string) : nat := length (view st cf).
Definition outbox_size db : nat := family_size (contents db) CF_OUTBOX.

Lemma family_size_le st st' cf k :
  (∀ k', k' ∈ (view st' cf).*1 → k' = k ∨ k' ∈ (view st cf).*1) →
  family_size st' cf ≤ S (family_size st cf).
Proof using.
  intros Hsub. unfold family_size. rewrite <-(length_fmap fst), <-(length_fmap fst (view st cf)).
  change (length (view st' cf).*1 ≤ length (k :: (view st cf).*1)).
  apply submseteq_length, NoDup_submseteq; [apply view_keys|].
  intros k' Hk'. apply elem_of_cons. by apply Hsub.
Qed.

Lemma elem_of_view_key st cf k : k ∈ (view st cf).*1 ↔ is_Some (st !! (cf, k)).
Proof using.
  rewrite list_elem_of_fmap. split.
  - intros ([k' v] & -> & Hin%elem_of_view). by exists v.
  - intros [v Hv]. exists (k, v). split; [done|]. by apply elem_of_view.
Qed.

Lemma family_size_insert st cf k v : family_size (<[(cf, k) := v]> st) cf ≤ S (family_size st cf).
Proof using.
  apply (family_size_le _ _ _ k). intros k'. rewrite !elem_of_view_key.
  intros [x [[[= ->] _]|[_ ?]]%lookup_insert_Some]; [by left|right; by exists x].
Qed.

Lemma family_size_delete st cf p : family_size (delete p st) cf ≤ family_size st cf.
Proof using.
  unfold family_size. rewrite <-(length_fmap fst), <-(length_fmap fst (view st cf)).
  apply submseteq_length, NoDup_submseteq; [apply view_keys|]. intros k'.
  rewrite !elem_of_view_key. intros [x [_ ?]%lookup_delete_Some]. by exists x.
Qed.

Lemma family_size_other st cf cf' k v : cf' ≠ cf → family_size (<[(cf', k) := v]> st) cf = family_size st cf.
Proof using.
  intros Hne. unfold family_size. f_equal. apply view_ext. intros k'.
  rewrite lookup_insert_ne; [done|]. by intros [= ? ?].
Qed.

(** A count that succeeds is right. *)
Lemma count_size db n : opened db → count db = Ok n → n = outbox_size db.
Proof using F.
  intros Ho Hn. destruct (has_twin db Ho) as (db0 & Hg & Hc). pose proof (sound_count db db0 n (conj Hg Hc) Hn) as H.
  unfold outbox_size. rewrite <-Hc. revert H. unfold count. rewrite good_handle; [|done|cf_mem]. cbn.
  destruct Hg as [Hh Ho']. rewrite iterator_spec by (done || apply Ho'; cf_mem). cbn.
  rewrite (for_each_all _ (λ n _, S n)).
  - intros [= <-]. unfold family_size. generalize (view (contents db0) CF_OUTBOX). intros l.
    rewrite <-(Nat.add_0_l (length l)). generalize 0.
    induction l as [|x l IH]; intros m; cbn; [lia|]. rewrite IH. lia.
  - intros x m Hin. by apply list_elem_of_fmap in Hin as (kv & -> & _).
Qed.

(** ** Permits

    A thread that has found the outbox below its capacity may add one entry, which its permit
    stands for; no other call makes the outbox larger. [b] says whether the thread holds one. *)

Fixpoint budget {E A} (cap : nat) (Q : bool → A → Prop) b (p : prog E A) : Prop :=
  match p with
  | Done r => ∀ a, r = Ok a → Q b a
  | Access c k => ∀ db, opened db → opened (c db).1 ∧ ∃ b', budget cap Q b' (k (c db).2) ∧
      (outbox_size (c db).1 + Nat.b2n b' ≤ outbox_size db + Nat.b2n b ∨
       outbox_size (c db).1 ≤ outbox_size db < cap)
  end.

Lemma budget_bind {E A B' : Type} cap (p : prog E A) (f : A → prog E B') Q Q' b :
  budget cap Q b p → (∀ b' a, Q b' a → budget cap Q' b' (f a)) → budget cap Q' b (prog_bind p f).
Proof using.
  intros Hp Hf. revert b Hp. induction p as [[a|e]|X c k IH]; intros b Hp; cbn in *; [by auto|done|].
  intros db Ho. destruct (Hp db Ho) as (Ho' & b' & Hk & Hsize). split; [done|]. exists b'. auto.
Qed.

Lemma budget_map {E E' A B' : Type} cap (h : result E A → result E' B') (p : prog E A) Q Q' b :
  budget cap Q b p → (∀ b' r x, (∀ a, r = Ok a → Q b' a) → h r = Ok x → Q' b' x) →
  budget cap Q' b (prog_map h p).
Proof using.
  intros Hp Hh. revert b Hp. induction p as [r|X c k IH]; intros b Hp; cbn in *; [by eauto|].
  intros db Ho. destruct (Hp db Ho) as (Ho' & b' & Hk & Hsize). split; [done|]. exists b'. auto.
Qed.

(** An operation that lives within its means, whether it starts with a permit or not. *)
Definition frugal {E A} (cap : nat) (m : io DB E A) {Sm : Split m} : Prop :=
  ∀ b, budget cap (λ _ _, True) b (calls m).

Lemma frugal_bind {E A B' : Type} cap (m : io DB E A) (k : A → io DB E B') {Sm Sk} :
  frugal cap m → (∀ a, frugal cap (k a) (Sm := Sk a)) → frugal cap (m ≫= k) (Sm := split_bind m k Sm Sk).
Proof using. intros Hm Hk b. apply (budget_bind _ _ _ (λ _ _, True)); [apply Hm|]. intros b' a _. apply Hk. Qed.

Lemma frugal_map_err {E E' A : Type} cap (h : E → E') (m : io DB E A) {Sm} :
  frugal cap m → frugal cap (io_map_err h m) (Sm := split_map_err h m Sm).
Proof using. intros Hm b. by apply (budget_map _ _ _ (λ _ _, True)). Qed.

Lemma frugal_attempt {E A : Type} cap (m : io DB E A) {Sm} :
  frugal cap m → frugal cap (attempt m) (Sm := split_attempt m Sm).
Proof using. intros Hm b. by apply (budget_map _ _ _ (λ _ _, True)). Qed.

Lemma frugal_reads {E A : Type} cap (f : DB → result E A) : frugal cap (reads f).
Proof using. intros b db Ho. split; [done|]. exists b. split; [done|]. by left. Qed.

Lemma frugal_put cap cf k v : cf ≠ CF_OUTBOX → frugal cap (put_raw cf k v).
Proof using F.
  intros Hcf b db Ho. destruct (put_raw_fault cf k v db) as [Hop Hc]. split; [by apply Hop|].
  exists b. split; [done|]. left. unfold outbox_size.
  destruct Hc as [->| ->]; [by rewrite family_size_other|done].
Qed.

Lemma frugal_delete cap cf k : frugal cap (delete_raw cf k).
Proof using F.
  intros b db Ho. destruct (delete_raw_fault cf k db) as [Hop Hc]. split; [by apply Hop|].
  exists b. split; [done|]. left. unfold outbox_size.
  destruct Hc as [->| ->]; [|done]. pose proof (family_size_delete (contents db) CF_OUTBOX (cf, k)). lia.
Qed.

Lemma frugal_enqueue ob e : frugal (capacity ob) (enqueue ob e).
Proof using F.
  unfold enqueue, split_enqueue. cbv zeta. apply frugal_bind; [apply frugal_reads|].
  intros [x|] b; [done|]. apply (budget_bind _ _ _ (λ b n, n < capacity ob → b = true)).
  - intros db Ho. split; [done|]. cbn. destruct (count db) as [n|e'] eqn:Hn.
    + apply count_size in Hn as ->; [|done]. destruct (decide (outbox_size db < capacity ob)) as [Hlt|Hge].
      * exists true. split; [by intros ? [= <-]|]. right. lia.
      * exists b. split; [intros ? [= <-]; lia|]. by left.
    + exists b. split; [done|]. by left.
  - intros b' n Hb. destruct (Nat.leb_spec (capacity ob) n) as [Hle|Hlt]; [done|]. rewrite (Hb Hlt).
    apply (budget_bind _ _ _ (λ b _, b = true)); [by intros ? _|]. intros ? v ->.
    apply (budget_bind _ _ _ (λ _ _, True)); [|by intros ? ? _ ? _].
    intros db Ho. destruct (put_raw_fault CF_OUTBOX (SectorId_as_bytes (oe_sector_id e)) v db) as [Hop Hc].
    split; [by apply Hop|]. exists false. split; [by intros ? _|]. left. unfold outbox_size. cbn [Nat.b2n].
    destruct Hc as [->| ->]; [|lia].
    pose proof (family_size_insert (contents db) CF_OUTBOX (SectorId_as_bytes (oe_sector_id e)) v). lia.
Qed.

Ltac walk_frugal :=
  repeat lazymatch goal with
    | |- frugal _ (_ ≫= _) => apply frugal_bind; [|intros ?]
    | |- frugal _ (mret _) => by intros ? ? _
    | |- frugal _ (lift _) => by intros ? ? _
    | |- frugal _ (fails _) => by intros ? ? _
    | |- frugal _ (reads _) => apply frugal_reads
    | |- frugal _ (delete_raw _ _) => apply frugal_delete
    | |- frugal _ (put_raw _ _ _) => by apply frugal_put
    | |- frugal _ (enqueue Outbox_new _) => apply (frugal_enqueue Outbox_new)
    | |- frugal _ (io_map_err _ _) => apply frugal_map_err
    | |- frugal _ (attempt _) => apply frugal_attempt
    | |- frugal _ (match ?x with _ => _ end) => destruct x
    | |- frugal _ (let _ := _ in _) => cbv zeta
    end.

Local Abbreviation cap := DEFAULT_OUTBOX_CAPACITY.

Lemma frugal_store m : frugal cap (store_message m).
Proof using F. unfold store_message, split_store. walk_frugal. Qed.
Lemma frugal_open svc peer : frugal cap (open_conversation svc peer).
Proof using F. unfold open_conversation, split_open. walk_frugal. Qed.
Lemma frugal_update c m s now : frugal cap (update_status c m s now).
Proof using F. unfold update_status, split_update. walk_frugal. apply frugal_store. Qed.
Lemma frugal_enqueue_receipt r uuid now : frugal cap (enqueue_receipt Outbox_new r uuid now).
Proof using F. unfold enqueue_receipt, split_enqueue_receipt. walk_frugal. Qed.
Lemma frugal_send svc cid text now mu su : frugal cap (send_text svc cid text now mu su).
Proof using F.
  unfold send_text, split_send, save_conversation, split_save. walk_frugal. apply frugal_store.
Qed.
Lemma frugal_emit svc cid mid t1 t2 t3 uuid :
  frugal cap (mark_read_and_emit svc cid mid Outbox_new t1 t2 t3 uuid).
Proof using F.
  unfold mark_read_and_emit, split_emit, mark_read, split_mark_read. walk_frugal;
    [apply frugal_update|apply frugal_enqueue_receipt].
Qed.
Lemma frugal_process rcv bs rd : frugal cap (process_inbound_dm rcv bs rd).
Proof using F.
  unfold process_inbound_dm, split_process. walk_frugal;
    first [apply frugal_open|apply frugal_store|apply frugal_enqueue_receipt].
Qed.
Lemma frugal_put_manifest g man : frugal cap (put_manifest g man).
Proof using F. unfold put_manifest, split_put_manifest. walk_frugal. Qed.
Lemma frugal_group_op g op : frugal cap (run_group_op g op).
Proof using F.
  destruct op; unfold run_group_op, promote, demote, GroupOps.add_member, remove_member, split_group_op;
    walk_frugal; apply frugal_put_manifest.
Qed.

Lemma frugal_wrap {E A : Type} (ferr : E → SdkError) (fval : A → sdk_value) (m : io DB E A) {Sm} :
  frugal cap m → frugal cap (wrap ferr fval m) (Sm := split_wrap ferr fval m Sm).
Proof using. intros Hm b. by apply (budget_map _ _ _ (λ _ _, True)). Qed.

Definition reschedules (op : sdk_op) : bool := match op with OutboxRetried _ _ => true | _ => false end.

Lemma frugal_sdk sdk op : reschedules op = false → frugal cap (run_sdk sdk op).
Proof using F.
  destruct op; intros Hop; try done; cbn [run_sdk split_sdk]; apply frugal_wrap;
    auto using frugal_open, frugal_send, frugal_process, frugal_update, frugal_emit, frugal_group_op;
    unfold add_contact, split_add, remove_contact, split_remove_contact, remove, split_done,
      upsert, split_upsert, inbox_mark_read, split_inbox_read, create_group, split_create,
      send_message, split_gsend, receive_message, split_greceive, group_process_receipt,
      split_greceipt; walk_frugal.
Qed.

(** ** Threads with permits *)

Definition allows {E A} (t : thread E A) b : Prop :=
  match th_todo t with
  | [] => True
  | p :: rest => budget cap (λ _ _, True) b p ∧ Forall (λ q, ∀ b, budget cap (λ _ _, True) b q) rest
  end.

Definition permits (bs : list bool) : nat := sum_list (Nat.b2n <$> bs).

Lemma permits_le bs : permits bs ≤ length bs.
Proof using. unfold permits. induction bs as [|[] bs IH]; cbn; lia. Qed.

Lemma permits_insert bs i b b' : bs !! i = Some b →
  permits (<[i := b']> bs) + Nat.b2n b = permits bs + Nat.b2n b'.
Proof using.
  unfold permits. revert i. induction bs as [|c bs IH]; intros [|i] Hi; try done; cbn in *.
  - injection Hi as ->. lia.
  - rewrite <-!Nat.add_assoc. f_equal. by apply IH.
Qed.

(** The entries there are and those that are allowed. *)
Definition within {E A} (M : nat) (ts : list (thread E A)) db : Prop :=
  opened db ∧ ∃ bs, Forall2 allows ts bs ∧ outbox_size db + permits bs ≤ M.

Lemma turn_within {E A : Type} M (ts : list (thread E A)) i t db :
  cap - 1 + length ts ≤ M → within M ts db → ts !! i = Some t →
  let (t', db') := turn t db in within M (<[i := t']> ts) db'.
Proof using.
  intros HM (Ho & bs & Hts & Hsize) Hi.
  destruct (Forall2_lookup_l _ _ _ _ _ Hts Hi) as (b & Hb & Ht).
  pose proof (Forall2_length _ _ _ Hts) as Hlen.
  assert (∀ t' db' b', opened db' → allows t' b' →
    outbox_size db' + Nat.b2n b' ≤ outbox_size db + Nat.b2n b ∨ outbox_size db' ≤ outbox_size db < cap →
    within M (<[i := t']> ts) db') as Hnext.
  { intros t' db' b' Ho' Ht' Hs. split; [done|]. exists (<[i := b']> bs).
    split; [by apply Forall2_insert|]. pose proof (permits_insert bs i b b' Hb).
    pose proof (permits_le (<[i := b']> bs)) as Hle. rewrite length_insert in Hle.
    destruct Hs; lia. }
  destruct t as [[|[r|X c k] rest] said]; cbn [turn th_todo] in *.
  - by apply (Hnext _ _ b); [..|left].
  - apply (Hnext _ _ b); [done| |by left]. destruct Ht as [_ Hrest].
    unfold allows. cbn. destruct Hrest; [done|]. by split.
  - destruct Ht as [Hp Hrest]. destruct (Hp db Ho) as (Ho' & b' & Hk & Hs).
    destruct (c db) as [db' x]. cbn [fst snd] in *. by apply (Hnext _ _ b').
Qed.

(** C11: threads overrun the outbox by less than their number. However many threads run operations
    of the facade, in whatever order their calls of the database fall and whichever of them fail,
    the outbox never holds more entries than at the start, or than its capacity and the threads
    but one, whichever is more: every thread may have found room before the others took it.
    (Rescheduling an entry is left out: it writes back what another thread may have removed.) *)
Theorem outbox_overrun sdk threads turns db :
  opened db → Forall (Forall (λ op, reschedules op = false)) threads →
  outbox_size (run_schedule turns (start (run_sdk sdk) <$> threads) db).2 ≤
    outbox_size db `max` (DEFAULT_OUTBOX_CAPACITY - 1 + length threads).
Proof using F.
  intros Ho Hops. set (M := outbox_size db `max` _).
  set (ts := start (run_sdk sdk) <$> threads).
  assert (within M ts db) as Hstart.
  { split; [done|]. exists (replicate (length threads) false). split.
    - unfold ts. apply Forall2_fmap_l. clear -F Hops. induction Hops as [|ops threads Hop _ IH]; constructor; [|done].
      unfold allows. cbn. destruct Hop as [|op ops Hop Hops]; cbn; [done|]. split; [by apply frugal_sdk|].
      apply Forall_fmap. eapply Forall_impl; [exact Hops|]. intros op'. apply frugal_sdk.
    - assert (permits (replicate (length threads) false) = 0) as ->
        by (unfold permits; induction threads; cbn; auto; inversion Hops; auto).
      unfold M. lia. }
  enough (let (ts', db') := run_schedule turns ts db in length ts' = length ts ∧ within M ts' db') as H.
  { revert H. destruct (run_schedule turns ts db) as [ts' db']. cbn. intros (_ & _ & bs & _ & ?). lia. }
  apply (run_schedule_inv (λ ts' db, length ts' = length ts ∧ within M ts' db)); [|done].
  intros ts1 i t db1 [Hlen Hw] Hi.
  pose proof (turn_within M ts1 i t db1) as Hturn. destruct (turn t db1) as [t' db'].
  rewrite length_insert. split; [done|]. apply Hturn; [|done..].
  rewrite Hlen. unfold ts, M. rewrite length_fmap. lia.
Qed.
End permits.

(** ** Interleavings that cost something *)

#[local] Existing Instances mem_contact mem_contact_ok mem_outbox mem_outbox_ok mem_message
  mem_message_ok mem_conversation mem_conversation_ok mem_dm_payload mem_dm_payload_ok
  mem_receipt mem_receipt_ok mem_inbox mem_inbox_ok mem_manifest mem_manifest_ok mem_gmessage
  mem_gmessage_ok.

(** The answers of threads that each run one operation, and the database they leave. *)
Definition one_each (ops : list sdk_op) (turns : list nat) (db : @DB mem_rocks) : list bool * @DB mem_rocks :=
  let (ts, db) := run_schedule turns (start (run_sdk alice_sdk) <$> ((λ op, [op]) <$> ops)) db in
  (is_ok <$> concat (th_said <$> ts), db).

(** Each looks before either writes. *)
Definition crossed : list nat := [0; 1; 1; 0; 1; 0; 0; 0; 1; 1].

Definition new_entry (n : byte) : OutboxEntry :=
  mkOutboxEntry (mkSectorId (arr_fill 16 n)) [] (umk 8 0) (umk 64 0) (umk 64 0).

#[local] Instance split_run_op ob op : Split (run_op (P := mem_postcard_lib) (R := mem_rocks) ob op).
Proof. destruct op; unfold run_op; split_calls. Defined.

Definition status_of (db : @DB mem_rocks) (c m : byte) : option MessageStatus :=
  match get_message db (conv_id c) (message_id m) with Ok (Some msg) => Some (msg_status msg) | _ => None end.
Definition full_outbox : list (thread StorageError ()) * @DB mem_rocks :=
  run_schedule crossed (start (run_op (Outbox_with_capacity 1)) <$>
    [[OpEnqueue (new_entry Byte.x01)]; [OpEnqueue (new_entry Byte.x02)]]) reopened.

(** Two threads bring an outbox with room for one entry to two. *)
Lemma outbox_race :
  is_ok <$> concat (th_said <$> full_outbox.1) = [true; true] ∧ outbox_size full_outbox.2 = 2.
Proof. split; vm_compute; reflexivity. Qed.

(** A message that is marked read while its delivery is recorded ends as Delivered, and both
    callers are told that they have succeeded: a status goes back. *)
Lemma status_race :
  let set s := SetStatus (conv_id Byte.x07) (message_id Byte.x01) s (umk 64 9) in
  let (answered, db) := one_each [set Delivered; set Read] crossed (run_sdk alice_sdk (set Sent) dm_db).1 in
  answered = [true; true] ∧ status_of db Byte.x07 Byte.x01 = Some Delivered.
Proof. vm_compute. split; reflexivity. Qed.

(** Two upserts of a conversation leave it twice in the inbox. *)
Lemma inbox_race :
  let (answered, db) := one_each [InboxUpsert (chat Byte.x07 9 1); InboxUpsert (chat Byte.x07 8 1)]
    crossed chat_db in
  answered = [true; true] ∧
  match list_inbox box_svc db None with
  | Ok l => ie_conversation_id <$> l = [conv_id Byte.x07; conv_id Byte.x07]
  | Err _ => False
  end.
Proof. vm_compute. split; reflexivity. Qed.

(** An entry whose attempt is being recorded while it is removed is there again. *)
Lemma removal_race :
  let id := mkSectorId (arr_fill 16 Byte.x01) in
  let db := (enqueue (R := mem_rocks) (Outbox_with_capacity 1) (new_entry Byte.x01) reopened).1 in
  let (answered, db) := one_each [OutboxRetried id (umk 64 7); OutboxDone id] [0; 1; 1; 0; 0] db in
  answered = [true; true] ∧ outbox_size db = 1.
Proof. vm_compute. split; reflexivity. Qed.

(** ** Witness *)

Definition many_threads : list (list sdk_op) := [sdk_sample_ops; sdk_sample_ops; sdk_sample_ops].

Definition three_threads_db : @DB Flaky.flaky_rocks :=
  (run_schedule (concat (replicate 30 [0; 1; 2]))
    (start (run_sdk (R := Flaky.flaky_rocks) alice_sdk) <$> many_threads) Flaky.third_fails).2.

Lemma outbox_overrun_witness :
  let size := outbox_size (ROk := Flaky.flaky_rocks_ok) three_threads_db in size = 1 ∧ size ≤ 1002.
Proof.
  split; [vm_compute; reflexivity|].
  apply (outbox_overrun (F := Flaky.flaky_faults) alice_sdk many_threads _ Flaky.third_fails).
  - intros cf Hcf. by apply bool_decide_eq_true.
  - repeat constructor.
Defined.
