(* ===== verification/Typed.v ===== *)
(** * What the column families hold

    The type of a stored entry: which keys a family has, what value belongs to each, and what
    every such value satisfies. All operations of the facade keep it with each of their calls of
    the database ([Concurrent]), which may fail ([Faults]). *)

From Stdlib Require Import ZArith Lia.
From stdpp Require Import base tactics gmap strings sorting numbers countable list.
From S2P Require Import Prelude Bytes Store Mem Aad Db Dedupe Outbox.
From S2P Require Import Contacts Net Dm Group GroupOps Inbox DmReceive NeuralKey Sdk Faults Restart.
From S2P Require Import Threads Concurrent.
#[local] Open Scope nat_scope.

Section typed.
Context `{F : RocksFaults} `{P : PostcardLib} `{B : Blake3} `{BK : Blake3Keyed} `{ZK : ZidKeys}.
Context `{!Postcard Contact, !PostcardOk Contact, !Postcard OutboxEntry, !PostcardOk OutboxEntry,
          !Postcard Conversation, !PostcardOk Conversation, !Postcard Message,
          !PostcardOk Message, !Postcard DmSectorPayload, !PostcardOk DmSectorPayload,
          !Postcard ReceiptPayload, !PostcardOk ReceiptPayload, !Postcard InboxEntry,
          !PostcardOk InboxEntry, !Postcard GroupManifest, !PostcardOk GroupManifest,
          !Postcard GroupMessage, !PostcardOk GroupMessage}.
Implicit Types (db : DB) (st : store).

(** A manifest as the handlers write it. *)
Definition manifest_ok (g : GroupId) (man : GroupManifest) : Prop :=
  man_group_id man = g ∧ str_len (man_name man) ≤ 64 ∧
  StronglySorted (cmp_le member_cmp) (man_members man).

(** What the outbox carries: a message or a receipt. *)
Definition carries (payload : bytes) : Prop :=
  (∃ p : DmSectorPayload, payload = enc p) ∨
  (∃ r : ReceiptPayload, payload = enc r ∧ is_valid_receipt_status (rp_status r) = true).

Definition contact_typed (k v : bytes) : Prop := ∃ o c,
  k = contact_key o (contact_identity_id c) ∧ v = enc c ∧ str_len (contact_label c) ≤ 64.
Definition chain_typed (k v : bytes) : Prop :=
  (∃ c : Conversation, k = storage_key (conv_conversation_id c) ∧ v = enc c) ∨
  (∃ m : Message, k = make_msg_key (msg_conversation_id m) (msg_id m) ∧ v = enc m).
Definition outbox_typed (k v : bytes) : Prop := ∃ e,
  k = SectorId_as_bytes (oe_sector_id e) ∧ v = enc e ∧ carries (oe_payload e).
Definition inbox_typed (k v : bytes) : Prop := ∃ i m e,
  k = encode_key i m (ie_last_ts e) (ie_conversation_id e) ∧ v = enc e.
Definition group_typed (k v : bytes) : Prop :=
  (∃ g man, k = group_key g ∧ v = enc man ∧ manifest_ok g man) ∨
  (∃ m : GroupMessage, k = group_msg_key (gmsg_group_id m) (gmsg_id m) ∧ v = enc m).

Definition entry_typed (cf : string) (k v : bytes) : Prop :=
  (cf = CF_CONTACTS ∧ contact_typed k v) ∨ (cf = CF_CHAINS ∧ chain_typed k v) ∨
  (cf = CF_OUTBOX ∧ outbox_typed k v) ∨ (cf = CF_INBOX_INDEX ∧ inbox_typed k v) ∨
  (cf = CF_GROUPS ∧ group_typed k v).

Definition typed st : Prop := ∀ cf k v, st !! (cf, k) = Some v → entry_typed cf k v.

Lemma typed_insert st cf k v : typed st → entry_typed cf k v → typed (<[(cf, k) := v]> st).
Proof using. intros Ht He cf' k' v' [[[= <- <-] <-]|[_ ?]]%lookup_insert_Some; [done|by apply Ht]. Qed.

Lemma typed_delete st p : typed st → typed (delete p st).
Proof using. intros Ht cf k v [_ ?]%lookup_delete_Some. by apply Ht. Qed.

(** ** Operations keep it *)

(** Each call of [m] on a typed database leaves a typed one, whatever typed one the calls of
    others have made of it in between, and its value satisfies [Q]. *)
Definition keeps {E A} (m : io DB E A) {Sm : Split m} (Q : A → Prop) : Prop :=
  safe (λ db, typed (contents db)) Q (calls m).

Lemma keeps_ret {E A : Type} (a : A) (Q : A → Prop) : Q a → keeps (mret a : io DB E A) Q.
Proof using. intros HQ. unfold keeps. cbn. by intros ? [= <-]. Qed.
Lemma keeps_fails {E A : Type} (e : E) (Q : A → Prop) : keeps (fails e : io DB E A) Q.
Proof using. unfold keeps. by cbn. Qed.
Lemma keeps_lift {E A : Type} (r : result E A) (Q : A → Prop) :
  (∀ a, r = Ok a → Q a) → keeps (lift r) Q.
Proof using. done. Qed.
Lemma keeps_reads {E A : Type} (f : DB → result E A) (Q : A → Prop) :
  (∀ db a, typed (contents db) → f db = Ok a → Q a) → keeps (reads f) Q.
Proof using. intros HQ db Ht. split; [done|]. intros a. by apply HQ. Qed.

Lemma keeps_bind {E A B' : Type} (m : io DB E A) (k : A → io DB E B') {Sm Sk} Q Q' :
  keeps m Q → (∀ a, Q a → keeps (k a) (Sm := Sk a) Q') → keeps (m ≫= k) (Sm := split_bind m k Sm Sk) Q'.
Proof using. intros Hm Hk. by apply (safe_bind _ _ _ Q). Qed.

Lemma keeps_map_err {E E' A : Type} (h : E → E') (m : io DB E A) {Sm} Q :
  keeps m Q → keeps (io_map_err h m) (Sm := split_map_err h m Sm) Q.
Proof using.
  intros Hm. apply (safe_map _ _ _ Q); [done|]. intros [a|e] b HQ; [|done]. intros [= <-]. by apply HQ.
Qed.

Lemma keeps_attempt {E A : Type} (m : io DB E A) {Sm} Q :
  keeps m Q → keeps (attempt m) (Sm := split_attempt m Sm) (λ _, True).
Proof using. intros Hm. by apply (safe_map _ _ _ Q). Qed.

Lemma keeps_put cf k v : entry_typed cf k v → keeps (put_raw cf k v) (λ _, True).
Proof using F.
  intros He db Ht. split; [|done]. destruct (put_raw_fault cf k v db) as [_ [->| ->]]; [|done].
  by apply typed_insert.
Qed.

Lemma keeps_delete cf k : keeps (delete_raw cf k) (λ _, True).
Proof using F.
  intros db Ht. split; [|done]. destruct (delete_raw_fault cf k db) as [_ [->| ->]]; [|done].
  by apply typed_delete.
Qed.

Lemma keeps_lift_then {E A B' : Type} (r : result E A) (k : A → io DB E B') {Sk} Q' :
  (∀ a, r = Ok a → keeps (k a) (Sm := Sk a) Q') →
  keeps (lift r ≫= k) (Sm := split_bind (lift r) k (split_lift r) Sk) Q'.
Proof using. intros Hk. apply (keeps_bind _ _ (λ a, r = Ok a)); [by apply keeps_lift|done]. Qed.

Lemma keeps_any {E A : Type} (f : DB → result E A) : keeps (reads f) (λ _, True).
Proof using. by apply keeps_reads. Qed.

(** The bytes an encoder gives are the encoding. *)
Lemma encoded_is {E V : Type} `{!Postcard V, !PostcardOk V} (fe : postcard_error → E) (v : V) b :
  map_err fe (to_vec v) = Ok b → b = enc v.
Proof using. rewrite to_vec_enc. by intros [= <-]. Qed.

(** What a raw read of a typed database gives. *)
Lemma get_raw_typed db cf k b :
  typed (contents db) → get_raw db cf k = Ok (Some b) → entry_typed cf k b.
Proof using F.
  unfold get_raw, cf_handle. intros Ht. destruct (DB_cf_handle db cf); [|done]. cbn.
  destruct (DB_get_cf db cf k) as [o|] eqn:Ho; [|done]. cbn. intros [= ->].
  apply Ht. by rewrite <-(get_fault db cf k _ Ho).
Qed.

Ltac walk_keeps :=
  repeat lazymatch goal with
    | |- keeps (lift _ ≫= _) _ => apply keeps_lift_then; intros ? ?
    | |- keeps (_ ≫= _) _ => apply (keeps_bind _ _ (λ _, True)); [|intros ? _]
    | |- keeps (mret _) _ => apply keeps_ret; exact I
    | |- keeps (fails _) _ => apply keeps_fails
    | |- keeps (reads _) _ => apply keeps_any
    | |- keeps (delete_raw _ _) _ => apply keeps_delete
    | |- keeps (io_map_err _ _) _ => apply keeps_map_err
    | |- keeps (match ?x with _ => _ end) _ => destruct x
    | |- keeps (let _ := _ in _) _ => cbv zeta
    end.
(** A write of an encoded value, at the end of such a walk. *)
Ltac put_typed :=
  apply keeps_put;
  repeat match goal with H : map_err _ (to_vec _) = Ok _ |- _ => apply encoded_is in H as -> end.

Lemma keeps_add cs c : keeps (add_contact cs c) (λ _, True).
Proof using F PostcardOk0.
  unfold add_contact, split_add. destruct (Nat.ltb_spec 64 (str_len (contact_label c))); walk_keeps.
  put_typed. left. split; [done|]. by exists (owner cs), c.
Qed.

Lemma keeps_remove_contact cs id : keeps (remove_contact cs id) (λ _, True).
Proof using F. unfold remove_contact, split_remove_contact. walk_keeps. Qed.

Lemma keeps_open svc peer : keeps (open_conversation svc peer) (λ _, True).
Proof using F PostcardOk2.
  unfold open_conversation, split_open. walk_keeps; [by apply keeps_lift|].
  put_typed. right; left. split; [done|]. left. eexists. by split; [|reflexivity].
Qed.

Lemma keeps_store m : keeps (store_message m) (λ _, True).
Proof using F PostcardOk3.
  unfold store_message, split_store. walk_keeps. put_typed. right; left. split; [done|]. right. eexists. by split; [|reflexivity].
Qed.

Lemma keeps_save v : keeps (save_conversation v) (λ _, True).
Proof using F PostcardOk2.
  unfold save_conversation, split_save. walk_keeps. put_typed. right; left. split; [done|]. left. eexists. by split; [|reflexivity].
Qed.

Lemma keeps_update c m s now : keeps (update_status c m s now) (λ _, True).
Proof using F PostcardOk3. unfold update_status, split_update. walk_keeps. apply keeps_store. Qed.

Lemma keeps_enqueue ob e : carries (oe_payload e) → keeps (enqueue ob e) (λ _, True).
Proof using F PostcardOk1.
  intros He. unfold enqueue, split_enqueue. walk_keeps. put_typed. right; right; left. split; [done|]. by exists e.
Qed.

Lemma keeps_attempted id t : keeps (mark_attempted id t) (λ _, True).
Proof using F PostcardOk1.
  unfold mark_attempted, split_attempted. cbv zeta.
  apply (keeps_bind _ _ (λ o, ∀ b, o = Some b → entry_typed CF_OUTBOX (SectorId_as_bytes id) b)).
  { apply keeps_reads. intros db o Ht Ho b ->. by eapply get_raw_typed. }
  intros o Ho. apply keeps_lift_then. intros raw Hraw. destruct o as [b|]; [|done]. injection Hraw as ->.
  destruct (Ho raw eq_refl) as [[? _]|[[? _]|[[_ (e & Hk & -> & Hc)]|[[? _]|[? _]]]]]; try done.
  rewrite from_bytes_enc. apply keeps_lift_then. intros e' [= <-]. walk_keeps. put_typed.
  right; right; left. split; [done|]. eexists. split; [|by split]. exact Hk.
Qed.

Lemma keeps_done id : keeps (remove id) (λ _, True).
Proof using F. unfold remove, split_done. walk_keeps. Qed.

Lemma keeps_enqueue_receipt ob r uuid now :
  is_valid_receipt_status (rp_status r) = true → keeps (enqueue_receipt ob r uuid now) (λ _, True).
Proof using F PostcardOk1 PostcardOk5.
  intros Hr. unfold enqueue_receipt, split_enqueue_receipt. apply keeps_lift_then. intros b Hb%encoded_is. cbv zeta.
  apply (keeps_bind _ _ (λ _, True)); [|intros; by apply keeps_ret].
  apply keeps_map_err, keeps_enqueue. right. by exists r.
Qed.

Lemma keeps_send svc cid text now mu su : keeps (send_text svc cid text now mu su) (λ _, True).
Proof using F PostcardOk1 PostcardOk2 PostcardOk3 PostcardOk4.
  unfold send_text, split_send. walk_keeps; [apply keeps_store| |apply keeps_save].
  apply keeps_enqueue. left. eexists. by eapply encoded_is.
Qed.

Lemma keeps_emit svc cid mid ob t1 t2 t3 uuid :
  keeps (mark_read_and_emit svc cid mid ob t1 t2 t3 uuid) (λ _, True).
Proof using F PostcardOk1 PostcardOk3 PostcardOk5.
  unfold mark_read_and_emit, split_emit. apply (keeps_bind _ _ (λ r, rp_status r = Read)).
  - unfold mark_read, split_mark_read. apply (keeps_bind _ _ (λ _, True)); [apply keeps_update|].
    intros _ _. by apply keeps_ret.
  - intros r Hr. apply (keeps_bind _ _ (λ _, True)); [|intros; by apply keeps_ret].
    apply keeps_enqueue_receipt. by rewrite Hr.
Qed.

Lemma keeps_process rcv b rd : keeps (process_inbound_dm rcv b rd) (λ _, True).
Proof using F PostcardOk1 PostcardOk2 PostcardOk3 PostcardOk5.
  unfold process_inbound_dm, split_process. apply keeps_lift_then. intros p _. cbv zeta.
  apply (keeps_bind _ _ (λ _, True)); [eapply keeps_attempt, keeps_open|]. intros o _.
  assert (keeps (store_message (inbound_message p (rd_now rd));;
    enqueue_receipt Outbox_new (delivered_receipt rcv p rd) (rd_sector rd) (rd_enqueue rd);;
    mret (dsp_message_id p)) (λ _, True)) as Hrest.
  { apply (keeps_bind _ _ (λ _, True)); [apply keeps_store|]. intros _ _.
    apply (keeps_bind _ _ (λ _, True)); [by apply keeps_enqueue_receipt|]. intros; by apply keeps_ret. }
  destruct o as [v|[]]; try exact Hrest. apply keeps_fails.
Qed.

Lemma keeps_upsert svc e : keeps (upsert svc e) (λ _, True).
Proof using F PostcardOk6.
  unfold upsert, split_upsert. walk_keeps. all: put_typed; right; right; right; left; (split; [done|]);
    by exists (is_identity_id svc), (is_machine_id svc), e.
Qed.

Lemma keeps_inbox_read svc r : keeps (inbox_mark_read svc r) (λ _, True).
Proof using F PostcardOk6.
  unfold inbox_mark_read, split_inbox_read. walk_keeps. put_typed. right; right; right; left. split; [done|].
  eexists (is_identity_id svc), (is_machine_id svc), _. by split; [|reflexivity].
Qed.

(** *** Groups *)

Lemma group_entry k v cf : entry_typed cf k v → cf = CF_GROUPS → group_typed k v.
Proof using. by intros [[-> ?]|[[-> ?]|[[-> ?]|[[-> ?]|[_ ?]]]]] Hcf. Qed.

Lemma manifest_entry g v : group_typed (group_key g) v → ∃ man, v = enc man ∧ manifest_ok g man.
Proof using.
  intros [(g' & man & Hk & -> & Hok)|(m & Hk & _)].
  - apply (inj arr_bytes) in Hk. destruct g, g'; cbn in Hk; subst. by exists man.
  - pose proof (group_key_not_gmsg g) as Hn. rewrite Hk in Hn.
    pose proof (gmsg_fam_key (gmsg_group_id m, gmsg_id m)) as Hy. unfold gmsg_key in Hy.
    cbn [fst snd] in Hy. congruence.
Qed.

Lemma message_entry g m v : group_typed (group_msg_key g m) v →
  ∃ msg : GroupMessage, v = enc msg ∧ gmsg_group_id msg = g ∧ gmsg_id msg = m.
Proof using.
  intros [(g' & man & Hk & _)|(msg & Hk & ->)].
  - pose proof (group_key_not_gmsg g') as Hn. rewrite <-Hk in Hn.
    pose proof (gmsg_fam_key (g, m)) as Hy. unfold gmsg_key in Hy. cbn [fst snd] in Hy. congruence.
  - apply (inj gmsg_key (g, m) (gmsg_group_id msg, gmsg_id msg)) in Hk. injection Hk as -> ->.
    by exists msg.
Qed.

Lemma keeps_get_manifest g : keeps (reads (λ db, get_manifest db g)) (manifest_ok g).
Proof using F PostcardOk7.
  apply keeps_reads. intros db man Ht. unfold get_manifest.
  destruct (get_raw db CF_GROUPS (group_key g)) as [[b|]|] eqn:Hraw; [|done|done]. cbn.
  pose proof (get_raw_typed _ _ _ _ Ht Hraw) as He%group_entry; [|done].
  apply manifest_entry in He as (man' & -> & Hok). unfold decode_manifest. rewrite from_bytes_enc.
  by intros [= <-].
Qed.

Lemma keeps_put_manifest g man :
  man_group_id man = g → str_len (man_name man) ≤ 64 → keeps (put_manifest g man) (λ _, True).
Proof using F PostcardOk7.
  intros <- Hn. unfold put_manifest, split_put_manifest, encode_manifest. walk_keeps. put_typed.
  right; right; right; right. split; [done|]. left. eexists _, _. split_and!; [done|done|].
  split_and!; [done|done|]. apply sort_by_sorted, _.
Qed.

Lemma keeps_group_op g op : keeps (run_group_op g op) (λ _, True).
Proof using F PostcardOk7.
  destruct op; unfold run_group_op, promote, demote, add_member, remove_member, split_group_op;
    (eapply keeps_bind; [apply keeps_get_manifest|]); intros man (Hid & Hn & _); walk_keeps;
    by apply keeps_put_manifest.
Qed.

Lemma keeps_create label founders uuid now : keeps (create_group label founders uuid now) (λ _, True).
Proof using F PostcardOk7.
  unfold create_group, split_create, encode_manifest. destruct (Nat.ltb_spec 64 (str_len label)); walk_keeps. put_typed.
  right; right; right; right. split; [done|]. left. eexists _, _. split_and!; [done|done|].
  split_and!; [done|done|]. apply sort_by_sorted, _.
Qed.

Lemma group_message_typed (m : GroupMessage) :
  entry_typed CF_GROUPS (group_msg_key (gmsg_group_id m) (gmsg_id m)) (enc m).
Proof using. right; right; right; right. split; [done|]. right. by exists m. Qed.

Lemma keeps_gsend g sender mach text uuid now :
  keeps (send_message g sender mach text uuid now) (λ _, True).
Proof using F PostcardOk8.
  unfold send_message, split_gsend. walk_keeps. put_typed.
  exact (group_message_typed (mkGroupMessage (mkGroupMessageId uuid) g sender mach text _ now GSent)).
Qed.

Lemma keeps_greceive m : keeps (receive_message m) (λ _, True).
Proof using F PostcardOk8. unfold receive_message, split_greceive. walk_keeps. put_typed. apply group_message_typed. Qed.

Lemma keeps_greceipt r : keeps (group_process_receipt r) (λ _, True).
Proof using F PostcardOk8.
  unfold group_process_receipt, split_greceipt. cbv zeta.
  set (k := group_msg_key (grp_group_id r) (grp_message_id r)).
  apply (keeps_bind _ _ (λ o, ∀ b, o = Some b → group_typed k b)).
  { apply keeps_reads. intros db o Ht Ho b ->. destruct (get_raw db CF_GROUPS k) as [o|] eqn:Hraw; [|done].
    injection Ho as ->. pose proof (get_raw_typed _ _ _ _ Ht Hraw) as He. by apply group_entry in He. }
  intros [b|] Hb; [|by apply keeps_ret]. destruct (message_entry _ _ b (Hb b eq_refl)) as (m & -> & Hg & Hm).
  rewrite from_bytes_enc. apply keeps_lift_then. intros m' [= <-]. walk_keeps. put_typed.
  unfold k. rewrite <-Hg, <-Hm. exact (group_message_typed (mkGroupMessage _ _ _ _ _ _ _ _)).
Qed.

Lemma keeps_wrap {E A : Type} (ferr : E → SdkError) (fval : A → sdk_value) (m : io DB E A) {Sm} Q :
  keeps m Q → keeps (wrap ferr fval m) (Sm := split_wrap ferr fval m Sm) (λ _, True).
Proof using. intros Hm. by apply (safe_map _ _ _ Q). Qed.

Lemma keeps_sdk sdk op : keeps (run_sdk sdk op) (λ _, True).
Proof using All.
  destruct op; cbn [run_sdk split_sdk]; eapply keeps_wrap;
    eauto using keeps_add, keeps_remove_contact, keeps_open, keeps_send, keeps_process, keeps_update,
      keeps_emit, keeps_attempted, keeps_done, keeps_upsert, keeps_inbox_read, keeps_create,
      keeps_group_op, keeps_gsend, keeps_greceive, keeps_greceipt.
Qed.

(** What opens the directory finds typed families. *)
Definition typed_dir (dir : Directory) : Prop :=
  ∀ db, DB_open_cf_descriptors dir ALL_CFS = Ok db → typed (contents db).

Lemma keeps_session key s dir : typed_dir dir → typed_dir (threaded_session key s dir).1.
Proof using All.
  intros Ht. unfold threaded_session. rewrite sdk_open_facade.
  destruct (DB_open_cf_descriptors dir ALL_CFS) as [db|e] eqn:Ho; [|done].
  pose proof (schedule_safe (λ db, typed (contents db)) s.2
    (start (run_sdk (facade key)) <$> s.1) db) as H.
  destruct (run_schedule s.2 _ db) as [ts db1]. cbn [fst snd] in *. intros db2 Ho2.
  rewrite (open_durable db1 _ db2 Ho2). apply H; [|by apply Ht].
  apply Forall_fmap, Forall_forall. intros ops _. apply start_safe. intros op. apply keeps_sdk.
Qed.

(** C8: the database is well typed. From an empty database, whatever processes work on it one
    after the other, whatever any number of threads run in each (calls of the API and receive
    loops), in whatever order their single calls of the database fall, wherever the process is
    killed, and whatever calls of the database fail: every entry that the next process finds sits
    in its family under the key its own value determines: a contact under its owner and identity
    with a label of at most 64 bytes, a conversation or message under its ids, an outbox entry
    under its sector id with an encoded message or a [Delivered] or [Read] receipt as payload, an
    inbox entry under its time and conversation, a manifest under its group id with a name of at
    most 64 bytes and sorted members, a group message under its ids. *)
Theorem stored_typed key sessions dir :
  (∀ db, DB_open_cf_descriptors dir ALL_CFS = Ok db → contents db = ∅) →
  typed_dir (Prelude.history (threaded_session key) sessions dir).1.
Proof using All.
  intros Hempty. apply (history_inv (threaded_session key) typed_dir).
  - intros s dir1. apply keeps_session.
  - intros db Ho. rewrite (Hempty db Ho). by intros ???.
Qed.
End typed.

(** ** Witness: three threads on a database that fails, and a process after them *)

Import Flaky.

#[local] Existing Instances mem_contact mem_contact_ok mem_outbox mem_outbox_ok mem_message
  mem_message_ok mem_conversation mem_conversation_ok mem_dm_payload mem_dm_payload_ok
  mem_receipt mem_receipt_ok mem_inbox mem_inbox_ok mem_manifest mem_manifest_ok mem_gmessage
  mem_gmessage_ok.

Definition three_threads : list (list (list sdk_op) * list nat) :=
  [([sdk_sample_ops; sdk_sample_ops; [InboxUpsert chat_entry]],
    [0; 0; 0; 1; 1; 2; 1; 0; 0; 0; 2; 0; 0; 0; 1; 1; 1; 0; 0; 2; 0; 0; 0; 0]);
   ([sdk_sample_ops], replicate 30 0)].

Lemma stored_typed_witness :
  let dir' := (Prelude.history (threaded_session alice_key) three_threads third_fails).1 in
  size (contents dir') = 6 ∧ typed_dir dir'.
Proof.
  split; [vm_compute; reflexivity|].
  apply (stored_typed (F := flaky_faults) alice_key three_threads third_fails). by intros db [= <-].
Defined.
