(* ===== verification/TestKit.v ===== *)
(** * The repository's own tests, run on the model: the harness

    A [#[test]] function is a computation that may panic: [unwrap] and [unwrap_err] of a handler's
    outcome, assertions, and the calls in between. The files that end in [Tests] translate the
    tests of the crates with these, and evaluate them on the in-memory instances of [Mem]; where
    a test reads the clock or draws a UUID the translation fixes a value. *)

From Stdlib Require Import ZArith Strings.Byte.
From stdpp Require Import base tactics gmap strings numbers list.
From S2P Require Import Prelude Bytes Aad.
#[local] Open Scope nat_scope.

(** The message of a panic. *)
Definition panic := string.

Definition unwrap {S E A} (m : io S E A) : io S panic A :=
  io_map_err (λ _, "called unwrap on an Err value"%string) m.

Definition unwrap_err {S E A} (m : io S E A) : io S panic E := λ s,
  match m s with
  | (s', Ok _) => (s', Err "called unwrap_err on an Ok value"%string)
  | (s', Err e) => (s', Ok e)
  end.

(** [expect] and [expect_err] of a plain result. *)
Definition expect {S E A} (r : result E A) : io S panic A := unwrap (lift r).
Definition expect_err {S E A} (r : result E A) : io S panic E := unwrap_err (lift r).

(** [unwrap] of an [Option], and the [find], [next], index of a list that tests unwrap. *)
Definition some {S A} (o : option A) : io S panic A :=
  lift (ok_or o "called unwrap on a None value"%string).

Definition assert {S} (b : bool) : io S panic () :=
  if b then mret () else fails "assertion failed"%string.

Definition assert_eq {S A} `{EqDecision A} (x y : A) : io S panic () := assert (bool_decide (x = y)).
Definition assert_ne {S A} `{EqDecision A} (x y : A) : io S panic () := assert (bool_decide (x ≠ y)).

(** [b[i] ^= mask] *)
Definition xor_at {S} (i : nat) (mask : Z) (b : bytes) : io S panic bytes :=
  x ← some (b !! i);
  mret (<[i := Z_byte (Z.lxor (byte_Z x) mask)]> b).

(** A loop of the test over a range or a list. *)
Definition for_all {S A} (l : list A) (f : A → io S panic ()) : io S panic () :=
  foldr (λ x k, f x;; k) (mret ()) l.

(** A step on the [i]th of several databases. *)
Definition on_machine {S A} (i : nat) (m : io S panic A) : io (list S) panic A := λ l,
  match l !! i with
  | Some s => let (s', r) := m s in (<[i := s']> l, r)
  | None => (l, Err "index out of bounds"%string)
  end.

(** The tests that panic from the given state, each with its message. *)
Definition failures {S} (init : S) (tests : list (string * io S panic ()))
    : list (string * panic) :=
  omap (λ t, match (t.2 init).2 with Ok _ => None | Err e => Some (t.1, e) end) tests.

(** The literals of the tests: [[b; 16]], a 16-byte id that counts, a [u64], a [u8]. *)
Definition fill16 (b : byte) : arr 16 := arr_fill 16 b.
Definition uuid (n : Z) : arr 16 := arr_fit 16 (be_bytes 16 n).
Definition ms (n : Z) : u64 := umk 64 n.

(** [u64::MAX] *)
Definition u64_max : u64 := umk 64 (umax 64).

(** [for w in page.windows(2)] *)
Definition windows2 {A} (l : list A) : list (A * A) := zip l (tail l).
