(* ===== verification/StorageTests.v ===== *)
(** * The tests of the storage crate ([db.rs], [sector.rs], [dedupe.rs], [outbox.rs], [error.rs]
      and [tests/integration.rs])

    One definition per [#[test]] function; a name that two modules share carries its module.
    Left out are the tests of the list of families that RocksDB keeps on disk, of the conversions
    of its errors and [postcard]'s, of the traits [Send] and [Sync], and of the text of a UUID. *)

From Stdlib Require Import ZArith Lia Strings.Byte.
From stdpp Require Import base tactics gmap strings sorting numbers countable list.
From S2P Require Import Prelude Bytes Store Mem Db Dedupe Outbox TestKit.
#[local] Open Scope nat_scope.

(** [str::contains] *)
Fixpoint contains (s sub : string) : bool :=
  match s with
  | EmptyString => bool_decide (sub = EmptyString)
  | String _ rest => String.prefix sub s || contains rest sub
  end.

Section db_tests.
Context `{R : RocksDB} `{P : PostcardLib}.

(** ** [db.rs] *)

Definition open_creates_all_seven_cfs : io DB panic () :=
  for_all ALL_CFS (λ cf_name, has ← reads (λ db, Ok (DB_cf_handle db cf_name)); assert has).

(** The handle is dropped and its directory opened again. *)
Definition reopens : io DB panic () := λ db,
  match open (directory db) with
  | Ok db2 => (db2, Ok ())
  | Err _ => (db, Err "called unwrap on an Err value"%string)
  end.

Definition reopen_existing_db_loads_all_cfs : io DB panic () :=
  unwrap (put_raw CF_SECTORS (blit "test_key") (blit "test_val"));;
  reopens;;
  val ← unwrap (reads (λ db, get_raw db CF_SECTORS (blit "test_key")));
  assert_eq val (Some (blit "test_val")).

Definition put_raw_unknown_cf_returns_error : io DB panic () :=
  err ← unwrap_err (put_raw "nonexistent_cf" (blit "k") (blit "v"));
  match err with
  | MissingColumnFamily name => assert_eq name "nonexistent_cf"%string
  | _ => fails "expected MissingColumnFamily"%string
  end.

Definition get_raw_missing_key_returns_none : io DB panic () :=
  val ← unwrap (reads (λ db, get_raw db CF_META (blit "no_such_key")));
  assert_eq val None.

Definition delete_raw_nonexistent_key_succeeds : io DB panic () :=
  unwrap (delete_raw CF_OUTBOX (blit "nothing")).

(** ** [error.rs] *)

(** [Display] of [StorageError], given that of a sector id. *)
Definition StorageError_to_string (show_id : SectorId → string) (e : StorageError) : string :=
  match e with
  | Rocks e => "rocksdb error: " +:+ rocks_error_string e
  | Codec e => "codec error: " +:+ postcard_error_string e
  | MissingColumnFamily name => "missing column family: " +:+ name
  | SectorNotFound id => "sector not found: " +:+ show_id id
  | OutboxFull => "outbox full"
  | InvalidSector => "invalid sector"
  end.

Definition shows (show_id : SectorId → string) (err : StorageError) (part : string)
    : io DB panic () :=
  let msg := StorageError_to_string show_id err in
  assert (negb (bool_decide (msg = EmptyString)));;
  assert (contains msg part).

Definition rocks_variant_display_non_empty show_id (inner : rocks_error) : io DB panic () :=
  shows show_id (Rocks inner) "rocksdb".
Definition codec_variant_display_non_empty show_id (bad : postcard_error) : io DB panic () :=
  shows show_id (Codec bad) "codec".
Definition missing_column_family_display_non_empty show_id : io DB panic () :=
  shows show_id (MissingColumnFamily "bogus_cf") "bogus_cf".
Definition sector_not_found_display_non_empty show_id : io DB panic () :=
  shows show_id (SectorNotFound (SectorId_new (uuid 1))) "sector not found".
Definition outbox_full_display_non_empty show_id : io DB panic () :=
  shows show_id OutboxFull "outbox full".
Definition invalid_sector_display_non_empty show_id : io DB panic () :=
  shows show_id InvalidSector "invalid sector".

(** ** [sector.rs] *)

Section sector_tests.
Context `{!Postcard Sector}.

Definition make_sector : Sector :=
  mkSector (SectorId_new (uuid 1)) (rstr_of "zero.chat.v1") (rstr_of "id-alice")
    (rstr_of "machine-01") (ms 1700000000000) [x01; x02; x03; x04] None.

Definition round_trips (sector : Sector) : io DB panic () :=
  b ← unwrap (lift (encode_sector sector));
  decoded ← unwrap (lift (decode_sector b));
  assert_eq sector decoded.

Definition round_trip_encode_decode : io DB panic () := round_trips make_sector.

Definition round_trip_with_prev : io DB panic () :=
  let prev_id := SectorId_new (uuid 1) in
  round_trips (mkSector (SectorId_new (uuid 2)) (rstr_of "zero.chat.v1") (rstr_of "id-bob")
    (rstr_of "machine-02") (ms 1700000001000) [x0a; x14] (Some prev_id)).

Definition round_trip_empty_payload : io DB panic () :=
  round_trips (mkSector (SectorId_new (uuid 1)) [] [] [] (ms 0) [] None).

Definition decode_garbage_returns_codec_error : io DB panic () :=
  err ← unwrap_err (lift (decode_sector [xff; xff; xff]));
  assert (match err with Codec _ => true | _ => false end).

(** The ids a test draws are given in the order of their draws. *)
Definition sector_id_ordering_newer_sorts_after_older (t1 t2 : arr 16) : io DB panic () :=
  let first := SectorId_new t1 in let second := SectorId_new t2 in
  assert_eq (SectorId_cmp second first) Gt.

Definition sector_id_ordering_across_many (draws : list (arr 16)) : io DB panic () :=
  let ids := SectorId_new <$> draws in
  for_all (windows2 ids) (λ '(a, b), assert_ne (SectorId_cmp b a) Lt).
End sector_tests.

(** ** [outbox.rs] *)

Section outbox_tests.
Context `{!Postcard OutboxEntry}.

Definition make_entry (n next_ms : Z) : OutboxEntry :=
  mkOutboxEntry (SectorId_new (uuid n)) [x01; x02; x03] (umk 8 0) (ms next_ms)
    (ms (Z.max 0 (next_ms - 100))).

Definition enqueues (ob : Outbox) (e : OutboxEntry) : io DB panic () := unwrap (enqueue ob e).
Definition due_at_ms (now_ms : u64) : io DB panic (list OutboxEntry) :=
  unwrap (reads (λ db, dequeue_due db now_ms)).

Definition durable_across_reopen : io DB panic () :=
  let entry := make_entry 1 1000 in
  enqueues Outbox_new entry;;
  reopens;;
  due ← due_at_ms u64_max;
  assert_eq (length due) 1;;
  d ← some (due !! 0);
  assert_eq (oe_sector_id d) (oe_sector_id entry);;
  assert_eq (oe_payload d) [x01; x02; x03].

Definition enqueue_and_dequeue_due : io DB panic () :=
  let entry := make_entry 1 1000 in
  enqueues Outbox_new entry;;
  due ← due_at_ms (ms 1000);
  assert_eq (length due) 1;;
  d ← some (due !! 0);
  assert_eq (oe_sector_id d) (oe_sector_id entry).

Definition dequeue_due_before_time_returns_empty : io DB panic () :=
  enqueues Outbox_new (make_entry 1 5000);;
  due ← due_at_ms (ms 4999);
  assert_eq due [].

Definition dequeue_due_fifo_ordering_by_next_attempt : io DB panic () :=
  let e1 := make_entry 1 3000 in let e2 := make_entry 2 1000 in let e3 := make_entry 3 2000 in
  enqueues Outbox_new e1;;
  enqueues Outbox_new e2;;
  enqueues Outbox_new e3;;
  due ← due_at_ms (ms 5000);
  assert_eq (oe_sector_id <$> due) (oe_sector_id <$> [e2; e3; e1]).

Definition remove_deletes_entry : io DB panic () :=
  let entry := make_entry 1 1000 in
  enqueues Outbox_new entry;;
  unwrap (remove (oe_sector_id entry));;
  due ← due_at_ms u64_max;
  assert_eq due [].

Definition enqueue_idempotent_same_sector_id : io DB panic () :=
  let entry := make_entry 1 1000 in
  enqueues Outbox_new entry;;
  enqueues Outbox_new entry;;
  due ← due_at_ms u64_max;
  assert_eq (length due) 1.

Definition mark_attempted_updates_entry : io DB panic () :=
  let entry := make_entry 1 1000 in
  enqueues Outbox_new entry;;
  unwrap (mark_attempted (oe_sector_id entry) (ms 5000));;
  due ← due_at_ms (ms 1000);
  assert_eq due [];;
  due ← due_at_ms (ms 5000);
  assert_eq (length due) 1;;
  d ← some (due !! 0);
  assert_eq (uval (oe_attempt_count d)) 1%Z;;
  assert_eq (uval (oe_next_attempt_ms d)) 5000%Z.

Definition mark_attempted_missing_returns_error : io DB panic () :=
  unwrap_err (mark_attempted (SectorId_new (uuid 1)) (ms 5000));; mret ().

Definition capacity_bound_enforced : io DB panic () :=
  let outbox := Outbox_with_capacity 3 in
  enqueues outbox (make_entry 1 1000);;
  enqueues outbox (make_entry 2 2000);;
  enqueues outbox (make_entry 3 3000);;
  err ← unwrap_err (enqueue outbox (make_entry 4 4000));
  assert (match err with OutboxFull => true | _ => false end).

Definition capacity_bound_allows_idempotent_insert_at_limit : io DB panic () :=
  let outbox := Outbox_with_capacity 2 in
  let entry := make_entry 1 1000 in
  enqueues outbox entry;;
  enqueues outbox (make_entry 2 2000);;
  enqueues outbox entry.

Definition remove_then_capacity_frees_slot : io DB panic () :=
  let outbox := Outbox_with_capacity 2 in
  let e1 := make_entry 1 1000 in
  enqueues outbox e1;;
  enqueues outbox (make_entry 2 2000);;
  unwrap_err (enqueue outbox (make_entry 3 3000));;
  unwrap (remove (oe_sector_id e1));;
  enqueues outbox (make_entry 4 3000).
End outbox_tests.
End db_tests.

(** ** [dedupe.rs] *)

Section dedupe_tests.
Context `{L : Lru} {S : Type}.

Definition fresh_cache (capacity : nat) : io S panic DedupeCache := some (DedupeCache_new capacity).

Definition unseen_returns_false : io S panic () :=
  cache ← fresh_cache 16;
  assert (negb (seen cache (SectorId_new (uuid 1)))).

Definition mark_then_seen : io S panic () :=
  cache ← fresh_cache 16;
  let id := SectorId_new (uuid 1) in
  assert (seen (mark cache id) id).

Definition eviction_at_capacity : io S panic () :=
  let cap := 4 in
  cache ← fresh_cache cap;
  let ids := (λ n, SectorId_new (uuid (Z.of_nat n))) <$> seq 0 (cap + 1) in
  let cache := foldl mark cache (take cap ids) in
  assert_eq (dedupe_len cache) cap;;
  oldest ← some (ids !! 0);
  newest ← some (ids !! cap);
  let cache := mark cache newest in
  assert_eq (dedupe_len cache) cap;;
  assert (negb (seen cache oldest));;
  assert (seen cache newest);;
  for_all (take (cap - 1) (drop 1 ids)) (λ id, assert (seen cache id)).

Definition mark_is_idempotent : io S panic () :=
  cache ← fresh_cache 16;
  let id := SectorId_new (uuid 1) in
  let cache := mark (mark cache id) id in
  assert_eq (dedupe_len cache) 1;;
  assert (seen cache id).

Definition default_capacity : io S panic () :=
  cache ← fresh_cache DEFAULT_DEDUPE_CAPACITY;
  assert (dedupe_is_empty cache);;
  assert_eq (dedupe_len cache) 0.

(** [#[should_panic]] *)
Definition zero_capacity_panics : io S panic () :=
  assert (match DedupeCache_new 0 with None => true | Some _ => false end).

(** Eight threads draw and mark a thousand ids each: [marks] in the order in which the mutex
    lets them. *)
Definition concurrent_access (marks : list SectorId) : io S panic () :=
  cache ← fresh_cache 1024;
  let cache := foldl mark cache marks in
  assert (dedupe_len cache <=? 1024).
End dedupe_tests.

(** Whatever the interleaving. *)
Lemma concurrent_access_passes `{LruOk} {S} (s : S) marks : concurrent_access marks s = (s, Ok ()).
Proof.
  unfold concurrent_access, fresh_cache, some, lift, mbind, io_bind, DedupeCache_new.
  rewrite decide_False by done. cbn [ok_or].
  destruct (mark_all 1024 (mkDedupeCache (lru_new 1024)) marks) as [Hr _].
  { unfold DedupeCache_new. by rewrite decide_False. }
  unfold dedupe_len. rewrite lru_len_spec, Hr, length_take.
  unfold assert. by rewrite (proj2 (Nat.leb_le _ _)) by lia.
Qed.

(** ** [tests/integration.rs] *)

Section lifecycle.
Context `{R : RocksDB} `{P : PostcardLib} `{L : Lru} `{!Postcard Sector, !Postcard OutboxEntry}.

Definition machine_ids : list rstr := rstr_of <$> ["machine-a"; "machine-b"; "machine-c"].
Definition identity_1 : rstr := rstr_of "identity-1".

(** The [i]th of the hundred sectors; the ids grow as they are drawn. *)
Definition nth_id (i : nat) : SectorId := SectorId_new (uuid (Z.of_nat i)).
Definition nth_sector (i : nat) : Sector :=
  mkSector (nth_id i) (rstr_of "test.sector.v1") identity_1 (default [] (machine_ids !! (i mod 3)))
    (ms 0) (replicate 32 xab) (if 3 <=? i then Some (nth_id (i - 3)) else None).
Definition ids_per_machine (idx : nat) : list SectorId :=
  nth_id <$> filter (λ i, i mod 3 = idx) (seq 0 100).

Definition chain_is (idx : nat) (machine : rstr) : io DB panic () :=
  chain ← unwrap (reads (λ db, iter_chain db identity_1 machine));
  assert_eq (length chain) (length (ids_per_machine idx));;
  for_all (windows2 chain) (λ '(a, b), assert_eq (SectorId_cmp (sector_id a) (sector_id b)) Lt);;
  assert_eq (sector_id <$> chain) (ids_per_machine idx).

Definition outbox_round : io DB panic () :=
  outbox_sid ← some (ids_per_machine 1 !! 0);
  let entry := mkOutboxEntry outbox_sid (replicate 16 xcd) (umk 8 0) (ms 1000) (ms 500) in
  enqueues Outbox_new entry;;
  due ← due_at_ms (ms 999); assert_eq (length due) 0;;
  due ← due_at_ms (ms 1000); assert_eq (oe_sector_id <$> due) [outbox_sid];;
  enqueues Outbox_new entry;;
  due ← due_at_ms (ms 1000); assert_eq (length due) 1;;
  unwrap (mark_attempted outbox_sid (ms 2000));;
  due ← due_at_ms (ms 1500); assert_eq (length due) 0;;
  due ← due_at_ms (ms 2000); first ← some (due !! 0);
  assert_eq (oe_attempt_count first) (umk 8 1);;
  unwrap (remove outbox_sid);;
  due ← due_at_ms u64_max; assert_eq (length due) 0.

Definition full_lifecycle : io DB panic () :=
  for_all (seq 0 100) (λ i, unwrap (put_sector (nth_sector i)));;
  assert_eq ((λ idx, length (ids_per_machine idx)) <$> [0; 1; 2]) [34; 33; 33];;
  for_all (imap pair machine_ids) (λ '(idx, machine), chain_is idx machine);;
  for_all (imap pair machine_ids) (λ '(idx, machine), for_all (ids_per_machine idx) (λ sid,
    found ← unwrap (reads (λ db, get_sector db identity_1 machine sid));
    fetched ← some found;
    assert_eq (sector_id fetched) sid;;
    assert_eq (sector_machine_id fetched) machine;;
    assert_eq (sector_identity_id fetched) identity_1));;
  dedupe ← some (DedupeCache_new 256);
  first_id ← some (ids_per_machine 0 !! 0);
  assert (negb (seen dedupe first_id));;
  let dedupe := mark dedupe first_id in
  assert (seen dedupe first_id);;
  let dedupe := foldl mark dedupe (concat (ids_per_machine <$> [0; 1; 2])) in
  assert (seen dedupe first_id);;
  outbox_round;;
  reopens;;
  for_all (imap pair machine_ids) (λ '(idx, machine), chain_is idx machine);;
  spot_id ← some (ids_per_machine 2 !! 5);
  found ← unwrap (reads (λ db, get_sector db identity_1 (rstr_of "machine-c") spot_id));
  sector ← some found;
  assert_eq (sector_payload sector) (replicate 32 xab);;
  due ← due_at_ms u64_max;
  assert_eq (length due) 0;;
  unwrap (delete_sector identity_1 (rstr_of "machine-a") first_id);;
  gone ← unwrap (reads (λ db, get_sector db identity_1 (rstr_of "machine-a") first_id));
  assert_eq gone None.
End lifecycle.

(** ** The runs *)

#[local] Existing Instances mem_sector mem_outbox.
#[local] Definition show_id (id : SectorId) : string := "an id".

Definition storage_tests : list (string * io (@DB mem_rocks) panic ()) :=
  [("open_creates_all_seven_cfs", open_creates_all_seven_cfs);
   ("reopen_existing_db_loads_all_cfs", reopen_existing_db_loads_all_cfs);
   ("put_raw_unknown_cf_returns_error", put_raw_unknown_cf_returns_error);
   ("get_raw_missing_key_returns_none", get_raw_missing_key_returns_none);
   ("delete_raw_nonexistent_key_succeeds", delete_raw_nonexistent_key_succeeds);
   ("rocks_variant_display_non_empty", rocks_variant_display_non_empty show_id tt);
   ("codec_variant_display_non_empty", codec_variant_display_non_empty show_id tt);
   ("missing_column_family_display_non_empty", missing_column_family_display_non_empty show_id);
   ("sector_not_found_display_non_empty", sector_not_found_display_non_empty show_id);
   ("outbox_full_display_non_empty", outbox_full_display_non_empty show_id);
   ("invalid_sector_display_non_empty", invalid_sector_display_non_empty show_id);
   ("round_trip_encode_decode", round_trip_encode_decode);
   ("round_trip_with_prev", round_trip_with_prev);
   ("round_trip_empty_payload", round_trip_empty_payload);
   ("decode_garbage_returns_codec_error", decode_garbage_returns_codec_error);
   ("sector_id_ordering_newer_sorts_after_older", sector_id_ordering_newer_sorts_after_older (uuid 1) (uuid 2));
   ("sector_id_ordering_across_many", sector_id_ordering_across_many (uuid <$> (Z.of_nat <$> seq 1 100)));
   ("durable_across_reopen", durable_across_reopen);
   ("enqueue_and_dequeue_due", enqueue_and_dequeue_due);
   ("dequeue_due_before_time_returns_empty", dequeue_due_before_time_returns_empty);
   ("dequeue_due_fifo_ordering_by_next_attempt", dequeue_due_fifo_ordering_by_next_attempt);
   ("remove_deletes_entry", remove_deletes_entry);
   ("enqueue_idempotent_same_sector_id", enqueue_idempotent_same_sector_id);
   ("mark_attempted_updates_entry", mark_attempted_updates_entry);
   ("mark_attempted_missing_returns_error", mark_attempted_missing_returns_error);
   ("capacity_bound_enforced", capacity_bound_enforced);
   ("capacity_bound_allows_idempotent_insert_at_limit", capacity_bound_allows_idempotent_insert_at_limit);
   ("remove_then_capacity_frees_slot", remove_then_capacity_frees_slot);
   ("unseen_returns_false", unseen_returns_false);
   ("mark_then_seen", mark_then_seen);
   ("eviction_at_capacity", eviction_at_capacity);
   ("mark_is_idempotent", mark_is_idempotent);
   ("default_capacity", default_capacity);
   ("zero_capacity_panics", zero_capacity_panics);
   ("full_lifecycle", full_lifecycle)]%string.

Lemma storage_tests_pass : failures (mem_new : @DB mem_rocks) storage_tests = [].
Proof. vm_compute. reflexivity. Qed.
