(* ===== verification/GroupTests.v ===== *)
(** * The tests of the groups ([group/mod.rs], [manifest.rs], [permissions.rs] and
      [tests/group_add_remove.rs], [tests/group_convergence.rs])

    One definition per [#[test]] function, under its name; where two modules share one, the
    second carries its module. The [proptest] properties are proved for all inputs. *)

From Stdlib Require Import ZArith Lia Strings.Byte.
From stdpp Require Import base tactics gmap strings sorting numbers countable list.
From S2P Require Import Prelude Bytes Store Mem Aad Db Group GroupOps TestKit.
#[local] Open Scope nat_scope.

#[export] Instance GroupMember_eq_dec : EqDecision GroupMember.
Proof. solve_decision. Defined.
#[export] Instance GroupManifest_eq_dec : EqDecision GroupManifest.
Proof. solve_decision. Defined.

Section tests.
Context `{R : RocksDB} `{P : PostcardLib} `{!Postcard GroupManifest, !Postcard GroupMessage}.
Implicit Types (gid : GroupId) (man : GroupManifest) (e : GroupError).

Definition id_of (b : byte) : IdentityId := mkIdentityId (fill16 b).
Definition no_machine : MachineId := mkMachineId (fill16 x00).
Definition now : u64 := ms 1000.

(** ** The calls of the tests, with [unwrap] *)

Definition group_of (label : string) (founders : list IdentityId) : io DB panic GroupId :=
  unwrap (create_group (rstr_of label) founders (uuid 1) now).
Definition the_manifest gid : io DB panic GroupManifest := unwrap (reads (λ db, get_manifest db gid)).
Definition the_message gid (m : GroupMessageId) : io DB panic GroupMessage :=
  found ← unwrap (reads (λ db, group_get_message db gid m)); some found.
Definition adds gid (caller new_member : IdentityId) : io DB panic () :=
  unwrap (add_member gid caller new_member now now).
Definition removes gid (caller target : IdentityId) : io DB panic () :=
  unwrap (remove_member gid caller target now).
Definition promotes gid (caller target : IdentityId) (r : Role) : io DB panic () :=
  unwrap (promote gid caller target r now).
Definition demotes gid (caller target : IdentityId) (r : Role) : io DB panic () :=
  unwrap (demote gid caller target r now).
Definition sends gid (sender : IdentityId) (machine : MachineId) (text : string) (n : Z)
    : io DB panic GroupMessageId :=
  unwrap (send_message gid sender machine (rstr_of text) (uuid n) now).
Definition epoch_is man (n : Z) : io DB panic () := assert_eq (uval (man_mls_epoch man)) n.
Definition size_is man (n : nat) : io DB panic () := assert_eq (length (man_members man)) n.
Definition is_member man (id : IdentityId) : bool := any (same_id id) (man_members man).
Definition role_is man (id : IdentityId) (r : Role) : io DB panic () :=
  m ← some (find (same_id id) (man_members man)); assert_eq (gm_role m) r.

Definition is_denied e : bool := match e with PermissionDenied _ _ => true | _ => false end.
Definition is_invalid e : bool := match e with InvalidManifestUpdate => true | _ => false end.
Definition is_no_member e : bool := match e with NotAMember _ => true | _ => false end.
Definition is_no_group e : bool := match e with GroupNotFound _ => true | _ => false end.

(** ** Creation *)

Definition create_single_founder : io DB panic () :=
  gid ← group_of "test-group" [id_of x01];
  man ← the_manifest gid;
  epoch_is man 0;;
  size_is man 1;;
  m ← some (man_members man !! 0);
  assert_eq (gm_identity_id m) (id_of x01);;
  assert_eq (gm_role m) Owner;;
  assert_eq (man_name man) (rstr_of "test-group");;
  assert_eq (man_creator man) (id_of x01).

Definition create_multiple_founders_all_owners : io DB panic () :=
  gid ← group_of "multi" [id_of x03; id_of x01; id_of x02];
  man ← the_manifest gid;
  epoch_is man 0;;
  size_is man 3;;
  for_all (man_members man) (λ m, assert_eq (gm_role m) Owner);;
  m0 ← some (man_members man !! 0);
  m1 ← some (man_members man !! 1);
  m2 ← some (man_members man !! 2);
  assert_ne (member_cmp m0 m1) Gt;;
  assert_ne (member_cmp m1 m2) Gt.

Definition create_name_too_long : io DB panic () :=
  let long_name := mjoin (replicate 65 (rstr_of "x")) in
  err ← unwrap_err (create_group long_name [id_of x01] (uuid 1) now);
  assert (match err with NameTooLong 65 => true | _ => false end).

Definition get_manifest_not_found : io DB panic () :=
  let missing := mkGroupId (fill16 xff) in
  err ← unwrap_err (reads (λ db, get_manifest db missing));
  assert (is_no_group err).

Definition manifest_persisted_and_readable : io DB panic () :=
  gid ← group_of "persist-test" (id_of <$> [x01; x02; x03; x04; x05]);
  man ← the_manifest gid;
  assert_eq (man_group_id man) gid;;
  size_is man 5;;
  epoch_is man 0.

Definition epoch_zero_at_creation : io DB panic () :=
  gid ← group_of "epoch" [id_of x09];
  man ← the_manifest gid;
  epoch_is man 0.

(** ** Promotion and demotion *)

Definition setup_group_with_roles : io DB panic GroupId :=
  gid ← group_of "roles" [id_of x01];
  man ← the_manifest gid;
  let man := with_members (man_members man ++
    [mkGroupMember (id_of x02) no_machine Admin now;
     mkGroupMember (id_of x03) no_machine Moderator now;
     mkGroupMember (id_of x04) no_machine Member now]) man in
  let man := normalize_members man in
  encoded ← unwrap (lift (encode_manifest man));
  unwrap (put_raw CF_GROUPS (group_key gid) encoded);;
  mret gid.

Definition promote_member_to_moderator_by_owner : io DB panic () :=
  gid ← setup_group_with_roles;
  promotes gid (id_of x01) (id_of x04) Moderator;;
  man ← the_manifest gid;
  role_is man (id_of x04) Moderator;;
  epoch_is man 1.

Definition promote_advances_epoch_and_persists : io DB panic () :=
  gid ← setup_group_with_roles;
  before ← the_manifest gid;
  epoch_is before 0;;
  promotes gid (id_of x01) (id_of x04) Moderator;;
  after ← the_manifest gid;
  epoch_is after 1;;
  assert (ule (man_updated_at_ms before) (man_updated_at_ms after));;
  promotes gid (id_of x01) (id_of x04) Admin;;
  after2 ← the_manifest gid;
  epoch_is after2 2.

Definition demote_admin_to_member_by_owner : io DB panic () :=
  gid ← setup_group_with_roles;
  demotes gid (id_of x01) (id_of x02) Member;;
  man ← the_manifest gid;
  role_is man (id_of x02) Member;;
  epoch_is man 1.

Definition demote_advances_epoch_and_persists : io DB panic () :=
  gid ← setup_group_with_roles;
  demotes gid (id_of x01) (id_of x02) Moderator;;
  man ← the_manifest gid;
  epoch_is man 1;;
  role_is man (id_of x02) Moderator.

Definition promote_by_admin_to_moderator : io DB panic () :=
  gid ← setup_group_with_roles;
  promotes gid (id_of x02) (id_of x04) Moderator;;
  man ← the_manifest gid;
  role_is man (id_of x04) Moderator.

Definition promote_by_admin_to_admin_denied : io DB panic () :=
  gid ← setup_group_with_roles;
  err ← unwrap_err (promote gid (id_of x02) (id_of x04) Admin now);
  assert (match err with PermissionDenied _ PromoteDemoteAdmin => true | _ => false end).

Definition promote_by_member_denied : io DB panic () :=
  gid ← setup_group_with_roles;
  err ← unwrap_err (promote gid (id_of x04) (id_of x03) Admin now);
  assert (is_denied err).

Definition promote_by_moderator_denied : io DB panic () :=
  gid ← setup_group_with_roles;
  err ← unwrap_err (promote gid (id_of x03) (id_of x04) Moderator now);
  assert (is_denied err).

Definition demote_by_member_denied : io DB panic () :=
  gid ← setup_group_with_roles;
  err ← unwrap_err (demote gid (id_of x04) (id_of x03) Member now);
  assert (is_denied err).

Definition promote_wrong_direction_is_invalid : io DB panic () :=
  gid ← setup_group_with_roles;
  err ← unwrap_err (promote gid (id_of x01) (id_of x02) Member now);
  assert (is_invalid err).

Definition demote_wrong_direction_is_invalid : io DB panic () :=
  gid ← setup_group_with_roles;
  err ← unwrap_err (demote gid (id_of x01) (id_of x04) Admin now);
  assert (is_invalid err).

Definition promote_same_role_is_invalid : io DB panic () :=
  gid ← setup_group_with_roles;
  err ← unwrap_err (promote gid (id_of x01) (id_of x04) Member now);
  assert (is_invalid err).

Definition promote_nonmember_target_fails : io DB panic () :=
  gid ← setup_group_with_roles;
  err ← unwrap_err (promote gid (id_of x01) (id_of x63) Admin now);
  assert (is_no_member err).

Definition promote_nonmember_caller_fails : io DB panic () :=
  gid ← setup_group_with_roles;
  err ← unwrap_err (promote gid (id_of x63) (id_of x04) Admin now);
  assert (is_no_member err).

Definition promote_group_not_found : io DB panic () :=
  let missing := mkGroupId (fill16 xaa) in
  err ← unwrap_err (promote missing (id_of x01) (id_of x02) Admin now);
  assert (is_no_group err).

Definition demote_group_not_found : io DB panic () :=
  let missing := mkGroupId (fill16 xaa) in
  err ← unwrap_err (demote missing (id_of x01) (id_of x02) Member now);
  assert (is_no_group err).

Definition owner_promote_member_to_admin : io DB panic () :=
  gid ← setup_group_with_roles;
  promotes gid (id_of x01) (id_of x04) Admin;;
  man ← the_manifest gid;
  role_is man (id_of x04) Admin.

Definition owner_demote_admin_to_moderator : io DB panic () :=
  gid ← setup_group_with_roles;
  demotes gid (id_of x01) (id_of x02) Moderator;;
  man ← the_manifest gid;
  role_is man (id_of x02) Moderator.

(** ** Permissions *)

Definition roles : list Role := [Owner; Admin; Moderator; Member].
Definition actions : list GroupAction :=
  [SendMessage; AddMember; RemoveMember; PromoteDemoteMod; PromoteDemoteAdmin; DeleteGroup].
Definition table_at (ri ai : nat) : io DB panic bool :=
  row ← some (PERMISSION_TABLE !! ri); some (row !! ai).

Definition exhaustive_permission_matrix : io DB panic () :=
  for_all (imap pair roles) (λ '(ri, role),
    for_all (imap pair actions) (λ '(ai, action),
      expected ← table_at ri ai;
      let target := if bool_decide (role = Moderator) && bool_decide (action = RemoveMember)
                    then Some Member else None in
      assert_eq (check_permission role action target) expected)).

Definition moderator_remove_member_special_case : io DB panic () :=
  assert (check_permission Moderator RemoveMember (Some Member));;
  assert (negb (check_permission Moderator RemoveMember (Some Admin)));;
  assert (negb (check_permission Moderator RemoveMember (Some Owner)));;
  assert (negb (check_permission Moderator RemoveMember (Some Moderator))).

(** The tests of [permissions.rs]. *)
Definition owner_deletes_group : io DB panic () :=
  assert (check_permission Owner DeleteGroup None).

Definition member_send_only : io DB panic () :=
  assert (check_permission Member SendMessage None);;
  assert (negb (check_permission Member AddMember None));;
  assert (negb (check_permission Member RemoveMember (Some Member)));;
  assert (negb (check_permission Member PromoteDemoteMod None));;
  assert (negb (check_permission Member PromoteDemoteAdmin None));;
  assert (negb (check_permission Member DeleteGroup None)).

Definition moderator_remove_target_role_matrix : io DB panic () :=
  assert (check_permission Moderator RemoveMember (Some Member));;
  assert (negb (check_permission Moderator RemoveMember (Some Moderator)));;
  assert (negb (check_permission Moderator RemoveMember (Some Admin)));;
  assert (negb (check_permission Moderator RemoveMember (Some Owner)));;
  assert (negb (check_permission Moderator RemoveMember None)).

Definition admin_remove_target_role_coverage : io DB panic () :=
  assert (check_permission Admin RemoveMember (Some Member));;
  assert (check_permission Admin RemoveMember (Some Moderator));;
  assert (check_permission Admin RemoveMember (Some Owner)).

Definition admin_promotes_admin_denied : io DB panic () :=
  assert (negb (check_permission Admin PromoteDemoteAdmin None)).

Definition owner_remove_any_target : io DB panic () :=
  for_all [Owner; Admin; Moderator; Member] (λ target,
    assert (check_permission Owner RemoveMember (Some target))).

Definition exhaustive_table_check : io DB panic () :=
  for_all (imap pair roles) (λ '(ri, role),
    for_all (imap pair actions) (λ '(ai, action),
      table_val ← table_at ri ai;
      if bool_decide (role = Moderator) && bool_decide (action = RemoveMember) then
        assert table_val;;
        assert (check_permission role action (Some Member));;
        assert (negb (check_permission role action (Some Admin)))
      else assert_eq (check_permission role action None) table_val)).

(** ** Membership *)

Definition add_member_basic : io DB panic () :=
  let owner := id_of x01 in let new_member := id_of x05 in
  gid ← group_of "test" [owner];
  adds gid owner new_member;;
  man ← the_manifest gid;
  size_is man 2;;
  assert (is_member man new_member);;
  role_is man new_member Member.

Definition add_member_epoch_advances : io DB panic () :=
  let owner := id_of x01 in
  gid ← group_of "test" [owner];
  before ← the_manifest gid;
  adds gid owner (id_of x05);;
  man_after ← the_manifest gid;
  epoch_is man_after (uval (man_mls_epoch before) + 1).

Definition add_member_permission_denied_for_member_role : io DB panic () :=
  let owner := id_of x01 in let member := id_of x02 in
  gid ← group_of "test" [owner];
  adds gid owner member;;
  err ← unwrap_err (add_member gid member (id_of x06) now now);
  assert (is_denied err).

Definition add_member_group_full_at_257 : io DB panic () :=
  let owner := id_of x01 in
  gid ← group_of "test" [owner];
  for_all (Z.of_nat <$> seq 1 255) (λ i, adds gid owner (mkIdentityId
    (arr_fit 16 [Z_byte (Z.shiftr i 8); Z_byte (Z.land i 255); xaa])));;
  man ← the_manifest gid;
  size_is man 256;;
  let overflow := mkIdentityId (arr_fit 16 [xff; xff; xbb]) in
  err ← unwrap_err (add_member gid owner overflow now now);
  assert (match err with GroupFull 256 => true | _ => false end).

Definition add_member_already_exists_is_noop_like : io DB panic () :=
  let owner := id_of x01 in let member := id_of x05 in
  gid ← group_of "test" [owner];
  adds gid owner member;;
  man1 ← the_manifest gid;
  adds gid owner member;;
  man2 ← the_manifest gid;
  size_is man2 2;;
  assert_eq (man_mls_epoch man2) (man_mls_epoch man1).

Definition add_member_group_not_found : io DB panic () :=
  let gid := mkGroupId (fill16 x63) in
  err ← unwrap_err (add_member gid (id_of x01) (id_of x05) now now);
  assert (is_no_group err).

Definition remove_member_basic : io DB panic () :=
  let owner := id_of x01 in let member := id_of x05 in
  gid ← group_of "test" [owner];
  adds gid owner member;;
  before ← the_manifest gid;
  size_is before 2;;
  removes gid owner member;;
  man ← the_manifest gid;
  size_is man 1;;
  assert (negb (is_member man member)).

Definition remove_member_epoch_advances : io DB panic () :=
  let owner := id_of x01 in let member := id_of x05 in
  gid ← group_of "test" [owner];
  adds gid owner member;;
  before ← the_manifest gid;
  removes gid owner member;;
  man_after ← the_manifest gid;
  epoch_is man_after (uval (man_mls_epoch before) + 1).

Definition remove_member_permission_denied_member_removes : io DB panic () :=
  let owner := id_of x01 in let m1 := id_of x05 in let m2 := id_of x06 in
  gid ← group_of "test" [owner];
  adds gid owner m1;;
  adds gid owner m2;;
  err ← unwrap_err (remove_member gid m1 m2 now);
  assert (is_denied err).

Definition remove_member_admin_cannot_remove_owner : io DB panic () :=
  let owner := id_of x01 in let admin_id := id_of x05 in
  gid ← group_of "test" [owner];
  adds gid owner admin_id;;
  promotes gid owner admin_id Admin;;
  err ← unwrap_err (remove_member gid admin_id owner now);
  assert (is_denied err).

Definition remove_member_not_a_member : io DB panic () :=
  let owner := id_of x01 in let stranger := id_of x63 in
  gid ← group_of "test" [owner];
  err ← unwrap_err (remove_member gid owner stranger now);
  assert (is_no_member err).

Definition remove_member_group_not_found : io DB panic () :=
  let gid := mkGroupId (fill16 x63) in
  err ← unwrap_err (remove_member gid (id_of x01) (id_of x05) now);
  assert (is_no_group err).

Definition add_remove_round_trip : io DB panic () :=
  let owner := id_of x01 in let m1 := id_of x05 in let m2 := id_of x06 in
  gid ← group_of "test" [owner];
  adds gid owner m1;;
  adds gid owner m2;;
  man ← the_manifest gid;
  size_is man 3;;
  epoch_is man 2;;
  removes gid owner m1;;
  man ← the_manifest gid;
  size_is man 2;;
  epoch_is man 3;;
  assert (negb (is_member man m1));;
  assert (is_member man m2).

Definition moderator_can_remove_member_but_not_admin : io DB panic () :=
  let owner := id_of x01 in let mod_id := id_of x05 in
  let member_id := id_of x06 in let admin_id := id_of x07 in
  gid ← group_of "test" [owner];
  adds gid owner mod_id;;
  adds gid owner member_id;;
  adds gid owner admin_id;;
  promotes gid owner mod_id Moderator;;
  promotes gid owner admin_id Admin;;
  removes gid mod_id member_id;;
  man ← the_manifest gid;
  assert (negb (is_member man member_id));;
  adds gid owner member_id;;
  err ← unwrap_err (remove_member gid mod_id admin_id now);
  assert (is_denied err).

Definition group_full_at_exactly_257 : io DB panic () :=
  let owner := id_of x01 in
  gid ← group_of "big" [owner];
  for_all (Z.of_nat <$> seq 2 254) (λ i, adds gid owner (mkIdentityId
    (arr_fit 16 [Z_byte (Z.shiftr i 8); Z_byte (Z.land i 255)])));;
  let m256 := mkIdentityId (arr_fit 16 ([x01] ++ replicate 14 x00 ++ [x01])) in
  adds gid owner m256;;
  man ← the_manifest gid;
  size_is man 256;;
  let m257 := mkIdentityId (arr_fit 16 ([x01] ++ replicate 14 x00 ++ [x02])) in
  err ← unwrap_err (add_member gid owner m257 now now);
  match err with
  | GroupFull size => assert_eq size 256
  | _ => fails "expected GroupFull"%string
  end.

(** ** Several members *)

Definition three_machine_convergence : io DB panic () :=
  let owner := id_of x01 in let alice := id_of x02 in let bob := id_of x03 in
  gid ← group_of "convergence" [owner];
  adds gid owner alice;;
  adds gid owner bob;;
  promotes gid owner alice Admin;;
  let charlie := id_of x04 in
  adds gid alice charlie;;
  promotes gid owner bob Moderator;;
  removes gid bob charlie;;
  m1 ← sends gid owner (mkMachineId (fill16 x01)) "hello from owner" 11;
  m2 ← sends gid alice (mkMachineId (fill16 x02)) "hello from alice" 12;
  m3 ← sends gid bob (mkMachineId (fill16 x03)) "hello from bob" 13;
  the_message gid m1;;
  the_message gid m2;;
  the_message gid m3;;
  man_owner ← the_manifest gid;
  man_alice ← the_manifest gid;
  man_bob ← the_manifest gid;
  assert_eq man_owner man_alice;;
  assert_eq man_alice man_bob;;
  size_is man_owner 3;;
  role_is man_owner owner Owner;;
  role_is man_owner alice Admin;;
  role_is man_owner bob Moderator;;
  assert (negb (is_member man_owner charlie));;
  epoch_is man_owner 6.

Definition manifest_merge_convergence_across_dbs : io DB panic () :=
  let owner := id_of x01 in let alice := id_of x02 in
  gid ← group_of "merge-test" [owner];
  man_epoch0 ← the_manifest gid;
  adds gid owner alice;;
  man_epoch1 ← the_manifest gid;
  let merged := merge_manifests man_epoch1 man_epoch0 in
  assert_eq (man_mls_epoch merged) (man_mls_epoch man_epoch1);;
  assert_eq (length (man_members merged)) (length (man_members man_epoch1));;
  let merged_rev := merge_manifests man_epoch0 man_epoch1 in
  assert_eq merged merged_rev;;
  let merged_again := merge_manifests merged man_epoch1 in
  assert_eq merged merged_again.

Definition received_copy gid (msg_id : GroupMessageId) (owner : IdentityId) (sent_msg : GroupMessage)
    : io DB panic bool :=
  unwrap (receive_message (mkGroupMessage msg_id gid owner no_machine (rstr_of "hello group")
    (ms 0) (gmsg_created_at_ms sent_msg) GSent)).

(** Three databases, one per member. *)
Definition three_member_send_receive_round_trip : io (list DB) panic () :=
  let owner := id_of x01 in let m2 := id_of x02 in let m3 := id_of x03 in
  gid ← on_machine 0 (group_of "trio" [owner]);
  on_machine 0 (adds gid owner m2);;
  on_machine 0 (adds gid owner m3);;
  man ← on_machine 0 (the_manifest gid);
  on_machine 0 (size_is man 3);;
  msg_id ← on_machine 0 (sends gid owner no_machine "hello group" 11);
  sent_msg ← on_machine 0 (the_message gid msg_id);
  assert_eq (gmsg_text sent_msg) (rstr_of "hello group");;
  assert_eq (gmsg_sender_identity sent_msg) owner;;
  assert_eq (gmsg_status sent_msg) GSent;;
  on_machine 1 (unwrap (persist_manifest man));;
  received ← on_machine 1 (received_copy gid msg_id owner sent_msg);
  assert received;;
  on_machine 2 (unwrap (persist_manifest man));;
  received3 ← on_machine 2 (received_copy gid msg_id owner sent_msg);
  assert received3;;
  dup ← on_machine 2 (received_copy gid msg_id owner sent_msg);
  assert (negb dup);;
  stored ← on_machine 1 (the_message gid msg_id);
  assert_eq (gmsg_text stored) (rstr_of "hello group").

(** ** Receipts and the list *)

Definition status_is gid (msg_id : GroupMessageId) (s : GroupMessageStatus) : io DB panic () :=
  m ← the_message gid msg_id; assert_eq (gmsg_status m) s.
Definition receipt gid (msg_id : GroupMessageId) (who : IdentityId) (s : GroupMessageStatus)
    : io DB panic bool :=
  unwrap (group_process_receipt (mkGroupReceiptPayload msg_id gid who no_machine s now)).

Definition receipt_transitions_sent_delivered_read : io DB panic () :=
  let owner := id_of x01 in let m2 := id_of x02 in
  gid ← group_of "receipt-test" [owner];
  adds gid owner m2;;
  msg_id ← sends gid owner no_machine "track me" 11;
  status_is gid msg_id GSent;;
  updated ← receipt gid msg_id m2 GDelivered;
  assert updated;;
  status_is gid msg_id GDelivered;;
  updated ← receipt gid msg_id m2 GRead;
  assert updated;;
  status_is gid msg_id GRead;;
  updated ← receipt gid msg_id m2 GDelivered;
  assert (negb updated);;
  status_is gid msg_id GRead.

Definition three_member_receipts_update_statuses : io DB panic () :=
  let owner := id_of x01 in let m2 := id_of x02 in let m3 := id_of x03 in
  gid ← group_of "receipt-trio" [owner];
  adds gid owner m2;;
  adds gid owner m3;;
  msg_id ← sends gid m2 no_machine "from member 2" 11;
  updated ← receipt gid msg_id owner GDelivered;
  assert updated;;
  status_is gid msg_id GDelivered;;
  updated ← receipt gid msg_id m3 GRead;
  assert updated;;
  status_is gid msg_id GRead.

Definition schema_tags_match_spec : io DB panic () :=
  assert_eq GROUP_MSG_TAG (rstr_of "zero.group.v1");;
  assert_eq GROUP_RECEIPT_TAG (rstr_of "zero.receipt.v1").

Definition list_messages_after_multi_member_send : io DB panic () :=
  let owner := id_of x01 in let m2 := id_of x02 in let m3 := id_of x03 in
  gid ← group_of "list-test" [owner];
  adds gid owner m2;;
  adds gid owner m3;;
  id1 ← sends gid owner no_machine "msg1" 11;
  id2 ← sends gid m2 no_machine "msg2" 12;
  id3 ← sends gid m3 no_machine "msg3" 13;
  all ← unwrap (reads (λ db, list_messages db gid None 10));
  assert_eq (gmsg_id <$> all) [id3; id2; id1];;
  page ← unwrap (reads (λ db, list_messages db gid (Some id3) 2));
  assert_eq (gmsg_id <$> page) [id2; id1].

(** ** [manifest.rs] *)

Definition sample_manifest : GroupManifest :=
  mkGroupManifest (mkGroupId (fill16 x01)) (rstr_of "Test Group") (id_of x0a)
    [mkGroupMember (id_of x14) (mkMachineId (fill16 x1e)) Member (ms 1000);
     mkGroupMember (id_of x0a) (mkMachineId (fill16 x0b)) Owner (ms 999)]
    (ms 0) [] (ms 999) (ms 999).

Definition encode_decode_roundtrip : io DB panic () :=
  b ← unwrap (lift (encode_manifest sample_manifest));
  decoded ← unwrap (lift (decode_manifest b));
  assert_eq sample_manifest decoded.

Definition normalize_sorts_by_identity_id : io DB panic () :=
  let manifest := sample_manifest in
  m0 ← some (man_members manifest !! 0);
  m1 ← some (man_members manifest !! 1);
  assert_eq (member_cmp m0 m1) Gt;;
  let manifest := normalize_members manifest in
  m0 ← some (man_members manifest !! 0);
  m1 ← some (man_members manifest !! 1);
  assert_eq (member_cmp m0 m1) Lt.
(** ** [tests/group_add_remove.rs] *)

Definition group_with (label : string) (members : list byte) : io DB panic GroupId :=
  gid ← group_of label [id_of x01];
  for_all members (λ b, adds gid (id_of x01) (id_of b));;
  mret gid.
Definition epoch_of gid : io DB panic u64 := man ← the_manifest gid; mret (man_mls_epoch man).

Definition add_member_appears_in_manifest : io DB panic () :=
  gid ← group_with "round-trip" [x02];
  manifest ← the_manifest gid;
  assert (is_member manifest (id_of x02)).

Definition remove_member_absent_from_manifest : io DB panic () :=
  gid ← group_with "round-trip" [x02];
  removes gid (id_of x01) (id_of x02);;
  manifest ← the_manifest gid;
  assert (negb (is_member manifest (id_of x02))).

Definition epoch_advances_on_add : io DB panic () :=
  gid ← group_of "epoch-add" [id_of x01];
  epoch0 ← epoch_of gid;
  adds gid (id_of x01) (id_of x02);;
  epoch1 ← epoch_of gid;
  assert_eq epoch1 (uadd epoch0 (ms 1));;
  adds gid (id_of x01) (id_of x03);;
  epoch2 ← epoch_of gid;
  assert_eq epoch2 (uadd epoch1 (ms 1)).

Definition epoch_advances_on_remove : io DB panic () :=
  gid ← group_with "epoch-remove" [x02];
  epoch_before ← epoch_of gid;
  removes gid (id_of x01) (id_of x02);;
  epoch_after ← epoch_of gid;
  assert_eq epoch_after (uadd epoch_before (ms 1)).

Definition epoch_advances_independently_for_add_and_remove : io DB panic () :=
  gid ← group_of "epoch-seq" [id_of x01];
  e0 ← epoch_of gid;
  adds gid (id_of x01) (id_of x02);;
  adds gid (id_of x01) (id_of x03);;
  removes gid (id_of x01) (id_of x02);;
  e3 ← epoch_of gid;
  assert_eq e3 (uadd e0 (ms 3)).

Definition group_full_at_257 : io DB panic () :=
  let owner := id_of x00 in
  gid ← group_of "full" [owner];
  for_all (Z.of_nat <$> seq 1 255) (λ i, adds gid owner (id_of (Z_byte i)));;
  manifest ← the_manifest gid;
  size_is manifest 256;;
  let overflow := mkIdentityId (arr_fit 16 [x01]) in
  err ← unwrap_err (add_member gid owner overflow now now);
  match err with
  | GroupFull size => assert_eq size 256
  | _ => fails "expected GroupFull"%string
  end.

Definition member_cannot_add : io DB panic () :=
  gid ← group_with "perms" [x02];
  err ← unwrap_err (add_member gid (id_of x02) (id_of x03) now now);
  assert (is_denied err).

Definition member_cannot_remove : io DB panic () :=
  gid ← group_with "perms-remove" [x02; x03];
  err ← unwrap_err (remove_member gid (id_of x02) (id_of x03) now);
  assert (is_denied err).

(** ** [tests/group_convergence.rs] *)

Definition three_party_convergence : io DB panic () :=
  let owner := id_of x01 in let user_b := id_of x02 in let user_c := id_of x03 in
  gid ← group_of "convergence-test" [owner];
  adds gid owner user_b;;
  adds gid owner user_c;;
  epoch_after_adds ← epoch_of gid;
  assert (ule (ms 2) epoch_after_adds);;
  promotes gid owner user_b Admin;;
  removes gid user_b user_c;;
  sends gid owner (mkMachineId (fill16 x01)) "hello from owner" 11;;
  sends gid user_b (mkMachineId (fill16 x02)) "hello from b" 12;;
  manifest ← the_manifest gid;
  assert (negb (is_member manifest user_c));;
  size_is manifest 2;;
  role_is manifest owner Owner;;
  role_is manifest user_b Admin;;
  assert (ult epoch_after_adds (man_mls_epoch manifest)).

Definition make_manifest gid (creator : IdentityId) (mls_epoch updated_at_ms : u64) : GroupManifest :=
  mkGroupManifest gid (rstr_of "test-group") creator [mkGroupMember creator no_machine Owner (ms 0)]
    mls_epoch [] (ms 0) updated_at_ms.

End tests.

(** The property tests, as statements about their generated inputs. *)
Definition manifest_merge_commutative (a b : GroupManifest) : Prop :=
  merge_manifests a b = merge_manifests b a.
Definition manifest_merge_idempotent (a : GroupManifest) : Prop :=
  merge_manifests a a = normalize_members a.

(** The second holds of every manifest; the first of any two but an exact tie. *)
Lemma merge_proptests a b :
  manifest_merge_idempotent a ∧ (newer a b ∨ newer b a → manifest_merge_commutative a b).
Proof.
  unfold manifest_merge_idempotent, manifest_merge_commutative.
  rewrite !merge_manifests_normal, merge_manifest_idem. split; [done|].
  intros H. by rewrite (merge_manifest_comm a b H).
Qed.

(** The two of [tests/group_convergence.rs], whose manifests are built from epochs and times. *)
Definition merge_is_commutative (epoch_a ts_a epoch_b ts_b : u64) : Prop :=
  let gid := mkGroupId (fill16 x00) in let creator := mkIdentityId (fill16 x00) in
  let a := make_manifest gid creator epoch_a ts_a in
  let b := make_manifest gid creator epoch_b ts_b in
  merge_manifest a b = merge_manifest b a.

Definition merge_is_idempotent (epoch ts : u64) : Prop :=
  let gid := mkGroupId (fill16 x00) in let creator := mkIdentityId (fill16 x00) in
  let a := make_manifest gid creator epoch ts in
  merge_manifest a a = a.

Lemma convergence_proptests epoch_a ts_a epoch_b ts_b :
  merge_is_commutative epoch_a ts_a epoch_b ts_b ∧ merge_is_idempotent epoch_a ts_a.
Proof.
  unfold merge_is_commutative, merge_is_idempotent. split; [|by rewrite merge_manifest_idem].
  set (a := make_manifest _ _ epoch_a ts_a). set (b := make_manifest _ _ epoch_b ts_b).
  destruct (decide (newer a b ∨ newer b a)) as [Hn|Hn]; [by apply merge_manifest_comm|].
  assert (epoch_a = epoch_b ∧ ts_a = ts_b) as [<- <-]; [|done].
  revert Hn. unfold newer, a, b. cbn. intros Hn. split; apply (inj uval); lia.
Qed.

(** ** The runs *)

#[local] Existing Instances mem_manifest mem_gmessage.

Definition group_tests : list (string * io (@DB mem_rocks) panic ()) :=
  [("create_single_founder", create_single_founder);
   ("create_multiple_founders_all_owners", create_multiple_founders_all_owners);
   ("create_name_too_long", create_name_too_long);
   ("get_manifest_not_found", get_manifest_not_found);
   ("manifest_persisted_and_readable", manifest_persisted_and_readable);
   ("epoch_zero_at_creation", epoch_zero_at_creation);
   ("promote_member_to_moderator_by_owner", promote_member_to_moderator_by_owner);
   ("promote_advances_epoch_and_persists", promote_advances_epoch_and_persists);
   ("demote_admin_to_member_by_owner", demote_admin_to_member_by_owner);
   ("demote_advances_epoch_and_persists", demote_advances_epoch_and_persists);
   ("promote_by_admin_to_moderator", promote_by_admin_to_moderator);
   ("promote_by_admin_to_admin_denied", promote_by_admin_to_admin_denied);
   ("promote_by_member_denied", promote_by_member_denied);
   ("promote_by_moderator_denied", promote_by_moderator_denied);
   ("demote_by_member_denied", demote_by_member_denied);
   ("promote_wrong_direction_is_invalid", promote_wrong_direction_is_invalid);
   ("demote_wrong_direction_is_invalid", demote_wrong_direction_is_invalid);
   ("promote_same_role_is_invalid", promote_same_role_is_invalid);
   ("promote_nonmember_target_fails", promote_nonmember_target_fails);
   ("promote_nonmember_caller_fails", promote_nonmember_caller_fails);
   ("promote_group_not_found", promote_group_not_found);
   ("demote_group_not_found", demote_group_not_found);
   ("owner_promote_member_to_admin", owner_promote_member_to_admin);
   ("owner_demote_admin_to_moderator", owner_demote_admin_to_moderator);
   ("exhaustive_permission_matrix", exhaustive_permission_matrix);
   ("moderator_remove_member_special_case", moderator_remove_member_special_case);
   ("owner_deletes_group", owner_deletes_group);
   ("member_send_only", member_send_only);
   ("moderator_remove_target_role_matrix", moderator_remove_target_role_matrix);
   ("admin_remove_target_role_coverage", admin_remove_target_role_coverage);
   ("admin_promotes_admin_denied", admin_promotes_admin_denied);
   ("owner_remove_any_target", owner_remove_any_target);
   ("exhaustive_table_check", exhaustive_table_check);
   ("add_member_basic", add_member_basic);
   ("add_member_epoch_advances", add_member_epoch_advances);
   ("add_member_permission_denied_for_member_role", add_member_permission_denied_for_member_role);
   ("add_member_group_full_at_257", add_member_group_full_at_257);
   ("add_member_already_exists_is_noop_like", add_member_already_exists_is_noop_like);
   ("add_member_group_not_found", add_member_group_not_found);
   ("remove_member_basic", remove_member_basic);
   ("remove_member_epoch_advances", remove_member_epoch_advances);
   ("remove_member_permission_denied_member_removes", remove_member_permission_denied_member_removes);
   ("remove_member_admin_cannot_remove_owner", remove_member_admin_cannot_remove_owner);
   ("remove_member_not_a_member", remove_member_not_a_member);
   ("remove_member_group_not_found", remove_member_group_not_found);
   ("add_remove_round_trip", add_remove_round_trip);
   ("moderator_can_remove_member_but_not_admin", moderator_can_remove_member_but_not_admin);
   ("group_full_at_exactly_257", group_full_at_exactly_257);
   ("three_machine_convergence", three_machine_convergence);
   ("manifest_merge_convergence_across_dbs", manifest_merge_convergence_across_dbs);
   ("receipt_transitions_sent_delivered_read", receipt_transitions_sent_delivered_read);
   ("three_member_receipts_update_statuses", three_member_receipts_update_statuses);
   ("schema_tags_match_spec", schema_tags_match_spec);
   ("list_messages_after_multi_member_send", list_messages_after_multi_member_send);
   ("encode_decode_roundtrip", encode_decode_roundtrip);
   ("normalize_sorts_by_identity_id", normalize_sorts_by_identity_id);
   ("add_member_appears_in_manifest", add_member_appears_in_manifest);
   ("remove_member_absent_from_manifest", remove_member_absent_from_manifest);
   ("epoch_advances_on_add", epoch_advances_on_add);
   ("epoch_advances_on_remove", epoch_advances_on_remove);
   ("epoch_advances_independently_for_add_and_remove", epoch_advances_independently_for_add_and_remove);
   ("group_full_at_257", group_full_at_257);
   ("member_cannot_add", member_cannot_add);
   ("member_cannot_remove", member_cannot_remove);
   ("three_party_convergence", three_party_convergence)]%string.

Lemma group_tests_pass : failures (mem_new : @DB mem_rocks) group_tests = [].
Proof. vm_compute. reflexivity. Qed.

Lemma trio_test_passes : failures (replicate 3 (mem_new : @DB mem_rocks))
  [("three_member_send_receive_round_trip", three_member_send_receive_round_trip)]%string = [].
Proof. vm_compute. reflexivity. Qed.
