(* ===== verification/DmTests.v ===== *)
(** * The tests of direct messages ([dm/service.rs], [paginate.rs], [receipt.rs], [receive.rs]
      and [tests/dm_e2e.rs])

    One definition per [#[test]] function. The two property tests run on some of the
    inputs they generate. Left out are the test that drops the handle of a spawned task and
    asserts nothing, and the one that measures times. *)

From Stdlib Require Import ZArith Lia Strings.Byte.
From stdpp Require Import base tactics gmap strings sorting numbers countable list pretty.
From S2P Require Import Prelude Bytes Store Mem Aad Db Dedupe Outbox Contacts Dm DmReceive TestKit.
#[local] Open Scope nat_scope.

Section tests.
Context `{R : RocksDB} `{P : PostcardLib} `{B : Blake3}.
Context `{!Postcard OutboxEntry, !Postcard Contact, !Postcard Conversation, !Postcard Message,
          !Postcard DmSectorPayload, !Postcard ReceiptPayload} `{ML : MessageLayout}.
Implicit Types (svc : DmService) (cid : ConversationId).

Definition alice : IdentityId := mkIdentityId (fill16 x01).
Definition bob : IdentityId := mkIdentityId (fill16 x02).
Definition machine_a : MachineId := mkMachineId (fill16 xaa).
Definition machine_b : MachineId := mkMachineId (fill16 xbb).
Definition now : u64 := ms 5000.

(** ** The calls of the tests, with [unwrap] *)

Definition befriend (owner peer : IdentityId) (label : string) (at_ms : Z) : io DB panic ContactStore :=
  let contacts := mkContactStore owner in
  unwrap (add_contact contacts (mkContact peer (rstr_of label) [] None (ms at_ms)));;
  mret contacts.

(** [setup()]; its database is the state. *)
Definition setup : io DB panic ContactStore := befriend alice bob "Bob" 1000.
Definition alice_svc : io DB panic DmService :=
  contacts ← setup; mret (mkDmService alice machine_a contacts).

Definition opens svc (peer : IdentityId) : io DB panic Conversation := unwrap (open_conversation svc peer).
Definition resumes cid : io DB panic Conversation := unwrap (reads (λ db, resume_conversation db cid)).
Definition stores (m : Message) : io DB panic () := unwrap (store_message m).
Definition gets cid (m : MessageId) : io DB panic (option Message) :=
  unwrap (reads (λ db, get_message db cid m)).
Definition the_message cid (m : MessageId) : io DB panic Message := found ← gets cid m; some found.
Definition updates cid (m : MessageId) (s : MessageStatus) : io DB panic () :=
  unwrap (update_status cid m s now).
Definition sends svc cid (text : string) : io DB panic MessageId :=
  unwrap (send_text svc cid (rstr_of text) now (uuid 101) (uuid 201)).
Definition pages cid (cursor : option MessageId) (limit : nat) : io DB panic (list Message) :=
  unwrap (reads (λ db, Dm.history db cid cursor (umk 64 (Z.of_nat limit)))).
Definition status_is cid (m : MessageId) (s : MessageStatus) : io DB panic () :=
  found ← the_message cid m; assert_eq (msg_status found) s.
Definition is_invalid (e : DmError) : bool :=
  match e with InvalidStatusTransition _ _ => true | _ => false end.
Definition is_unknown (e : DmError) : bool :=
  match e with UnknownConversation _ => true | _ => false end.

(** ** [service.rs]: conversations *)

Definition open_conversation_creates_and_returns_same_id : io DB panic () :=
  svc ← alice_svc;
  c1 ← opens svc bob;
  c2 ← opens svc bob;
  assert_eq (conv_conversation_id c1) (conv_conversation_id c2);;
  assert_eq (conv_peer_identity c1) bob;;
  assert_eq (conv_last_sector c1) None.

Definition open_conversation_unknown_peer_returns_error : io DB panic () :=
  svc ← alice_svc;
  let unknown := mkIdentityId (fill16 x63) in
  err ← unwrap_err (open_conversation svc unknown);
  assert (match err with ContactNotFound _ => true | _ => false end).

Definition resume_conversation_round_trip : io DB panic () :=
  svc ← alice_svc;
  conv ← opens svc bob;
  resumed ← resumes (conv_conversation_id conv);
  assert_eq (conv_conversation_id conv) (conv_conversation_id resumed);;
  assert_eq (conv_peer_identity conv) (conv_peer_identity resumed);;
  assert_eq (conv_last_sector conv) (conv_last_sector resumed).

Definition resume_unknown_conversation_returns_error : io DB panic () :=
  svc ← alice_svc;
  let fake_id := mkConversationId (arr_fill 32 xab) in
  err ← unwrap_err (reads (λ db, resume_conversation db fake_id));
  assert (is_unknown err).

Definition save_conversation_updates_last_sector : io DB panic () :=
  svc ← alice_svc;
  conv ← opens svc bob;
  assert_eq (conv_last_sector conv) None;;
  let sector_id := SectorId_new (uuid 1) in
  let conv := mkConversation (conv_conversation_id conv) (conv_peer_identity conv) (Some sector_id) in
  unwrap (save_conversation conv);;
  resumed ← resumes (conv_conversation_id conv);
  assert_eq (conv_last_sector resumed) (Some sector_id).

Definition conversation_id_is_commutative : io DB panic () :=
  assert_eq (derive alice bob) (derive bob alice).

Definition distinct_pairs_produce_distinct_conversation_ids : io DB panic () :=
  let c := mkIdentityId (fill16 x03) in
  assert_ne (derive alice bob) (derive alice c).

(** ** [service.rs]: messages and statuses *)

Definition make_test_message cid (sender : IdentityId) (machine : MachineId) (text : string) : Message :=
  mkMessage (mkMessageId (uuid 1)) cid sender machine (rstr_of text) Queued now (ms 0).

Definition get_message_returns_stored_message : io DB panic () :=
  svc ← alice_svc;
  conv ← opens svc bob;
  let msg := make_test_message (conv_conversation_id conv) alice machine_a "hello" in
  stores msg;;
  found ← the_message (conv_conversation_id conv) (msg_id msg);
  assert_eq (msg_text found) (rstr_of "hello").

Definition get_message_returns_none_for_missing : io DB panic () :=
  svc ← alice_svc;
  conv ← opens svc bob;
  let fake_id := mkMessageId (fill16 xff) in
  found ← gets (conv_conversation_id conv) fake_id;
  assert (match found with None => true | Some _ => false end).

Definition update_status_monotonic_forward : io DB panic () :=
  svc ← alice_svc;
  conv ← opens svc bob;
  let c := conv_conversation_id conv in
  let msg := make_test_message c alice machine_a "hi" in
  stores msg;;
  updates c (msg_id msg) Sent;;
  updates c (msg_id msg) Delivered;;
  updates c (msg_id msg) Read;;
  status_is c (msg_id msg) Read.

Definition update_status_rejects_backward : io DB panic () :=
  svc ← alice_svc;
  conv ← opens svc bob;
  let c := conv_conversation_id conv in
  let msg := make_test_message c alice machine_a "hi" in
  stores msg;;
  updates c (msg_id msg) Delivered;;
  err ← unwrap_err (update_status c (msg_id msg) Sent now);
  assert (is_invalid err).

Definition update_status_rejects_equal : io DB panic () :=
  svc ← alice_svc;
  conv ← opens svc bob;
  let c := conv_conversation_id conv in
  let msg := make_test_message c alice machine_a "hi" in
  stores msg;;
  err ← unwrap_err (update_status c (msg_id msg) Queued now);
  assert (is_invalid err).

Definition process_receipt_updates_status : io DB panic () :=
  svc_a ← alice_svc;
  conv ← opens svc_a bob;
  let c := conv_conversation_id conv in
  let msg := make_test_message c alice machine_a "hello bob" in
  stores msg;;
  updates c (msg_id msg) Sent;;
  let receipt := mkReceiptPayload (msg_id msg) c bob machine_b Delivered (ms 12345) in
  unwrap (process_receipt receipt now);;
  status_is c (msg_id msg) Delivered.

Definition mark_read_updates_and_returns_receipt : io DB panic () :=
  setup;;
  contacts_b ← befriend bob alice "Alice" 2000;
  let svc_b := mkDmService bob machine_b contacts_b in
  conv ← opens svc_b alice;
  let c := conv_conversation_id conv in
  let msg := make_test_message c alice machine_a "hi from A" in
  stores msg;;
  updates c (msg_id msg) Sent;;
  updates c (msg_id msg) Delivered;;
  receipt ← unwrap (mark_read svc_b c (msg_id msg) now now);
  assert_eq (rp_message_id receipt) (msg_id msg);;
  assert_eq (rp_conversation_id receipt) c;;
  assert_eq (rp_status receipt) Read;;
  assert_eq (rp_recipient_identity receipt) bob;;
  assert_eq (rp_recipient_machine receipt) machine_b;;
  status_is c (msg_id msg) Read.

(** Two databases: A's is the first, B's the second. *)
Definition delivered_then_read_round_trip : io (list DB) panic () :=
  contacts ← on_machine 0 setup;
  on_machine 0 (befriend bob alice "Alice" 2000);;
  contacts_b2 ← on_machine 1 (befriend bob alice "Alice" 2000);
  let svc_a := mkDmService alice machine_a contacts in
  let svc_b := mkDmService bob machine_b contacts_b2 in
  conv ← on_machine 0 (opens svc_a bob);
  let c := conv_conversation_id conv in
  let msg := make_test_message c alice machine_a "round trip" in
  on_machine 0 (stores msg);;
  on_machine 0 (updates c (msg_id msg) Sent);;
  on_machine 1 (opens svc_b alice);;
  on_machine 1 (stores msg);;
  let delivered_receipt := mkReceiptPayload (msg_id msg) c bob machine_b Delivered (ms 1000) in
  on_machine 0 (unwrap (process_receipt delivered_receipt now));;
  on_machine 0 (status_is c (msg_id msg) Delivered);;
  read_receipt ← on_machine 1 (unwrap (mark_read svc_b c (msg_id msg) now now));
  assert_eq (rp_status read_receipt) Read;;
  on_machine 0 (unwrap (process_receipt read_receipt now));;
  on_machine 0 (status_is c (msg_id msg) Read).

(** ** [service.rs]: sending *)

Definition send_text_persists_message_with_queued_status : io DB panic () :=
  svc ← alice_svc;
  conv ← opens svc bob;
  let c := conv_conversation_id conv in
  mid ← sends svc c "hello";
  msg ← the_message c mid;
  assert_eq (msg_id msg) mid;;
  assert_eq (msg_conversation_id msg) c;;
  assert_eq (msg_sender_identity msg) alice;;
  assert_eq (msg_sender_machine msg) machine_a;;
  assert_eq (msg_text msg) (rstr_of "hello");;
  assert_eq (msg_status msg) Queued.

Definition send_text_enqueues_outbox_entry : io DB panic () :=
  svc ← alice_svc;
  conv ← opens svc bob;
  sends svc (conv_conversation_id conv) "outbox test";;
  pending ← unwrap (reads (λ db, dequeue_due db u64_max));
  assert_eq (length pending) 1;;
  p ← some (pending !! 0);
  payload ← unwrap (lift (from_bytes (oe_payload p) : result _ DmSectorPayload));
  assert_eq (dsp_text payload) (rstr_of "outbox test");;
  assert_eq (dsp_conversation_id payload) (conv_conversation_id conv).

Definition send_text_updates_conversation_last_sector : io DB panic () :=
  svc ← alice_svc;
  conv_before ← opens svc bob;
  assert_eq (conv_last_sector conv_before) None;;
  sends svc (conv_conversation_id conv_before) "update sector";;
  conv_after ← resumes (conv_conversation_id conv_before);
  assert_ne (conv_last_sector conv_after) None.

Definition acknowledge_sent_transitions_queued_to_sent : io DB panic () :=
  svc ← alice_svc;
  conv ← opens svc bob;
  let c := conv_conversation_id conv in
  mid ← sends svc c "ack test";
  before ← the_message c mid;
  assert_eq (msg_status before) Queued;;
  unwrap (acknowledge_sent c mid now);;
  after ← the_message c mid;
  assert_eq (msg_status after) Sent;;
  assert (ule (msg_status_updated_at_ms before) (msg_status_updated_at_ms after)).

Definition send_text_to_unknown_conversation_fails : io DB panic () :=
  svc ← alice_svc;
  let fake_conv := mkConversationId (arr_fill 32 xff) in
  err ← unwrap_err (send_text svc fake_conv (rstr_of "nope") now (uuid 101) (uuid 201));
  assert (is_unknown err).

(** ** [service.rs]: history *)

(** Messages under increasing ids, oldest first. *)
Definition insert_n_messages cid (sender : IdentityId) (machine : MachineId) (n : nat)
    : io DB panic (list Message) :=
  let msgs := (λ i, mkMessage (mkMessageId (uuid (Z.of_nat i))) cid sender machine
    (rstr_of ("msg-" +:+ pretty i)) Queued now (ms 0)) <$> seq 0 n in
  for_all msgs stores;;
  mret msgs.

Definition ids_of (msgs : list Message) : list MessageId := msg_id <$> msgs.
Definition older_than (a b : MessageId) : bool :=
  bool_decide (arr_cmp (message_id_0 a) (message_id_0 b) = Lt).
Definition descending (page : list Message) : io DB panic () :=
  for_all (windows2 (ids_of page)) (λ '(a, b), assert (older_than b a)).

Definition history_empty_conversation_returns_empty : io DB panic () :=
  svc ← alice_svc;
  conv ← opens svc bob;
  page ← pages (conv_conversation_id conv) None 10;
  assert_eq (length page) 0.

Definition history_returns_descending_order : io DB panic () :=
  svc ← alice_svc;
  conv ← opens svc bob;
  let c := conv_conversation_id conv in
  msgs ← insert_n_messages c alice machine_a 5;
  page ← pages c None 10;
  assert_eq (length page) 5;;
  descending page;;
  assert_eq (ids_of page !! 0) (ids_of msgs !! 4);;
  assert_eq (ids_of page !! 4) (ids_of msgs !! 0).

Definition history_respects_limit : io DB panic () :=
  svc ← alice_svc;
  conv ← opens svc bob;
  let c := conv_conversation_id conv in
  insert_n_messages c alice machine_a 10;;
  page ← pages c None 5;
  assert_eq (length page) 5.

Definition history_before_cursor_excludes_boundary : io DB panic () :=
  svc ← alice_svc;
  conv ← opens svc bob;
  let c := conv_conversation_id conv in
  msgs ← insert_n_messages c alice machine_a 10;
  page1 ← pages c None 5;
  assert_eq (length page1) 5;;
  cursor ← some (last (ids_of page1));
  page2 ← pages c (Some cursor) 5;
  assert_eq (length page2) 5;;
  for_all (ids_of page2) (λ id, assert (bool_decide (id ∉ ids_of page1)));;
  page2_newest ← some (head (ids_of page2));
  assert (older_than page2_newest cursor);;
  let ascending := sort_by (λ a b, arr_cmp (message_id_0 a) (message_id_0 b)) in
  assert_eq (ascending (ids_of page1 ++ ids_of page2)) (ascending (ids_of msgs)).

Definition history_past_end_returns_empty : io DB panic () :=
  svc ← alice_svc;
  conv ← opens svc bob;
  let c := conv_conversation_id conv in
  msgs ← insert_n_messages c alice machine_a 3;
  oldest_id ← some (head (ids_of msgs));
  page ← pages c (Some oldest_id) 10;
  assert_eq (length page) 0.

(** The loop that follows the cursor, with the checks it makes on each page; a page more than
    there are messages is enough fuel. *)
Fixpoint collect_pages (fuel : nat) cid (cursor : option MessageId) (page_size : nat)
    (all_collected : list MessageId) : io DB panic (list MessageId) :=
  match fuel with
  | O => fails "the loop goes on"%string
  | S fuel =>
      page ← pages cid cursor page_size;
      match page with
      | [] => mret all_collected
      | newest :: _ =>
          descending page;;
          assert (length page <=? page_size);;
          match last all_collected with
          | Some prev_oldest => assert (older_than (msg_id newest) prev_oldest)
          | None => mret ()
          end;;
          for_all (ids_of page) (λ id, assert (bool_decide (id ∉ all_collected)));;
          oldest ← some (last (ids_of page));
          collect_pages fuel cid (Some oldest) page_size (all_collected ++ ids_of page)
      end
  end.

Definition history_successive_pages_cover_full_history : io DB panic () :=
  svc ← alice_svc;
  conv ← opens svc bob;
  let c := conv_conversation_id conv in
  msgs ← insert_n_messages c alice machine_a 13;
  all_collected ← collect_pages 14 c None 4 [];
  assert_eq (length all_collected) 13;;
  let expected := sort_by (λ a b, arr_cmp (message_id_0 b) (message_id_0 a)) (ids_of msgs) in
  assert_eq all_collected expected.

Definition successive_pages_yield_contiguous_nonoverlapping_windows (n page_size : nat)
    : io DB panic () :=
  contacts ← befriend alice bob "Bob" 1000;
  let svc := mkDmService alice machine_a contacts in
  conv ← opens svc bob;
  let c := conv_conversation_id conv in
  msgs ← insert_n_messages c alice machine_a n;
  all_collected ← collect_pages (S n) c None page_size [];
  assert_eq (length all_collected) n;;
  let expected := sort_by (λ a b, arr_cmp (message_id_0 b) (message_id_0 a)) (ids_of msgs) in
  assert_eq all_collected expected.

(** ** [paginate.rs] *)

Definition machine_id : MachineId := mkMachineId (fill16 x00).
Definition make_service : io DB panic DmService :=
  contacts ← befriend alice bob "Bob" 0;
  mret (mkDmService alice machine_id contacts).

(** [i] in the last eight bytes. *)
Definition msg_id_at (i : nat) : MessageId :=
  mkMessageId (arr_fit 16 (replicate 8 x00 ++ be_bytes 8 (Z.of_nat i))).
Definition make_message cid (i : nat) : Message :=
  mkMessage (msg_id_at i) cid alice machine_id (rstr_of ("msg " +:+ pretty i)) Queued
    (ms (Z.of_nat i * 1000)) (ms (Z.of_nat i * 1000)).
Definition store_n_messages cid (n : nat) : io DB panic () :=
  for_all (seq 0 n) (λ i, stores (make_message cid i)).

Definition paginate_empty_returns_empty : io DB panic () :=
  svc ← make_service;
  conv ← opens svc bob;
  page ← pages (conv_conversation_id conv) None 10;
  assert_eq (length page) 0.

Definition paginate_returns_descending_order : io DB panic () :=
  svc ← make_service;
  conv ← opens svc bob;
  let c := conv_conversation_id conv in
  store_n_messages c 5;;
  page ← pages c None 10;
  assert_eq (length page) 5;;
  descending page.

Definition paginate_respects_limit : io DB panic () :=
  svc ← make_service;
  conv ← opens svc bob;
  let c := conv_conversation_id conv in
  store_n_messages c 10;;
  page ← pages c None 5;
  assert_eq (length page) 5;;
  assert_eq (ids_of page !! 0) (Some (msg_id_at 9));;
  assert_eq (ids_of page !! 4) (Some (msg_id_at 5)).

Definition paginate_before_cursor_excludes_boundary : io DB panic () :=
  svc ← make_service;
  conv ← opens svc bob;
  let c := conv_conversation_id conv in
  store_n_messages c 10;;
  page ← pages c (Some (msg_id_at 5)) 10;
  assert_eq (length page) 5;;
  assert_eq (ids_of page !! 0) (Some (msg_id_at 4));;
  assert_eq (ids_of page !! 4) (Some (msg_id_at 0));;
  assert (bool_decide (msg_id_at 5 ∉ ids_of page)).

Definition paginate_successive_pages_cover_full_history : io DB panic () :=
  svc ← make_service;
  conv ← opens svc bob;
  let c := conv_conversation_id conv in
  store_n_messages c 10;;
  all ← collect_pages 11 c None 3 [];
  assert_eq (length all) 10;;
  assert_eq all (msg_id_at <$> reverse (seq 0 10)).

Definition prop_successive_pages_are_contiguous_descending_nonoverlapping (n page_size : nat)
    : io DB panic () :=
  svc ← make_service;
  conv ← opens svc bob;
  let c := conv_conversation_id conv in
  for_all (seq 0 n) (λ i, stores (make_message c i));;
  all_ids ← collect_pages (S n) c None page_size [];
  assert_eq (length all_ids) n;;
  assert_eq all_ids (msg_id_at <$> reverse (seq 0 n)).

(** ** [receipt.rs] *)

Definition test_ids : MessageId * ConversationId * IdentityId * MachineId :=
  (MessageId_new (uuid 1), mkConversationId (arr_fill 32 x42), mkIdentityId (fill16 x01),
   mkMachineId (fill16 x02)).

Definition build_delivered_receipt_has_delivered_status : io DB panic () :=
  let '(mid, cid, identity, machine) := test_ids in
  let r := build_delivered_receipt mid cid identity machine now in
  assert_eq (rp_status r) Delivered;;
  assert_eq (rp_message_id r) mid;;
  assert_eq (rp_conversation_id r) cid;;
  assert_eq (rp_recipient_identity r) identity;;
  assert_eq (rp_recipient_machine r) machine.

Definition build_read_receipt_has_read_status : io DB panic () :=
  let '(mid, cid, identity, machine) := test_ids in
  let r := build_read_receipt mid cid identity machine now in
  assert_eq (rp_status r) Read;;
  assert_eq (rp_message_id r) mid.

Definition is_valid_receipt_status_accepts_delivered_and_read : io DB panic () :=
  assert (is_valid_receipt_status Delivered);;
  assert (is_valid_receipt_status Read).

Definition is_valid_receipt_status_rejects_queued_and_sent : io DB panic () :=
  assert (negb (is_valid_receipt_status Queued));;
  assert (negb (is_valid_receipt_status Sent)).

Definition decode_receipt_round_trips : io DB panic () :=
  let '(mid, cid, identity, machine) := test_ids in
  let original := build_delivered_receipt mid cid identity machine now in
  b ← unwrap (lift (to_vec original));
  decoded ← unwrap (lift (decode_receipt b));
  assert_eq (rp_message_id decoded) (rp_message_id original);;
  assert_eq (rp_conversation_id decoded) (rp_conversation_id original);;
  assert_eq (rp_status decoded) (rp_status original);;
  assert_eq (rp_recipient_identity decoded) (rp_recipient_identity original);;
  assert_eq (rp_recipient_machine decoded) (rp_recipient_machine original).

Definition decode_receipt_invalid_bytes_returns_error : io DB panic () :=
  unwrap_err (lift (decode_receipt (blit "not valid postcard bytes !!!")));; mret ().

Definition read_receipt_roundtrip_via_decode : io DB panic () :=
  let '(mid, cid, identity, machine) := test_ids in
  let original := build_read_receipt mid cid identity machine now in
  b ← unwrap (lift (to_vec original));
  decoded ← unwrap (lift (decode_receipt b));
  assert_eq (rp_status decoded) Read.

(** ** [receive.rs] *)

Definition my_id : IdentityId := mkIdentityId (uuid 31).
Definition my_machine : MachineId := mkMachineId (uuid 32).
Definition sender_id : IdentityId := mkIdentityId (uuid 33).
Definition sender_machine : MachineId := mkMachineId (uuid 34).

(** [setup_receiver]; the network and the cache play no part in the calls. *)
Definition setup_receiver (identity : IdentityId) (machine_id : MachineId) (peer : IdentityId)
    : io DB panic DmReceiver :=
  contacts ← befriend identity peer "peer" 1000;
  let service := mkDmService identity machine_id contacts in
  mret (mkDmReceiver service identity machine_id).

Definition readings_now : readings := mkReadings now now (uuid 41) now.
Definition inbound_payload (text : string) (at_ms : Z) : DmSectorPayload :=
  mkDmSectorPayload (MessageId_new (uuid 35)) (derive my_id sender_id) sender_id sender_machine
    (rstr_of text) (ms at_ms).

Definition process_inbound_dm_persists_message_as_delivered : io DB panic () :=
  receiver ← setup_receiver my_id my_machine sender_id;
  let conv_id := derive my_id sender_id in
  let payload := inbound_payload "hello from sender" 42000 in
  sector_bytes ← unwrap (lift (to_vec payload));
  result ← unwrap (process_inbound_dm receiver sector_bytes readings_now);
  assert_eq result (dsp_message_id payload);;
  stored ← the_message conv_id (dsp_message_id payload);
  assert_eq (msg_status stored) Delivered;;
  assert_eq (msg_text stored) (rstr_of "hello from sender");;
  assert_eq (msg_sender_identity stored) sender_id.

Definition process_inbound_dm_enqueues_delivered_receipt : io DB panic () :=
  receiver ← setup_receiver my_id my_machine sender_id;
  let payload := inbound_payload "test receipt" 100000 in
  sector_bytes ← unwrap (lift (to_vec payload));
  unwrap (process_inbound_dm receiver sector_bytes readings_now);;
  pending ← unwrap (reads (λ db, dequeue_due db u64_max));
  assert_eq (length pending) 1;;
  e ← some (pending !! 0);
  receipt ← unwrap (lift (from_bytes (oe_payload e) : result _ ReceiptPayload));
  assert_eq (rp_message_id receipt) (dsp_message_id payload);;
  assert_eq (rp_conversation_id receipt) (dsp_conversation_id payload);;
  assert_eq (rp_status receipt) Delivered;;
  assert_eq (rp_recipient_identity receipt) my_id;;
  assert_eq (rp_recipient_machine receipt) my_machine.

Definition process_inbound_dm_invalid_bytes_returns_codec_error : io DB panic () :=
  receiver ← setup_receiver my_id my_machine sender_id;
  err ← unwrap_err (process_inbound_dm receiver (blit "not a valid payload") readings_now);
  match err with
  | DmCodec _ => mret ()
  | _ => fails "expected DmError::Codec"%string
  end.

Definition dedupe_prevents_duplicate_processing `{L : Lru} : io DB panic () :=
  setup_receiver my_id my_machine sender_id;;
  dedupe ← some (DedupeCache_new 1024);
  let payload := inbound_payload "dedup test" 50000 in
  sector_bytes ← unwrap (lift (to_vec payload));
  let sector_id := inbound_sector_id sector_bytes in
  let dedupe := mark dedupe sector_id in
  assert (seen dedupe sector_id).

(** ** [tests/dm_e2e.rs] *)

(** [setup_node], on a database of its own. *)
Definition e2e_identity (b : byte) : IdentityId := mkIdentityId (arr_fit 16 [b]).
Definition e2e_machine (b : byte) : MachineId := mkMachineId (arr_fit 16 [b]).
Definition setup_node (identity_byte machine_byte peer_byte : byte) : io DB panic DmService :=
  let identity := e2e_identity identity_byte in
  let peer_id := e2e_identity peer_byte in
  contacts ← befriend identity peer_id ("peer-" +:+ pretty (byte_Z peer_byte)) 1000;
  mret (mkDmService identity (e2e_machine machine_byte) contacts).

(** Node A's database is the first, node B's the second. *)
Definition e2e_send_receive_delivered_read : io (list DB) panic () :=
  node_a ← on_machine 0 (setup_node x01 xaa x02);
  node_b ← on_machine 1 (setup_node x02 xbb x01);
  conv_a ← on_machine 0 (opens node_a (ds_identity node_b));
  let c := conv_conversation_id conv_a in
  mid ← on_machine 0 (sends node_a c "hi");
  on_machine 0 (status_is c mid Queued);;
  on_machine 0 (unwrap (acknowledge_sent c mid now));;
  msg ← on_machine 0 (the_message c mid);
  assert_eq (msg_status msg) Sent;;
  conv_b ← on_machine 1 (opens node_b (ds_identity node_a));
  assert_eq c (conv_conversation_id conv_b);;
  let received := mkMessage mid c (ds_identity node_a) (ds_machine_id node_a) (rstr_of "hi") Delivered
    (msg_created_at_ms msg) now in
  on_machine 1 (stores received);;
  let delivered_receipt := build_delivered_receipt mid c (ds_identity node_b) (ds_machine_id node_b) now in
  on_machine 0 (unwrap (process_receipt delivered_receipt now));;
  on_machine 0 (status_is c mid Delivered);;
  read_receipt ← on_machine 1 (unwrap (mark_read node_b c mid now now));
  on_machine 0 (unwrap (process_receipt read_receipt now));;
  on_machine 0 (status_is c mid Read).

Definition status_cannot_go_backwards : io DB panic () :=
  node ← setup_node x03 xcc x04;
  let peer := e2e_identity x04 in
  befriend (ds_identity node) peer "peer-4" 1000;;
  conv ← opens node peer;
  let c := conv_conversation_id conv in
  mid ← sends node c "hello";
  unwrap (acknowledge_sent c mid now);;
  stores (mkMessage mid c (ds_identity node) (ds_machine_id node) (rstr_of "hello") Delivered now now);;
  err ← unwrap_err (update_status c mid Queued now);
  assert (is_invalid err).

Definition multiple_messages_pagination : io DB panic () :=
  node ← setup_node x05 xdd x06;
  conv ← opens node (e2e_identity x06);
  let c := conv_conversation_id conv in
  for_all (Z.of_nat <$> seq 0 10) (λ i, unwrap (send_text node c (rstr_of ("msg " +:+ pretty i)) now
    (uuid (101 + i)) (uuid (201 + i)));; mret ());;
  page1 ← pages c None 5;
  assert_eq (length page1) 5;;
  let before := msg_id <$> last page1 in
  page2 ← pages c before 5;
  assert_eq (length page2) 5;;
  for_all page2 (λ m, assert (negb (bool_decide (msg_id m ∈ msg_id <$> page1))));;
  assert_eq (length ((msg_id <$> page1) ++ (msg_id <$> page2))) 10.

Definition empty_conversation_has_no_history : io DB panic () :=
  node2 ← setup_node x07 xee x08;
  conv2 ← opens node2 (e2e_identity x08);
  empty ← pages (conv_conversation_id conv2) None 10;
  assert_eq (length empty) 0.
End tests.

(** ** The runs *)

#[local] Existing Instances mem_contact mem_outbox mem_message mem_conversation mem_dm_payload mem_receipt
  sample_layout.

Definition dm_tests : list (string * io (@DB mem_rocks) panic ()) :=
  [("open_conversation_creates_and_returns_same_id", open_conversation_creates_and_returns_same_id);
   ("open_conversation_unknown_peer_returns_error", open_conversation_unknown_peer_returns_error);
   ("resume_conversation_round_trip", resume_conversation_round_trip);
   ("resume_unknown_conversation_returns_error", resume_unknown_conversation_returns_error);
   ("save_conversation_updates_last_sector", save_conversation_updates_last_sector);
   ("conversation_id_is_commutative", conversation_id_is_commutative);
   ("distinct_pairs_produce_distinct_conversation_ids", distinct_pairs_produce_distinct_conversation_ids);
   ("get_message_returns_stored_message", get_message_returns_stored_message);
   ("get_message_returns_none_for_missing", get_message_returns_none_for_missing);
   ("update_status_monotonic_forward", update_status_monotonic_forward);
   ("update_status_rejects_backward", update_status_rejects_backward);
   ("update_status_rejects_equal", update_status_rejects_equal);
   ("process_receipt_updates_status", process_receipt_updates_status);
   ("mark_read_updates_and_returns_receipt", mark_read_updates_and_returns_receipt);
   ("send_text_persists_message_with_queued_status", send_text_persists_message_with_queued_status);
   ("send_text_enqueues_outbox_entry", send_text_enqueues_outbox_entry);
   ("send_text_updates_conversation_last_sector", send_text_updates_conversation_last_sector);
   ("acknowledge_sent_transitions_queued_to_sent", acknowledge_sent_transitions_queued_to_sent);
   ("send_text_to_unknown_conversation_fails", send_text_to_unknown_conversation_fails);
   ("history_empty_conversation_returns_empty", history_empty_conversation_returns_empty);
   ("history_returns_descending_order", history_returns_descending_order);
   ("history_respects_limit", history_respects_limit);
   ("history_before_cursor_excludes_boundary", history_before_cursor_excludes_boundary);
   ("history_past_end_returns_empty", history_past_end_returns_empty);
   ("history_successive_pages_cover_full_history", history_successive_pages_cover_full_history);
   ("paginate_empty_returns_empty", paginate_empty_returns_empty);
   ("paginate_returns_descending_order", paginate_returns_descending_order);
   ("paginate_respects_limit", paginate_respects_limit);
   ("paginate_before_cursor_excludes_boundary", paginate_before_cursor_excludes_boundary);
   ("paginate_successive_pages_cover_full_history", paginate_successive_pages_cover_full_history);
   ("build_delivered_receipt_has_delivered_status", build_delivered_receipt_has_delivered_status);
   ("build_read_receipt_has_read_status", build_read_receipt_has_read_status);
   ("is_valid_receipt_status_accepts_delivered_and_read", is_valid_receipt_status_accepts_delivered_and_read);
   ("is_valid_receipt_status_rejects_queued_and_sent", is_valid_receipt_status_rejects_queued_and_sent);
   ("decode_receipt_round_trips", decode_receipt_round_trips);
   ("decode_receipt_invalid_bytes_returns_error", decode_receipt_invalid_bytes_returns_error);
   ("read_receipt_roundtrip_via_decode", read_receipt_roundtrip_via_decode);
   ("process_inbound_dm_persists_message_as_delivered", process_inbound_dm_persists_message_as_delivered);
   ("process_inbound_dm_enqueues_delivered_receipt", process_inbound_dm_enqueues_delivered_receipt);
   ("process_inbound_dm_invalid_bytes_returns_codec_error", process_inbound_dm_invalid_bytes_returns_codec_error);
   ("dedupe_prevents_duplicate_processing", dedupe_prevents_duplicate_processing);
   ("status_cannot_go_backwards", status_cannot_go_backwards);
   ("multiple_messages_pagination", multiple_messages_pagination);
   ("empty_conversation_has_no_history", empty_conversation_has_no_history)]%string.

Lemma dm_tests_pass : failures (mem_new : @DB mem_rocks) dm_tests = [].
Proof. vm_compute. reflexivity. Qed.

Lemma two_machines_test_passes : failures (replicate 2 (mem_new : @DB mem_rocks))
  [("delivered_then_read_round_trip", delivered_then_read_round_trip);
   ("e2e_send_receive_delivered_read", e2e_send_receive_delivered_read)]%string = [].
Proof. vm_compute. reflexivity. Qed.

(** The property tests on small inputs; that pages cover a conversation of any length with any
    limit is a theorem of [Dm]. *)
Definition generated : list (nat * nat) := list_prod [1; 2; 5; 7] [1; 2; 3].

Lemma page_proptests_pass :
  failures (mem_new : @DB mem_rocks)
    [("successive_pages_yield_contiguous_nonoverlapping_windows", for_all generated
        (λ '(n, page_size) _, successive_pages_yield_contiguous_nonoverlapping_windows n page_size mem_new));
     ("prop_successive_pages_are_contiguous_descending_nonoverlapping", for_all generated
        (λ '(n, page_size) _, prop_successive_pages_are_contiguous_descending_nonoverlapping n page_size mem_new))]%string
  = [].
Proof. vm_compute. reflexivity. Qed.
