(* ===== verification/IndexTests.v ===== *)
(** * The tests of the address book and of the inbox index ([contacts/store.rs], [inbox/index.rs],
      [inbox/types.rs])

    One definition per [#[test]] function. *)

From Stdlib Require Import ZArith Lia Strings.Byte.
From stdpp Require Import base tactics gmap strings sorting numbers countable list pretty.
From S2P Require Import Prelude Bytes Store Mem Aad Db Outbox Contacts Dm Inbox TestKit.
#[local] Open Scope nat_scope.

#[export] Instance ContactMachineKey_eq_dec : EqDecision ContactMachineKey.
Proof. solve_decision. Defined.
#[export] Instance Contact_eq_dec : EqDecision Contact.
Proof. solve_decision. Defined.

Section contact_tests.
Context `{R : RocksDB} `{P : PostcardLib} `{!Postcard Contact}.

(** ** [contacts/store.rs] *)

Definition id_of (b : byte) : IdentityId := mkIdentityId (fill16 b).
Definition make_contact (id_byte : byte) (label : rstr) : Contact :=
  mkContact (id_of id_byte) label [] None (ms 1000000).

Definition adds (store : ContactStore) (c : Contact) : io DB panic () := unwrap (add_contact store c).
Definition gets (store : ContactStore) (id : IdentityId) : io DB panic (option Contact) :=
  unwrap (reads (λ db, get_contact store db id)).
Definition lists (store : ContactStore) : io DB panic (list Contact) :=
  unwrap (reads (λ db, list_contacts store db)).

Definition add_and_get_round_trip : io DB panic () :=
  let store := mkContactStore (id_of xaa) in
  let contact := make_contact x01 (rstr_of "Alice") in
  adds store contact;;
  retrieved ← gets store (id_of x01);
  assert_eq retrieved (Some contact).

Definition get_missing_returns_none : io DB panic () :=
  let store := mkContactStore (id_of xaa) in
  result ← gets store (id_of x63);
  assert_eq result None.

Definition remove_then_get_returns_none : io DB panic () :=
  let store := mkContactStore (id_of xaa) in
  adds store (make_contact x02 (rstr_of "Bob"));;
  unwrap (remove_contact store (id_of x02));;
  result ← gets store (id_of x02);
  assert_eq result None.

Definition list_contacts_empty : io DB panic () :=
  let store := mkContactStore (id_of xbb) in
  all ← lists store;
  assert_eq all [].

Definition list_contacts_multiple : io DB panic () :=
  let store := mkContactStore (id_of xcc) in
  for_all (seq 0 5) (λ i, adds store (make_contact (Z_byte (Z.of_nat i))
    (rstr_of ("Contact-" +:+ pretty i))));;
  all ← lists store;
  assert_eq (length all) 5.

Definition uniqueness_on_identity_id : io DB panic () :=
  let store := mkContactStore (id_of xdd) in
  adds store (make_contact x01 (rstr_of "First"));;
  adds store (make_contact x01 (rstr_of "Second"));;
  found ← gets store (id_of x01);
  retrieved ← some found;
  assert_eq (contact_label retrieved) (rstr_of "Second");;
  all ← lists store;
  assert_eq (length all) 1.

Definition scoping_respected : io DB panic () :=
  let store_a := mkContactStore (id_of x01) in
  let store_b := mkContactStore (id_of x02) in
  adds store_a (make_contact x0a (rstr_of "A-contact"));;
  adds store_b (make_contact x14 (rstr_of "B-contact"));;
  list_a ← lists store_a;
  list_b ← lists store_b;
  assert_eq (contact_label <$> list_a) [rstr_of "A-contact"];;
  assert_eq (contact_label <$> list_b) [rstr_of "B-contact"];;
  a ← gets store_a (id_of x14);
  assert_eq a None;;
  b ← gets store_b (id_of x0a);
  assert_eq b None.

Definition label_too_long_rejected : io DB panic () :=
  let store := mkContactStore (id_of xee) in
  let long_label := mjoin (replicate 65 (rstr_of "x")) in
  err ← unwrap_err (add_contact store (make_contact x01 long_label));
  assert (match err with CeLabelTooLong 65 => true | _ => false end).

Definition add_machine_key_appends_to_contact : io DB panic () :=
  let store := mkContactStore (id_of xff) in
  adds store (make_contact x05 (rstr_of "Dave"));;
  let mk := mkContactMachineKey (mkMachineId (fill16 x10)) (arr_fill 32 x00) (replicate 1184 x00)
    (arr_fill 32 x00) (replicate 32 x00) (mkEpoch (umk 64 1)) in
  found ← gets store (id_of x05);
  c ← some found;
  adds store (mkContact (contact_identity_id c) (contact_label c) (contact_machine_keys c ++ [mk])
    (contact_last_seen_epoch c) (contact_added_at_ms c));;
  found ← gets store (id_of x05);
  updated ← some found;
  assert_eq (cmk_machine_id <$> contact_machine_keys updated) [cmk_machine_id mk].
End contact_tests.

Section inbox_tests.
Context {S : Type}.

(** ** [inbox/index.rs] *)

Definition make_identity : IdentityId := mkIdentityId (fill16 x01).
Definition make_machine : MachineId := mkMachineId (fill16 x02).
Definition make_conv (seed : byte) : ConversationId := mkConversationId (arr_fit 32 [seed]).
Definition key_of (ts : u64) (conv : ConversationId) : bytes :=
  encode_key make_identity make_machine ts conv.

Definition round_trip_key_encoding : io S panic () :=
  let conv := make_conv x03 in
  let ts := ms 1700000000000 in
  let key := key_of ts conv in
  assert_eq (length key) KEY_LEN;;
  '(id2, mid2, ts2, cid2) ← some (decode_key key);
  assert_eq id2 make_identity;;
  assert_eq mid2 make_machine;;
  assert_eq ts2 ts;;
  assert_eq cid2 conv.

Definition decode_wrong_length_returns_none : io S panic () :=
  assert_eq (decode_key (replicate 10 x00)) None;;
  assert_eq (decode_key []) None.

Definition owner_prefix_matches_key_start : io S panic () :=
  let key := key_of (ms 42000) (make_conv x09) in
  assert (starts_with key (inbox_prefix make_identity make_machine)).

Definition forward_scan_order_is_desc_by_timestamp : io S panic () :=
  let newer := key_of (ms 2000) (make_conv x01) in
  let older := key_of (ms 1000) (make_conv x02) in
  assert_eq (bytes_cmp newer older) Lt.

Definition inverted_ts_roundtrip_max_min : io S panic () :=
  for_all [0; 1; umax 64 / 2; umax 64 - 1]%Z (λ ts,
    '(_, _, recovered, _) ← some (decode_key (key_of (ms ts) (make_conv x05)));
    assert_eq (uval recovered) ts).

(** ** [inbox/types.rs] *)

Definition cap_preview_short_text : io S panic () :=
  assert_eq (cap_preview (rstr_of "hello world")) (rstr_of "hello world").

Definition cap_preview_exactly_140 : io S panic () :=
  let text := mjoin (replicate 140 (rstr_of "a")) in
  assert_eq (length (cap_preview text)) 140.

Definition cap_preview_long_text_truncated : io S panic () :=
  let text := mjoin (replicate 200 (rstr_of "b")) in
  assert_eq (length (cap_preview text)) 140.

Definition cap_preview_multibyte_chars : io S panic () :=
  let text := replicate 150 (Char 128512 I) in
  assert_eq (length (cap_preview text)) 140.

Definition conversation_ref_dm_kind : io S panic () :=
  assert_eq (ref_kind (ref_dm (mkConversationId (arr_fill 32 x00)))) KindDm.

Definition conversation_ref_group_kind : io S panic () :=
  assert_eq (ref_kind (ref_group (mkConversationId (arr_fill 32 x01)))) KindGroup.
End inbox_tests.

(** ** The runs *)

#[local] Existing Instance mem_contact.

Definition index_tests : list (string * io (@DB mem_rocks) panic ()) :=
  [("add_and_get_round_trip", add_and_get_round_trip);
   ("get_missing_returns_none", get_missing_returns_none);
   ("remove_then_get_returns_none", remove_then_get_returns_none);
   ("list_contacts_empty", list_contacts_empty);
   ("list_contacts_multiple", list_contacts_multiple);
   ("uniqueness_on_identity_id", uniqueness_on_identity_id);
   ("scoping_respected", scoping_respected);
   ("label_too_long_rejected", label_too_long_rejected);
   ("add_machine_key_appends_to_contact", add_machine_key_appends_to_contact);
   ("round_trip_key_encoding", round_trip_key_encoding);
   ("decode_wrong_length_returns_none", decode_wrong_length_returns_none);
   ("owner_prefix_matches_key_start", owner_prefix_matches_key_start);
   ("forward_scan_order_is_desc_by_timestamp", forward_scan_order_is_desc_by_timestamp);
   ("inverted_ts_roundtrip_max_min", inverted_ts_roundtrip_max_min);
   ("cap_preview_short_text", cap_preview_short_text);
   ("cap_preview_exactly_140", cap_preview_exactly_140);
   ("cap_preview_long_text_truncated", cap_preview_long_text_truncated);
   ("cap_preview_multibyte_chars", cap_preview_multibyte_chars);
   ("conversation_ref_dm_kind", conversation_ref_dm_kind);
   ("conversation_ref_group_kind", conversation_ref_group_kind)]%string.

Lemma index_tests_pass : failures (mem_new : @DB mem_rocks) index_tests = [].
Proof. vm_compute. reflexivity. Qed.
