(* ===== verification/NetTests.v ===== *)
(** * The tests of the network crate ([mock.rs], [retry.rs], [real.rs])

    One definition per [#[test]] function. A stream that times out is one whose poll is pending.
    In the tests of the pump the paused clock is moved by steps, and the pump makes one pass at
    each; in those of the live client the service reports the events that are given. *)

From Stdlib Require Import ZArith Lia Strings.Byte.
From stdpp Require Import base tactics gmap strings sorting numbers countable list.
From S2P Require Import Prelude Bytes Net Retry PumpOutbox Broadcast Broker RealClient StorageTests TestKit.
#[local] Open Scope nat_scope.

(** ** [mock.rs] *)

Section broker_tests.
Context `{BC : Broadcast}.
Implicit Types (topic : string).

Definition subscribes topic : io BrokerState panic Receiver := unwrap (broker_subscribe (rstr_of topic)).
Definition publishes topic (text : string) : io BrokerState panic () :=
  unwrap (broker_publish (rstr_of topic) (blit text)).
Definition injects topic (fault : Fault) : io BrokerState panic () := λ st,
  (inject_fault (rstr_of topic) fault st, Ok ()).
Definition counts (n : nat) : io BrokerState panic () :=
  c ← reads (λ st, Ok (sector_count st)); assert_eq c n.

(** [stream.next()] within the timeout: an item, or nothing. *)
Definition next (rx : Receiver) : io BrokerState panic (option (result NetworkError SectorBytes)) := λ st,
  let (heap, item) := poll_next rx (hub_heap (br_hub st)) in
  (mkBroker (br_published st) (mkHub (hub_topics (br_hub st)) heap) (br_faults st), Ok item).
Definition next_is (rx : Receiver) (text : string) : io BrokerState panic () :=
  item ← next rx;
  polled ← some item;
  b ← unwrap (lift polled);
  assert_eq b (blit text).
Definition times_out (rx : Receiver) : io BrokerState panic () :=
  item ← next rx;
  assert (match item with None => true | Some _ => false end).

Definition multi_subscriber_pub_sub : io BrokerState panic () :=
  stream_a ← subscribes "topic.test";
  stream_b ← subscribes "topic.test";
  publishes "topic.test" "hello";;
  next_is stream_a "hello";;
  next_is stream_b "hello";;
  counts 1.

Definition injected_duplicate_delivered_twice : io BrokerState panic () :=
  injects "dup.topic" Duplicate;;
  stream ← subscribes "dup.topic";
  publishes "dup.topic" "dup-msg";;
  next_is stream "dup-msg";;
  next_is stream "dup-msg".

Definition injected_drop_suppresses_delivery : io BrokerState panic () :=
  injects "drop.topic" Drop;;
  stream ← subscribes "drop.topic";
  publishes "drop.topic" "gone";;
  times_out stream;;
  counts 1.

Definition scan_and_drain_published : io BrokerState panic () :=
  publishes "t1" "a";;
  publishes "t2" "b";;
  publishes "t1" "c";;
  counts 3;;
  drained ← (λ st, let (st, l) := drain_published st in (st, Ok l));
  assert_eq (fst <$> drained) (rstr_of <$> ["t1"; "t2"; "t1"]%string);;
  counts 0.

Definition unsubscribe_removes_topic : io BrokerState panic () :=
  subscribes "unsub.topic";;
  unwrap (broker_unsubscribe (rstr_of "unsub.topic"));;
  has ← reads (λ st, Ok (bool_decide (is_Some (hub_topics (br_hub st) !! rstr_of "unsub.topic"))));
  assert (negb has).

Definition different_topics_isolated : io BrokerState panic () :=
  stream_a ← subscribes "topic.a";
  publishes "topic.b" "wrong";;
  times_out stream_a.
End broker_tests.

(** ** [retry.rs] *)

Section pump_tests.
Context {S : Type} `{H : HashOrder}.
#[local] Existing Instance InMemoryOutboxHandle.

(** The loops of the test draw [ns] anew each time. *)
Definition backoff_stays_within_jitter_bounds_expected (ns : u64) : io S panic () :=
  let within attempts lo hi :=
    let delay := uval (compute_backoff_ms (umk 8 attempts) ns) in
    assert ((lo <=? delay) && (delay <=? hi))%Z in
  within 1%Z 250%Z 500%Z;;
  within 5%Z 4000%Z 8000%Z;;
  within 20%Z 15000%Z 30000%Z.

(** A pass at each step of the clock, [ms] milliseconds apart. *)
Definition steps (n : nat) (ms : Z) : list (u64 * (nat → u64 * u64)) :=
  (λ k, let t := umk 64 (Z.of_nat k * ms) in (t, λ _, (umk 64 7, t))) <$> seq 0 n.

Definition queue_of (topics : list (string * string)) : OutboxState :=
  foldl (λ st e, handle_enqueue (rstr_of e.1) (blit e.2) st) InMemoryOutboxHandle_new topics.

Definition pump_publishes_due_entries : io S panic () :=
  let outbox := queue_of [("topic/a", "payload-a"); ("topic/b", "payload-b"); ("topic/c", "payload-c")]%string in
  let pumped := pump_loop (G := AlwaysOkClient) RetryPump_new
    (steps 2 (uval PUMP_POLL_INTERVAL_MS + 10)) (mkPump (G := AlwaysOkClient) tt outbox []) in
  assert_eq (handle_len (ps_outbox pumped)) 0.

Definition exhaustion_after_max_attempts : io S panic () :=
  let outbox := queue_of [("topic/fail", "data")]%string in
  let pumped := pump_loop (G := AlwaysFailClient) (with_exhaustion_channel RetryPump_new)
    (steps (Z.to_nat (uval RETRY_MAX_ATTEMPTS) + 2) 35000) (mkPump (G := AlwaysFailClient) tt outbox []) in
  assert (negb (handle_contains (rstr_of "topic/fail") (ps_outbox pumped)));;
  event ← some (ps_events pumped !! 0);
  assert_eq (rx_topic event) (rstr_of "topic/fail");;
  assert_eq (rx_attempts event) RETRY_MAX_ATTEMPTS.

(** The client of the test; its state is the number of calls. *)
Definition FailTwiceClient : GridClient :=
  {| grid_state := u8; grid_stream := Empty_set;
     publish _ _ call_count := (uadd call_count (umk 8 1),
       if (uval call_count <? 2)%Z then Err (NetOther "fail") else Ok ());
     subscribe _ call_count := (call_count, Err (NetOther "not implemented"));
     unsubscribe _ call_count := (call_count, Ok ()) |}.

Definition partial_failure_retries_then_succeeds : io S panic () :=
  let outbox := queue_of [("topic/partial", "data")]%string in
  let pumped := pump_loop (G := FailTwiceClient) RetryPump_new (steps 6 35000)
    (mkPump (G := FailTwiceClient) (umk 8 0) outbox []) in
  assert_eq (handle_len (ps_outbox pumped)) 0;;
  assert (3 <=? uval (ps_net pumped))%Z.
End pump_tests.

(** Whatever the clock reads when the jitter is drawn. *)
Lemma backoff_test_passes {S : Type} (s : S) ns :
  backoff_stays_within_jitter_bounds_expected ns s = (s, Ok ()).
Proof.
  unfold backoff_stays_within_jitter_bounds_expected. cbv zeta. rewrite !backoff_value.
  change (nominal_delay (umk 8 1)) with 500%Z. change (nominal_delay (umk 8 5)) with 8000%Z.
  change (nominal_delay (umk 8 20)) with 30000%Z.
  assert (∀ lo half hi, (0 < half → lo <= half → 2 * half <= hi →
    (lo <=? half + uval ns mod half) && (half + uval ns mod half <=? hi) = true)%Z) as Hin.
  { intros lo half hi ???. pose proof (Z.mod_pos_bound (uval ns) half).
    rewrite andb_true_iff, !Z.leb_le. lia. }
  rewrite !Hin by (vm_compute; done). done.
Qed.

(** ** [real.rs] *)

Section real_tests.
Context {S : Type} `{GN : GridNet} `{!EqDecision ZodeId} `{BC : Broadcast}.

(** [Display] of [NetworkError]; [show_str] and [show_u8] write its fields. *)
Definition NetworkError_to_string (show_str : rstr → string) (show_u8 : u8 → string)
    (e : NetworkError) : string :=
  match e with
  | Io error => error
  | MaxRetriesExceeded sector_id attempts =>
      "max retries exceeded for sector " +:+ show_str sector_id +:+ " after " +:+
      show_u8 attempts +:+ " attempts"
  | SubscriptionClosed => "subscription closed"
  | Timeout => "operation timed out"
  | NetOther s => "grid error: " +:+ s
  end.

Definition connect_with_invalid_multiaddr_fails show_str show_u8 (events : list (option NetworkEvent))
    (heap : bc_heap) : io S panic () :=
  err ← unwrap_err (lift (connect_with_timeout "not-a-multiaddr" events heap));
  let msg := NetworkError_to_string show_str show_u8 err in
  assert (contains msg "invalid multiaddr").

(** The address is of an unreachable peer: [events] tells of no connection. *)
Definition connect_to_unreachable_peer_returns_some_network_error (peer : string)
    (events : list (option NetworkEvent)) (heap : bc_heap) : io S panic () :=
  let unreachable := ("/ip4/192.0.2.1/udp/65530/quic-v1/p2p/" +:+ peer)%string in
  unwrap_err (lift (connect_with_timeout unreachable events heap));; mret ().

Definition connect_via_circuit_relay_does_not_succeed_when_unreachable (relay dest : string)
    (events : list (option NetworkEvent)) (heap : bc_heap) : io S panic () :=
  let unreachable :=
    ("/ip4/192.0.2.1/tcp/3691/p2p/" +:+ relay +:+ "/p2p-circuit/p2p/" +:+ dest)%string in
  unwrap_err (lift (connect_with_timeout unreachable events heap));; mret ().
End real_tests.

(** ** The runs *)

Definition broker_tests : list (string * io BrokerState panic ()) :=
  [("multi_subscriber_pub_sub", multi_subscriber_pub_sub);
   ("injected_duplicate_delivered_twice", injected_duplicate_delivered_twice);
   ("injected_drop_suppresses_delivery", injected_drop_suppresses_delivery);
   ("scan_and_drain_published", scan_and_drain_published);
   ("unsubscribe_removes_topic", unsubscribe_removes_topic);
   ("different_topics_isolated", different_topics_isolated)]%string.

Lemma broker_tests_pass : failures (broker_new (MemHeap 0 [] : bc_heap)) broker_tests = [].
Proof. vm_compute. reflexivity. Qed.

#[local] Instance listed_order : HashOrder := λ V m, map_to_list m.

Lemma pump_tests_pass :
  failures tt
    [("pump_publishes_due_entries", pump_publishes_due_entries);
     ("exhaustion_after_max_attempts", exhaustion_after_max_attempts);
     ("partial_failure_retries_then_succeeds", partial_failure_retries_then_succeeds)]%string = [].
Proof. vm_compute. reflexivity. Qed.

(** A network that refuses addresses that do not start with a slash, with the peer to reach in
    every other; nothing happens, the dial of another peer succeeds, or this one's fails. *)
#[local] Instance picky_net : GridNet :=
  {| Multiaddr := string; ZodeId := nat; NetworkService := list rstr;
     strip_zx_multiaddr s := s;
     multiaddr_from_str s := if String.prefix "/" s then Ok s else Err "no slash"%string;
     extract_dial_target _ := Some 7;
     listen_addr := EmptyString; service_new _ _ := Ok [];
     service_subscribe t s := (t :: s, Ok ()); service_unsubscribe t s := (s, Ok ());
     service_publish _ _ s := (s, Ok ()) |}.
Definition no_connection : list (list (option NetworkEvent)) :=
  [[]; [Some (PeerConnected 3)]; [Some OtherEvent; Some (ConnectionFailed (Some 7) "refused")]; [None]].

Lemma real_tests_pass :
  Forall (λ events, failures tt
    [("connect_with_invalid_multiaddr_fails",
       connect_with_invalid_multiaddr_fails (λ _, "s"%string) (λ _, "n"%string) events (MemHeap 0 [] : bc_heap));
     ("connect_to_unreachable_peer_returns_some_network_error",
       connect_to_unreachable_peer_returns_some_network_error "peer" events (MemHeap 0 [] : bc_heap));
     ("connect_via_circuit_relay_does_not_succeed_when_unreachable",
       connect_via_circuit_relay_does_not_succeed_when_unreachable "relay" "dest" events
         (MemHeap 0 [] : bc_heap))]%string = []) no_connection.
Proof. repeat constructor; vm_compute; reflexivity. Qed.
