(* ===== verification/CryptoTests.v ===== *)
(** * The tests of the crypto crate ([aad.rs], [encrypt.rs], [sign.rs], [envelope.rs] and
      [tests/envelope_integration.rs])

    One definition per [#[test]] function, over the interfaces of the primitives and the
    randomness that the key pairs, the encryptions and the signatures draw. They are evaluated
    on primitives that authenticate what they take (the last section). The generated round trip
    of [encrypt.rs] and the round trips with large messages hold for every lawful primitive and
    every message within the cipher's limit. *)

From Stdlib Require Import ZArith Lia Strings.Byte.
From stdpp Require Import base tactics gmap strings sorting numbers countable list.
From S2P Require Import Prelude Bytes Aad Crypto Envelope TestKit.
#[local] Open Scope nat_scope.

(** ** What the tests share *)

Definition test := io () panic ().

(** [matches!(err, SignatureVerificationFailed { .. })] *)
Definition is_signature_failure (e : CryptoError) : bool :=
  match e with SignatureVerificationFailed _ => true | _ => false end.

(** ** [aad.rs] *)

Section aad_tests.
Context `{CB : Ciborium}.

Definition sample_aad : MessageAad :=
  mkMessageAad (mkSchemaTag (umk 32 1)) (mkAadSectorId (fill16 x01)) (mkIdentityId (fill16 x02))
    (mkMachineId (fill16 x03)) (mkEpoch (umk 64 42)) None.

Definition with_prev (a : MessageAad) (p : option SectorId) : MessageAad :=
  mkMessageAad (schema_tag a) (sector_id a) (sender_identity a) (sender_machine a) (epoch a) p.
Definition with_epoch (a : MessageAad) (e : Epoch) : MessageAad :=
  mkMessageAad (schema_tag a) (sector_id a) (sender_identity a) (sender_machine a) e
    (prev_sector_id a).

Definition round_trip_encode_decode : test :=
  let aad := sample_aad in
  encoded ← expect (encode aad);
  decoded ← expect (decode encoded);
  assert_eq aad decoded.

Definition encode_is_deterministic : test :=
  let aad := sample_aad in
  a ← expect (encode aad);
  b ← expect (encode aad);
  assert_eq a b.

Definition round_trip_byte_identical : test :=
  let aad := sample_aad in
  encoded1 ← expect (encode aad);
  decoded ← expect (decode encoded1);
  encoded2 ← expect (encode decoded);
  assert_eq encoded1 encoded2.

Definition with_prev_sector_id : test :=
  let prev := Some (mkAadSectorId (fill16 xdd)) in
  let aad := with_prev sample_aad prev in
  encoded ← expect (encode aad);
  decoded ← expect (decode encoded);
  assert_eq aad decoded;;
  assert_eq (prev_sector_id decoded) prev.

Definition different_field_values_change_bytes : test :=
  let aad1 := sample_aad in
  let aad2 := with_epoch sample_aad (mkEpoch (umk 64 99)) in
  e1 ← expect (encode aad1);
  e2 ← expect (encode aad2);
  assert_ne e1 e2.

Definition adding_prev_sector_id_changes_bytes : test :=
  let aad1 := sample_aad in
  let aad2 := with_prev sample_aad (Some (mkAadSectorId (fill16 xab))) in
  e1 ← expect (encode aad1);
  e2 ← expect (encode aad2);
  assert_ne e1 e2.
End aad_tests.

(** ** [encrypt.rs] *)

(** The draws of a test: the [i]th key pairs, encryption and signature use the [i]th. *)
Section encrypt_tests.
Context `{CC : ChaCha20Poly1305} `{HK : HkdfSha256} `{XX : X25519} `{KK : MlKem768}.
Variables (seed : nat → arr 32) (kem_seed : nat → kem_rng) (enc_rng : nat → encrypt_rng).

Definition make_keypair_at (i : nat) : SenderPrivateKey * RecipientPublicKey :=
  make_keypair (seed i) (kem_seed i).

Definition round_trip_basic : test :=
  let '(sk, pk) := make_keypair_at 0 in
  let plaintext := blit "hello zero-crypto" in
  let aad := blit "test-aad" in
  ct ← expect (hybrid_encrypt plaintext pk aad (enc_rng 0));
  recovered ← expect (hybrid_decrypt ct sk aad);
  assert_eq recovered plaintext.

Definition wrong_aad_fails : test :=
  let '(sk, pk) := make_keypair_at 0 in
  ct ← expect (hybrid_encrypt (blit "secret") pk (blit "correct-aad") (enc_rng 0));
  let result := hybrid_decrypt ct sk (blit "wrong-aad") in
  assert_eq result (Err DecryptionFailed).

Definition tampered_kem_output_fails : test :=
  let '(sk, pk) := make_keypair_at 0 in
  ct ← expect (hybrid_encrypt (blit "secret") pk (blit "aad") (enc_rng 0));
  kem_output ← xor_at 40 255 (hc_kem_output ct);
  let ct := mkHybridCiphertext kem_output (hc_ciphertext ct) (hc_nonce ct) in
  let result := hybrid_decrypt ct sk (blit "aad") in
  assert (negb (is_ok result)).

Definition tampered_ciphertext_fails : test :=
  let '(sk, pk) := make_keypair_at 0 in
  ct ← expect (hybrid_encrypt (blit "secret") pk (blit "aad") (enc_rng 0));
  let last := length (hc_ciphertext ct) - 1 in
  ciphertext ← xor_at last 255 (hc_ciphertext ct);
  let ct := mkHybridCiphertext (hc_kem_output ct) ciphertext (hc_nonce ct) in
  let result := hybrid_decrypt ct sk (blit "aad") in
  assert_eq result (Err DecryptionFailed).

(** The generated test, at the values it draws. *)
Definition hybrid_round_trip (plaintext aad : bytes) : test :=
  let '(sk, pk) := make_keypair_at 0 in
  ct ← expect (hybrid_encrypt plaintext pk aad (enc_rng 0));
  recovered ← expect (hybrid_decrypt ct sk aad);
  assert_eq recovered plaintext.

Definition encrypt_tests : list (string * test) := [
  ("round_trip_basic", round_trip_basic); ("wrong_aad_fails", wrong_aad_fails);
  ("tampered_kem_output_fails", tampered_kem_output_fails);
  ("tampered_ciphertext_fails", tampered_ciphertext_fails)]%string.
End encrypt_tests.

(** ** [sign.rs] *)

Section sign_tests.
Context `{EE : Ed25519Lib} `{MM : MlDsa65}.
Variables (ed_seed : nat → arr 32) (dsa_seed sign_rng : nat → dsa_rng).

Definition make_signing_keys (i : nat) : SigningKeys * VerifyingKeys :=
  let '(ed_sk, ed_pk) := generate_ed25519_keypair (ed_seed i) in
  let '(mldsa_sk, mldsa_pk) := generate_mldsa_keypair (dsa_seed i) in
  let signing := mkSigningKeys ed_sk mldsa_sk in
  let verifying := mkVerifyingKeys ed_pk mldsa_pk in
  (signing, verifying).

(** The tests that sign a message and verify it. *)
Definition sign_then_verify (message : bytes) : test :=
  let '(sk, vk) := make_signing_keys 0 in
  sig ← expect (dual_sign message sk (sign_rng 0));
  expect (dual_verify message sig vk).

Definition round_trip_sign_verify : test := sign_then_verify (blit "hello, dual signatures!").
Definition empty_message_round_trip : test := sign_then_verify [].
Definition large_message_round_trip : test :=
  sign_then_verify (replicate (Z.to_nat 65536) xab).

Definition fails_in (err : CryptoError) (algorithm : string) : test :=
  match err with
  | SignatureVerificationFailed a => assert_eq a algorithm
  | _ => fails ("expected SignatureVerificationFailed(" +:+ algorithm +:+ ")")%string
  end.

Definition flipped_ed25519_byte_fails : test :=
  let '(sk, vk) := make_signing_keys 0 in
  let message := blit "tamper test" in
  sig ← expect (dual_sign message sk (sign_rng 0));
  ed25519 ← xor_at 0 255 (arr_bytes (ds_ed25519 sig));
  let sig := mkDualSignature (arr_fit 64 ed25519) (ds_mldsa sig) in
  err ← expect_err (dual_verify message sig vk);
  fails_in err "Ed25519".

Definition flipped_mldsa_byte_fails : test :=
  let '(sk, vk) := make_signing_keys 0 in
  let message := blit "tamper test mldsa" in
  sig ← expect (dual_sign message sk (sign_rng 0));
  mldsa ← xor_at 0 255 (ds_mldsa sig);
  let sig := mkDualSignature (ds_ed25519 sig) mldsa in
  err ← expect_err (dual_verify message sig vk);
  fails_in err "ML-DSA-65".

Definition wrong_message_fails_ed25519 : test :=
  let '(sk, vk) := make_signing_keys 0 in
  sig ← expect (dual_sign (blit "original") sk (sign_rng 0));
  err ← expect_err (dual_verify (blit "modified") sig vk);
  assert_eq err (SignatureVerificationFailed "Ed25519").

Definition wrong_public_key_fails : test :=
  let '(sk, _) := make_signing_keys 0 in
  let '(_, vk2) := make_signing_keys 1 in
  let message := blit "wrong key test" in
  sig ← expect (dual_sign message sk (sign_rng 0));
  err ← expect_err (dual_verify message sig vk2);
  assert (is_signature_failure err).

Definition signature_is_non_empty : test :=
  let '(sk, _) := make_signing_keys 0 in
  sig ← expect (dual_sign (blit "data") sk (sign_rng 0));
  assert_eq (length (arr_bytes (ds_ed25519 sig))) 64;;
  assert (negb (bool_decide (ds_mldsa sig = []))).

Definition sign_tests : list (string * test) := [
  ("round_trip_sign_verify", round_trip_sign_verify);
  ("empty_message_round_trip", empty_message_round_trip);
  ("flipped_ed25519_byte_fails", flipped_ed25519_byte_fails);
  ("flipped_mldsa_byte_fails", flipped_mldsa_byte_fails);
  ("wrong_message_fails_ed25519", wrong_message_fails_ed25519);
  ("wrong_public_key_fails", wrong_public_key_fails);
  ("signature_is_non_empty", signature_is_non_empty)]%string.
End sign_tests.

(** ** [envelope.rs] *)

Record TestKeys : Type := mkTestKeys {
  recipient_pk : RecipientPublicKey;
  recipient_sk : SenderPrivateKey;
  sender_signing : SigningKeys;
  sender_verifying : VerifyingKeys;
}.

Section envelope_tests.
Context `{CB : Ciborium} `{CC : ChaCha20Poly1305} `{HK : HkdfSha256} `{XX : X25519}
  `{KK : MlKem768} `{EE : Ed25519Lib} `{MM : MlDsa65}.
Variables (seed : nat → arr 32) (kem_seed : nat → kem_rng) (enc_rng : nat → encrypt_rng)
  (ed_seed : nat → arr 32) (dsa_seed sign_rng : nat → dsa_rng).

Definition make_test_aad : MessageAad :=
  mkMessageAad (mkSchemaTag (umk 32 1)) (mkAadSectorId (fill16 x10)) (mkIdentityId (fill16 x20))
    (mkMachineId (fill16 x30)) (mkEpoch (umk 64 100)) None.

Definition make_test_keys (i : nat) : TestKeys :=
  let '(x_sk, x_pk) := generate_x25519_keypair (seed i) in
  let '(mlkem_dk, mlkem_ek) := generate_mlkem_keypair (kem_seed i) in
  let '(ed_sk, ed_pk) := generate_ed25519_keypair (ed_seed i) in
  let '(mldsa_sk, mldsa_pk) := generate_mldsa_keypair (dsa_seed i) in
  mkTestKeys (mkRecipientPublicKey x_pk mlkem_ek) (mkSenderPrivateKey x_sk mlkem_dk)
    (mkSigningKeys ed_sk mldsa_sk) (mkVerifyingKeys ed_pk mldsa_pk).

Definition seals (keys : TestKeys) (aad : MessageAad) (plaintext : bytes)
    : io () panic CryptoEnvelope :=
  expect (seal_envelope plaintext aad (recipient_pk keys) (sender_signing keys) (enc_rng 0)
    (sign_rng 0)).

Definition seal_open_round_trip : test :=
  let keys := make_test_keys 0 in
  let aad := make_test_aad in
  let plaintext := blit "hello, crypto envelope!" in
  env ← seals keys aad plaintext;
  '(recovered, recovered_aad) ← expect (open_envelope env (recipient_sk keys) (sender_verifying keys));
  assert_eq recovered plaintext;;
  assert_eq recovered_aad aad.

Definition seal_open_with_prev_sector_id : test :=
  let keys := make_test_keys 0 in
  let aad := with_prev make_test_aad (Some (mkAadSectorId (fill16 xaa))) in
  let plaintext := blit "with prev sector" in
  env ← seals keys aad plaintext;
  '(recovered, recovered_aad) ← expect (open_envelope env (recipient_sk keys) (sender_verifying keys));
  assert_eq recovered plaintext;;
  assert_eq recovered_aad aad.

Definition seal_open_empty_plaintext : test :=
  let keys := make_test_keys 0 in
  let aad := make_test_aad in
  env ← seals keys aad [];
  '(recovered, _) ← expect (open_envelope env (recipient_sk keys) (sender_verifying keys));
  assert (bool_decide (recovered = [])).

Definition tampered_ciphertext_returns_decryption_failed : test :=
  let keys := make_test_keys 0 in
  let aad := make_test_aad in
  let plaintext := blit "tamper ciphertext test" in
  env ← seals keys aad plaintext;
  let ct := env_ciphertext env in
  ciphertext ← xor_at 0 255 (hc_ciphertext ct);
  let ct := mkHybridCiphertext (hc_kem_output ct) ciphertext (hc_nonce ct) in
  let sig_msg := signing_message (env_aad env) ct in
  signature ← expect (dual_sign sig_msg (sender_signing keys) (sign_rng 1));
  let env := mkCryptoEnvelope (env_aad env) ct signature in
  err ← expect_err (open_envelope env (recipient_sk keys) (sender_verifying keys));
  assert_eq err DecryptionFailed.

Definition tampered_signature_fails_before_decrypt : test :=
  let keys := make_test_keys 0 in
  let aad := make_test_aad in
  let plaintext := blit "tamper signature test" in
  env ← seals keys aad plaintext;
  ed25519 ← xor_at 0 255 (arr_bytes (ds_ed25519 (env_signature env)));
  let env := mkCryptoEnvelope (env_aad env) (env_ciphertext env)
    (mkDualSignature (arr_fit 64 ed25519) (ds_mldsa (env_signature env))) in
  err ← expect_err (open_envelope env (recipient_sk keys) (sender_verifying keys));
  assert (is_signature_failure err).

Definition tampered_mldsa_signature_fails : test :=
  let keys := make_test_keys 0 in
  let aad := make_test_aad in
  let plaintext := blit "tamper mldsa sig test" in
  env ← seals keys aad plaintext;
  mldsa ← xor_at 0 255 (ds_mldsa (env_signature env));
  let env := mkCryptoEnvelope (env_aad env) (env_ciphertext env)
    (mkDualSignature (ds_ed25519 (env_signature env)) mldsa) in
  err ← expect_err (open_envelope env (recipient_sk keys) (sender_verifying keys));
  assert (is_signature_failure err).

Definition tampered_aad_bytes_fails_signature : test :=
  let keys := make_test_keys 0 in
  let aad := make_test_aad in
  let plaintext := blit "tamper aad test" in
  env ← seals keys aad plaintext;
  aad_bytes ← (if bool_decide (env_aad env = []) then mret [] else xor_at 0 255 (env_aad env));
  let env := mkCryptoEnvelope aad_bytes (env_ciphertext env) (env_signature env) in
  err ← expect_err (open_envelope env (recipient_sk keys) (sender_verifying keys));
  assert (is_signature_failure err).

Definition wrong_sender_verifying_key_fails : test :=
  let keys := make_test_keys 0 in
  let keys2 := make_test_keys 1 in
  let aad := make_test_aad in
  let plaintext := blit "wrong sender key" in
  env ← seals keys aad plaintext;
  err ← expect_err (open_envelope env (recipient_sk keys) (sender_verifying keys2));
  assert (is_signature_failure err).

Definition wrong_recipient_key_fails : test :=
  let keys := make_test_keys 0 in
  let keys2 := make_test_keys 1 in
  let aad := make_test_aad in
  let plaintext := blit "wrong recipient key" in
  env ← seals keys aad plaintext;
  err ← expect_err (open_envelope env (recipient_sk keys2) (sender_verifying keys));
  assert_eq err DecryptionFailed.

Definition round_trip_of (plaintext : bytes) : test :=
  let keys := make_test_keys 0 in
  let aad := make_test_aad in
  env ← seals keys aad plaintext;
  '(recovered, _) ← expect (open_envelope env (recipient_sk keys) (sender_verifying keys));
  assert_eq recovered plaintext.

Definition large_plaintext_round_trip : test :=
  round_trip_of (replicate (Z.to_nat 65536) xab).

(** ** [tests/envelope_integration.rs], whose tests share most of their names with those above *)

Definition integration_aad : MessageAad :=
  mkMessageAad (mkSchemaTag (umk 32 1)) (mkAadSectorId (fill16 x01)) (mkIdentityId (fill16 x02))
    (mkMachineId (fill16 x03)) (mkEpoch (umk 64 42)) None.

Definition flip_ed25519 (env : CryptoEnvelope) : io () panic CryptoEnvelope :=
  ed25519 ← xor_at 0 255 (arr_bytes (ds_ed25519 (env_signature env)));
  mret (mkCryptoEnvelope (env_aad env) (env_ciphertext env)
    (mkDualSignature (arr_fit 64 ed25519) (ds_mldsa (env_signature env)))).
Definition flip_mldsa (env : CryptoEnvelope) : io () panic CryptoEnvelope :=
  mldsa ← xor_at 0 255 (ds_mldsa (env_signature env));
  mret (mkCryptoEnvelope (env_aad env) (env_ciphertext env)
    (mkDualSignature (ds_ed25519 (env_signature env)) mldsa)).
Definition flip_last (env : CryptoEnvelope) : io () panic CryptoEnvelope :=
  let ct := env_ciphertext env in
  let last := length (hc_ciphertext ct) - 1 in
  ciphertext ← xor_at last 255 (hc_ciphertext ct);
  mret (mkCryptoEnvelope (env_aad env)
    (mkHybridCiphertext (hc_kem_output ct) ciphertext (hc_nonce ct)) (env_signature env)).

Definition integration_seal_open_round_trip : test :=
  let keys := make_test_keys 0 in
  let aad := integration_aad in
  let plaintext := blit "hello, zero-sdk sealed world!" in
  env ← seals keys aad plaintext;
  '(recovered, recovered_aad) ← expect (open_envelope env (recipient_sk keys) (sender_verifying keys));
  assert_eq recovered plaintext;;
  assert_eq (Aad.epoch recovered_aad) (Aad.epoch aad);;
  assert_eq (Aad.sector_id recovered_aad) (Aad.sector_id aad).

Definition integration_seal_open_empty_plaintext : test :=
  let keys := make_test_keys 0 in
  env ← seals keys integration_aad [];
  '(recovered, _) ← expect (open_envelope env (recipient_sk keys) (sender_verifying keys));
  assert (bool_decide (recovered = [])).

Definition integration_tampered_ciphertext_returns_decryption_failed : test :=
  let keys := make_test_keys 0 in
  env ← seals keys integration_aad (blit "secret data");
  env ← flip_last env;
  assert_eq (open_envelope env (recipient_sk keys) (sender_verifying keys)) (Err DecryptionFailed).

Definition tampered_ed25519_signature_returns_sig_verification_failed : test :=
  let keys := make_test_keys 0 in
  env ← seals keys integration_aad (blit "signed data");
  env ← flip_ed25519 env;
  err ← expect_err (open_envelope env (recipient_sk keys) (sender_verifying keys));
  assert (is_signature_failure err).

Definition tampered_mldsa_signature_returns_sig_verification_failed : test :=
  let keys := make_test_keys 0 in
  env ← seals keys integration_aad (blit "signed data");
  env ← flip_mldsa env;
  err ← expect_err (open_envelope env (recipient_sk keys) (sender_verifying keys));
  assert (is_signature_failure err).

Definition signature_checked_before_decryption : test :=
  let keys := make_test_keys 0 in
  env ← seals keys integration_aad (blit "check order");
  env ← flip_ed25519 env;
  env ← flip_last env;
  err ← expect_err (open_envelope env (recipient_sk keys) (sender_verifying keys));
  assert (is_signature_failure err).

Definition integration_wrong_recipient_key_fails : test :=
  let keys := make_test_keys 0 in
  let other := make_test_keys 1 in
  env ← seals keys integration_aad (blit "for someone else");
  assert (negb (is_ok (open_envelope env (recipient_sk other) (sender_verifying keys)))).

Definition envelope_tests : list (string * test) := [
  ("seal_open_round_trip", seal_open_round_trip);
  ("seal_open_with_prev_sector_id", seal_open_with_prev_sector_id);
  ("seal_open_empty_plaintext", seal_open_empty_plaintext);
  ("tampered_ciphertext_returns_decryption_failed", tampered_ciphertext_returns_decryption_failed);
  ("tampered_signature_fails_before_decrypt", tampered_signature_fails_before_decrypt);
  ("tampered_mldsa_signature_fails", tampered_mldsa_signature_fails);
  ("tampered_aad_bytes_fails_signature", tampered_aad_bytes_fails_signature);
  ("wrong_sender_verifying_key_fails", wrong_sender_verifying_key_fails);
  ("wrong_recipient_key_fails", wrong_recipient_key_fails);
  ("integration_seal_open_round_trip",
    integration_seal_open_round_trip);
  ("integration_seal_open_empty_plaintext",
    integration_seal_open_empty_plaintext);
  ("integration_tampered_ciphertext_returns_decryption_failed",
    integration_tampered_ciphertext_returns_decryption_failed);
  ("tampered_ed25519_signature_returns_sig_verification_failed",
    tampered_ed25519_signature_returns_sig_verification_failed);
  ("tampered_mldsa_signature_returns_sig_verification_failed",
    tampered_mldsa_signature_returns_sig_verification_failed);
  ("signature_checked_before_decryption",
    signature_checked_before_decryption);
  ("integration_wrong_recipient_key_fails",
    integration_wrong_recipient_key_fails)]%string.
End envelope_tests.

(** ** For every lawful primitive *)

Section lawful.
Context `{CB : Ciborium} `{CBOk : !CiboriumOk} `{CC : ChaCha20Poly1305} `{COk : !ChaChaOk} `{HK : HkdfSha256} `{XX : X25519}
  `{XOk : !X25519Ok} `{KK : MlKem768} `{KOk : !MlKemOk} `{EE : Ed25519Lib} `{EOk : !Ed25519Ok}
  `{MM : MlDsa65} `{MOk : !MlDsaOk}.

Lemma hybrid_round_trip_passes seed kem_seed enc_rng plaintext aad :
  length plaintext ≤ chacha_limit →
  hybrid_round_trip seed kem_seed enc_rng plaintext aad tt = (tt, Ok tt).
Proof using COk KOk XOk.
  intros Hlen. unfold hybrid_round_trip, make_keypair_at.
  pose proof (encrypt_decrypt (seed 0) (kem_seed 0) plaintext aad (enc_rng 0) Hlen) as H.
  destruct (make_keypair _ _) as [sk pk]. destruct H as (ct & He & Hd).
  unfold expect, unwrap, io_map_err, lift, mbind, io_bind. rewrite He. cbn. rewrite Hd. cbn.
  unfold assert_eq. by rewrite bool_decide_true.
Qed.

Lemma sign_then_verify_passes ed_seed dsa_seed sign_rng message :
  sign_then_verify ed_seed dsa_seed sign_rng message tt = (tt, Ok tt).
Proof using EOk MOk.
  unfold sign_then_verify, make_signing_keys.
  pose proof (sign_verify message (ed_seed 0) (dsa_seed 0) (sign_rng 0)) as H.
  destruct (generate_ed25519_keypair _) as [es ep]. destruct (generate_mldsa_keypair _) as [ds dp].
  destruct H as (sig & Hs & Hv). cbv beta iota zeta.
  unfold expect, unwrap, io_map_err, lift, mbind, io_bind. rewrite Hs. cbn. by rewrite Hv.
Qed.

Lemma large_message_passes ed_seed dsa_seed sign_rng :
  large_message_round_trip ed_seed dsa_seed sign_rng tt = (tt, Ok tt).
Proof using EOk MOk. apply sign_then_verify_passes. Qed.

Lemma round_trip_of_passes seed kem_seed enc_rng ed_seed dsa_seed sign_rng plaintext :
  length plaintext ≤ chacha_limit →
  round_trip_of seed kem_seed enc_rng ed_seed dsa_seed sign_rng plaintext tt = (tt, Ok tt).
Proof using CBOk COk EOk KOk MOk XOk.
  intros Hlen. unfold round_trip_of, make_test_keys. destruct (encode_decode make_test_aad) as (b & Hb & Hd).
  pose proof (encrypt_decrypt (seed 0) (kem_seed 0) plaintext b (enc_rng 0) Hlen) as Henc.
  unfold make_keypair in Henc. destruct (generate_x25519_keypair _) as [xs xp].
  destruct (generate_mlkem_keypair _) as [md me]. destruct Henc as (ct & Hct & Hdec).
  pose proof (sign_verify (signing_message b ct) (ed_seed 0) (dsa_seed 0) (sign_rng 0)) as Hs.
  destruct (generate_ed25519_keypair _) as [es ep]. destruct (generate_mldsa_keypair _) as [ds dp].
  destruct Hs as (sig & Hsig & Hv). cbv beta iota zeta.
  destruct (seal_open_steps _ _ _ _ _ _ _ _ _ _ _ Hb Hd Hct Hdec Hsig Hv) as [Hseal Hopen].
  unfold seals, expect, unwrap, io_map_err, lift, mbind, io_bind.
  cbn [recipient_pk recipient_sk sender_signing sender_verifying]. rewrite Hseal. cbn. rewrite Hopen. cbn.
  unfold assert_eq. by rewrite bool_decide_true.
Qed.

Lemma large_plaintext_passes seed kem_seed enc_rng ed_seed dsa_seed sign_rng :
  Z.to_nat 65536 ≤ chacha_limit →
  large_plaintext_round_trip seed kem_seed enc_rng ed_seed dsa_seed sign_rng tt = (tt, Ok tt).
Proof using CBOk COk EOk KOk MOk XOk.
  intros H. apply round_trip_of_passes. by rewrite length_replicate.
Qed.
End lawful.

(** ** The run

    The toy primitives of [Crypto] leave the second secret and the plaintext out of what they
    check; here the key depends on both secrets and the tag on the plaintext. *)

Definition mix (b : bytes) : arr 32 :=
  arr_fit 32 (be_bytes 32 (foldl (λ h x, (h * 257 + byte_Z x) mod 65521)%Z 0%Z b)).

Definition mixing_hkdf : HkdfSha256 := {| hkdf_expand ikm info := mix (ikm ++ info) |}.

Definition tag_of (k n aad m : bytes) : bytes := arr_bytes (mix (k ++ n ++ aad ++ m)).
Definition tagging_chacha : ChaCha20Poly1305 :=
  {| chacha_cipher := bytes; chacha_new k := Ok k;
     chacha_encrypt k n aad m := Some (m ++ tag_of k (arr_bytes n) aad m);
     chacha_decrypt k n aad c :=
       let m := take (length c - 32) c in
       if bool_decide (c = m ++ tag_of k (arr_bytes n) aad m) then Some m else None |}.

#[local] Existing Instances tagging_chacha mixing_hkdf toy_x25519 toy_mlkem toy_ed25519 toy_mldsa.

Definition drawn (from : nat) (i : nat) : arr 32 := arr_fill 32 (Z_byte (Z.of_nat (from + i))).
Definition drawn_enc (i : nat) : encrypt_rng :=
  mkEncryptRng (drawn 40 i) (drawn 50 i) (arr_fill 12 (Z_byte (Z.of_nat (60 + i)))).
Definition drawn_dsa (i : nat) : bytes := [Z_byte (Z.of_nat (70 + i))].

Definition crypto_tests : list (string * test) :=
  [("round_trip_encode_decode", round_trip_encode_decode);
   ("encode_is_deterministic", encode_is_deterministic);
   ("round_trip_byte_identical", round_trip_byte_identical);
   ("with_prev_sector_id", with_prev_sector_id);
   ("different_field_values_change_bytes", different_field_values_change_bytes);
   ("adding_prev_sector_id_changes_bytes", adding_prev_sector_id_changes_bytes)]%string ++
  encrypt_tests (drawn 10) (drawn 20) drawn_enc ++
  sign_tests (drawn 30) drawn_dsa drawn_dsa ++
  envelope_tests (drawn 10) (drawn 20) drawn_enc (drawn 30) drawn_dsa drawn_dsa.

Lemma crypto_tests_pass : failures tt crypto_tests = [].
Proof. vm_compute. reflexivity. Qed.
