(* ===== verification/GroupKeyTests.v ===== *)
(** * The tests of the MLS wrappers ([group_key.rs], [tests/mls_group_tests.rs])

    One definition per [#[test]] function, with what each member draws as arguments, evaluated
    on the toy delivery of [GroupKeyRun]. Left out: the test of [KeyPackageIn], a type of the
    library that the program does not use. *)

From Stdlib Require Import ZArith Lia Strings.Byte.
From stdpp Require Import base tactics gmap strings sorting numbers countable list.
From S2P Require Import Prelude Bytes Aad GroupKey GroupKeyRun TestKit.
#[local] Open Scope nat_scope.

Section group_key_tests.
Context `{M : OpenMls}.
Variables (seed key_seed : nat → Entropy).

(** [unwrap] of a call on a member, or on a group and its member. *)
Definition call {S A} (f : io S CryptoError A) (s : S) : result panic (S * A) :=
  match f s with
  | (s', Ok a) => Ok (s', a)
  | (_, Err _) => Err "called unwrap on an Err value"%string
  end.
Definition get {A} (r : result CryptoError A) : result panic A :=
  map_err (λ _, "called unwrap on an Err value"%string) r.
Definition holds (b : bool) : result panic () :=
  if b then Ok () else Err "assertion failed"%string.
Definition same {A} `{EqDecision A} (x y : A) : result panic () := holds (bool_decide (x = y)).
Definition differ {A} `{EqDecision A} (x y : A) : result panic () := holds (bool_decide (x ≠ y)).

(** The [i]th member made in the test. *)
Definition make_member (name : string) (i : nat) : result panic MlsMember :=
  get (MlsMember_new (rstr_of name) (rstr_of "machine-0") (seed i) (key_seed i)).

Definition generate_key_package_produces_distinct_bytes : result panic () :=
  a ← get (generate_key_package (rstr_of "alice") (rstr_of "m1") (seed 0) (key_seed 0));
  b ← get (generate_key_package (rstr_of "alice") (rstr_of "m1") (seed 1) (key_seed 1));
  differ (mls_key_package_0 a) (mls_key_package_0 b).

Definition two_member_group_send_receive : result panic () :=
  alice ← make_member "alice" 0;
  bob ← make_member "bob" 1;
  '(alice, alice_group) ← call create_group alice;
  '(bob, bob_kp) ← call key_package bob;
  '(alice, (_, welcome)) ← call (add_member bob_kp) (alice_group, alice);
  '(bob, bob_group) ← call (join_group welcome) bob;
  let plaintext := blit "hello from alice" in
  '(alice, ct) ← call (encrypt_for_group plaintext) alice;
  '(bob, decrypted) ← call (decrypt_from_group ct) (bob_group, bob);
  same decrypted plaintext.

Definition group_of_three_forms_and_exchanges_messages : result panic () :=
  alice ← make_member "alice" 0;
  bob ← make_member "bob" 1;
  carol ← make_member "carol" 2;
  '(alice, alice_group) ← call create_group alice;
  same (epoch alice_group) (umk 64 0);;
  '(bob, bob_kp) ← call key_package bob;
  '(alice, (_, welcome_bob)) ← call (add_member bob_kp) (alice_group, alice);
  same (epoch alice.1) (umk 64 1);;
  '(bob, bob_group) ← call (join_group welcome_bob) bob;
  same (epoch bob_group) (umk 64 1);;
  '(carol, carol_kp) ← call key_package carol;
  '(alice, (commit_ac, welcome_carol)) ← call (add_member carol_kp) alice;
  same (epoch alice.1) (umk 64 2);;
  '(bob, _) ← call (process_commit commit_ac) (bob_group, bob);
  same (epoch bob.1) (umk 64 2);;
  '(carol, carol_group) ← call (join_group welcome_carol) carol;
  same (epoch carol_group) (umk 64 2);;
  let msg := blit "hello group of three" in
  '(alice, ct) ← call (encrypt_for_group msg) alice;
  '(bob, bob_pt) ← call (decrypt_from_group ct) bob;
  same bob_pt msg;;
  '(carol, carol_pt) ← call (decrypt_from_group ct) (carol_group, carol);
  same carol_pt msg;;
  let msg2 := blit "bob here" in
  '(bob, ct2) ← call (encrypt_for_group msg2) bob;
  '(alice, alice_pt2) ← call (decrypt_from_group ct2) alice;
  same alice_pt2 msg2;;
  '(carol, carol_pt2) ← call (decrypt_from_group ct2) carol;
  same carol_pt2 msg2.

Definition epoch_advances_on_each_commit : result panic () :=
  alice ← make_member "alice" 0;
  bob ← make_member "bob" 1;
  carol ← make_member "carol" 2;
  '(alice, group) ← call create_group alice;
  same (epoch group) (umk 64 0);;
  '(bob, bob_kp) ← call key_package bob;
  '(alice, _) ← call (add_member bob_kp) (group, alice);
  same (epoch alice.1) (umk 64 1);;
  '(carol, carol_kp) ← call key_package carol;
  '(alice, _) ← call (add_member carol_kp) alice;
  same (epoch alice.1) (umk 64 2).

Definition epoch_secret_changes_per_epoch : result panic () :=
  alice ← make_member "alice" 0;
  bob ← make_member "bob" 1;
  '(alice, group) ← call create_group alice;
  secret_e0 ← get (epoch_secret group alice (rstr_of "zero.test.v1") 32);
  same (length secret_e0) 32;;
  '(bob, bob_kp) ← call key_package bob;
  '(alice, _) ← call (add_member bob_kp) (group, alice);
  secret_e1 ← get (epoch_secret alice.1 alice.2 (rstr_of "zero.test.v1") 32);
  same (length secret_e1) 32;;
  differ secret_e0 secret_e1.

Definition epoch_secret_same_for_all_members_in_epoch : result panic () :=
  alice ← make_member "alice" 0;
  bob ← make_member "bob" 1;
  '(alice, alice_group) ← call create_group alice;
  '(bob, bob_kp) ← call key_package bob;
  '(alice, (_, welcome)) ← call (add_member bob_kp) (alice_group, alice);
  '(bob, bob_group) ← call (join_group welcome) bob;
  let label := rstr_of "zero.group.export.v1" in
  alice_sec ← get (epoch_secret alice.1 alice.2 label 32);
  bob_sec ← get (epoch_secret bob_group bob label 32);
  same alice_sec bob_sec.

(** ** [tests/mls_group_tests.rs] *)

Definition group_of_three_forms_sends_and_receives : result panic () :=
  alice ← make_member "alice" 0;
  bob ← make_member "bob" 1;
  carol ← make_member "carol" 2;
  '(alice, alice_group) ← call create_group alice;
  same (epoch alice_group) (umk 64 0);;
  '(bob, bob_kp) ← call key_package bob;
  '(alice, (_, welcome_bob)) ← call (add_member bob_kp) (alice_group, alice);
  same (epoch alice.1) (umk 64 1);;
  '(bob, bob_group) ← call (join_group welcome_bob) bob;
  same (epoch bob_group) (umk 64 1);;
  '(carol, carol_kp) ← call key_package carol;
  '(alice, (commit_ac, welcome_carol)) ← call (add_member carol_kp) alice;
  same (epoch alice.1) (umk 64 2);;
  '(bob, _) ← call (process_commit commit_ac) (bob_group, bob);
  same (epoch bob.1) (umk 64 2);;
  '(carol, carol_group) ← call (join_group welcome_carol) carol;
  same (epoch carol_group) (umk 64 2);;
  let msg := blit "hello group of three" in
  '(alice, ct) ← call (encrypt_for_group msg) alice;
  '(bob, bob_pt) ← call (decrypt_from_group ct) bob;
  '(carol, carol_pt) ← call (decrypt_from_group ct) (carol_group, carol);
  same bob_pt msg;;
  same carol_pt msg;;
  let reply := blit "reply from bob" in
  '(bob, ct2) ← call (encrypt_for_group reply) bob;
  '(alice, alice_pt) ← call (decrypt_from_group ct2) alice;
  '(carol, carol_pt2) ← call (decrypt_from_group ct2) carol;
  same alice_pt reply;;
  same carol_pt2 reply.

Definition epoch_advances_on_commit : result panic () :=
  alice ← make_member "alice" 0;
  bob ← make_member "bob" 1;
  carol ← make_member "carol" 2;
  '(alice, group) ← call create_group alice;
  same (epoch group) (umk 64 0);;
  '(bob, bob_kp) ← call key_package bob;
  '(alice, _) ← call (add_member bob_kp) (group, alice);
  same (epoch alice.1) (umk 64 1);;
  '(carol, carol_kp) ← call key_package carol;
  '(alice, _) ← call (add_member carol_kp) alice;
  same (epoch alice.1) (umk 64 2).

Definition epoch_secret_exported_consistently : result panic () :=
  alice ← make_member "alice" 0;
  bob ← make_member "bob" 1;
  '(alice, alice_group) ← call create_group alice;
  '(bob, bob_kp) ← call key_package bob;
  '(alice, (_, welcome)) ← call (add_member bob_kp) (alice_group, alice);
  '(bob, bob_group) ← call (join_group welcome) bob;
  let label := rstr_of "zero.group.export.v1" in
  alice_sec ← get (epoch_secret alice.1 alice.2 label 32);
  bob_sec ← get (epoch_secret bob_group bob label 32);
  same alice_sec bob_sec;;
  same (length alice_sec) 32.

Definition group_key_tests : list (string * io () panic ()) :=
  prod_map id lift <$> [
  ("generate_key_package_produces_distinct_bytes", generate_key_package_produces_distinct_bytes);
  ("two_member_group_send_receive", two_member_group_send_receive);
  ("group_of_three_forms_and_exchanges_messages", group_of_three_forms_and_exchanges_messages);
  ("epoch_advances_on_each_commit", epoch_advances_on_each_commit);
  ("epoch_secret_changes_per_epoch", epoch_secret_changes_per_epoch);
  ("epoch_secret_same_for_all_members_in_epoch", epoch_secret_same_for_all_members_in_epoch);
  ("group_of_three_forms_sends_and_receives", group_of_three_forms_sends_and_receives);
  ("epoch_advances_on_commit", epoch_advances_on_commit);
  ("epoch_secret_exported_consistently", epoch_secret_exported_consistently)]%string.
End group_key_tests.

Lemma group_key_tests_pass :
  failures tt (group_key_tests (M := Toy.toy_mls) (λ _, []) (λ i, replicate (S i) x07)) = [].
Proof. vm_compute. reflexivity. Qed.
