(* ===== verification/IdentityTests.v ===== *)
(** * The tests of the identity crate ([error.rs], [neural_key.rs], [machine_key.rs] and
      [tests/integration.rs]) and of the SDK's builder ([builder.rs])

    One definition per [#[test]] function, over the interfaces of [NeuralKey] and [MachineKey]
    and what the operating system and the environment give. *)

From Stdlib Require Import ZArith Lia Strings.Byte.
From stdpp Require Import base tactics gmap strings sorting numbers countable pretty list.
From S2P Require Import Prelude Bytes Store Mem Aad Dm Crypto NeuralKey MachineKey Sdk.
From S2P Require Import TestKit StorageTests CryptoTests.
#[local] Open Scope nat_scope.

(** ** [error.rs] *)

Section error_tests.
Context `{ZK : ZidKeys}.
Variable zid_display : zid_error → string.
Open Scope string_scope.

(** The derived [Display]; the [zid] crate's and [std]'s are parameters of it. *)
Definition IdentityError_to_string (e : IdentityError) : string :=
  match e with
  | Zid e => "zid cryptographic error: " +:+ zid_display e
  | IdIo e => "I/O error: " +:+ e
  | InvalidShareConfig => "invalid Shamir share configuration"
  | ShareRecoveryFailed => "Shamir share recovery failed"
  | KeyNotFound => "machine key not found"
  | SerializationError => "serialization error"
  | SealError s => "seal error: " +:+ s
  | UnsealError s => "unseal error: " +:+ s
  end.

Definition displays {S} (err : IdentityError) : io S panic () :=
  assert_ne (IdentityError_to_string err) "".
Definition shows {S} (err : IdentityError) (part : string) : io S panic () :=
  assert (contains (IdentityError_to_string err) part).

Definition zid_variant_displays {S} (inner : zid_error) : io S panic () := displays (Zid inner).
Definition io_variant_displays {S} : io S panic () := displays (IdIo "boom").
Definition invalid_share_config_displays {S} : io S panic () := displays InvalidShareConfig.
Definition share_recovery_failed_displays {S} : io S panic () := displays ShareRecoveryFailed.
Definition key_not_found_displays {S} : io S panic () := displays KeyNotFound.
Definition serialization_error_displays {S} : io S panic () := displays SerializationError.
Definition seal_error_displays {S} : io S panic () :=
  shows (SealError "hkdf expand failed") "hkdf expand failed".
Definition unseal_error_displays {S} : io S panic () :=
  shows (UnsealError "aead decrypt") "aead decrypt".

Lemma zid_variant_passes {S} (inner : zid_error) (s : S) :
  zid_variant_displays inner s = (s, Ok tt).
Proof. reflexivity. Qed.
End error_tests.

(** ** [neural_key.rs] and [machine_key.rs] *)

Section identity_tests.
Context `{ZK : ZidKeys} `{ZM : !ZidMachine} `{EI : !EqDecision ZidIdentityId}
  `{EM : !EqDecision ZidMachineId}.
Context `{BB : Blake3} `{BK : Blake3Keyed} `{HK : HkdfSha256} `{CC : ChaCha20Poly1305}
  `{SC : SealedCbor}.
Variables (os_rng : nat → bytes) (env : nat → generate_env) (nonce : arr 12).
Abbreviation store_test := (io MachineKeyStore panic ()).

Definition two_generated_keys_have_distinct_identity_ids : store_test :=
  a ← expect (generate (os_rng 0));
  b ← expect (generate (os_rng 1));
  assert_ne (identity_id a) (identity_id b).

Definition identity_id_is_stable_across_repeated_calls : store_test :=
  key ← expect (generate (os_rng 0));
  let first := identity_id key in
  for_all (seq 0 8) (λ _, assert_eq first (identity_id key)).

(** FIPS 204 *)
Definition MLDSA65_PUB_LEN : nat := 1952.

Definition generates (identity : NeuralKey) (label : string) (i : nat)
    : io MachineKeyStore panic MachineKeyEntry :=
  unwrap (generate_machine_key identity (rstr_of label) (env i)).
Definition lists (identity : NeuralKey) : io MachineKeyStore panic (list MachineKeyEntry) :=
  unwrap (reads (λ store, list_machine_keys store identity)).
Definition seals_store (identity : NeuralKey) : io MachineKeyStore panic bytes :=
  unwrap (reads (λ store, to_sealed_bytes store identity nonce)).
Definition unseals {S} (identity : NeuralKey) (blob : bytes) : io S panic MachineKeyStore :=
  expect (from_sealed_bytes identity blob (λ _, Joined)).

(** The ids as a [HashSet]: its size, and equality of two. *)
Definition id_set (l : list MachineKeyEntry) : list ZidMachineId :=
  remove_dups (mke_machine_id <$> l).
Definition same_ids (l k : list ZidMachineId) : bool :=
  forallb (λ x, bool_decide (x ∈ k)) l && forallb (λ x, bool_decide (x ∈ l)) k.

Definition lengths_are (entry : MachineKeyEntry) : store_test :=
  assert_eq (length (arr_bytes (mke_ed25519_pub entry))) 32;;
  assert_eq (length (mke_mldsa65_pub entry)) MLDSA65_PUB_LEN.

Definition generate_three_then_list_returns_three_entries : store_test :=
  identity ← expect (generate (os_rng 0));
  let machine i :=
    entry ← generates identity ("machine-" +:+ pretty i) i;
    lengths_are entry;;
    mret entry in
  m0 ← machine 0; m1 ← machine 1; m2 ← machine 2;
  let created := [m0; m1; m2] in
  listed ← lists identity;
  assert_eq (length listed) 3;;
  assert_eq (length (id_set listed)) 3;;
  assert (same_ids (id_set listed) (id_set created));;
  for_all listed lengths_are.

Definition list_is_scoped_per_identity : store_test :=
  alice ← expect (generate (os_rng 0));
  bob ← expect (generate (os_rng 1));
  generates alice "alice-laptop" 0;;
  generates bob "bob-phone" 1;;
  generates bob "bob-laptop" 2;;
  alice_keys ← lists alice;
  bob_keys ← lists bob;
  assert_eq (length alice_keys) 1;;
  assert_eq (length bob_keys) 2;;
  first ← some (alice_keys !! 0);
  assert_eq (mke_label first) (rstr_of "alice-laptop").

Definition byte_length_invariants : store_test :=
  identity ← expect (generate (os_rng 0));
  entry ← generates identity "byte-length-check" 0;
  lengths_are entry;;
  assert_eq (length (arr_bytes (zid_machine_bytes (mke_machine_id entry)))) 16.

Definition first_and_subsequent_generates_share_one_neural_key : store_test :=
  identity ← expect (generate (os_rng 0));
  genesis ← generates identity "genesis" 0;
  ids ← foldr (λ i (k : list ZidMachineId → io MachineKeyStore panic (list ZidMachineId)) ids,
      entry ← generates identity ("subsequent-" +:+ pretty i) (S i);
      assert (negb (bool_decide (mke_machine_id entry ∈ ids)));;
      k (mke_machine_id entry :: ids))
    mret (seq 0 4) [mke_machine_id genesis];
  assert_eq (length (remove_dups ids)) 5;;
  listed ← lists identity;
  assert_eq (length listed) 5;;
  assert (same_ids (id_set listed) ids);;
  unrelated ← expect (generate (os_rng 1));
  foreign ← lists unrelated;
  assert_eq (length foreign) 0.

Definition seal_unseal_roundtrip_three_entries : store_test :=
  identity ← expect (generate (os_rng 0));
  m0 ← generates identity "seed-0" 0;
  m1 ← generates identity "seed-1" 1;
  m2 ← generates identity "seed-2" 2;
  let originals := [m0; m1; m2] in
  blob ← seals_store identity;
  restored ← unseals identity blob;
  listed ← expect (list_machine_keys restored identity);
  assert_eq (length listed) 3;;
  assert (same_ids (id_set originals) (id_set listed));;
  for_all originals (λ original,
    restored ← some (find (λ e, bool_decide (mke_machine_id e = mke_machine_id original)) listed);
    assert_eq (mke_label restored) (mke_label original);;
    assert_eq (mke_ed25519_pub restored) (mke_ed25519_pub original);;
    assert_eq (mke_mldsa65_pub restored) (mke_mldsa65_pub original);;
    assert_eq (mke_created_at restored) (mke_created_at original)).

Definition sign_after_unseal_verifies : store_test :=
  identity ← expect (generate (os_rng 0));
  entry ← generates identity "signing-device" 0;
  let payload := blit "phase-D1: prove the secret half persists" in
  sig_before ← unwrap (reads (λ store, sign_with store (mke_machine_id entry) payload Joined));
  assert_eq (length sig_before) 64;;
  blob ← seals_store identity;
  restored ← unseals identity blob;
  sig_after ← expect (sign_with restored (mke_machine_id entry) payload Joined);
  assert_eq sig_before sig_after.

Definition is_unseal_error (e : IdentityError) : bool :=
  match e with UnsealError _ => true | _ => false end.

Definition unseal_with_wrong_neural_key_fails : store_test :=
  alice ← expect (generate (os_rng 0));
  other ← expect (generate (os_rng 1));
  generates alice "alice-laptop" 0;;
  sealed ← seals_store alice;
  err ← expect_err (from_sealed_bytes other sealed (λ _, Joined));
  assert (is_unseal_error err).

Definition unseal_rejects_tampered_blob : store_test :=
  identity ← expect (generate (os_rng 0));
  generates identity "tamper-target" 0;;
  blob ← seals_store identity;
  let last := length blob - 1 in
  blob ← xor_at last 1 blob;
  err ← expect_err (from_sealed_bytes identity blob (λ _, Joined));
  assert (is_unseal_error err).

Definition ml_dsa_sign_after_unseal_recovers_length : store_test :=
  identity ← expect (generate (os_rng 0));
  entry ← generates identity "pq-device" 0;
  let payload := blit "pq sign" in
  blob ← seals_store identity;
  restored ← unseals identity blob;
  sig ← expect (ml_dsa_sign_with restored (mke_machine_id entry) payload Joined);
  assert_eq (length sig) 3309.

(** ** [builder.rs] *)

Definition derive_machine_id_is_deterministic : store_test :=
  let id := mkIdentityId (fill16 xaa) in
  let a := derive_default_machine_id id in
  let b := derive_default_machine_id id in
  assert_eq a b.

Definition different_identity_yields_different_machine_id : store_test :=
  let a := derive_default_machine_id (mkIdentityId (fill16 x01)) in
  let b := derive_default_machine_id (mkIdentityId (fill16 x02)) in
  assert_ne a b.

(** ** The run *)

(** ** [tests/integration.rs] *)

Definition full_identity_lifecycle : store_test :=
  original ← expect (generate (os_rng 0));
  let original_id := identity_id original in
  let cfg := mkShareConfig (umk 8 2) (umk 8 3) in
  shares ← expect (split_neural_key original cfg (os_rng 1));
  assert_eq (nks_threshold shares) (umk 8 2);;
  assert_eq (length (nks_shares shares)) 3;;
  let subset := take 2 (nks_shares shares) in
  assert_eq (length subset) 2;;
  recovered ← expect (recover_neural_key subset (nks_threshold shares));
  assert_eq (identity_id recovered) original_id;;
  first ← generates original "primary-laptop" 0;
  second ← generates original "secondary-phone" 1;
  third ← generates original "tertiary-tablet" 2;
  for_all [first; second; third] lengths_are;;
  assert_ne (mke_machine_id first) (mke_machine_id second);;
  assert_ne (mke_machine_id second) (mke_machine_id third);;
  assert_ne (mke_machine_id first) (mke_machine_id third);;
  listed ← lists original;
  assert_eq (length listed) 3;;
  for_all [first; second; third] (λ e,
    assert (bool_decide (mke_machine_id e ∈ mke_machine_id <$> listed)));;
  listed_via_recovered ← lists recovered;
  assert_eq (length listed_via_recovered) 3.

Definition identity_tests (zid_display : zid_error → string) : list (string * store_test) := [
  ("io_variant_displays", io_variant_displays zid_display);
  ("invalid_share_config_displays", invalid_share_config_displays zid_display);
  ("share_recovery_failed_displays", share_recovery_failed_displays zid_display);
  ("key_not_found_displays", key_not_found_displays zid_display);
  ("serialization_error_displays", serialization_error_displays zid_display);
  ("seal_error_displays", seal_error_displays zid_display);
  ("unseal_error_displays", unseal_error_displays zid_display);
  ("two_generated_keys_have_distinct_identity_ids", two_generated_keys_have_distinct_identity_ids);
  ("identity_id_is_stable_across_repeated_calls", identity_id_is_stable_across_repeated_calls);
  ("generate_three_then_list_returns_three_entries", generate_three_then_list_returns_three_entries);
  ("list_is_scoped_per_identity", list_is_scoped_per_identity);
  ("byte_length_invariants", byte_length_invariants);
  ("first_and_subsequent_generates_share_one_neural_key",
    first_and_subsequent_generates_share_one_neural_key);
  ("seal_unseal_roundtrip_three_entries", seal_unseal_roundtrip_three_entries);
  ("sign_after_unseal_verifies", sign_after_unseal_verifies);
  ("unseal_with_wrong_neural_key_fails", unseal_with_wrong_neural_key_fails);
  ("unseal_rejects_tampered_blob", unseal_rejects_tampered_blob);
  ("ml_dsa_sign_after_unseal_recovers_length", ml_dsa_sign_after_unseal_recovers_length);
  ("derive_machine_id_is_deterministic", derive_machine_id_is_deterministic);
  ("different_identity_yields_different_machine_id",
    different_identity_yields_different_machine_id);
  ("full_identity_lifecycle", full_identity_lifecycle)]%string.
End identity_tests.

(** Keys and signatures of the lengths of FIPS 204. *)
Definition sized_machine : @ZidMachine mem_zid :=
  {| Capabilities := u32; caps_from_bits_truncate x := x; caps_bits c := c;
     MachineKeyPair := arr 32 * arr 32;
     pair_from_seeds sign _ pq_sign _ _ _ := Ok (sign, pq_sign);
     pair_ed25519_bytes p := p.1;
     pair_ml_dsa_bytes p := arr_bytes p.2 ++ replicate (Z.to_nat 1920) x00;
     pair_sign_ed25519 p m := arr_fit 64 (arr_bytes p.1 ++ m);
     pair_sign_ml_dsa p m := take (Z.to_nat 3309) (arr_bytes p.2 ++ m ++ replicate (Z.to_nat 3309) x00);
     ZidMachineId := arr 16; zid_machine b := b; zid_machine_bytes i := i |}.

#[local] Existing Instances sized_machine tagging_chacha mixing_hkdf.

Definition drawn_key (i : nat) : bytes := replicate 32 (Z_byte (Z.of_nat (S i))).
Definition drawn_env (i : nat) : generate_env :=
  let b := Z_byte (Z.of_nat (16 + i)) in
  mkGenerateEnv (arr_fill 128 b) (arr_fill 16 b) Joined (Some (umk 64 (Z.of_nat (7 + i)))).

Lemma identity_tests_pass :
  failures MachineKeyStore_new
    (identity_tests drawn_key drawn_env (arr_fill 12 x09) (λ e : @zid_error mem_zid, e : string)) = [].
Proof. vm_compute. reflexivity. Qed.
